(* ===== verification/_CoqProject ===== *)
-Q . S2P
Prelude.v
Grammar.v
Format.v
RouteRule.v
Logger.v
Worker.v
Http.v
Cookie.v
Glob.v
Utils.v
Options.v
Transfer.v
Message.v
Connect.v
Stream.v
Session.v
ProgressMeter.v
TaskGroup.v
JsonRpc.v
RpcSession.v
Ethereum.v
Get.v
RequestOp.v
Report.v
Burl.v
Visit.v
Server.v
Endpoint.v
