(* ===== verification/Prelude.v ===== *)
(** Beast2: the library and its example programs, verified.

    * The program and the files of the development

    Beast2 is a small server library on coroutines (include/boost/beast2, src)
    and example programs (example): burl, a command line client in the manner of
    curl; get, a client for one file; a JSON-RPC client; visit; and a server.
    Every component has a file here with one Module of its name.  Definitions
    keep the names of the source; each is executable, or a step relation over
    executable steps.

    The library:
    - Format.v: format strings (format.hpp), the three pointers of format_impl as
      offsets.
    - RouteRule.v: the patterns of routes (src/route_rule.hpp), rules of the
      Boost.URL grammar, and stable_string with the heap its arrays live in.
    - Logger.v: log_sections and log_service (logger.hpp, src/logger.cpp,
      src/log_service.cpp), with the shared section objects and their use counts;
      also the error category of src/error.cpp.
    - Worker.v: the session loop (src/http_worker.cpp) and the workers of the
      HTTP and HTTPS servers (src/http_server.cpp, src/https_server.cpp).
    - Endpoint.v: endpoint, a union with a kind (endpoint.hpp, src/endpoint.cpp).

    burl (example/client/burl):
    - Options.v: the option table and parse_args (options.cpp).  It gives the
      configuration, the TLS context and request_opt_gen, which uses the
      generators of Glob.v (glob.cpp).
    - Transfer.v: create_request, perform_request and retry (main.cpp,
      message.cpp).  It uses the jar of Cookie.v (cookie.cpp) and the text
      functions of Utils.v (utils.cpp, base64.cpp, mime_type.cpp).  Message.v
      follows the body of a request through its redirects.
    - Connect.v: the SOCKS5 and HTTP proxies, TLS and the order of the steps of
      connect (connect.cpp), programs of a free monad of network actions.
    - Session.v: perform_request (Transfer.v) composed with connect (Connect.v)
      and the rate limits (Stream.v): the lambda connect_to of main.cpp, with a
      stream that is its own history.
    - RequestOp.v: the request operation with Expect: 100-continue (request.hpp).
    - Stream.v: rate limits, output and input streams, burl's error category
      (any_stream.hpp, any_iostream.cpp, error.cpp).
    - ProgressMeter.v and Report.v: the progress meter (progress_meter.cpp) and
      the line report_progress writes (main.cpp), with the sizes of Utils.v.
    - TaskGroup.v: the group that bounds parallel transfers (task_group.hpp).
    - Burl.v: co_main and main (main.cpp).  It composes parse_args's
      configuration and generators (Options.v), the task group (TaskGroup.v) and
      retry (Transfer.v) in one step relation.

    The other programs:
    - Get.v: the get client (example/client/get/main.cpp).
    - JsonRpc.v: the JSON-RPC client (example/client/jsonrpc/jsonrpc): requests,
      answers, errors.  RpcSession.v: the client on its stream (client.cpp:
      stream_impl, json_sink), and programs that call procedures.  Ethereum.v: the
      program that uses it (jsonrpc/main.cpp, eth_methods.hpp).
    - Visit.v: the visit client (example/client/visit/main.cpp).
    - Server.v: the example server (example/server/main.cpp, certificate.cpp); its
      workers on port 80 are those of Worker.v with its handler as their router.

    * How the code is represented

    Text is [str], the list of the chars.  A call that may fail or be undefined
    has a result in [comp]: [Ok], [Err] with an exception or an error code, or
    [UB] for what C++ leaves undefined (a read outside an array, an empty
    optional, a union member that is not alive).  Integers are Z with [wrap] and
    [swrap] where the width matters.  Objects with mutable state are records
    passed along; shared objects live in explicit heaps (Logger.v, RouteRule.v);
    concurrency on one executor is a step function or a step relation whose every
    interleaving is considered (TaskGroup.v, RequestOp.v, Burl.v).

    Libraries outside the repository are classes of operations, with laws their
    documentation gives where a theorem relies on one: [Grammar] (Boost.URL's
    grammar), [Fields] (http::fields), [Worker.Http], [Options.Libs] and
    [Transfer.Web] (URLs, OpenSSL, floating point, files), [Transfer.Origins],
    [Session.Setters], [Cookie.Calendar] (mktime), [Connect.Credentials],
    [Utils.Cmath] (logarithms), [JsonRpc.Json], [RpcSession.StreamParser]
    (Boost.JSON), [Ethereum.Multiprecision], [Get.Append] and
    [Endpoint.Addresses].  [Grammar] and [Fields] have
    implementations (doc_grammar, list_fields), and the others have instances for
    the witnesses.

    Fuel: next of Glob.v and request_opt_gen of Options.v take fuel, and C12 and
    C15 show that there is always enough for every call; the start state and the
    steps of Burl.v take the same fuel, and C1 gives the amount that is enough.
    The loops of Format.v are bounded by the length of the format string, which
    C9 shows to be enough; the repetitions of Grammar.v by the length of the
    input, since each turn consumes a char.

    * What the theorems show

    - Format.v: C9 format_to refines the reading of the string as pieces and
      terminates; exactly when it succeeds; doubled braces print themselves.
    - RouteRule.v: C29 parameter segments are the printed ones; C30 path_rule never
      accepts a parameter; C28 ownership of the arrays of stable_string; a failure
      that does not rewind.
    - Logger.v: C10 get() is a lookup in a table of names; C11 no section is used
      after it was deleted, and none is leaked.
    - Worker.v: C4 and C5 sessions are isolated and follow the parser's
      protocol, over plain and TLS connections, and a failed handshake is followed
      by none; C31 a bad target ends the session by an exception.
    - Cookie.v: C39 path_match against RFC 6265; C7 what is sent from any
      reachable jar; C24 __Host- cookies stay with their host; C22 the cookie file
      is read back, and C23 Set-Cookie gives the cookie its attributes describe, or
      fails exactly when one of them or the prefix is not legal.
    - Glob.v: C12 the product of the pieces; C35 interpolate is a scanner.
    - Utils.v: C32 base64 is the encoding of RFC 4648; C33 quoted strings, defined
      exactly when closed; C34 the filename of Content-Disposition.
    - Options.v: C17 the TLS context; C16 every option is read with its type; C15
      the requests in order.
    - Burl.v: C1 every transfer of the command line is run once, in bounds, and
      burl ends, on every interleaving with signals and --fail-early.
    - Transfer.v: C3 credentials stay with their origin, and cookies are what the
      jar has for the URL, which other transfers may change meanwhile; C18 redirects
      are bounded and keep to allowed schemes; C19 the request that is made; C36
      the delays of retries.
    - Message.v: C38 the method, the body and the fields about it agree on every
      request of a transfer.
    - Connect.v: C21 the SOCKS5 dialog as a server reads it; C20 which addresses
      connect talks to, and what it sends before TLS.
    - Session.v: C2 every request of a transfer is written to a stream that was
      verified for its host, and credentials only where they belong; C27 on every
      connection of a transfer the rate options bound the bytes moved in the time
      really waited, cancelled waits included.
    - ProgressMeter.v: C37 what the meter shows follows from the bytes and the times.
    - TaskGroup.v: C13 the bound, and the close or the cancellation behind each
      failure; C14 every operation ends.
    - JsonRpc.v: C40 exactly when a call succeeds.  RpcSession.v: C6 programs do
      the same with remote procedures as with local ones, with the requests and the
      error codes of the specification; C8 over which layer, and after which
      handshake, requests go.  Ethereum.v: the calls of the program, in
      order, and its sample output.
    - Get.v: C25 a session ends within 457 completions and 51 requests, over TLS
      exactly for https.
    - RequestOp.v: C26 every interleaving, cancellations from outside included,
      completes and writes the body at most once, when it may.
    - Stream.v: a limit of a direction bounds the bytes of every sequence of
      operations on it.
    - Endpoint.v, Report.v, Visit.v and Server.v have lemmas: copies of endpoints,
      the progress line, when connecting and visiting is undefined or ends, what
      the redirecting handlers answer, every request of every connection to port 80,
      when the servers are stopped and what certificates they have.

    Each theorem with hypotheses has a witness, a concrete run of the model.

    * Not modelled

    The configuration macros, throwing helpers, the umbrella header and a stub
    (detail/config.hpp, detail/except.hpp, src/detail/except.cpp, src/segs.hpp,
    beast2.hpp) have no behaviour of their own.  The Windows certificate store of
    options.cpp is left out, and so are the services that the mains install,
    burl's configuration of them apart.  The log page of the server is compiled
    out (serve_log_admin.cpp), and the texts of its certificates are an argument.
    Type-erased streams only forward to the stream they hold. *)
From stdpp Require Export base tactics strings list gmap.
From Stdlib Require Export Ascii ZArith Lia.

(** ** Text *)

(** A C++ string (or the text a string_view shows) is the list of its chars. *)
Abbreviation str := (list ascii).

(** [$ "abc"] is the text of a C++ string literal. *)
Definition txt (s : string) : str := String.list_ascii_of_string s.

Declare Scope src_scope.
Delimit Scope src_scope with src.
Notation "$ s" := (txt s%string) (at level 1, format "$ s") : src_scope.
Open Scope src_scope.
Open Scope Z_scope.

(** The value of a char, unsigned and signed (char is signed on the
    platforms modelled: x86 and arm64-apple ABIs). *)
Definition uchar (c : ascii) : Z := Z.of_N (N_of_ascii c).
Definition schar (c : ascii) : Z :=
  if uchar c <? 128 then uchar c else uchar c - 256.
Definition chr (z : Z) : ascii := ascii_of_N (Z.to_N (z mod 256)).

(** [lo <= ch && ch <= hi], the comparison the character classes are made of. *)
Definition between (lo hi : Z) (c : ascii) : bool :=
  (lo <=? schar c) && (schar c <=? hi).

Notation "a =c b" := (Ascii.eqb a b%char) (at level 70) : src_scope.
Notation "a =s b" := (bool_decide (a = b)) (at level 70) : src_scope.

(** ** Outcomes of a computation *)

(** A call returns a value, fails (an error code or an exception) or has
    undefined behaviour (an out-of-range read, a division by zero, ...). *)
Inductive comp (E A : Type) : Type :=
| Ok (a : A)
| Err (e : E)
| UB.
Arguments Ok {E A} a.
Arguments Err {E A} e.
Arguments UB {E A}.

#[export] Instance comp_ret E : MRet (comp E) := fun A a => Ok a.
#[export] Instance comp_bind E : MBind (comp E) := fun A B f m =>
  match m with
  | Ok a => f a
  | Err e => Err e
  | UB => UB
  end.

Definition is_Ok {E A} (m : comp E A) : bool :=
  match m with Ok _ => true | _ => false end.
Definition is_Err {E A} (m : comp E A) : bool :=
  match m with Err _ => true | _ => false end.
Definition is_UB {E A} (m : comp E A) : bool :=
  match m with UB => true | _ => false end.

(** An exception that leaves a function: its class and its what() text where
    the source gives one. *)
Inductive exn : Type :=
| InvalidArgument (what : str)    (* std::invalid_argument *)
| RuntimeError (what : str)       (* std::runtime_error *)
| SystemError                     (* boost::system::system_error *)
| OutOfRange                      (* std::out_of_range *)
| BadAnyCast                      (* boost::bad_any_cast *)
| BadOptionalAccess.              (* boost::bad_optional_access *)

#[export] Instance exn_eq_dec : EqDecision exn.
Proof. solve_decision. Defined.

#[export] Instance comp_eq_dec {E A} `{EqDecision E, EqDecision A} :
  EqDecision (comp E A).
Proof. solve_decision. Defined.

(** ** Machine integers *)

Definition wrap (w z : Z) : Z := z mod 2 ^ w.
Definition swrap (w z : Z) : Z := (z + 2 ^ (w - 1)) mod 2 ^ w - 2 ^ (w - 1).
Abbreviation u8 := (wrap 8).
Abbreviation u16 := (wrap 16).
Abbreviation u32 := (wrap 32).
Abbreviation u64 := (wrap 64).

Lemma wrap_range w z : 0 <= w -> 0 <= wrap w z < 2 ^ w.
Proof. intros Hw. apply Z.mod_pos_bound. lia. Qed.

Lemma wrap_small w z : 0 <= z < 2 ^ w -> wrap w z = z.
Proof. intros H. by apply Z.mod_small. Qed.

(** A duration or a time point of the standard clocks: a signed 64-bit count. *)
Definition fits (ns : Z) : bool := (- 2 ^ 63 <=? ns) && (ns <? 2 ^ 63).

Lemma fits_spec ns : reflect (- 2 ^ 63 <= ns < 2 ^ 63) (fits ns).
Proof. unfold fits. apply iff_reflect. rewrite andb_true_iff, Z.leb_le, Z.ltb_lt. done. Qed.

Lemma swrap_small w z : 0 < w -> - 2 ^ (w - 1) <= z < 2 ^ (w - 1) -> swrap w z = z.
Proof.
  intros Hw Hz. unfold swrap. replace (2 ^ w) with (2 * 2 ^ (w - 1)).
  - rewrite Z.mod_small; lia.
  - rewrite <- (Z.pow_succ_r 2 (w - 1)) by lia. f_equal. lia.
Qed.

(** ** Character facts *)

Lemma uchar_range c : 0 <= uchar c < 256.
Proof.
  unfold uchar. pose proof (N_ascii_bounded c). lia.
Qed.

Lemma schar_range c : -128 <= schar c < 128.
Proof.
  unfold schar. pose proof (uchar_range c).
  destruct (Z.ltb_spec (uchar c) 128); lia.
Qed.

Lemma chr_uchar c : chr (uchar c) = c.
Proof.
  unfold chr. rewrite Z.mod_small by apply uchar_range.
  unfold uchar. by rewrite N2Z.id, ascii_N_embedding.
Qed.

Lemma uchar_chr z : 0 <= z < 256 -> uchar (chr z) = z.
Proof.
  intros Hz. unfold uchar, chr. rewrite Z.mod_small by lia.
  rewrite N_ascii_embedding by lia. lia.
Qed.

Lemma uchar_inj a b : uchar a = uchar b -> a = b.
Proof. intros H. by rewrite <- (chr_uchar a), <- (chr_uchar b), H. Qed.

(** A predicate on chars holds of every char when it holds of the 256 of them. *)
Definition all_ascii : list ascii := map (fun n => chr (Z.of_nat n)) (seq 0 256).

Lemma all_ascii_complete c : In c all_ascii.
Proof.
  apply in_map_iff. exists (Z.to_nat (uchar c)).
  pose proof (uchar_range c). rewrite Z2Nat.id by lia.
  split; [apply chr_uchar | apply in_seq; lia].
Qed.

Lemma ascii_forallb (P : ascii -> bool) :
  forallb P all_ascii = true -> forall c, P c = true.
Proof.
  intros H c. rewrite forallb_forall in H. apply H, all_ascii_complete.
Qed.

(** ** Scanning text *)

(** The longest prefix whose chars satisfy [p], and what follows it. *)
Fixpoint span (p : ascii -> bool) (s : str) : str * str :=
  match s with
  | [] => ([], [])
  | c :: t => if p c then let '(a, b) := span p t in (c :: a, b) else ([], s)
  end.

(** [s] does not start with a char satisfying [p]. *)
Definition stops (p : ascii -> bool) (s : str) : bool :=
  match s with [] => true | c :: _ => negb (p c) end.

Lemma span_app p s : fst (span p s) ++ snd (span p s) = s.
Proof.
  induction s as [|c t IH]; [done|]. simpl.
  destruct (p c); [|done]. destruct (span p t). simpl in *. by rewrite IH.
Qed.

Lemma span_all p s : forallb p (fst (span p s)) = true.
Proof.
  induction s as [|c t IH]; [done|]. simpl.
  destruct (p c) eqn:Hc; [|done]. destruct (span p t). simpl in *. by rewrite Hc.
Qed.

Lemma span_stops p s : stops p (snd (span p s)) = true.
Proof.
  induction s as [|c t IH]; [done|]. simpl.
  destruct (p c) eqn:Hc; [|by simpl; rewrite Hc]. by destruct (span p t).
Qed.

Lemma span_eq p a b :
  forallb p a = true -> stops p b = true -> span p (a ++ b) = (a, b).
Proof.
  intros Ha Hb. induction a as [|c a IH]; simpl in *.
  - destruct b as [|c b]; [done|]. simpl in *. by destruct (p c).
  - apply andb_true_iff in Ha as [Hc Ha]. by rewrite Hc, IH.
Qed.

Lemma span_whole p a : forallb p a = true -> span p a = (a, []).
Proof. intros Ha. rewrite <- (app_nil_r a) at 1. by apply span_eq. Qed.

Lemma span_inv p s a b :
  span p s = (a, b) -> s = a ++ b /\ forallb p a = true /\ stops p b = true.
Proof.
  intros H. pose proof (span_app p s). pose proof (span_all p s).
  pose proof (span_stops p s). rewrite H in *. simpl in *. done.
Qed.

Lemma span_nil p s b : span p s = ([], b) -> b = s /\ stops p s = true.
Proof. intros H. apply span_inv in H as (-> & _ & H). done. Qed.

(** [starts_with], [ends_with] and [contains] of string_view. *)
Fixpoint starts_with (p s : str) : bool :=
  match p, s with
  | [], _ => true
  | a :: p, b :: s => Ascii.eqb a b && starts_with p s
  | _, [] => false
  end.

Definition ends_with (p s : str) : bool := starts_with (rev p) (rev s).

Definition contains (c : ascii) (s : str) : bool := existsb (Ascii.eqb c) s.

Lemma starts_with_spec p s : starts_with p s = true <-> exists t, s = p ++ t.
Proof.
  revert s. induction p as [|a p IH]; intros s; simpl.
  - split; [by exists s | done].
  - destruct s as [|b s]; simpl.
    + split; [done | by intros [t ?]].
    + rewrite andb_true_iff, IH, Ascii.eqb_eq. split.
      * intros [-> [t ->]]. by exists t.
      * intros [t [= -> ->]]. by eauto.
Qed.

Lemma starts_with_app p t : starts_with p (p ++ t) = true.
Proof. apply starts_with_spec. by exists t. Qed.

Lemma ends_with_spec p s : ends_with p s = true <-> exists t, s = t ++ p.
Proof.
  unfold ends_with. rewrite starts_with_spec. split; intros [t H].
  - exists (rev t). by rewrite <- (rev_involutive s), H, rev_app_distr, rev_involutive.
  - exists (rev t). by rewrite H, rev_app_distr.
Qed.

Lemma contains_spec c s : contains c s = true <-> In c s.
Proof.
  unfold contains. rewrite existsb_exists. split.
  - intros (x & Hx & ->%Ascii.eqb_eq). done.
  - intros H. exists c. by rewrite Ascii.eqb_refl.
Qed.

Lemma contains_app c s t : contains c (s ++ t) = contains c s || contains c t.
Proof. apply existsb_app. Qed.

(** ** Numbers as text *)

Definition is_digit (c : ascii) : bool := between 48 57 c.
Definition digit (n : Z) : ascii := chr (48 + n).

Fixpoint dec_fuel (fuel : nat) (n : Z) : str :=
  match fuel with
  | O => []
  | S fuel => (if n <? 10 then [] else dec_fuel fuel (n / 10)) ++ [digit (n mod 10)]
  end.

(** std::to_string (and operator<<) of an unsigned integer. *)
Definition dec (n : Z) : str := dec_fuel (S (Z.to_nat (Z.log2 n))) n.

(** operator<< of a signed integer. *)
Definition show_Z (n : Z) : str := if n <? 0 then "-"%char :: dec (- n) else dec n.

(** The number a run of digits denotes. *)
Definition undec (s : str) : Z :=
  fold_left (fun a c => 10 * a + (uchar c - 48)) s 0.

Lemma digit_uchar n : 0 <= n < 10 -> uchar (digit n) = 48 + n.
Proof. intros Hn. apply uchar_chr. lia. Qed.

Lemma is_digit_uchar c : is_digit c = true <-> 48 <= uchar c <= 57.
Proof.
  unfold is_digit, between, schar. pose proof (uchar_range c).
  destruct (Z.ltb_spec (uchar c) 128); lia.
Qed.

Lemma is_digit_digit n : 0 <= n < 10 -> is_digit (digit n) = true.
Proof. intros Hn. rewrite is_digit_uchar, digit_uchar; lia. Qed.

Lemma dec_fuel_enough f1 : forall f2 n,
  0 <= n < 2 ^ Z.of_nat f1 -> 0 <= n < 2 ^ Z.of_nat f2 ->
  (0 < f1)%nat -> (0 < f2)%nat -> dec_fuel f1 n = dec_fuel f2 n.
Proof.
  induction f1 as [|f1 IH]; intros [|f2] n H1 H2 P1 P2; [lia..|]. simpl.
  destruct (Z.ltb_spec n 10); [done|]. f_equal.
  rewrite Nat2Z.inj_succ, Z.pow_succ_r in H1, H2 by lia.
  assert (0 <= n / 10 < 2 ^ Z.of_nat f1) by (split; [apply Z.div_pos; lia|apply Z.div_lt_upper_bound; lia]).
  assert (0 <= n / 10 < 2 ^ Z.of_nat f2) by (split; [apply Z.div_pos; lia|apply Z.div_lt_upper_bound; lia]).
  apply IH; try done.
  - destruct f1; [simpl in *; lia | lia].
  - destruct f2; [simpl in *; lia | lia].
Qed.

Lemma dec_bound n : 0 <= n -> 0 <= n < 2 ^ Z.of_nat (S (Z.to_nat (Z.log2 n))).
Proof.
  intros Hn. rewrite Nat2Z.inj_succ, Z2Nat.id by apply Z.log2_nonneg.
  destruct (Z.eq_dec n 0) as [->|]; [simpl; lia|].
  pose proof (Z.log2_spec n). lia.
Qed.

Lemma dec_small n : 0 <= n < 10 -> dec n = [digit n].
Proof.
  intros Hn. unfold dec. simpl. destruct (Z.ltb_spec n 10); [|lia].
  by rewrite Z.mod_small by lia.
Qed.

Lemma dec_step n : 10 <= n -> dec n = dec (n / 10) ++ [digit (n mod 10)].
Proof.
  intros Hn. unfold dec at 1. simpl. destruct (Z.ltb_spec n 10); [lia|].
  f_equal. pose proof (dec_bound n ltac:(lia)) as HB.
  rewrite Nat2Z.inj_succ, Z.pow_succ_r in HB by lia.
  assert (0 < Z.log2 n) by (apply Z.log2_pos; lia).
  apply dec_fuel_enough; [|apply dec_bound, Z.div_pos; lia|lia|lia].
  split; [apply Z.div_pos; lia|]. apply Z.div_lt_upper_bound; lia.
Qed.

(** Induction on the decimal writing of a number. *)
Lemma dec_ind (P : Z -> Prop) :
  (forall n, 0 <= n < 10 -> P n) ->
  (forall n, 10 <= n -> P (n / 10) -> P n) ->
  forall n, 0 <= n -> P n.
Proof.
  intros H0 HS n Hn. apply (Z_lt_induction (fun n => 0 <= n -> P n)); [|done..].
  intros m IH Hm. destruct (Z.ltb_spec m 10).
  - apply H0. lia.
  - assert (0 <= m / 10) by (apply Z.div_pos; lia).
    apply HS; [done|]. apply IH; [|done]. split; [done|]. apply Z.div_lt; lia.
Qed.

Lemma undec_snoc s c : undec (s ++ [c]) = 10 * undec s + (uchar c - 48).
Proof. unfold undec. by rewrite fold_left_app. Qed.

Lemma undec_dec n : 0 <= n -> undec (dec n) = n.
Proof.
  revert n. apply dec_ind; intros n Hn.
  - rewrite dec_small by done. unfold undec. simpl. rewrite digit_uchar; lia.
  - intros IH. rewrite dec_step, undec_snoc, IH by done.
    rewrite digit_uchar by (apply Z.mod_pos_bound; lia).
    pose proof (Z.div_mod n 10). lia.
Qed.

Lemma dec_digits n : 0 <= n -> forallb is_digit (dec n) = true.
Proof.
  revert n. apply dec_ind; intros n Hn.
  - rewrite dec_small by done. simpl. by rewrite is_digit_digit.
  - intros IH. rewrite dec_step, forallb_app, IH by done. simpl.
    by rewrite is_digit_digit by (apply Z.mod_pos_bound; lia).
Qed.

Lemma dec_not_nil n : dec n <> [].
Proof. unfold dec. simpl. by destruct (if n <? 10 then _ else _). Qed.

(** A run of digits with no extra leading zero. *)
Definition canonical (s : str) : bool :=
  match s with
  | [] => false
  | [c] => true
  | c :: _ => negb (c =c "0")
  end.

Lemma dec_head n : 1 <= n -> exists c t, dec n = c :: t /\ (c =c "0") = false.
Proof.
  intros Hn. assert (0 <= n) as H0 by lia. revert n H0 Hn.
  apply (dec_ind (fun n => 1 <= n -> exists c t, dec n = c :: t /\ (c =c "0") = false)).
  - intros n Hn H1. rewrite dec_small by done. do 2 eexists. split; [done|].
    apply Ascii.eqb_neq. intros H%(f_equal uchar). rewrite digit_uchar in H by lia.
    change (uchar "0") with 48 in H. lia.
  - intros n Hn IH _. destruct IH as (c & t & Hd & Hc).
    { apply Z.div_le_lower_bound; lia. }
    rewrite dec_step, Hd by done. by exists c, (t ++ [digit (n mod 10)]).
Qed.

Lemma dec_canonical n : 0 <= n -> canonical (dec n) = true.
Proof.
  intros Hn. destruct (Z.ltb_spec n 10); [by rewrite dec_small|].
  destruct (dec_head n) as (c & t & -> & Hc); [lia|]. simpl. destruct t; [done|].
  by rewrite Hc.
Qed.

Lemma undec_nonneg s : forallb is_digit s = true -> 0 <= undec s.
Proof.
  induction s as [|c s IH] using rev_ind; intros H; [done|].
  rewrite forallb_app in H. apply andb_true_iff in H as [Hs Hc]. simpl in Hc.
  rewrite andb_true_r, is_digit_uchar in Hc. rewrite undec_snoc. specialize (IH Hs). lia.
Qed.

Lemma dec_undec s :
  forallb is_digit s = true -> canonical s = true -> dec (undec s) = s.
Proof.
  induction s as [|c s IH] using rev_ind; intros H HC; [done|].
  rewrite forallb_app in H. apply andb_true_iff in H as [Hs Hc]. simpl in Hc.
  rewrite andb_true_r, is_digit_uchar in Hc. rewrite undec_snoc.
  assert (digit (uchar c - 48) = c) as Hd.
  { apply uchar_inj. rewrite digit_uchar; lia. }
  destruct s as [|a s].
  - change (10 * undec [] + (uchar c - 48)) with (uchar c - 48).
    by rewrite dec_small, Hd by lia.
  - assert (canonical (a :: s) = true) as HC'.
    { simpl in *. destruct s; [done|]. done. }
    specialize (IH Hs HC').
    assert (1 <= undec (a :: s)) as H1.
    { pose proof (undec_nonneg _ Hs). destruct (Z.eq_dec (undec (a :: s)) 0) as [E|]; [|lia].
      rewrite E, dec_small in IH by lia. by simplify_eq. }
    rewrite dec_step by lia.
    replace ((10 * undec (a :: s) + (uchar c - 48)) / 10) with (undec (a :: s))
      by (apply (Z.div_unique _ _ _ (uchar c - 48)); lia).
    replace ((10 * undec (a :: s) + (uchar c - 48)) mod 10) with (uchar c - 48)
      by (apply (Z.mod_unique _ _ (undec (a :: s))); lia).
    by rewrite IH, Hd.
Qed.

(** ** Nondeterministic steps *)

Section Steps.
Context {S : Type} (R : S -> S -> Prop).

(** On every run from [s], whichever steps are taken, [P] holds at some time. *)
Inductive eventually (P : S -> Prop) (s : S) : Prop :=
| eventually_now : P s -> eventually P s
| eventually_next :
    (exists s', R s s') -> (forall s', R s s' -> eventually P s') -> eventually P s.

(** It does when a measure decreases at every step that [I] allows. *)
Lemma eventually_measure (P I : S -> Prop) (m : S -> nat) :
  (forall s, I s -> P s \/ (exists s', R s s') /\ forall s', R s s' -> I s' /\ (m s' < m s)%nat) ->
  forall s, I s -> eventually P s.
Proof.
  intros HS s. remember (m s) as n eqn:Hn. revert s Hn.
  induction n as [n IH] using lt_wf_ind. intros s -> HI.
  destruct (HS s HI) as [HP|[He Hall]]; [by apply eventually_now|].
  apply eventually_next; [done|]. intros s' HR. destruct (Hall s' HR) as [HI' Hm].
  by apply (IH (m s')).
Qed.

(** The same with a bound that is only related to the state. *)
Lemma eventually_bound (P : S -> Prop) (J : nat -> S -> Prop) :
  (forall n s, J n s ->
     P s \/ (exists s', R s s') /\ forall s', R s s' -> exists n', (n' < n)%nat /\ J n' s') ->
  forall n s, J n s -> eventually P s.
Proof.
  intros HS n. induction n as [n IH] using lt_wf_ind. intros s HJ.
  destruct (HS n s HJ) as [HP|[He Hall]]; [by apply eventually_now|].
  apply eventually_next; [done|]. intros s' HR. destruct (Hall s' HR) as (n' & Hn & HJ').
  by apply (IH n').
Qed.

(** Reachable states, and induction on how they are reached. *)
Inductive reaches (s : S) : S -> Prop :=
| reaches_refl : reaches s s
| reaches_step t u : reaches s t -> R t u -> reaches s u.

Lemma reaches_inv (I : S -> Prop) s t :
  (forall a b, I a -> R a b -> I b) -> I s -> reaches s t -> I t.
Proof. intros HI Hs. induction 1; [done|]. by eapply HI. Qed.

End Steps.
