(* ===== verification/Grammar.v ===== *)
(** The interface of the Boost.URL grammar library.

    The sources build their parsers from rules of boost::urls::grammar
    (token_rule, tuple_rule, range_rule, ...), which is a library outside this
    repository: here it is a class of operations with the laws its reference
    documents.  Rules written in this repository (constraint_rule,
    quoted_string, ...) are ordinary values of type [rule]. *)
From S2P Require Import Prelude.

(** The grammar::error codes the sources name or test. *)
Inductive error : Type :=
| need_more | mismatch | end_of_range | leftover | invalid | out_of_range | syntax.

#[export] Instance error_eq_dec : EqDecision error.
Proof. solve_decision. Defined.

(** [r.parse(it, end)]: the argument is the text from [it] to [end]; the
    outcome is the value, or an error code, with the text from the new [it]. *)
Definition rule (A : Type) : Type := str -> comp (error * str) (A * str).

(** The arguments of tuple_rule.  A squelched rule contributes no value. *)
Inductive rules : Type -> Type :=
| rnil : rules unit
| rone {A} (r : rule A) : rules A
| rcons {A B} (r : rule A) (rs : rules B) : rules (A * B)
| rskip {A B} (r : rule A) (rs : rules B) : rules B
| rend {A B} (rs : rules A) (r : rule B) : rules A.

(** The arguments of variant_rule. *)
Inductive alts : Type -> Type :=
| aone {A} (r : rule A) : alts A
| aor {A B} (r : rule A) (rs : alts B) : alts (A + B).

(** What the documentation of the combinators says of a success, as functions. *)
Section Documented.

Definition token_doc (cs : ascii -> bool) : rule str := fun s =>
  match span cs s with
  | ([], _) => Err (mismatch, s)
  | (t, u) => Ok (t, u)
  end.

Definition delim_doc (cs : ascii -> bool) : rule str := fun s =>
  match s with
  | c :: t => if cs c then Ok ([c], t) else Err (mismatch, s)
  | [] => Err (need_more, s)
  end.

Definition literal_doc (l : str) : rule unit := fun s =>
  if starts_with l s then Ok (tt, drop (length l) s) else Err (mismatch, s).

Definition optional_doc {A} (r : rule A) : rule (option A) := fun s =>
  match r s with
  | Ok (a, t) => Ok (Some a, t)
  | Err _ => Ok (None, s)
  | UB => UB
  end.

Fixpoint tuple_doc {A} (rs : rules A) : rule A := fun s =>
  match rs in rules A return comp (error * str) (A * str) with
  | rnil => Ok (tt, s)
  | rone r => r s
  | rcons r rs => '(a, t) ← r s; '(b, u) ← tuple_doc rs t; Ok ((a, b), u)
  | rskip r rs => '(_, t) ← r s; tuple_doc rs t
  | rend rs r => '(a, t) ← tuple_doc rs s; '(_, u) ← r t; Ok (a, u)
  end.

Fixpoint variant_doc {A} (rs : alts A) : rule A := fun s =>
  match rs in alts A return comp (error * str) (A * str) with
  | aone r => r s
  | aor r rs =>
      match r s with
      | Ok (a, t) => Ok (inl a, t)
      | Err _ => match variant_doc rs s with
                 | Ok (b, t) => Ok (inr b, t)
                 | Err e => Err e
                 | UB => UB
                 end
      | UB => UB
      end
  end.

(** range_rule repeats its rule until it fails, every match consuming input. *)
Inductive reps {A} (r : rule A) : str -> list A -> str -> Prop :=
| reps_nil s e u : r s = Err (e, u) -> e <> end_of_range -> reps r s [] s
| reps_cons s a t l u :
    r s = Ok (a, t) -> (length t < length s)%nat -> reps r t l u ->
    reps r s (a :: l) u.

Inductive reps_ub {A} (r : rule A) : str -> Prop :=
| reps_ub_now s : r s = UB -> reps_ub r s
| reps_ub_later s a t :
    r s = Ok (a, t) -> (length t < length s)%nat -> reps_ub r t -> reps_ub r s.

(** parse(sv, rule) accepts only when the rule consumes the whole text. *)
Definition parse_doc {A} (r : rule A) (s : str) : comp error A :=
  match r s with
  | Ok (a, []) => Ok a
  | Ok (_, _ :: _) => Err leftover
  | Err (e, _) => Err e
  | UB => UB
  end.

End Documented.

(** The documentation fixes successes, not which code a combinator fails with
    or where it leaves the iterator then: outcomes are compared up to that,
    except that end_of_range, which range_rule tests, is never produced. *)
Definition agree {A} (x y : comp (error * str) A) : Prop :=
  match x, y with
  | Ok a, Ok b => a = b
  | Err e, Err f => fst e = end_of_range <-> fst f = end_of_range
  | UB, UB => True
  | _, _ => False
  end.
Infix "≈" := agree (at level 70) : src_scope.

(** As [agree], for the outcome of a whole parse. *)
Definition agree_res {A} (x y : comp error A) : Prop :=
  match x, y with
  | Ok a, Ok b => a = b
  | Err _, Err _ => True
  | UB, UB => True
  | _, _ => False
  end.
Infix "≈r" := agree_res (at level 70) : src_scope.

#[export] Instance agree_equiv A : Equivalence (@agree A).
Proof.
  split.
  - by intros [|?|].
  - intros [|?|] [|?|]; simpl; naive_solver.
  - intros [|?|] [|?|] [|?|]; simpl; naive_solver.
Qed.

#[export] Instance agree_res_equiv A : Equivalence (@agree_res A).
Proof.
  split.
  - by intros [|?|].
  - intros [|?|] [|?|]; simpl; naive_solver.
  - intros [|?|] [|?|] [|?|]; simpl; naive_solver.
Qed.

Class Grammar := {
  find_if_not : (ascii -> bool) -> str -> nat;
  token_rule : (ascii -> bool) -> rule str;
  delim_rule : (ascii -> bool) -> rule str;
  literal_rule : str -> rule unit;
  unsigned_rule : Z -> rule Z;                    (* the width in bits *)
  optional_rule : forall {A}, rule A -> rule (option A);
  tuple_rule : forall {A}, rules A -> rule A;
  variant_rule : forall {A}, alts A -> rule A;
  range_rule : forall {A}, rule A -> rule (list A);
  parse_at : forall {A}, rule A -> rule A;        (* parse(it, end, rule) *)
  parse : forall {A}, rule A -> str -> comp error A;  (* parse(sv, rule) *)
  all_chars : ascii -> bool;
  alpha_chars : ascii -> bool;
  digit_chars : ascii -> bool;
  alnum_chars : ascii -> bool;
  lut_chars : str -> ascii -> bool;
  to_lower : ascii -> ascii;
  ci_is_equal : str -> str -> bool
}.

Definition is_alpha (c : ascii) : bool := between 65 90 c || between 97 122 c.
Definition lower (c : ascii) : ascii :=
  if between 65 90 c then chr (uchar c + 32) else c.

(** delim_rule(ch) is delim_rule of the set of that char alone. *)
Definition one (d c : ascii) : bool := Ascii.eqb c d.

(** [cs1 - cs2] and [cs1 + cs2] on character sets. *)
Definition cs_minus (a b : ascii -> bool) : ascii -> bool := fun c => a c && negb (b c).
Definition cs_plus (a b : ascii -> bool) : ascii -> bool := fun c => a c || b c.

Class GrammarLaws `{Grammar} : Prop := {
  find_if_not_law cs s : find_if_not cs s = length (fst (span cs s));
  token_rule_law cs s : token_rule cs s ≈ token_doc cs s;
  delim_rule_law cs s : delim_rule cs s ≈ delim_doc cs s;
  literal_rule_law l s : literal_rule l s ≈ literal_doc l s;
  unsigned_rule_accepts w n t :
    0 <= n < 2 ^ w -> stops is_digit t = true ->
    unsigned_rule w (dec n ++ t) ≈ Ok (n, t);
  unsigned_rule_sound w s n t :
    unsigned_rule w s = Ok (n, t) ->
    0 <= n < 2 ^ w /\ s = dec n ++ t /\ stops is_digit t = true;
  unsigned_rule_total w s :
    unsigned_rule w s <> UB /\ forall e, unsigned_rule w s = Err e -> fst e <> end_of_range;
  optional_rule_law A (r : rule A) s : optional_rule r s ≈ optional_doc r s;
  tuple_rule_law A (rs : rules A) s : tuple_rule rs s ≈ tuple_doc rs s;
  variant_rule_law A (rs : alts A) s : variant_rule rs s ≈ variant_doc rs s;
  range_rule_law A (r : rule A) s l t : reps r s l t -> range_rule r s ≈ Ok (l, t);
  range_rule_ub A (r : rule A) s : reps_ub r s -> range_rule r s ≈ UB;
  parse_at_law A (r : rule A) s : parse_at r s = r s;
  parse_law A (r : rule A) s : parse r s ≈r parse_doc r s;
  all_chars_law c : all_chars c = true;
  alpha_chars_law c : alpha_chars c = is_alpha c;
  digit_chars_law c : digit_chars c = is_digit c;
  alnum_chars_law c : alnum_chars c = is_alpha c || is_digit c;
  lut_chars_law cs c : lut_chars cs c = contains c cs;
  to_lower_law c : to_lower c = lower c;
  ci_is_equal_law a b : ci_is_equal a b = (map lower a =s map lower b)
}.

(** ** Reasoning with the laws

    A parser written with the class's operations agrees with the function its
    documentation gives; the lemmas below push that through the combinators and
    are the hints of the database [grammar]. *)

Definition rule_agree {A} (r r' : rule A) : Prop := forall s, r s ≈ r' s.
Infix "≈p" := rule_agree (at level 70) : src_scope.

Create HintDb grammar discriminated.

#[export] Instance rule_agree_equiv A : Equivalence (@rule_agree A).
Proof.
  split.
  - by intros r s.
  - intros r r' H s. by symmetry.
  - intros r1 r2 r3 H1 H2 s. by transitivity (r2 s).
Qed.

Inductive rules_agree : forall {A}, rules A -> rules A -> Prop :=
| ra_nil : rules_agree rnil rnil
| ra_one A (r r' : rule A) : r ≈p r' -> rules_agree (rone r) (rone r')
| ra_cons A B (r r' : rule A) (rs rs' : rules B) :
    r ≈p r' -> rules_agree rs rs' -> rules_agree (rcons r rs) (rcons r' rs')
| ra_skip A B (r r' : rule A) (rs rs' : rules B) :
    r ≈p r' -> rules_agree rs rs' -> rules_agree (rskip r rs) (rskip r' rs')
| ra_end A B (r r' : rule A) (rs rs' : rules B) :
    r ≈p r' -> rules_agree rs rs' -> rules_agree (rend rs r) (rend rs' r').

Inductive alts_agree : forall {A}, alts A -> alts A -> Prop :=
| aa_one A (r r' : rule A) : r ≈p r' -> alts_agree (aone r) (aone r')
| aa_or A B (r r' : rule A) (rs rs' : alts B) :
    r ≈p r' -> alts_agree rs rs' -> alts_agree (aor r rs) (aor r' rs').

#[export] Hint Constructors rules_agree alts_agree : grammar.

(** Outcomes that agree, continued by functions that agree, agree. *)
Lemma bind_agree {A B} (x y : comp (error * str) A)
    (f g : A -> comp (error * str) B) :
  x ≈ y -> (forall a, f a ≈ g a) -> (x ≫= f) ≈ (y ≫= g).
Proof. intros Hxy Hfg. destruct x, y; simpl in *; try done. by subst. Qed.

Ltac agree_bind H :=
  eapply bind_agree; [apply H | intros [? ?]].

Lemma tuple_doc_agree {A} (rs rs' : rules A) :
  rules_agree rs rs' -> tuple_doc rs ≈p tuple_doc rs'.
Proof.
  induction 1 as [|? ? ? H|? ? ? ? ? ? H ? IH|? ? ? ? ? ? H ? IH|? ? ? ? ? ? H ? IH];
    intros s; simpl.
  - done.
  - apply H.
  - agree_bind H. by agree_bind IH.
  - agree_bind H. apply IH.
  - agree_bind IH. by agree_bind H.
Qed.

Lemma variant_doc_agree {A} (rs rs' : alts A) :
  alts_agree rs rs' -> variant_doc rs ≈p variant_doc rs'.
Proof.
  induction 1 as [? ? ? H|? ? ? ? ? ? H ? IH]; intros s; simpl; [apply H|].
  specialize (H s). specialize (IH s).
  destruct (r s) as [[]| |], (r' s) as [[]| |]; simpl in *; try done; [by simplify_eq|].
  destruct (variant_doc rs s) as [[]| |], (variant_doc rs' s) as [[]| |];
    simpl in *; try done. by simplify_eq.
Qed.

Lemma optional_doc_agree {A} (r r' : rule A) :
  r ≈p r' -> optional_doc r ≈p optional_doc r'.
Proof.
  intros H s. specialize (H s). unfold optional_doc.
  destruct (r s) as [[]| |], (r' s) as [[]| |]; simpl in *; try done.
  by simplify_eq.
Qed.

(** Repetition as a function: the fuel [S (length s)] exceeds the number of
    matches, each consuming a char. *)
Fixpoint range_loop {A} (fuel : nat) (r : rule A) : rule (list A) := fun s =>
  match fuel with
  | O => Ok ([], s)
  | S fuel =>
      match r s with
      | Ok (a, t) => '(l, u) ← range_loop fuel r t; Ok (a :: l, u)
      | Err _ => Ok ([], s)
      | UB => UB
      end
  end.
Definition range_doc {A} (r : rule A) : rule (list A) := fun s =>
  range_loop (S (length s)) r s.

(** A rule that consumes input when it matches and never ends a range early. *)
Record repeatable {A} (r : rule A) : Prop := {
  rep_consumes s a t : r s = Ok (a, t) -> (length t < length s)%nat;
  rep_no_eor s e u : r s = Err (e, u) -> e <> end_of_range
}.

Lemma range_loop_spec {A} (r : rule A) (Hr : repeatable r) fuel : forall s,
  (length s < fuel)%nat ->
  match range_loop fuel r s with
  | Ok (l, t) => reps r s l t
  | Err _ => False
  | UB => reps_ub r s
  end.
Proof.
  induction fuel as [|fuel IH]; intros s Hs; [lia|]. simpl.
  destruct (r s) as [[a t]|[e u]|] eqn:E; simpl.
  - pose proof (rep_consumes r Hr _ _ _ E) as HC.
    specialize (IH t ltac:(lia)).
    destruct (range_loop fuel r t) as [[l u]| |]; simpl; [|done|].
    + by eapply reps_cons.
    + by eapply reps_ub_later.
  - eapply reps_nil; [done|]. by eapply rep_no_eor.
  - by apply reps_ub_now.
Qed.

Lemma reps_agree {A} (r r' : rule A) (H : r ≈p r') s l t :
  reps r' s l t -> reps r s l t.
Proof.
  induction 1 as [s e u E Hne|s a t l u E Hlt _ IH]; specialize (H s); rewrite E in H.
  - destruct (r s) as [|[e' u']|] eqn:E'; simpl in H; try done.
    eapply reps_nil; [done|]. naive_solver.
  - destruct (r s) as [[a' t']| |] eqn:E'; simpl in H; try done. simplify_eq.
    by eapply reps_cons.
Qed.

Lemma reps_ub_agree {A} (r r' : rule A) (H : r ≈p r') s :
  reps_ub r' s -> reps_ub r s.
Proof.
  induction 1 as [s E|s a t E Hlt _ IH]; specialize (H s); rewrite E in H.
  - destruct (r s) eqn:E'; simpl in H; try done. by apply reps_ub_now.
  - destruct (r s) as [[a' t']| |] eqn:E'; simpl in H; try done. simplify_eq.
    by eapply reps_ub_later.
Qed.

(** unsigned_rule: a run of digits without extra leading zeroes, in range. *)
Definition unsigned_doc (w : Z) : rule Z := fun s =>
  let '(d, t) := span is_digit s in
  if canonical d && (undec d <? 2 ^ w) then Ok (undec d, t) else Err (invalid, s).

Section Laws.
Context `{GL : GrammarLaws}.

Lemma token_agree cs cs' :
  (forall c, cs c = cs' c) -> token_rule cs ≈p token_doc cs'.
Proof.
  intros Hcs s. rewrite token_rule_law. unfold token_doc.
  assert (span cs s = span cs' s) as ->; [|done].
  induction s as [|c s IH]; [done|]. simpl. by rewrite Hcs, IH.
Qed.

Lemma delim_agree cs cs' :
  (forall c, cs c = cs' c) -> delim_rule cs ≈p delim_doc cs'.
Proof.
  intros Hcs s. rewrite delim_rule_law. unfold delim_doc.
  destruct s as [|c s]; [done|]. by rewrite Hcs.
Qed.

Lemma literal_agree l : literal_rule l ≈p literal_doc l.
Proof. intros s. apply literal_rule_law. Qed.

Lemma optional_agree {A} (r r' : rule A) :
  r ≈p r' -> optional_rule r ≈p optional_doc r'.
Proof.
  intros Hr s. rewrite optional_rule_law. by apply optional_doc_agree.
Qed.

Lemma tuple_agree {A} (rs rs' : rules A) :
  rules_agree rs rs' -> tuple_rule rs ≈p tuple_doc rs'.
Proof. intros Hr s. rewrite tuple_rule_law. by apply tuple_doc_agree. Qed.

Lemma variant_agree {A} (rs rs' : alts A) :
  alts_agree rs rs' -> variant_rule rs ≈p variant_doc rs'.
Proof. intros Hr s. rewrite variant_rule_law. by apply variant_doc_agree. Qed.

Lemma range_agree {A} (r r' : rule A) :
  repeatable r' -> r ≈p r' -> range_rule r ≈p range_doc r'.
Proof.
  intros Hrep Hr s. unfold range_doc.
  pose proof (range_loop_spec r' Hrep (S (length s)) s ltac:(lia)) as HS.
  destruct (range_loop (S (length s)) r' s) as [[l t]| |]; [|done|].
  - apply range_rule_law. by eapply reps_agree.
  - apply range_rule_ub. by eapply reps_ub_agree.
Qed.

Lemma unsigned_agree w : unsigned_rule w ≈p unsigned_doc w.
Proof.
  intros s. unfold unsigned_doc. destruct (span is_digit s) as [d t] eqn:E.
  apply span_inv in E as (-> & Hd & Ht).
  destruct (canonical d && (undec d <? 2 ^ w)) eqn:HC.
  - apply andb_true_iff in HC as [HC HB%Z.ltb_lt].
    rewrite <- (dec_undec d) at 1 by done.
    apply unsigned_rule_accepts; [|done]. split; [by apply undec_nonneg|done].
  - destruct (unsigned_rule_total w (d ++ t)) as [Hub Heor].
    destruct (unsigned_rule w (d ++ t)) as [[n u]|e|] eqn:E; [| |done].
    2: { simpl. specialize (Heor e eq_refl). done. }
    exfalso. apply unsigned_rule_sound in E as (Hn & Hs & Hu).
    assert (span is_digit (d ++ t) = (dec n, u)) as E.
    { rewrite Hs. apply span_eq; [|done]. apply dec_digits. lia. }
    rewrite span_eq in E by done. simplify_eq.
    rewrite dec_canonical, undec_dec in HC by lia. simpl in HC.
    apply Z.ltb_ge in HC. lia.
Qed.

Lemma parse_agree {A} (r r' : rule A) s :
  r ≈p r' -> parse r s ≈r parse_doc r' s.
Proof.
  intros Hr. rewrite parse_law. specialize (Hr s). unfold parse_doc.
  destruct (r s) as [[a t]|[]|], (r' s) as [[b u]|[]|]; simpl in *; try done.
  simplify_eq. by destruct u.
Qed.

Lemma parse_at_agree {A} (r r' : rule A) :
  r ≈p r' -> parse_at r ≈p r'.
Proof. intros Hr s. rewrite parse_at_law. apply Hr. Qed.
End Laws.

#[export] Hint Resolve token_agree delim_agree literal_agree optional_agree
  tuple_agree variant_agree range_agree unsigned_agree parse_at_agree : grammar.

(** ** Side conditions of repeated rules *)

Lemma token_repeatable cs : repeatable (token_doc cs).
Proof.
  unfold token_doc. split.
  - intros s a t. destruct (span cs s) as [d u] eqn:E.
    apply span_inv in E as (-> & _). destruct d; intros; simplify_eq.
    rewrite length_app. simpl. lia.
  - intros s e u. destruct (span cs s) as [[] ?]; intros; by simplify_eq.
Qed.

Lemma delim_repeatable cs : repeatable (delim_doc cs).
Proof.
  unfold delim_doc. split.
  - intros [|c s] a t; [done|]. destruct (cs c); intros; by simplify_eq/=; lia.
  - intros [|c s] e u; [|destruct (cs c)]; intros; by simplify_eq.
Qed.

(** A rule that never grows its input, as all of them here. *)
Definition shrinking {A} (r : rule A) : Prop :=
  (forall s a t, r s = Ok (a, t) -> (length t <= length s)%nat) /\
  (forall s e u, r s = Err (e, u) -> e <> end_of_range).

Lemma repeatable_shrinking {A} (r : rule A) : repeatable r -> shrinking r.
Proof.
  intros [H1 H2]. split; [|done]. intros s a t H%H1. lia.
Qed.

Lemma optional_shrinking {A} (r : rule A) : shrinking r -> shrinking (optional_doc r).
Proof.
  unfold optional_doc. intros [H1 H2]. split.
  - intros s a t. destruct (r s) as [[]| |] eqn:E; intros; simplify_eq; [|done].
    by eapply H1.
  - intros s e u. destruct (r s) as [[]| |] eqn:E; intros; by simplify_eq.
Qed.

Lemma unsigned_shrinking w : shrinking (unsigned_doc w).
Proof.
  unfold unsigned_doc. split; intros s a t;
    destruct (span is_digit s) as [d u] eqn:E; apply span_inv in E as (-> & _);
    case_match; intros; simplify_eq; [|done].
  rewrite length_app. lia.
Qed.

Lemma variant_shrinking {A B} (r : rule A) (rs : alts B) :
  shrinking r -> shrinking (variant_doc rs) -> shrinking (variant_doc (aor r rs)).
Proof.
  intros [H1 H2] [H3 H4]. split; intros s a t; simpl;
    destruct (r s) as [[]| |] eqn:E; simpl; try (intros; by simplify_eq; eauto);
    destruct (variant_doc rs s) as [[]| |] eqn:E'; intros; simplify_eq; eauto.
Qed.

Lemma variant_one_shrinking {A} (r : rule A) :
  shrinking r -> shrinking (variant_doc (aone r)).
Proof. done. Qed.

Lemma tuple_one_shrinking {A} (r : rule A) : shrinking r -> shrinking (tuple_doc (rone r)).
Proof. done. Qed.

Lemma tuple_nil_shrinking : shrinking (tuple_doc rnil).
Proof. split; intros; by simplify_eq/=. Qed.

Lemma tuple_skip_shrinking {A B} (r : rule A) (rs : rules B) :
  shrinking r -> shrinking (tuple_doc rs) -> shrinking (tuple_doc (rskip r rs)).
Proof.
  intros [H1 H2] [H3 H4]. split; intros s a t; simpl;
    destruct (r s) as [[x v]| |] eqn:E; simpl; intros H; simplify_eq; eauto.
  apply H1 in E. apply H3 in H. lia.
Qed.

Lemma tuple_cons_shrinking {A B} (r : rule A) (rs : rules B) :
  shrinking r -> shrinking (tuple_doc rs) -> shrinking (tuple_doc (rcons r rs)).
Proof.
  intros [H1 H2] [H3 H4]. split; intros s a t; simpl;
    destruct (r s) as [[x v]| |] eqn:E; simpl; try (intros H; simplify_eq; eauto; fail);
    destruct (tuple_doc rs v) as [[y w]| |] eqn:E'; simpl; intros H; simplify_eq; eauto.
  apply H1 in E. apply H3 in E'. lia.
Qed.

(** A tuple with an element that consumes is repeatable. *)
Lemma tuple_skip_repeatable_l {A B} (r : rule A) (rs : rules B) :
  repeatable r -> shrinking (tuple_doc rs) -> repeatable (tuple_doc (rskip r rs)).
Proof.
  intros HR HS. destruct (tuple_skip_shrinking r rs) as [_ HN];
    [by apply repeatable_shrinking|done|].
  destruct HR as [H1 H2], HS as [H3 H4]. split; [|done].
  intros s a t; simpl; destruct (r s) as [[x v]| |] eqn:E; simpl; intros H; simplify_eq.
  apply H1 in E. apply H3 in H. lia.
Qed.

Lemma tuple_cons_repeatable_l {A B} (r : rule A) (rs : rules B) :
  repeatable r -> shrinking (tuple_doc rs) -> repeatable (tuple_doc (rcons r rs)).
Proof.
  intros HR HS. destruct (tuple_cons_shrinking r rs) as [_ HN];
    [by apply repeatable_shrinking|done|].
  destruct HR as [H1 H2], HS as [H3 H4]. split; [|done].
  intros s a t; simpl; destruct (r s) as [[x v]| |] eqn:E; simpl; try done.
  destruct (tuple_doc rs v) as [[y w]| |] eqn:E'; simpl; intros; simplify_eq.
  apply H1 in E. apply H3 in E'. lia.
Qed.

Lemma tuple_skip_repeatable_r {A B} (r : rule A) (rs : rules B) :
  shrinking r -> repeatable (tuple_doc rs) -> repeatable (tuple_doc (rskip r rs)).
Proof.
  intros HS HR. destruct (tuple_skip_shrinking r rs) as [_ HN];
    [done|by apply repeatable_shrinking|].
  destruct HR as [H1 H2], HS as [H3 H4]. split; [|done].
  intros s a t; simpl; destruct (r s) as [[x v]| |] eqn:E; simpl; intros H; simplify_eq.
  apply H3 in E. apply H1 in H. lia.
Qed.

Lemma tuple_one_repeatable {A} (r : rule A) : repeatable r -> repeatable (tuple_doc (rone r)).
Proof. intros [H1 H2]. by split. Qed.

Lemma variant_repeatable {A B} (r : rule A) (rs : alts B) :
  repeatable r -> repeatable (variant_doc rs) -> repeatable (variant_doc (aor r rs)).
Proof.
  intros [H1 H2] [H3 H4]. split; intros s a t; simpl;
    destruct (r s) as [[]| |] eqn:E; simpl; try (intros; by simplify_eq; eauto);
    destruct (variant_doc rs s) as [[]| |] eqn:E'; intros; simplify_eq; eauto.
Qed.

Lemma variant_one_repeatable {A} (r : rule A) :
  repeatable r -> repeatable (variant_doc (aone r)).
Proof. intros [H1 H2]. by split. Qed.

#[export] Hint Resolve token_repeatable delim_repeatable repeatable_shrinking
  optional_shrinking unsigned_shrinking variant_shrinking variant_one_shrinking
  tuple_one_shrinking tuple_nil_shrinking tuple_skip_shrinking tuple_cons_shrinking
  tuple_one_repeatable variant_repeatable variant_one_repeatable
  tuple_cons_repeatable_l : grammar.
#[export] Hint Resolve tuple_skip_repeatable_l tuple_skip_repeatable_r | 5 : grammar.

(** ** Evaluating the documented rules *)

(** One element of a tuple matching. *)
Lemma token_doc_app cs a t :
  a <> [] -> forallb cs a = true -> stops cs t = true -> token_doc cs (a ++ t) = Ok (a, t).
Proof.
  intros Ha Hall Ht. unfold token_doc. rewrite span_eq by done. by destruct a.
Qed.

Lemma optional_token_app cs v t :
  v <> Some [] -> forallb cs (default [] v) = true -> stops cs t = true ->
  optional_doc (token_doc cs) (default [] v ++ t) = Ok (v, t).
Proof.
  intros Hv Hall Ht. unfold optional_doc. destruct v as [v|]; simpl in *.
  - rewrite token_doc_app; [done|congruence|done|done].
  - unfold token_doc. destruct t as [|c t]; simpl in *; [done|]. by destruct (cs c).
Qed.

Lemma delim_one_cons d t : delim_doc (one d) (d :: t) = Ok ([d], t).
Proof. unfold one. simpl. by rewrite Ascii.eqb_refl. Qed.

Lemma delim_one_other d c t : c <> d -> delim_doc (one d) (c :: t) = Err (mismatch, c :: t).
Proof. intros Hc%Ascii.eqb_neq. unfold one. simpl. by rewrite Hc. Qed.

Lemma optional_delim_cons d t :
  optional_doc (delim_doc (one d)) (d :: t) = Ok (Some [d], t).
Proof. unfold optional_doc. by rewrite delim_one_cons. Qed.

Lemma optional_delim_stop d t :
  stops (one d) t = true -> optional_doc (delim_doc (one d)) t = Ok (None, t).
Proof.
  intros Ht. unfold optional_doc. destruct t as [|c t]; [done|]. cbn [stops delim_doc] in *.
  by apply negb_true_iff in Ht as ->.
Qed.

Lemma token_doc_nonempty cs s a t : token_doc cs s = Ok (a, t) -> a <> [].
Proof. unfold token_doc. destruct (span cs s) as [[|x y] u]; intros; by simplify_eq. Qed.

Lemma range_loop_forall {A} (P : A -> Prop) (r : rule A) :
  (forall s a t, r s = Ok (a, t) -> P a) ->
  forall fuel s l t, range_loop fuel r s = Ok (l, t) -> Forall P l.
Proof.
  intros HP fuel. induction fuel as [|fuel IH]; intros s l t; simpl; intros; simplify_eq; [done|].
  destruct (r s) as [[a u]| |] eqn:E; simplify_eq; [|done].
  destruct (range_loop fuel r u) as [[l' u']| |] eqn:E'; simplify_eq/=.
  constructor; [by eapply HP|by eapply IH].
Qed.

(** Splits a chain of binds that succeeded. *)
Ltac bind_ok :=
  repeat match goal with
  | H : mbind _ ?m = Ok _ |- _ =>
      let x := fresh "x" in let E := fresh "E" in
      destruct m as [x| |] eqn:E; cbn [mbind comp_bind] in H; [|discriminate H..];
      try (destruct x; [])
  end.

(** ** An implementation of the interface, for the witnesses *)

#[export] Instance doc_grammar : Grammar := {
  find_if_not cs s := length (fst (span cs s));
  token_rule := token_doc;
  delim_rule := delim_doc;
  literal_rule := literal_doc;
  unsigned_rule := unsigned_doc;
  optional_rule := @optional_doc;
  tuple_rule := @tuple_doc;
  variant_rule := @variant_doc;
  range_rule := @range_doc;
  parse_at := fun _ r => r;
  parse := @parse_doc;
  all_chars _ := true;
  alpha_chars := is_alpha;
  digit_chars := is_digit;
  alnum_chars c := is_alpha c || is_digit c;
  lut_chars cs c := contains c cs;
  to_lower := lower;
  ci_is_equal a b := map lower a =s map lower b
}.

Lemma range_loop_reps {A} (r : rule A) s l t :
  reps r s l t -> forall fuel, (length s < fuel)%nat -> range_loop fuel r s = Ok (l, t).
Proof.
  induction 1 as [s e u E Hne|s a t l u E Hlt _ IH]; intros [|fuel] Hf; [lia..| |lia|];
    simpl; rewrite E; [done|]. by rewrite IH by lia.
Qed.

Lemma range_loop_reps_ub {A} (r : rule A) s :
  reps_ub r s -> forall fuel, (length s < fuel)%nat -> range_loop fuel r s = UB.
Proof.
  induction 1 as [s E|s a t E Hlt _ IH]; intros [|fuel] Hf; [lia..| |lia|];
    simpl; rewrite E; [done|]. by rewrite IH by lia.
Qed.

Lemma unsigned_doc_accepts w n t :
  0 <= n < 2 ^ w -> stops is_digit t = true -> unsigned_doc w (dec n ++ t) = Ok (n, t).
Proof.
  intros Hn Ht. unfold unsigned_doc. rewrite span_eq by (apply dec_digits || done; lia).
  rewrite dec_canonical, undec_dec by lia. by rewrite (proj2 (Z.ltb_lt _ _)) by lia.
Qed.

#[export] Instance doc_grammar_laws : @GrammarLaws doc_grammar.
Proof.
  split; simpl; try reflexivity.
  - intros. by rewrite unsigned_doc_accepts.
  - intros w s n t. unfold unsigned_doc. destruct (span is_digit s) as [d u] eqn:E.
    apply span_inv in E as (-> & Hd & Hu). case_match eqn:HC; intros; simplify_eq.
    apply andb_true_iff in HC as [HC HB%Z.ltb_lt].
    rewrite dec_undec by done. pose proof (undec_nonneg d Hd). done.
  - intros w s. unfold unsigned_doc. destruct (span is_digit s).
    case_match; split; try done; intros; by simplify_eq.
  - intros A r s l t H. unfold range_doc. by rewrite (range_loop_reps r s l t H) by lia.
  - intros A r s H. unfold range_doc. by rewrite (range_loop_reps_ub r s H) by lia.
Qed.
