(* ===== verification/Format.v ===== *)
(** Format strings (include/boost/beast2/format.hpp).

    [format_impl] walks the format string with three pointers; here they are
    offsets into [fs].  An argument is represented by the text [os << arg]
    writes for it.  Output goes to the destination string, which keeps what was
    written when an exception leaves the call. *)
From S2P Require Import Prelude.

Module Format.

Record format_impl := mk_impl {
  os : str;                 (* what the stream has received *)
  fs : str;
  p : nat;
  p0 : nat;
  has_placeholder : bool
}.

(** The constructor of format_impl. *)
Definition init (os_ fs_ : str) : format_impl := mk_impl os_ fs_ 0 0 false.

(** core::string_view(s + first, count) *)
Definition view (s : str) (first count : nat) : str := take count (drop first s).

Definition bad_open : exn :=
  InvalidArgument $"invalid format string, unmatched {".
Definition bad_close : exn :=
  InvalidArgument $"invalid format string, unmatched }".
Definition too_few : exn :=
  InvalidArgument $"too few format arguments provided".

(** The while loop of next(); [l] is the text from [p] to [end].  The result is
    the segment returned with the new values of p, p0 and has_placeholder. *)
Fixpoint next_loop (fs l : str) (p p0 : nat)
    (unmatched_open unmatched_close : bool) :
    comp exn (str * nat * nat * bool) :=
  match l with
  | [] =>
      if unmatched_open then Err bad_open
      else if unmatched_close then Err bad_close
      else Ok (view fs p0 (length fs - p0), p, length fs, false)
  | c :: l' =>
      if unmatched_open then
        if c =c "{" then
          let p := S p in Ok (view fs p0 (p - 1 - p0), p, p, false)
        else if c =c "}" then
          let p := S p in Ok (view fs p0 (p - 2 - p0), p, p, true)
        else Err bad_open
      else if unmatched_close then
        if c =c "}" then
          let p := S p in Ok (view fs p0 (p - 1 - p0), p, p, false)
        else Err bad_close
      else
        next_loop fs l' (S p) p0 (c =c "{") (c =c "}")
  end.

Definition next (st : format_impl) : comp exn (str * format_impl) :=
  '(seg, p', p0', ph) ←
    next_loop (fs st) (drop (p st) (fs st)) (p st) (p0 st) false false;
  mret (seg, mk_impl (os st) (fs st) p' p0' ph).

(** os.write(s, n) and os << arg: the stream's buffer is an appendbuf, whose
    xsputn and overflow append to the destination. *)
Definition write (st : format_impl) (s : str) : format_impl :=
  mk_impl (os st ++ s) (fs st) (p st) (p0 st) (has_placeholder st).

(** A call's effect: the state it leaves and how it ended; [None] is a loop
    that has not ended within the fuel. *)
Definition run : Type := option (format_impl * comp exn unit).

(** do_arg: the loop [while(seg.size())] around next(). *)
Fixpoint do_arg (fuel : nat) (st : format_impl) (arg : str) : run :=
  match fuel with
  | O => None
  | S fuel =>
      match next st with
      | Err e => Some (st, Err e)
      | UB => Some (st, UB)
      | Ok (seg, st) =>
          match seg with
          | [] => if has_placeholder st then Some (write st arg, Ok tt)
                  else Some (st, Ok tt)
          | _ =>
              let st := write st seg in
              if has_placeholder st then Some (write st arg, Ok tt)
              else do_arg fuel st arg
          end
      end
  end.

(** The do .. while loop that ends operator(). *)
Fixpoint finish (fuel : nat) (st : format_impl) : run :=
  match fuel with
  | O => None
  | S fuel =>
      match next st with
      | Err e => Some (st, Err e)
      | UB => Some (st, UB)
      | Ok (seg, st) =>
          if has_placeholder st then Some (st, Err too_few)
          else match seg with
               | [] => Some (st, Ok tt)
               | _ => finish fuel (write st seg)
               end
      end
  end.

(** operator(): the arguments in order, then the rest of the format string. *)
Fixpoint call (fuel : nat) (st : format_impl) (args : list str) : run :=
  match args with
  | [] => finish fuel st
  | arg :: args =>
      match do_arg fuel st arg with
      | Some (st, Ok _) => call fuel st args
      | other => other
      end
  end.

(** format_to(std::string& dest, fs, args...): what dest holds afterwards and
    how the call ended.  [S (length fs)] iterations are enough for each loop,
    as [format_to_refines] shows. *)
Definition format_to (dest fs : str) (args : list str) :
    option (str * comp exn unit) :=
  '(st, r) ← call (S (length fs)) (init dest fs) args;
  mret (os st, r).

(** ** Specification: a format string as a sequence of pieces *)

Inductive piece :=
| Lit (c : ascii)      (* an ordinary char *)
| Esc (c : ascii)      (* an escaped brace *)
| Hole                 (* {} *)
| Bad (e : exn).       (* an unmatched brace *)

Fixpoint pieces (s : str) : list piece :=
  match s with
  | [] => []
  | a :: s' =>
      if a =c "{" then
        match s' with
        | b :: t => if b =c "{" then Esc b :: pieces t
                    else if b =c "}" then Hole :: pieces t
                    else [Bad bad_open]
        | [] => [Bad bad_open]
        end
      else if a =c "}" then
        match s' with
        | b :: t => if b =c "}" then Esc b :: pieces t else [Bad bad_close]
        | [] => [Bad bad_close]
        end
      else Lit a :: pieces s'
  end.

(** What a sequence of pieces writes, [pend] being the text since the last
    write; text pending when an exception is thrown is lost. *)
Fixpoint render (pend : str) (ps : list piece) (args : list str) :
    str * comp exn unit :=
  match ps with
  | [] => (pend, Ok tt)
  | Lit c :: ps => render (pend ++ [c]) ps args
  | Esc c :: ps =>
      let '(o, r) := render [] ps args in (pend ++ [c] ++ o, r)
  | Hole :: ps =>
      match args with
      | [] => ([], Err too_few)
      | a :: args => let '(o, r) := render [] ps args in (pend ++ a ++ o, r)
      end
  | Bad e :: _ => ([], Err e)
  end.

(** ** The code refines the specification *)

(** One call of next() seen on the text that is left: the segment, the rest
    and whether a placeholder ended it. *)
Fixpoint scan (pend l : str) : comp exn (str * str * bool) :=
  match l with
  | [] => Ok (pend, [], false)
  | a :: l' =>
      if a =c "{" then
        match l' with
        | b :: t => if b =c "{" then Ok (pend ++ [a], t, false)
                    else if b =c "}" then Ok (pend, t, true)
                    else Err bad_open
        | [] => Err bad_open
        end
      else if a =c "}" then
        match l' with
        | b :: t => if b =c "}" then Ok (pend ++ [a], t, false) else Err bad_close
        | [] => Err bad_close
        end
      else scan (pend ++ [a]) l'
  end.

Lemma view_middle pre mid l :
  view (pre ++ mid ++ l) (length pre) (length mid) = mid.
Proof.
  unfold view. by rewrite drop_app_length, take_app_length.
Qed.

Lemma view_plus pre mid l k :
  k = length mid -> view (pre ++ mid ++ l) (length pre) k = mid.
Proof. intros ->. apply view_middle. Qed.

(** next_loop at offset [|pre| + |mid|] is [scan] with [mid] pending. *)
Lemma next_loop_scan l : forall pre mid,
  next_loop (pre ++ mid ++ l) l (length pre + length mid) (length pre) false false
  = '(seg, rest, ph) ← scan mid l;
    let q := (length (pre ++ mid ++ l) - length rest)%nat in
    mret (seg, q, q, ph).
Proof.
  induction l as [|a l IH]; intros pre mid.
  - simpl. rewrite view_plus by (rewrite !length_app; simpl; lia).
    rewrite !length_app. simpl. repeat f_equal; lia.
  - simpl. destruct (a =c "{") eqn:Ho; [|destruct (a =c "}") eqn:Hc].
    + destruct l as [|b t]; [by destruct (a =c "}")|]. simpl.
      apply Ascii.eqb_eq in Ho as ->. simpl.
      destruct (b =c "{"); [|destruct (b =c "}"); [|done]]; simpl.
      * replace (mid ++ "{"%char :: b :: t) with ((mid ++ ["{"%char]) ++ b :: t)
          by by rewrite <- app_assoc.
        rewrite view_plus by (rewrite length_app; simpl; lia).
        rewrite !length_app. simpl. repeat f_equal; lia.
      * rewrite view_plus by lia. rewrite !length_app. simpl.
        repeat f_equal; lia.
    + destruct l as [|b t]; [done|]. simpl. destruct (b =c "}"); [|done]. simpl.
      replace (mid ++ a :: b :: t) with ((mid ++ [a]) ++ b :: t)
        by by rewrite <- app_assoc.
      rewrite view_plus by (rewrite length_app; simpl; lia).
      rewrite !length_app. simpl. repeat f_equal; lia.
    + specialize (IH pre (mid ++ [a])).
      rewrite length_app, <- app_assoc in IH. simpl in IH.
      replace (S (length pre + length mid)) with (length pre + (length mid + 1))%nat
        by lia.
      apply IH.
Qed.

(** A state that stands at the text [l]. *)
Definition at_text (st : format_impl) (l : str) : Prop :=
  exists pre, fs st = pre ++ l /\ p st = length pre /\ p0 st = length pre.

Lemma scan_rest_suffix l : forall pend seg rest ph,
  scan pend l = Ok (seg, rest, ph) -> exists m, l = m ++ rest.
Proof.
  induction l as [|a l IH]; intros pend seg rest ph H; simpl in H.
  - simplify_eq. by exists [].
  - destruct (a =c "{"); [|destruct (a =c "}")].
    + destruct l as [|b t]; [done|].
      destruct (b =c "{"); [|destruct (b =c "}"); [|done]];
        simplify_eq; by exists [a; b].
    + destruct l as [|b t]; [done|]. destruct (b =c "}"); [|done].
      simplify_eq. by exists [a; b].
    + apply IH in H as [m ->]. by exists (a :: m).
Qed.

Lemma next_at st l :
  at_text st l ->
  match scan [] l with
  | Ok (seg, rest, ph) =>
      exists st', next st = Ok (seg, st') /\ at_text st' rest /\
        os st' = os st /\ has_placeholder st' = ph
  | Err e => next st = Err e
  | UB => False
  end.
Proof.
  intros (pre & Hfs & Hp & Hp0). unfold next. rewrite Hfs, Hp, Hp0.
  rewrite drop_app_length.
  pose proof (next_loop_scan l pre []) as HN. simpl in HN.
  rewrite Nat.add_0_r in HN. rewrite HN. clear HN.
  destruct (scan [] l) as [[[seg rest] ph]|e|] eqn:HS; simpl; [|done|].
  - eexists. split; [done|]. split; [|done].
    apply scan_rest_suffix in HS as [m ->].
    exists (pre ++ m). simpl. rewrite <- app_assoc. split; [done|].
    rewrite !length_app. lia.
  - revert HS. clear. generalize (@nil ascii).
    induction l as [|a l IH]; intros pend; simpl; [done|].
    destruct (a =c "{"); [|destruct (a =c "}")]; [..|apply IH];
      destruct l; repeat case_match; done.
Qed.

(** [scan] and [render]: one call of next() accounts for the pieces up to and
    including the first escape or placeholder. *)
Lemma render_scan l : forall pend args,
  render pend (pieces l) args =
  match scan pend l with
  | Err e => ([], Err e)
  | UB => ([], UB)
  | Ok (seg, rest, ph) =>
      if ph then
        match args with
        | [] => ([], Err too_few)
        | a :: args => let '(o, r) := render [] (pieces rest) args in (seg ++ a ++ o, r)
        end
      else if bool_decide (seg = []) then ([], Ok tt)
      else let '(o, r) := render [] (pieces rest) args in (seg ++ o, r)
  end.
Proof.
  induction l as [|a l IH]; intros pend args; simpl.
  - case_bool_decide; subst; [done|]. by rewrite app_nil_r.
  - destruct (a =c "{") eqn:Ho; [|destruct (a =c "}") eqn:Hc].
    + apply Ascii.eqb_eq in Ho as ->. destruct l as [|b t]; [done|].
      destruct (b =c "{") eqn:Hb; [|destruct (b =c "}"); [|done]]; simpl; [|done].
      apply Ascii.eqb_eq in Hb as ->.
      rewrite bool_decide_eq_false_2 by by destruct pend.
      destruct (render [] (pieces t) args). by rewrite <- app_assoc.
    + apply Ascii.eqb_eq in Hc as ->. destruct l as [|b t]; [done|].
      destruct (b =c "}") eqn:Hb; [|done]. simpl.
      apply Ascii.eqb_eq in Hb as ->.
      rewrite bool_decide_eq_false_2 by by destruct pend.
      destruct (render [] (pieces t) args). by rewrite <- app_assoc.
    + apply IH.
Qed.

(** Every call of next() that returns without reaching the end consumes text. *)
Lemma scan_decreases l : forall pend seg rest ph,
  scan pend l = Ok (seg, rest, ph) ->
  (length rest < length l)%nat \/ (l = [] /\ seg = pend /\ rest = [] /\ ph = false).
Proof.
  induction l as [|a l IH]; intros pend seg rest ph H; simpl in H.
  - simplify_eq. by right.
  - left. destruct (a =c "{"); [|destruct (a =c "}")].
    + destruct l as [|b t]; [done|].
      destruct (b =c "{"); [|destruct (b =c "}"); [|done]]; simplify_eq; simpl; lia.
    + destruct l as [|b t]; [done|]. destruct (b =c "}"); [|done].
      simplify_eq. simpl. lia.
    + apply IH in H as [?|(-> & _ & -> & _)]; simpl; lia.
Qed.

(** An empty segment without a placeholder is the end of the format string. *)
Lemma scan_empty l : forall pend rest,
  scan pend l = Ok ([], rest, false) -> pend = [] /\ l = [] /\ rest = [].
Proof.
  induction l as [|a l IH]; intros pend rest H; simpl in H.
  - by simplify_eq.
  - destruct (a =c "{"); [|destruct (a =c "}")].
    + destruct l as [|b t]; [done|].
      destruct (b =c "{"); [|destruct (b =c "}"); [|done]]; simplify_eq;
        by destruct pend.
    + destruct l as [|b t]; [done|]. destruct (b =c "}"); [|done].
      simplify_eq. by destruct pend.
    + apply IH in H as (? & _). by destruct pend.
Qed.

Lemma at_text_write st l s : at_text st l -> at_text (write st s) l.
Proof. done. Qed.

#[local] Hint Resolve at_text_write : core.

(** What do_arg does: either it fails, or it has written some text and stands
    at a text from which the remaining arguments give the rest. *)
Lemma do_arg_spec fuel : forall st l arg args,
  at_text st l -> (length l < fuel)%nat ->
  exists st' r, do_arg fuel st arg = Some (st', r) /\
    match r with
    | Ok _ => exists w l', os st' = os st ++ w /\ at_text st' l' /\
        (length l' <= length l)%nat /\
        render [] (pieces l) (arg :: args) =
          (let '(o, r) := render [] (pieces l') args in (w ++ o, r))
    | _ => exists w, os st' = os st ++ w /\ render [] (pieces l) (arg :: args) = (w, r)
    end.
Proof.
  induction fuel as [|fuel IH]; intros st l arg args Hat Hf; [lia|].
  simpl. rewrite (render_scan l). pose proof (next_at st l Hat) as HN.
  destruct (scan [] l) as [[[seg rest] ph]|e|] eqn:HS; [| |done].
  2: { rewrite HN. do 2 eexists. split; [done|]. exists []. by rewrite app_nil_r. }
  destruct HN as (st1 & -> & Hat1 & Hos1 & Hph1). rewrite Hph1.
  pose proof (scan_decreases l [] seg rest ph HS) as HD.
  destruct ph.
  - exists (write (write st1 seg) arg), (Ok tt).
    split; [destruct seg; simpl; rewrite ?Hph1; unfold write; simpl;
      by rewrite ?app_nil_r|].
    exists (seg ++ arg), rest. simpl. rewrite Hos1, <- app_assoc.
    split; [done|]. split; [done|]. split; [destruct HD as [?|(_ & _ & _ & ?)]; [lia|done]|].
    destruct (render [] (pieces rest) args). by rewrite <- !app_assoc.
  - destruct seg as [|c seg].
    + apply scan_empty in HS as (_ & -> & ->). simpl in *.
      do 2 eexists. split; [done|]. exists [], []. simpl.
      by rewrite Hos1, app_nil_r.
    + simpl.
      destruct HD as [HD|(-> & ? & _)]; [|done].
      destruct (IH (write st1 (c :: seg)) rest arg args) as (st' & r & -> & Hr);
        [done|lia|].
      do 2 eexists. split; [done|]. simpl in Hr. rewrite Hos1 in Hr.
      destruct r as [[]|e|].
      * destruct Hr as (w & l' & Hos & Hat' & Hlen & ->).
        exists (c :: seg ++ w), l'. rewrite Hos, <- app_assoc.
        split; [done|]. split; [done|]. split; [lia|].
        by destruct (render [] (pieces l') args); simpl; rewrite <- app_assoc.
      * destruct Hr as (w & Hos & ->). exists (c :: seg ++ w).
        by rewrite Hos, <- app_assoc.
      * destruct Hr as (w & Hos & ->). exists (c :: seg ++ w).
        by rewrite Hos, <- app_assoc.
Qed.

Lemma finish_spec fuel : forall st l,
  at_text st l -> (length l < fuel)%nat ->
  exists st', finish fuel st = Some (st', snd (render [] (pieces l) [])) /\
    os st' = os st ++ fst (render [] (pieces l) []).
Proof.
  induction fuel as [|fuel IH]; intros st l Hat Hf; [lia|].
  simpl. rewrite (render_scan l). pose proof (next_at st l Hat) as HN.
  destruct (scan [] l) as [[[seg rest] ph]|e|] eqn:HS; [| |done].
  2: { rewrite HN. eexists. split; [done|]. by rewrite app_nil_r. }
  destruct HN as (st1 & -> & Hat1 & Hos1 & Hph1). rewrite Hph1.
  destruct ph; [eexists; split; [done|]; by rewrite Hos1, app_nil_r|].
  destruct seg as [|c seg]; [eexists; split; [done|]; by rewrite Hos1, app_nil_r|].
  destruct (scan_decreases l [] _ rest _ HS) as [HD|(-> & ? & _)]; [|done].
  destruct (IH (write st1 (c :: seg)) rest) as (st' & -> & Hos); [done|lia|].
  exists st'. rewrite bool_decide_eq_false_2 by done. simpl in *.
  destruct (render [] (pieces rest) []). simpl in *. split; [done|].
  by rewrite Hos, Hos1, <- app_assoc.
Qed.

Lemma call_spec fuel args : forall st l,
  at_text st l -> (length l < fuel)%nat ->
  exists st', call fuel st args = Some (st', snd (render [] (pieces l) args)) /\
    os st' = os st ++ fst (render [] (pieces l) args).
Proof.
  induction args as [|arg args IH]; intros st l Hat Hf; simpl.
  - by apply finish_spec.
  - destruct (do_arg_spec fuel st l arg args Hat Hf) as (st1 & r & -> & Hr).
    destruct r as [[]|e|].
    + destruct Hr as (w & l' & Hos & Hat' & Hlen & ->).
      destruct (IH st1 l' Hat') as (st' & -> & Hos'); [lia|].
      exists st'. destruct (render [] (pieces l') args). simpl in *.
      split; [done|]. by rewrite Hos', Hos, <- app_assoc.
    + destruct Hr as (w & Hos & ->). by exists st1.
    + destruct Hr as (w & Hos & ->). by exists st1.
Qed.

Lemma format_to_render dest fs args :
  format_to dest fs args =
    (let '(o, r) := render [] (pieces fs) args in Some (dest ++ o, r)).
Proof.
  unfold format_to.
  destruct (call_spec (S (length fs)) args (init dest fs) fs) as (st & -> & Hos);
    [by exists []|lia|].
  simpl in *. rewrite Hos. by destruct (render [] (pieces fs) args).
Qed.

(** How the reading ends does not depend on the pending text, which is the
    first thing written when it ends normally. *)
Lemma render_outcome ps : forall pend pend' args,
  snd (render pend ps args) = snd (render pend' ps args).
Proof.
  induction ps as [|x ps IH]; intros pend pend' args; [done|].
  destruct x; simpl; [apply IH| | |done].
  - by destruct (render [] ps args).
  - destruct args as [|a args]; [done|]. by destruct (render [] ps args).
Qed.

Lemma render_pend ps : forall pend args,
  snd (render [] ps args) = Ok tt ->
  fst (render pend ps args) = pend ++ fst (render [] ps args).
Proof.
  induction ps as [|x ps IH]; intros pend args H; simpl in *.
  - by rewrite app_nil_r.
  - destruct x as [c|c| |e]; simpl in *; [..|done].
    + rewrite (render_outcome ps _ []) in H.
      rewrite (IH (pend ++ [c]) args H), (IH [c] args H). by rewrite <- app_assoc.
    + by destruct (render [] ps args).
    + destruct args as [|a args]; [done|]. by destruct (render [] ps args).
Qed.

(** ** Properties *)

(** A text with its braces doubled. *)
Fixpoint escape (s : str) : str :=
  match s with
  | [] => []
  | c :: t => if (c =c "{") || (c =c "}") then c :: c :: escape t else c :: escape t
  end.

Definition holes (fs : str) : nat :=
  length (List.filter (fun x => match x with Hole => true | _ => false end) (pieces fs)).

Definition well_formed (fs : str) : bool :=
  forallb (fun x => match x with Bad _ => false | _ => true end) (pieces fs).

Lemma pieces_escape s :
  pieces (escape s) =
  map (fun c => if (c =c "{") || (c =c "}") then Esc c else Lit c) s.
Proof.
  induction s as [|c t IH]; [done|]. simpl.
  destruct (c =c "{") eqn:Ho; [|destruct (c =c "}") eqn:Hc]; simpl;
    rewrite ?Ho, ?Hc, IH; done.
Qed.

Lemma render_escape s : forall args,
  render [] (pieces (escape s)) args = (s, Ok tt).
Proof.
  rewrite pieces_escape. intros args.
  induction s as [|c t IH]; [done|]. simpl.
  destruct (_ || _); simpl; [by rewrite IH|].
  rewrite (surjective_pairing (render [c] _ _)), render_pend, (render_outcome _ _ []);
    by rewrite IH.
Qed.

(** The pieces after a malformed brace are never reached: it is the last one. *)
Lemma render_ok_iff s : forall args,
  snd (render [] (pieces s) args) = Ok tt <->
  well_formed s = true /\ (holes s <= length args)%nat.
Proof.
  unfold well_formed, holes. generalize (pieces s). intros ps.
  induction ps as [|x ps IH]; intros args; simpl;
    [split; [split; [done|lia]|done]|].
  destruct x as [c|c| |e]; simpl.
  - rewrite (render_outcome _ _ []). apply IH.
  - rewrite <- IH. by destruct (render [] ps args).
  - destruct args as [|a args]; simpl; [split; [done|lia]|].
    specialize (IH args). destruct (render [] ps args). simpl in *.
    rewrite IH, <- Nat.succ_le_mono. done.
  - split; [done|by intros [? _]].
Qed.

(** C9: format_to appends to the destination exactly what the piecewise reading
    of the format string (ordinary chars, doubled braces, placeholders) yields,
    ends the way that reading ends (normally or with the same exception, the
    text since the last write being lost), and always terminates. *)
Theorem format_to_refines dest fs args :
  format_to dest fs args =
    (let '(o, r) := render [] (pieces fs) args in Some (dest ++ o, r)).
Proof. apply format_to_render. Qed.

(** Formatting a text whose braces were doubled appends the text itself,
    whatever the arguments. *)
Lemma format_escape_roundtrip dest s args :
  format_to dest (escape s) args = Some (dest ++ s, Ok tt).
Proof. by rewrite format_to_render, render_escape. Qed.

(** A call of format_to succeeds exactly when every brace of the format
    string is matched and there are at least as many arguments as placeholders;
    surplus arguments are ignored. *)
Lemma format_to_succeeds_iff dest fs args :
  (exists d, format_to dest fs args = Some (d, Ok tt)) <->
  well_formed fs = true /\ (holes fs <= length args)%nat.
Proof.
  rewrite <- render_ok_iff, format_to_render.
  destruct (render [] (pieces fs) args) as [o r]. simpl. naive_solver.
Qed.

End Format.
