(* ===== verification/RouteRule.v ===== *)
(** Route patterns (src/route_rule.hpp): the character classes, the rules for
    a parameter segment and for a whole pattern, and stable_string. *)
From S2P Require Import Prelude Grammar.

Module RouteRule.

(** ** Character classes *)

Definition unreserved_char (ch : ascii) : bool :=
  negb (ch =c "/") &&
  (between 0x21 0x2F ch || between 0x30 0x3B ch ||
   between 0x3D 0x5A ch || between 0x5C 0x7E ch).

Definition constraint_char (ch : ascii) : bool :=
  (0x20 <=? schar ch) && (schar ch <=? 0x7E) && negb (ch =c ")").

Definition ident_char (ch : ascii) : bool :=
  between 97 122 ch || between 48 57 ch || between 65 90 ch || (ch =c "_").

(** A string_view member as the pair of pointers it was made from, offsets
    into the pattern; a default constructed view is null. *)
Inductive view := null_view | ptrs (first last : nat).

Definition NUL : ascii := "000"%char.

(** route_seg; [term] has no initializer: [None] is an indeterminate value. *)
Record route_seg := mk_seg {
  prefix : view;
  name : str;
  constraint : str;
  ptype : ascii;
  modifier : ascii;
  term : option ascii
}.

Definition empty_seg : route_seg := mk_seg null_view [] [] NUL NUL None.

Section Rules.
Context `{Grammar}.

(** The token_rule of this file (not the library's). *)
Definition token_rule (cs : ascii -> bool) : rule str := fun it =>
  match it with
  | [] => Err (syntax, it)
  | _ =>
      let n := find_if_not cs it in
      if (n =? 0)%nat then Err (mismatch, it)
      else Ok (take n it, drop n it)
  end.

Definition constraint_rule : rule str := fun it =>
  match it with
  | [] => Ok ([], it)
  | c :: _ =>
      if negb (c =c "(") then Ok ([], it)
      else
        let it0 := it in
        let n := find_if_not constraint_char it in
        let it := drop n it in
        if (n <=? 1)%nat then Err (syntax, it0)
        else
          match it with
          | [] => Err (syntax, it0)
          | c :: it' =>
              if negb (c =c ")") then Err (syntax, it)
              else Ok (take (n - 1) (drop 1 it0), it')
          end
  end.

Definition param_name_rule : rule str := fun it =>
  match it with
  | [] => Err (syntax, it)
  | c :: t =>
      if negb (alpha_chars c) then Err (syntax, it)
      else
        let n := find_if_not ident_char t in
        Ok (c :: take n t, drop n t)
  end.

Definition is_open (c : ascii) : bool := c =c "(".
Definition is_modifier (c : ascii) : bool := (c =c "?") || (c =c "*") || (c =c "+").
Definition is_param_prefix (c : ascii) : bool := (c =c ":") || (c =c "*").

Definition param_segment_rule : rule route_seg := fun it =>
  match it with
  | [] => Err (syntax, it)
  | c :: it1 =>
      if negb (c =c ":") && negb (c =c "*") then Err (mismatch, it)
      else
        '(nm, it2) ← parse_at param_name_rule it1;
        '(cn, it3) ← parse_at constraint_rule it2;
        match it3 with
        | m :: it4 =>
            if is_modifier m then Ok (mk_seg null_view nm cn c m None, it4)
            else Ok (mk_seg null_view nm cn c NUL None, it3)
        | [] => Ok (mk_seg null_view nm cn c NUL None, it3)
        end
  end.

Definition literal_segment_rule : rule str := token_rule unreserved_char.

Definition set_prefix (rs : route_seg) (v : view) : route_seg :=
  mk_seg v (name rs) (constraint rs) (ptype rs) (modifier rs) (term rs).

(** The while loop of path_rule_t::parse on the pattern [pat]; [it] and [it1]
    are offsets into it.  The parse of a parameter segment is given a view of
    the rest of the pattern, so it does not move [it]. *)
Fixpoint path_loop (fuel : nat) (pat : str) (it it1 : nat) (segs : list route_seg) :
    option (comp error (nat * nat * list route_seg)) :=
  match fuel with
  | O => None
  | S fuel =>
      match drop it pat with
      | [] => Some (Ok (it, it1, segs))
      | c :: _ =>
          if is_param_prefix c then
            let it2 := it in
            match parse param_segment_rule (drop it pat) with
            | Err e => Some (Err e)
            | UB => Some UB
            | Ok rs =>
                let rs := set_prefix rs (ptrs it2 it1) in
                match drop it pat with
                | c :: _ =>
                    if is_param_prefix c then Some (Err syntax)
                    else path_loop fuel pat it it (segs ++ [rs])
                | [] => path_loop fuel pat it it (segs ++ [rs])
                end
            end
          else path_loop fuel pat (S it) it1 segs
      end
  end.

(** path_rule_t::parse; on success [it0] moves by [it - it1]. *)
Definition path_rule (pat : str) :
    option (comp (error * str) (list route_seg * str)) :=
  match path_loop (S (length pat)) pat 0 0 [] with
  | None => None
  | Some (Err e) => Some (Err (e, pat))
  | Some UB => Some UB
  | Some (Ok (it, it1, segs)) =>
      let segs :=
        if (it1 =? it)%nat then segs
        else segs ++ [set_prefix empty_seg (ptrs it1 (length pat))] in
      Some (Ok (segs, drop (it - it1) pat))
  end.
End Rules.

(** ** Facts about the classes *)

Definition ctext (v : route_seg) : str :=
  match constraint v with [] => [] | c => "("%char :: c ++ [")"%char] end.
Definition mtext (v : route_seg) : str :=
  if modifier v =c "000" then [] else [modifier v].

(** The text of a parameter segment. *)
Definition print (v : route_seg) : str := ptype v :: name v ++ ctext v ++ mtext v.

(** A parameter segment as the grammar in the source describes it. *)
Definition is_param_segment (v : route_seg) : Prop :=
  prefix v = null_view /\ term v = None /\ is_param_prefix (ptype v) = true /\
  (exists a t, name v = a :: t /\ is_alpha a = true /\ forallb ident_char t = true) /\
  forallb constraint_char (constraint v) = true /\
  ((modifier v =c "000") = true \/ is_modifier (modifier v) = true).

(** [t] does not extend the segment [v] written before it. *)
Definition ends_before (v : route_seg) (t : str) : Prop :=
  stops ident_char (ctext v ++ mtext v ++ t) = true /\
  (constraint v = [] -> stops is_open (mtext v ++ t) = true) /\
  ((modifier v =c "000") = true -> stops is_modifier t = true).

Lemma open_is_constraint_char : constraint_char "(" = true.
Proof. reflexivity. Qed.

Lemma close_not_constraint_char : constraint_char ")" = false.
Proof. reflexivity. Qed.

Lemma modifier_not_nul m : is_modifier m = true -> (m =c "000") = false.
Proof.
  intros Hm.
  pose proof (ascii_forallb (fun m => implb (is_modifier m) (negb (m =c "000")))
                eq_refl m) as H.
  simpl in H. rewrite Hm in H. by destruct (m =c "000").
Qed.

Section Facts.
Context `{GL : GrammarLaws}.

Lemma take_span (cs : ascii -> bool) s :
  take (length (fst (span cs s))) s = fst (span cs s) /\
  drop (length (fst (span cs s))) s = snd (span cs s).
Proof.
  split; rewrite <- (span_app cs s) at 2; [apply take_app_length|apply drop_app_length].
Qed.

Lemma param_name_spec s :
  param_name_rule s =
  match s with
  | c :: t => if is_alpha c then Ok (c :: fst (span ident_char t), snd (span ident_char t))
              else Err (syntax, s)
  | [] => Err (syntax, s)
  end.
Proof.
  destruct s as [|c t]; [done|]. simpl. rewrite alpha_chars_law, find_if_not_law.
  destruct (is_alpha c); [|done]. simpl.
  by rewrite (proj1 (take_span _ _)), (proj2 (take_span _ _)).
Qed.

(** constraint_rule by cases on what follows the opening parenthesis. *)
Lemma constraint_spec s :
  constraint_rule s =
  match s with
  | c :: t =>
      if c =c "(" then
        match span constraint_char t with
        | ([], _) => Err (syntax, s)
        | (_, []) => Err (syntax, s)
        | (a, d :: u) => if d =c ")" then Ok (a, u) else Err (syntax, d :: u)
        end
      else Ok ([], s)
  | [] => Ok ([], s)
  end.
Proof.
  destruct s as [|c t]; [done|]. simpl. destruct (c =c "(") eqn:Hc; [|done].
  apply Ascii.eqb_eq in Hc as ->. rewrite find_if_not_law. simpl.
  destruct (span constraint_char t) as [a b] eqn:E. simpl.
  pose proof (take_span constraint_char t) as [Ht Hd]. rewrite E in Ht, Hd. simpl in *.
  destruct a as [|a0 a]; [done|]. simpl in *. rewrite Hd.
  destruct b as [|d u]; [done|]. destruct (d =c ")"); simpl; [|done].
  by rewrite drop_0, Ht.
Qed.

Lemma constraint_ok_iff r cn u :
  constraint_rule r = Ok (cn, u) <->
  (cn = [] /\ u = r /\ stops is_open r = true) \/
  (cn <> [] /\ forallb constraint_char cn = true /\ r = "("%char :: cn ++ ")"%char :: u).
Proof.
  rewrite constraint_spec. split.
  - intros H0. destruct r as [|c t]; [simplify_eq; by left|].
    destruct (c =c "(") eqn:Hc.
    + apply Ascii.eqb_eq in Hc as ->.
      destruct (span constraint_char t) as [[|a0 a] [|d u']] eqn:E; try done.
      destruct (d =c ")") eqn:Hd; [|done]. apply Ascii.eqb_eq in Hd as ->. simplify_eq.
      apply span_inv in E as (-> & HA & _). right. done.
    + simplify_eq. left. simpl. unfold is_open. by rewrite Hc.
  - intros [(-> & -> & Hr)|(Hcn & Hall & ->)].
    + destruct r as [|c t]; [done|]. simpl in Hr. unfold is_open in Hr.
      by destruct (c =c "(").
    + simpl. rewrite span_eq by done. by destruct cn.
Qed.

Lemma param_name_ok_iff r nm u :
  param_name_rule r = Ok (nm, u) <->
  exists a t, nm = a :: t /\ is_alpha a = true /\ forallb ident_char t = true /\
    r = nm ++ u /\ stops ident_char u = true.
Proof.
  rewrite param_name_spec. split.
  - intros H0. destruct r as [|c t]; [done|]. destruct (is_alpha c) eqn:Hc; [|done].
    simplify_eq. exists c, (fst (span ident_char t)). repeat split; [done|..].
    + apply span_all.
    + simpl. by rewrite span_app.
    + apply span_stops.
  - intros (a & t & -> & Ha & Ht & -> & Hu). simpl. rewrite Ha, span_eq by done. done.
Qed.

Lemma param_segment_ok s v t :
  param_segment_rule s = Ok (v, t) ->
  is_param_segment v /\ ends_before v t /\ s = print v ++ t.
Proof.
  unfold param_segment_rule. destruct s as [|c s1]; [done|].
  destruct (negb (c =c ":") && negb (c =c "*")) eqn:Hc; [done|].
  assert (is_param_prefix c = true) as Hp.
  { unfold is_param_prefix. by destruct (c =c ":"), (c =c "*"). }
  rewrite parse_at_law. destruct (param_name_rule s1) as [[nm r1]| |] eqn:EN; [|done|done].
  apply param_name_ok_iff in EN as (a & nt & -> & Ha & Hnt & -> & Hr1). simpl.
  rewrite parse_at_law. destruct (constraint_rule r1) as [[cn r2]| |] eqn:EC; [|done|done].
  simpl. apply constraint_ok_iff in EC. intros HM.
  assert (exists m, v = mk_seg null_view (a :: nt) cn c m None /\
     ((m =c "000") = true /\ t = r2 /\ stops is_modifier t = true \/
      is_modifier m = true /\ r2 = m :: t)) as (m & -> & HM').
  { destruct r2 as [|m r3]; [simplify_eq; exists NUL; naive_solver|].
    destruct (is_modifier m) eqn:Hm; simplify_eq; [by exists m; auto|].
    exists NUL. split; [done|]. left. simpl. by rewrite Hm. }
  clear HM.
  assert (r2 = mtext (mk_seg null_view (a :: nt) cn c m None) ++ t) as ->.
  { unfold mtext. simpl. destruct HM' as [(-> & -> & _)|(Hm & ->)]; [done|].
    by rewrite modifier_not_nul. }
  assert (r1 = ctext (mk_seg null_view (a :: nt) cn c m None) ++
               mtext (mk_seg null_view (a :: nt) cn c m None) ++ t) as ->.
  { unfold ctext. simpl. destruct EC as [(-> & <- & _)|(Hcn & _ & ->)]; [done|].
    destruct cn; [done|]. simpl. by rewrite <- app_assoc. }
  unfold is_param_segment, ends_before, print. simpl. rewrite <- !app_assoc.
  split_and!; try done.
  - by exists a, nt.
  - by destruct EC as [(-> & _)|(_ & ? & _)].
  - destruct HM' as [(? & _)|(? & _)]; auto.
  - intros ->. destruct EC as [(_ & _ & ?)|(? & _)]; done.
  - intros Hm. destruct HM' as [(_ & _ & ?)|(Hm' & _)]; [done|].
    by rewrite modifier_not_nul in Hm.
Qed.

Lemma param_segment_print v t :
  is_param_segment v -> ends_before v t ->
  param_segment_rule (print v ++ t) = Ok (v, t).
Proof.
  intros (Hpre & Hterm & Hpt & (a & nt & Hn & Ha & Hnt) & Hc & Hm) (He1 & He2 & He3).
  destruct v as [pre nm cn pt m tm]. simpl in *. subst.
  unfold print. simpl.
  assert (negb (pt =c ":") && negb (pt =c "*") = false) as ->.
  { unfold is_param_prefix in Hpt. by destruct (pt =c ":"), (pt =c "*"). }
  set (v := mk_seg null_view (a :: nt) cn pt m None) in *.
  rewrite parse_at_law.
  replace (param_name_rule _) with
    (@Ok (error * str) _ (a :: nt, ctext v ++ mtext v ++ t)).
  2: { symmetry. apply param_name_ok_iff. exists a, nt. rewrite <- !app_assoc. done. }
  simpl. rewrite parse_at_law.
  replace (constraint_rule _) with (@Ok (error * str) _ (cn, mtext v ++ t)).
  2: { symmetry. apply constraint_ok_iff. unfold ctext. simpl. destruct cn as [|c0 cn].
       - left. split; [done|]. split; [done|]. by apply He2.
       - right. split; [done|]. split; [done|]. simpl. by rewrite <- app_assoc. }
  simpl. unfold mtext in *. simpl in *. destruct Hm as [Hm|Hm].
  - rewrite Hm in *. simpl. apply Ascii.eqb_eq in Hm as ->.
    destruct t as [|m' t]; [done|]. specialize (He3 eq_refl). simpl in He3.
    by destruct (is_modifier m').
  - rewrite modifier_not_nul by done. simpl. by rewrite Hm.
Qed.

(** The rules of this file stay within the text: no outcome is UB. *)
Lemma param_segment_defined s : param_segment_rule s <> UB.
Proof.
  unfold param_segment_rule. destruct s as [|c t]; [done|].
  case_match; [done|]. rewrite parse_at_law, param_name_spec.
  destruct t as [|a t]; [done|]. destruct (is_alpha a); [|done]. simpl.
  rewrite parse_at_law, constraint_spec.
  repeat case_match; simplify_eq/=; repeat case_match; try done.
Qed.

(** A pattern char that starts a parameter segment ends the parse in error. *)
Lemma path_loop_param pat fuel it it1 segs c t :
  drop it pat = c :: t -> is_param_prefix c = true ->
  exists e, path_loop (S fuel) pat it it1 segs = Some (Err e).
Proof.
  intros Hd Hc. simpl. rewrite Hd, Hc.
  pose proof (parse_law _ param_segment_rule (c :: t)) as HP.
  pose proof (param_segment_defined (c :: t)) as HU. unfold parse_doc in HP.
  destruct (parse param_segment_rule (c :: t)); [by eexists|by eexists|].
  by destruct (param_segment_rule (c :: t)) as [[? []]|[]|].
Qed.

Lemma path_loop_spec pat it1 segs : forall fuel it,
  (length pat - it < fuel)%nat -> (it <= length pat)%nat ->
  if existsb is_param_prefix (drop it pat)
  then exists e, path_loop fuel pat it it1 segs = Some (Err e)
  else path_loop fuel pat it it1 segs = Some (Ok (length pat, it1, segs)).
Proof.
  induction fuel as [|fuel IH]; intros it Hf Hit; [lia|].
  destruct (drop it pat) as [|c t] eqn:Hd.
  - simpl. rewrite Hd. apply (f_equal length) in Hd. rewrite length_drop in Hd.
    simpl in Hd. repeat f_equal. lia.
  - change (existsb is_param_prefix (c :: t))
      with (is_param_prefix c || existsb is_param_prefix t).
    destruct (is_param_prefix c) eqn:Hc; [by eapply path_loop_param|].
    simpl. rewrite Hd, Hc.
    assert (t = drop (S it) pat) as ->.
    { by rewrite <- Nat.add_1_r, <- drop_drop, Hd. }
    apply (f_equal length) in Hd. rewrite length_drop in Hd. simpl in Hd.
    apply IH; lia.
Qed.

End Facts.

(** ** stable_string: ownership of the char array *)

Module StableString.

(** The arrays allocated by new[] and not yet deleted. *)
Record heap := mk_heap { blocks : gmap nat str; next_block : nat }.

(** The members p_ (null or an array) and n_. *)
Record obj := mk_obj { p_ : option nat; n_ : nat }.

(** stable_string(): null, 0 *)
Definition default : obj := mk_obj None 0.

(** stable_string(string_view): copies the text into a new array. *)
Definition construct (s : str) (h : heap) : obj * heap :=
  (mk_obj (Some (next_block h)) (length s),
   mk_heap (<[next_block h := s]> (blocks h)) (S (next_block h))).

(** ~stable_string(): deletes the array if there is one; deleting an array
    that is not live is undefined. *)
Definition destroy (o : obj) (h : heap) : comp exn heap :=
  match p_ o with
  | None => Ok h
  | Some l =>
      match blocks h !! l with
      | Some _ => Ok (mk_heap (delete l (blocks h)) (next_block h))
      | None => UB
      end
  end.

(** stable_string(stable_string&&): the new object and the moved-from one. *)
Definition move_construct (other : obj) : obj * obj :=
  (mk_obj (p_ other) (n_ other), mk_obj None 0).

(** operator=(stable_string&&): (this, other) afterwards. *)
Definition move_assign (this other : obj) : obj * obj :=
  let p := p_ this in
  let n := n_ this in
  let this := mk_obj (p_ other) (n_ other) in
  let other := mk_obj p n in
  (this, other).

(** What the conversion to string_view shows: n_ chars from p_. *)
Definition show (o : obj) (h : heap) : comp exn str :=
  match p_ o with
  | None => if (n_ o =? 0)%nat then Ok [] else UB
  | Some l =>
      match blocks h !! l with
      | Some s => if (n_ o <=? length s)%nat then Ok (take (n_ o) s) else UB
      | None => UB
      end
  end.

(** A program using stable_strings: variables come into scope, are moved and
    assigned, and leave scope. *)
Inductive op :=
| New (x : nat) (s : str)
| NewDefault (x : nat)
| Move (x y : nat)         (* stable_string x(std::move(y)) *)
| Assign (x y : nat)       (* x = std::move(y) *)
| Destroy (x : nat).

Record state := mk_state { vars : gmap nat obj; mem : heap }.

Definition init : state := mk_state ∅ (mk_heap ∅ 0).

(** [None] is an operation the scoping rules of the language exclude: a
    variable defined twice or used out of scope. *)
Definition step (st : state) (o : op) : option (comp exn state) :=
  match o with
  | New x s =>
      match vars st !! x with
      | Some _ => None
      | None => let '(v, h) := construct s (mem st) in
                Some (Ok (mk_state (<[x := v]> (vars st)) h))
      end
  | NewDefault x =>
      match vars st !! x with
      | Some _ => None
      | None => Some (Ok (mk_state (<[x := default]> (vars st)) (mem st)))
      end
  | Move x y =>
      match vars st !! x, vars st !! y with
      | None, Some o => let '(v, o) := move_construct o in
                        Some (Ok (mk_state (<[x := v]> (<[y := o]> (vars st))) (mem st)))
      | _, _ => None
      end
  | Assign x y =>
      match vars st !! x, vars st !! y with
      | Some a, Some b =>
          (* x and y may be the same object: the two writes to it agree *)
          let '(a, b) := move_assign a b in
          Some (Ok (mk_state (<[y := b]> (<[x := a]> (vars st))) (mem st)))
      | _, _ => None
      end
  | Destroy x =>
      match vars st !! x with
      | Some o => Some (h ← destroy o (mem st); Ok (mk_state (delete x (vars st)) h))
      | None => None
      end
  end.

(** Runs a program; [None] when an operation is ill scoped. *)
Fixpoint run (st : state) (os : list op) : option (comp exn state) :=
  match os with
  | [] => Some (Ok st)
  | o :: os =>
      match step st o with
      | Some (Ok st) => run st os
      | other => other
      end
  end.

(** Every array is owned by exactly one variable, which knows its length. *)
Record owned (st : state) : Prop := {
  own_live x l n : vars st !! x = Some (mk_obj (Some l) n) ->
    exists s, blocks (mem st) !! l = Some s /\ n = length s;
  own_null x n : vars st !! x = Some (mk_obj None n) -> n = 0%nat;
  own_unique x y l n m : vars st !! x = Some (mk_obj (Some l) n) ->
    vars st !! y = Some (mk_obj (Some l) m) -> x = y;
  own_all l s : blocks (mem st) !! l = Some s ->
    exists x n, vars st !! x = Some (mk_obj (Some l) n);
  own_fresh l : is_Some (blocks (mem st) !! l) -> (l < next_block (mem st))%nat
}.

Lemma init_owned : owned init.
Proof.
  split; simpl; intros *; rewrite ?lookup_empty; try done.
Qed.

Ltac own_cases :=
  repeat match goal with
  | H : <[?a := _]> _ !! ?b = _ |- _ =>
      destruct (decide (a = b)) as [<-|];
      [rewrite lookup_insert_eq in H | rewrite lookup_insert_ne in H by done];
      simplify_eq
  | H : delete ?a _ !! ?b = _ |- _ =>
      destruct (decide (a = b)) as [<-|];
      [rewrite lookup_delete_eq in H | rewrite lookup_delete_ne in H by done];
      simplify_eq
  end.

(** Two names for one array are the same name. *)
Ltac own_clash HO :=
  match goal with
  | H1 : _ !! ?a = Some (mk_obj (Some ?l) _), H2 : _ !! ?b = Some (mk_obj (Some ?l) _) |- _ =>
      assert (a = b) by (eapply (own_unique _ HO); [exact H1 | exact H2]); congruence
  end.

Lemma new_owned st x s :
  owned st -> vars st !! x = None ->
  owned (mk_state (<[x := mk_obj (Some (next_block (mem st))) (length s)]> (vars st))
    (mk_heap (<[next_block (mem st) := s]> (blocks (mem st))) (S (next_block (mem st))))).
Proof.
  intros HO Hx.
  assert (forall y n, vars st !! y = Some (mk_obj (Some (next_block (mem st))) n) -> False)
    as Hnew.
  { intros y n Hy. destruct (own_live _ HO _ _ _ Hy) as (s' & Hs & _).
    assert (next_block (mem st) < next_block (mem st))%nat; [|lia].
    apply (own_fresh _ HO). by eexists. }
  split; simpl.
  - intros y l n Hy. own_cases.
    + exists s. by rewrite lookup_insert_eq.
    + destruct (own_live _ HO _ _ _ Hy) as (s' & Hs & ->). exists s'.
      rewrite lookup_insert_ne; [done|]. intros <-. by eapply Hnew.
  - intros y n Hy. own_cases. by eapply own_null.
  - intros y z l n m Hy Hz. own_cases; try done; try (exfalso; by eapply Hnew).
    by eapply own_unique.
  - intros l s' Hl. own_cases.
    + exists x. eexists. by rewrite lookup_insert_eq.
    + destruct (own_all _ HO _ _ Hl) as (y & n' & Hy). exists y, n'.
      rewrite lookup_insert_ne; [done|]. intros <-. congruence.
  - intros l [s' Hl]. own_cases; [lia|].
    assert (l < next_block (mem st))%nat; [|lia]. apply (own_fresh _ HO). by eexists.
Qed.

Lemma default_owned st x :
  owned st -> vars st !! x = None ->
  owned (mk_state (<[x := mk_obj None 0]> (vars st)) (mem st)).
Proof.
  intros HO Hx. split; simpl.
  - intros y l n Hy. own_cases. by eapply own_live.
  - intros y n Hy. own_cases; [done|]. by eapply own_null.
  - intros y z l n m Hy Hz. own_cases. by eapply own_unique.
  - intros l s Hl. destruct (own_all _ HO _ _ Hl) as (y & n & Hy). exists y, n.
    rewrite lookup_insert_ne; [done|]. intros <-. congruence.
  - apply HO.
Qed.

Lemma move_owned st x y o :
  owned st -> vars st !! x = None -> vars st !! y = Some o ->
  owned (mk_state (<[x := mk_obj (p_ o) (n_ o)]> (<[y := mk_obj None 0]> (vars st))) (mem st)).
Proof.
  intros HO Hx Hy. assert (x <> y) as Hxy by congruence. destruct o as [p n]. simpl.
  split; simpl.
  - intros z l k Hz. own_cases; by eapply own_live.
  - intros z k Hz. own_cases; [by eapply own_null|done|by eapply own_null].
  - intros z w l k m Hz Hw. own_cases; try done.
    all: own_clash HO.
  - intros l s Hl. destruct (own_all _ HO _ _ Hl) as (z & k & Hz).
    destruct (decide (z = y)) as [->|].
    + simplify_eq. exists x, n. by rewrite lookup_insert_eq.
    + exists z, k. rewrite lookup_insert_ne by congruence.
      by rewrite lookup_insert_ne by done.
  - apply HO.
Qed.

Lemma assign_owned st x y a b :
  owned st -> vars st !! x = Some a -> vars st !! y = Some b ->
  owned (mk_state (<[y := mk_obj (p_ a) (n_ a)]> (<[x := mk_obj (p_ b) (n_ b)]> (vars st)))
    (mem st)).
Proof.
  intros HO Hx Hy. destruct a as [p n], b as [q m]. simpl.
  assert (forall z o, <[y := mk_obj p n]> (<[x := mk_obj q m]> (vars st)) !! z = Some o ->
    vars st !! (if decide (z = y) then x else if decide (z = x) then y else z) = Some o)
    as Hswap.
  { intros z o. rewrite !lookup_insert.
    repeat case_decide; intros; simplify_eq; congruence. }
  split; simpl.
  - intros z l k Hz%Hswap. by eapply own_live.
  - intros z k Hz%Hswap. by eapply own_null.
  - intros z w l k j Hz%Hswap Hw%Hswap.
    pose proof (own_unique _ HO _ _ _ _ _ Hz Hw). repeat case_decide; congruence.
  - intros l s Hl. destruct (own_all _ HO _ _ Hl) as (z & k & Hz).
    exists (if decide (z = y) then x else if decide (z = x) then y else z), k.
    rewrite !lookup_insert. repeat case_decide; simplify_eq; congruence.
  - apply HO.
Qed.

Lemma destroy_owned st x o :
  owned st -> vars st !! x = Some o ->
  exists h, destroy o (mem st) = Ok h /\ owned (mk_state (delete x (vars st)) h).
Proof.
  intros HO Hx. destruct o as [[l|] n]; unfold destroy; simpl.
  - destruct (own_live _ HO _ _ _ Hx) as (s & Hs & ->). rewrite Hs.
    eexists. split; [done|]. split; simpl.
    + intros y l' k Hy. own_cases.
      destruct (own_live _ HO _ _ _ Hy) as (s' & Hs' & ->). exists s'.
      rewrite lookup_delete_ne; [done|]. intros <-.
      by pose proof (own_unique _ HO _ _ _ _ _ Hx Hy).
    + intros y k Hy. own_cases. by eapply own_null.
    + intros y z l' k m Hy Hz. own_cases. by eapply own_unique.
    + intros l' s' Hl. own_cases. destruct (own_all _ HO _ _ Hl) as (y & k & Hy).
      exists y, k. rewrite lookup_delete_ne; [done|]. intros <-. by simplify_eq.
    + intros l' [s' Hl]. own_cases. apply (own_fresh _ HO). by eexists.
  - eexists. split; [done|]. split; simpl.
    + intros y l' k Hy. own_cases. by eapply own_live.
    + intros y k Hy. own_cases. by eapply own_null.
    + intros y z l' k m Hy Hz. own_cases. by eapply own_unique.
    + intros l' s' Hl. destruct (own_all _ HO _ _ Hl) as (y & k & Hy).
      exists y, k. rewrite lookup_delete_ne; [done|]. intros <-. by simplify_eq.
    + apply HO.
Qed.

Lemma step_owned st o :
  owned st -> step st o = None \/ exists st', step st o = Some (Ok st') /\ owned st'.
Proof.
  intros HO. destruct o as [x s|x|x y|x y|x]; simpl.
  - destruct (vars st !! x) eqn:Hx; [by left|]. right. eexists. split; [done|].
    by apply new_owned.
  - destruct (vars st !! x) eqn:Hx; [by left|]. right. eexists. split; [done|].
    by apply default_owned.
  - destruct (vars st !! x) eqn:Hx, (vars st !! y) eqn:Hy; try by left. right.
    eexists. split; [done|]. by apply move_owned.
  - destruct (vars st !! x) eqn:Hx, (vars st !! y) eqn:Hy; try by left. right.
    eexists. split; [done|]. by apply assign_owned.
  - destruct (vars st !! x) as [o|] eqn:Hx; [|by left]. right.
    destruct (destroy_owned st x o HO Hx) as (h & -> & HO'). simpl. by eexists.
Qed.

Lemma run_owned os : forall st,
  owned st -> run st os = None \/ exists st', run st os = Some (Ok st') /\ owned st'.
Proof.
  induction os as [|o os IH]; intros st HO; simpl.
  - right. by eexists.
  - destruct (step_owned st o HO) as [->|(st' & -> & HO')]; [by left|]. by apply IH.
Qed.

End StableString.

(** ** Properties *)

(** C29: param_segment_rule accepts exactly the parameter segments of the
    grammar above it (prefix, ident, optional constraint, optional modifier),
    with the longest match: it returns [v] leaving [t] if and only if the input
    is the printed segment followed by a text that does not extend it. *)
Theorem param_segment_rule_iff `{GrammarLaws} s v t :
  param_segment_rule s = Ok (v, t) <->
  is_param_segment v /\ ends_before v t /\ s = print v ++ t.
Proof.
  split; [apply param_segment_ok|].
  intros (Hv & Ht & ->). by apply param_segment_print.
Qed.

Lemma param_segment_rule_iff_witness :
  param_segment_rule (H := doc_grammar) $":id(x1)+/rest" =
  Ok (mk_seg null_view $"id" $"x1" ":"%char "+"%char None, $"/rest").
Proof.
  apply (@param_segment_rule_iff doc_grammar doc_grammar_laws).
  split; [|split; [|reflexivity]].
  - repeat split; try reflexivity; [|by right].
    exists "i"%char, $"d". repeat split; reflexivity.
  - repeat split; try reflexivity.
Defined.

(** C30: path_rule accepts a pattern only when it has no parameter segment: a
    colon or an asterisk anywhere makes the parse fail, and any other pattern
    becomes one literal segment whose prefix is the whole pattern (no segment
    for the empty pattern); the loop always ends. *)
Theorem path_rule_rejects_parameters `{GrammarLaws} pat :
  if existsb is_param_prefix pat
  then exists e, path_rule pat = Some (Err (e, pat))
  else path_rule pat =
    Some (Ok (if decide (pat = []) then []
              else [set_prefix empty_seg (ptrs 0 (length pat))], [])).
Proof.
  pose proof (path_loop_spec pat 0 [] (S (length pat)) 0 ltac:(lia) ltac:(lia)) as HL.
  unfold path_rule. rewrite drop_0 in HL.
  destruct (existsb is_param_prefix pat).
  - destruct HL as [e ->]. by exists e.
  - rewrite HL, Nat.sub_0_r, drop_all. destruct pat; [done|]. by case_decide.
Qed.

Lemma path_rule_rejects_parameters_witness :
  exists e, path_rule (H := doc_grammar) $"/a:id/b" = Some (Err (e, $"/a:id/b")).
Proof.
  exact (@path_rule_rejects_parameters doc_grammar doc_grammar_laws $"/a:id/b").
Defined.

(** constraint_rule restores the iterator on every error but one: when the
    text between the parentheses is followed by a char that is neither a
    constraint char nor the closing parenthesis, it fails with the iterator
    left at that char. *)
Lemma constraint_rule_not_rewound `{GrammarLaws} s e u :
  (constraint_rule s = Err (e, u) /\ u <> s) <->
  (e = syntax /\ exists a d t, a <> [] /\ forallb constraint_char a = true /\
     constraint_char d = false /\ d <> ")"%char /\ u = d :: t /\ s = "("%char :: a ++ u).
Proof.
  rewrite constraint_spec. split.
  - intros [HE Hu]. destruct s as [|c t]; [done|].
    destruct (c =c "(") eqn:Hc; [|done]. apply Ascii.eqb_eq in Hc as ->.
    destruct (span constraint_char t) as [[|a0 a] [|d u']] eqn:E; try by simplify_eq.
    destruct (d =c ")") eqn:Hd; [done|]. simplify_eq. split; [done|].
    apply span_inv in E as (-> & HA & HS). exists (a0 :: a), d, u'.
    simpl in HS. apply negb_true_iff in HS. apply Ascii.eqb_neq in Hd. done.
  - intros (-> & a & d & t & Ha & Hall & Hd & Hne & -> & ->).
    split; [|intros Hs%(f_equal length); rewrite ?length_cons, length_app in Hs;
      simpl in Hs; lia].
    simpl. rewrite span_eq by (simpl; rewrite ?Hd; done).
    apply Ascii.eqb_neq in Hne. rewrite Hne. by destruct a.
Qed.

Lemma constraint_rule_not_rewound_witness :
  constraint_rule (H := doc_grammar) ("("%char :: "a"%char :: chr 1 :: $"b)") =
    Err (syntax, chr 1 :: $"b)") /\
  chr 1 :: $"b)" <> "("%char :: "a"%char :: chr 1 :: $"b)".
Proof.
  apply (@constraint_rule_not_rewound doc_grammar doc_grammar_laws).
  split; [reflexivity|]. exists $"a", (chr 1), $"b)".
  repeat split; try reflexivity; discriminate.
Defined.

(** C28: whatever a program does with stable_strings (construct, move, assign,
    also to itself, and destroy, in any order the language allows), no array is
    used or deleted after its deletion, every object still shows its text, and
    once all objects are gone no array is left. *)
Theorem stable_string_ownership os :
  StableString.run StableString.init os = None \/
  exists st, StableString.run StableString.init os = Some (Ok st) /\
    (forall x o, StableString.vars st !! x = Some o ->
       is_Ok (StableString.show o (StableString.mem st)) = true) /\
    (StableString.vars st = ∅ -> StableString.blocks (StableString.mem st) = ∅).
Proof.
  destruct (StableString.run_owned os _ StableString.init_owned)
    as [->|(st & -> & HO)]; [by left|].
  right. exists st. split; [done|]. split.
  - intros x [[l|] n] Hx; unfold StableString.show; simpl.
    + destruct (StableString.own_live _ HO _ _ _ Hx) as (s & -> & ->).
      by rewrite (proj2 (Nat.leb_le _ _)) by lia.
    + by rewrite (StableString.own_null _ HO _ _ Hx).
  - intros He. apply map_eq. intros l. rewrite lookup_empty.
    destruct (StableString.blocks (StableString.mem st) !! l) eqn:E; [|done].
    apply (StableString.own_all _ HO) in E as (x & n & Hx).
    by rewrite He, lookup_empty in Hx.
Qed.

(** Moving keeps the text: the target shows what the source showed. *)
Lemma stable_string_move_keeps_text other h :
  StableString.show (fst (StableString.move_construct other)) h = StableString.show other h /\
  StableString.show (snd (StableString.move_construct other)) h = Ok [].
Proof. by destruct other as [[l|] n]. Qed.

End RouteRule.
