(* ===== verification/Logger.v ===== *)
(** Log sections (include/boost/beast2/logger.hpp, src/logger.cpp, and the
    service around them, src/log_service.cpp).

    A [section] is a shared_ptr to an implementation object; the objects and
    their use counts live in a heap that the sections handed out to callers, the
    map and the vector of log_sections share.  The map is keyed by views into
    the names those objects hold.  get() and get_sections() hold the mutex for
    their whole body, so each is one step. *)
From S2P Require Import Prelude.
From S2P Require Import Format.

Module Logger.

(** ** Sections *)

Record section_impl := mk_impl { name : str; level : Z; uses : nat }.

Abbreviation section := (option nat).            (* shared_ptr<impl> impl_ *)
Abbreviation heap := (gmap nat section_impl).

Definition null_section : section := None.

Definition deref (h : heap) (s : section) : comp exn section_impl :=
  match s with
  | Some l => match h !! l with Some i => Ok i | None => UB end
  | None => UB
  end.

Definition section_name (h : heap) (s : section) : comp exn str :=
  i ← deref h s; Ok (name i).

Definition threshold (h : heap) (s : section) : comp exn Z :=
  i ← deref h s; Ok (level i).

(** Copying a shared_ptr, and destroying one. *)
Definition retain (s : section) (h : heap) : comp exn heap :=
  match s with
  | None => Ok h
  | Some l =>
      match h !! l with
      | Some i => Ok (<[l := mk_impl (name i) (level i) (S (uses i))]> h)
      | None => UB
      end
  end.

Definition release (s : section) (h : heap) : comp exn heap :=
  match s with
  | None => Ok h
  | Some l =>
      match h !! l with
      | Some i =>
          match uses i with
          | O => UB
          | S O => Ok (delete l h)
          | S n => Ok (<[l := mk_impl (name i) (level i) n]> h)
          end
      | None => UB
      end
  end.

(** section(core::string_view): [l] is the address make_shared returns. *)
Definition make_section (l : nat) (nm : str) (h : heap) : section * heap :=
  (Some l, <[l := mk_impl nm 0 1]> h).

Fixpoint retain_all (ss : list section) (h : heap) : comp exn heap :=
  match ss with
  | [] => Ok h
  | s :: ss => h ← retain s h; retain_all ss h
  end.

Fixpoint release_all (ss : list section) (h : heap) : comp exn heap :=
  match ss with
  | [] => Ok h
  | s :: ss => h ← release s h; release_all ss h
  end.

(** section::operator(): what it writes to std::cerr.  The level it passes on
    to write() is ignored there. *)
Definition write (_ : Z) (s : str) (cerr : str) : str := cerr ++ s ++ [chr 10].

Definition call (fs : str) (args : list str) (cerr : str) : option (str * comp exn unit) :=
  let level := 0 in
  '(s, r) ← Format.format_to [] fs args;
  match r with
  | Ok _ => Some (write level s cerr, Ok tt)
  | Err e => Some (cerr, Err e)
  | UB => Some (cerr, UB)
  end.

(** LOG_AT_LEVEL(sect, level)(fs, args...) *)
Definition LOG_AT_LEVEL (h : heap) (s : section) (lvl : Z) (fs : str) (args : list str)
    (cerr : str) : option (str * comp exn unit) :=
  match threshold h s with
  | Ok t => if lvl <? t then Some (cerr, Ok tt) else call fs args cerr
  | Err e => Some (cerr, Err e)
  | UB => Some (cerr, UB)
  end.

Definition LOG_TRC h s := LOG_AT_LEVEL h s 0.
Definition LOG_DBG h s := LOG_AT_LEVEL h s 1.
Definition LOG_INF h s := LOG_AT_LEVEL h s 2.
Definition LOG_WRN h s := LOG_AT_LEVEL h s 3.
Definition LOG_ERR h s := LOG_AT_LEVEL h s 4.

(** ** log_sections *)

(** The hash functor on a 64-bit platform (FNV-1a). *)
Definition hash (s : str) : Z :=
  fold_left (fun h c => u64 (Z.lxor h (uchar c) * 1099511628211)) s 1469598103934665603.

(** An element of the unordered_map: the object whose name the key views, and
    the section. *)
Record log_sections := mk_sections {
  map : list (nat * section);
  vec : list section
}.

Definition no_sections : log_sections := mk_sections [] [].

(** map.find(name): reads the text behind the key views. *)
Fixpoint find (h : heap) (nm : str) (m : list (nat * section)) : comp exn (option section) :=
  match m with
  | [] => Ok None
  | (k, s) :: m =>
      match h !! k with
      | None => UB
      | Some i =>
          if (hash (name i) =? hash nm) && (name i =s nm) then Ok (Some s)
          else find h nm m
      end
  end.

(** log_sections::get *)
Definition get (l : nat) (nm : str) (ls : log_sections) (h : heap)
    : comp exn (section * log_sections * heap) :=
  it ← find h nm (map ls);
  match it with
  | Some s => h ← retain s h; Ok (s, ls, h)
  | None =>
      let '(v, h) := make_section l nm h in
      h ← retain v h;
      h ← retain v h;
      Ok (v, mk_sections (map ls ++ [(l, v)]) (vec ls ++ [v]), h)
  end.

(** log_sections::get_sections *)
Definition get_sections (ls : log_sections) (h : heap) : comp exn (list section * heap) :=
  h ← retain_all (vec ls) h; Ok (vec ls, h).

(** ~log_sections: the members of impl are destroyed in reverse order. *)
Definition destroy (ls : log_sections) (h : heap) : comp exn heap :=
  h ← release_all (vec ls) h; release_all (snd <$> map ls) h.

(** ** Programs that use a log_sections object *)

Record world := mk_world {
  mem : heap;
  logs : option log_sections;       (* until its destructor runs *)
  held : list section               (* the sections callers hold *)
}.

Definition start : world := mk_world ∅ (Some no_sections) [].

(** [step w r]: [r] is the outcome of one call. *)
Inductive step (w : world) : comp exn world -> Prop :=
| step_get l nm ls :
    mem w !! l = None -> logs w = Some ls ->
    step w ('(s, ls', h) ← get l nm ls (mem w); Ok (mk_world h (Some ls') (s :: held w)))
| step_all ls :
    logs w = Some ls ->
    step w ('(ss, h) ← get_sections ls (mem w); Ok (mk_world h (Some ls) (ss ++ held w)))
| step_copy s hs hs' :
    held w = hs ++ s :: hs' ->
    step w (h ← retain s (mem w); Ok (mk_world h (logs w) (s :: held w)))
| step_drop s hs hs' :
    held w = hs ++ s :: hs' ->
    step w (h ← release s (mem w); Ok (mk_world h (logs w) (hs ++ hs')))
| step_destroy ls :
    logs w = Some ls ->
    step w (h ← destroy ls (mem w); Ok (mk_world h None (held w))).

Inductive reachable : world -> Prop :=
| reach_start : reachable start
| reach_step w w' : reachable w -> step w (Ok w') -> reachable w'.

(** ** The error category (src/error.cpp) *)

Definition category_name : str := $"boost.beast2".
Definition message (code : Z) : str :=
  if code =? 0 then $"http::error::success" else $"http::error::?".

(** ** The invariant *)

Fixpoint count (l : nat) (ss : list section) : nat :=
  match ss with
  | [] => 0
  | s :: ss => (if decide (s = Some l) then 1 else 0) + count l ss
  end.

Lemma count_app l a b : count l (a ++ b) = (count l a + count l b)%nat.
Proof. induction a; simpl; lia. Qed.

(** Every owner of [l] is one of [ss], and it is deleted with the last one. *)
Definition counted (h : heap) (ss : list section) : Prop := forall l,
  match h !! l with
  | Some i => uses i = count l ss /\ (0 < uses i)%nat
  | None => count l ss = 0%nat
  end.

(** Two heaps in which the objects of [ss] have the same names and levels. *)
Definition same_on (ss : list section) (h h' : heap) : Prop := forall l i,
  h !! l = Some i -> (0 < count l ss)%nat ->
  exists i', h' !! l = Some i' /\ name i' = name i /\ level i' = level i.

Lemma retain_counted s h ss :
  counted h ss -> (forall l, s = Some l -> is_Some (h !! l)) ->
  exists h', retain s h = Ok h' /\ counted h' (s :: ss) /\
    (forall l i, h !! l = Some i -> exists n, h' !! l = Some (mk_impl (name i) (level i) n)).
Proof.
  intros HC Hs. destruct s as [l|]; simpl.
  - destruct (Hs l eq_refl) as [i Hi]. rewrite Hi. eexists. split; [done|]. split.
    + intros m. specialize (HC m). destruct (decide (m = l)) as [->|Hne].
      * rewrite lookup_insert_eq. rewrite Hi in HC. simpl.
        destruct (decide (Some l = Some l)); [simpl; lia|done].
      * rewrite lookup_insert_ne by congruence. simpl.
        destruct (decide (Some l = Some m)); [congruence|done].
    + intros m j Hm. destruct (decide (m = l)) as [->|Hne].
      * rewrite lookup_insert_eq. simplify_eq. by eexists.
      * rewrite lookup_insert_ne by congruence. rewrite Hm. destruct j. by eexists.
  - exists h. split; [done|]. split; [|intros l [] Hl; by eexists].
    intros l. specialize (HC l). simpl.
    destruct (decide (None = Some l)); [congruence|done].
Qed.

Lemma counted_live h ss s :
  counted h ss -> In s ss -> forall l, s = Some l -> is_Some (h !! l).
Proof.
  intros HC Hin l ->. specialize (HC l).
  destruct (h !! l); [done|]. exfalso. revert Hin HC.
  induction ss as [|s ss IH]; [done|]. intros [->|Hin]; simpl; [by case_decide|].
  case_decide; [lia|]. by apply IH.
Qed.

Lemma counted_perm h ss ss' :
  (forall l, count l ss = count l ss') -> counted h ss -> counted h ss'.
Proof. intros Hp HC l. specialize (HC l). by rewrite Hp in HC. Qed.

Lemma release_counted s h ss :
  counted h (s :: ss) ->
  exists h', release s h = Ok h' /\ counted h' ss /\ same_on ss h h'.
Proof.
  intros HC. destruct s as [l|]; simpl.
  - pose proof (HC l) as Hl. simpl in Hl.
    destruct (decide (Some l = Some l)) as [_|]; [|done].
    destruct (h !! l) as [i|] eqn:Hi; [|lia]. destruct Hl as [Hu Hp].
    rewrite Hu. simpl. destruct (count l ss) as [|n] eqn:En.
    + eexists. split; [done|]. split.
      * intros m. specialize (HC m). simpl in HC. destruct (decide (m = l)) as [->|].
        -- by rewrite lookup_delete_eq.
        -- rewrite lookup_delete_ne by congruence.
           destruct (decide (Some l = Some m)); [congruence|done].
      * intros m j Hm Hc. exists j. rewrite lookup_delete_ne; [done|]. intros <-. lia.
    + eexists. split; [done|]. split.
      * intros m. specialize (HC m). simpl in HC. destruct (decide (m = l)) as [->|].
        -- rewrite lookup_insert_eq. simpl. lia.
        -- rewrite lookup_insert_ne by congruence.
           destruct (decide (Some l = Some m)); [congruence|done].
      * intros m j Hm Hc. destruct (decide (m = l)) as [->|].
        -- rewrite lookup_insert_eq. simplify_eq. by eexists.
        -- rewrite lookup_insert_ne by congruence. by eexists.
  - exists h. split; [done|]. split; [|intros m j Hm _; by exists j].
    intros m. specialize (HC m). simpl in HC.
    destruct (decide (None = Some m)); [congruence|done].
Qed.

Lemma same_on_trans ss ss' h h' h'' :
  (forall l, count l ss' <= count l ss)%nat ->
  same_on ss h h' -> same_on ss' h' h'' -> same_on ss' h h''.
Proof.
  intros Hle H1 H2 l i Hi Hc.
  destruct (H1 l i Hi) as (i' & Hi' & Hn & Hl); [specialize (Hle l); lia|].
  destruct (H2 l i' Hi' Hc) as (i'' & ? & ? & ?). exists i''. by repeat split; congruence.
Qed.

Lemma release_all_counted ss' : forall h ss,
  counted h (ss' ++ ss) ->
  exists h', release_all ss' h = Ok h' /\ counted h' ss /\ same_on ss h h'.
Proof.
  induction ss' as [|s ss' IH]; intros h ss HC; simpl in *.
  - exists h. split; [done|]. split; [done|]. intros l i Hi _. by exists i.
  - destruct (release_counted _ _ _ HC) as (h1 & -> & HC1 & HS1). simpl.
    destruct (IH _ _ HC1) as (h2 & -> & HC2 & HS2). exists h2.
    split; [done|]. split; [done|]. eapply same_on_trans; [|done..].
    intros l. rewrite count_app. lia.
Qed.

Lemma retain_all_counted ss' : forall h ss,
  counted h ss -> (forall s, In s ss' -> In s ss) ->
  exists h', retain_all ss' h = Ok h' /\ counted h' (ss' ++ ss) /\
    (forall l i, h !! l = Some i -> exists n, h' !! l = Some (mk_impl (name i) (level i) n)).
Proof.
  induction ss' as [|s ss' IH]; intros h ss HC Hin; simpl.
  - exists h. split; [done|]. split; [done|]. intros l [] Hl. by eexists.
  - destruct (retain_counted s h ss HC) as (h1 & -> & HC1 & HK1).
    { apply (counted_live _ _ _ HC). apply Hin. by left. }
    simpl. destruct (IH h1 (s :: ss) HC1) as (h2 & -> & HC2 & HK2).
    { intros s' Hs'. right. apply Hin. by right. }
    exists h2. split; [done|]. split.
    + eapply counted_perm, HC2. intros l. simpl. rewrite !count_app. simpl. lia.
    + intros l i Hi. destruct (HK1 l i Hi) as [n Hn].
      destruct (HK2 _ _ Hn) as [n' Hn']. by exists n'.
Qed.

(** What an entry of the map is to the vector. *)
Definition entry (s : section) : option (nat * section) := l ← s; Some (l, s).

Definition name_in (h : heap) (s : section) : option str :=
  l ← s; i ← h !! l; Some (name i).

Record inv_logs (h : heap) (ls : log_sections) : Prop := {
  inv_map : Some <$> map ls = entry <$> vec ls;
  inv_names : NoDup (name_in h <$> vec ls)
}.

Definition logs_of (w : world) : list section :=
  match logs w with
  | Some ls => (snd <$> map ls) ++ vec ls
  | None => []
  end.

Record inv (w : world) : Prop := {
  inv_count : counted (mem w) (logs_of w ++ held w);
  inv_ls ls : logs w = Some ls -> inv_logs (mem w) ls;
  inv_held s : In s (held w) -> s <> None
}.

(** ** The operations keep the invariant *)

Lemma same_names h h' ss :
  (forall l i, h !! l = Some i -> exists n, h' !! l = Some (mk_impl (name i) (level i) n)) ->
  (forall s, In s ss -> is_Some (name_in h s)) ->
  name_in h' <$> ss = name_in h <$> ss.
Proof.
  intros HK Hs. apply list_fmap_ext. intros k s Hk.
  apply list_elem_of_lookup_2, list_elem_of_In, Hs in Hk as [nm Hn].
  destruct s as [l|]; [|done]. unfold name_in in *. simpl in *.
  destruct (h !! l) as [i|] eqn:Hi; [|done]. destruct (HK _ _ Hi) as [n ->]. done.
Qed.

Lemma map_vec ls :
  Some <$> map ls = entry <$> vec ls ->
  (snd <$> map ls) = vec ls /\ (forall s, In s (vec ls) -> s <> None) /\
  (forall k s, In (k, s) (map ls) -> s = Some k).
Proof.
  destruct ls as [m v]. simpl. revert v.
  induction m as [|[k s] m IH]; intros [|s' v] H; try done.
  rewrite !fmap_cons in H. injection H as He Hm.
  destruct (IH v Hm) as (HI & HN & HK).
  destruct s' as [l|]; [|done]. unfold entry in He. simpl in He. injection He as -> ->.
  rewrite fmap_cons, HI. split; [done|]. split.
  - intros s [<-|Hin]; [done|by apply HN].
  - intros k' s [?|Hin]; [by simplify_eq|by apply HK].
Qed.

(** The section of the vector that has the name [nm]. *)
Fixpoint named (h : heap) (nm : str) (ss : list section) : option section :=
  match ss with
  | [] => None
  | s :: ss => if name_in h s =s Some nm then Some s else named h nm ss
  end.

Lemma find_named h nm m : forall v,
  Some <$> m = entry <$> v -> (forall s, In s v -> is_Some (name_in h s)) ->
  find h nm m = Ok (named h nm v).
Proof.
  induction m as [|[k s] m IH]; intros [|s' v] Hm Hl; try done.
  rewrite !fmap_cons in Hm. injection Hm as He Hm.
  destruct s' as [l|]; [|done]. unfold entry in He. simpl in He. simplify_eq.
  destruct (Hl (Some l)) as [x Hx]; [by left|].
  simpl. unfold name_in in *. simpl in *.
  destruct (h !! l) as [i|]; [|done]. simpl in *.
  rewrite (IH v Hm) by (intros; apply Hl; by right).
  destruct (bool_decide_reflect (name i = nm)) as [->|Hne].
  - rewrite Z.eqb_refl. simpl. by rewrite bool_decide_eq_true_2.
  - rewrite andb_false_r. by rewrite bool_decide_eq_false_2 by congruence.
Qed.

Lemma named_spec h nm v :
  match named h nm v with
  | Some s => In s v /\ name_in h s = Some nm
  | None => Some nm ∉ name_in h <$> v
  end.
Proof.
  induction v as [|s v IH]; [by apply not_elem_of_nil|]. simpl. case_bool_decide as Hn.
  - split; [by left|done].
  - destruct (named h nm v); [split; [by right; apply IH|by apply IH]|].
    by rewrite not_elem_of_cons.
Qed.

Lemma inv_live w ls :
  inv w -> logs w = Some ls -> forall s, In s (vec ls) -> is_Some (name_in (mem w) s).
Proof.
  intros HI Hls s Hs. destruct (inv_ls _ HI _ Hls) as [Hm _].
  destruct (map_vec _ Hm) as (Hmv & Hnn & _).
  destruct s as [l|]; [|by apply Hnn in Hs].
  destruct (counted_live _ _ (Some l) (inv_count _ HI)) with (l := l) as [i Hi]; [|done|].
  - unfold logs_of. rewrite Hls, Hmv. rewrite !in_app_iff. by left; right.
  - unfold name_in. simpl. rewrite Hi. by eexists.
Qed.

(** The world after a new section was appended. *)
Lemma new_section_inv w l nm ls :
  inv w -> mem w !! l = None -> logs w = Some ls ->
  Some nm ∉ name_in (mem w) <$> vec ls ->
  let h' := <[l := mk_impl nm 0 3]> (mem w) in
  let ls' := mk_sections (map ls ++ [(l, Some l)]) (vec ls ++ [Some l]) in
  inv (mk_world h' (Some ls') (Some l :: held w)) /\ name_in h' (Some l) = Some nm /\
  name_in h' <$> vec ls = name_in (mem w) <$> vec ls.
Proof.
  intros HI Hl Hls HN h' ls'. pose proof (inv_live _ _ HI Hls) as Hlive.
  pose proof (inv_count _ HI) as HC. unfold logs_of in HC. rewrite Hls in HC.
  destruct (inv_ls _ HI _ Hls) as [Hm Hnd].
  assert (name_in h' <$> vec ls = name_in (mem w) <$> vec ls) as Hsame.
  { apply list_fmap_ext. intros k s Hk.
    apply list_elem_of_lookup_2, list_elem_of_In, Hlive in Hk as [x Hx].
    destruct s as [m|]; [|done]. unfold name_in in *. simpl in *. unfold h'.
    rewrite lookup_insert_ne; [done|]. intros ->. by rewrite Hl in Hx. }
  assert (name_in h' (Some l) = Some nm) as Hnm.
  { unfold name_in, h'. simpl. by rewrite lookup_insert_eq. }
  split; [split|by split]; simpl.
  - intros k. specialize (HC k). unfold logs_of, h'. simpl.
    rewrite fmap_app, !count_app in *. simpl.
    destruct (decide (k = l)) as [->|Hne].
    + rewrite lookup_insert_eq. rewrite Hl in HC. simpl.
      destruct (decide (Some l = Some l)); [lia|done].
    + rewrite lookup_insert_ne by congruence.
      destruct (decide (Some l = Some k)); [congruence|].
      destruct (mem w !! k); lia.
  - intros ? [= <-]. split; simpl.
    + by rewrite !fmap_app, Hm.
    + rewrite fmap_app, Hsame, list_fmap_singleton, Hnm. apply NoDup_app.
      split; [done|]. split; [|apply NoDup_singleton].
      by intros x Hx ->%list_elem_of_singleton.
  - intros s' [<-|Hs']; [done|by apply (inv_held _ HI)].
Qed.

(** get() in a world that satisfies the invariant. *)
Lemma get_inv w l nm ls :
  inv w -> mem w !! l = None -> logs w = Some ls ->
  exists s ls' h', get l nm ls (mem w) = Ok (s, ls', h') /\
    inv (mk_world h' (Some ls') (s :: held w)) /\
    name_in h' s = Some nm /\
    name_in h' <$> vec ls = name_in (mem w) <$> vec ls /\
    (if decide (Some nm ∈ name_in (mem w) <$> vec ls)
     then ls' = ls /\ In s (vec ls)
     else ls' = mk_sections (map ls ++ [(l, s)]) (vec ls ++ [s]) /\ s = Some l).
Proof.
  intros HI Hl Hls. pose proof (inv_live _ _ HI Hls) as Hlive.
  pose proof (inv_count _ HI) as HC. unfold logs_of in HC. rewrite Hls in HC.
  destruct (inv_ls _ HI _ Hls) as [Hm Hnd].
  destruct (map_vec _ Hm) as (Hmv & Hnn & _).
  unfold get. rewrite (find_named _ _ _ _ Hm Hlive). simpl.
  pose proof (named_spec (mem w) nm (vec ls)) as HN.
  destruct (named (mem w) nm (vec ls)) as [s|].
  - destruct HN as [Hin Hnm].
    destruct (retain_counted s _ _ HC) as (h' & -> & HC' & HK).
    { apply (counted_live _ _ _ HC). rewrite !in_app_iff. by left; right. }
    exists s, ls, h'. split; [done|].
    pose proof (same_names _ h' _ HK Hlive) as Hsame.
    split; [split|]; simpl.
    + unfold logs_of. simpl. eapply counted_perm, HC'. intros k. simpl.
      rewrite !count_app. simpl. lia.
    + intros ? [= <-]. split; [done|]. by rewrite Hsame.
    + intros s' [<-|Hs']; [by apply Hnn|by apply (inv_held _ HI)].
    + assert (name_in h' <$> [s] = name_in (mem w) <$> [s]) as [= Hs1].
      { apply (same_names _ h' _ HK). intros s' [<-|[]]. by eexists. }
      split; [congruence|]. split; [done|].
      destruct (decide _) as [_|Hn]; [done|]. destruct Hn.
      apply list_elem_of_fmap. exists s.
      split; [congruence|by apply list_elem_of_In].
  - destruct (new_section_inv w l nm ls HI Hl Hls HN) as (HI' & Hnm & Hsame).
    cbv [make_section]. simpl. rewrite lookup_insert_eq. simpl. rewrite lookup_insert_eq. simpl.
    rewrite !insert_insert_eq. do 3 eexists. split; [done|]. split; [exact HI'|].
    split; [exact Hnm|]. split; [exact Hsame|]. by destruct (decide _).
Qed.

Lemma inv_start : inv start.
Proof.
  split; simpl.
  - intros l. by rewrite lookup_empty.
  - intros ls [= <-]. split; [done|]. apply NoDup_nil_2.
  - done.
Qed.

Lemma inv_logs_keep h h' ls :
  inv_logs h ls -> name_in h' <$> vec ls = name_in h <$> vec ls -> inv_logs h' ls.
Proof. intros [H1 H2] Hs. split; [done|]. by rewrite Hs. Qed.

Lemma same_on_names h h' ss v :
  same_on ss h h' -> (forall s, In s v -> In s ss /\ is_Some (name_in h s)) ->
  name_in h' <$> v = name_in h <$> v.
Proof.
  intros HS Hv. apply list_fmap_ext. intros k s Hk.
  apply list_elem_of_lookup_2, list_elem_of_In, Hv in Hk as [Hin [nm Hn]].
  destruct s as [l|]; [|done]. unfold name_in in *. simpl in *.
  destruct (h !! l) as [i|] eqn:Hi; [|done].
  destruct (HS l i Hi) as (i' & -> & ? & _); [|simpl; by f_equal].
  clear -Hin. induction ss as [|s ss IH]; [done|]. simpl.
  destruct Hin as [->|Hin]; [rewrite decide_True by done; lia|]. specialize (IH Hin). lia.
Qed.

Lemma retain_step w ss :
  inv w -> (forall s, In s ss -> In s (logs_of w ++ held w) /\ s <> None) ->
  exists h, retain_all ss (mem w) = Ok h /\ inv (mk_world h (logs w) (ss ++ held w)).
Proof.
  intros HI Hss. destruct (retain_all_counted ss _ _ (inv_count _ HI)) as (h & Hr & HC & HK).
  { apply Hss. }
  exists h. split; [done|]. split; simpl.
  - eapply counted_perm, HC. intros l. unfold logs_of. simpl. rewrite !count_app. lia.
  - intros ls Hls. eapply inv_logs_keep; [by apply HI|].
    apply same_names; [done|]. by apply inv_live.
  - intros s [Hs|Hs]%in_app_iff; [by apply Hss|by apply (inv_held _ HI)].
Qed.

Lemma drop_step w s hs hs' :
  inv w -> held w = hs ++ s :: hs' ->
  exists h, release s (mem w) = Ok h /\ inv (mk_world h (logs w) (hs ++ hs')).
Proof.
  intros HI Hh. pose proof (inv_count _ HI) as HC. rewrite Hh in HC.
  destruct (release_counted s (mem w) (logs_of w ++ hs ++ hs')) as (h & Hr & HC' & HS).
  { eapply counted_perm, HC. intros l. simpl. rewrite !count_app. simpl. lia. }
  exists h. split; [done|]. split; simpl.
  - done.
  - intros ls Hls. eapply inv_logs_keep; [by apply HI|].
    eapply same_on_names; [done|]. intros s' Hs'. split; [|by eapply inv_live].
    unfold logs_of. rewrite Hls. rewrite !in_app_iff. by left; right.
  - intros s' Hs'. apply (inv_held _ HI). rewrite Hh. rewrite in_app_iff in *. simpl. tauto.
Qed.

Lemma destroy_step w ls :
  inv w -> logs w = Some ls ->
  exists h, destroy ls (mem w) = Ok h /\ inv (mk_world h None (held w)).
Proof.
  intros HI Hls. pose proof (inv_count _ HI) as HC. unfold logs_of in HC. rewrite Hls in HC.
  unfold destroy.
  destruct (release_all_counted (vec ls) (mem w) ((snd <$> map ls) ++ held w))
    as (h & -> & HC1 & _).
  { eapply counted_perm, HC. intros l. rewrite !count_app. lia. }
  simpl. destruct (release_all_counted _ _ _ HC1) as (h' & -> & HC2 & _).
  exists h'. split; [done|]. split; simpl; [done..|]. apply (inv_held _ HI).
Qed.

(** Every call in a good world returns, in a good world. *)
Lemma step_inv w r : inv w -> step w r -> exists w', r = Ok w' /\ inv w'.
Proof.
  intros HI HS. destruct HS as [l nm ls Hl Hls|ls Hls|s hs hs' Hh|s hs hs' Hh|ls Hls].
  - destruct (get_inv w l nm ls HI Hl Hls) as (s & ls' & h & -> & HI' & _). by eexists.
  - unfold get_sections. destruct (retain_step w (vec ls) HI) as (h & -> & HI').
    { intros s Hs. split.
      - unfold logs_of. rewrite Hls, !in_app_iff. by left; right.
      - destruct (map_vec _ (inv_map _ _ (inv_ls _ HI _ Hls))) as (_ & Hn & _). by apply Hn. }
    rewrite Hls in HI'. by eexists.
  - assert (In s (held w)) as Hin by (rewrite Hh, in_app_iff; right; by left).
    destruct (retain_step w [s] HI) as (h & Hr & HI').
    { intros s' [<-|[]]. split; [by rewrite in_app_iff; right|by apply (inv_held _ HI)]. }
    simpl in Hr. destruct (retain s (mem w)) as [h'| |]; simpl in *; simplify_eq.
    by eexists.
  - destruct (drop_step w s hs hs' HI Hh) as (h & -> & HI'). by eexists.
  - destruct (destroy_step w ls HI Hls) as (h & -> & HI'). by eexists.
Qed.

Lemma reachable_inv w : reachable w -> inv w.
Proof.
  induction 1 as [|w w' _ IH HS]; [apply inv_start|].
  destruct (step_inv _ _ IH HS) as (w1 & ? & ?). by simplify_eq.
Qed.

Lemma inv_held_named w s : inv w -> In s (held w) -> is_Ok (section_name (mem w) s) = true.
Proof.
  intros HI Hs. destruct s as [l|]; [|by destruct (inv_held _ HI _ Hs)].
  destruct (counted_live _ _ (Some l) (inv_count _ HI)) with (l := l) as [i Hi]; [|done|].
  - rewrite in_app_iff. by right.
  - unfold section_name. simpl. by rewrite Hi.
Qed.

(** A log macro whose level is below the threshold does nothing; any other one
    writes the line the format string renders, or writes nothing and throws. *)
Lemma LOG_AT_LEVEL_spec h l i lvl fs args cerr :
  h !! l = Some i ->
  LOG_AT_LEVEL h (Some l) lvl fs args cerr =
    if lvl <? level i then Some (cerr, Ok tt)
    else match Format.render [] (Format.pieces fs) args with
         | (s, Ok _) => Some (cerr ++ s ++ [chr 10], Ok tt)
         | (_, Err e) => Some (cerr, Err e)
         | (_, UB) => Some (cerr, UB)
         end.
Proof.
  intros Hl. unfold LOG_AT_LEVEL, threshold. simpl. rewrite Hl. simpl.
  destruct (lvl <? level i); [done|]. unfold call. rewrite Format.format_to_render.
  by destruct (Format.render [] (Format.pieces fs) args) as [s [[]| |]].
Qed.

(** The hash stays within size_t. *)
Lemma hash_range s : 0 <= hash s < 2 ^ 64.
Proof.
  unfold hash. assert (0 <= 1469598103934665603 < 2 ^ 64) as H by lia.
  revert H. generalize 1469598103934665603. induction s as [|c s IH]; intros h Hh; [done|].
  apply IH, wrap_range. lia.
Qed.

(** ** Properties *)

(** C10: get() by name is a lookup in the table of the names in order of first
    use: a name already in the table gives the one section that has it and
    changes no list; a new name gives a new section, appended to the vector
    get_sections() returns; the names of all the other sections stay. *)
Theorem get_refines_name_table w l nm ls :
  reachable w -> mem w !! l = None -> logs w = Some ls ->
  exists s ls' h', get l nm ls (mem w) = Ok (s, ls', h') /\
    section_name h' s = Ok nm /\
    name_in h' <$> vec ls' =
      (let names := name_in (mem w) <$> vec ls in
       if decide (Some nm ∈ names) then names else names ++ [Some nm]) /\
    (exists vs, vec ls' = vec ls ++ vs) /\
    (forall s', In s' (vec ls') -> name_in h' s' = Some nm -> s' = s).
Proof.
  intros HI%reachable_inv Hl Hls.
  destruct (get_inv w l nm ls HI Hl Hls) as (s & ls' & h & Hg & HI' & Hn & Hsame & Hd).
  exists s, ls', h. split; [done|]. split.
  { unfold section_name, name_in in *. destruct s as [k|]; [|done]. simpl in *.
    destruct (h !! k); simpl in *; by simplify_eq. }
  assert (In s (vec ls')) as Hin.
  { destruct (decide _); destruct Hd as [-> ?]; [done|]. simpl. rewrite in_app_iff.
    by right; left. }
  split; [|split].
  - simpl. destruct (decide _); destruct Hd as [-> ?]; [done|]. simpl.
    by rewrite fmap_app, Hsame, list_fmap_singleton, Hn.
  - destruct (decide _); destruct Hd as [-> ?]; [exists []; by rewrite app_nil_r|by eexists].
  - intros s' Hs' Hn'. destruct (inv_ls _ HI' _ eq_refl) as [_ Hnd]. simpl in Hnd.
    apply list_elem_of_In, list_elem_of_lookup in Hs' as [i Hi].
    apply list_elem_of_In, list_elem_of_lookup in Hin as [j Hj].
    assert (i = j) as ->; [|congruence].
    eapply NoDup_lookup; [done|rewrite list_lookup_fmap, Hi; simpl; by rewrite Hn'|].
    rewrite list_lookup_fmap, Hj. simpl. by rewrite Hn.
Qed.

Lemma get_refines_name_table_witness :
  exists s ls' h', get 7 $"http" no_sections ∅ = Ok (s, ls', h') /\
    section_name h' s = Ok $"http" /\ name_in h' <$> vec ls' = [Some $"http"] /\
    (exists vs, vec ls' = [] ++ vs) /\
    (forall s', In s' (vec ls') -> name_in h' s' = Some $"http" -> s' = s).
Proof. exact (get_refines_name_table start 7 $"http" no_sections reach_start eq_refl eq_refl). Defined.

(** C11: in every interleaving of get(), get_sections(), copies and destructions
    of sections and the destruction of log_sections, no call touches a deleted
    object, every section a caller holds can be used, also after log_sections is
    gone, and no object is left when nothing refers to it. *)
Theorem sections_share_ownership w :
  reachable w ->
  (forall r, step w r -> exists w', r = Ok w') /\
  (forall s, In s (held w) -> is_Ok (section_name (mem w) s) = true) /\
  (logs w = None -> held w = [] -> mem w = ∅).
Proof.
  intros HI%reachable_inv. split; [|split].
  - intros r Hr. destruct (step_inv _ _ HI Hr) as (w' & ? & _). by exists w'.
  - intros s. by apply inv_held_named.
  - intros Hls Hh. apply map_eq. intros l. rewrite lookup_empty.
    pose proof (inv_count _ HI l) as HC. unfold logs_of in HC. rewrite Hls, Hh in HC.
    simpl in HC. destruct (mem w !! l); [lia|done].
Qed.

Lemma sections_share_ownership_witness :
  let w := mk_world ∅ None [] in
  reachable w /\
  ((forall r, step w r -> exists w', r = Ok w') /\
   (forall s, In s (held w) -> is_Ok (section_name (mem w) s) = true) /\
   (logs w = None -> held w = [] -> mem w = ∅)).
Proof.
  assert (reachable (mk_world ∅ None [])) as HR.
  { exact (reach_step start _ reach_start (step_destroy start no_sections eq_refl)). }
  split; [exact HR|exact (sections_share_ownership _ HR)].
Defined.

End Logger.
