(* ===== verification/Worker.v ===== *)
(** HTTP sessions (src/http_worker.cpp) and the servers that run them
    (src/http_server.cpp, src/https_server.cpp).

    Boost.Http's parser, serializer, router and response, and Boost.URL's
    parse_uri_reference, are libraries outside this repository: the class
    [Http] has the operations the worker calls on a response and a URL, the
    parser is the protocol its documentation prescribes (reset, start,
    read_header, get, in that order), and what the peer sends and what a handler
    does are the [exchange]s of a session.  A handler gets the route_params by
    reference, so it may change all of them. *)
From S2P Require Import Prelude.

Module Worker.

Class Http := {
  response : Type;
  headers : Type;                      (* the fields of a request *)
  url : Type;
  set_start_line : Z -> Z -> response -> response;   (* status, version *)
  set_keep_alive : bool -> response -> response;
  keep_alive : response -> bool;
  set_status : Z -> response -> response;
  parse_uri_reference : str -> option url
}.

Section Session.
Context `{Http}.

Record request := mk_request {
  method : str;
  target : str;
  version : Z;
  req_keep_alive : bool;
  req_fields : headers
}.

(** http::request_parser, as far as its calling protocol goes. *)
Inductive parser_state :=
| P_constructed | P_reset | P_started | P_failed
| P_header (r : request).

Definition parser_reset (_ : parser_state) : parser_state := P_reset.
Definition parser_start (p : parser_state) : comp exn parser_state :=
  match p with P_reset => Ok P_started | _ => UB end.
Definition parser_get (p : parser_state) : comp exn request :=
  match p with P_header r => Ok r | _ => UB end.

(** http::route_params, the members the worker or its handlers use. *)
Record route_params := mk_params {
  req : option request;
  res : response;
  rp_url : option url;
  session_data : list str;
  route_data : list str
}.

Record http_worker := mk_worker {
  rp : route_params;
  stream : option nat;            (* the stream object it reads from *)
  parser : parser_state;
  serializer_reset : bool         (* reset since its last use *)
}.

Definition set_parser (w : http_worker) (p : parser_state) : http_worker :=
  mk_worker (rp w) (stream w) p (serializer_reset w).
Definition set_rp (w : http_worker) (r : route_params) : http_worker :=
  mk_worker r (stream w) (parser w) (serializer_reset w).
Definition set_stream (w : http_worker) (s : nat) : http_worker :=
  mk_worker (rp w) (Some s) (parser w) (serializer_reset w).

(** The constructor: [res0] is a default constructed response. *)
Definition new_worker (res0 : response) : http_worker :=
  mk_worker (mk_params None res0 None [] []) None P_constructed false.

Definition clear_session_data (r : route_params) : route_params :=
  mk_params (req r) (res r) (rp_url r) [] (route_data r).

(** parser.reset(); parser.start(); rp.session_data.clear() *)
Definition clear (w : http_worker) : comp exn http_worker :=
  p ← parser_start (parser_reset (parser w));
  Ok (set_rp (set_parser w p) (clear_session_data (rp w))).

(** What happens between the peer, the router and one turn of the loop. *)
Record exchange := mk_exchange {
  header : str + request;                     (* read_header: error or request *)
  dispatch : route_params -> route_params * comp exn bool   (* failed()? *)
}.

Inductive flow := Break | Again.

Definition ok : Z := 200.
Definition bad_request : Z := 400.

(** co_await parser.read_header(stream), on the live streams [alive]. *)
Definition read_header (alive : list nat) (w : http_worker) (x : exchange)
    : comp exn (http_worker * option str) :=
  match stream w, parser w with
  | Some s, P_started =>
      if decide (s ∈ alive) then
        match header x with
        | inl ec => Ok (set_parser w P_failed, Some ec)
        | inr r => Ok (set_parser w (P_header r), None)
        end
      else UB
  | _, _ => UB
  end.

(** The request and response objects set up before dispatch. *)
Definition set_up (w : http_worker) (r : request) : http_worker :=
  let p := rp w in
  let res1 := set_start_line ok (version r) (res p) in
  let res2 := set_keep_alive (req_keep_alive r) res1 in
  mk_worker (mk_params (Some r) res2 (rp_url p) (session_data p) [])
    (stream w) (parser w) true.

(** The block that parses the target: rv.value() throws when rv has an error,
    after the status has been set. *)
Definition parse_target (w : http_worker) (r : request) : http_worker * comp exn unit :=
  let p := rp w in
  match parse_uri_reference (target r) with
  | None =>
      (set_rp w (mk_params (req p) (set_status bad_request (res p)) (rp_url p)
                   (session_data p) (route_data p)), Err SystemError)
  | Some u =>
      (set_rp w (mk_params (req p) (res p) (Some u) (session_data p) (route_data p)), Ok tt)
  end.

(** One turn of the loop, from the top: the worker afterwards, the route_params
    the router was given (if it was called), the line written to std::cerr and
    how the turn ended. *)
Record turn := mk_turn {
  after : http_worker;
  given : list route_params;
  cerr : list str;
  outcome : comp exn flow
}.

Definition iterate (alive : list nat) (w : http_worker) (x : exchange) : turn :=
  match clear w with
  | Ok w1 =>
      match read_header alive w1 x with
      | Ok (w2, Some ec) => mk_turn w2 [] [$"read_header error: " ++ ec] (Ok Break)
      | Ok (w2, None) =>
          match parser_get (parser w2) with
          | Ok r =>
              let w3 := set_up w2 r in
              match parse_target w3 r with
              | (w4, Ok _) =>
                  let '(p, rv) := dispatch x (rp w4) in
                  let w5 := mk_worker p (stream w4) (parser w4) false in
                  mk_turn w5 [rp w4] []
                    (failed ← rv;
                     Ok (if (failed : bool) then Break
                         else if keep_alive (res p) then Again else Break))
              | (w4, Err e) => mk_turn w4 [] [] (Err e)
              | (w4, UB) => mk_turn w4 [] [] UB
              end
          | Err e => mk_turn w2 [] [] (Err e)
          | UB => mk_turn w2 [] [] UB
          end
      | Err e => mk_turn w1 [] [] (Err e)
      | UB => mk_turn w1 [] [] UB
      end
  | Err e => mk_turn w [] [] (Err e)
  | UB => mk_turn w [] [] UB
  end.

(** How a session stands when the peer has sent what it sends: it returned, an
    exception left it, or it waits for the next header. *)
Inductive ending := Returned | Threw (e : exn) | Undefined | Waiting.

Record session := mk_session {
  worker_ : http_worker;
  dispatched : list route_params;
  log : list str;
  ended : ending
}.

Fixpoint loop (alive : list nat) (w : http_worker) (xs : list exchange) : session :=
  match xs with
  | [] => mk_session w [] [] Waiting
  | x :: xs =>
      let t := iterate alive w x in
      match outcome t with
      | Ok Again =>
          let s := loop alive (after t) xs in
          mk_session (worker_ s) (given t ++ dispatched s) (cerr t ++ log s) (ended s)
      | Ok Break => mk_session (after t) (given t) (cerr t) Returned
      | Err e => mk_session (after t) (given t) (cerr t) (Threw e)
      | UB => mk_session (after t) (given t) (cerr t) Undefined
      end
  end.

(** ~guard runs when the coroutine returns and when an exception leaves it. *)
Definition do_http_session (alive : list nat) (w : http_worker) (xs : list exchange)
    : session :=
  let s := loop alive w xs in
  match ended s with
  | Returned | Threw _ =>
      match clear (worker_ s) with
      | Ok w => mk_session w (dispatched s) (log s) (ended s)
      | _ => mk_session (worker_ s) (dispatched s) (log s) Undefined
      end
  | _ => s
  end.

(** ** The plain HTTP worker

    [sock_ids] are the identities of the stream objects; the socket of a plain
    worker is one object for the worker's life. *)

Inductive sock_event := Sock_shutdown | Tls_handshake | Tls_shutdown | Tls_deleted.

Definition sock_id : nat := 0.

(** The constructor of http_server::worker. *)
Definition http_server_worker (res0 : response) : http_worker :=
  set_stream (new_worker res0) sock_id.

(** http_server::worker::do_session *)
Definition http_do_session (w : http_worker) (xs : list exchange)
    : session * list sock_event :=
  let s := do_http_session [sock_id] w xs in
  match ended s with
  | Returned => (s, [Sock_shutdown])
  | _ => (s, [])
  end.

(** The workers an http_server is constructed with. *)
Fixpoint make_workers {W} (make : W) (num_workers : nat) : list W :=
  match num_workers with
  | O => []
  | S n => make :: make_workers make n
  end.

Definition http_server (res0 : response) (num_workers : nat) : list http_worker :=
  make_workers (http_server_worker res0) num_workers.

(** ** The HTTPS worker *)

Record https_worker := mk_https {
  base : http_worker;
  ssl : option nat                 (* unique_ptr<openssl_stream> *)
}.

(** The constructor of https_server::worker: nothing is wired yet. *)
Definition https_server_worker (res0 : response) : https_worker :=
  mk_https (new_worker res0) None.

Definition https_server (res0 : response) (num_workers : nat) : list https_worker :=
  make_workers (https_server_worker res0) num_workers.

(** https_server::worker::do_session: [id] is the stream object make_unique
    gives, [hs_ec] the outcome of the handshake (what the TLS shutdown returns
    is ignored).  Assigning to [ssl] deletes the stream of a session an
    exception ended. *)
Definition https_do_session (id : nat) (hs_ec : option str) (w : https_worker)
    (xs : list exchange) : https_worker * session * list sock_event :=
  let old := match ssl w with Some _ => [Tls_deleted] | None => [] end in
  match hs_ec with
  | Some ec =>
      (mk_https (base w) None,
       mk_session (base w) [] [$"TLS handshake error: " ++ ec] Returned,
       old ++ [Tls_handshake; Sock_shutdown; Tls_deleted])
  | None =>
      let s := do_http_session [id] (set_stream (base w) id) xs in
      match ended s with
      | Returned =>
          (mk_https (worker_ s) None, s,
           old ++ [Tls_handshake; Tls_shutdown; Tls_deleted; Sock_shutdown])
      | _ => (mk_https (worker_ s) (Some id), s, old ++ [Tls_handshake])
      end
  end.

(** A worker serves one connection after the other, as long as none waits. *)
Fixpoint http_serve (w : http_worker) (cs : list (list exchange)) : list session :=
  match cs with
  | [] => []
  | xs :: cs =>
      let '(s, _) := http_do_session w xs in
      s :: match ended s with
           | Returned | Threw _ => http_serve (worker_ s) cs
           | _ => []
           end
  end.

Record connection := mk_connection {
  tls_id : nat;
  handshake : option str;
  traffic : list exchange
}.

Fixpoint https_serve (w : https_worker) (cs : list connection) : list session :=
  match cs with
  | [] => []
  | c :: cs =>
      let '(w', s, _) := https_do_session (tls_id c) (handshake c) w (traffic c) in
      s :: match ended s with
           | Returned | Threw _ => https_serve w' cs
           | _ => []
           end
  end.

(** ** What holds of every session *)

(** A handler returns or throws. *)
Definition defined_handler (x : exchange) : Prop :=
  forall p, snd (dispatch x p) <> UB.

(** The route_params of a dispatch hold the request of its exchange and the URL
    of its target, and nothing of the requests before it. *)
Definition fresh_for (x : exchange) (p : route_params) : Prop :=
  exists r u, header x = inr r /\ req p = Some r /\
    parse_uri_reference (target r) = Some u /\ rp_url p = Some u /\
    session_data p = [] /\ route_data p = [].

(** What a session is, from what the peer sends: a header that cannot be read is
    logged and ends it, a bad target ends it by an exception, and any other request
    is dispatched once; then it goes on if the handler did not fail and left the
    response with keep-alive.  The arguments are the exchanges, the route_params
    dispatched, the lines logged and the end. *)
Inductive session_of : list exchange -> list route_params -> list str -> ending -> Prop :=
| session_waits : session_of [] [] [] Waiting
| session_unread x xs ec :
    header x = inl ec -> session_of (x :: xs) [] [$"read_header error: " ++ ec] Returned
| session_bad_target x xs r :
    header x = inr r -> parse_uri_reference (target r) = None ->
    session_of (x :: xs) [] [] (Threw SystemError)
| session_closes x xs p q failed :
    fresh_for x p -> dispatch x p = (q, Ok failed) ->
    failed || negb (keep_alive (res q)) = true -> session_of (x :: xs) [p] [] Returned
| session_throws x xs p q e :
    fresh_for x p -> dispatch x p = (q, Err e) -> session_of (x :: xs) [p] [] (Threw e)
| session_goes_on x xs p q ps l e :
    fresh_for x p -> dispatch x p = (q, Ok false) -> keep_alive (res q) = true ->
    session_of xs ps l e -> session_of (x :: xs) (p :: ps) l e.

Lemma session_defined xs ps l e : session_of xs ps l e -> e <> Undefined.
Proof. by induction 1. Qed.

Lemma session_dispatches xs ps l e :
  session_of xs ps l e -> exists ys zs, xs = ys ++ zs /\ Forall2 fresh_for ys ps.
Proof.
  induction 1 as [|x xs|x xs|x xs|x xs|x xs p q ps l e Hp _ _ _ (ys & zs & -> & HF)];
    try (by eexists [], _); try (by exists [x], xs; split; [|repeat constructor]).
  exists (x :: ys), zs. by split; [|constructor].
Qed.

Definition wired (alive : list nat) (w : http_worker) : Prop :=
  exists i, stream w = Some i /\ i ∈ alive.

(** The state the guard leaves. *)
Definition clean (w : http_worker) : Prop :=
  parser w = P_started /\ session_data (rp w) = [].

Lemma clear_ok w :
  clear w = Ok (set_rp (set_parser w P_started) (clear_session_data (rp w))).
Proof. done. Qed.

Lemma iterate_spec alive w x :
  wired alive w -> defined_handler x ->
  let t := iterate alive w x in
  stream (after t) = stream w /\ outcome t <> UB /\
  match header x with
  | inl ec => given t = [] /\ outcome t = Ok Break /\ cerr t = [$"read_header error: " ++ ec]
  | inr r =>
      match parse_uri_reference (target r) with
      | None => given t = [] /\ outcome t = Err SystemError /\ cerr t = []
      | Some _ => exists p, given t = [p] /\ fresh_for x p /\ cerr t = [] /\
          outcome t = (failed ← snd (dispatch x p);
            Ok (if (failed : bool) || negb (keep_alive (res (fst (dispatch x p))))
                then Break else Again))
      end
  end.
Proof.
  intros (i & Hs & Hi) Hd. unfold iterate, clear. simpl. unfold read_header. simpl.
  rewrite Hs, decide_True by done.
  destruct (header x) as [ec|r] eqn:Hx; simpl; [done|]. unfold parse_target, set_up. simpl.
  destruct (parse_uri_reference (target r)) as [u|] eqn:Hu; simpl; [|by rewrite Hs].
  specialize (Hd (mk_params (Some r) (set_keep_alive (req_keep_alive r)
    (set_start_line ok (version r) (res (rp w)))) (Some u) [] [])).
  destruct (dispatch x _) as [p rv] eqn:Ed. simpl in *. split; [done|]. split.
  - destruct rv as [[]| |]; [done| |done|done]. simpl. by destruct (keep_alive (res p)).
  - eexists. split; [done|]. split; [by exists r, u|]. split; [done|].
    rewrite Ed. simpl. destruct rv as [[]| |]; try done. simpl. by destruct (keep_alive _).
Qed.

(** The response a handler is given is the one of the request before it, with
    another start line and another keep-alive: its other fields stay. *)
Lemma response_reused alive w x p :
  given (iterate alive w x) = [p] ->
  exists r, header x = inr r /\
    res p = set_keep_alive (req_keep_alive r) (set_start_line ok (version r) (res (rp w))).
Proof.
  unfold iterate, clear, read_header. simpl. destruct (stream w) as [i|]; [|done].
  destruct (decide (i ∈ alive)); [|done]. destruct (header x) as [ec|r]; [done|]. simpl.
  unfold parse_target. simpl. destruct (parse_uri_reference (target r)); [|done]. simpl.
  destruct (dispatch x _) as [q rv]. intros [= <-]. by exists r.
Qed.

Lemma wired_stream alive w w' : stream w' = stream w -> wired alive w -> wired alive w'.
Proof. intros He (i & Hs & Hi). exists i. by rewrite He. Qed.

Lemma loop_spec alive xs : forall w,
  wired alive w -> Forall defined_handler xs ->
  let s := loop alive w xs in
  stream (worker_ s) = stream w /\ session_of xs (dispatched s) (log s) (ended s).
Proof.
  induction xs as [|x xs IH]; intros w Hw Hd; [by split; [|constructor]|].
  apply Forall_cons in Hd as [Hx Hd].
  destruct (iterate_spec alive w x Hw Hx) as (Hs & Hub & Hc).
  simpl. destruct (iterate alive w x) as [w' g c o]. simpl in *.
  destruct (header x) as [ec|r] eqn:Eh; [destruct Hc as (-> & -> & ->); by split; [|constructor]|].
  destruct (parse_uri_reference (target r)) eqn:Et;
    [|destruct Hc as (-> & -> & ->); by split; [|econstructor]].
  destruct Hc as (p & -> & Hp & -> & ->). destruct (dispatch x p) as [q rv] eqn:Ed. simpl in *.
  destruct rv as [failed|e|]; simpl in *; [|by split; [|econstructor]|done].
  destruct (failed || negb (keep_alive (res q))) eqn:Ek; [by split; [|econstructor]|].
  apply orb_false_iff in Ek as [-> Hk%negb_false_iff].
  destruct (IH w') as (Hs' & HS); [by eapply wired_stream|done|].
  split; [simpl; congruence|]. by eapply session_goes_on.
Qed.

(** The loop on a longer exchange continues where it waits. *)
Lemma loop_app alive xs ys : forall w,
  ended (loop alive w xs) = Waiting ->
  let s := loop alive w xs in
  let t := loop alive (worker_ s) ys in
  loop alive w (xs ++ ys) =
    mk_session (worker_ t) (dispatched s ++ dispatched t) (log s ++ log t) (ended t).
Proof.
  induction xs as [|x xs IH]; intros w Hw; simpl in *.
  - by destruct (loop alive w ys).
  - destruct (outcome (iterate alive w x)) as [[]| |]; simpl in *; try done.
    rewrite (IH _ Hw). simpl. by rewrite !app_assoc.
Qed.

(** A session leaves the worker as the guard says, and reads no dead stream. *)
Definition good_session (xs : list exchange) (s : session) : Prop :=
  (ended s <> Waiting -> clean (worker_ s)) /\
  session_of xs (dispatched s) (log s) (ended s).

(** Connections are left over only behind one that still waits. *)
Definition none_skipped {A} (ss : list session) (left_over : list A) : Prop :=
  left_over = [] \/ exists s, last ss = Some s /\ ended s = Waiting.

Lemma none_skipped_cons {A} s ss (es : list A) :
  none_skipped ss es -> none_skipped (s :: ss) es.
Proof.
  intros [->|(t & Ht & He)]; [by left|]. right. exists t. split; [|done].
  destruct ss; [done|]. by rewrite last_cons_cons.
Qed.

Lemma session_spec alive w xs :
  wired alive w -> Forall defined_handler xs ->
  good_session xs (do_http_session alive w xs) /\
  stream (worker_ (do_http_session alive w xs)) = stream w.
Proof.
  intros Hw Hd. destruct (loop_spec alive xs w Hw Hd) as (Hs & Hf).
  pose proof (session_defined _ _ _ _ Hf) as Hu.
  unfold do_http_session. destruct (loop alive w xs) as [w' ds l e]. simpl in *.
  by destruct e; simpl; (split; [split|]).
Qed.

Lemma http_serve_good w cs :
  wired [sock_id] w -> Forall (Forall defined_handler) cs ->
  exists ds es, cs = ds ++ es /\ Forall2 good_session ds (http_serve w cs) /\
    none_skipped (http_serve w cs) es.
Proof.
  revert w. induction cs as [|xs cs IH]; intros w Hw Hd; simpl; [exists [], []; by repeat split; [|left]|].
  apply Forall_cons in Hd as [Hx Hd].
  destruct (session_spec [sock_id] w xs Hw Hx) as [Hg Hs].
  unfold http_do_session. set (s := do_http_session [sock_id] w xs) in *.
  destruct (ended s) eqn:He; simpl; rewrite He.
  1, 2: destruct (IH (worker_ s)) as (ds & es & -> & HF & HN); [by eapply wired_stream|done|];
    exists (xs :: ds), es; (split; [done|]); (split; [by constructor|]);
    by apply none_skipped_cons.
  - by destruct (session_defined _ _ _ _ (proj2 Hg)).
  - exists [xs], cs. split; [done|]. split; [by apply Forall2_cons|]. right. by exists s.
Qed.

(** What a connection gives: after a failed handshake a message and nothing else;
    otherwise a session over the TLS stream of this connection. *)
Definition good_connection (c : connection) (s : session) : Prop :=
  match handshake c with
  | Some ec => dispatched s = [] /\ log s = [$"TLS handshake error: " ++ ec] /\ ended s = Returned
  | None => good_session (traffic c) s /\ stream (worker_ s) = Some (tls_id c)
  end.

Lemma https_serve_good w cs :
  Forall (fun c => Forall defined_handler (traffic c)) cs ->
  exists ds es, cs = ds ++ es /\ Forall2 good_connection ds (https_serve w cs) /\
    none_skipped (https_serve w cs) es.
Proof.
  revert w. induction cs as [|c cs IH]; intros w Hd; simpl; [exists [], []; by repeat split; [|left]|].
  apply Forall_cons in Hd as [Hx Hd]. unfold https_do_session.
  destruct (handshake c) as [ec|] eqn:Hh; simpl.
  - destruct (IH (mk_https (base w) None) Hd) as (ds & es & -> & HF & HN).
    exists (c :: ds), es. split; [done|]. split; [|by apply none_skipped_cons].
    constructor; [|done]. unfold good_connection. by rewrite Hh.
  - destruct (session_spec [tls_id c] (set_stream (base w) (tls_id c)) (traffic c))
      as [Hg Ht]; [by exists (tls_id c); split; [|left]|done|].
    set (s := do_http_session [tls_id c] (set_stream (base w) (tls_id c)) (traffic c)) in *.
    assert (good_connection c s) as HG by (unfold good_connection; by rewrite Hh).
    destruct (ended s) eqn:He; simpl; rewrite He.
    1, 2: match goal with |- context [https_serve ?w' _] =>
      destruct (IH w' Hd) as (ds & es & -> & HF & HN) end;
      exists (c :: ds), es; (split; [done|]); (split; [by constructor|]);
      by apply none_skipped_cons.
    + by destruct (session_defined _ _ _ _ (proj2 Hg)).
    + exists [c], cs. split; [done|]. split; [by apply Forall2_cons|]. right. by exists s.
Qed.

End Session.

(** An instance for the witnesses: any target but the empty one parses. *)
#[local] Instance text_http : Http := {
  response := Z * Z * bool;
  headers := list (str * str);
  url := str;
  set_start_line s v r := (s, v, snd r);
  set_keep_alive b r := (fst r, b);
  keep_alive r := snd r;
  set_status s r := (s, snd (fst r), snd r);
  parse_uri_reference t := if t =s [] then None else Some t
}.

Definition get_ (t : str) : exchange :=
  mk_exchange (inr (mk_request $"GET" t 11 true []))
    (fun p => (mk_params (req p) (res p) (rp_url p) [$"user"] [$"id"], Ok false)).

(** C4: a worker that serves connection after connection calls the parser in
    the order it prescribes, always on the live socket; every handler is given
    the request it is for, the URL of its target and no session or route data of
    an earlier request or connection, whatever earlier handlers stored there;
    every request is dispatched in order until a header cannot be read, a target
    is bad, or a handler throws, fails or leaves the response without keep-alive;
    and the worker is cleared after each session, also one an exception ended, and
    takes the next connection. *)
Theorem http_sessions_isolated `{Http} res0 cs :
  Forall (Forall defined_handler) cs ->
  exists ds es, cs = ds ++ es /\
    Forall2 good_session ds (http_serve (http_server_worker res0) cs) /\
    none_skipped (http_serve (http_server_worker res0) cs) es.
Proof. apply http_serve_good. by exists sock_id; split; [|left]. Qed.

Lemma http_sessions_isolated_witness :
  let cs := [[get_ $"/a"; get_ $"/b"; get_ []]; [get_ $"/c"]] in
  let ss := http_serve (http_server_worker (0, 0, false)) cs in
  exists ds es, cs = ds ++ es /\ Forall2 good_session ds ss /\ none_skipped ss es.
Proof. apply http_sessions_isolated. repeat constructor; done. Defined.

(** C31: a request whose target is not a URI reference is never dispatched and
    never answered: the status is set to bad request, but taking the value of
    the failed parse throws, which ends the session and leaves the socket
    without its shutdown. *)
Theorem bad_target_ends_session `{Http} w xs x ys r :
  stream w = Some sock_id -> Forall defined_handler (xs ++ [x]) ->
  ended (do_http_session [sock_id] w xs) = Waiting ->
  header x = inr r -> parse_uri_reference (target r) = None ->
  let '(s, evs) := http_do_session w (xs ++ x :: ys) in
  ended s = Threw SystemError /\
  dispatched s = dispatched (do_http_session [sock_id] w xs) /\ evs = [].
Proof.
  intros Hs Hd He Hx Hr. apply Forall_app in Hd as [Hd [Hdx _]%Forall_cons].
  assert (wired [sock_id] w) as Hw by (exists sock_id; split; [done|left]).
  assert (do_http_session [sock_id] w xs = loop [sock_id] w xs) as E.
  { unfold do_http_session in *. destruct (ended (loop [sock_id] w xs)) eqn:El; try done;
      try congruence; rewrite clear_ok in He; simpl in He; congruence. }
  rewrite E in *. destruct (loop_spec _ xs w Hw Hd) as (Hs' & _).
  pose proof (loop_app [sock_id] xs (x :: ys) w He) as HL.
  destruct (iterate_spec [sock_id] (worker_ (loop [sock_id] w xs)) x) as (_ & _ & HI);
    [by eapply wired_stream|done|].
  rewrite Hx, Hr in HI. destruct HI as (Hg & Ho & Hc).
  simpl in HL. rewrite Ho, Hg, Hc in HL.
  unfold http_do_session, do_http_session. rewrite HL. simpl. by rewrite app_nil_r.
Qed.

Lemma bad_target_ends_session_witness :
  let '(s, evs) := http_do_session (http_server_worker (0, 0, false))
                     ([get_ $"/a"] ++ get_ [] :: [get_ $"/b"]) in
  ended s = Threw SystemError /\
  dispatched s = dispatched (do_http_session [sock_id]
    (http_server_worker (0, 0, false)) [get_ $"/a"]) /\ evs = [].
Proof.
  eapply bad_target_ends_session; [reflexivity|by repeat constructor|reflexivity..].
Defined.

(** C5: a connection whose handshake fails has nothing dispatched, is reported and
    ends; on every other one an HTTPS worker reads the requests from the live TLS
    stream of that connection, with the isolation of C4 across connections; and it
    takes the next connection after each that ends. *)
Theorem https_sessions_isolated `{Http} res0 cs :
  Forall (fun c => Forall defined_handler (traffic c)) cs ->
  exists ds es, cs = ds ++ es /\
    Forall2 good_connection ds (https_serve (https_server_worker res0) cs) /\
    none_skipped (https_serve (https_server_worker res0) cs) es.
Proof. apply https_serve_good. Qed.

Lemma https_sessions_isolated_witness :
  let cs := [mk_connection 1 (Some $"alert") [get_ $"/b"];
             mk_connection 2 None [get_ $"/a"; get_ []]] in
  let ss := https_serve (https_server_worker (0, 0, false)) cs in
  exists ds es, cs = ds ++ es /\ Forall2 good_connection ds ss /\ none_skipped ss es.
Proof. apply https_sessions_isolated. repeat constructor; done. Defined.

End Worker.
