(* ===== verification/Http.v ===== *)
(** The interface of the header fields container of Boost.Http.

    http::fields is a library outside this repository: a class with the
    operations the sources call and the laws its documentation gives.  Names are
    compared without case. *)
From S2P Require Import Prelude.
From S2P Require Import Grammar.

Class Fields := {
  fields : Type;
  no_fields : fields;
  set_field : str -> str -> fields -> fields;          (* replaces all of the name *)
  erase_field : str -> fields -> fields;
  find_field : str -> fields -> option str;
  field_list : fields -> list (str * str);             (* what iteration shows *)
  plain : fields -> Prop                               (* no name occurs twice *)
}.

Definition same_name (a b : str) : bool := map lower a =s map lower b.

Class FieldsLaws `{Fields} : Prop := {
  find_none_law a : find_field a no_fields = None;
  find_set_law a n v f :
    find_field a (set_field n v f) = if same_name a n then Some v else find_field a f;
  find_erase_law a n f :
    find_field a (erase_field n f) = if same_name a n then None else find_field a f;
  plain_none : plain no_fields;
  plain_set n v f : plain f -> plain (set_field n v f);
  plain_erase n f : plain f -> plain (erase_field n f);
  plain_list f : plain f -> NoDup (map (map lower) (map fst (field_list f)));
  find_list_law a v f : plain f ->
    find_field a f = Some v <-> exists n, same_name a n = true /\ In (n, v) (field_list f)
}.

Lemma same_name_refl a : same_name a a = true.
Proof. by apply bool_decide_eq_true. Qed.

Lemma same_name_sym a b : same_name a b = same_name b a.
Proof. apply bool_decide_ext. split; congruence. Qed.

Lemma same_name_trans a b c : same_name a b = true -> same_name a c = same_name b c.
Proof. intros H%bool_decide_eq_true. unfold same_name. by rewrite H. Qed.

(** Setting each of a list of fields: the last value of a name wins. *)
Definition set_all `{Fields} (l : list (str * str)) (f : fields) : fields :=
  fold_left (fun f p => set_field (fst p) (snd p) f) l f.

Definition erase_all `{Fields} (l : list str) (f : fields) : fields :=
  fold_left (fun f n => erase_field n f) l f.

Section Laws.
Context `{FL : FieldsLaws}.

Lemma find_set_all a l : forall f,
  find_field a (set_all l f) =
  match List.find (fun p => same_name a (fst p)) (rev l) with
  | Some p => Some (snd p)
  | None => find_field a f
  end.
Proof.
  induction l as [|[n v] l IH] using rev_ind; intros f; [done|].
  unfold set_all. rewrite fold_left_app, rev_app_distr. simpl.
  rewrite find_set_law. destruct (same_name a n); [done|]. apply IH.
Qed.

Lemma find_erase_all a l : forall f,
  find_field a (erase_all l f) =
  if existsb (same_name a) l then None else find_field a f.
Proof.
  induction l as [|n l IH]; intros f; simpl; [done|]. rewrite IH, find_erase_law.
  destruct (same_name a n); simpl; [|done]. by destruct (existsb _ _).
Qed.

Lemma plain_set_all l : forall f, plain f -> plain (set_all l f).
Proof.
  induction l as [|p l IH]; intros f Hf; simpl; [done|]. by apply IH, plain_set.
Qed.

Lemma plain_erase_all l : forall f, plain f -> plain (erase_all l f).
Proof.
  induction l as [|p l IH]; intros f Hf; simpl; [done|]. by apply IH, plain_erase.
Qed.

(** Copying the fields of [g] over [f]. *)
Lemma find_copy a g f :
  plain g ->
  find_field a (set_all (field_list g) f) =
  match find_field a g with Some v => Some v | None => find_field a f end.
Proof.
  intros Hg. rewrite find_set_all.
  destruct (List.find _ (rev (field_list g))) as [[n v]|] eqn:E.
  - apply List.find_some in E as [Hin Hn]. apply in_rev in Hin. simpl in Hn.
    assert (find_field a g = Some v) as ->; [|done].
    apply find_list_law; [done|]. by exists n.
  - destruct (find_field a g) as [v|] eqn:Ef; [|done].
    apply find_list_law in Ef as (n & Hn & Hin); [|done]. exfalso.
    apply in_rev in Hin. eapply List.find_none in E; [|done]. simpl in E. congruence.
Qed.

End Laws.

(** ** An implementation, for the witnesses *)

#[export] Instance list_fields : Fields := {
  fields := list (str * str);
  no_fields := [];
  set_field n v f := List.filter (fun p => negb (same_name n (fst p))) f ++ [(n, v)];
  erase_field n f := List.filter (fun p => negb (same_name n (fst p))) f;
  find_field a f := snd <$> List.find (fun p => same_name a (fst p)) f;
  field_list f := f;
  plain f := NoDup (map (map lower) (map fst f))
}.

Lemma find_filter_other a n (f : list (str * str)) :
  same_name a n = false ->
  List.find (fun p => same_name a (fst p)) (List.filter (fun p => negb (same_name n (fst p))) f) =
  List.find (fun p => same_name a (fst p)) f.
Proof.
  intros Ha. induction f as [|[m v] f IH]; [done|]. simpl.
  destruct (same_name n m) eqn:En; simpl.
  - rewrite same_name_sym in En. rewrite (same_name_sym a m), (same_name_trans m n a En).
    by rewrite (same_name_sym n a), Ha.
  - by rewrite IH.
Qed.

Lemma find_filter_same a n (f : list (str * str)) :
  same_name a n = true ->
  List.find (fun p => same_name a (fst p)) (List.filter (fun p => negb (same_name n (fst p))) f) = None.
Proof.
  intros Ha. induction f as [|[m v] f IH]; [done|]. simpl.
  destruct (same_name n m) eqn:En; simpl; [done|].
  by rewrite (same_name_trans a n m Ha), En.
Qed.

Lemma find_snoc a n v (f : list (str * str)) :
  List.find (fun p => same_name a (fst p)) (f ++ [(n, v)]) =
  match List.find (fun p => same_name a (fst p)) f with
  | Some p => Some p
  | None => if same_name a n then Some (n, v) else None
  end.
Proof. induction f as [|[m w] f IH]; [done|]. simpl. by destruct (same_name a m). Qed.

Lemma filter_names_nodup n (f : list (str * str)) :
  NoDup (map (map lower) (map fst f)) ->
  NoDup (map (map lower) (map fst (List.filter (fun p => negb (same_name n (fst p))) f))) /\
  map lower n ∉ map (map lower) (map fst (List.filter (fun p => negb (same_name n (fst p))) f)).
Proof.
  intros Hf. induction f as [|[m v] f IH]; simpl in *; [split; [done|apply not_elem_of_nil]|].
  apply NoDup_cons in Hf as [Hm Hf]. destruct (IH Hf) as [H1 H2].
  destruct (same_name n m) eqn:En; simpl; [done|]. split.
  - apply NoDup_cons. split; [|done]. intros Hin. apply Hm.
    rewrite list_elem_of_In, in_map_iff in Hin. destruct Hin as (x & Hx & Hin).
    rewrite list_elem_of_In, in_map_iff. exists x. split; [done|].
    rewrite in_map_iff in *. destruct Hin as (p & Hp & Hin). exists p.
    split; [done|]. by apply filter_In in Hin as [? _].
  - apply not_elem_of_cons. split; [|done].
    by apply bool_decide_eq_false in En.
Qed.

#[export] Instance list_fields_laws : @FieldsLaws list_fields.
Proof.
  split; simpl.
  - done.
  - intros a n v f. rewrite find_snoc. destruct (same_name a n) eqn:E.
    + by rewrite find_filter_same.
    + rewrite find_filter_other by done. by destruct (List.find _ f).
  - intros a n f. destruct (same_name a n) eqn:E.
    + by rewrite find_filter_same.
    + by rewrite find_filter_other.
  - apply NoDup_nil_2.
  - intros n v f Hf. rewrite !map_app. simpl. apply NoDup_app.
    destruct (filter_names_nodup n f Hf) as [H1 H2].
    split; [done|]. split; [|apply NoDup_singleton].
    by intros x Hx ->%list_elem_of_singleton.
  - intros n f Hf. by apply filter_names_nodup.
  - done.
  - intros a v f Hf. split.
    + destruct (List.find _ f) as [[n w]|] eqn:E; simpl; [|done]. intros [= ->].
      apply List.find_some in E as [Hin Hn]. by exists n.
    + intros (n & Hn & Hin). induction f as [|[m w] f IH]; [done|]. simpl.
      apply NoDup_cons in Hf as [Hm Hf]. destruct Hin as [HE|Hin].
      * simplify_eq. by rewrite Hn.
      * destruct (same_name a m) eqn:Em; [|by apply IH].
        exfalso. apply Hm. apply list_elem_of_In, in_map_iff. exists n.
        apply bool_decide_eq_true in Hn. apply bool_decide_eq_true in Em.
        split; [cbn [fst]; by rewrite <- Hn|].
        apply in_map_iff. by exists (n, v).
Qed.
