(* ===== verification/Cookie.v ===== *)
(** Cookies and the cookie jar of burl (example/client/burl/cookie.cpp).

    Time points are nanoseconds since the epoch.  std::get_time and mktime
    depend on the time zone of the machine: the class [Calendar] has the one
    function made of them.  A URL is what url_view's observers show of it. *)
From S2P Require Import Prelude.
From S2P Require Import Grammar.

Module Cookie.

(** ** Data *)

Inductive same_site_t := strict | lax | none.

Record cookie := mk_cookie {
  name : str;
  value : option str;
  expires : option Z;
  domain : option str;
  path : option str;
  same_site : option same_site_t;
  partitioned : bool;
  secure : bool;
  http_only : bool;
  tailmatch : bool
}.

Definition no_cookie : cookie :=
  mk_cookie [] None None None None None false false false false.

#[export] Instance same_site_eq_dec : EqDecision same_site_t.
Proof. solve_decision. Defined.
#[export] Instance cookie_eq_dec : EqDecision cookie.
Proof. solve_decision. Defined.

Definition set_expires (c : cookie) (e : option Z) : cookie :=
  mk_cookie (name c) (value c) e (domain c) (path c) (same_site c)
    (partitioned c) (secure c) (http_only c) (tailmatch c).
Definition set_domain (c : cookie) (d : str) (tail : bool) : cookie :=
  mk_cookie (name c) (value c) (expires c) (Some d) (path c) (same_site c)
    (partitioned c) (secure c) (http_only c) tail.
Definition set_path (c : cookie) (p : str) : cookie :=
  mk_cookie (name c) (value c) (expires c) (domain c) (Some p) (same_site c)
    (partitioned c) (secure c) (http_only c) (tailmatch c).
Definition set_same_site (c : cookie) (s : same_site_t) : cookie :=
  mk_cookie (name c) (value c) (expires c) (domain c) (path c) (Some s)
    (partitioned c) (secure c) (http_only c) (tailmatch c).
Definition set_flags (c : cookie) (p s h : bool) : cookie :=
  mk_cookie (name c) (value c) (expires c) (domain c) (path c) (same_site c)
    p s h (tailmatch c).

(** urls::url_view *)
Record url_view := mk_url {
  host : str;
  is_https : bool;                 (* scheme_id() == scheme::https *)
  encoded_segments : list str;
  encoded_path : str
}.

Class Calendar := {
  (* get_time with the format, then mktime: seconds since the epoch *)
  local_time : str -> str -> Z
}.

(** How parse_cookie fails: with an error code, or by an exception. *)
Inductive failure := Code (e : error) | Throw (e : exn).

(** ** Characters *)

Definition name_chars (c : ascii) : bool :=
  (32 <? schar c) && negb (c =c "127") &&
  negb (c =c "(") && negb (c =c ")") && negb (c =c "<") && negb (c =c ">") &&
  negb (c =c "@") && negb (c =c ",") && negb (c =c ";") && negb (c =c ":") &&
  negb (c =c "\") && negb (c =c "034") && negb (c =c "/") && negb (c =c "[") &&
  negb (c =c "]") && negb (c =c "?") && negb (c =c "=") && negb (c =c "{") &&
  negb (c =c "}").

Definition value_chars (c : ascii) : bool :=
  (schar c =? 33) || between 35 43 c || between 45 58 c || between 60 91 c ||
  between 93 126 c.

Section Parsers.
Context `{Grammar}.

Definition attr_chars : ascii -> bool :=
  cs_minus all_chars (lut_chars (chr 31 :: chr 127 :: $";")).

Definition field_chars : ascii -> bool := cs_minus all_chars (lut_chars [chr 9]).

(** ** Matching *)

Definition domain_match (r_domain c_domain : str) (tail : bool) : comp exn bool :=
  if negb tail then Ok (r_domain =s c_domain)
  else
    let c_domain := if starts_with $"." c_domain then drop 1 c_domain else c_domain in
    if ends_with c_domain r_domain then
      if (length r_domain =? length c_domain)%nat then Ok true
      else match r_domain !! (length r_domain - length c_domain - 1)%nat with
           | Some c => Ok (c =c ".")
           | None => UB
           end
    else Ok false.

Definition path_match (r_path c_path : str) : comp exn bool :=
  match r_path with
  | [] => Ok true
  | _ =>
      if starts_with c_path r_path then
        if (length r_path =? length c_path)%nat then Ok true
        else if ends_with $"/" c_path then Ok true
        else match r_path !! (length r_path - length c_path)%nat with
             | Some c => Ok (c =c "/")
             | None => UB
             end
      else Ok false
  end.

(** ** Parsing *)

Definition second : Z := 1000000000.

(** system_clock::from_time_t *)
Definition from_time_t {E} (t : Z) : comp E Z :=
  if fits (t * second) then Ok (t * second) else UB.

Definition parse_date `{Calendar} {E} (sv : str) : comp E Z :=
  from_time_t (local_time (if contains "-" sv then $"%a, %d-%b-%Y %H:%M:%S GMT"
                           else $"%a, %d %b %Y %H:%M:%S GMT") sv).

Definition bool_rule : rule (unit + unit) :=
  variant_rule (aor (literal_rule $"FALSE") (aone (literal_rule $"TRUE"))).

Definition tab : rule str := delim_rule (one (chr 9)).

Definition netscape_parser : rule
    (option unit * (str * ((unit + unit) * (str * ((unit + unit) * (Z * (str * str))))))) :=
  tuple_rule
    (rcons (optional_rule (literal_rule $"#HttpOnly_"))
    (rcons (token_rule field_chars) (rskip tab
    (rcons bool_rule (rskip tab
    (rcons (token_rule field_chars) (rskip tab
    (rcons bool_rule (rskip tab
    (rcons (unsigned_rule 32) (rskip tab
    (rcons (token_rule field_chars) (rskip tab
    (rone (token_rule field_chars))))))))))))))).

Definition epoch_to_expiry {E} (epoch : Z) : comp E (option Z) :=
  if epoch =? 0 then Ok None else t ← from_time_t epoch; Ok (Some t).

Definition index {A B} (v : A + B) : bool := match v with inl _ => false | inr _ => true end.

Definition parse_netscape_cookie (sv : str) : comp error cookie :=
  match parse netscape_parser sv with
  | Ok (h, (d, (t, (p, (s, (e, (n, v))))))) =>
      e ← epoch_to_expiry e;
      Ok (mk_cookie n (Some v) e (Some d) (Some p) None false
            (index s) (bool_decide (is_Some h)) (index t))
  | Err e => Err e
  | UB => UB
  end.

Definition attr_rule : rule (str * option str) :=
  tuple_rule
    (rskip (delim_rule (one ";"))
    (rskip (optional_rule (delim_rule (one " ")))
    (rcons (token_rule (cs_minus attr_chars (lut_chars $"=")))
    (rskip (optional_rule (delim_rule (one "=")))
    (rone (optional_rule (token_rule attr_chars))))))).

Definition cookie_parser : rule (str * (option str * list (str * option str))) :=
  tuple_rule
    (rcons (token_rule name_chars)
    (rskip (delim_rule (one "="))
    (rcons (optional_rule (token_rule value_chars))
    (rone (range_rule attr_rule))))).

Definition is_space (c : ascii) : bool := between 9 13 c || (c =c " ").

(** std::stoll (base 10): leading white space, a sign, digits; what follows is
    ignored. *)
Definition stoll (s : str) : comp exn Z :=
  let s := snd (span is_space s) in
  let '(neg, s) := match s with
                   | c :: t => if c =c "-" then (true, t)
                               else if c =c "+" then (false, t) else (false, s)
                   | [] => (false, s)
                   end in
  match fst (span is_digit s) with
  | [] => Err (InvalidArgument $"stoll")
  | d =>
      let n := if (neg : bool) then - undec d else undec d in
      if (- 2 ^ 63 <=? n) && (n <? 2 ^ 63) then Ok n else Err OutOfRange
  end.

(** system_clock::now() + seconds{n}: signed 64-bit arithmetic in nanoseconds. *)
Definition after_seconds (now n : Z) : comp exn Z :=
  let d := n * second in
  let t := now + d in
  if fits d && fits t then Ok t else UB.

Definition throws {A} (m : comp exn A) : comp failure A :=
  match m with
  | Ok a => Ok a
  | Err e => Err (Throw e)
  | UB => UB
  end.

(** The body of the loop over the attributes. *)
Definition apply_attr `{Calendar} (now : Z) (rs : cookie) (attr : str * option str)
    : comp failure cookie :=
  let '(nm, v) := attr in
  if ci_is_equal nm $"Expires" then
    match v with
    | None => Err (Code invalid)
    | Some v => t ← parse_date v; Ok (set_expires rs (Some t))
    end
  else if ci_is_equal nm $"Max-Age" then
    match v with
    | None => Err (Code invalid)
    | Some v =>
        n ← throws (stoll v);
        t ← throws (after_seconds now n);
        Ok (set_expires rs (Some t))
    end
  else if ci_is_equal nm $"Domain" then
    match v with
    | None => Err (Code invalid)
    | Some v => Ok (set_domain rs v (tailmatch rs))
    end
  else if ci_is_equal nm $"Path" then
    match v with
    | None => Err (Code invalid)
    | Some v => Ok (set_path rs v)
    end
  else if ci_is_equal nm $"SameSite" then
    let v := default [] v in
    if ci_is_equal v $"Strict" then Ok (set_same_site rs strict)
    else if ci_is_equal v $"Lax" then Ok (set_same_site rs lax)
    else if ci_is_equal v $"None" then Ok (set_same_site rs none)
    else Err (Code invalid)
  else if ci_is_equal nm $"Partitioned" then
    Ok (set_flags rs true (secure rs) (http_only rs))
  else if ci_is_equal nm $"Secure" then
    Ok (set_flags rs (partitioned rs) true (http_only rs))
  else if ci_is_equal nm $"HttpOnly" then
    Ok (set_flags rs (partitioned rs) (secure rs) true)
  else Ok rs.

Fixpoint apply_attrs `{Calendar} (now : Z) (rs : cookie) (attrs : list (str * option str))
    : comp failure cookie :=
  match attrs with
  | [] => Ok rs
  | a :: attrs => rs ← apply_attr now rs a; apply_attrs now rs attrs
  end.

(** The prefix requirements. *)
Definition check_prefix (rs : cookie) : comp failure cookie :=
  if starts_with $"__Secure-" (name rs) && negb (secure rs) then Err (Code invalid)
  else if starts_with $"__Host-" (name rs) &&
          (negb (secure rs) || negb (path rs =s Some $"/") ||
           bool_decide (is_Some (domain rs)))
  then Err (Code invalid)
  else Ok rs.

Definition parse_cookie `{Calendar} (now : Z) (sv : str) : comp failure cookie :=
  match parse cookie_parser sv with
  | Err e => Err (Code e)
  | UB => UB
  | Ok (n, (v, attrs)) =>
      rs ← apply_attrs now
             (mk_cookie n v None None None None false false false false) attrs;
      check_prefix rs
  end.

(** ** The jar *)

Abbreviation cookie_jar := (list cookie).

(** The path of a cookie without a Path attribute: the segments of the URL but
    the last. *)
Definition default_path (url : url_view) : str :=
  let p := concat (map (fun s => "/"%char :: s) (removelast (encoded_segments url))) in
  match p with [] => $"/" | _ => p end.

Definition same_cookie (c o : cookie) : bool :=
  (name c =s name o) && (path c =s path o) && (domain c =s domain o).

(** cookie_jar::add.  [psl] is psl_is_cookie_domain_acceptable where
    BURL_HAS_LIBPSL is defined. *)
Definition add (psl : option (str -> str -> bool)) (now : Z) (url : url_view)
    (c : cookie) (jar : cookie_jar) : cookie_jar :=
  let rejected := match domain c, psl with
                  | Some d, Some acceptable =>
                      acceptable (map to_lower (host url)) (map to_lower d)
                  | _, _ => false
                  end in
  if rejected then jar
  else
    let c := match domain c with
             | Some d => set_domain c d true
             | None => set_domain c (host url) (tailmatch c)
             end in
    let c := match path c with
             | Some _ => c
             | None => set_path c (default_path url)
             end in
    if secure c && negb (is_https url) then jar
    else
      let jar := List.filter (fun o => negb (same_cookie c o)) jar in
      match expires c with
      | Some e => if e <? now then jar else jar ++ [c]
      | None => jar ++ [c]
      end.

(** optional::value() on a member that may be absent. *)
Definition value_of {A} (o : option A) : comp exn A :=
  match o with Some a => Ok a | None => UB end.

(** Whether make_field sends a cookie, in the order the code tests. *)
Definition sent (url : url_view) (c : cookie) : comp exn bool :=
  d ← value_of (domain c);
  md ← domain_match (host url) d (tailmatch c);
  if negb md then Ok false
  else
    p ← value_of (path c);
    mp ← path_match (encoded_path url) p;
    if negb mp then Ok false
    else Ok (if secure c then is_https url else true).

Definition field_of (c : cookie) : str :=
  name c ++ $"=" ++ default [] (value c) ++ $"; ".

(** cookie_jar::make_field: the field, and the jar without the expired. *)
Fixpoint make_field (now : Z) (url : url_view) (jar : cookie_jar)
    : comp exn (str * cookie_jar) :=
  match jar with
  | [] => Ok ([], [])
  | c :: jar =>
      if match expires c with Some e => e <=? now | None => false end
      then make_field now url jar
      else
        b ← sent url c;
        '(rs, jar) ← make_field now url jar;
        Ok ((if (b : bool) then field_of c else []) ++ rs, c :: jar)
  end.

Definition clear_session_cookies (jar : cookie_jar) : cookie_jar :=
  List.filter (fun c => bool_decide (is_Some (expires c))) jar.

(** ** The cookie file *)

Definition show_bool (b : bool) : str := if b then $"TRUE" else $"FALSE".

(** One line of operator<<. *)
Definition write_cookie (c : cookie) : comp exn str :=
  d ← value_of (domain c);
  p ← value_of (path c);
  let secs := match expires c with
              | Some e => show_Z (Z.quot e second)
              | None => $"0"
              end in
  Ok ((if http_only c then $"#HttpOnly_" else []) ++ d ++ [chr 9] ++
      show_bool (tailmatch c) ++ [chr 9] ++ p ++ [chr 9] ++
      show_bool (secure c) ++ [chr 9] ++ secs ++ [chr 9] ++ name c ++ [chr 9] ++
      default [] (value c) ++ [chr 10]).

Fixpoint write_cookies (jar : cookie_jar) : comp exn str :=
  match jar with
  | [] => Ok []
  | c :: jar => l ← write_cookie c; ls ← write_cookies jar; Ok (l ++ ls)
  end.

(** operator<<(std::ostream&, const cookie_jar&) *)
Definition write (jar : cookie_jar) : comp exn str :=
  ls ← write_cookies jar;
  Ok ($"# Netscape HTTP Cookie File" ++ [chr 10; chr 10] ++ ls).

(** std::getline on what is left of a stream, until it is at its end. *)
Fixpoint lines_from (pend : str) (s : str) : list str :=
  match s with
  | [] => match pend with [] => [] | _ => [pend] end
  | c :: s => if c =c "010" then pend :: lines_from [] s else lines_from (pend ++ [c]) s
  end.
Definition lines (s : str) : list str := lines_from [] s.

Definition skipped (line : str) : bool :=
  match line with
  | [] => true
  | _ => starts_with $"#" line && negb (starts_with $"#HttpOnly_" line)
  end.

(** operator>>: the jar so far, and the exception of result::value(). *)
Fixpoint read_lines (ls : list str) (jar : cookie_jar) : cookie_jar * comp exn unit :=
  match ls with
  | [] => (jar, Ok tt)
  | l :: ls =>
      if skipped l then read_lines ls jar
      else match parse_netscape_cookie l with
           | Ok c => read_lines ls (jar ++ [c])
           | Err _ => (jar, Err SystemError)
           | UB => (jar, UB)
           end
  end.

Definition read (s : str) (jar : cookie_jar) : cookie_jar * comp exn unit :=
  read_lines (lines s) jar.

End Parsers.

(** ** The parsers as functions *)

Section Parsing.
Context `{GL : GrammarLaws}.

Definition field_doc_chars (c : ascii) : bool := negb (c =c "009").
Definition attr_doc_chars (c : ascii) : bool :=
  negb ((c =c "031") || (c =c "127") || (c =c ";")).
Definition attr_name_doc_chars (c : ascii) : bool :=
  attr_doc_chars c && negb (c =c "=").

Lemma field_chars_doc c : field_chars c = field_doc_chars c.
Proof.
  unfold field_chars, cs_minus. rewrite all_chars_law, lut_chars_law. simpl.
  by rewrite orb_false_r.
Qed.

Lemma attr_chars_doc c : attr_chars c = attr_doc_chars c.
Proof.
  unfold attr_chars, cs_minus. rewrite all_chars_law, lut_chars_law. simpl.
  by rewrite orb_false_r, orb_assoc.
Qed.

Lemma attr_name_chars_doc c :
  cs_minus attr_chars (lut_chars $"=") c = attr_name_doc_chars c.
Proof.
  unfold cs_minus. rewrite attr_chars_doc, lut_chars_law. simpl. by rewrite orb_false_r.
Qed.

#[local] Hint Resolve field_chars_doc attr_chars_doc attr_name_chars_doc : grammar.

Definition bool_doc : rule (unit + unit) :=
  variant_doc (aor (literal_doc $"FALSE") (aone (literal_doc $"TRUE"))).
Definition tab_doc : rule str := delim_doc (one (chr 9)).
Definition field_doc : rule str := token_doc field_doc_chars.

Lemma bool_agree : bool_rule ≈p bool_doc.
Proof. unfold bool_rule, bool_doc. auto 10 with grammar. Qed.
Lemma tab_agree : tab ≈p tab_doc.
Proof. by apply delim_agree. Qed.
Lemma field_agree : token_rule field_chars ≈p field_doc.
Proof. apply token_agree, field_chars_doc. Qed.

#[local] Hint Resolve bool_agree tab_agree field_agree : grammar.

Definition netscape_doc :=
  tuple_doc
    (rcons (optional_doc (literal_doc $"#HttpOnly_"))
    (rcons field_doc (rskip tab_doc
    (rcons bool_doc (rskip tab_doc
    (rcons field_doc (rskip tab_doc
    (rcons bool_doc (rskip tab_doc
    (rcons (unsigned_doc 32) (rskip tab_doc
    (rcons field_doc (rskip tab_doc
    (rone field_doc)))))))))))))).

Lemma netscape_agree : netscape_parser ≈p netscape_doc.
Proof. unfold netscape_parser, netscape_doc. auto 40 with grammar. Qed.

Definition attr_doc : rule (str * option str) :=
  tuple_doc
    (rskip (delim_doc (one ";"))
    (rskip (optional_doc (delim_doc (one " ")))
    (rcons (token_doc attr_name_doc_chars)
    (rskip (optional_doc (delim_doc (one "=")))
    (rone (optional_doc (token_doc attr_doc_chars))))))).

Lemma attr_agree : attr_rule ≈p attr_doc.
Proof. unfold attr_rule, attr_doc. auto 20 with grammar. Qed.

Lemma attr_repeatable : repeatable attr_doc.
Proof. unfold attr_doc. auto 20 with grammar. Qed.

#[local] Hint Resolve attr_agree attr_repeatable : grammar.

Definition cookie_doc :=
  tuple_doc
    (rcons (token_doc name_chars)
    (rskip (delim_doc (one "="))
    (rcons (optional_doc (token_doc value_chars))
    (rone (range_doc attr_doc))))).

Lemma cookie_agree : cookie_parser ≈p cookie_doc.
Proof. unfold cookie_parser, cookie_doc. auto 20 with grammar. Qed.

End Parsing.

(** ** The cookie file *)

Definition text_field (s : str) : bool := forallb (fun c => negb (c =c "009") && negb (c =c "010")) s.

(** What a cookie of the jar has in its text fields. *)
Record storable (c : cookie) : Prop := {
  st_domain : exists d, domain c = Some d /\ d <> [] /\ text_field d = true /\
                starts_with $"#" d = false;
  st_path : exists p, path c = Some p /\ p <> [] /\ text_field p = true;
  st_name : name c <> [] /\ text_field (name c) = true;
  st_value : text_field (default [] (value c)) = true
}.

Definition epoch_seconds (c : cookie) : Z :=
  match expires c with Some e => Z.quot e second | None => 0 end.

(** The cookies operator>> can read back. *)
Definition reloadable (c : cookie) : bool :=
  bool_decide (default [] (value c) <> []) &&
  (0 <=? epoch_seconds c) && (epoch_seconds c <? 2 ^ 32).

(** What the file keeps of a cookie. *)
Definition saved (c : cookie) : cookie :=
  mk_cookie (name c) (Some (default [] (value c)))
    (if epoch_seconds c =? 0 then None else Some (epoch_seconds c * second))
    (domain c) (path c) None false (secure c) (http_only c) (tailmatch c).

Lemma text_field_fields s : text_field s = true -> forallb field_doc_chars s = true.
Proof.
  unfold text_field, field_doc_chars. rewrite !forallb_forall.
  intros H c Hc. specialize (H c Hc). by apply andb_true_iff in H as [? _].
Qed.

Lemma text_field_no_newline s : text_field s = true -> contains "010" s = false.
Proof.
  intros H. apply not_true_iff_false. rewrite contains_spec. intros Hin.
  unfold text_field in H. rewrite forallb_forall in H. by apply H in Hin.
Qed.

Lemma field_doc_app a t :
  a <> [] -> text_field a = true -> field_doc (a ++ chr 9 :: t) = Ok (a, chr 9 :: t).
Proof. intros Ha Hf%text_field_fields. by apply token_doc_app. Qed.

Lemma field_doc_last a :
  text_field a = true ->
  field_doc a = if bool_decide (a <> []) then Ok (a, []) else Err (mismatch, a).
Proof.
  intros Hf%text_field_fields. unfold field_doc, token_doc.
  rewrite span_whole by done. by destruct a.
Qed.

Lemma tab_doc_cons t : tab_doc (chr 9 :: t) = Ok ([chr 9], t).
Proof. done. Qed.

Lemma bool_doc_app b t :
  bool_doc (show_bool b ++ chr 9 :: t) = Ok (if b then inr tt else inl tt, chr 9 :: t).
Proof. by destruct b. Qed.

Lemma unsigned_doc_show n t :
  unsigned_doc 32 (show_Z n ++ chr 9 :: t) =
  if (0 <=? n) && (n <? 2 ^ 32) then Ok (n, chr 9 :: t)
  else Err (invalid, show_Z n ++ chr 9 :: t).
Proof.
  unfold show_Z. destruct (Z.ltb_spec n 0).
  - rewrite (proj2 (Z.leb_gt 0 n)) by done. done.
  - rewrite (proj2 (Z.leb_le 0 n)) by done. simpl. unfold unsigned_doc.
    rewrite span_eq by (done || by apply dec_digits).
    rewrite dec_canonical, undec_dec by done. by destruct (n <? 2 ^ 32).
Qed.

(** A cookie as one line of the file. *)
Definition line_of (c : cookie) : str :=
  (if http_only c then $"#HttpOnly_" else []) ++ default [] (domain c) ++ chr 9 ::
  show_bool (tailmatch c) ++ chr 9 :: default [] (path c) ++ chr 9 ::
  show_bool (secure c) ++ chr 9 :: show_Z (epoch_seconds c) ++ chr 9 ::
  name c ++ chr 9 :: default [] (value c).

Lemma write_cookie_line c :
  storable c -> write_cookie c = Ok (line_of c ++ [chr 10]).
Proof.
  intros [(d & Hd & _) (p & Hp & _) _ _]. unfold write_cookie, line_of, epoch_seconds.
  rewrite Hd, Hp. simpl. f_equal.
  repeat (rewrite <- app_assoc; simpl). by destruct (expires c).
Qed.

Lemma starts_with_mono p q s :
  starts_with p (q ++ s) = true -> (length p <= length q)%nat -> starts_with p q = true.
Proof.
  revert q. induction p as [|a p IH]; intros [|b q]; simpl; intros H Hl; try done; [lia|].
  apply andb_true_iff in H as [-> H]. simpl. apply IH; [done|lia].
Qed.

Lemma http_only_doc c t :
  domain c <> None -> starts_with $"#" (default [] (domain c)) = false ->
  default [] (domain c) <> [] ->
  optional_doc (literal_doc $"#HttpOnly_")
    ((if http_only c then $"#HttpOnly_" else []) ++ default [] (domain c) ++ t) =
  Ok (if http_only c then Some tt else None, default [] (domain c) ++ t).
Proof.
  intros _ Hd Hne. destruct (http_only c); [done|]. simpl.
  destruct (default [] (domain c)) as [|a d]; [done|]. simpl in *.
  unfold optional_doc, literal_doc. simpl. rewrite andb_true_r in Hd. by rewrite Hd.
Qed.

Lemma netscape_doc_line c :
  storable c ->
  netscape_doc (line_of c) ≈
  if reloadable c then
    Ok ((if http_only c then Some tt else None,
        (default [] (domain c), (if tailmatch c then inr tt else inl tt,
        (default [] (path c), (if secure c then inr tt else inl tt,
        (epoch_seconds c, (name c, default [] (value c)))))))), [])
  else Err (mismatch, []).
Proof.
  intros [(d & Hd & Hd0 & Hdt & Hds) (p & Hp & Hp0 & Hpt) [Hn0 Hnt] Hv].
  unfold netscape_doc, line_of. cbn [tuple_doc].
  rewrite http_only_doc by (rewrite Hd; done). rewrite Hd, Hp. simpl default. cbn [mbind comp_bind].
  rewrite field_doc_app by done. cbn [mbind comp_bind].
  rewrite tab_doc_cons. cbn [mbind comp_bind].
  rewrite bool_doc_app. cbn [mbind comp_bind]. rewrite tab_doc_cons. cbn [mbind comp_bind].
  rewrite field_doc_app by done. cbn [mbind comp_bind]. rewrite tab_doc_cons. cbn [mbind comp_bind].
  rewrite bool_doc_app. cbn [mbind comp_bind]. rewrite tab_doc_cons. cbn [mbind comp_bind].
  rewrite unsigned_doc_show. unfold reloadable. rewrite <- andb_assoc.
  destruct ((0 <=? epoch_seconds c) && (epoch_seconds c <? 2 ^ 32));
    [|rewrite andb_false_r; done].
  rewrite andb_true_r. cbn [mbind comp_bind]. rewrite tab_doc_cons. cbn [mbind comp_bind].
  rewrite field_doc_app by done. cbn [mbind comp_bind]. rewrite tab_doc_cons. cbn [mbind comp_bind].
  rewrite field_doc_last by done. by case_bool_decide.
Qed.

(** The seconds of a cookie file never overflow. *)
Lemma epoch_to_expiry_small {E} c :
  reloadable c = true ->
  epoch_to_expiry (E := E) (epoch_seconds c) =
  Ok (if epoch_seconds c =? 0 then None else Some (epoch_seconds c * second)).
Proof.
  intros [[_ H0%Z.leb_le]%andb_true_iff H1%Z.ltb_lt]%andb_true_iff.
  unfold epoch_to_expiry, from_time_t, fits. destruct (epoch_seconds c =? 0); [done|].
  unfold second. rewrite (proj2 (Z.leb_le _ _)), (proj2 (Z.ltb_lt _ _)) by lia. done.
Qed.

Lemma parse_netscape_line `{GrammarLaws} c :
  storable c ->
  parse_netscape_cookie (line_of c) ≈r if reloadable c then Ok (saved c) else Err mismatch.
Proof.
  intros Hc. unfold parse_netscape_cookie.
  pose proof (parse_agree _ _ (line_of c) netscape_agree) as HA.
  pose proof (netscape_doc_line c Hc) as HD. destruct Hc as [(d & Hd & _) (p & Hp & _) _ _].
  unfold parse_doc in HA.
  destruct (netscape_doc (line_of c)) as [[v t]|[e u]|], (reloadable c) eqn:ER; try done; simpl in HD.
  - injection HD as -> ->. destruct (parse _ _) as [a| |]; try done. simpl in HA. subst a. cbn beta iota.
    rewrite Hd, Hp. rewrite epoch_to_expiry_small by done. unfold saved. rewrite Hd, Hp.
    by destruct (http_only c), (tailmatch c), (secure c).
  - by destruct (parse _ _).
Qed.

Lemma contains_cons a c s : contains a (c :: s) = Ascii.eqb a c || contains a s.
Proof. done. Qed.

Lemma lines_from_app s t : forall pend,
  contains "010" s = false -> lines_from pend (s ++ t) = lines_from (pend ++ s) t.
Proof.
  induction s as [|c s IH]; intros pend Hs; [by rewrite app_nil_r|].
  rewrite contains_cons, Ascii.eqb_sym in Hs. apply orb_false_iff in Hs as [Hc Hs].
  cbn [app lines_from]. rewrite Hc, IH by done. by rewrite <- app_assoc.
Qed.

Lemma lines_cons l s : contains "010" l = false -> lines (l ++ chr 10 :: s) = l :: lines s.
Proof. intros Hl. unfold lines. by rewrite lines_from_app. Qed.

Lemma show_bool_line b : contains "010" (show_bool b) = false.
Proof. by destruct b. Qed.

Lemma show_Z_line n : contains "010" (show_Z n) = false.
Proof.
  assert (forall m, 0 <= m -> contains "010" (dec m) = false) as Hdec.
  { intros m Hm. apply not_true_iff_false. rewrite contains_spec. intros Hin.
    pose proof (dec_digits m Hm) as HD. rewrite forallb_forall in HD. by apply HD in Hin. }
  unfold show_Z. destruct (Z.ltb_spec n 0); [simpl|]; apply Hdec; lia.
Qed.

Lemma line_of_no_newline c : storable c -> contains "010" (line_of c) = false.
Proof.
  intros [(d & Hd & _ & Hdt & _) (p & Hp & _ & Hpt) [_ Hnt] Hv]. unfold line_of.
  rewrite Hd, Hp. simpl default.
  repeat first [rewrite contains_app | rewrite contains_cons].
  replace (contains "010" (if http_only c then $"#HttpOnly_" else [])) with false
    by by destruct (http_only c).
  rewrite !show_bool_line, show_Z_line.
  by rewrite (text_field_no_newline d), (text_field_no_newline p),
    (text_field_no_newline (name c)), (text_field_no_newline (default [] (value c))).
Qed.

Lemma line_of_not_skipped c : storable c -> skipped (line_of c) = false.
Proof.
  intros [(d & Hd & Hd0 & _ & Hds) _ _ _]. unfold line_of. rewrite Hd. simpl default.
  destruct (http_only c); [done|]. destruct d as [|a d]; [done|].
  unfold skipped. cbn [app]. simpl in *. rewrite andb_true_r in Hds. by rewrite Hds.
Qed.

Lemma write_cookies_lines jar :
  Forall storable jar ->
  write_cookies jar = Ok (concat (map (fun c => line_of c ++ [chr 10]) jar)).
Proof.
  induction 1 as [|c jar Hc _ IH]; [done|]. simpl.
  rewrite write_cookie_line by done. simpl. by rewrite IH.
Qed.

Lemma lines_of_jar jar :
  Forall storable jar ->
  lines (concat (map (fun c => line_of c ++ [chr 10]) jar)) = map line_of jar.
Proof.
  induction 1 as [|c jar Hc _ IH]; [done|]. cbn [map concat].
  rewrite <- app_assoc. cbn [app].
  by rewrite lines_cons, IH by by apply line_of_no_newline.
Qed.

(** The cookies before the first one that cannot be read back. *)
Fixpoint loadable (jar : list cookie) : list cookie :=
  match jar with
  | [] => []
  | c :: jar => if reloadable c then c :: loadable jar else []
  end.

Lemma read_lines_jar `{GrammarLaws} jar : forall jar0,
  Forall storable jar ->
  read_lines (map line_of jar) jar0 =
    (jar0 ++ map saved (loadable jar),
     if forallb reloadable jar then Ok tt else Err SystemError).
Proof.
  induction jar as [|c jar IH]; intros jar0 HF; simpl; [by rewrite app_nil_r|].
  apply Forall_cons in HF as [Hc HF].
  rewrite line_of_not_skipped by done.
  pose proof (parse_netscape_line c Hc) as HP.
  destruct (parse_netscape_cookie (line_of c)) as [c'| |], (reloadable c);
    simpl in HP; try done; [subst c'|by rewrite app_nil_r].
  rewrite IH by done. simpl. by rewrite <- app_assoc.
Qed.

Lemma read_write `{GrammarLaws} jar jar0 :
  Forall storable jar ->
  exists s, write jar = Ok s /\
    read s jar0 = (jar0 ++ map saved (loadable jar),
                   if forallb reloadable jar then Ok tt else Err SystemError).
Proof.
  intros HF. unfold write. rewrite write_cookies_lines by done. cbn [mbind comp_bind].
  eexists. split; [done|]. unfold read.
  replace ($"# Netscape HTTP Cookie File" ++ [chr 10; chr 10] ++
      concat (map (fun c => line_of c ++ [chr 10]) jar))
    with ($"# Netscape HTTP Cookie File" ++ chr 10 ::
      ([] ++ chr 10 :: concat (map (fun c => line_of c ++ [chr 10]) jar))) by done.
  rewrite !lines_cons by done. rewrite lines_of_jar by done. cbn [read_lines skipped].
  by apply read_lines_jar.
Qed.

(** ** Set-Cookie *)

Definition print_attr (a : str * option str) : str :=
  $"; " ++ fst a ++ match snd a with Some v => $"=" ++ v | None => [] end.

Definition print_set_cookie (n : str) (v : option str) (attrs : list (str * option str)) : str :=
  n ++ $"=" ++ default [] v ++ concat (map print_attr attrs).

Definition is_attr (a : str * option str) : Prop :=
  fst a <> [] /\ forallb attr_name_doc_chars (fst a) = true /\
  snd a <> Some [] /\ forallb attr_doc_chars (default [] (snd a)) = true.

Definition is_name_value (n : str) (v : option str) : Prop :=
  n <> [] /\ forallb name_chars n = true /\
  v <> Some [] /\ forallb value_chars (default [] v) = true.

Lemma attrs_stop attrs (p : ascii -> bool) :
  p ";"%char = false -> stops p (concat (map print_attr attrs)) = true.
Proof. intros Hp. destruct attrs; [done|]. simpl. by rewrite Hp. Qed.

Lemma attr_doc_print a t :
  is_attr a -> stops attr_doc_chars t = true -> stops (one "=") t = true ->
  attr_doc (print_attr a ++ t) = Ok (a, t).
Proof.
  intros (Hn & Hna & Hv & Hva) Ht He. destruct a as [n v]. simpl in *.
  assert (stops attr_name_doc_chars t = true) as Ht'.
  { destruct t as [|c t]; [done|]. simpl in *. unfold attr_name_doc_chars.
    by apply negb_true_iff in Ht as ->. }
  unfold attr_doc, print_attr. rewrite <- !app_assoc. cbn [tuple_doc fst snd].
  change ($"; " ++ ?x) with (";"%char :: " "%char :: x).
  rewrite delim_one_cons. cbn [mbind comp_bind].
  rewrite optional_delim_cons. cbn [mbind comp_bind].
  rewrite token_doc_app; [|done..|by destruct v].
  cbn [mbind comp_bind]. destruct v as [v|].
  - change (($"=" ++ v) ++ t) with ("="%char :: (v ++ t)). cbn [app].
    rewrite optional_delim_cons. cbn [mbind comp_bind].
    pose proof (optional_token_app attr_doc_chars (Some v) t) as HV. simpl default in HV.
    by rewrite HV.
  - cbn [app]. rewrite optional_delim_stop by done. cbn [mbind comp_bind].
    pose proof (optional_token_app attr_doc_chars None t) as HV. simpl in HV.
    by rewrite HV.
Qed.

Lemma attrs_reps attrs :
  Forall is_attr attrs -> reps attr_doc (concat (map print_attr attrs)) attrs [].
Proof.
  induction 1 as [|a attrs Ha _ IH]; [by eapply reps_nil|].
  cbn [map concat]. apply reps_cons with (t := concat (map print_attr attrs));
    [|rewrite length_app; unfold print_attr; simpl; lia|exact IH].
  apply attr_doc_print; [done|by apply attrs_stop..].
Qed.

Lemma cookie_doc_print n v attrs :
  is_name_value n v -> Forall is_attr attrs ->
  cookie_doc (print_set_cookie n v attrs) = Ok ((n, (v, attrs)), []).
Proof.
  intros (Hn & Hna & Hv & Hva) HA. unfold cookie_doc, print_set_cookie. cbn [tuple_doc].
  rewrite token_doc_app by done. cbn [mbind comp_bind].
  change ($"=" ++ ?x) with ("="%char :: x).
  rewrite delim_one_cons. cbn [mbind comp_bind].
  rewrite optional_token_app; [|done|done|by apply attrs_stop]. cbn [mbind comp_bind].
  unfold range_doc. by rewrite (range_loop_reps _ _ _ _ (attrs_reps attrs HA)) by lia.
Qed.

Lemma parse_cookie_print `{GrammarLaws, Calendar} now n v attrs :
  is_name_value n v -> Forall is_attr attrs ->
  parse_cookie now (print_set_cookie n v attrs) =
    (rs ← apply_attrs now (mk_cookie n v None None None None false false false false) attrs;
     check_prefix rs).
Proof.
  intros Hn HA. unfold parse_cookie.
  pose proof (parse_agree _ _ (print_set_cookie n v attrs) cookie_agree) as HP.
  unfold parse_doc in HP. rewrite cookie_doc_print in HP by done.
  destruct (parse _ _) as [[n' [v' as']]| |]; simpl in HP; try done. by simplify_eq.
Qed.

(** *** What a Set-Cookie text says

    Read off the list of its attributes: of those with the same name, whatever its
    case, the last one counts; Expires and Max-Age count as one. *)

Definition is_named (nm : str) (a : str * option str) : bool :=
  map lower (fst a) =s map lower nm.

Definition text_of (nm : str) (a : str * option str) : option str :=
  if is_named nm a then snd a else None.

Definition max_age (a : str * option str) : option Z :=
  match text_of $"Max-Age" a with
  | Some v => match stoll v with Ok n => Some (n * second) | _ => None end
  | None => None
  end.

Definition date `{Calendar} (a : str * option str) : option Z :=
  (fun v => local_time
     (if contains "-" v then $"%a, %d-%b-%Y %H:%M:%S GMT"
      else $"%a, %d %b %Y %H:%M:%S GMT") v * second) <$> text_of $"Expires" a.

Definition expiry_of `{Calendar} (now : Z) (a : str * option str) : option Z :=
  match date a, max_age a with
  | Some t, _ => Some t
  | None, Some d => Some (now + d)
  | None, None => None
  end.

Definition site_of (a : str * option str) : option same_site_t :=
  if is_named $"SameSite" a then
    let v := map lower (default [] (snd a)) in
    if v =s $"strict" then Some strict else if v =s $"lax" then Some lax
    else if v =s $"none" then Some none else None
  else None.

Definition described `{Calendar} (now : Z) (n : str) (v : option str)
    (attrs : list (str * option str)) : cookie :=
  {| name := n; value := v;
     expires := last (omap (expiry_of now) attrs);
     domain := last (omap (text_of $"Domain") attrs);
     path := last (omap (text_of $"Path") attrs);
     same_site := last (omap site_of attrs);
     partitioned := existsb (is_named $"Partitioned") attrs;
     secure := existsb (is_named $"Secure") attrs;
     http_only := existsb (is_named $"HttpOnly") attrs;
     tailmatch := false |}.

(** An attribute that needs a value has one that can be read, and times fit. *)
Definition legal `{Calendar} (now : Z) (a : str * option str) : Prop :=
  (is_named $"Expires" a = true -> exists t, date a = Some t /\ fits t = true) /\
  (is_named $"Max-Age" a = true ->
   exists d, max_age a = Some d /\ fits d = true /\ fits (now + d) = true) /\
  (is_named $"Domain" a = true -> is_Some (snd a)) /\
  (is_named $"Path" a = true -> is_Some (snd a)) /\
  (is_named $"SameSite" a = true -> is_Some (site_of a)).

(** Times that do not fit. *)
Definition too_far `{Calendar} (now : Z) (a : str * option str) : Prop :=
  (exists t, date a = Some t /\ fits t = false) \/
  (exists d, max_age a = Some d /\ fits d && fits (now + d) = false).

(** The requirements on names that start with __Secure- and __Host-. *)
Definition prefix_ok (c : cookie) : Prop :=
  (starts_with $"__Secure-" (name c) = true -> secure c = true) /\
  (starts_with $"__Host-" (name c) = true ->
     secure c = true /\ path c = Some $"/" /\ domain c = None).

Section Attributes.
Context `{GL : GrammarLaws} `{Cal : Calendar}.

(** A cookie after one more attribute. *)
Definition amended (now : Z) (c : cookie) (a : str * option str) : cookie :=
  let over {A} (n o : option A) := match n with Some x => Some x | None => o end in
  mk_cookie (name c) (value c) (over (expiry_of now a) (expires c))
    (over (text_of $"Domain" a) (domain c)) (over (text_of $"Path" a) (path c))
    (over (site_of a) (same_site c))
    (partitioned c || is_named $"Partitioned" a) (secure c || is_named $"Secure" a)
    (http_only c || is_named $"HttpOnly" a) (tailmatch c).

(** Comparisons of literal names. *)
Ltac literal_names :=
  repeat match goal with
  | |- context [bool_decide (map lower (txt ?a) = map lower (txt ?b))] =>
      let v := eval vm_compute in (bool_decide (map lower (txt a) = map lower (txt b))) in
      replace (bool_decide (map lower (txt a) = map lower (txt b))) with v
        by (vm_compute; reflexivity)
  end; cbv iota.

Lemma stoll_defined v : stoll v <> UB.
Proof. unfold stoll. by repeat case_match. Qed.

Lemma cookie_ext c c' :
  name c = name c' -> value c = value c' -> expires c = expires c' -> domain c = domain c' ->
  path c = path c' -> same_site c = same_site c' -> partitioned c = partitioned c' ->
  secure c = secure c' -> http_only c = http_only c' -> tailmatch c = tailmatch c' -> c = c'.
Proof. destruct c, c'. simpl. congruence. Qed.

Ltac same_fields := apply cookie_ext; simpl; by rewrite ?orb_false_r, ?orb_true_r.

Lemma legal_near now a : legal now a -> ~ too_far now a.
Proof.
  unfold legal, too_far, date, max_age, text_of.
  intros (He & Hm & _) [(t & Ht & Hf)|(d & Hd & Hf)].
  - destruct (is_named $"Expires" a); [|done]. destruct (He eq_refl) as (t' & Ht' & ?). congruence.
  - destruct (is_named $"Max-Age" a); [|done].
    destruct (Hm eq_refl) as (d' & Hd' & H1 & H2). rewrite Hd in Hd'. injection Hd' as <-.
    by rewrite H1, H2 in Hf.
Qed.

Lemma apply_attr_spec now c a :
  match apply_attr now c a with
  | Ok c' => legal now a /\ c' = amended now c a
  | Err _ => ~ legal now a
  | UB => too_far now a
  end.
Proof.
  destruct a as [nm v]. unfold apply_attr. rewrite !ci_is_equal_law.
  unfold legal, too_far, amended, expiry_of, date, max_age, site_of, text_of, is_named.
  cbn [fst snd]. generalize (map lower nm) as k. intros k. clear nm.
  destruct (bool_decide_reflect (k = map lower $"Expires")) as [->|_]; literal_names.
  { destruct v as [v|]; [|intros [Hl _]; by destruct (Hl eq_refl) as (? & ? & _)].
    unfold parse_date, from_time_t. cbn [fmap option_fmap option_map].
    destruct (fits _) eqn:Ef; cbn [mbind comp_bind]; [|left; by eexists].
    split; [|same_fields]. by split; [intros _; eexists|]. }
  destruct (bool_decide_reflect (k = map lower $"Max-Age")) as [->|_]; literal_names.
  { destruct v as [v|]; [|intros (_ & Hl & _); by destruct (Hl eq_refl) as (? & ? & _)].
    destruct (stoll v) as [n|e|] eqn:Es; cbn [throws mbind comp_bind];
      [|intros (_ & Hl & _); by destruct (Hl eq_refl) as (? & ? & _)|by apply stoll_defined in Es].
    unfold after_seconds. cbv zeta.
    destruct (fits (n * second) && fits (now + n * second)) eqn:Ef; cbn [throws mbind comp_bind];
      [|right; by eexists].
    apply andb_true_iff in Ef as [Ef1 Ef2]. split; [|same_fields].
    by split; [done|]; split; [intros _; eexists|]. }
  destruct (bool_decide_reflect (k = map lower $"Domain")) as [->|_]; literal_names.
  { destruct v as [v|]; [split; [by repeat split; try done; eexists|same_fields]|].
    intros (_ & _ & Hl & _). by destruct (Hl eq_refl). }
  destruct (bool_decide_reflect (k = map lower $"Path")) as [->|_]; literal_names.
  { destruct v as [v|]; [split; [by repeat split; try done; eexists|same_fields]|].
    intros (_ & _ & _ & Hl & _). by destruct (Hl eq_refl). }
  destruct (bool_decide_reflect (k = map lower $"SameSite")) as [->|_]; literal_names.
  { change (map lower $"Strict") with $"strict". change (map lower $"Lax") with $"lax".
    change (map lower $"None") with $"none".
    repeat case_bool_decide;
      first [split; [by repeat split; try done; eexists|same_fields]
            |intros (_ & _ & _ & _ & Hl); by destruct (Hl eq_refl)]. }
  destruct (bool_decide_reflect (k = map lower $"Partitioned")) as [->|_]; literal_names;
    [by split; [|same_fields]|].
  destruct (bool_decide_reflect (k = map lower $"Secure")) as [->|_]; literal_names;
    [by split; [|same_fields]|].
  destruct (bool_decide_reflect (k = map lower $"HttpOnly")) as [->|_]; literal_names;
    [by split; [|same_fields]|].
  by split; [|same_fields].
Qed.

Lemma apply_attrs_spec now attrs : forall c,
  match apply_attrs now c attrs with
  | Ok c' => Forall (legal now) attrs /\ c' = fold_left (amended now) attrs c
  | Err _ => ~ Forall (legal now) attrs
  | UB => Exists (too_far now) attrs
  end.
Proof.
  induction attrs as [|a attrs IH]; intros c; [done|]. cbn [apply_attrs fold_left].
  pose proof (apply_attr_spec now c a) as HA.
  destruct (apply_attr now c a) as [c1| |]; cbn [mbind comp_bind].
  - destruct HA as [Ha ->]. specialize (IH (amended now c a)).
    destruct (apply_attrs _ _ attrs); [|by rewrite Forall_cons; intros [_ ?]|by right].
    destruct IH as [HF ->]. by split; [constructor|].
  - by rewrite Forall_cons; intros [? _].
  - by left.
Qed.

Lemma last_omap_snoc {A} (f : str * option str -> option A) attrs a :
  last (omap f (attrs ++ [a])) =
  match f a with Some x => Some x | None => last (omap f attrs) end.
Proof. rewrite omap_app. cbn. destruct (f a); [apply last_snoc|by rewrite app_nil_r]. Qed.

Lemma described_fold now n v attrs :
  fold_left (amended now) attrs
    (mk_cookie n v None None None None false false false false) = described now n v attrs.
Proof.
  induction attrs as [|a attrs IH] using rev_ind; [done|].
  rewrite fold_left_app, IH. unfold described, amended. cbn [fold_left].
  rewrite !last_omap_snoc, !existsb_app. cbn [existsb]. by rewrite !orb_false_r.
Qed.

Lemma check_prefix_spec c :
  match check_prefix c with
  | Ok c' => c' = c /\ prefix_ok c
  | Err _ => ~ prefix_ok c
  | UB => False
  end.
Proof.
  unfold check_prefix, prefix_ok.
  generalize (starts_with $"__Secure-" (name c)), (starts_with $"__Host-" (name c)).
  intros s h. destruct s, h, (secure c), (domain c); cbn [andb negb orb];
    repeat (case_bool_decide; cbn [andb negb orb]); try done;
    intuition (try congruence); exfalso; eauto.
Qed.

Lemma parse_cookie_described now n v attrs :
  is_name_value n v -> Forall is_attr attrs ->
  match parse_cookie now (print_set_cookie n v attrs) with
  | Ok c => Forall (legal now) attrs /\ c = described now n v attrs /\ prefix_ok c
  | Err _ => ~ (Forall (legal now) attrs /\ prefix_ok (described now n v attrs))
  | UB => Exists (too_far now) attrs
  end.
Proof.
  intros Hn HA. rewrite parse_cookie_print by done.
  pose proof (apply_attrs_spec now attrs
    (mk_cookie n v None None None None false false false false)) as HS.
  destruct (apply_attrs _ _ _) as [c| |]; cbn [mbind comp_bind];
    [|by intros [? _]|exact HS].
  destruct HS as [HF ->]. rewrite described_fold.
  pose proof (check_prefix_spec (described now n v attrs)) as HP.
  destruct (check_prefix _) as [c| |]; [destruct HP as [-> HP]; done|by intros [_ ?]|done].
Qed.

End Attributes.

(** ** The jar is well formed *)

(** What every cookie in a jar has, so that value() and operator[] are defined. *)
Definition complete (c : cookie) : Prop :=
  is_Some (domain c) /\ exists p, path c = Some p /\ p <> [].

(** What a cookie has when it comes out of parse_cookie. *)
Definition path_ok (c : cookie) : Prop := path c <> Some [].

Lemma optional_token_nonempty cs s v t :
  optional_doc (token_doc cs) s = Ok (v, t) -> v <> Some [].
Proof.
  unfold optional_doc. destruct (token_doc cs s) as [[a u]| |] eqn:E; intros; simplify_eq.
  - apply token_doc_nonempty in E. congruence.
  - done.
Qed.

Lemma attr_doc_value s a t : attr_doc s = Ok (a, t) -> snd a <> Some [].
Proof.
  unfold attr_doc. cbn [tuple_doc]. intros H. bind_ok.
  match goal with E : optional_doc (token_doc _) _ = Ok _ |- _ =>
    apply optional_token_nonempty in E end.
  by simplify_eq.
Qed.

Lemma cookie_doc_values s n v attrs t :
  cookie_doc s = Ok ((n, (v, attrs)), t) -> Forall (fun a => snd a <> Some []) attrs.
Proof.
  unfold cookie_doc. cbn [tuple_doc]. intros H. bind_ok. simplify_eq.
  unfold range_doc in *. eapply range_loop_forall; [apply attr_doc_value|done].
Qed.

Lemma netscape_doc_path s h d b p r t :
  netscape_doc s = Ok ((h, (d, (b, (p, r)))), t) -> p <> [].
Proof.
  unfold netscape_doc, field_doc. cbn [tuple_doc]. intros H. bind_ok. simplify_eq.
  by eapply token_doc_nonempty.
Qed.

Section Jar.
Context `{GL : GrammarLaws} `{Cal : Calendar}.

Lemma apply_attr_path now c a c' :
  path_ok c -> snd a <> Some [] -> apply_attr now c a = Ok c' ->
  path_ok c' /\ name c' = name c /\ tailmatch c' = tailmatch c.
Proof.
  unfold path_ok. intros Hc Ha. destruct a as [n v]. unfold apply_attr. simpl in *.
  repeat case_match; intros HE; bind_ok; simplify_eq/=; repeat split; done || congruence.
Qed.

Lemma apply_attrs_path now attrs : forall c c',
  path_ok c -> Forall (fun a => snd a <> Some []) attrs ->
  apply_attrs now c attrs = Ok c' ->
  path_ok c' /\ name c' = name c /\ tailmatch c' = tailmatch c.
Proof.
  induction attrs as [|a attrs IH]; intros c c' Hc HF HE; simpl in HE; [by simplify_eq|].
  apply Forall_cons in HF as [Ha HF].
  destruct (apply_attr now c a) as [c1| |] eqn:E1; simpl in HE; try done.
  destruct (apply_attr_path _ _ _ _ Hc Ha E1) as (Hp & Hn & Ht).
  destruct (IH _ _ Hp HF HE) as (Hp' & Hn' & Ht'). repeat split; [done|congruence..].
Qed.

Lemma check_prefix_ok c c' :
  check_prefix c = Ok c' ->
  c' = c /\ (starts_with $"__Secure-" (name c) = true -> secure c = true) /\
  (starts_with $"__Host-" (name c) = true ->
     secure c = true /\ path c = Some $"/" /\ domain c = None).
Proof.
  unfold check_prefix. intros HE.
  destruct (starts_with $"__Secure-" (name c) && negb (secure c)) eqn:E1; [done|].
  destruct (starts_with $"__Host-" (name c) && _) eqn:E2; [done|]. injection HE as <-.
  split; [done|]. split; intros HS; rewrite HS in *; simpl in *.
  - by apply negb_false_iff in E1.
  - apply orb_false_iff in E2 as [[E2 E3]%orb_false_iff E4].
    apply negb_false_iff in E2, E3. apply bool_decide_eq_true in E3.
    apply bool_decide_eq_false in E4.
    by apply eq_None_not_Some in E4.
Qed.

Lemma parse_cookie_ok now sv c :
  parse_cookie now sv = Ok c ->
  path_ok c /\ tailmatch c = false /\
  (starts_with $"__Secure-" (name c) = true -> secure c = true) /\
  (starts_with $"__Host-" (name c) = true ->
     secure c = true /\ path c = Some $"/" /\ domain c = None).
Proof.
  unfold parse_cookie. intros HE.
  pose proof (parse_agree _ _ sv cookie_agree) as HP. unfold parse_doc in HP.
  destruct (parse cookie_parser sv) as [[n [v attrs]]| |]; try done.
  destruct (cookie_doc sv) as [[x [|]]|[]|] eqn:ED; simpl in HP; try done. subst x.
  apply cookie_doc_values in ED. bind_ok.
  apply check_prefix_ok in HE as (-> & HS & HH).
  by eapply apply_attrs_path in E as (? & _ & ?).
Qed.

Lemma parse_netscape_complete sv c : parse_netscape_cookie sv = Ok c -> complete c.
Proof.
  unfold parse_netscape_cookie. intros HE.
  pose proof (parse_agree _ _ sv netscape_agree) as HP. unfold parse_doc in HP.
  destruct (parse netscape_parser sv) as [[h [d [t [p r]]]]| |]; try done.
  destruct (netscape_doc sv) as [[x [|]]|[]|] eqn:ED; simpl in HP; try done. subst x.
  apply netscape_doc_path in ED. destruct r as [? [? [? ?]]]. bind_ok. simplify_eq/=.
  split; simpl; [by eexists|by exists p].
Qed.

Lemma default_path_nonempty url : default_path url <> [].
Proof. unfold default_path. by destruct (concat _). Qed.

Lemma add_in psl now url c jar o :
  path_ok c -> In o (add psl now url c jar) ->
  In o jar \/
  (complete o /\ name o = name c /\ secure o = secure c /\
   path o = Some (default (default_path url) (path c)) /\
   domain o = Some (default (host url) (domain c)) /\
   (domain c = None -> tailmatch o = tailmatch c)).
Proof.
  unfold add, path_ok. intros Hc.
  destruct (match domain c, psl with Some _, Some _ => _ | _, _ => _ end); [by left|].
  set (c1 := match domain c with Some _ => _ | None => _ end).
  set (c2 := match path c1 with Some _ => c1 | None => _ end).
  destruct (secure c2 && negb (is_https url)); [by left|].
  assert (complete c2 /\ name c2 = name c /\ secure c2 = secure c /\
   path c2 = Some (default (default_path url) (path c)) /\
   domain c2 = Some (default (host url) (domain c)) /\
   (domain c = None -> tailmatch c2 = tailmatch c)) as Hc2.
  { unfold c2, c1, complete. pose proof (default_path_nonempty url).
    destruct (domain c), (path c) as [p|] eqn:Hp; simpl; rewrite ?Hp; simpl;
      (split; [split; [by eexists|eexists; split; [done|congruence]]|done]). }
  intros HI.
  assert (In o (List.filter (fun o => negb (same_cookie c2 o)) jar ++ [c2])) as [HI'|HI']%in_app_iff.
  { destruct (expires c2) as [e|]; [destruct (e <? now)|]; [|done..].
    rewrite in_app_iff. by left. }
  - apply filter_In in HI' as [? _]. by left.
  - destruct HI' as [<-|[]]. by right.
Qed.

End Jar.

Lemma domain_match_defined r c tail : exists b, domain_match r c tail = Ok b.
Proof.
  unfold domain_match. destruct tail; cbn [negb]; cbv zeta; [|by eexists].
  set (c' := if starts_with $"." c then drop 1 c else c).
  destruct (ends_with c' r) eqn:E; [|by eexists].
  apply ends_with_spec in E as [t ->]. rewrite length_app.
  destruct (Nat.eqb_spec (length t + length c') (length c')); [by eexists|].
  destruct ((t ++ c') !! (length t + length c' - length c' - 1)%nat) eqn:El; [by eexists|].
  apply lookup_ge_None in El. rewrite length_app in El. lia.
Qed.

Lemma path_match_defined r c : c <> [] -> exists b, path_match r c = Ok b.
Proof.
  intros Hc. unfold path_match. destruct r as [|a r]; [by eexists|].
  destruct (starts_with c (a :: r)); [|by eexists].
  case_match; [by eexists|]. case_match; [by eexists|].
  destruct ((a :: r) !! (length (a :: r) - length c)%nat) eqn:El; [by eexists|].
  apply lookup_ge_None in El. destruct c; [done|]. simpl in *. lia.
Qed.

Lemma sent_defined url c : complete c -> exists b, sent url c = Ok b.
Proof.
  intros [[d Hd] (p & Hp & Hp0)]. unfold sent. rewrite Hd, Hp. simpl.
  destruct (domain_match_defined (host url) d (tailmatch c)) as [b ->]. simpl.
  destruct b; simpl; [|by eexists].
  destruct (path_match_defined (encoded_path url) p Hp0) as [b ->]. simpl.
  destruct b; by eexists.
Qed.

(** ** The life of a jar *)

Section Life.
Context `{Grammar} `{Calendar}.

(** The calls a program makes on a jar, and the jar each leaves. *)
Inductive jar_step (jar : list cookie) : list cookie -> Prop :=
| step_set psl now url sv c :
    parse_cookie now sv = Ok c -> jar_step jar (add psl now url c jar)
| step_send now url rs jar' :
    make_field now url jar = Ok (rs, jar') -> jar_step jar jar'
| step_clear : jar_step jar (clear_session_cookies jar)
| step_load s : jar_step jar (fst (read s jar)).

Inductive jar_reachable : list cookie -> Prop :=
| jar_empty : jar_reachable []
| jar_next jar jar' : jar_reachable jar -> jar_step jar jar' -> jar_reachable jar'.

End Life.

Lemma make_field_spec now url jar :
  Forall complete jar ->
  let live := List.filter (fun c => match expires c with Some e => now <? e | None => true end) jar in
  make_field now url jar =
    Ok (concat (map field_of (List.filter (fun c => bool_decide (sent url c = Ok true)) live)), live).
Proof.
  induction 1 as [|c jar Hc _ IH]; [done|]. cbn [make_field List.filter].
  destruct (expires c) as [e|]; [rewrite (Z.leb_antisym now e); destruct (now <? e)|];
    cbn [negb]; [|done|]; cbn [List.filter].
  all: destruct (sent_defined url c Hc) as [b Hb]; rewrite Hb; cbn [mbind comp_bind];
    rewrite IH; cbn [mbind comp_bind]; by destruct b.
Qed.

Lemma sublist_complete f jar : Forall complete jar -> Forall complete (List.filter f jar).
Proof.
  intros HF. apply List.Forall_forall. intros o [Ho _]%filter_In.
  rewrite List.Forall_forall in HF. by apply HF.
Qed.

Lemma read_lines_complete `{GrammarLaws} ls : forall jar,
  Forall complete jar -> Forall complete (fst (read_lines ls jar)).
Proof.
  induction ls as [|l ls IH]; intros jar HF; simpl; [done|].
  destruct (skipped l); [by apply IH|].
  destruct (parse_netscape_cookie l) as [c| |] eqn:E; [|done..].
  apply IH, Forall_app. split; [done|]. constructor; [|done].
  by eapply parse_netscape_complete.
Qed.

Lemma jar_complete `{GrammarLaws, Calendar} jar : jar_reachable jar -> Forall complete jar.
Proof.
  induction 1 as [|jar jar' _ IH HS]; [done|].
  destruct HS as [psl now url sv c Hc|now url rs jar' Hm| |s].
  - apply parse_cookie_ok in Hc as [Hp _]. apply List.Forall_forall. intros o Ho.
    destruct (add_in _ _ _ _ _ _ Hp Ho) as [Hi|[? _]]; [|done].
    rewrite List.Forall_forall in IH. by apply IH.
  - rewrite (make_field_spec now url jar IH) in Hm. simplify_eq. by apply sublist_complete.
  - by apply sublist_complete.
  - by apply read_lines_complete.
Qed.

Lemma domain_match_exact r c : domain_match r c false = Ok true -> r = c.
Proof. intros [= HE]. by apply bool_decide_eq_true in HE. Qed.

Lemma sent_facts url c :
  sent url c = Ok true ->
  (secure c = true -> is_https url = true) /\
  (tailmatch c = false -> domain c = Some (host url)).
Proof.
  unfold sent. intros HE. destruct (domain c) as [d|]; simpl in HE; [|done].
  destruct (domain_match (host url) d (tailmatch c)) as [[]| |] eqn:ED; simpl in HE; try done.
  destruct (path c) as [p|]; simpl in HE; [|done].
  destruct (path_match (encoded_path url) p) as [[]| |]; simpl in HE; try done.
  split.
  - intros Hs. rewrite Hs in HE. by injection HE.
  - intros Ht. rewrite Ht in ED. by apply domain_match_exact in ED as ->.
Qed.

(** ** Path matching against RFC 6265, 5.1.4 *)

Definition rfc_path_match (r c : str) : bool :=
  (r =s c) || (starts_with c r && (ends_with $"/" c || (r !! length c =s Some "/"%char))).

Lemma path_match_app c t :
  c <> [] ->
  path_match (c ++ t) c =
  Ok (bool_decide (t = []) || ends_with $"/" c || ((c ++ t) !! length t =s Some "/"%char)).
Proof.
  intros Hc. unfold path_match. destruct (c ++ t) as [|a r] eqn:E; [by destruct c|].
  rewrite <- E, starts_with_app, length_app.
  destruct (Nat.eqb_spec (length c + length t) (length c)) as [Hl|Hl].
  - assert (t = []) as -> by (destruct t; [done|simpl in Hl; lia]). done.
  - rewrite bool_decide_eq_false_2 by (intros ->; simpl in Hl; lia). cbn [orb].
    destruct (ends_with $"/" c); [done|]. cbn [orb].
    replace (length c + length t - length c)%nat with (length t) by lia.
    destruct ((c ++ t) !! length t) as [b|] eqn:El.
    + f_equal. destruct (Ascii.eqb_spec b "/") as [->|Hb].
      * by rewrite bool_decide_eq_true_2.
      * rewrite bool_decide_eq_false_2; [done|congruence].
    + apply lookup_ge_None in El. rewrite length_app in El. destruct c; [done|simpl in *; lia].
Qed.

Lemma rfc_path_match_app c t :
  rfc_path_match (c ++ t) c =
  bool_decide (t = []) || ends_with $"/" c || (head t =s Some "/"%char).
Proof.
  unfold rfc_path_match. rewrite starts_with_app, lookup_app_r, Nat.sub_diag by lia.
  replace (t !! 0%nat) with (head t) by by destruct t. destruct t as [|b t].
  - by rewrite app_nil_r, bool_decide_eq_true_2.
  - rewrite !(bool_decide_eq_false_2 (_ = _ :> str)); [done|done|].
    intros HE%(f_equal length). rewrite length_app in HE. simpl in HE. lia.
Qed.

(** ** Properties *)

(** C39: path_match tests the request path for a slash at the offset |r| - |c|
    instead of |c|: it agrees with the path-match of RFC 6265 when the paths are
    equal or the cookie path ends with a slash, but in general it both sends a
    cookie to paths outside its own and withholds it from paths below. *)
Theorem path_match_vs_rfc :
  (forall c t, c <> [] ->
     path_match (c ++ t) c = Ok (bool_decide (t = []) || ends_with $"/" c ||
                                 ((c ++ t) !! length t =s Some "/"%char)) /\
     rfc_path_match (c ++ t) c = bool_decide (t = []) || ends_with $"/" c ||
                                 (head t =s Some "/"%char)) /\
  (forall r c, r <> [] -> starts_with c r = false ->
     path_match r c = Ok false /\ rfc_path_match r c = false) /\
  (path_match $"/abc/d" $"/a" = Ok true /\ rfc_path_match $"/abc/d" $"/a" = false) /\
  (path_match $"/foo/barbaz" $"/foo" = Ok false /\
   rfc_path_match $"/foo/barbaz" $"/foo" = true).
Proof.
  split; [|split; [|done]].
  - intros c t Hc. by rewrite path_match_app, rfc_path_match_app.
  - intros r c Hr Hs. unfold path_match, rfc_path_match. rewrite Hs. destruct r; [done|].
    rewrite bool_decide_eq_false_2; [done|].
    intros HE. rewrite HE, (proj2 (starts_with_spec c c)) in Hs; [done|].
    exists []. by rewrite app_nil_r.
Qed.

(** C7: whatever Set-Cookie texts, cookie files and calls a jar has seen,
    make_field never reads outside a text or an absent member; it sends exactly
    the unexpired cookies that match, in the order of the jar, removes the
    expired ones, and sends no secure cookie over plain http. *)
Theorem make_field_on_reachable_jars `{GrammarLaws, Calendar} jar now url :
  jar_reachable jar ->
  exists live, live = List.filter
      (fun c => match expires c with Some e => now <? e | None => true end) jar /\
    make_field now url jar =
      Ok (concat (map field_of
            (List.filter (fun c => bool_decide (sent url c = Ok true)) live)), live) /\
    (forall c, In c live -> exists b, sent url c = Ok b) /\
    (forall c, sent url c = Ok true -> secure c = true -> is_https url = true).
Proof.
  intros HR%jar_complete. eexists. split; [done|]. split; [by apply make_field_spec|].
  split.
  - intros c Hc. apply sent_defined. apply filter_In in Hc as [Hc _].
    rewrite List.Forall_forall in HR. by apply HR.
  - intros c Hc. by apply sent_facts.
Qed.

#[local] Instance utc : Calendar := { local_time _ _ := 0 }.

Definition shop : url_view := mk_url $"shop.example" true [$"cart"; $"view"] $"/cart/view".

Lemma make_field_on_reachable_jars_witness :
  let jar := add None 5 shop (mk_cookie $"id" (Some $"7") None None None None false true
               false false) [] in
  exists live, live = List.filter
      (fun c => match expires c with Some e => 5 <? e | None => true end) jar /\
    make_field 5 shop jar =
      Ok (concat (map field_of
            (List.filter (fun c => bool_decide (sent shop c = Ok true)) live)), live) /\
    (forall c, In c live -> exists b, sent shop c = Ok b) /\
    (forall c, sent shop c = Ok true -> secure c = true -> is_https shop = true).
Proof.
  apply (@make_field_on_reachable_jars doc_grammar doc_grammar_laws utc).
  eapply (@jar_next doc_grammar utc); [apply (@jar_empty doc_grammar utc)|].
  apply (@step_set doc_grammar utc) with (sv := $"id=7; Secure"). vm_compute. reflexivity.
Defined.

(** C24: a cookie whose name starts with __Host- that was accepted from a URL is
    afterwards sent only to the host of that URL and only over https. *)
Theorem host_prefix_confined `{GrammarLaws, Calendar} psl now url sv c jar o url' :
  parse_cookie now sv = Ok c -> starts_with $"__Host-" (name c) = true ->
  In o (add psl now url c jar) -> sent url' o = Ok true ->
  In o jar \/ (host url' = host url /\ is_https url' = true /\ path o = Some $"/").
Proof.
  intros Hc Hn Ho Hs. destruct (parse_cookie_ok _ _ _ Hc) as (Hp & Htc & _ & HH).
  destruct (HH Hn) as (Hsec & Hpath & Hdom).
  destruct (add_in _ _ _ _ _ _ Hp Ho) as [?|(_ & _ & Hse & Hpa & Hd & Ht)]; [by left|].
  right. destruct (sent_facts _ _ Hs) as [Hhttps Hhost].
  rewrite Hdom in *. rewrite Hpath in Hpa. simpl in *.
  specialize (Hhost ltac:(by rewrite Ht)). split; [congruence|]. split; [|done].
  apply Hhttps. congruence.
Qed.

Lemma host_prefix_confined_witness :
  let o := mk_cookie $"__Host-sid" (Some $"7") None (Some $"shop.example") (Some $"/") None
             false true false false in
  In o [] \/ (host shop = host shop /\ is_https shop = true /\ path o = Some $"/").
Proof.
  eapply (@host_prefix_confined doc_grammar doc_grammar_laws utc None 5 shop
    $"__Host-sid=7; Secure; Path=/" _ [] _ shop);
    [vm_compute; reflexivity|reflexivity|left; reflexivity|reflexivity].
Defined.



(** C23: parse_cookie reads back a printed Set-Cookie text: it gives the name, the
    value and, of the attributes of each name, in any case, what the last one says
    (the date, or the age from now; domain, path, SameSite and the flags); it gives
    a cookie exactly when every attribute is legal and the name's prefix allows
    it, and it is undefined only when a time does not fit. *)
Theorem parse_cookie_printed `{GrammarLaws, Calendar} now n v attrs :
  is_name_value n v -> Forall is_attr attrs ->
  let r := parse_cookie now (print_set_cookie n v attrs) in
  (forall c, r = Ok c <->
     Forall (legal now) attrs /\ c = described now n v attrs /\ prefix_ok c) /\
  (r = UB -> Exists (too_far now) attrs).
Proof.
  intros Hn HA r. pose proof (parse_cookie_described now n v attrs Hn HA) as HD. fold r in HD.
  destruct r as [c'|e|]; (split; [|done || by intros _]).
  - intros c. split; [by intros [= <-]|]. destruct HD as (_ & -> & _). by intros (_ & -> & _).
  - intros c. split; [done|]. intros (HL & -> & HP). by destruct HD.
  - intros c. split; [done|]. intros (HL & _ & _). exfalso.
    apply Exists_exists in HD as (a & Ha & Hf). rewrite Forall_forall in HL.
    by apply (legal_near now a); [apply HL|].
Qed.

Lemma parse_cookie_printed_witness :
  let attrs := [($"path", Some $"/a"); ($"Secure", None); ($"Path", Some $"/b");
                ($"max-age", Some $"60"); ($"SameSite", Some $"lax"); ($"New", None)] in
  parse_cookie (H := doc_grammar) (H0 := utc) 5 (print_set_cookie $"id" (Some $"7") attrs) =
    Ok (mk_cookie $"id" (Some $"7") (Some 60000000005) None (Some $"/b") (Some lax)
          false true false false).
Proof.
  intros attrs.
  apply (@parse_cookie_printed doc_grammar doc_grammar_laws utc 5 $"id" (Some $"7") attrs).
  - by repeat split.
  - repeat constructor; done.
  - split; [|split; [reflexivity|by split]]. unfold attrs.
    repeat first [apply Forall_nil_2 | apply Forall_cons_2];
      repeat split; try done; intros _; eexists; repeat split; reflexivity.
Defined.

(** With the public suffix list, the domains it accepts are the ones rejected. *)
Lemma add_psl_inverted `{Grammar} acceptable now url c d jar :
  domain c = Some d -> acceptable (map to_lower (host url)) (map to_lower d) = true ->
  add (Some acceptable) now url c jar = jar.
Proof. intros Hd Ha. unfold add. by rewrite Hd, Ha. Qed.

End Cookie.
