(* ===== verification/Glob.v ===== *)
(** URL globbing of burl (example/client/burl/glob.cpp).

    The lambdas with mutable captures are the records of what they capture, with
    the function that runs one call: [gen_next] for the generators of one piece
    of a pattern, [next] for the generator of the whole pattern, whose loop takes
    fuel. *)
From S2P Require Import Prelude.
From S2P Require Import Grammar.

Module Glob.

(** ** The generators *)

Inductive variant_t :=
| Range (width low high step : Z)              (* make_range_gen *)
| Chars (low high : ascii) (step : Z)          (* make_char_gen *)
| Items (items : list str) (i : nat)           (* make_set_gen *)
| Static (s : option str).                     (* make_static_gen *)

Definition holds_static_gen (v : variant_t) : bool :=
  match v with Static _ => true | _ => false end.

Definition pad (width : Z) (s : str) : str :=
  replicate (Z.to_nat width - length s) "0"%char ++ s.

(** One call of a generator. *)
Definition gen_next (g : variant_t) : option str * variant_t :=
  match g with
  | Range width low high step =>
      if high <? low then (None, g)
      else (Some (pad width (dec low)), Range width (u64 (low + step)) high step)
  | Chars low high step =>
      if schar high <? schar low then (None, g)
      else (Some [low], Chars (chr (uchar low + step)) high step)
  | Items items i =>
      match items !! i with
      | None => (None, g)
      | Some s => (Some s, Items items (S i))
      end
  | Static s => (s, Static None)
  end.

Record glob_result := mk_result {
  result : str;
  tokens : list str
}.

(** What the lambda of make_glob_generator captures: the stack, its top first. *)
Record closure := mk_closure {
  stack : list (str * list variant_t);
  toks : list str
}.

(** One call of the generator; [None] is out of fuel. *)
Fixpoint next (fuel : nat) (c : closure) : option (comp exn (option glob_result * closure)) :=
  match fuel with
  | O => None
  | S fuel =>
      match stack c with
      | [] => Some (Ok (None, c))
      | (prefix, gs) :: st =>
          match gs with
          | [] => Some UB
          | g :: gs =>
              match gen_next g with
              | (Some o, g') =>
                  let here := (prefix, g' :: gs) in
                  let ts := if holds_static_gen g' then toks c else toks c ++ [o] in
                  match gs with
                  | [] => Some (Ok (Some (mk_result (prefix ++ o) ts),
                                    mk_closure (here :: st) (toks c)))
                  | _ => next fuel (mk_closure ((prefix ++ o, gs) :: here :: st) ts)
                  end
              | (None, _) =>
                  match st with
                  | [] => next fuel (mk_closure [] (toks c))
                  | (_, []) :: _ => Some UB
                  | (_, g0 :: _) :: _ =>
                      next fuel (mk_closure st
                        (if holds_static_gen g0 then toks c else removelast (toks c)))
                  end
              end
          end
      end
  end.

Section Parsers.
Context `{Grammar}.

Definition static_rule : rule str := token_rule (cs_minus all_chars (lut_chars $"{[")).

Definition num_range_rule : rule (str * (Z * option Z)) :=
  tuple_rule
    (rskip (delim_rule (one "["))
    (rcons (token_rule digit_chars)
    (rskip (delim_rule (one "-"))
    (rcons (unsigned_rule 64)
    (rend (rone (optional_rule (tuple_rule
             (rskip (delim_rule (one ":")) (rone (unsigned_rule 64))))))
          (delim_rule (one "]"))))))).

Definition char_range_rule : rule (str * (str * option Z)) :=
  tuple_rule
    (rskip (delim_rule (one "["))
    (rcons (delim_rule alpha_chars)
    (rskip (delim_rule (one "-"))
    (rcons (delim_rule alpha_chars)
    (rend (rone (optional_rule (tuple_rule
             (rskip (delim_rule (one ":")) (rone (unsigned_rule 8))))))
          (delim_rule (one "]"))))))).

Definition set_item_rule : rule str :=
  tuple_rule
    (rend (rone (token_rule (cs_minus all_chars (lut_chars $",}"))))
          (optional_rule (delim_rule (one ",")))).

Definition set_rule : rule (list str) :=
  tuple_rule
    (rskip (delim_rule (one "{"))
    (rend (rone (range_rule set_item_rule)) (delim_rule (one "}")))).

Definition piece_rule :=
  variant_rule (aor static_rule (aor num_range_rule (aor char_range_rule (aone set_rule)))).

Definition glob_rule := range_rule piece_rule.

(** std::stoull and std::stoul (64 bits) of a run of digits. *)
Definition stoull (s : str) : comp exn Z :=
  if undec s <? 2 ^ 64 then Ok (undec s) else Err OutOfRange.

(** The switch on v.index(). *)
Definition make_gen
    (v : str + ((str * (Z * option Z)) + ((str * (str * option Z)) + list str)))
    : comp exn variant_t :=
  match v with
  | inl s => Ok (Static (Some s))
  | inr (inl (low, (high, step))) =>
      l ← stoull low;
      Ok (Range (u8 (Z.of_nat (length low))) l high (default 1 step))
  | inr (inr (inl (low, (high, step)))) =>
      match low, high with
      | l :: _, h :: _ => Ok (Chars l h (default 1 step))
      | _, _ => Err OutOfRange
      end
  | inr (inr (inr items)) => Ok (Items items 0)
  end.

Fixpoint make_gens
    (vs : list (str + ((str * (Z * option Z)) + ((str * (str * option Z)) + list str))))
    : comp exn (list variant_t) :=
  match vs with
  | [] => Ok []
  | v :: vs => g ← make_gen v; gs ← make_gens vs; Ok (g :: gs)
  end.

Definition make_glob_generator (pattern : str) : comp exn closure :=
  match parse glob_rule pattern with
  | Err _ => Err (RuntimeError $"Bad URL pattern")
  | UB => UB
  | Ok vs => gs ← make_gens vs; Ok (mk_closure [([], gs)] [])
  end.

(** ** interpolate *)

Definition interpolate_rule :=
  range_rule (variant_rule
    (aor (token_rule (cs_minus all_chars (lut_chars $"#")))
    (aor (tuple_rule (rskip (delim_rule (one "#")) (rone (token_rule digit_chars))))
    (aone (tuple_rule (rskip (delim_rule (one "#")) rnil)))))).

Definition interpolate_piece (r : glob_result) (v : str + (str + unit)) : comp exn str :=
  match v with
  | inl s => Ok s
  | inr (inl d) =>
      n ← stoull d;
      let index := u64 (n - 1) in
      if index <? Z.of_nat (length (tokens r)) then
        match tokens r !! Z.to_nat index with Some t => Ok t | None => UB end
      else Ok ("#"%char :: d)
  | inr (inr _) => Ok $"#"
  end.

Fixpoint interpolate_pieces (r : glob_result) (vs : list (str + (str + unit)))
    : comp exn str :=
  match vs with
  | [] => Ok []
  | v :: vs => s ← interpolate_piece r v; t ← interpolate_pieces r vs; Ok (s ++ t)
  end.

Definition interpolate (r : glob_result) (format : str) : comp exn str :=
  match parse interpolate_rule format with
  | Err _ => Err SystemError
  | UB => UB
  | Ok vs => interpolate_pieces r vs
  end.

End Parsers.

(** ** The product *)

(** [yields g vs]: the calls of [g] give [vs] and then nothing. *)
Inductive yields : variant_t -> list str -> Prop :=
| yields_nil g g' : gen_next g = (None, g') -> yields g []
| yields_cons g v g' vs : gen_next g = (Some v, g') -> yields g' vs -> yields g (v :: vs).

(** Every choice of one value per generator, the last varying fastest, with the
    values of the generators that are not static text. *)
Fixpoint expand (prefix : str) (ts : list str) (ls : list (bool * list str))
    : list glob_result :=
  match ls with
  | [] => [mk_result prefix ts]
  | (static, vs) :: ls =>
      concat (map (fun v => expand (prefix ++ v)
                              (if static then ts else ts ++ [v]) ls) vs)
  end.

(** The calls of [c] give [rs] and then nothing, again and again. *)
Inductive enumerates : closure -> list glob_result -> Prop :=
| enum_nil c c' :
    (exists n, forall fuel, (n <= fuel)%nat -> next fuel c = Some (Ok (None, c'))) ->
    stack c' = [] -> enumerates c []
| enum_cons c r c' rs :
    (exists n, forall fuel, (n <= fuel)%nat -> next fuel c = Some (Ok (Some r, c'))) ->
    enumerates c' rs -> enumerates c (r :: rs).

Definition annotated (g : variant_t) (ls : bool * list str) : Prop :=
  holds_static_gen g = fst ls /\ yields g (snd ls).

Lemma gen_next_static g v g' : gen_next g = (v, g') -> holds_static_gen g' = holds_static_gen g.
Proof.
  destruct g; simpl; repeat case_match; intros HE; by injection HE as <- <-.
Qed.

(** A turn of the loop that does not return. *)
Lemma enum_turn c c1 rs :
  (forall fuel, next (S fuel) c = next fuel c1) -> enumerates c1 rs -> enumerates c rs.
Proof.
  intros HT HE. inversion HE as [? c' [n Hn] Hc|? r c' rs' [n Hn] HE']; subst.
  - eapply enum_nil; [|done]. exists (S n). intros [|fuel] Hf; [lia|]. rewrite HT.
    apply Hn. lia.
  - eapply enum_cons; [|done]. exists (S n). intros [|fuel] Hf; [lia|]. rewrite HT.
    apply Hn. lia.
Qed.

(** The tokens once the top frame is popped off [st]. *)
Definition popped (st : list (str * list variant_t)) (ts : list str) : list str :=
  match st with
  | (_, g0 :: _) :: _ => if holds_static_gen g0 then ts else removelast ts
  | _ => ts
  end.

Lemma next_pop fuel prefix g gs st ts g' :
  gen_next g = (None, g') -> Forall (fun p => snd p <> []) st ->
  next (S fuel) (mk_closure ((prefix, g :: gs) :: st) ts) =
  next fuel (mk_closure st (popped st ts)).
Proof.
  intros Hg Hst. simpl. rewrite Hg. destruct st as [|[p0 [|g0 gs0]] st]; try done.
  by apply Forall_cons in Hst as [? _].
Qed.

Lemma frame_enumerates gs : forall ls g vs prefix ts st rs,
  Forall2 annotated gs ls -> yields g vs -> Forall (fun p => snd p <> []) st ->
  enumerates (mk_closure st (popped st ts)) rs ->
  enumerates (mk_closure ((prefix, g :: gs) :: st) ts)
    (expand prefix ts ((holds_static_gen g, vs) :: ls) ++ rs).
Proof.
  induction gs as [|g2 gs IH]; intros ls g vs prefix ts st rs HF HY Hst HE.
  all: induction HY as [g g1 Hg|g v g1 vs Hg HY IHY];
    [eapply enum_turn; [intros; by eapply next_pop|exact HE]|].
  all: pose proof (gen_next_static _ _ _ Hg) as Hs; rewrite Hs in IHY.
  - apply Forall2_nil_inv_l in HF as ->. simpl.
    eapply enum_cons; [|exact IHY]. exists 1%nat. intros [|fuel] Hf; [lia|]. simpl.
    by rewrite Hg, Hs.
  - apply Forall2_cons_inv_l in HF as ([static2 vs2] & ls2 & [Hs2 HY2] & HF & ->).
    simpl in Hs2, HY2. subst static2.
    change (expand prefix ts ((holds_static_gen g, v :: vs) :: ?l))
      with (expand (prefix ++ v) (if holds_static_gen g then ts else ts ++ [v]) l ++
            expand prefix ts ((holds_static_gen g, vs) :: l)).
    rewrite <- app_assoc.
    eapply enum_turn; [intros fuel; simpl; by rewrite Hg, Hs|].
    apply IH; [done..| |].
    + by constructor.
    + unfold popped. rewrite Hs. destruct (holds_static_gen g); [done|].
      by rewrite removelast_last.
Qed.

Lemma closure_enumerates g gs l ls :
  Forall2 annotated (g :: gs) (l :: ls) ->
  enumerates (mk_closure [([], g :: gs)] []) (expand [] [] (l :: ls)).
Proof.
  intros HF. inversion HF as [|? [b vs] ? ? [Hs HY] HF']; subst.
  cbn [fst snd] in Hs, HY. subst b. rewrite <- (app_nil_r (expand _ _ _)).
  apply frame_enumerates; [done|done|constructor|].
  eapply enum_nil; [exists 1%nat; intros [|fuel] Hf; [lia|done]|done].
Qed.

(** ** The values of the generators *)

Fixpoint arith (n : nat) (low step : Z) : list Z :=
  match n with O => [] | S n => low :: arith n (low + step) step end.

(** The numbers low, low + step, ... up to high. *)
Definition numbers (low high step : Z) : list Z :=
  arith (Z.to_nat ((high - low) / step + 1)) low step.

Lemma numbers_nil low high step : 0 < step -> high < low -> numbers low high step = [].
Proof.
  intros Hs Hl. unfold numbers. assert ((high - low) / step < 0) by (apply Z.div_lt_upper_bound; lia).
  by replace (Z.to_nat _) with 0%nat by lia.
Qed.

Lemma numbers_cons low high step :
  0 < step -> low <= high -> numbers low high step = low :: numbers (low + step) high step.
Proof.
  intros Hs Hl. unfold numbers. replace (high - low) with (high - (low + step) + 1 * step) by lia.
  rewrite Z.div_add by lia.
  assert (-1 <= (high - (low + step)) / step) by (apply Z.div_le_lower_bound; lia).
  by replace (Z.to_nat ((high - (low + step)) / step + 1 + 1))
    with (S (Z.to_nat ((high - (low + step)) / step + 1))) by lia.
Qed.

(** Without overflow a numeric range gives its numbers, padded. *)
Lemma range_yields width high step : forall n low,
  0 < step -> high + step < 2 ^ 64 -> 0 <= low ->
  (Z.to_nat (high - low + step) <= n)%nat ->
  yields (Range width low high step) (map (fun z => pad width (dec z)) (numbers low high step)).
Proof.
  induction n as [|n IH]; intros low Hs Ho Hl Hn.
  - rewrite numbers_nil by lia. eapply yields_nil. simpl.
    by rewrite (proj2 (Z.ltb_lt high low)) by lia.
  - destruct (Z.ltb_spec high low).
    + rewrite numbers_nil by lia. eapply yields_nil. simpl.
      by rewrite (proj2 (Z.ltb_lt high low)) by lia.
    + rewrite numbers_cons by lia. simpl. eapply yields_cons.
      * simpl. by rewrite (proj2 (Z.ltb_ge high low)) by lia.
      * rewrite wrap_small by lia. apply IH; lia.
Qed.

Lemma schar_small z : 0 <= z < 128 -> schar (chr z) = z.
Proof.
  intros Hz. unfold schar. rewrite uchar_chr by lia.
  by rewrite (proj2 (Z.ltb_lt z 128)) by lia.
Qed.

Lemma chars_yields high step : forall n low,
  0 < step -> 0 <= high -> high + step < 128 -> 0 <= low < 128 ->
  (Z.to_nat (high - low + step) <= n)%nat ->
  yields (Chars (chr low) (chr high) step) (map (fun z => [chr z]) (numbers low high step)).
Proof.
  induction n as [|n IH]; intros low Hs Hh Ho Hl Hn.
  - rewrite numbers_nil by lia. eapply yields_nil. simpl. rewrite !schar_small by lia.
    by rewrite (proj2 (Z.ltb_lt high low)) by lia.
  - destruct (Z.ltb_spec high low).
    + rewrite numbers_nil by lia. eapply yields_nil. simpl. rewrite !schar_small by lia.
      by rewrite (proj2 (Z.ltb_lt high low)) by lia.
    + rewrite numbers_cons by lia. simpl. eapply yields_cons.
      * simpl. rewrite !schar_small by lia.
        by rewrite (proj2 (Z.ltb_ge high low)) by lia.
      * rewrite uchar_chr by lia. apply IH; lia.
Qed.

Lemma items_yields items : forall pre,
  yields (Items (pre ++ items) (length pre)) items.
Proof.
  induction items as [|s items IH]; intros pre.
  - eapply yields_nil. simpl. by rewrite app_nil_r, lookup_ge_None_2.
  - eapply yields_cons.
    + simpl. rewrite lookup_app_r, Nat.sub_diag by lia. done.
    + specialize (IH (pre ++ [s])). rewrite length_app, <- app_assoc in IH. simpl in IH.
      by rewrite Nat.add_1_r in IH.
Qed.

Lemma static_yields s : yields (Static (Some s)) [s].
Proof. eapply yields_cons; [done|]. by eapply yields_nil. Qed.

(** A step that passes 127 wraps around into the negative chars. *)
Lemma char_range_wraps :
  let g := Chars "a" "z" 31 in
  exists g', gen_next g = (Some $"a", g') /\ fst (gen_next g') = Some [chr 128].
Proof. eexists. by split. Qed.

(** A step of zero never ends. *)
Lemma zero_step_repeats width low high :
  0 <= low <= high -> high < 2 ^ 64 ->
  gen_next (Range width low high 0) = (Some (pad width (dec low)), Range width low high 0).
Proof.
  intros Hl Hh. simpl. rewrite (proj2 (Z.ltb_ge high low)) by lia.
  by rewrite Z.add_0_r, wrap_small by lia.
Qed.

(** ** Patterns *)

(** A piece of a pattern, as its author means it. *)
Inductive piece :=
| PText (s : str)
| PNumbers (low : str) (high : Z) (step : option Z)
| PChars (low high : ascii) (step : option Z)
| PSet (items : list str).

Definition print_step (step : option Z) : str :=
  match step with Some n => ":"%char :: dec n | None => [] end.

Fixpoint print_items (items : list str) : str :=
  match items with
  | [] => []
  | [s] => s
  | s :: items => s ++ ","%char :: print_items items
  end.

Definition print_piece (p : piece) : str :=
  match p with
  | PText s => s
  | PNumbers low high step => "["%char :: low ++ "-"%char :: dec high ++ print_step step ++ $"]"
  | PChars low high step => "["%char :: low :: "-"%char :: high :: print_step step ++ $"]"
  | PSet items => "{"%char :: print_items items ++ $"}"
  end.

Definition print_glob (ps : list piece) : str := concat (map print_piece ps).

Definition text_char (c : ascii) : bool := negb ((c =c "{") || (c =c "[")).
Definition item_char (c : ascii) : bool := negb ((c =c ",") || (c =c "}")).

Definition is_piece (p : piece) : Prop :=
  match p with
  | PText s => s <> [] /\ forallb text_char s = true
  | PNumbers low high step =>
      low <> [] /\ forallb is_digit low = true /\ (length low < 256)%nat /\
      0 <= high /\ 0 < default 1 step /\ high + default 1 step < 2 ^ 64 /\ undec low < 2 ^ 64
  | PChars low high step =>
      is_alpha low = true /\ is_alpha high = true /\
      0 < default 1 step /\ schar high + default 1 step < 128
  | PSet items => Forall (fun s => s <> [] /\ forallb item_char s = true) items
  end.

(** No two texts in a row: the parser would join them. *)
Fixpoint separated (ps : list piece) : Prop :=
  match ps with
  | PText _ :: (PText _ :: _) => False
  | _ :: ps => separated ps
  | [] => True
  end.

Definition values (p : piece) : bool * list str :=
  match p with
  | PText s => (true, [s])
  | PNumbers low high step =>
      (false, map (fun z => pad (Z.of_nat (length low)) (dec z))
                (numbers (undec low) high (default 1 step)))
  | PChars low high step =>
      (false, map (fun z => [chr z]) (numbers (schar low) (schar high) (default 1 step)))
  | PSet items => (false, items)
  end.

(** The value the parser gives for a piece. *)
Definition parsed (p : piece) : str + ((str * (Z * option Z)) + ((str * (str * option Z)) + list str)) :=
  match p with
  | PText s => inl s
  | PNumbers low high step => inr (inl (low, (high, step)))
  | PChars low high step => inr (inr (inl ([low], ([high], step))))
  | PSet items => inr (inr (inr items))
  end.

Definition static_doc : rule str := token_doc text_char.
Definition step_doc (w : Z) : rule (option Z) :=
  optional_doc (tuple_doc (rskip (delim_doc (one ":")) (rone (unsigned_doc w)))).
Definition num_range_doc : rule (str * (Z * option Z)) :=
  tuple_doc
    (rskip (delim_doc (one "["))
    (rcons (token_doc is_digit)
    (rskip (delim_doc (one "-"))
    (rcons (unsigned_doc 64)
    (rend (rone (step_doc 64)) (delim_doc (one "]"))))))).
Definition char_range_doc : rule (str * (str * option Z)) :=
  tuple_doc
    (rskip (delim_doc (one "["))
    (rcons (delim_doc is_alpha)
    (rskip (delim_doc (one "-"))
    (rcons (delim_doc is_alpha)
    (rend (rone (step_doc 8)) (delim_doc (one "]"))))))).
Definition set_item_doc : rule str :=
  tuple_doc (rend (rone (token_doc item_char)) (optional_doc (delim_doc (one ",")))).
Definition set_doc : rule (list str) :=
  tuple_doc (rskip (delim_doc (one "{"))
    (rend (rone (range_doc set_item_doc)) (delim_doc (one "}")))).
Definition piece_doc :=
  variant_doc (aor static_doc (aor num_range_doc (aor char_range_doc (aone set_doc)))).

Lemma tuple_end_repeatable {A B} (r : rule A) (e : rule B) :
  repeatable r -> shrinking e -> repeatable (tuple_doc (rend (rone r) e)).
Proof.
  intros [H1 H2] [H3 H4]. split; intros s a t; simpl;
    destruct (r s) as [[x v]| |] eqn:E; simpl; try (intros; by simplify_eq; eauto);
    destruct (e v) as [[y w]| |] eqn:E'; simpl; intros; simplify_eq; eauto.
  apply H1 in E. apply H3 in E'. lia.
Qed.

Lemma tuple_end_shrinking {A B} (r : rule A) (e : rule B) :
  shrinking r -> shrinking e -> shrinking (tuple_doc (rend (rone r) e)).
Proof.
  intros [H1 H2] [H3 H4]. split; intros s a t; simpl;
    destruct (r s) as [[x v]| |] eqn:E; simpl; try (intros; by simplify_eq; eauto);
    destruct (e v) as [[y w]| |] eqn:E'; simpl; intros; simplify_eq; eauto.
  apply H1 in E. apply H3 in E'. lia.
Qed.

Lemma range_shrinking {A} (r : rule A) : repeatable r -> shrinking (range_doc r).
Proof.
  intros Hr. unfold range_doc. split.
  - intros s a t HE. pose proof (range_loop_spec r Hr (S (length s)) s ltac:(lia)) as HS.
    rewrite HE in HS. clear HE. induction HS; lia.
  - intros s e u HE. pose proof (range_loop_spec r Hr (S (length s)) s ltac:(lia)) as HS.
    by rewrite HE in HS.
Qed.

#[local] Hint Resolve tuple_end_repeatable tuple_end_shrinking range_shrinking
  tuple_one_shrinking : grammar.

Lemma step_shrinking w : shrinking (step_doc w).
Proof. unfold step_doc. auto 10 with grammar. Qed.

#[local] Hint Resolve step_shrinking : grammar.

Lemma set_item_repeatable : repeatable set_item_doc.
Proof. unfold set_item_doc. auto 10 with grammar. Qed.

#[local] Hint Resolve set_item_repeatable : grammar.

Lemma piece_repeatable : repeatable piece_doc.
Proof.
  unfold piece_doc, static_doc, num_range_doc, char_range_doc, set_doc.
  auto 20 with grammar.
Qed.

Section Agree.
Context `{GL : GrammarLaws}.

Lemma text_chars_doc c : cs_minus all_chars (lut_chars $"{[") c = text_char c.
Proof.
  unfold cs_minus, text_char. rewrite all_chars_law, lut_chars_law. simpl.
  by rewrite orb_false_r.
Qed.

Lemma item_chars_doc c : cs_minus all_chars (lut_chars $",}") c = item_char c.
Proof.
  unfold cs_minus, item_char. rewrite all_chars_law, lut_chars_law. simpl.
  by rewrite orb_false_r.
Qed.

#[local] Hint Resolve text_chars_doc item_chars_doc digit_chars_law alpha_chars_law : grammar.

Lemma step_agree w :
  optional_rule (tuple_rule (rskip (delim_rule (one ":")) (rone (unsigned_rule w))))
  ≈p step_doc w.
Proof. unfold step_doc. auto 20 with grammar. Qed.

#[local] Hint Resolve step_agree : grammar.

Lemma set_item_agree : set_item_rule ≈p set_item_doc.
Proof. unfold set_item_rule, set_item_doc. auto 20 with grammar. Qed.

#[local] Hint Resolve set_item_agree piece_repeatable : grammar.

Lemma piece_agree : piece_rule ≈p piece_doc.
Proof.
  unfold piece_rule, piece_doc, static_rule, static_doc, num_range_rule, num_range_doc,
    char_range_rule, char_range_doc, set_rule, set_doc.
  auto 40 with grammar.
Qed.

Lemma glob_agree : glob_rule ≈p range_doc piece_doc.
Proof. apply range_agree; [apply piece_repeatable|apply piece_agree]. Qed.

End Agree.

Lemma step_doc_print w step t :
  match step with Some n => 0 <= n < 2 ^ w | None => True end ->
  step_doc w (print_step step ++ "]"%char :: t) = Ok (step, "]"%char :: t).
Proof.
  intros Hn. unfold step_doc. destruct step as [n|]; simpl print_step.
  - unfold optional_doc. cbn [app tuple_doc]. rewrite delim_one_cons. cbn [mbind comp_bind].
    by rewrite unsigned_doc_accepts.
  - unfold optional_doc. cbn [app tuple_doc]. by rewrite delim_one_other.
Qed.

Lemma bracket_not_text t : static_doc ("["%char :: t) = Err (mismatch, "["%char :: t).
Proof. done. Qed.
Lemma brace_not_text t : static_doc ("{"%char :: t) = Err (mismatch, "{"%char :: t).
Proof. done. Qed.

Lemma num_range_print low high step t :
  low <> [] -> forallb is_digit low = true -> 0 <= high < 2 ^ 64 ->
  match step with Some n => 0 <= n < 2 ^ 64 | None => True end ->
  num_range_doc (print_piece (PNumbers low high step) ++ t) = Ok ((low, (high, step)), t).
Proof.
  intros Hl Hd Hh Hs. unfold num_range_doc, print_piece. cbn [app tuple_doc].
  rewrite delim_one_cons. cbn [mbind comp_bind]. rewrite <- app_assoc. cbn [app].
  rewrite token_doc_app by done. cbn [mbind comp_bind].
  rewrite delim_one_cons. cbn [mbind comp_bind]. rewrite <- !app_assoc. cbn [app].
  rewrite unsigned_doc_accepts; [|done|by destruct step].
  cbn [mbind comp_bind]. change ($"]" ++ t) with ("]"%char :: t).
  rewrite step_doc_print by done. cbn [mbind comp_bind]. by rewrite delim_one_cons.
Qed.

Lemma delim_doc_cons cs c t : cs c = true -> delim_doc cs (c :: t) = Ok ([c], t).
Proof. intros Hc. simpl. by rewrite Hc. Qed.

Lemma alpha_not_digit c : is_alpha c = true -> is_digit c = false.
Proof.
  intros Hc. apply not_true_iff_false. rewrite is_digit_uchar. intros Hd.
  unfold is_alpha, between, schar in Hc. rewrite (proj2 (Z.ltb_lt _ _)) in Hc by lia. lia.
Qed.

Lemma char_range_print low high step t :
  is_alpha low = true -> is_alpha high = true ->
  match step with Some n => 0 <= n < 2 ^ 8 | None => True end ->
  num_range_doc (print_piece (PChars low high step) ++ t) =
    Err (mismatch, tail (print_piece (PChars low high step) ++ t)) /\
  char_range_doc (print_piece (PChars low high step) ++ t) = Ok (([low], ([high], step)), t).
Proof.
  intros Hl Hh Hs. unfold num_range_doc, char_range_doc, print_piece. cbn [app tuple_doc tail].
  rewrite delim_one_cons. cbn [mbind comp_bind]. split.
  - unfold token_doc. simpl. by rewrite alpha_not_digit.
  - rewrite delim_doc_cons by done. cbn [mbind comp_bind].
    rewrite delim_one_cons. cbn [mbind comp_bind].
    rewrite delim_doc_cons by done. cbn [mbind comp_bind]. rewrite <- app_assoc.
    change ($"]" ++ t) with ("]"%char :: t).
    rewrite step_doc_print by done. cbn [mbind comp_bind]. by rewrite delim_one_cons.
Qed.

Lemma set_items_reps items t :
  Forall (fun s => s <> [] /\ forallb item_char s = true) items ->
  reps set_item_doc (print_items items ++ "}"%char :: t) items ("}"%char :: t).
Proof.
  induction 1 as [|s items [Hs Hc] HF IH]; [by eapply reps_nil|].
  destruct items as [|s2 items].
  - cbn [print_items]. apply reps_cons with (t := "}"%char :: t); [|rewrite length_app; simpl|exact IH].
    + unfold set_item_doc. cbn [tuple_doc]. rewrite token_doc_app by done. cbn [mbind comp_bind].
      by rewrite optional_delim_stop.
    + destruct s; [done|simpl; lia].
  - change (print_items (s :: s2 :: items))
      with (s ++ ","%char :: print_items (s2 :: items)).
    rewrite <- app_assoc.
    apply reps_cons with (t := print_items (s2 :: items) ++ "}"%char :: t); [| |exact IH].
    + unfold set_item_doc. cbn [tuple_doc app]. rewrite token_doc_app by done.
      cbn [mbind comp_bind]. by rewrite optional_delim_cons.
    + rewrite !length_app. simpl. lia.
Qed.

Lemma set_print items t :
  Forall (fun s => s <> [] /\ forallb item_char s = true) items ->
  set_doc (print_piece (PSet items) ++ t) = Ok (items, t).
Proof.
  intros HF. unfold set_doc, print_piece. cbn [app tuple_doc].
  rewrite delim_one_cons. cbn [mbind comp_bind]. rewrite <- app_assoc.
  change ($"}" ++ t) with ("}"%char :: t). unfold range_doc.
  rewrite (range_loop_reps _ _ _ _ (set_items_reps items t HF)) by lia.
  cbn [mbind comp_bind]. by rewrite delim_one_cons.
Qed.

Lemma schar_alpha c : is_alpha c = true -> 65 <= schar c.
Proof. unfold is_alpha, between. lia. Qed.

Lemma piece_doc_print p t :
  is_piece p -> match p with PText _ => stops text_char t = true | _ => True end ->
  piece_doc (print_piece p ++ t) = Ok (parsed p, t).
Proof.
  unfold piece_doc. cbn [variant_doc]. destruct p as [s|low high step|low high step|items].
  - intros [Hs Hc] Ht. unfold static_doc. cbn [print_piece]. by rewrite token_doc_app.
  - intros (Hl & Hd & _ & Hh & Hs & Ho & _) _. unfold print_piece at 1. cbn [app].
    rewrite bracket_not_text.
    rewrite num_range_print; [done|done|done|lia|destruct step; simpl in *; [lia|done]].
  - intros (Hl & Hh & Hs & Ho) _. unfold print_piece at 1. cbn [app].
    rewrite bracket_not_text. pose proof (schar_alpha high Hh).
    destruct (char_range_print low high step t) as [-> ->]; [done|done| |done].
    destruct step; simpl in *; [lia|done].
  - intros HF _. unfold print_piece at 1 2 3. cbn [app].
    rewrite brace_not_text. cbn [app tuple_doc num_range_doc char_range_doc].
    unfold num_range_doc, char_range_doc. cbn [tuple_doc].
    rewrite delim_one_other by done. cbn [mbind comp_bind]. by rewrite set_print.
Qed.

Lemma print_glob_stops ps : 
  match ps with PText _ :: _ => False | _ => True end ->
  stops text_char (print_glob ps) = true.
Proof. by destruct ps as [|[]]. Qed.

Lemma print_piece_length p : is_piece p -> (0 < length (print_piece p))%nat.
Proof. destruct p as [[|]| | |]; simpl; try lia. by intros [? _]. Qed.

Lemma glob_reps ps :
  Forall is_piece ps -> separated ps ->
  reps piece_doc (print_glob ps) (map parsed ps) [].
Proof.
  induction ps as [|p ps IH]; intros HF HS; [by eapply reps_nil|].
  apply Forall_cons in HF as [Hp HF]. unfold print_glob. cbn [map concat].
  apply reps_cons with (t := print_glob ps).
  - apply piece_doc_print; [done|]. destruct p; [|done..].
    apply print_glob_stops. by destruct ps as [|[]].
  - unfold print_glob. rewrite length_app. pose proof (print_piece_length p Hp). lia.
  - apply IH; [done|]. by destruct p, ps as [|[]].
Qed.

Lemma make_gen_parsed p :
  is_piece p -> exists g, make_gen (parsed p) = Ok g /\ annotated g (values p).
Proof.
  destruct p as [s|low high step|low high step|items]; simpl.
  - intros _. eexists. split; [done|]. split; [done|apply static_yields].
  - intros (Hl & Hd & Hlen & Hh & Hs & Ho & Hu). unfold stoull.
    rewrite (proj2 (Z.ltb_lt _ _)) by done. eexists. split; [done|]. split; [done|].
    simpl. rewrite wrap_small by lia.
    eapply range_yields; [lia|lia|by apply undec_nonneg|reflexivity].
  - intros (Hl & Hh & Hs & Ho). eexists. split; [done|]. split; [done|].
    pose proof (schar_alpha _ Hl). pose proof (schar_alpha _ Hh).
    assert (forall c, 65 <= schar c -> chr (schar c) = c) as Hchr.
    { intros c Hc. rewrite <- (chr_uchar c) at 2. f_equal. unfold schar in *.
      pose proof (uchar_range c). destruct (Z.ltb_spec (uchar c) 128); lia. }
    pose proof (schar_range low). rewrite <- (Hchr low) at 1 by done.
    rewrite <- (Hchr high) at 1 by done. simpl. eapply chars_yields; [lia..|reflexivity].
  - intros _. eexists. split; [done|]. split; [done|]. apply (items_yields items []).
Qed.

Lemma make_gens_parsed ps :
  Forall is_piece ps ->
  exists gs, make_gens (map parsed ps) = Ok gs /\ Forall2 annotated gs (map values ps).
Proof.
  induction 1 as [|p ps Hp _ (gs & IH & HF)]; [by exists []|].
  destruct (make_gen_parsed p Hp) as (g & Hg & Ha). exists (g :: gs). simpl.
  rewrite Hg. simpl. rewrite IH. split; [done|by constructor].
Qed.

Lemma parse_glob `{GrammarLaws} s vs :
  reps piece_doc s vs [] -> parse glob_rule s = Ok vs.
Proof.
  intros HR. pose proof (parse_agree _ _ s glob_agree) as HP.
  unfold parse_doc, range_doc in HP. rewrite (range_loop_reps _ _ _ _ HR) in HP by lia.
  destruct (parse glob_rule s); simpl in HP; try done. by subst.
Qed.

(** ** interpolate as a scanner *)

(** What a hash sign followed by the digits [d] stands for. *)
Definition token_ref (r : glob_result) (d : str) : comp exn str :=
  if undec d <? 2 ^ 64 then
    Ok (if (1 <=? undec d) && (undec d <=? Z.of_nat (length (tokens r)))
        then nth (Z.to_nat (undec d - 1)) (tokens r) []
        else "#"%char :: d)
  else Err OutOfRange.

(** The format char by char: a hash sign takes the digits that follow it. *)
Fixpoint scan (fuel : nat) (r : glob_result) (s : str) : comp exn str :=
  match fuel with
  | O => Ok []
  | S fuel =>
      match s with
      | [] => Ok []
      | c :: t =>
          if c =c "#" then
            match span is_digit t with
            | ([], _) => u ← scan fuel r t; Ok ("#"%char :: u)
            | (d, t) => w ← token_ref r d; u ← scan fuel r t; Ok (w ++ u)
            end
          else u ← scan fuel r t; Ok (c :: u)
      end
  end.

Definition plain (c : ascii) : bool := negb (c =c "#").

Definition format_doc : rule (str + (str + unit)) :=
  variant_doc
    (aor (token_doc plain)
    (aor (tuple_doc (rskip (delim_doc (one "#")) (rone (token_doc is_digit))))
    (aone (tuple_doc (rskip (delim_doc (one "#")) rnil))))).

Lemma format_repeatable : repeatable format_doc.
Proof. unfold format_doc. auto 20 with grammar. Qed.

Section Format.
Context `{GL : GrammarLaws}.

Lemma plain_doc c : cs_minus all_chars (lut_chars $"#") c = plain c.
Proof.
  unfold cs_minus, plain. rewrite all_chars_law, lut_chars_law. simpl.
  by rewrite orb_false_r.
Qed.

#[local] Hint Resolve plain_doc digit_chars_law : grammar.

Lemma format_agree : interpolate_rule ≈p range_doc format_doc.
Proof.
  apply range_agree; [apply format_repeatable|]. unfold format_doc. auto 20 with grammar.
Qed.

Lemma parse_format s vs : reps format_doc s vs [] -> parse interpolate_rule s = Ok vs.
Proof.
  intros HR. pose proof (parse_agree _ _ s format_agree) as HP.
  unfold parse_doc, range_doc in HP. rewrite (range_loop_reps _ _ _ _ HR) in HP by lia.
  destruct (parse interpolate_rule s); simpl in HP; try done. by subst.
Qed.

End Format.

Lemma scan_fuel r : forall n m s,
  (length s <= n)%nat -> (length s <= m)%nat -> scan n r s = scan m r s.
Proof.
  induction n as [|n IH]; intros [|m] [|c t] Hn Hm; simpl in *; try done; try lia.
  destruct (c =c "#"); [|by rewrite (IH m t) by lia].
  destruct (span is_digit t) as [[|d0 d] u] eqn:E; [by rewrite (IH m t) by lia|].
  apply span_inv in E as (-> & _). rewrite length_app in *. by rewrite (IH m u) by lia.
Qed.

Lemma scan_plain r a t : forall n,
  forallb plain a = true -> (length a + length t <= n)%nat ->
  scan n r (a ++ t) = (u ← scan (length t) r t; Ok (a ++ u)).
Proof.
  induction a as [|c a IH]; intros n Ha Hf; simpl in *.
  - rewrite (scan_fuel r n (length t)) by lia. by destruct (scan (length t) r t).
  - destruct n as [|n]; [lia|]. apply andb_true_iff in Ha as [Hc Ha].
    unfold plain in Hc. apply negb_true_iff in Hc. simpl. rewrite Hc, IH by (done || lia).
    by destruct (scan (length t) r t).
Qed.

Lemma interpolate_token r d :
  forallb is_digit d = true -> Z.of_nat (length (tokens r)) < 2 ^ 64 - 1 ->
  interpolate_piece r (inr (inl d)) = token_ref r d.
Proof.
  intros Hd%undec_nonneg Hr. unfold interpolate_piece, token_ref, stoull.
  destruct (Z.ltb_spec (undec d) (2 ^ 64)); [|done]. cbn [mbind comp_bind].
  destruct (Z.leb_spec 1 (undec d)).
  - rewrite wrap_small by lia. rewrite andb_true_l.
    destruct (Z.ltb_spec (undec d - 1) (Z.of_nat (length (tokens r)))).
    + rewrite (proj2 (Z.leb_le _ _)) by lia.
      destruct (nth_lookup_or_length (tokens r) (Z.to_nat (undec d - 1)) []) as [->|]; [done|lia].
    + by rewrite (proj2 (Z.leb_gt _ _)) by lia.
  - assert (undec d = 0) as -> by lia. cbn [andb].
    change (u64 (0 - 1)) with (2 ^ 64 - 1).
    by rewrite (proj2 (Z.ltb_ge _ _)) by lia.
Qed.

Lemma format_doc_step c t :
  format_doc (c :: t) =
  if c =c "#" then
    match span is_digit t with
    | ([], _) => Ok (inr (inr tt), t)
    | (d, u) => Ok (inr (inl d), u)
    end
  else let '(a, u) := span plain t in Ok (inl (c :: a), u).
Proof.
  unfold format_doc. cbn [variant_doc tuple_doc]. unfold token_doc at 1.
  cbn [span]. unfold plain at 1. destruct (c =c "#") eqn:Hc; simpl negb; cbv iota.
  - apply Ascii.eqb_eq in Hc as ->. rewrite delim_one_cons. cbn [mbind comp_bind].
    unfold token_doc. destruct (span is_digit t) as [[|] u]; done.
  - by destruct (span plain t).
Qed.

Lemma scan_pieces r : Z.of_nat (length (tokens r)) < 2 ^ 64 - 1 ->
  forall n s, (length s <= n)%nat ->
  exists vs, reps format_doc s vs [] /\ interpolate_pieces r vs = scan (length s) r s.
Proof.
  intros Hr n. induction n as [|n IH]; intros [|c t] Hn; simpl in Hn; try lia.
  1, 2: exists []; (split; [by eapply reps_nil|done]).
  pose proof (format_doc_step c t) as HD. destruct (c =c "#") eqn:Hc.
  - destruct (span is_digit t) as [[|d0 d] u] eqn:E.
    + destruct (IH t) as (vs & HR & HI); [lia|]. exists (inr (inr tt) :: vs).
      split; [apply reps_cons with (t := t); [done|simpl; lia|done]|]. simpl. rewrite Hc, E, HI.
      by destruct (scan (length t) r t).
    + apply span_inv in E as Hs. destruct Hs as (-> & Hd & _).
      destruct (IH u) as (vs & HR & HI); [rewrite length_app in Hn; lia|].
      exists (inr (inl (d0 :: d)) :: vs). split.
      { apply reps_cons with (t := u); [done|rewrite length_cons, length_app; lia|done]. }
      cbn [interpolate_pieces]. rewrite interpolate_token by done. cbn [length scan].
      rewrite Hc, E, HI. by rewrite (scan_fuel r (length ((d0 :: d) ++ u)) (length u))
        by (rewrite ?length_app; lia).
  - destruct (span plain t) as [a u] eqn:E.
    apply span_inv in E as (-> & Ha & _).
    destruct (IH u) as (vs & HR & HI); [rewrite length_app in Hn; lia|].
    exists (inl (c :: a) :: vs). split.
    { apply reps_cons with (t := u); [done|rewrite length_cons, length_app; lia|done]. }
    cbn [interpolate_pieces interpolate_piece mbind comp_bind]. rewrite HI.
    rewrite (scan_plain r (c :: a) u); [done| |simpl; rewrite length_app; lia].
    simpl. unfold plain at 1. by rewrite Hc.
Qed.

(** ** Properties *)

(** C12: the generator made from a pattern gives every combination of the values
    of its pieces (texts, padded numeric ranges, letter ranges, sets), the last
    piece varying fastest, with the tokens of the pieces that are not text, and
    then nothing; every call returns. *)
Theorem glob_enumerates_product `{GrammarLaws} p ps :
  Forall is_piece (p :: ps) -> separated (p :: ps) ->
  exists c, make_glob_generator (print_glob (p :: ps)) = Ok c /\
    enumerates c (expand [] [] (map values (p :: ps))).
Proof.
  intros HF HS. unfold make_glob_generator.
  rewrite (parse_glob _ _ (glob_reps _ HF HS)).
  destruct (make_gens_parsed _ HF) as (gs & -> & HA). eexists. split; [done|].
  destruct gs as [|g gs]; [inversion HA|]. by apply closure_enumerates.
Qed.

Lemma glob_enumerates_product_witness :
  let ps := [PText $"vol"; PNumbers $"08" 10 None; PSet [$"a"; $"b"]] in
  exists c, make_glob_generator (H := doc_grammar) (print_glob ps) = Ok c /\
    enumerates c (expand [] [] (map values ps)).
Proof.
  apply (@glob_enumerates_product doc_grammar doc_grammar_laws); [|done].
  repeat constructor; simpl; done || lia.
Defined.

(** C35: interpolate reads its format left to right: #n with n from 1 to the
    number of tokens gives the token, any other # and its digits stay as they
    are, and only a number above 64 bits makes it throw. *)
Theorem interpolate_scans `{GrammarLaws} r format :
  Z.of_nat (length (tokens r)) < 2 ^ 64 - 1 ->
  interpolate r format = scan (length format) r format.
Proof.
  intros Hr. destruct (scan_pieces r Hr _ format (le_n _)) as (vs & HR & <-).
  unfold interpolate. by rewrite (parse_format _ _ HR).
Qed.

Lemma interpolate_scans_witness :
  interpolate (H := doc_grammar) (mk_result [] [$"1"; $"x"]) $"v#1-#2-#3#" =
    scan 10 (mk_result [] [$"1"; $"x"]) $"v#1-#2-#3#".
Proof. apply (@interpolate_scans doc_grammar doc_grammar_laws). reflexivity. Defined.

(** The empty pattern has no generator: the first call reads the front of an
    empty vector. *)
Lemma empty_pattern_undefined `{GrammarLaws} :
  exists c, make_glob_generator [] = Ok c /\ next 1 c = Some UB.
Proof.
  unfold make_glob_generator. rewrite (parse_glob [] []); [by eexists|].
  by eapply reps_nil.
Qed.

End Glob.
