(* ===== verification/Utils.v ===== *)
(** Text utilities of burl (example/client/burl/utils.cpp, base64.cpp and
    mime_type.cpp).  parse_uri and normalize are Boost.URL's; the floating point
    functions of format_size are the class [Cmath]. *)
From S2P Require Import Prelude.
From S2P Require Import Grammar.

Module Utils.

(** ** base64_encode *)

Definition tab : str :=
  $"ABCDEFGHIJKLMNOP" ++ $"QRSTUVWXYZabcdef" ++ $"ghijklmnopqrstuv" ++ $"wxyz0123456789+/".

Definition at_tab (i : Z) : ascii := nth (Z.to_nat i) tab "000"%char.

(** in[k] is a (signed) char, promoted to int. *)
Definition group3 (a b c : ascii) : str :=
  [at_tab (Z.shiftr (Z.land (schar a) 252) 2);
   at_tab (Z.shiftl (Z.land (schar a) 3) 4 + Z.shiftr (Z.land (schar b) 240) 4);
   at_tab (Z.shiftr (Z.land (schar c) 192) 6 + Z.shiftl (Z.land (schar b) 15) 2);
   at_tab (Z.land (schar c) 63)].

Definition group2 (a b : ascii) : str :=
  [at_tab (Z.shiftr (Z.land (schar a) 252) 2);
   at_tab (Z.shiftl (Z.land (schar a) 3) 4 + Z.shiftr (Z.land (schar b) 240) 4);
   at_tab (Z.shiftl (Z.land (schar b) 15) 2);
   "="%char].

Definition group1 (a : ascii) : str :=
  [at_tab (Z.shiftr (Z.land (schar a) 252) 2);
   at_tab (Z.shiftl (Z.land (schar a) 3) 4);
   "="%char; "="%char].

Fixpoint base64_encode (dest src : str) : str :=
  match src with
  | a :: b :: c :: src => base64_encode (dest ++ group3 a b c) src
  | [a; b] => dest ++ group2 a b
  | [a] => dest ++ group1 a
  | [] => dest
  end.

(** ** mime_type *)

(** path.substr(path.rfind(".")), or nothing. *)
Fixpoint extension (path : str) : str :=
  match path with
  | [] => []
  | c :: t => if contains "." t then extension t else if c =c "." then path else []
  end.

Section Text.
Context `{Grammar}.

Definition mime_type (path : str) : str :=
  let ext := extension path in
  if ci_is_equal ext $".gif" then $"image/gif"
  else if ci_is_equal ext $".jpg" then $"image/jpeg"
  else if ci_is_equal ext $".jpeg" then $"image/jpeg"
  else if ci_is_equal ext $".png" then $"image/png"
  else if ci_is_equal ext $".svg" then $"image/svg+xml"
  else if ci_is_equal ext $".txt" then $"text/plain"
  else if ci_is_equal ext $".htm" then $"text/html"
  else if ci_is_equal ext $".html" then $"text/html"
  else if ci_is_equal ext $".pdf" then $"application/pdf"
  else if ci_is_equal ext $".xml" then $"application/xml"
  else $"application/octet-stream".

(** ** Quoted strings *)

Definition attr_char (c : ascii) : bool :=
  alnum_chars c ||
  (c =c "!") || (c =c "#") || (c =c "$") || (c =c "&") || (c =c "+") ||
  (c =c "-") || (c =c ".") || (c =c "^") || (c =c "_") || (c =c "`") ||
  (c =c "|") || (c =c "~").

Definition value_char (c : ascii) : bool := attr_char c || (c =c "%").

(** The loop that looks for the closing quote, from [it]; [acc] is the text
    passed so far.  At the end of the text [*it] is read all the same. *)
Fixpoint to_close (acc s : str) : comp (error * str) (str * str) :=
  match s with
  | [] => UB
  | c :: t =>
      if c =c "034" then Ok (acc ++ [c], t)
      else if c =c "\" then
        match t with
        | [] => UB
        | d :: t => to_close (acc ++ [c; d]) t
        end
      else to_close (acc ++ [c]) t
  end.

(** quoted_string_t::parse: the value includes the quotes. *)
Definition quoted_string : rule str := fun s =>
  match s with
  | [] => Err (need_more, s)
  | c :: t => if c =c "034" then to_close [c] t else Err (mismatch, t)
  end.

(** The loop of unquote_string. *)
Fixpoint unescape (s : str) : comp exn str :=
  match s with
  | [] => Ok []
  | c :: t =>
      if c =c "\" then
        match t with
        | [] => UB
        | d :: t => u ← unescape t; Ok (d :: u)
        end
      else u ← unescape t; Ok (c :: u)
  end.

(** remove_prefix and remove_suffix need a char to remove. *)
Definition unquote_string (sv : str) : comp exn str :=
  match sv with
  | [] => UB
  | _ :: t => match t with [] => UB | _ => unescape (removelast t) end
  end.

(** ** extract_filename_form_content_disposition *)

Definition value_rule : rule (str + str) :=
  variant_rule (aor quoted_string (aone (token_rule value_char))).

Definition disposition_rule : rule (str * option (str + str)) :=
  tuple_rule
    (rskip (optional_rule (delim_rule (one ";")))
    (rskip (optional_rule (delim_rule (one " ")))
    (rcons (token_rule attr_char)
    (rskip (optional_rule (delim_rule (one "=")))
    (rone (optional_rule value_rule)))))).

Fixpoint find_filename (l : list (str * option (str + str))) : comp exn (option str) :=
  match l with
  | [] => Ok None
  | (name, value) :: l =>
      match value with
      | Some v =>
          if name =s $"filename" then
            match v with
            | inl q => u ← unquote_string q; Ok (Some u)
            | inr t => Ok (Some t)
            end
          else find_filename l
      | None => find_filename l
      end
  end.

Definition extract_filename_form_content_disposition (sv : str) : comp exn (option str) :=
  match parse (range_rule disposition_rule) sv with
  | Err _ => Ok None
  | UB => UB
  | Ok l => find_filename l
  end.

(** ** normalize_and_parse_url *)

Definition scheme_rule : rule (str * (str * str)) :=
  tuple_rule
    (rcons (token_rule (cs_plus alnum_chars (lut_chars $"+-.")))
    (rcons (delim_rule (one ":"))
    (rone (token_rule all_chars)))).

Definition with_scheme (s : str) : str :=
  match parse scheme_rule s with
  | Ok _ => s
  | _ => $"http://" ++ s
  end.

(** parse_uri, and urls::url{...}.normalize() of what it gives. *)
Definition normalize_and_parse_url {url} (parse_uri : str -> option url)
    (normalize : url -> url) (s : str) : option url :=
  normalize <$> parse_uri (with_scheme s).

End Text.

(** ** base64 as RFC 4648 has it *)

(** Table 1 of the RFC, and its inverse. *)
Definition digit (v : Z) : ascii :=
  if v <? 26 then chr (65 + v) else if v <? 52 then chr (97 + (v - 26))
  else if v <? 62 then chr (48 + (v - 52)) else if v =? 62 then "+"%char else "/"%char.

Definition sextet (c : ascii) : option Z :=
  let n := uchar c in
  if (65 <=? n) && (n <=? 90) then Some (n - 65)
  else if (97 <=? n) && (n <=? 122) then Some (n - 97 + 26)
  else if (48 <=? n) && (n <=? 57) then Some (n - 48 + 52)
  else if c =c "+" then Some 62 else if c =c "/" then Some 63 else None.

(** Groups of 24 bits are four digits; a last group of 16 or 8 bits gets zero bits
    up to a multiple of six, and padding. *)
Fixpoint rfc_encode (s : str) : str :=
  match s with
  | a :: b :: c :: s =>
      let n := uchar a * 65536 + uchar b * 256 + uchar c in
      [digit (n / 262144); digit (n / 4096 mod 64); digit (n / 64 mod 64); digit (n mod 64)] ++
      rfc_encode s
  | [a; b] =>
      let n := (uchar a * 256 + uchar b) * 4 in
      [digit (n / 4096); digit (n / 64 mod 64); digit (n mod 64); "="%char]
  | [a] =>
      let n := uchar a * 16 in [digit (n / 64); digit (n mod 64); "="%char; "="%char]
  | [] => []
  end.

(** A decoder that refuses what is no encoding: other chars, padding that is not at
    the end, bits that are not zero. *)
Definition decode4 (w x y z : ascii) (final : bool) : option str :=
  match sextet w, sextet x, sextet y, sextet z with
  | Some p, Some q, Some r, Some t =>
      let n := p * 262144 + q * 4096 + r * 64 + t in
      Some [chr (n / 65536); chr (n / 256); chr n]
  | Some p, Some q, Some r, None =>
      let n := p * 4096 + q * 64 + r in
      if final && (z =c "=") && (n mod 4 =? 0) then Some [chr (n / 1024); chr (n / 4)] else None
  | Some p, Some q, None, None =>
      let n := p * 64 + q in
      if final && (y =c "=") && (z =c "=") && (n mod 16 =? 0) then Some [chr (n / 16)] else None
  | _, _, _, _ => None
  end.

Fixpoint rfc_decode (s : str) : option str :=
  match s with
  | [] => Some []
  | w :: x :: y :: z :: s =>
      match decode4 w x y z (match s with [] => true | _ => false end), rfc_decode s with
      | Some bytes, Some rest => Some (bytes ++ rest)
      | _, _ => None
      end
  | _ => None
  end.

(** The test vectors of section 10. *)
Example rfc_vectors :
  map rfc_encode [[]; $"f"; $"fo"; $"foo"; $"foob"; $"fooba"; $"foobar"] =
  [[]; $"Zg=="; $"Zm8="; $"Zm9v"; $"Zm9vYg=="; $"Zm9vYmE="; $"Zm9vYmFy"].
Proof. reflexivity. Qed.

Lemma for_sextets (f : Z -> bool) :
  forallb (fun n => f (Z.of_nat n)) (seq 0 64) = true -> forall i, 0 <= i < 64 -> f i = true.
Proof.
  rewrite forallb_forall. intros HF i Hi. specialize (HF (Z.to_nat i)).
  rewrite Z2Nat.id in HF by lia. apply HF, in_seq. lia.
Qed.

Lemma at_tab_digit i : 0 <= i < 64 -> at_tab i = digit i.
Proof.
  intros Hi. apply Ascii.eqb_eq. revert i Hi.
  by apply (for_sextets (fun i => Ascii.eqb (at_tab i) (digit i))).
Qed.

Lemma sextet_digit i : 0 <= i < 64 -> sextet (digit i) = Some i.
Proof.
  intros Hi. apply (bool_decide_eq_true (sextet (digit i) = Some i)). revert i Hi.
  by apply (for_sextets (fun i => bool_decide (sextet (digit i) = Some i))).
Qed.

(** The masks see the same bits of a char and of its unsigned value. *)
Lemma schar_land c m : 0 <= m < 256 -> Z.land (schar c) m = Z.land (uchar c) m.
Proof.
  intros Hm. unfold schar. destruct (uchar c <? 128); [done|].
  apply Z.bits_inj'. intros n Hn. rewrite !Z.land_spec.
  destruct (Z.ltb_spec n 8).
  - f_equal. rewrite <- (Z.mod_pow2_bits_low (uchar c - 256) 8 n) by lia.
    rewrite <- (Z.mod_pow2_bits_low (uchar c) 8 n) by lia. f_equal.
    change (2 ^ 8) with 256. replace (uchar c - 256) with (uchar c + (-1) * 256) by lia.
    apply Z_mod_plus_full.
  - assert (Z.testbit m n = false) as ->.
    { rewrite Z.testbit_false by lia. rewrite Z.div_small; [done|].
      split; [lia|]. apply Z.lt_le_trans with (2 ^ 8); [lia|]. apply Z.pow_le_mono_r; lia. }
    by rewrite !andb_false_r.
Qed.

Lemma bits_252 x : 0 <= x < 256 -> Z.shiftr (Z.land x 252) 2 = x / 4.
Proof.
  intros Hx. rewrite Z.shiftr_land. change (Z.shiftr 252 2) with (Z.ones 6).
  rewrite Z.land_ones, Z.shiftr_div_pow2 by lia. change (2 ^ 2) with 4. change (2 ^ 6) with 64.
  apply Z.mod_small. split; [apply Z.div_pos; lia|apply Z.div_lt_upper_bound; lia].
Qed.

Lemma bits_3 x : Z.shiftl (Z.land x 3) 4 = x mod 4 * 16.
Proof. change 3 with (Z.ones 2). by rewrite Z.land_ones, Z.shiftl_mul_pow2 by lia. Qed.

Lemma bits_240 x : 0 <= x < 256 -> Z.shiftr (Z.land x 240) 4 = x / 16.
Proof.
  intros Hx. rewrite Z.shiftr_land. change (Z.shiftr 240 4) with (Z.ones 4).
  rewrite Z.land_ones, Z.shiftr_div_pow2 by lia. change (2 ^ 4) with 16.
  apply Z.mod_small. split; [apply Z.div_pos; lia|apply Z.div_lt_upper_bound; lia].
Qed.

Lemma bits_15 x : Z.shiftl (Z.land x 15) 2 = x mod 16 * 4.
Proof. change 15 with (Z.ones 4). by rewrite Z.land_ones, Z.shiftl_mul_pow2 by lia. Qed.

Lemma bits_192 x : 0 <= x < 256 -> Z.shiftr (Z.land x 192) 6 = x / 64.
Proof.
  intros Hx. rewrite Z.shiftr_land. change (Z.shiftr 192 6) with (Z.ones 2).
  rewrite Z.land_ones, Z.shiftr_div_pow2 by lia. change (2 ^ 6) with 64. change (2 ^ 2) with 4.
  apply Z.mod_small. split; [apply Z.div_pos; lia|apply Z.div_lt_upper_bound; lia].
Qed.

Lemma bits_63 x : Z.land x 63 = x mod 64.
Proof. change 63 with (Z.ones 6). by rewrite Z.land_ones by lia. Qed.

Lemma chr_mod a b : a mod 256 = b mod 256 -> chr a = chr b.
Proof. unfold chr. by intros ->. Qed.

Ltac divisions := Z.to_euclidean_division_equations; lia.

(** Four digits of 24 bits. *)
Lemma digits24 a b c : 0 <= a < 256 -> 0 <= b < 256 -> 0 <= c < 256 ->
  let n := a * 65536 + b * 256 + c in
  a / 4 = n / 262144 /\ a mod 4 * 16 + b / 16 = n / 4096 mod 64 /\
  c / 64 + b mod 16 * 4 = n / 64 mod 64 /\ c mod 64 = n mod 64.
Proof. intros Ha Hb Hc n. unfold n. repeat split; divisions. Qed.

Lemma group3_rfc a b c s : group3 a b c ++ rfc_encode s = rfc_encode (a :: b :: c :: s).
Proof.
  pose proof (uchar_range a) as Ha. pose proof (uchar_range b) as Hb.
  pose proof (uchar_range c) as Hc.
  unfold group3. rewrite !schar_land by lia.
  rewrite bits_252, bits_3, bits_240, bits_192, bits_15, bits_63 by done.
  rewrite !at_tab_digit by divisions. cbn [rfc_encode app].
  destruct (digits24 _ _ _ Ha Hb Hc) as (-> & -> & -> & ->). done.
Qed.

Lemma group2_rfc a b : group2 a b = rfc_encode [a; b].
Proof.
  pose proof (uchar_range a) as Ha. pose proof (uchar_range b) as Hb.
  unfold group2. rewrite !schar_land by lia. rewrite bits_252, bits_3, bits_240, bits_15 by done.
  rewrite !at_tab_digit by divisions. cbn [rfc_encode].
  do 2 (f_equal; [f_equal; divisions|]). do 2 f_equal. divisions.
Qed.

Lemma group1_rfc a : group1 a = rfc_encode [a].
Proof.
  pose proof (uchar_range a) as Ha.
  unfold group1. rewrite !schar_land by lia. rewrite bits_252, bits_3 by done.
  rewrite !at_tab_digit by divisions. cbn [rfc_encode].
  f_equal; [f_equal; divisions|]. do 2 f_equal. divisions.
Qed.

(** Induction three chars at a time, as the loop goes. *)
Lemma by_three (P : str -> Prop) :
  P [] -> (forall a, P [a]) -> (forall a b, P [a; b]) ->
  (forall a b c s, P s -> P (a :: b :: c :: s)) -> forall s, P s.
Proof.
  intros H0 H1 H2 H3 s.
  assert (P s /\ (forall a, P (a :: s)) /\ (forall a b, P (a :: b :: s))) as [? _]; [|done].
  induction s as [|x s (IH0 & IH1 & IH2)]; repeat split; auto.
Qed.

Lemma base64_encode_rfc dest src : base64_encode dest src = dest ++ rfc_encode src.
Proof.
  revert dest. induction src as [|a|a b|a b c s IH] using by_three; intros dest.
  - by rewrite app_nil_r.
  - cbn [base64_encode]. by rewrite group1_rfc.
  - cbn [base64_encode]. by rewrite group2_rfc.
  - cbn [base64_encode]. by rewrite IH, <- app_assoc, group3_rfc.
Qed.

(** The bytes of a group. *)
Lemma chr_uchar_eq c n : n mod 256 = uchar c -> chr n = c.
Proof.
  intros Hn. rewrite <- (chr_uchar c). apply chr_mod. rewrite Hn.
  symmetry. apply Z.mod_small, uchar_range.
Qed.

Lemma rfc_decode_encode src :
  rfc_decode (rfc_encode src) = Some src /\
  length (rfc_encode src) = (4 * ((length src + 2) / 3))%nat.
Proof.
  induction src as [|a|a b|a b c s [IH IHl]] using by_three; [done|..].
  - pose proof (uchar_range a) as Ha. split; [|done]. cbn [rfc_encode rfc_decode decode4].
    unfold decode4. rewrite !sextet_digit by divisions.
    change (sextet "=") with (@None Z). cbn [andb Ascii.eqb Bool.eqb].
    rewrite (proj2 (Z.eqb_eq _ 0)) by divisions. rewrite (chr_uchar_eq a) by divisions. done.
  - pose proof (uchar_range a) as Ha. pose proof (uchar_range b) as Hb. split; [|done].
    cbn [rfc_encode rfc_decode]. unfold decode4. rewrite !sextet_digit by divisions.
    change (sextet "=") with (@None Z). cbn [andb Ascii.eqb Bool.eqb].
    rewrite (proj2 (Z.eqb_eq _ 0)) by divisions.
    rewrite (chr_uchar_eq a), (chr_uchar_eq b) by divisions. done.
  - pose proof (uchar_range a) as Ha. pose proof (uchar_range b) as Hb.
    pose proof (uchar_range c) as Hc. cbn [rfc_encode app]. split.
    + cbn [rfc_decode]. unfold decode4. rewrite !sextet_digit by divisions. rewrite IH.
      rewrite (chr_uchar_eq a), (chr_uchar_eq b), (chr_uchar_eq c) by divisions. done.
    + cbn [length]. rewrite IHl.
      replace (S (S (S (length s))) + 2)%nat with (length s + 2 + 1 * 3)%nat by lia.
      rewrite Nat.div_add by lia. lia.
Qed.

(** ** Quoted strings *)

(** What may stand between the quotes. *)
Inductive body : str -> Prop :=
| body_nil : body []
| body_char c t : (c =c "034") = false -> (c =c "\") = false -> body t -> body (c :: t)
| body_escape d t : body t -> body ("\"%char :: d :: t).

Lemma to_close_body b : body b -> forall acc t,
  to_close acc (b ++ "034"%char :: t) = Ok (acc ++ b ++ ["034"%char], t).
Proof.
  induction 1 as [|c b Hq Hb _ IH|d b _ IH]; intros acc t; cbn [app to_close]; [done| |].
  - rewrite Hq, Hb, IH. by rewrite <- app_assoc.
  - cbn. rewrite IH. by rewrite <- app_assoc.
Qed.

(** The text is either closed, or the loop leaves it. *)
Lemma to_close_cases s :
  (exists b t, body b /\ s = b ++ "034"%char :: t) \/
  ((forall acc, to_close acc s = UB) /\ forall b t, body b -> s <> b ++ "034"%char :: t).
Proof.
  assert (forall n s, (length s <= n)%nat ->
    (exists b t, body b /\ s = b ++ "034"%char :: t) \/
    ((forall acc, to_close acc s = UB) /\ forall b t, body b -> s <> b ++ "034"%char :: t))
    as H; [|by apply (H (length s))].
  clear s. induction n as [|n IH]; intros [|c s] Hn; simpl in Hn; try lia.
  1, 2: right; split; [done|]; by intros [|? ?] t _.
  destruct (c =c "034") eqn:Hq.
  - apply Ascii.eqb_eq in Hq as ->. left. exists [], s. split; [constructor|done].
  - destruct (c =c "\") eqn:Hb.
    + apply Ascii.eqb_eq in Hb as ->. destruct s as [|d s].
      * right. split; [done|]. intros b t Hbody HE. destruct Hbody; simplify_eq/=.
      * destruct (IH s) as [(b & t & Hbody & ->)|[HU HN]]; [simpl in Hn; lia| |].
        -- left. exists ("\"%char :: d :: b), t. split; [by constructor|done].
        -- right. split; [intros acc; cbn; apply HU|].
           intros b t Hbody HE. destruct Hbody as [|c b Hc1 Hc2 Hbody|d' b Hbody];
             simplify_eq/=. by eapply HN.
    + destruct (IH s) as [(b & t & Hbody & ->)|[HU HN]]; [lia| |].
      * left. exists (c :: b), t. split; [by constructor|done].
      * right. split; [intros acc; cbn [to_close]; rewrite Hq, Hb; apply HU|].
        intros b t Hbody HE. destruct Hbody as [|c' b Hc1 Hc2 Hbody|d' b Hbody]; simplify_eq/=.
        by eapply HN.
Qed.

Lemma unescape_body b : body b -> exists u, unescape b = Ok u.
Proof.
  induction 1 as [|c b Hq Hb _ (u & IH)|d b _ (u & IH)]; [by eexists|..]; cbn.
  - rewrite Hb, IH. by eexists.
  - rewrite IH. by eexists.
Qed.

Lemma unquote_body b : unquote_string ("034"%char :: b ++ ["034"%char]) = unescape b.
Proof.
  unfold unquote_string. destruct (b ++ ["034"%char]) as [|c t] eqn:E; [by destruct b|].
  by rewrite <- E, removelast_last.
Qed.

(** A text between quotes, its quotes and backslashes escaped. *)
Fixpoint escape (s : str) : str :=
  match s with
  | [] => []
  | c :: t => if (c =c "034") || (c =c "\") then "\"%char :: c :: escape t else c :: escape t
  end.
Definition quote (s : str) : str := "034"%char :: escape s ++ ["034"%char].

Lemma escape_body s : body (escape s).
Proof.
  induction s as [|c s IH]; [constructor|]. cbn [escape].
  destruct (c =c "034") eqn:Hq, (c =c "\") eqn:Hb; simpl; by constructor.
Qed.

Lemma unescape_escape s : unescape (escape s) = Ok s.
Proof.
  induction s as [|c s IH]; [done|]. cbn [escape].
  destruct (c =c "034") eqn:Hq, (c =c "\") eqn:Hb; cbn; rewrite ?Hb, IH; done.
Qed.

Lemma quoted_string_body b t :
  body b ->
  quoted_string ("034"%char :: b ++ "034"%char :: t) = Ok ("034"%char :: b ++ ["034"%char], t).
Proof. intros Hb. unfold quoted_string. simpl. by rewrite to_close_body. Qed.

Lemma quoted_string_quote s t : quoted_string (quote s ++ t) = Ok (quote s, t).
Proof.
  unfold quote. cbn [app]. rewrite <- app_assoc. cbn [app].
  apply quoted_string_body, escape_body.
Qed.

(** ** Content-Disposition *)

Definition attr_doc_char (c : ascii) : bool :=
  (is_alpha c || is_digit c) ||
  (c =c "!") || (c =c "#") || (c =c "$") || (c =c "&") || (c =c "+") ||
  (c =c "-") || (c =c ".") || (c =c "^") || (c =c "_") || (c =c "`") ||
  (c =c "|") || (c =c "~").
Definition value_doc_char (c : ascii) : bool := attr_doc_char c || (c =c "%").

Definition value_doc : rule (str + str) :=
  variant_doc (aor quoted_string (aone (token_doc value_doc_char))).
Definition disposition_doc : rule (str * option (str + str)) :=
  tuple_doc
    (rskip (optional_doc (delim_doc (one ";")))
    (rskip (optional_doc (delim_doc (one " ")))
    (rcons (token_doc attr_doc_char)
    (rskip (optional_doc (delim_doc (one "=")))
    (rone (optional_doc value_doc)))))).

Lemma quoted_string_repeatable : repeatable quoted_string.
Proof.
  assert (forall n acc s, (length s <= n)%nat ->
    (forall q t, to_close acc s = Ok (q, t) -> (length t < length s)%nat) /\
    (forall e u, to_close acc s = Err (e, u) -> e <> end_of_range)) as H.
  { intros n. induction n as [|n IH]; intros acc [|c s] Hn; simpl in Hn; try lia; try done.
    cbn [to_close]. destruct (c =c "034"); [split; intros; simplify_eq; simpl; lia|].
    destruct (c =c "\").
    - destruct s as [|d s]; [done|].
      destruct (IH (acc ++ [c; d]) s) as [H1 H2]; [simpl in Hn; lia|].
      split; [|done]. intros q t HE. apply H1 in HE. simpl. lia.
    - destruct (IH (acc ++ [c]) s) as [H1 H2]; [lia|].
      split; [|done]. intros q t HE. apply H1 in HE. simpl. lia. }
  unfold quoted_string. split.
  - intros [|c s] q t HE; [done|]. destruct (c =c "034"); [|done].
    apply (H (length s)) in HE; [simpl; lia|lia].
  - intros [|c s] e u HE; [by simplify_eq|]. destruct (c =c "034"); [|by simplify_eq].
    by apply (H (length s)) in HE.
Qed.

#[local] Hint Resolve quoted_string_repeatable : grammar.

Lemma disposition_repeatable : repeatable disposition_doc.
Proof. unfold disposition_doc, value_doc. auto 20 with grammar. Qed.

Lemma rule_agree_refl {A} (r : rule A) : r ≈p r.
Proof. by intros s. Qed.

Section Disposition.
Context `{GL : GrammarLaws}.

Lemma attr_char_doc c : attr_char c = attr_doc_char c.
Proof. unfold attr_char, attr_doc_char. by rewrite alnum_chars_law. Qed.

Lemma value_char_doc c : value_char c = value_doc_char c.
Proof. unfold value_char, value_doc_char. by rewrite attr_char_doc. Qed.

#[local] Hint Resolve attr_char_doc value_char_doc rule_agree_refl : grammar.

Lemma disposition_agree : range_rule disposition_rule ≈p range_doc disposition_doc.
Proof.
  apply range_agree; [apply disposition_repeatable|].
  unfold disposition_rule, disposition_doc, value_rule, value_doc. auto 20 with grammar.
Qed.

Lemma parse_disposition s l :
  reps disposition_doc s l [] -> parse (range_rule disposition_rule) s = Ok l.
Proof.
  intros HR. pose proof (parse_agree _ _ s disposition_agree) as HP.
  unfold parse_doc, range_doc in HP. rewrite (range_loop_reps _ _ _ _ HR) in HP by lia.
  destruct (parse _ s); simpl in HP; try done. by subst.
Qed.

End Disposition.

(** A parameter's value: any text between quotes, or a token. *)
Definition print_value (v : str + str) : str :=
  match v with inl s => quote s | inr t => t end.

Definition parsed_value (v : str + str) : str + str :=
  match v with inl s => inl (quote s) | inr t => inr t end.

Definition print_param (p : str * (str + str)) : str :=
  $"; " ++ fst p ++ $"=" ++ print_value (snd p).

Definition print_disposition (kind : str) (ps : list (str * (str + str))) : str :=
  kind ++ concat (map print_param ps).

Definition is_token (p : ascii -> bool) (s : str) : Prop := s <> [] /\ forallb p s = true.

Definition is_param (p : str * (str + str)) : Prop :=
  is_token attr_doc_char (fst p) /\
  match snd p with inl _ => True | inr t => is_token value_doc_char t end.

Lemma value_doc_print v t :
  match v with inl _ => True | inr t => is_token value_doc_char t end ->
  stops value_doc_char t = true ->
  optional_doc value_doc (print_value v ++ t) = Ok (Some (parsed_value v), t).
Proof.
  intros Hv Ht. unfold optional_doc, value_doc. cbn [variant_doc]. destruct v as [s|w]; simpl print_value.
  - by rewrite quoted_string_quote.
  - destruct Hv as [Hw Hc]. rewrite token_doc_app by done. destruct w as [|c w]; [done|].
    cbn [app quoted_string]. destruct (c =c "034") eqn:Hq; [|done].
    apply Ascii.eqb_eq in Hq as ->. done.
Qed.

Lemma params_stop ps p : p ";"%char = false -> stops p (concat (map print_param ps)) = true.
Proof. intros Hp. destruct ps; [done|]. simpl. by rewrite Hp. Qed.

Lemma param_doc_print p t :
  is_param p -> stops value_doc_char t = true ->
  disposition_doc (print_param p ++ t) = Ok ((fst p, Some (parsed_value (snd p))), t).
Proof.
  destruct p as [n v]. intros [[Hn Hc] Hv] Ht. simpl in Hn, Hc, Hv.
  unfold disposition_doc, print_param. cbn [tuple_doc fst snd]. rewrite <- !app_assoc.
  change ($"; " ++ ?x) with (";"%char :: " "%char :: x).
  rewrite optional_delim_cons. cbn [mbind comp_bind].
  rewrite optional_delim_cons. cbn [mbind comp_bind].
  change ($"=" ++ ?x) with ("="%char :: x).
  rewrite token_doc_app by done. cbn [mbind comp_bind].
  rewrite optional_delim_cons. cbn [mbind comp_bind].
  by rewrite value_doc_print.
Qed.

Lemma kind_doc_print kind ps :
  is_token attr_doc_char kind ->
  disposition_doc (print_disposition kind ps) = Ok ((kind, None), concat (map print_param ps)).
Proof.
  intros [Hk Hc]. unfold disposition_doc, print_disposition. cbn [tuple_doc].
  assert (forall d, attr_doc_char d = false ->
    stops (one d) (kind ++ concat (map print_param ps)) = true) as Hd.
  { intros d Hd. destruct kind as [|c kind]; [done|]. simpl in *. unfold one.
    apply andb_true_iff in Hc as [Hc _]. apply negb_true_iff, Ascii.eqb_neq.
    intros ->. congruence. }
  rewrite optional_delim_stop by by apply Hd. cbn [mbind comp_bind].
  rewrite optional_delim_stop by by apply Hd. cbn [mbind comp_bind].
  rewrite token_doc_app by (done || by apply params_stop). cbn [mbind comp_bind].
  rewrite optional_delim_stop by by apply params_stop. cbn [mbind comp_bind].
  destruct ps; reflexivity.
Qed.

Lemma params_reps ps :
  Forall is_param ps ->
  reps disposition_doc (concat (map print_param ps))
    (map (fun p => (fst p, Some (parsed_value (snd p)))) ps) [].
Proof.
  induction 1 as [|p ps Hp _ IH]; [by eapply reps_nil|]. cbn [map concat].
  apply reps_cons with (t := concat (map print_param ps)); [| |exact IH].
  - apply param_doc_print; [done|]. by apply params_stop.
  - rewrite length_app. unfold print_param. simpl. lia.
Qed.

Lemma disposition_reps kind ps :
  is_token attr_doc_char kind -> Forall is_param ps ->
  reps disposition_doc (print_disposition kind ps)
    ((kind, None) :: map (fun p => (fst p, Some (parsed_value (snd p)))) ps) [].
Proof.
  intros Hk Hp. apply reps_cons with (t := concat (map print_param ps)).
  - by apply kind_doc_print.
  - unfold print_disposition. rewrite length_app. destruct Hk as [Hk _].
    destruct kind; [done|simpl; lia].
  - by apply params_reps.
Qed.

(** The value of the first parameter called filename. *)
Fixpoint first_filename (ps : list (str * (str + str))) : option str :=
  match ps with
  | [] => None
  | (n, v) :: ps =>
      if n =s $"filename" then Some (match v with inl s => s | inr t => t end)
      else first_filename ps
  end.

Lemma find_filename_params ps :
  find_filename (map (fun p => (fst p, Some (parsed_value (snd p)))) ps) =
  Ok (first_filename ps).
Proof.
  induction ps as [|[n v] ps IH]; [done|]. cbn [map find_filename first_filename fst snd].
  case_bool_decide; [|done]. destruct v as [s|t]; [|done]. simpl parsed_value. cbn iota.
  unfold quote. by rewrite unquote_body, unescape_escape.
Qed.

(** ** Properties *)

(** C32: base64_encode appends to its destination the RFC 4648 encoding of the
    source, alphabet, zero bits and padding included, for every sequence of
    (signed) chars; a decoder that refuses anything else gives the source back,
    and four chars are written for every three started. *)
Theorem base64_roundtrip dest src :
  exists e, base64_encode dest src = dest ++ e /\ e = rfc_encode src /\
    rfc_decode e = Some src /\ length e = (4 * ((length src + 2) / 3))%nat.
Proof.
  exists (rfc_encode src). split; [apply base64_encode_rfc|]. split; [done|].
  apply rfc_decode_encode.
Qed.

(** C33: quoted_string accepts exactly the texts whose quote is closed by an
    unescaped quote, and then unquote_string is defined on what it returns; on
    any other text that starts with a quote it reads past the end. *)
Theorem quoted_string_defined_iff_closed s :
  (exists b t u, body b /\ s = b ++ "034"%char :: t /\
     quoted_string ("034"%char :: s) = Ok ("034"%char :: b ++ ["034"%char], t) /\
     unquote_string ("034"%char :: b ++ ["034"%char]) = Ok u) \/
  (quoted_string ("034"%char :: s) = UB /\ forall b t, body b -> s <> b ++ "034"%char :: t).
Proof.
  destruct (to_close_cases s) as [(b & t & Hb & ->)|[HU HN]].
  - left. destruct (unescape_body b Hb) as [u Hu]. exists b, t, u.
    by rewrite quoted_string_body, unquote_body.
  - right. split; [|done]. apply (HU ["034"%char]).
Qed.

(** C34: from a well-formed Content-Disposition, whatever its parameters and
    the chars in their quoted values, the text of the first filename parameter
    is extracted, unescaped. *)
Theorem content_disposition_filename `{GrammarLaws} kind ps :
  is_token attr_doc_char kind -> Forall is_param ps ->
  extract_filename_form_content_disposition (print_disposition kind ps) =
    Ok (first_filename ps).
Proof.
  intros Hk Hp. unfold extract_filename_form_content_disposition.
  rewrite (parse_disposition _ _ (disposition_reps kind ps Hk Hp)).
  cbn [find_filename]. apply find_filename_params.
Qed.

Lemma content_disposition_filename_witness :
  let ps := [($"name", inr $"x"); ($"filename", inl ($"a" ++ ["034"%char] ++ $"b c"))] in
  extract_filename_form_content_disposition (H := doc_grammar)
    (print_disposition $"attachment" ps) = Ok (first_filename ps).
Proof.
  apply (@content_disposition_filename doc_grammar doc_grammar_laws).
  - by split.
  - repeat constructor; done.
Defined.

(** A server that does not close the quote makes the client read past the end
    of the header value. *)
Lemma unclosed_filename_undefined `{GrammarLaws} :
  extract_filename_form_content_disposition ($"filename=" ++ ["034"%char; "a"%char]) = UB.
Proof.
  unfold extract_filename_form_content_disposition.
  pose proof (parse_agree _ _ ($"filename=" ++ ["034"%char; "a"%char]) disposition_agree) as HP.
  change (parse_doc (range_doc disposition_doc) ($"filename=" ++ ["034"%char; "a"%char]))
    with (@UB error (list (str * option (str + str)))) in HP.
  by destruct (parse _ _).
Qed.

(** host:port without a scheme is taken for a scheme. *)
Lemma host_port_taken_for_scheme `{GrammarLaws} :
  with_scheme $"localhost:8080" = $"localhost:8080".
Proof.
  unfold with_scheme.
  assert (scheme_rule ≈p tuple_doc
    (rcons (token_doc (fun c => is_alpha c || is_digit c || contains c $"+-."))
    (rcons (delim_doc (one ":")) (rone (token_doc (fun _ => true)))))) as HA.
  { unfold scheme_rule. apply tuple_agree. constructor; [|constructor; [|constructor]].
    - apply token_agree. intros c. unfold cs_plus. by rewrite alnum_chars_law, lut_chars_law.
    - by apply delim_agree.
    - apply token_agree, all_chars_law. }
  pose proof (parse_agree _ _ $"localhost:8080" HA) as HP.
  destruct (parse scheme_rule $"localhost:8080"); [done| |]; by vm_compute in HP.
Qed.

(** ** format_size *)

(** Floating point numbers, and what the standard library does with them. *)
Class Cmath := {
  float : Type;
  of_int : Z -> float;                   (* static_cast<double> *)
  log2 : float -> float;
  log10 : float -> float;
  pow : float -> float -> float;
  divide : float -> float -> float;
  truncate : float -> Z;                 (* conversion to an integer type *)
  fixed : Z -> float -> str              (* std::fixed, with this precision *)
}.

Definition units : list str := [$"B"; $"KB"; $"MB"; $"GB"; $"TB"; $"PB"; $"EB"].

(** The argument is a std::uint64_t; an index past the units is undefined. *)
Definition format_size `{Cmath} (size width : Z) : comp exn str :=
  let size := u64 size in
  if size =? 0 then Ok $"0 B"
  else
    let order := truncate (divide (log2 (of_int size)) (of_int 10)) in
    let scaled := divide (of_int size) (pow (of_int 1024) (of_int order)) in
    let ints := truncate (log10 scaled) + 1 in
    let fracs := Z.max (width - ints - 1) 0 in
    if order <? 0 then UB
    else match units !! Z.to_nat order with
         | Some u => Ok (fixed fracs scaled ++ $" " ++ u)
         | None => UB
         end.

(** Conversion, logarithm, division by ten and truncation are monotone, and exact
    where they meet powers of two. *)
Class CmathLaws `{Cmath} := {
  fle : float -> float -> Prop;
  of_int_mono a b : 0 < a <= b -> fle (of_int a) (of_int b);
  log2_mono x y : fle (of_int 1) x -> fle x y -> fle (log2 x) (log2 y);
  divide_mono x y : fle x y -> fle (divide x (of_int 10)) (divide y (of_int 10));
  truncate_mono x y : fle x y -> truncate x <= truncate y;
  log2_one : truncate (divide (log2 (of_int 1)) (of_int 10)) = 0;
  log2_max : truncate (divide (log2 (of_int (2 ^ 64))) (of_int 10)) = 64 / 10
}.

(** The unit of a size is always one of the table. *)
Lemma format_size_defined `{CmathLaws} size width : exists s, format_size size width = Ok s.
Proof.
  unfold format_size. pose proof (wrap_range 64 size ltac:(lia)) as Hr.
  set (n := u64 size) in *. destruct (Z.eqb_spec n 0) as [|Hn]; [by eexists|].
  set (order := truncate _).
  assert (truncate (divide (log2 (of_int 1)) (of_int 10)) <= order) as Hlo.
  { apply truncate_mono, divide_mono, log2_mono; apply of_int_mono; lia. }
  assert (order <= truncate (divide (log2 (of_int (2 ^ 64))) (of_int 10))) as Hhi.
  { apply truncate_mono, divide_mono, log2_mono; apply of_int_mono; lia. }
  rewrite log2_one in Hlo. rewrite log2_max in Hhi. change (64 / 10) with 6 in Hhi.
  destruct (Z.ltb_spec order 0); [lia|].
  destruct (lookup_lt_is_Some_2 units (Z.to_nat order)) as [u ->]; [simpl; lia|].
  by eexists.
Qed.

End Utils.
