(* ===== verification/Options.v ===== *)
(** Command line options of burl (example/client/burl/options.cpp).

    Boost.Program_options gives a map of typed values and the list of the parsed
    options in the order of the command line; parse_args is the function of both.
    The class [Libs] has what parse_args calls in other libraries (Boost.URL,
    OpenSSL through Asio, floating point conversions, reading a file).

    parse_args assigns the members of one operation_config in turn; here each
    group of assignments gives the values of its members, in the order of the
    source, and the record is built at the end. *)
From S2P Require Import Prelude.
From S2P Require Import Grammar.
From S2P Require Import Http.
From S2P Require Import Glob.
From S2P Require Import Utils.

Module Options.

(** ** What the libraries give *)

Inductive any (dbl : Type) : Type :=
| ASwitch
| AString (s : str)
| AStrings (l : list str)
| ADouble (d : dbl)
| AInt (z : Z)           (* std::int64_t *)
| AUint (z : Z)          (* std::uint64_t *)
| AUshort (z : Z)        (* std::uint16_t *)
| ABools (n : nat).
Arguments ASwitch {dbl}.
Arguments AString {dbl} s.
Arguments AStrings {dbl} l.
Arguments ADouble {dbl} d.
Arguments AInt {dbl} z.
Arguments AUint {dbl} z.
Arguments AUshort {dbl} z.
Arguments ABools {dbl} n.

(** What is done to the asio::ssl::context. *)
Inductive ssl_action :=
| NoTls (version : Z)                (* set_options(no_tlsv1...) *)
| LoadVerifyFile (f : str) | AddVerifyPath (d : str) | SetDefaultVerifyPaths
| VerifyNone | VerifyPeer
| UseCertificateFile (f : str) | SetCipherList (s : str) | SetCiphersuites (s : str)
| SetCurvesList (s : str) | SetPassword (s : str) | UsePrivateKeyFile (f : str).

Class Libs := {
  dbl : Type;
  to_duration : dbl -> Z;                        (* seconds to nanoseconds *)
  stod : str -> comp exn dbl;
  scale : dbl -> Z -> Z;                         (* static_cast<uint64_t>(d * n) *)
  url : Type;
  parse_url : str -> comp exn url;               (* urls::url{s} *)
  empty_url : url;
  encoded_host : url -> str;
  has_port : url -> bool;
  port : url -> str;
  scheme : url -> str;
  set_encoded_host : str -> url -> url;
  set_port : str -> url -> url;
  set_host : str -> url -> url;
  encoded_host_address : url -> str;
  authority_rule : rule url;
  ipv4_address : Type;
  ipv6_address : Type;
  ipv4_address_rule : rule ipv4_address;
  ipv6_address_rule : rule ipv6_address;
  set_host_ipv4 : ipv4_address -> url -> url;
  set_host_ipv6 : ipv6_address -> url -> url;
  encode : str -> str;                           (* pchars, spaces as plus *)
  parse_query : str -> option str;
  read_file : str -> comp exn str;               (* any_istream *)
  ssl_accepts : ssl_action -> comp exn bool;     (* throws, or tells success *)
  print_options : str                            (* ss << odesc *)
}.

(** ** The declared options *)

Inductive kind := KSwitch | KStr | KStrs | KDouble | KI64 | KU64 | KU16 | KBools.

#[export] Instance kind_eq_dec : EqDecision kind.
Proof. solve_decision. Defined.

Definition odesc : list (str * option ascii * kind) :=
  [($"abstract-unix-socket", None, KStr);
   ($"cacert", None, KStr);
   ($"capath", None, KStr);
   ($"cert", Some "E"%char, KStr);
   ($"ciphers", None, KStr);
   ($"compressed", None, KSwitch);
   ($"connect-timeout", None, KDouble);
   ($"connect-to", None, KStrs);
   ($"continue-at", Some "C"%char, KStr);
   ($"cookie", Some "b"%char, KStrs);
   ($"cookie-jar", Some "c"%char, KStr);
   ($"create-dirs", None, KSwitch);
   ($"curves", None, KStr);
   ($"data", Some "d"%char, KStrs);
   ($"data-ascii", None, KStrs);
   ($"data-binary", None, KStrs);
   ($"data-raw", None, KStrs);
   ($"data-urlencode", None, KStrs);
   ($"disallow-username-in-url", None, KSwitch);
   ($"dump-header", Some "D"%char, KStr);
   ($"expect100-timeout", None, KDouble);
   ($"fail", Some "f"%char, KSwitch);
   ($"fail-early", None, KSwitch);
   ($"fail-with-body", None, KSwitch);
   ($"form", Some "F"%char, KStrs);
   ($"form-string", None, KStrs);
   ($"key", None, KStr);
   ($"get", Some "G"%char, KSwitch);
   ($"globoff", Some "g"%char, KSwitch);
   ($"head", Some "I"%char, KSwitch);
   ($"header", Some "H"%char, KStrs);
   ($"help", Some "h"%char, KSwitch);
   ($"http1.0", Some "0"%char, KSwitch);
   ($"http1.1", None, KSwitch);
   ($"insecure", Some "k"%char, KSwitch);
   ($"ipv4", Some "4"%char, KSwitch);
   ($"ipv6", Some "6"%char, KSwitch);
   ($"json", None, KStrs);
   ($"junk-session-cookies", Some "j"%char, KSwitch);
   ($"limit-rate", None, KStr);
   ($"location", Some "L"%char, KSwitch);
   ($"location-trusted", None, KSwitch);
   ($"max-filesize", None, KStr);
   ($"max-redirs", None, KI64);
   ($"max-time", None, KDouble);
   ($"no-buffer", None, KSwitch);
   ($"no-keepalive", None, KSwitch);
   ($"no-progress-meter", None, KSwitch);
   ($"output", Some "o"%char, KStrs);
   ($"output-dir", None, KStr);
   ($"parallel", Some "Z"%char, KSwitch);
   ($"parallel-immediate", None, KSwitch);
   ($"parallel-max", None, KU16);
   ($"pass", None, KStr);
   ($"post301", None, KSwitch);
   ($"post302", None, KSwitch);
   ($"post303", None, KSwitch);
   ($"proto-redir", None, KStrs);
   ($"proxy", Some "x"%char, KStr);
   ($"range", Some "r"%char, KStr);
   ($"referer", Some "e"%char, KStr);
   ($"remote-header-name", Some "J"%char, KSwitch);
   ($"remote-name", Some "O"%char, KBools);
   ($"remote-name-all", None, KSwitch);
   ($"remove-on-error", None, KSwitch);
   ($"request", Some "X"%char, KStr);
   ($"request-target", None, KStr);
   ($"resolve", None, KStrs);
   ($"retry", None, KU64);
   ($"retry-all-errors", None, KSwitch);
   ($"retry-connrefused", None, KSwitch);
   ($"retry-delay", None, KDouble);
   ($"retry-max-time", None, KDouble);
   ($"show-headers", None, KSwitch);
   ($"skip-existing", None, KSwitch);
   ($"tcp-nodelay", None, KSwitch);
   ($"tls-max", None, KStr);
   ($"tls13-ciphers", None, KStr);
   ($"tlsv1.0", None, KSwitch);
   ($"tlsv1.1", None, KSwitch);
   ($"tlsv1.2", None, KSwitch);
   ($"tlsv1.3", None, KSwitch);
   ($"include", Some "i"%char, KSwitch);
   ($"unix-socket", None, KStr);
   ($"upload-file", Some "T"%char, KStrs);
   ($"url", None, KStrs);
   ($"url-query", None, KStrs);
   ($"user", Some "u"%char, KStr);
   ($"user-agent", Some "A"%char, KStr)].

Section Args.
Context `{Libs} `{Fields} `{Grammar}.

Definition variables_map : Type := list (str * any dbl).

Definition lookup_any (vm : variables_map) (k : str) : option (any dbl) :=
  snd <$> List.find (fun p => fst p =s k) vm.

Definition vm_contains (vm : variables_map) (k : str) : bool :=
  bool_decide (is_Some (lookup_any vm k)).

(** vm.at(k).as<T>() *)
Definition at_as {T} (cast : any dbl -> option T) (vm : variables_map) (k : str) : comp exn T :=
  match lookup_any vm k with
  | None => Err OutOfRange
  | Some v => match cast v with Some a => Ok a | None => Err BadAnyCast end
  end.

Definition as_string := at_as (fun v => match v with AString s => Some s | _ => None end).
Definition as_strings := at_as (fun v => match v with AStrings l => Some l | _ => None end).
Definition as_double := at_as (fun v => match v with ADouble d => Some d | _ => None end).
Definition as_int := at_as (fun v => match v with AInt z => Some z | _ => None end).
Definition as_uint := at_as (fun v => match v with AUint z => Some z | _ => None end).
Definition as_ushort := at_as (fun v => match v with AUshort z => Some z | _ => None end).

(** ** Helpers of parse_args *)

Definition effective_port (u : url) : comp exn str :=
  if has_port u then Ok (port u)
  else if scheme u =s $"https" then Ok $"443"
  else if scheme u =s $"http" then Ok $"80"
  else if scheme u =s $"socks5" then Ok $"1080"
  else Err (RuntimeError $"Unsupported scheme").

(** The lambdas set_frac_sec, set_bool and set_string: the member's value after
    the call. *)
Definition set_frac_sec (vm : variables_map) (out : option Z) (option : str)
    : comp exn (Datatypes.option Z) :=
  if vm_contains vm option then d ← as_double vm option; Ok (Some (to_duration d))
  else Ok out.

Definition set_bool (vm : variables_map) (out : bool) (option : str) : bool :=
  if vm_contains vm option then true else out.

Definition set_string (vm : variables_map) (out : option str) (option : str)
    : comp exn (Datatypes.option str) :=
  if vm_contains vm option then s ← as_string vm option; Ok (Some s)
  else Ok out.

(** ci_delim_rule *)
Definition ci_delim_rule (ch : ascii) : rule ascii := fun s =>
  match s with
  | [] => Err (need_more, s)
  | c :: t => if Ascii.eqb (to_lower c) (to_lower ch) then Ok (to_lower ch, t)
              else Err (mismatch, t)
  end.

Definition size_rule :=
  tuple_rule
    (rcons (token_rule (cs_plus digit_chars (lut_chars $".")))
    (rone (optional_rule (variant_rule
      (aor (ci_delim_rule "B") (aor (ci_delim_rule "K") (aor (ci_delim_rule "M")
      (aor (ci_delim_rule "G") (aor (ci_delim_rule "T") (aone (ci_delim_rule "P"))))))))))).

Definition unit_index
    (v : option (ascii + (ascii + (ascii + (ascii + (ascii + ascii)))))) : Z :=
  match v with
  | None | Some (inl _) => 0
  | Some (inr (inl _)) => 1
  | Some (inr (inr (inl _))) => 2
  | Some (inr (inr (inr (inl _)))) => 3
  | Some (inr (inr (inr (inr (inl _))))) => 4
  | Some (inr (inr (inr (inr (inr _))))) => 5
  end.

(** [None] is an error code. *)
Definition parse_human_readable_size (sv : str) : comp exn (option Z) :=
  match parse size_rule sv with
  | Err _ => Ok None
  | UB => UB
  | Ok (size, unit) =>
      d ← stod size;
      Ok (Some (scale d (u64 (Z.shiftl 1 (10 * unit_index unit)))))
  end.

(** The form option, for the time form support is enabled. *)
Record form_option_result := mk_form {
  form_name : str;
  form_prefix : ascii;
  form_value : str;
  form_filename : option str;
  form_type : option str;
  form_headers : list str
}.

(** The file has its own copies of the two functions of utils.cpp. *)
Definition quoted_string : rule str := Utils.quoted_string.
Definition unquote_string : str -> comp exn str := Utils.unquote_string.

Definition name_rule : rule str := token_rule (cs_minus all_chars (lut_chars $"=")).
Definition value_rule : rule (str + str) :=
  variant_rule (aor quoted_string
    (aone (token_rule (cs_minus all_chars (lut_chars $";"))))).

Definition form_rule :=
  tuple_rule
    (rcons name_rule
    (rskip (delim_rule (one "="))
    (rcons (optional_rule (delim_rule (lut_chars $"@<")))
    (rcons value_rule
    (rone (range_rule (tuple_rule
      (rskip (delim_rule (one ";"))
      (rcons name_rule
      (rskip (delim_rule (one "="))
      (rone value_rule))))))))))).

Definition extract (v : str + str) : comp exn str :=
  match v with inl q => unquote_string q | inr t => Ok t end.

Definition bad_form : exn := RuntimeError $"Illegally formatted input field".

Fixpoint form_attributes (rs : form_option_result) (l : list (str * (str + str)))
    : comp exn form_option_result :=
  match l with
  | [] => Ok rs
  | (n, v) :: l =>
      rs ← (if n =s $"filename" then
              x ← extract v;
              Ok (mk_form (form_name rs) (form_prefix rs) (form_value rs) (Some x)
                    (form_type rs) (form_headers rs))
            else if n =s $"type" then
              x ← extract v;
              Ok (mk_form (form_name rs) (form_prefix rs) (form_value rs) (form_filename rs)
                    (Some x) (form_headers rs))
            else if n =s $"headers" then
              x ← extract v;
              Ok (mk_form (form_name rs) (form_prefix rs) (form_value rs) (form_filename rs)
                    (form_type rs) (form_headers rs ++ [x]))
            else Err bad_form);
      form_attributes rs l
  end.

Definition parse_form_option (sv : str) : comp exn form_option_result :=
  match parse form_rule sv with
  | Err _ => Err bad_form
  | UB => UB
  | Ok (n, (p, (v, l))) =>
      x ← extract v;
      c ← match default $" " p with c :: _ => Ok c | [] => Err OutOfRange end;
      form_attributes (mk_form n c x None None []) l
  end.

(** ** operation_config *)

Definition string_body : Type := str * str.        (* body, content type *)

Record operation_config := mk_config {
  timeout : Z;
  expect100timeout : Z;
  connect_timeout : Z;
  retry_delay : option Z;
  retry_maxtime : option Z;
  disallow_username_in_url : bool;
  recvpersecond : option Z;
  sendpersecond : option Z;
  encoding : bool;
  create_dirs : bool;
  maxredirs : Z;
  max_filesize : Z;
  tcp_nodelay : bool;
  req_retry : Z;
  parallel_max : Z;
  retry_connrefused : bool;
  retry_all_errors : bool;
  nokeepalive : bool;
  post301 : bool;
  post302 : bool;
  post303 : bool;
  proto_redir : list str;
  unix_socket_path : str;
  connect_to : option (url -> comp exn url);
  resolve_to : option (url -> comp exn url);
  http10 : bool;
  http11 : bool;
  ipv4 : bool;
  ipv6 : bool;
  useragent : option str;
  userpwd : option str;
  enable_cookies : bool;
  cookies : list str;
  cookiefiles : list str;
  cookiejar : str;
  resume_from : option Z;
  resume_from_current : bool;
  headerfile : str;
  referer : url;
  autoreferer : bool;
  failonerror : bool;
  failearly : bool;
  failwithbody : bool;
  rm_partial : bool;
  use_httpget : bool;
  request_target : option str;
  headers : fields;
  omitheaders : list str;
  show_headers : bool;
  cookiesession : bool;
  no_body : bool;
  content_disposition : bool;
  unrestricted_auth : bool;
  followlocation : bool;
  nobuffer : bool;
  globoff : bool;
  noprogress : bool;
  skip_existing : bool;
  terminal_binary_ok : bool;
  output_dir : str;
  range : option str;
  proxy : url;
  customrequest : option str;
  query : str;
  msg : option string_body
}.

Definition duration_max : Z := 2 ^ 63 - 1.
Definition uint64_max : Z := 2 ^ 64 - 1.

(** ** The groups of assignments *)

Definition usage : str :=
  $"Usage: burl [options...] <url>" ++ [chr 10] ++
  $"Example:" ++ [chr 10] ++
  $"    burl https://www.example.com" ++ [chr 10] ++
  $"    burl -L http://httpstat.us/301" ++ [chr 10] ++
  $"    burl https://httpbin.org/post -F name=Shadi -F img=@./avatar.jpeg" ++ [chr 10] ++
  $"    burl " ++ ["034"%char] ++ $"http://example.com/archive/vol[1-4]/part{a,b,c}.html" ++
  ["034"%char] ++ $" -o vol#1-part#2" ++ [chr 10] ++
  $"    burl https://archives.boost.io/release/1.87.0/source/boost_1_87_0.zip -OLC -" ++
  [chr 10] ++ print_options.

Definition check_usage (vm : variables_map) : comp exn unit :=
  if vm_contains vm $"help" || negb (vm_contains vm $"url") then Err (RuntimeError usage)
  else Ok tt.

(** A value assigned under [if(vm.contains(...))], and a default otherwise. *)
Definition when {A} (b : bool) (m : comp exn A) (a : A) : comp exn A :=
  if b then m else Ok a.

(** "continue-at" *)
Definition stoull (s : str) : comp exn Z :=
  (* white space and a sign are allowed; a minus sign negates modulo 2^64 *)
  let s := snd (span (fun c => between 9 13 c || (c =c " ")) s) in
  let '(neg, s) := match s with
                   | c :: t => if c =c "-" then (true, t)
                               else if c =c "+" then (false, t) else (false, s)
                   | [] => (false, s)
                   end in
  match fst (span is_digit s) with
  | [] => Err (InvalidArgument $"stoull")
  | d => if undec d <? 2 ^ 64
         then Ok (if (neg : bool) then u64 (- undec d) else undec d)
         else Err OutOfRange
  end.

Definition set_resume (vm : variables_map) (range : option str) (rm_partial : bool)
    : comp exn (bool * option Z) :=
  when (vm_contains vm $"continue-at")
    (if bool_decide (is_Some range) then
       Err (RuntimeError $"--continue-at is mutually exclusive with --range")
     else if rm_partial then
       Err (RuntimeError $"--continue-at is mutually exclusive with --remove-on-error")
     else
       s ← as_string vm $"continue-at";
       if s =s $"-" then Ok (true, None)
       else n ← stoull s; Ok (false, Some n))
    (false, None).

(** "limit-rate" and "max-filesize" *)
Definition set_size (vm : variables_map) (opt : str) (what : str) (out : option Z)
    : comp exn (option Z) :=
  when (vm_contains vm opt)
    (s ← as_string vm opt;
     limit ← parse_human_readable_size s;
     match limit with
     | None => Err (RuntimeError what)
     | Some n => Ok (Some n)
     end)
    out.

Definition set_maxredirs (vm : variables_map) : comp exn Z :=
  when (vm_contains vm $"max-redirs")
    (value ← as_int vm $"max-redirs";
     Ok (if value <? 0 then uint64_max else u64 value))
    50.

Definition set_parallel_max (vm : variables_map) : comp exn Z :=
  when (vm_contains vm $"parallel")
    (when (vm_contains vm $"parallel-max")
       (value ← as_ushort vm $"parallel-max";
        Ok (if (0 <? value) && (value <=? 300) then value else 50))
       50)
    1.

Definition set_proto_redir (vm : variables_map) : comp exn (list str) :=
  when (vm_contains vm $"proto-redir")
    (l ← as_strings vm $"proto-redir";
     Ok (List.filter (fun s => (s =s $"http") || (s =s $"https")) l))
    [$"http"; $"https"].

Definition set_cookies (vm : variables_map) : comp exn (bool * list str * list str) :=
  when (vm_contains vm $"cookie")
    (l ← as_strings vm $"cookie";
     Ok (true,
         List.filter (contains "=") l,
         List.filter (fun sv => negb (contains "=" sv) && negb (sv =s [])) l))
    (false, [], []).

Definition set_referer (vm : variables_map) : comp exn (bool * url) :=
  when (vm_contains vm $"referer")
    (s ← as_string vm $"referer";
     if s =s $";auto" then Ok (true, empty_url)
     else u ← parse_url s; Ok (false, u))
    (false, empty_url).

(** ** TLS *)

Definition tls_min (vm : variables_map) : Z :=
  if vm_contains vm $"tlsv1.3" then 13
  else if vm_contains vm $"tlsv1.2" then 12
  else if vm_contains vm $"tlsv1.1" then 11
  else if vm_contains vm $"tlsv1.0" then 10
  else 11.

Definition tls_max (vm : variables_map) : comp exn Z :=
  when (vm_contains vm $"tls-max")
    (s ← as_string vm $"tls-max";
     if s =s $"1.0" then Ok 10
     else if s =s $"1.1" then Ok 11
     else if s =s $"1.2" then Ok 12
     else if s =s $"1.3" then Ok 13
     else Err (RuntimeError $"Wrong TLS version"))
    13.

Definition tls_options (lo hi : Z) : list ssl_action :=
  (if 10 <? lo then [NoTls 10] else []) ++
  (if (11 <? lo) || (hi <? 11) then [NoTls 11] else []) ++
  (if (12 <? lo) || (hi <? 12) then [NoTls 12] else []) ++
  (if hi <? 13 then [NoTls 13] else []).

(** One call on the context; [failed] is the message thrown when the native
    call does not return 1. *)
Definition ssl_do (a : ssl_action) (failed : option str) : comp exn (list ssl_action) :=
  b ← ssl_accepts a;
  match failed with
  | Some what => if (b : bool) then Ok [a] else Err (RuntimeError what)
  | None => Ok [a]
  end.

Definition ssl_string (vm : variables_map) (opt : str) (act : str -> ssl_action)
    (failed : option str) : comp exn (list ssl_action) :=
  when (vm_contains vm opt) (s ← as_string vm opt; ssl_do (act s) failed) [].

Definition verify_options (vm : variables_map) : comp exn (list ssl_action) :=
  if vm_contains vm $"insecure" then ssl_do VerifyNone None
  else
    a ← (if vm_contains vm $"cacert" then
           s ← as_string vm $"cacert"; ssl_do (LoadVerifyFile s) None
         else if vm_contains vm $"capath" then
           s ← as_string vm $"capath"; ssl_do (AddVerifyPath s) None
         else ssl_do SetDefaultVerifyPaths None);
    b ← ssl_do VerifyPeer None;
    Ok (a ++ b).

(** The context that parse_args returns. *)
Definition make_ssl_ctx (vm : variables_map) : comp exn (list ssl_action) :=
  hi ← tls_max vm;
  v ← verify_options vm;
  cert ← ssl_string vm $"cert" UseCertificateFile None;
  ciphers ← ssl_string vm $"ciphers" SetCipherList (Some $"failed setting cipher list");
  tls13 ← ssl_string vm $"tls13-ciphers" SetCiphersuites
            (Some $"failed setting TLS 1.3 cipher suite");
  curves ← ssl_string vm $"curves" SetCurvesList (Some $"failed setting curves list");
  pass ← ssl_string vm $"pass" SetPassword None;
  key ← ssl_string vm $"key" UsePrivateKeyFile None;
  Ok (tls_options (tls_min vm) hi ++ v ++ cert ++ ciphers ++ tls13 ++ curves ++ pass ++ key).

(** ** The requests *)

Inductive url_gen :=
| Oneshot (url : option str)
| Globbing (c : Glob.closure).

(** One call of url_gen (fuel is for the glob generator). *)
Definition gen_next (fuel : nat) (g : url_gen)
    : option (comp exn (option Glob.glob_result * url_gen)) :=
  match g with
  | Oneshot (Some u) => Some (Ok (Some (Glob.mk_result u []), Oneshot None))
  | Oneshot None => Some (Ok (None, Oneshot None))
  | Globbing c =>
      r ← Glob.next fuel c;
      Some ('(o, c) ← r; Ok (o, Globbing c))
  end.

Record request_info := mk_info {
  gen : url_gen;
  output : str;
  input : str;
  remotename : bool
}.

Fixpoint make_requests (vm : variables_map) (globoff : bool) (urls : list str)
    : comp exn (list request_info) :=
  match urls with
  | [] => Ok []
  | s :: urls =>
      g ← (if globoff then Ok (Oneshot (Some s))
           else c ← Glob.make_glob_generator s; Ok (Globbing c));
      rs ← make_requests vm globoff urls;
      Ok (mk_info g [] [] (vm_contains vm $"remote-name-all") :: rs)
  end.

(** The loop over po.options, from the iterator [it] on. *)
Fixpoint assign_outputs (options : list (str * list str)) (it : list request_info)
    : comp exn (list request_info) :=
  match options with
  | [] => Ok it
  | (key, value) :: options =>
      match it with
      | [] => Ok []
      | r :: rs =>
          if key =s $"output" then
            match value with
            | v :: _ =>
                rs ← assign_outputs options rs;
                Ok (mk_info (gen r) v (input r) (remotename r) :: rs)
            | [] => Err OutOfRange
            end
          else if key =s $"remote-name" then
            rs ← assign_outputs options rs;
            Ok (mk_info (gen r) (output r) (input r) true :: rs)
          else assign_outputs options it
      end
  end.

Fixpoint assign_inputs (files : list str) (it : list request_info) : list request_info :=
  match files, it with
  | f :: files, r :: rs => mk_info (gen r) (output r) f (remotename r) :: assign_inputs files rs
  | _, _ => it
  end.

Record request_opt := mk_request_opt {
  ro_url : str;
  ro_output : str;
  ro_input : str;
  ro_remotename : bool
}.

(** One call of request_opt_gen on its (reversed) vector. *)
Fixpoint request_opt_gen (fuel : nat) (requests : list request_info)
    : option (comp exn (option request_opt * list request_info)) :=
  match fuel with
  | O => None
  | S fuel =>
      match rev requests with
      | [] => Some (Ok (None, requests))
      | info :: others =>
          match gen_next fuel (gen info) with
          | None => None
          | Some (Ok (Some o, g)) =>
              Some (out ← Glob.interpolate o (output info);
                    Ok (Some (mk_request_opt (Glob.result o) out (input info) (remotename info)),
                        rev others ++ [mk_info g (output info) (input info) (remotename info)]))
          | Some (Ok (None, _)) => request_opt_gen fuel (rev others)
          | Some (Err e) => Some (Err e)
          | Some UB => Some UB
          end
      end
  end.

Definition requests_of (vm : variables_map) (options : list (str * list str))
    (globoff : bool) : comp exn (list request_info) :=
  urls ← as_strings vm $"url";
  rs ← make_requests vm globoff urls;
  rs ← assign_outputs options rs;
  rs ← when (vm_contains vm $"upload-file")
         (fs ← as_strings vm $"upload-file"; Ok (assign_inputs fs rs)) rs;
  Ok (rev rs).

(** ** --data *)

(** The lambda init: what [data] is after the call. *)
Definition init (data : option str) : str :=
  match data with
  | Some d => d ++ $"&"
  | None => []
  end.

Definition striped (s : str) : str :=
  List.filter (fun ch => negb (ch =c "013") && negb (ch =c "010") && negb (ch =c "000")) s.

(** The text up to the first [c], and the text after it. *)
Fixpoint split_at (c : ascii) (s : str) : option (str * str) :=
  match s with
  | [] => None
  | a :: t => if a =c c then Some ([], t)
              else match split_at c t with
                   | Some (n, v) => Some (a :: n, v)
                   | None => None
                   end
  end.

Definition named (name content : str) : str :=
  match name with [] => content | _ => name ++ $"=" ++ content end.

(** What one argument of each kind appends. *)
Definition data_ascii (sv : str) : comp exn str :=
  match sv with
  | c :: t => if c =c "@" then f ← read_file t; Ok (striped f) else Ok sv
  | [] => Ok sv
  end.

Definition data_binary (sv : str) : comp exn str :=
  match sv with
  | c :: t => if c =c "@" then read_file t else Ok sv
  | [] => Ok sv
  end.

Definition data_raw (sv : str) : comp exn str := Ok sv.

Definition data_urlencode (sv : str) : comp exn str :=
  match split_at "=" sv with
  | Some (name, content) => Ok (named name (encode content))
  | None =>
      match split_at "@" sv with
      | Some (name, filename) => tmp ← read_file filename; Ok (named name (encode tmp))
      | None => Ok (encode sv)
      end
  end.

Fixpoint append_each (item : str -> comp exn str) (svs : list str) (data : option str)
    : comp exn (option str) :=
  match svs with
  | [] => Ok data
  | sv :: svs => s ← item sv; append_each item svs (Some (init data ++ s))
  end.

Definition append_option (vm : variables_map) (opt : str) (item : str -> comp exn str)
    (data : option str) : comp exn (option str) :=
  when (vm_contains vm opt) (l ← as_strings vm opt; append_each item l data) data.

Definition collect_data (vm : variables_map) : comp exn (option str) :=
  data ← append_option vm $"data" data_ascii None;
  data ← append_option vm $"data-ascii" data_ascii data;
  data ← append_option vm $"data-binary" data_binary data;
  data ← append_option vm $"data-raw" data_raw data;
  append_option vm $"data-urlencode" data_urlencode data.

(** Where the data goes: the query and the body. *)
Definition place_data (vm : variables_map) (data : option str)
    : comp exn (str * option string_body) :=
  match data with
  | None => Ok ([], None)
  | Some d =>
      if vm_contains vm $"get" then
        match parse_query d with
        | None => Err (RuntimeError $"Invalid data encoding")
        | Some q => Ok (q, None)
        end
      else Ok ([], Some (d, $"application/x-www-form-urlencoded"))
  end.

Definition count_true (l : list bool) : nat := length (List.filter id l).

Definition check_one_method (vm : variables_map) (data : option str) : comp exn unit :=
  if (1 <? count_true [bool_decide (is_Some data); vm_contains vm $"form";
                       vm_contains vm $"json"; vm_contains vm $"upload-file"])%nat
  then Err (RuntimeError $"You can only select one HTTP request method")
  else if vm_contains vm $"form" || vm_contains vm $"form-string"
  then Err (RuntimeError $"Multipart form support is not available")
  else Ok tt.

Fixpoint concat_items (item : str -> comp exn str) (svs : list str) (body : str)
    : comp exn str :=
  match svs with
  | [] => Ok body
  | sv :: svs => s ← item sv; concat_items item svs (body ++ s)
  end.

Definition set_json (vm : variables_map) (m : option string_body) : comp exn (option string_body) :=
  when (vm_contains vm $"json")
    (l ← as_strings vm $"json";
     body ← concat_items data_binary l [];
     Ok (Some (body, $"application/json")))
    m.

(** ** --url-query *)

Definition query_item (sv : str) : comp exn str :=
  match sv with
  | c :: t => if c =c "+" then Ok t else data_urlencode sv
  | [] => data_urlencode sv
  end.

Fixpoint append_query (svs : list str) (query : str) : comp exn str :=
  match svs with
  | [] => Ok query
  | sv :: svs =>
      s ← query_item sv;
      append_query svs (match query with [] => s | _ => query ++ $"&" ++ s end)
  end.

Definition set_query (vm : variables_map) (q : str) : comp exn str :=
  when (vm_contains vm $"url-query")
    (l ← as_strings vm $"url-query";
     query ← append_query l [];
     Ok (match query with
         | [] => q
         | _ => match q with [] => query | _ => q ++ $"&" ++ query end
         end))
    q.

(** ** --connect-to and --resolve *)

Definition connect_to_rule : rule (url * url) :=
  tuple_rule
    (rcons authority_rule
    (rskip (optional_rule (delim_rule (one ":")))
    (rone authority_rule))).

(** The loop that parses the arguments of an option. *)
Fixpoint parse_items {A B} (r : rule A) (item : A -> B) (what : str) (svs : list str)
    : comp exn (list B) :=
  match svs with
  | [] => Ok []
  | sv :: svs =>
      match parse r sv with
      | Err _ => Err (RuntimeError what)
      | UB => UB
      | Ok a => bs ← parse_items r item what svs; Ok (item a :: bs)
      end
  end.

(** The lambda oc.connect_to. *)
Fixpoint connect_to_fn (items : list (url * url)) (u : url) : comp exn url :=
  match items with
  | [] => Ok u
  | (lhs, rhs) :: items =>
      if negb (encoded_host u =s encoded_host lhs) && negb (encoded_host lhs =s []) then
        connect_to_fn items u
      else
        p ← effective_port u;
        if negb (p =s port lhs) && negb (port lhs =s []) then connect_to_fn items u
        else
          let u := if encoded_host rhs =s [] then u
                   else set_encoded_host (encoded_host rhs) u in
          Ok (if port rhs =s [] then u else set_port (port rhs) u)
  end.

Definition set_connect_to (vm : variables_map) : comp exn (option (url -> comp exn url)) :=
  when (vm_contains vm $"connect-to")
    (l ← as_strings vm $"connect-to";
     items ← parse_items connect_to_rule id $"bad --connect-to option" l;
     Ok (Some (connect_to_fn items)))
    None.

Definition resolve_rule : rule (str * (str * (ipv4_address + ipv6_address))) :=
  tuple_rule
    (rcons (token_rule (cs_minus all_chars (lut_chars $":")))
    (rskip (delim_rule (one ":"))
    (rcons (token_rule digit_chars)
    (rskip (delim_rule (one ":"))
    (rskip (optional_rule (delim_rule (one "[")))
    (rend (rone (variant_rule (aor ipv4_address_rule (aone ipv6_address_rule))))
          (optional_rule (delim_rule (one "]"))))))))).

Definition resolve_item (v : str * (str * (ipv4_address + ipv6_address))) : url * url :=
  let '(host, (p, ip)) := v in
  (set_port p (set_host host empty_url),
   match ip with
   | inl a => set_host_ipv4 a empty_url
   | inr a => set_host_ipv6 a empty_url
   end).

(** The lambda oc.resolve_to. *)
Fixpoint resolve_to_fn (items : list (url * url)) (u : url) : comp exn url :=
  match items with
  | [] => Ok u
  | (lhs, rhs) :: items =>
      if negb (encoded_host u =s encoded_host lhs) && negb (encoded_host lhs =s $"*") then
        resolve_to_fn items u
      else
        p ← effective_port u;
        if negb (p =s port lhs) then resolve_to_fn items u
        else Ok (set_encoded_host (encoded_host_address rhs) u)
  end.

Definition set_resolve_to (vm : variables_map) : comp exn (option (url -> comp exn url)) :=
  when (vm_contains vm $"resolve")
    (l ← as_strings vm $"resolve";
     items ← parse_items resolve_rule resolve_item $"bad --resolve option" l;
     Ok (Some (resolve_to_fn items)))
    None.

(** ** --header *)

Definition add_header (sv : str) (hs : fields * list str) : fields * list str :=
  match split_at ":" sv with
  | Some (name, value) =>
      match value with
      | [] => (fst hs, snd hs ++ [name])
      | _ => (set_field name value (fst hs), snd hs)
      end
  | None =>
      match split_at ";" sv with
      | Some (name, _) => (set_field name [] (fst hs), snd hs)
      | None => hs
      end
  end.

(** std::getline until the end of the text. *)
Fixpoint lines_from (pend s : str) : list str :=
  match s with
  | [] => match pend with [] => [] | _ => [pend] end
  | c :: s => if c =c "010" then pend :: lines_from [] s else lines_from (pend ++ [c]) s
  end.

Fixpoint add_headers (svs : list str) (hs : fields * list str)
    : comp exn (fields * list str) :=
  match svs with
  | [] => Ok hs
  | sv :: svs =>
      hs ← match sv with
           | c :: t =>
               if c =c "@" then
                 f ← read_file t;
                 Ok (fold_left (fun hs l => add_header l hs) (lines_from [] f) hs)
               else Ok (add_header sv hs)
           | [] => Ok (add_header sv hs)
           end;
      add_headers svs hs
  end.

Definition set_headers (vm : variables_map) : comp exn (fields * list str) :=
  when (vm_contains vm $"header")
    (l ← as_strings vm $"header"; add_headers l (no_fields, []))
    (no_fields, []).

(** ** parse_args *)

Record parse_args_result := mk_args {
  oc : operation_config;
  ssl_ctx : list ssl_action;
  ropt_gen : list request_info
}.

Definition some_or {A} (o : option A) (a : A) : A := match o with Some b => b | None => a end.

Definition parse_args (vm : variables_map) (options : list (str * list str))
    : comp exn parse_args_result :=
  _ ← check_usage vm;
  timeout ← set_frac_sec vm (Some duration_max) $"max-time";
  connect_timeout ← set_frac_sec vm (Some duration_max) $"connect-timeout";
  expect100 ← set_frac_sec vm (Some 1000000000) $"expect100-timeout";
  retry_delay ← set_frac_sec vm None $"retry-delay";
  retry_maxtime ← set_frac_sec vm None $"retry-max-time";
  let show_headers :=
    set_bool vm (set_bool vm (set_bool vm false $"show-headers") $"include") $"head" in
  let content_disposition := set_bool vm false $"remote-header-name" in
  let rm_partial := set_bool vm false $"remove-on-error" in
  let globoff := set_bool vm false $"globoff" in
  unix_socket ← set_string vm (Some []) $"unix-socket";
  useragent ← set_string vm None $"user-agent";
  userpwd ← set_string vm None $"user";
  range ← set_string vm None $"range";
  request_target ← set_string vm None $"request-target";
  customrequest ← set_string vm None $"request";
  headerfile ← set_string vm (Some []) $"dump-header";
  range ← set_string vm range $"range";
  output_dir ← set_string vm (Some []) $"output-dir";
  cookiejar ← set_string vm (Some []) $"cookie-jar";
  _ ← (if set_bool vm false $"fail" && set_bool vm false $"fail-with-body" then
         Err (RuntimeError $"You must select either --fail or --fail-with-body, not both.")
       else Ok tt);
  _ ← (if show_headers && content_disposition then
         Err (RuntimeError $"showing headers and --remote-header-name cannot be combined")
       else Ok tt);
  proxy ← when (vm_contains vm $"proxy")
            (s ← as_string vm $"proxy"; parse_url s) empty_url;
  req_retry ← when (vm_contains vm $"retry") (as_uint vm $"retry") 0;
  unix_socket ← when (vm_contains vm $"abstract-unix-socket")
                  (s ← as_string vm $"abstract-unix-socket"; Ok (Some (chr 0 :: s)))
                  unix_socket;
  '(autoreferer, referer) ← set_referer vm;
  limit ← set_size vm $"limit-rate" $"unsupported limit-rate unit" None;
  maxredirs ← set_maxredirs vm;
  max_filesize ← set_size vm $"max-filesize" $"unsupported max-filesize unit" (Some uint64_max);
  parallel_max ← set_parallel_max vm;
  proto_redir ← set_proto_redir vm;
  '(resume_current, resume_from) ← set_resume vm range rm_partial;
  '(cookie_engine, cookies, cookiefiles) ← set_cookies vm;
  ssl ← make_ssl_ctx vm;
  requests ← requests_of vm options globoff;
  data ← collect_data vm;
  '(query, body) ← place_data vm data;
  _ ← check_one_method vm data;
  body ← set_json vm body;
  query ← set_query vm query;
  connect_to ← set_connect_to vm;
  resolve_to ← set_resolve_to vm;
  '(hs, omit) ← set_headers vm;
  Ok (mk_args {|
    timeout := some_or timeout 0;
    expect100timeout := some_or expect100 0;
    connect_timeout := some_or connect_timeout 0;
    retry_delay := retry_delay;
    retry_maxtime := retry_maxtime;
    disallow_username_in_url := set_bool vm false $"disallow-username-in-url";
    recvpersecond := limit;
    sendpersecond := limit;
    encoding := set_bool vm false $"compressed";
    create_dirs := set_bool vm false $"create-dirs";
    maxredirs := maxredirs;
    max_filesize := some_or max_filesize 0;
    tcp_nodelay := set_bool vm true $"tcp-nodelay";
    req_retry := req_retry;
    parallel_max := parallel_max;
    retry_connrefused := set_bool vm false $"retry-connrefused";
    retry_all_errors := set_bool vm false $"retry-all-errors";
    nokeepalive := set_bool vm false $"no-keepalive";
    post301 := set_bool vm false $"post301";
    post302 := set_bool vm false $"post302";
    post303 := set_bool vm false $"post303";
    proto_redir := proto_redir;
    unix_socket_path := some_or unix_socket [];
    connect_to := connect_to;
    resolve_to := resolve_to;
    http10 := set_bool vm false $"http1.0";
    http11 := set_bool vm true $"http1.1";
    ipv4 := set_bool vm false $"ipv4";
    ipv6 := set_bool vm false $"ipv6";
    useragent := useragent;
    userpwd := userpwd;
    enable_cookies := negb (some_or cookiejar [] =s []) || cookie_engine;
    cookies := cookies;
    cookiefiles := cookiefiles;
    cookiejar := some_or cookiejar [];
    resume_from := resume_from;
    resume_from_current := resume_current;
    headerfile := some_or headerfile [];
    referer := referer;
    autoreferer := autoreferer;
    failonerror := set_bool vm false $"fail";
    failearly := set_bool vm false $"fail-early";
    failwithbody := set_bool vm false $"fail-with-body";
    rm_partial := rm_partial;
    use_httpget := set_bool vm false $"get";
    request_target := request_target;
    headers := hs;
    omitheaders := omit;
    show_headers := show_headers;
    cookiesession := set_bool vm false $"junk-session-cookies";
    no_body := set_bool vm false $"head";
    content_disposition := content_disposition;
    unrestricted_auth := set_bool vm false $"location-trusted";
    followlocation := set_bool vm (set_bool vm false $"location") $"location-trusted";
    nobuffer := set_bool vm false $"no-buffer";
    globoff := globoff;
    noprogress := set_bool vm false $"no-progress-meter";
    skip_existing := set_bool vm false $"skip-existing";
    terminal_binary_ok := false;
    output_dir := some_or output_dir [];
    range := range;
    proxy := proxy;
    customrequest := customrequest;
    query := query;
    msg := body
  |} ssl requests).

(** Where members of the configuration come from. *)
Lemma parse_args_parts `{Libs, Fields, Grammar} vm options args :
  parse_args vm options = Ok args ->
  set_parallel_max vm = Ok (parallel_max (oc args)) /\
  (exists engine, set_cookies vm = Ok (engine, cookies (oc args), cookiefiles (oc args)) /\
     (engine = true -> enable_cookies (oc args) = true)) /\
  set_connect_to vm = Ok (connect_to (oc args)) /\
  set_resolve_to vm = Ok (resolve_to (oc args)).
Proof.
  unfold parse_args. intros HE. bind_ok.
  match type of HE with (let '(_, _) := ?p in _) = _ => destruct p as [engine cs] end.
  bind_ok. injection HE as <-. cbn. split; [done|]. split; [|by split].
  exists engine. split; [done|]. intros ->. apply orb_true_r.
Qed.

(** ** Every option is read with the type it is declared with *)

Definition kind_of (k : str) : option kind :=
  snd <$> List.find (fun d => fst (fst d) =s k) odesc.

Definition of_kind (v : any dbl) (t : kind) : Prop :=
  match v, t with
  | ASwitch, KSwitch | AString _, KStr | AStrings _, KStrs | ADouble _, KDouble
  | AInt _, KI64 | AUint _, KU64 | AUshort _, KU16 | ABools _, KBools => True
  | _, _ => False
  end.

(** What Program_options stores for the declared options. *)
Definition conforms (vm : variables_map) : Prop :=
  forall k v, lookup_any vm k = Some v -> exists t, kind_of k = Some t /\ of_kind v t.

Definition no_cast {A} (m : comp exn A) : Prop := m <> Err BadAnyCast.

(** The libraries do not throw bad_any_cast. *)
Definition libs_no_cast : Prop :=
  (forall s, no_cast (parse_url s)) /\ (forall s, no_cast (stod s)) /\
  (forall s, no_cast (read_file s)) /\ (forall a, no_cast (ssl_accepts a)).

Lemma no_cast_ok {A} (a : A) : no_cast (Ok a).
Proof. done. Qed.
Lemma no_cast_ub {A} : no_cast (@UB exn A).
Proof. done. Qed.
Lemma no_cast_runtime {A} w : no_cast (@Err exn A (RuntimeError w)).
Proof. done. Qed.
Lemma no_cast_invalid {A} w : no_cast (@Err exn A (InvalidArgument w)).
Proof. done. Qed.
Lemma no_cast_range {A} : no_cast (@Err exn A OutOfRange).
Proof. done. Qed.

Lemma no_cast_bind {A B} (m : comp exn A) (f : A -> comp exn B) :
  no_cast m -> (forall a, no_cast (f a)) -> no_cast (m ≫= f).
Proof. unfold no_cast. intros Hm Hf. destruct m; [apply Hf|simpl; congruence|done]. Qed.

Lemma no_cast_when {A} b (m : comp exn A) a : no_cast m -> no_cast (when b m a).
Proof. by destruct b. Qed.

Lemma no_cast_if {A} (b : bool) (m n : comp exn A) :
  no_cast m -> no_cast n -> no_cast (if b then m else n).
Proof. by destruct b. Qed.

Lemma no_cast_at {T} (cast : any dbl -> option T) t vm k :
  conforms vm -> kind_of k = Some t ->
  (forall v, of_kind v t -> is_Some (cast v)) -> no_cast (at_as cast vm k).
Proof.
  intros HC Hk Ht. unfold at_as, no_cast. destruct (lookup_any vm k) as [v|] eqn:E; [|done].
  destruct (HC _ _ E) as (t' & Hk' & Hv). rewrite Hk in Hk'. injection Hk' as <-.
  by destruct (Ht v Hv) as [a ->].
Qed.

Create HintDb casts discriminated.
#[local] Hint Resolve no_cast_ok no_cast_ub no_cast_runtime no_cast_invalid no_cast_range
  no_cast_when no_cast_if : casts.

Section Casts.
Context (vm : variables_map) (HC : conforms vm) (HL : libs_no_cast).

Ltac declared :=
  eapply no_cast_at; [exact HC|vm_compute; reflexivity|intros [] ?; first [done | by eexists]].

(** Goes down a chain of binds whose parts are known. *)
Ltac casts :=
  repeat first
    [ progress (intros; cbv beta)
    | solve [auto with casts]
    | solve [declared]
    | apply no_cast_bind
    | apply no_cast_when | apply no_cast_if
    | match goal with |- no_cast (match ?x with _ => _ end) => destruct x end ].

Lemma cast_frac out k : kind_of k = Some KDouble -> no_cast (set_frac_sec vm out k).
Proof.
  intros Hk. unfold set_frac_sec. apply no_cast_if; [|done]. apply no_cast_bind; [|done].
  eapply no_cast_at; [done|exact Hk|]. intros [] ?; first [done | by eexists].
Qed.

Lemma cast_string out k : kind_of k = Some KStr -> no_cast (set_string vm out k).
Proof.
  intros Hk. unfold set_string. apply no_cast_if; [|done]. apply no_cast_bind; [|done].
  eapply no_cast_at; [done|exact Hk|]. intros [] ?; first [done | by eexists].
Qed.

Lemma cast_read f : no_cast (read_file f).
Proof. apply HL. Qed.
Lemma cast_url f : no_cast (parse_url f).
Proof. apply HL. Qed.
Lemma cast_stod f : no_cast (stod f).
Proof. apply HL. Qed.
Lemma cast_ssl a : no_cast (ssl_accepts a).
Proof. apply HL. Qed.

#[local] Hint Resolve cast_read cast_url cast_stod cast_ssl : casts.

Lemma cast_parse_size s : no_cast (parse_human_readable_size s).
Proof. unfold parse_human_readable_size. casts. Qed.
#[local] Hint Resolve cast_parse_size : casts.

Lemma cast_stoull s : no_cast (stoull s).
Proof.
  unfold stoull. destruct (match snd (span _ s) with [] => _ | _ => _ end) as [neg t].
  casts.
Qed.
#[local] Hint Resolve cast_stoull : casts.

Lemma cast_size k w out : kind_of k = Some KStr -> no_cast (set_size vm k w out).
Proof.
  intros Hk. unfold set_size. apply no_cast_when, no_cast_bind; [|casts].
  eapply no_cast_at; [done|exact Hk|]. intros [] ?; first [done | by eexists].
Qed.

Lemma cast_ssl_do a f : no_cast (ssl_do a f).
Proof. unfold ssl_do. casts. Qed.
#[local] Hint Resolve cast_ssl_do : casts.

Lemma cast_ssl_string k act f : kind_of k = Some KStr -> no_cast (ssl_string vm k act f).
Proof.
  intros Hk. unfold ssl_string. apply no_cast_when, no_cast_bind; [|casts].
  eapply no_cast_at; [done|exact Hk|]. intros [] ?; first [done | by eexists].
Qed.

#[local] Hint Extern 5 (kind_of _ = Some _) => reflexivity : casts.
#[local] Hint Resolve cast_frac cast_string cast_size cast_ssl_string : casts.

Lemma cast_ssl_ctx : no_cast (make_ssl_ctx vm).
Proof.
  unfold make_ssl_ctx, tls_max, verify_options.
  casts.
Qed.

Lemma cast_make_gens vs : no_cast (Glob.make_gens vs).
Proof.
  induction vs as [|v vs IH]; simpl; [done|]. apply no_cast_bind; [|casts; exact IH].
  destruct v as [|[[? [? ?]]|[[[|] [[|] ?]]|]]]; simpl; unfold Glob.stoull; casts.
Qed.
#[local] Hint Resolve cast_make_gens : casts.

Lemma cast_requests g urls : no_cast (make_requests vm g urls).
Proof.
  induction urls as [|u urls IH]; simpl; [done|]. unfold Glob.make_glob_generator.
  casts; exact IH.
Qed.

Lemma cast_outputs os : forall it, no_cast (assign_outputs os it).
Proof.
  induction os as [|[k v] os IH]; intros it; simpl; [done|].
  destruct it as [|r rs]; [done|]. casts; apply IH.
Qed.
#[local] Hint Resolve cast_requests cast_outputs : casts.

Lemma cast_requests_of os g : no_cast (requests_of vm os g).
Proof. unfold requests_of. casts. Qed.

Lemma cast_item_ascii s : no_cast (data_ascii s).
Proof. unfold data_ascii. casts. Qed.
Lemma cast_item_binary s : no_cast (data_binary s).
Proof. unfold data_binary. casts. Qed.
Lemma cast_item_urlencode s : no_cast (data_urlencode s).
Proof. unfold data_urlencode. casts. Qed.
#[local] Hint Resolve cast_item_ascii cast_item_binary cast_item_urlencode : casts.

Lemma cast_append_each item svs :
  (forall s, no_cast (item s)) -> forall d, no_cast (append_each item svs d).
Proof.
  intros Hi. induction svs as [|s svs IH]; intros d; simpl; [done|].
  apply no_cast_bind; [done|]. intros. apply IH.
Qed.

Lemma cast_append_option k item d :
  kind_of k = Some KStrs -> (forall s, no_cast (item s)) ->
  no_cast (append_option vm k item d).
Proof.
  intros Hk Hi. unfold append_option. apply no_cast_when, no_cast_bind.
  - eapply no_cast_at; [done|exact Hk|]. intros [] ?; first [done | by eexists].
  - intros. by apply cast_append_each.
Qed.

Lemma cast_data : no_cast (collect_data vm).
Proof.
  unfold collect_data.
  repeat (apply no_cast_bind; [|intros]);
    (apply cast_append_option; [reflexivity|intros; unfold data_raw; auto with casts]).
Qed.

Lemma cast_json m : no_cast (set_json vm m).
Proof.
  unfold set_json. casts. generalize (@nil ascii). induction a as [|s a IH]; intros b; simpl; [done|].
  casts; apply IH.
Qed.

Lemma cast_query q : no_cast (set_query vm q).
Proof.
  unfold set_query. casts. generalize (@nil ascii).
  induction a as [|s a IH]; intros b; simpl; [done|].
  apply no_cast_bind; [unfold query_item; casts|]. intros. apply IH.
Qed.

Lemma cast_parse_items {A B} (r : rule A) (item : A -> B) w svs :
  no_cast (parse_items r item w svs).
Proof. induction svs; simpl; [done|]. casts; assumption. Qed.
#[local] Hint Resolve @cast_parse_items : casts.

Lemma cast_connect_to : no_cast (set_connect_to vm).
Proof. unfold set_connect_to. casts. Qed.
Lemma cast_resolve_to : no_cast (set_resolve_to vm).
Proof. unfold set_resolve_to. casts. Qed.

Lemma cast_headers : no_cast (set_headers vm).
Proof.
  unfold set_headers. casts. generalize (no_fields, @nil str).
  induction a as [|s a IH]; intros hs; simpl; [done|].
  apply no_cast_bind; [casts|]. intros. apply IH.
Qed.

#[local] Hint Resolve cast_ssl_ctx cast_requests_of cast_data cast_json cast_query
  cast_connect_to cast_resolve_to cast_headers : casts.

Lemma cast_parse_args os : no_cast (parse_args vm os).
Proof.
  unfold parse_args, check_usage, set_referer, set_maxredirs, set_parallel_max,
    set_proto_redir, set_resume, set_cookies, place_data, check_one_method.
  casts.
Qed.

End Casts.

(** ** TLS *)

Lemma ssl_do_inv a f l : ssl_do a f = Ok l -> l = [a].
Proof.
  unfold ssl_do. intros HE. bind_ok. repeat case_match; by simplify_eq.
Qed.

Lemma ssl_string_inv vm k act f l :
  ssl_string vm k act f = Ok l -> l = [] \/ exists s, l = [act s].
Proof.
  unfold ssl_string, when. destruct (vm_contains vm k); intros HE; [|left; by simplify_eq].
  bind_ok. right. apply ssl_do_inv in HE. by eexists.
Qed.

Lemma tls_max_range vm hi : tls_max vm = Ok hi -> 10 <= hi <= 13.
Proof.
  unfold tls_max, when. destruct (vm_contains vm $"tls-max"); intros HE; [|simplify_eq; lia].
  bind_ok. repeat case_match; simplify_eq; lia.
Qed.

Lemma tls_min_range vm : 10 <= tls_min vm <= 13.
Proof. unfold tls_min. repeat case_match; lia. Qed.

Lemma in_if {A} (a b : A) (c : bool) : In a (if c then [b] else []) <-> c = true /\ a = b.
Proof. destruct c; simpl; naive_solver. Qed.

Lemma tls_options_spec lo hi v :
  10 <= lo <= 13 -> 10 <= hi <= 13 -> 10 <= v <= 13 ->
  In (NoTls v) (tls_options lo hi) <-> ~ (lo <= v <= hi).
Proof.
  intros Hlo Hhi Hv. unfold tls_options. rewrite !in_app_iff, !in_if, !orb_true_iff, !Z.ltb_lt.
  split.
  - intros [[? [= ->]]|[[? [= ->]]|[[? [= ->]]|[? [= ->]]]]]; lia.
  - intros HN. assert (v = 10 \/ v = 11 \/ v = 12 \/ v = 13) as [-> | [-> | [-> | ->]]] by lia;
      [left|right; left|right; right; left|right; right; right]; (split; [lia|done]).
Qed.

Lemma tls_options_only lo hi a : In a (tls_options lo hi) -> exists v, a = NoTls v.
Proof.
  unfold tls_options. rewrite !in_app_iff, !in_if. naive_solver.
Qed.

Lemma verify_inv vm l :
  verify_options vm = Ok l ->
  if vm_contains vm $"insecure" then l = [VerifyNone]
  else exists a, l = [a; VerifyPeer] /\ forall v, a <> NoTls v.
Proof.
  unfold verify_options. destruct (vm_contains vm $"insecure").
  - by intros HE%ssl_do_inv.
  - intros HE. bind_ok.
    repeat match goal with E : ssl_do _ _ = Ok _ |- _ => apply ssl_do_inv in E end; subst.
    injection HE as <-.
    destruct (vm_contains vm $"cacert"); [|destruct (vm_contains vm $"capath")];
      bind_ok; match goal with E : ssl_do _ _ = Ok _ |- _ => apply ssl_do_inv in E end;
      subst; by eexists.
Qed.

(** Neither a version nor the verification is touched by the other options. *)
Definition other (a : ssl_action) : Prop := (forall v, a <> NoTls v) /\ a <> VerifyPeer.

Lemma ssl_string_other vm k act f l a :
  ssl_string vm k act f = Ok l -> (forall s, other (act s)) -> In a l -> other a.
Proof.
  intros HE Ho Hin. apply ssl_string_inv in HE as [->|[s ->]]; [done|].
  destruct Hin as [<-|[]]. apply Ho.
Qed.

Lemma make_ssl_ctx_inv vm acts :
  make_ssl_ctx vm = Ok acts ->
  exists hi v rest, tls_max vm = Ok hi /\ verify_options vm = Ok v /\
    acts = tls_options (tls_min vm) hi ++ v ++ rest /\ (forall a, In a rest -> other a).
Proof.
  unfold make_ssl_ctx. intros HE. bind_ok. injection HE as <-.
  do 3 eexists. do 3 (split; [done|]). intros a. rewrite !in_app_iff.
  intros [Ha|[Ha|[Ha|[Ha|[Ha|Ha]]]]];
    match goal with E : ssl_string _ _ _ _ = Ok ?l, Ha : In a ?l |- _ =>
      eapply ssl_string_other in E; [exact E|by split|exact Ha] end.
Qed.

(** ** The requests *)

(** What the calls of a url_gen give, then nothing. *)
Definition gives (g : url_gen) (rs : list Glob.glob_result) : Prop :=
  match g with
  | Oneshot o => rs = match o with Some u => [Glob.mk_result u []] | None => [] end
  | Globbing c => Glob.enumerates c rs
  end.

(** What the calls of request_opt_gen give, then nothing. *)
Inductive requests_give : list request_info -> list request_opt -> Prop :=
| give_nil v v' :
    (exists n, forall fuel, (n <= fuel)%nat -> request_opt_gen fuel v = Some (Ok (None, v'))) ->
    requests_give v []
| give_cons v o v' os :
    (exists n, forall fuel, (n <= fuel)%nat -> request_opt_gen fuel v = Some (Ok (Some o, v'))) ->
    requests_give v' os -> requests_give v (o :: os).

Lemma gives_step g rs :
  gives g rs ->
  exists n g', (forall fuel, (n <= fuel)%nat -> gen_next fuel g = Some (Ok (head rs, g'))) /\
    (rs <> [] -> gives g' (tail rs)).
Proof.
  destruct g as [o|c]; simpl.
  - intros ->. exists 0%nat. destruct o; simpl; eexists; (split; [done|]); done.
  - intros HE. inversion HE as [? c' [n Hn] Hc|? r c' rs' [n Hn] HE']; subst.
    + exists n, (Globbing c'). split; [|done]. intros fuel Hf. by rewrite Hn.
    + exists n, (Globbing c'). split; [|done]. intros fuel Hf. by rewrite Hn.
Qed.

(** A call that drops the exhausted generator at the back. *)
Lemma give_turn v v' os :
  (exists n, forall fuel, (n <= fuel)%nat ->
     request_opt_gen (S fuel) v = request_opt_gen fuel v') ->
  requests_give v' os -> requests_give v os.
Proof.
  intros [n HT] HE. inversion HE as [? v2 [m Hm]|? o v2 os' [m Hm] HE']; subst.
  - eapply give_nil. exists (S (n + m)). intros [|fuel] Hf; [lia|].
    rewrite HT by lia. apply Hm. lia.
  - eapply give_cons; [|done]. exists (S (n + m)). intros [|fuel] Hf; [lia|].
    rewrite HT by lia. apply Hm. lia.
Qed.

(** The requests of one URL: each result with the interpolated file name. *)
Definition opts_of (info : request_info) (r : Glob.glob_result) (out : str) : request_opt :=
  mk_request_opt (Glob.result r) out (input info) (remotename info).

Lemma request_opt_gen_back info rest g n o :
  (forall fuel, (n <= fuel)%nat -> gen_next fuel (gen info) = Some (Ok (o, g))) ->
  forall fuel, (n <= fuel)%nat ->
  request_opt_gen (S fuel) (rest ++ [info]) =
    match o with
    | Some r =>
        Some (out ← Glob.interpolate r (output info);
              Ok (Some (opts_of info r out),
                  rest ++ [mk_info g (output info) (input info) (remotename info)]))
    | None => request_opt_gen fuel rest
    end.
Proof.
  intros Hg fuel Hf. cbn [request_opt_gen]. rewrite rev_app_distr. cbn [rev app].
  rewrite Hg, rev_involutive by done. by destruct o.
Qed.

Lemma back_gives rs : forall info rest outs os,
  gives (gen info) rs -> requests_give rest os ->
  Forall2 (fun r out => Glob.interpolate r (output info) = Ok out) rs outs ->
  requests_give (rest ++ [info]) (zip_with (opts_of info) rs outs ++ os).
Proof.
  induction rs as [|r rs IH]; intros info rest outs os HG HR HO;
    destruct (gives_step _ _ HG) as (n & g' & Hn & Hg');
    pose proof (request_opt_gen_back info rest g' n _ Hn) as HB; cbn [head] in HB.
  - apply Forall2_nil_inv_l in HO as ->. simpl. eapply give_turn; [|exact HR].
    by exists n.
  - apply Forall2_cons_inv_l in HO as (out & outs' & Ho & HO & ->). simpl.
    eapply give_cons.
    + exists (S n). intros [|fuel] Hf; [lia|]. rewrite HB by lia. by rewrite Ho.
    + apply (IH (mk_info g' (output info) (input info) (remotename info)));
        [by apply Hg'|done|done].
Qed.

Lemma all_give infos rss outss :
  Forall2 (fun info rs => gives (gen info) rs) infos rss ->
  Forall2 (fun '(info, rs) outs =>
             Forall2 (fun r out => Glob.interpolate r (output info) = Ok out) rs outs)
    (zip infos rss) outss ->
  requests_give (rev infos)
    (concat (zip_with (fun '(info, rs) outs => zip_with (opts_of info) rs outs)
               (zip infos rss) outss)).
Proof.
  intros HF. revert outss.
  induction HF as [|info rs infos rss Hg HF IH]; intros outss HO; simpl in *.
  - apply Forall2_nil_inv_l in HO as ->. simpl. eapply give_nil.
    exists 1%nat. intros [|fuel] Hf; [lia|done].
  - apply Forall2_cons_inv_l in HO as (outs & outss' & Ho & HO & ->). simpl.
    apply back_gives; [done|by apply IH|done].
Qed.

(** ** The data *)

Fixpoint collect {A} (item : str -> comp exn A) (svs : list str) : comp exn (list A) :=
  match svs with
  | [] => Ok []
  | sv :: svs => a ← item sv; l ← collect item svs; Ok (a :: l)
  end.

Definition collect_option {A} (vm : variables_map) (opt : str) (item : str -> comp exn A)
    : comp exn (list A) :=
  when (vm_contains vm opt) (l ← as_strings vm opt; collect item l) [].

(** Every data argument, in the order of the source. *)
Definition all_data (vm : variables_map) : comp exn (list str) :=
  a ← collect_option vm $"data" data_ascii;
  b ← collect_option vm $"data-ascii" data_ascii;
  c ← collect_option vm $"data-binary" data_binary;
  d ← collect_option vm $"data-raw" data_raw;
  e ← collect_option vm $"data-urlencode" data_urlencode;
  Ok (a ++ b ++ c ++ d ++ e).

Fixpoint join_amp (l : list str) : str :=
  match l with
  | [] => []
  | [s] => s
  | s :: l => s ++ $"&" ++ join_amp l
  end.

(** What the loops make of the items, one after the other. *)
Definition add_items (data : option str) (l : list str) : option str :=
  fold_left (fun data s => Some (init data ++ s)) l data.

Lemma append_each_items item svs : forall data,
  append_each item svs data = (l ← collect item svs; Ok (add_items data l)).
Proof.
  induction svs as [|sv svs IH]; intros data; [done|]. simpl.
  destruct (item sv) as [s| |]; [|done..]. simpl. rewrite IH.
  by destruct (collect item svs).
Qed.

Lemma append_option_items vm k item data :
  append_option vm k item data =
    (l ← collect_option vm k item; Ok (add_items data l)).
Proof.
  unfold append_option, collect_option, when. destruct (vm_contains vm k); [|done].
  destruct (as_strings vm k); [|done..]. simpl. apply append_each_items.
Qed.

Lemma add_items_app data a b : add_items (add_items data a) b = add_items data (a ++ b).
Proof. unfold add_items. by rewrite fold_left_app. Qed.

Lemma add_items_some d l :
  add_items (Some d) l = Some (match l with [] => d | _ => d ++ $"&" ++ join_amp l end).
Proof.
  revert d. induction l as [|s l IH]; intros d; [done|]. cbn [add_items fold_left init].
  fold (add_items (Some ((d ++ $"&") ++ s)) l). rewrite IH.
  destruct l as [|s2 l]; [by rewrite <- app_assoc|].
  f_equal. cbn [join_amp]. by rewrite <- !app_assoc.
Qed.

Lemma collect_data_items vm :
  collect_data vm = (l ← all_data vm; Ok (add_items None l)).
Proof.
  unfold collect_data, all_data. rewrite append_option_items.
  destruct (collect_option vm $"data" data_ascii) as [a| |]; [|done..]. cbn [mbind comp_bind].
  rewrite append_option_items.
  destruct (collect_option vm $"data-ascii" data_ascii) as [b| |]; [|done..]. cbn [mbind comp_bind].
  rewrite append_option_items.
  destruct (collect_option vm $"data-binary" data_binary) as [c| |]; [|done..]. cbn [mbind comp_bind].
  rewrite append_option_items.
  destruct (collect_option vm $"data-raw" data_raw) as [d| |]; [|done..]. cbn [mbind comp_bind].
  rewrite append_option_items.
  destruct (collect_option vm $"data-urlencode" data_urlencode) as [e| |]; [|done..]. cbn [mbind comp_bind].
  by rewrite !add_items_app.
Qed.

End Args.

(** ** Properties *)

(** Libraries for the witnesses: URLs are texts, files hold their names. *)
#[export] Instance test_libs : Libs := {
  dbl := Z;
  to_duration d := d * 1000000000;
  stod s := Ok (undec s);
  scale d n := u64 (d * n);
  url := str;
  parse_url s := Ok s;
  empty_url := [];
  encoded_host u := u;
  has_port _ := false;
  port _ := [];
  scheme _ := $"http";
  set_encoded_host h _ := h;
  set_port _ u := u;
  set_host h _ := h;
  encoded_host_address u := u;
  authority_rule := token_doc (fun c => negb (c =c ":"));
  ipv4_address := str;
  ipv6_address := str;
  ipv4_address_rule := token_doc is_digit;
  ipv6_address_rule := token_doc is_digit;
  set_host_ipv4 a _ := a;
  set_host_ipv6 a _ := a;
  encode s := s;
  parse_query s := Some s;
  read_file s := Ok s;
  ssl_accepts _ := Ok true;
  print_options := []
}.

(** A configuration for witnesses: credentials, redirects, [retries] retries. *)
Definition test_config_retry `{Libs, Fields} (retries : Z) : operation_config := {|
  timeout := duration_max; expect100timeout := 1000000000; connect_timeout := duration_max;
  retry_delay := None; retry_maxtime := None; disallow_username_in_url := false;
  recvpersecond := None; sendpersecond := None; encoding := false; create_dirs := false;
  maxredirs := 50; max_filesize := uint64_max; tcp_nodelay := true; req_retry := retries;
  parallel_max := 1; retry_connrefused := false; retry_all_errors := false;
  nokeepalive := false; post301 := false; post302 := false; post303 := false;
  proto_redir := [$"http"; $"https"]; unix_socket_path := []; connect_to := None;
  resolve_to := None; http10 := false; http11 := true; ipv4 := false; ipv6 := false;
  useragent := None; userpwd := Some $"u:p"; enable_cookies := false; cookies := [];
  cookiefiles := []; cookiejar := []; resume_from := None; resume_from_current := false;
  headerfile := []; referer := empty_url; autoreferer := false; failonerror := false;
  failearly := false; failwithbody := false; rm_partial := false; use_httpget := false;
  request_target := None; headers := no_fields; omitheaders := []; show_headers := false;
  cookiesession := false; no_body := false; content_disposition := false;
  unrestricted_auth := false; followlocation := true; nobuffer := false; globoff := false;
  noprogress := false; skip_existing := false; terminal_binary_ok := false; output_dir := [];
  range := None; proxy := empty_url; customrequest := None; query := []; msg := None |}.

Definition test_config `{Libs, Fields} : operation_config := test_config_retry 0.

(** C17: the TLS context parse_args makes allows exactly the versions from the
    minimum to the maximum asked for, and it verifies the peer if and only if
    --insecure is not given, whatever the other options. *)
Theorem tls_context_spec `{Libs} vm acts :
  make_ssl_ctx vm = Ok acts ->
  exists hi, tls_max vm = Ok hi /\
    (forall v, 10 <= v <= 13 -> In (NoTls v) acts <-> ~ (tls_min vm <= v <= hi)) /\
    (In VerifyPeer acts <-> vm_contains vm $"insecure" = false).
Proof.
  intros (hi & v & rest & Hhi & Hv & -> & Hr)%make_ssl_ctx_inv. exists hi. split; [done|].
  apply verify_inv in Hv. split.
  - intros n Hn. rewrite <- tls_options_spec;
      [|apply tls_min_range|by eapply tls_max_range|done].
    rewrite !in_app_iff. split; [|by left]. intros [?|[Hin|Hin]]; [done|..]; exfalso.
    + destruct (vm_contains vm $"insecure"); [subst v; by destruct Hin as [?|[]]|].
      destruct Hv as (a & -> & Ha). destruct Hin as [Hin|[Hin|[]]]; [by eapply Ha|done].
    + apply Hr in Hin as [Hin _]. by apply (Hin n).
  - rewrite !in_app_iff. split.
    + intros [Hin|[Hin|Hin]].
      * by apply tls_options_only in Hin as [? ?].
      * destruct (vm_contains vm $"insecure"); [subst v; by destruct Hin as [?|[]]|done].
      * by apply Hr in Hin as [_ ?].
    + intros Hi. rewrite Hi in Hv. destruct Hv as (a & -> & _). right; left. right; by left.
Qed.

Lemma tls_context_spec_witness :
  let vm := [($"tls-max", AString $"1.0"); ($"ciphers", AString $"HIGH")] in
  exists hi, tls_max vm = Ok hi /\
    (forall v, 10 <= v <= 13 ->
       In (NoTls v) [NoTls 10; NoTls 11; NoTls 12; NoTls 13; SetDefaultVerifyPaths;
                     VerifyPeer; SetCipherList $"HIGH"] <-> ~ (tls_min vm <= v <= hi)) /\
    (In VerifyPeer [NoTls 10; NoTls 11; NoTls 12; NoTls 13; SetDefaultVerifyPaths;
                    VerifyPeer; SetCipherList $"HIGH"] <-> vm_contains vm $"insecure" = false).
Proof. apply (@tls_context_spec test_libs). reflexivity. Defined.

(** C16: parse_args reads every option with the type it is declared with: on
    any map that holds what Program_options stores for the declared options, no
    call of as() throws bad_any_cast. *)
Theorem parse_args_well_typed `{Libs, Fields, Grammar} vm options :
  conforms vm -> libs_no_cast -> parse_args vm options <> Err BadAnyCast.
Proof. intros HC HL. by apply cast_parse_args. Qed.

Lemma parse_args_well_typed_witness :
  parse_args (H := test_libs) (H0 := list_fields) (H1 := doc_grammar)
    [($"url", AStrings [$"http://x/{a,b}"]); ($"max-redirs", AInt (-1)); ($"head", ASwitch)] []
  <> Err BadAnyCast.
Proof.
  apply (@parse_args_well_typed test_libs list_fields doc_grammar); [|by repeat split].
  intros k v. unfold lookup_any. cbn [List.find fst].
  repeat (case_bool_decide; [intros [= <-]; subst; eexists; (split; [reflexivity|done])|]).
  done.
Defined.

(** C15: request_opt_gen gives the requests of every URL of the command line in
    order, for each URL the expansions of its pattern in order, each with the
    output name interpolated with the tokens of that expansion; then nothing;
    every call returns. *)
Theorem request_opt_gen_in_order `{Grammar} infos rss outss :
  Forall2 (fun info rs => gives (gen info) rs) infos rss ->
  Forall2 (fun '(info, rs) outs =>
             Forall2 (fun r out => Glob.interpolate r (output info) = Ok out) rs outs)
    (zip infos rss) outss ->
  requests_give (rev infos)
    (concat (zip_with (fun '(info, rs) outs => zip_with (opts_of info) rs outs)
               (zip infos rss) outss)).
Proof. apply all_give. Qed.

Lemma request_opt_gen_in_order_witness :
  let a := mk_info (Oneshot (Some $"http://a/")) $"out#1" [] false in
  let b := mk_info (Globbing (Glob.mk_closure [([], [Glob.Items [$"x"; $"y"] 0])] []))
             $"f#1" [] true in
  requests_give (H1 := doc_grammar) (rev [a; b])
    [mk_request_opt $"http://a/" $"out#1" [] false;
     mk_request_opt $"x" $"fx" [] true; mk_request_opt $"y" $"fy" [] true].
Proof.
  intros a b.
  apply (@request_opt_gen_in_order doc_grammar [a; b]
    [[Glob.mk_result $"http://a/" []];
     [Glob.mk_result $"x" [$"x"]; Glob.mk_result $"y" [$"y"]]]
    [[$"out#1"]; [$"fx"; $"fy"]]).
  - constructor; [reflexivity|]. constructor; [|constructor].
    assert (Forall2 Glob.annotated [Glob.Items [$"x"; $"y"] 0] [(false, [$"x"; $"y"])]) as HA.
    { constructor; [|constructor]. split; [reflexivity|].
      apply (Glob.items_yields [$"x"; $"y"] []). }
    exact (Glob.closure_enumerates _ [] (false, [$"x"; $"y"]) [] HA).
  - repeat constructor.
Defined.

(** The data options are joined with ampersands in the order of the source
    (--data, --data-ascii, --data-binary, --data-raw, --data-urlencode), each
    argument contributing what its own option makes of it. *)
Lemma data_joined `{Libs} vm :
  collect_data vm =
    (l ← all_data vm;
     Ok (match l with [] => None | _ => Some (join_amp l) end)).
Proof.
  rewrite collect_data_items. destruct (all_data vm) as [l| |]; [|done..]. simpl.
  destruct l as [|s l]; [done|]. cbn [add_items fold_left init app].
  fold (add_items (Some s) l). rewrite add_items_some. by destruct l.
Qed.

End Options.
