(* ===== verification/Transfer.v ===== *)
(** One transfer of burl: the request, the redirects and the retries
    (example/client/burl/main.cpp and message.cpp).

    The network is the environment: a [turn] is what one exchange with the
    server, the reconnections around it and the other transfers that share the jar
    give, an [attempt] what one whole request task gives.  The class [Web] extends
    the libraries of Options.v with the URL functions used here. *)
From S2P Require Import Prelude.
From S2P Require Import Grammar.
From S2P Require Import Http.
From S2P Require Import Cookie.
From S2P Require Import Utils.
From S2P Require Import Options.

Module Transfer.

Import Options.

Class Web `{Libs} := {
  encoded_origin : url -> str;
  encoded_target : url -> str;
  host_and_port : url -> str;           (* authority().encoded_host_and_port().decode() *)
  userinfo : url -> str;
  has_userinfo : url -> bool;
  remove_userinfo : url -> url;
  buffer : url -> str;
  encoded_segments : url -> list str;
  resolve : url -> str -> option url;   (* parse_uri_reference, then resolve *)
  url_view : url -> Cookie.url_view;
  parse_uri : str -> option url;
  normalize : url -> url;
  url_host : url -> str;
  append_params : str -> url -> url;    (* params_view, then encoded_params().append *)
  url_path : url -> str;
  set_path : str -> url -> url
}.

(** Equal origins have the same scheme, host and port. *)
Class Origins `{L : Libs, !Web} : Prop := {
  origin_host a b : encoded_origin a = encoded_origin b -> url_host a = url_host b;
  origin_scheme a b : encoded_origin a = encoded_origin b -> scheme a = scheme b
}.

(** ** Requests and responses *)

Section Program.
Context `{Web} `{Fields} `{Grammar} `{Cookie.Calendar}.

Record request := mk_request {
  method : str;
  version : Z;                          (* 10 or 11 *)
  target : str;
  hdrs : fields
}.

Definition set_method (m : str) (r : request) : request :=
  mk_request m (version r) (target r) (hdrs r).
Definition put_target (t : str) (r : request) : request :=
  mk_request (method r) (version r) t (hdrs r).
Definition set (name value : str) (r : request) : request :=
  mk_request (method r) (version r) (target r) (set_field name value (hdrs r)).
Definition erase (name : str) (r : request) : request :=
  mk_request (method r) (version r) (target r) (erase_field name (hdrs r)).

Record response := mk_response {
  status : Z;
  res_version : Z;
  close : bool;                         (* metadata().connection.close *)
  payload_size : option Z;              (* when payload() is payload::size *)
  res_fields : list (str * str)
}.

Definition find_all (name : str) (r : response) : list str :=
  map snd (List.filter (fun p => same_name name (fst p)) (res_fields r)).
Definition count (name : str) (r : response) : nat := length (find_all name r).

(** ** The functions before perform_request *)

Definition set_target (oc : operation_config) (r : request) (u : url) : request :=
  match request_target oc with
  | Some t => put_target t r
  | None => put_target (encoded_target u) r
  end.

(** is_redirect and need_method_change *)
Definition is_redirect (oc : operation_config) (status : Z) : bool * bool :=
  if status =? 301 then (true, negb (post301 oc))
  else if status =? 302 then (true, negb (post302 oc))
  else if status =? 303 then (true, negb (post303 oc))
  else if (status =? 307) || (status =? 308) then (true, false)
  else (false, false).

Definition is_transient_error (status : Z) : bool :=
  (status =? 408) || (status =? 429) || (status =? 500) || (status =? 502) ||
  (status =? 503) || (status =? 504).

Definition can_reuse_connection (r : response) (a b : url) : bool :=
  if negb (encoded_origin a =s encoded_origin b) then false
  else if negb (res_version r =? 11) then false
  else if close r then false
  else true.

Definition should_ignore_body (oc : operation_config) (r : response) : bool :=
  bool_decide (is_Some (resume_from oc)) && (count $"Content-Range" r =? 0)%nat.

Definition body_size (r : response) : option Z := payload_size r.

Definition redirect_url (r : response) (referer : url) : comp exn url :=
  let bad := Err (RuntimeError $"Bad redirect response") in
  match find_all $"Location" r with
  | v :: _ => match resolve referer v with Some u => Ok u | None => bad end
  | [] => bad
  end.

(** message::set_headers *)
Definition set_headers (m : option string_body) (r : request) : request :=
  match m with
  | None => r
  | Some (body, content_type) =>
      let r := set_method $"POST" r in
      let r := set $"Content-Type" content_type r in
      let n := Z.of_nat (length body) in
      let r := set $"Content-Length" (dec n) r in
      if (1024 * 1024 <=? n) && (version r =? 11) then set $"Expect" $"100-continue" r else r
  end.

(** message::start_serializer: what the serializer is to write, the header and
    the body if there is one. *)
Definition start_serializer (m : option string_body) (r : request) : request * option str :=
  (r, match m with Some (body, _) => Some body | None => None end).

(** append of create_request's Accept-Encoding, and its calls. *)
Definition append_encoding (value encoding : str) : str :=
  (match value with [] => [] | _ => value ++ $", " end) ++ encoding.

Definition accept_encoding (has_brotli has_zlib : bool) : str :=
  let value := if has_brotli then append_encoding [] $"br" else [] in
  if has_zlib then append_encoding (append_encoding value $"deflate") $"gzip" else value.

(** A field set only when there is a value. *)
Definition set_opt (name : str) (value : option str) (r : request) : request :=
  match value with Some v => set name v r | None => r end.

Definition nonempty (s : str) : option str := match s with [] => None | _ => Some s end.

(** The value of the Authorization field. *)
Definition authorization (oc : operation_config) (u : url) : option str :=
  match default (userinfo u) (userpwd oc) with
  | [] => None
  | creds => Some (Utils.base64_encode $"Basic " creds)
  end.

Definition create_request (has_brotli has_zlib : bool) (oc : operation_config)
    (m : option string_body) (u : url) : comp exn request :=
  if disallow_username_in_url oc && has_userinfo u then
    Err (RuntimeError $"Credentials was passed in the URL when prohibited")
  else
    let r := mk_request (if no_body oc then $"HEAD" else $"GET") 11 $"/" no_fields in
    let r := match customrequest oc with Some c => set_method c r | None => r end in
    let r := mk_request (method r) (if http10 oc then 10 else 11) (target r) (hdrs r) in
    let r := set_target oc r u in
    let r := set $"Host" (host_and_port u) r in
    let r := set $"User-Agent" (default $"Boost.Http.Io" (useragent oc)) r in
    let r := set $"Accept" $"*/*" r in
    let r := set_headers m r in
    let r := set_opt $"Range" ((fun n => $"bytes=" ++ dec n ++ $"-") <$> resume_from oc) r in
    let r := set_opt $"Range" ((fun s => $"bytes=" ++ s) <$> range oc) r in
    let r := set_opt $"Referer" (nonempty (buffer (referer oc))) r in
    let r := set_opt $"Authorization" (authorization oc u) r in
    let r := set_opt $"Accept-Encoding"
               (if encoding oc then nonempty (accept_encoding has_brotli has_zlib) else None) r in
    let h := erase_all (omitheaders oc) (set_all (field_list (headers oc)) (hdrs r)) in
    Ok (mk_request (method r) (version r) (target r) h).

(** ** The redirect loop of perform_request *)

(** What a connected any_stream is: Session.v makes it the trace of connect. *)
Context {stream : Type}.

(** A moment the coroutine is resumed at: the time, and what the other transfers,
    which have a reference to the same jar, made of it since the last one. *)
Record moment := mk_moment {
  now : Z;
  meanwhile : list Cookie.cookie -> list Cookie.cookie
}.

(** What the server and the network do in one turn of the loop: when the request
    is [written] and the answer [received], [answer] the outcome of async_request,
    [discarded] whether the body of a redirect could be read and dropped,
    [connected] what connecting to a URL gives. *)
Record turn := mk_turn {
  written : moment;
  received : moment;
  answer : comp exn response;
  discarded : bool;
  connected : url -> comp exn stream
}.

(** When a request was written, the request and its body as the serializer has
    them, the URL its connection was opened for, and the stream. *)
Record sent := mk_sent {
  s_time : Z;
  s_url : url;
  s_request : request;
  s_body : option str;
  s_conn : url;
  s_stream : stream;
  s_trusted : bool
}.

Record transfer := mk_transfer {
  t_url : url;
  t_referer : url;
  t_trusted : bool;
  t_maxredirs : Z;
  t_request : request;
  t_msg : option string_body;
  t_conn : url;
  t_stream : stream;
  t_jar : option (list Cookie.cookie)
}.

(** The lambda set_cookies. *)
Definition set_cookies (now : Z) (exp_cookies : str) (u : url) (trusted : bool)
    (jar : option (list Cookie.cookie)) (r : request)
    : comp exn (option (list Cookie.cookie) * request) :=
  '(cookie, jar) ← match jar with
                   | Some j => '(s, j) ← Cookie.make_field now (url_view u) j; Ok (s, Some j)
                   | None => Ok ([], None)
                   end;
  let cookie := if (trusted : bool) then cookie ++ exp_cookies else cookie in
  let r := erase $"Cookie" r in
  Ok (jar, match cookie with [] => r | _ => set $"Cookie" cookie r end).

(** The lambda extract_cookies: value() throws on a cookie that does not parse. *)
Fixpoint add_cookies (psl : option (str -> str -> bool)) (now : Z) (u : url)
    (svs : list str) (jar : list Cookie.cookie) : comp exn (list Cookie.cookie) :=
  match svs with
  | [] => Ok jar
  | sv :: svs =>
      match Cookie.parse_cookie now sv with
      | Ok c => add_cookies psl now u svs (Cookie.add psl now (url_view u) c jar)
      | Err (Cookie.Code _) => Err SystemError
      | Err (Cookie.Throw e) => Err e
      | UB => UB
      end
  end.

Definition extract_cookies (psl : option (str -> str -> bool)) (now : Z) (u : url)
    (r : response) (jar : option (list Cookie.cookie))
    : comp exn (option (list Cookie.cookie)) :=
  match jar with
  | None => Ok None
  | Some j => j ← add_cookies psl now u (find_all $"Set-Cookie" r) j; Ok (Some j)
  end.

Inductive flow := Break (r : response) | Follow.

(** The part of the loop after the response: the next request is prepared. *)
Definition prepare_next (oc : operation_config) (org_url : url) (x : turn) (r : response)
    (need_method_change : bool) (st : transfer) : comp exn transfer :=
  u ← redirect_url r (t_referer st);
  if negb (bool_decide (scheme u ∈ proto_redir oc)) then
    Err (RuntimeError $"Protocol not supported or disabled")
  else
    '(conn, stream) ← (if can_reuse_connection r (t_referer st) u && discarded x
                       then Ok (t_conn st, t_stream st)
                       else s ← connected x u; Ok (u, s));
    let '(req, m) :=
      if need_method_change && negb (method (t_request st) =s $"HEAD") then
        (erase $"Expect" (erase $"Content-Type" (erase $"Content-Encoding"
           (erase $"Content-Length" (set_method $"GET" (t_request st))))), None)
      else (t_request st, t_msg st) in
    let req := set_target oc req u in
    let trusted := (encoded_origin org_url =s encoded_origin u) || unrestricted_auth oc in
    let req := if trusted then req else erase $"Authorization" req in
    let req := if autoreferer oc
               then set $"Referer" (buffer (remove_userinfo (t_referer st))) req else req in
    let req := set $"Host" (host_and_port u) req in
    Ok (mk_transfer u u trusted (t_maxredirs st) req m conn stream (t_jar st)).

(** One turn of the loop: what was sent, how the turn ended. *)
Definition iterate (psl : option (str -> str -> bool)) (oc : operation_config)
    (exp_cookies : str) (org_url : url) (x : turn) (st : transfer)
    : list sent * comp exn (flow * transfer) :=
  match set_cookies (now (written x)) exp_cookies (t_url st) (t_trusted st)
          (option_map (meanwhile (written x)) (t_jar st)) (t_request st) with
  | Err e => ([], Err e)
  | UB => ([], UB)
  | Ok (jar, req) =>
      let serializer := start_serializer (t_msg st) req in
      ([mk_sent (now (written x)) (t_url st) (fst serializer) (snd serializer) (t_conn st) (t_stream st)
          (t_trusted st)],
       r ← answer x;
       jar ← extract_cookies psl (now (received x)) (t_url st) r
               (option_map (meanwhile (received x)) jar);
       let st := mk_transfer (t_url st) (t_referer st) (t_trusted st) (t_maxredirs st)
                   req (t_msg st) (t_conn st) (t_stream st) jar in
       let '(redirect, need_method_change) := is_redirect oc (status r) in
       if negb redirect || negb (followlocation oc) then Ok (Break r, st)
       else if t_maxredirs st =? 0 then
         Err (RuntimeError $"Maximum redirects followed")
       else
         let st := mk_transfer (t_url st) (t_referer st) (t_trusted st) (t_maxredirs st - 1)
                     (t_request st) (t_msg st) (t_conn st) (t_stream st) (t_jar st) in
         st ← prepare_next oc org_url x r need_method_change st;
         Ok (Follow, st))
  end.

Inductive ending := Answered (r : response) | Failed (e : exn) | Undefined | Waiting.

Fixpoint loop (psl : option (str -> str -> bool)) (oc : operation_config)
    (exp_cookies : str) (org_url : url) (xs : list turn) (st : transfer)
    : list sent * ending :=
  match xs with
  | [] => ([], Waiting)
  | x :: xs =>
      match iterate psl oc exp_cookies org_url x st with
      | (ss, Ok (Break r, _)) => (ss, Answered r)
      | (ss, Ok (Follow, st)) =>
          let '(ss', e) := loop psl oc exp_cookies org_url xs st in (ss ++ ss', e)
      | (ss, Err e) => (ss, Failed e)
      | (ss, UB) => (ss, Undefined)
      end
  end.

(** The loop from its start: [s] is the connection to [u]. *)
Definition follow (psl : option (str -> str -> bool)) (oc : operation_config)
    (exp_cookies : str) (u : url) (s : stream) (req : request) (m : option string_body)
    (jar : option (list Cookie.cookie)) (xs : list turn) : list sent * ending :=
  loop psl oc exp_cookies u xs (mk_transfer u u true (maxredirs oc) req m u s jar).

(** ** The rest of perform_request *)

(** path / other *)
Definition path_append (p q : str) : str :=
  if starts_with $"/" q then q
  else match p with
       | [] => q
       | _ => if ends_with $"/" p then p ++ q else p ++ $"/" ++ q
       end.

(** The lambda that computes output_path: it reads the variable it initializes
    when it has to look at the file or to create directories. *)
Definition output_path (oc : operation_config) (ropt : request_opt) (u : url)
    : comp exn (str * bool) :=
  let '(path, terminal_binary_ok) :=
    if ro_remotename ropt then
      (path_append (output_dir oc)
        (match last (encoded_segments u) with
         | None | Some [] => $"burl_response"
         | Some s => s
         end), terminal_binary_ok oc)
    else if ro_output ropt =s $"-" then ($"-", true)
    else match ro_output ropt with
         | [] => ($"-", terminal_binary_ok oc)
         | o => (path_append (output_dir oc) o, terminal_binary_ok oc)
         end in
  if negb (path =s $"-") && (resume_from_current oc || create_dirs oc) then UB
  else Ok (path, terminal_binary_ok).

Definition returned_error (status : Z) : exn :=
  RuntimeError ($"The requested URL returned error: " ++ dec status).

(** fs::path{s}.filename() *)
Definition filename_of (s : str) : str :=
  fold_left (fun acc c => if c =c "/" then [] else acc ++ [c]) s [].

Fixpoint disposition_output (output_dir : str) (svs : list str) (path : str) : comp exn str :=
  match svs with
  | [] => Ok path
  | sv :: svs =>
      o ← Utils.extract_filename_form_content_disposition sv;
      match o with
      | None => disposition_output output_dir svs path
      | Some s => match filename_of s with
                  | [] => disposition_output output_dir svs path
                  | f => Ok (path_append output_dir f)
                  end
      end
  end.

(** From the end of the loop on: [body] is how reading the body ends.  The
    result is the status and the path of the output. *)
Definition finish (oc : operation_config) (ropt : request_opt) (r : response)
    (path : str) (body : comp exn unit) : comp exn (Z * str) :=
  if failonerror oc && (400 <=? status r) then Err (returned_error (status r))
  else
    path ← (if content_disposition oc && ro_remotename ropt
            then disposition_output (output_dir oc) (find_all $"Content-Disposition" r) path
            else Ok path);
    if bool_decide (is_Some (resume_from oc)) && negb (status r =? 416) &&
       (count $"Content-Range" r =? 0)%nat then
      Err (RuntimeError
        $"HTTP server doesn't seem to support byte ranges. Cannot resume.")
    else
      _ ← (if should_ignore_body oc r then Ok tt else body);
      if failwithbody oc && (400 <=? status r) then Err (returned_error (status r))
      else Ok (status r, path).

(** The lambda that computes url. *)
Definition prepare_url (oc : operation_config) (ropt : request_opt) : comp exn url :=
  match Utils.normalize_and_parse_url parse_uri normalize (ro_url ropt) with
  | None => Err SystemError
  | Some u =>
      match url_host u with
      | [] => Err (RuntimeError $"No host part in the URL")
      | _ =>
          let u := append_params (query oc) u in
          Ok (match url_path u with [] => set_path $"/" u | _ => u end)
      end
  end.

(** The file system, the connections and the body, for one transfer. *)
Record world := mk_world {
  file_exists : str -> bool;
  opened : str -> comp exn unit;        (* any_ostream's constructor *)
  first_connect : url -> comp exn stream;
  turns : list turn;
  body : comp exn unit
}.

Inductive task_end := Completed (status : Z) | Threw (e : exn) | Broken | Running.

(** Up to scope_fail: nothing to do, or the URL, the output and the request. *)
Definition start_request (has_brotli has_zlib : bool) (oc : operation_config)
    (m : option string_body) (ropt : request_opt) (w : world)
    : comp exn (option (url * str * request)) :=
  u ← prepare_url oc ropt;
  match ro_input ropt with
  | _ :: _ => Err (RuntimeError $"File upload is not available")
  | [] =>
      '(path, _) ← output_path oc ropt u;
      if skip_existing oc && file_exists w path then Ok None
      else
        _ ← opened w path;
        r ← create_request has_brotli has_zlib oc m u;
        Ok (Some (u, path, r))
  end.

(** perform_request: the requests sent, the file scope_fail removes and the end. *)
Definition perform_request (psl : option (str -> str -> bool)) (has_brotli has_zlib : bool)
    (oc : operation_config) (jar : option (list Cookie.cookie)) (exp_cookies : str)
    (m : option string_body) (ropt : request_opt) (w : world)
    : list sent * option str * task_end :=
  match start_request has_brotli has_zlib oc m ropt w with
  | Err e => ([], None, Threw e)
  | UB => ([], None, Broken)
  | Ok None => ([], None, Completed 200)
  | Ok (Some (u, path, r)) =>
      let scope_fail := if rm_partial oc && negb (path =s $"-") then Some path else None in
      match first_connect w u with
      | Err e => ([], scope_fail, Threw e)
      | UB => ([], None, Broken)
      | Ok s =>
          let '(ss, e) := follow psl oc exp_cookies u s r m jar (turns w) in
          match e with
          | Failed e => (ss, scope_fail, Threw e)
          | Undefined => (ss, None, Broken)
          | Waiting => (ss, None, Running)
          | Answered r =>
              match finish oc ropt r path (body w) with
              | Ok (status, _) => (ss, None, Completed status)
              | Err e => (ss, scope_fail, Threw e)
              | UB => (ss, None, Broken)
              end
          end
      end
  end.

(** sink::on_write: an error, or the chunk for the stream. *)
Definition on_write (terminal_binary_ok is_tty : bool) (chunk : str) : option str :=
  if negb terminal_binary_ok && is_tty && contains "000" chunk then None else Some chunk.

(** ** retry *)

Inductive error_code := Success | Aborted | Refused | BinaryOutput | Other.

Inductive task_result :=
| Finished (status : Z)
| ThrewSystem (ec : error_code)
| ThrewOther.

(** One run of the request task: its result, the time after it, whether the
    coroutine has been cancelled by then, and whether the wait after it, if there
    is one, comes to its end: a cancellation makes it throw. *)
Record attempt := mk_attempt {
  outcome : task_result;
  time : Z;
  cancelled : bool;
  waited : bool
}.

Inductive retry_end := Returned | Rethrown | Retrying.

(** The lambda next_delay: the delay and the new backoff, in seconds. *)
Definition next_delay (oc : operation_config) (backoff : Z) : Z * Z :=
  match retry_delay oc with
  | Some d => (Z.quot d 1000000000, backoff)
  | None => let backoff := if backoff <? 10 * 60 then backoff * 2 else backoff in
            (backoff, backoff)
  end.

(** The lambda can_retry. *)
Definition can_retry (oc : operation_config) (max_time now retries : Z) (ec : error_code) : bool :=
  if (retries =? 0) || (max_time <? now) then false
  else if retry_all_errors oc then true
  else match ec with
       | Success | Aborted => true
       | Refused => retry_connrefused oc
       | _ => false
       end.

(** The loop of retry: the delays waited, and how it ended. *)
Fixpoint retry_loop (oc : operation_config) (max_time retries backoff : Z)
    (xs : list attempt) : list Z * retry_end :=
  match xs with
  | [] => ([], Retrying)
  | x :: xs =>
      let again :=
        if cancelled x then ([], Returned)
        else
          let '(delay, backoff) := next_delay oc backoff in
          if negb (waited x) then ([delay], Rethrown)
          else
            let '(ds, e) := retry_loop oc max_time (u64 (retries - 1)) backoff xs in
            (delay :: ds, e) in
      match outcome x with
      | Finished st =>
          if negb (is_transient_error st) || negb (can_retry oc max_time (time x) retries Success)
          then ([], Returned) else again
      | ThrewSystem BinaryOutput => ([], Returned)
      | ThrewSystem ec =>
          if negb (can_retry oc max_time (time x) retries ec) then ([], Rethrown) else again
      | ThrewOther => ([], Rethrown)
      end
  end.

(** The local max_time, from the time retry is called: the sum of the time and
    of --retry-max-time has to fit the clock. *)
Definition retry_deadline (oc : operation_config) (start : Z) : comp exn Z :=
  match retry_maxtime oc with
  | Some d => if fits (start + d) then Ok (start + d) else UB
  | None => Ok duration_max
  end.

Definition retry (oc : operation_config) (start : Z) (xs : list attempt)
    : comp exn (list Z * retry_end) :=
  max_time ← retry_deadline oc start;
  Ok (retry_loop oc max_time (req_retry oc) 1 xs).

(** ** co_main: the cookies of the command line *)

Definition exp_cookies_of (cookies : list str) : str :=
  fold_left (fun exp s =>
    (match exp with
     | [] => []
     | _ => if ends_with $";" exp then exp else exp ++ $";"
     end) ++ s) cookies [].

End Program.

(** ** What the redirect loop keeps *)

Section Loop.
Context `{W : Web} `{FL : FieldsLaws} `{GR : Grammar} `{CA : Cookie.Calendar}.
Context {stream : Type} (psl : option (str -> str -> bool)) (oc : operation_config)
  (exp_cookies : str) (org_url : url).

#[local] Abbreviation turn := (turn (stream := stream)).
#[local] Abbreviation sent := (sent (stream := stream)).
#[local] Abbreviation transfer := (transfer (stream := stream)).

Definition header (r : request) (name : str) : option str := find_field name (hdrs r).

(** The origins that may see the credentials. *)
Definition entitled (u : url) : Prop :=
  encoded_origin org_url = encoded_origin u \/ unrestricted_auth oc = true.

Record loop_inv (st : transfer) : Prop := {
  li_trusted : t_trusted st = true -> entitled (t_url st);
  li_auth : header (t_request st) $"Authorization" <> None -> entitled (t_url st);
  li_conn : encoded_origin (t_conn st) = encoded_origin (t_url st);
  li_referer : t_referer st = t_url st
}.

(** What is true of the requests after the first. *)
Definition redirected (u : url) (r : request) : Prop :=
  header r $"Host" = Some (host_and_port u) /\ scheme u ∈ proto_redir oc.

Lemma header_set r n v a :
  header (set n v r) a = if same_name a n then Some v else header r a.
Proof. unfold header, set. simpl. apply find_set_law. Qed.

Lemma header_erase r n a :
  header (erase n r) a = if same_name a n then None else header r a.
Proof. unfold header, erase. simpl. apply find_erase_law. Qed.

Lemma header_target r u a : header (set_target oc r u) a = header r a.
Proof. unfold set_target. by destruct (request_target oc). Qed.

Lemma set_cookies_inv now u t jar r jar' r' :
  set_cookies now exp_cookies u t jar r = Ok (jar', r') ->
  (forall a, same_name a $"Cookie" = false -> header r' a = header r a) /\
  method r' = method r /\
  (forall c, header r' $"Cookie" = Some c ->
     exists j, c = j ++ (if t then exp_cookies else []) /\
       match jar with
       | Some k => exists k', Cookie.make_field now (url_view u) k = Ok (j, k')
       | None => j = []
       end).
Proof.
  unfold set_cookies. intros HE.
  assert (exists j, (match jar with
       | Some k => exists k', Cookie.make_field now (url_view u) k = Ok (j, k')
       | None => j = [] end) /\
     r' = match (if t then j ++ exp_cookies else j) with
          | [] => erase $"Cookie" r
          | c => set $"Cookie" c (erase $"Cookie" r) end) as (j & Hj & ->).
  { destruct jar as [k|].
    - destruct (Cookie.make_field now (url_view u) k) as [[j k']| |] eqn:E; simpl in HE; try done.
      injection HE as _ <-. exists j. split; [by exists k'|].
      destruct t; [by destruct (j ++ exp_cookies)|by destruct j].
    - simpl in HE. injection HE as _ <-. exists []. split; [done|].
      destruct t; [by destruct exp_cookies|done]. }
  set (c := if t then j ++ exp_cookies else j).
  assert (c = j ++ (if t then exp_cookies else [])) as Hc.
  { unfold c. destruct t; [done|by rewrite app_nil_r]. }
  split; [|split].
  - intros a Ha. destruct c; rewrite ?header_set, ?header_erase, ?Ha; done.
  - by destruct c.
  - intros x. destruct c as [|b c'] eqn:Ec; rewrite ?header_set, ?header_erase;
      rewrite same_name_refl; [done|]. intros [= <-].
    exists j. split; [congruence|done].
Qed.

(** The connection of the next request: the old one, or one opened for [u]. *)
Definition connection (x : turn) (r : response) (st : transfer) (u : url) : comp exn (url * stream) :=
  if can_reuse_connection r (t_referer st) u && discarded x
  then Ok (t_conn st, t_stream st) else s ← connected x u; Ok (u, s).

Lemma connection_inv x r st u conn s :
  loop_inv st -> connection x r st u = Ok (conn, s) ->
  encoded_origin conn = encoded_origin u /\
  (conn = t_conn st /\ s = t_stream st \/ connected x conn = Ok s).
Proof.
  intros HI. unfold connection, can_reuse_connection. intros HE.
  destruct (_ && discarded x) eqn:E.
  - injection HE as <- <-. split; [|by left]. apply andb_true_iff in E as [E _].
    destruct (bool_decide_reflect (encoded_origin (t_referer st) = encoded_origin u)) as [Heq|];
      [|done]. by rewrite (li_conn _ HI), <- (li_referer _ HI).
  - destruct (connected x u) eqn:Ec; cbn in HE; try done. injection HE as <- <-.
    split; [done|by right].
Qed.

(** prepare_next leads to a state of the invariant, for a redirected request. *)
Lemma prepare_next_inv x r nmc st st' :
  loop_inv st -> prepare_next oc org_url x r nmc st = Ok st' ->
  loop_inv st' /\ redirected (t_url st') (t_request st') /\
  t_maxredirs st' = t_maxredirs st /\
  (t_conn st' = t_conn st /\ t_stream st' = t_stream st \/
   connected x (t_conn st') = Ok (t_stream st')).
Proof.
  intros HI. unfold prepare_next. intros HE.
  destruct (redirect_url r (t_referer st)) as [u| |]; cbn [mbind comp_bind] in HE; try done.
  destruct (bool_decide_reflect (scheme u ∈ proto_redir oc)) as [Hp|];
    cbn [negb] in HE; [|done].
  destruct (connection x r st u) as [[conn s]| |] eqn:Ec; unfold connection in Ec;
    rewrite Ec in HE; cbn [mbind comp_bind] in HE; try done.
  apply connection_inv in Ec as [Ho Hs]; [|done].
  match type of HE with (let '(_, _) := ?q in _) = _ => destruct q as [req m] eqn:Eq end.
  assert (forall a, header req a <> None -> header (t_request st) a <> None) as Hreq.
  { intros a. destruct (nmc && _); injection Eq as <- _; [|done].
    rewrite !header_erase. repeat (destruct (same_name a _); [done|]). done. }
  injection HE as <-. split; [|split; [split; [|done]|by split]].
  - split; simpl.
    + intros Ht. unfold entitled. apply orb_true_iff in Ht as [Ht|Ht]; [left|by right].
      by apply bool_decide_eq_true in Ht.
    + rewrite header_set. change (same_name $"Authorization" $"Host") with false. cbv iota.
      intros Ha. unfold entitled.
      destruct (bool_decide_reflect (encoded_origin org_url = encoded_origin u)); [by left|].
      right. destruct (unrestricted_auth oc) eqn:Eu; [done|]. exfalso. apply Ha. simpl.
      destruct (autoreferer oc); rewrite ?header_set, header_erase; done.
    + exact Ho.
    + done.
  - simpl. by rewrite header_set, same_name_refl.
Qed.

Lemma iterate_inv x st ss o :
  loop_inv st -> iterate psl oc exp_cookies org_url x st = (ss, o) ->
  (length ss <= 1)%nat /\
  (forall s, In s ss ->
     s_time s = now (written x) /\ s_url s = t_url st /\ (s_conn s = t_conn st /\ s_stream s = t_stream st) /\
     s_trusted s = t_trusted st /\
     (forall a, same_name a $"Cookie" = false ->
        header (s_request s) a = header (t_request st) a) /\
     (forall c, header (s_request s) $"Cookie" = Some c ->
        exists j, c = j ++ (if t_trusted st then exp_cookies else []) /\
          match option_map (meanwhile (written x)) (t_jar st) with
          | Some k => exists k', Cookie.make_field (now (written x)) (url_view (t_url st)) k = Ok (j, k')
          | None => j = []
          end)) /\
  match o with
  | Ok (Follow, st') =>
      loop_inv st' /\ redirected (t_url st') (t_request st') /\
      t_maxredirs st <> 0 /\ t_maxredirs st' = t_maxredirs st - 1 /\
      followlocation oc = true /\
      (t_conn st' = t_conn st /\ t_stream st' = t_stream st \/
       connected x (t_conn st') = Ok (t_stream st'))
  | _ => True
  end.
Proof.
  intros HI. unfold iterate.
  destruct (set_cookies _ exp_cookies (t_url st) (t_trusted st) _ (t_request st))
    as [[jar req]| |] eqn:ES; [|intros [= <- <-]; (split; [simpl; lia|by split])..].
  apply set_cookies_inv in ES as (Hh & _ & Hc). intros [= <- <-].
  split; [simpl; lia|]. split.
  { intros s [<-|[]]. repeat split; done. }
  destruct (answer x) as [r| |]; simpl; try done.
  destruct (extract_cookies psl _ (t_url st) r _) as [jar'| |]; simpl; try done.
  destruct (is_redirect oc (status r)) as [red nmc].
  destruct (followlocation oc) eqn:Efl; [|by rewrite orb_true_r].
  rewrite orb_false_r. destruct (negb red); [done|]. simpl.
  destruct (Z.eqb_spec (t_maxredirs st) 0); [done|].
  match goal with |- context [prepare_next oc org_url x r nmc ?st1] => set (st1' := st1) end.
  destruct (prepare_next oc org_url x r nmc st1') as [st2| |] eqn:EP; simpl; try done.
  apply prepare_next_inv in EP; [by simpl in EP; destruct EP as (? & ? & ? & ?)|].
  destruct HI as [HI1 HI2 HI3 HI4]. split; simpl; try done.
  rewrite Hh by done. done.
Qed.

(** What holds of a request the loop has sent. *)
Definition sent_ok (s : sent) : Prop :=
  (s_trusted s = true -> entitled (s_url s)) /\
  (header (s_request s) $"Authorization" <> None -> entitled (s_url s)) /\
  encoded_origin (s_conn s) = encoded_origin (s_url s).

Lemma iterate_sent_ok x st ss o s :
  loop_inv st -> iterate psl oc exp_cookies org_url x st = (ss, o) -> In s ss -> sent_ok s.
Proof.
  intros HI HE Hs. destruct (iterate_inv _ _ _ _ HI HE) as (_ & HS & _).
  destruct (HS s Hs) as (_ & Hu & [Hc _] & Ht & Hh & _). unfold sent_ok. rewrite Hu, Hc, Ht.
  split; [apply HI|]. split; [rewrite Hh by done; apply HI|apply HI].
Qed.

Lemma loop_sent xs : forall st,
  loop_inv st ->
  let ss := fst (loop psl oc exp_cookies org_url xs st) in
  Forall sent_ok ss /\
  (0 <= t_maxredirs st -> Z.of_nat (length ss) <= t_maxredirs st + 1) /\
  (followlocation oc = false -> (length ss <= 1)%nat) /\
  (forall s, In s (tail ss) -> redirected (s_url s) (s_request s)) /\
  (forall s, In s ss -> redirected (t_url st) (t_request st) ->
     redirected (s_url s) (s_request s)).
Proof.
  induction xs as [|x xs IH]; intros st HI.
  { simpl. repeat split; try done; lia. }
  cbn [loop]. destruct (iterate psl oc exp_cookies org_url x st) as [ss o] eqn:EI.
  destruct (iterate_inv _ _ _ _ HI EI) as (Hlen & HS & Ho).
  assert (Forall sent_ok ss) as Hok.
  { apply List.Forall_forall. intros s Hs. by eapply iterate_sent_ok. }
  assert (forall s, In s ss -> redirected (t_url st) (t_request st) ->
    redirected (s_url s) (s_request s)) as Hred.
  { intros s Hs [Hh Hp]. destruct (HS s Hs) as (_ & Hu & _ & _ & Hhd & _). unfold redirected.
    rewrite Hu, Hhd by done. done. }
  assert (forall s, ~ In s (tail ss)) as Htl.
  { intros s Hs. destruct ss as [|? [|? ?]]; simpl in *; [done|done|lia]. }
  destruct o as [[[r|] st']|e|]; simpl;
    try (split; [done|]; split; [lia|]; split; [done|];
         split; [intros s Hs; by destruct (Htl s)|done]).
  destruct Ho as (HI' & Hr' & Hne & Hm & Hfl & _).
  destruct (IH st' HI') as (Hok' & Hl' & _ & _ & Hred').
  destruct (loop psl oc exp_cookies org_url xs st') as [ss' e]. simpl in *.
  split; [by apply Forall_app|]. split; [rewrite length_app; lia|].
  split; [by rewrite Hfl|]. split.
  - intros s Hs. assert (In s ss') as Hs'.
    { destruct ss as [|s0 [|? ?]]; simpl in *; [by destruct ss'; [|right]|done|lia]. }
    by apply Hred'.
  - intros s [Hs|Hs]%in_app_iff Hr; [by apply Hred|by apply Hred'].
Qed.

(** Every request goes over the stream that connecting to a URL gave: the first
    one, or one of a later turn. *)
Lemma loop_streams xs : forall st,
  loop_inv st ->
  Forall (fun s => s_conn s = t_conn st /\ s_stream s = t_stream st \/
                   exists x, In x xs /\ connected x (s_conn s) = Ok (s_stream s))
    (fst (loop psl oc exp_cookies org_url xs st)).
Proof.
  induction xs as [|x xs IH]; intros st HI; [constructor|].
  cbn [loop]. destruct (iterate psl oc exp_cookies org_url x st) as [ss o] eqn:EI.
  destruct (iterate_inv _ _ _ _ HI EI) as (_ & HS & Ho).
  assert (Forall (fun s => s_conn s = t_conn st /\ s_stream s = t_stream st \/
    exists y, In y (x :: xs) /\ connected y (s_conn s) = Ok (s_stream s)) ss) as Hss.
  { apply List.Forall_forall. intros s Hs. left. by destruct (HS s Hs) as (_ & _ & ? & _). }
  destruct o as [[[r|] st']|e|]; simpl; try done.
  destruct Ho as (HI' & _ & _ & _ & _ & Hst). specialize (IH st' HI').
  destruct (loop psl oc exp_cookies org_url xs st') as [ss' e]. simpl in *.
  apply Forall_app. split; [done|]. eapply Forall_impl; [exact IH|].
  intros s [[Hc Hs]|(y & Hy & Hs)]; simpl; [|right; exists y; by split; [right|]].
  rewrite Hc, Hs. destruct Hst as [[-> ->]|Hst]; [by left|]. right. exists x. by split; [left|].
Qed.

Lemma start_inv req m s jar :
  loop_inv (mk_transfer org_url org_url true (maxredirs oc) req m org_url s jar).
Proof. split; simpl; try done; intros; by left. Qed.

Definition requests {A B} (o : list sent * A * B) : list sent := fst (fst o).

(** perform_request sends what the loop sends, or nothing. *)
Lemma perform_follow brotli zlib jar m ropt w :
  prepare_url oc ropt = Ok org_url ->
  let ss := requests (perform_request psl brotli zlib oc jar exp_cookies m ropt w) in
  ss = [] \/ exists r s, create_request brotli zlib oc m org_url = Ok r /\
    first_connect w org_url = Ok s /\
    ss = fst (follow psl oc exp_cookies org_url s r m jar (turns w)).
Proof.
  intros Hu. unfold perform_request, start_request. rewrite Hu. cbn [mbind comp_bind].
  destruct (ro_input ropt); [|by left].
  destruct (output_path oc ropt org_url) as [[path ok]| |]; cbn [mbind comp_bind]; try by left.
  destruct (skip_existing oc && file_exists w path); [by left|].
  destruct (opened w path); cbn [mbind comp_bind]; try by left.
  destruct (create_request brotli zlib oc m org_url) as [r| |]; cbn [mbind comp_bind];
    try by left.
  destruct (first_connect w org_url) as [s| |] eqn:Es; try by left.
  right. exists r, s. split; [done|]. split; [done|].
  destruct (follow psl oc exp_cookies org_url s r m jar (turns w)) as [ss [r'|e| |]];
    try done. by destruct (finish oc ropt r' path (body w)) as [[? ?]| |].
Qed.

Lemma perform_requests brotli zlib jar m ropt w :
  prepare_url oc ropt = Ok org_url ->
  let ss := requests (perform_request psl brotli zlib oc jar exp_cookies m ropt w) in
  ss = [] \/ exists st, loop_inv st /\ t_maxredirs st = maxredirs oc /\
    t_conn st = org_url /\ first_connect w org_url = Ok (t_stream st) /\
    ss = fst (loop psl oc exp_cookies org_url (turns w) st).
Proof.
  intros Hu. destruct (perform_follow brotli zlib jar m ropt w Hu) as [->|(r & s & _ & Hs & ->)];
    [by left|right].
  eexists. split; [apply (start_inv r m s jar)|done].
Qed.

End Loop.

(** ** The jar along the loop *)

Section Jars.
Context `{W : Web} `{FL : FieldsLaws} `{GL : GrammarLaws} `{CA : Cookie.Calendar}.
Context {stream : Type} (psl : option (str -> str -> bool)) (oc : operation_config)
  (exp_cookies : str) (org_url : url).

#[local] Abbreviation turn := (turn (stream := stream)).
#[local] Abbreviation sent := (sent (stream := stream)).
#[local] Abbreviation transfer := (transfer (stream := stream)).

Definition good_jar (jar : option (list Cookie.cookie)) : Prop :=
  forall k, jar = Some k -> Cookie.jar_reachable k.

(** The other transfers only make calls on the jar. *)
Definition only_calls (m : moment) : Prop :=
  forall k, Cookie.jar_reachable k -> Cookie.jar_reachable (meanwhile m k).

(** What a jar gives for a URL: the cookies that match it and have not expired, the
    secure ones only over https. *)
Definition from_jar (n : Z) (u : url) (j : str) : Prop :=
  exists jar cs, Cookie.jar_reachable jar /\
    cs = List.filter (fun c => bool_decide (Cookie.sent (url_view u) c = Ok true))
           (List.filter (fun c => match Cookie.expires c with Some e => n <? e | None => true end) jar) /\
    j = concat (map Cookie.field_of cs) /\
    Forall (fun c => Cookie.secure c = true -> Cookie.is_https (url_view u) = true) cs.

Definition cookies_ok (s : sent) : Prop :=
  forall c, header (s_request s) $"Cookie" = Some c ->
  exists j, c = j ++ (if s_trusted s then exp_cookies else []) /\
    from_jar (s_time s) (s_url s) j.

Lemma make_field_from_jar n u k j k' :
  Cookie.jar_reachable k -> Cookie.make_field n (url_view u) k = Ok (j, k') ->
  from_jar n u j /\ Cookie.jar_reachable k'.
Proof.
  intros HK HM. split; [|by eapply Cookie.jar_next, Cookie.step_send].
  rewrite (Cookie.make_field_spec _ _ _ (Cookie.jar_complete _ HK)) in HM.
  injection HM as <- _. eexists k, _. split; [done|]. split; [done|]. split; [done|].
  apply List.Forall_forall. intros c [_ Hc%bool_decide_eq_true]%filter_In.
  by apply Cookie.sent_facts.
Qed.

Lemma from_no_jar n u : from_jar n u [].
Proof. exists [], []. split; [constructor|done]. Qed.

Lemma set_cookies_jar n u t jar r jar' r' :
  good_jar jar -> set_cookies n exp_cookies u t jar r = Ok (jar', r') -> good_jar jar'.
Proof.
  intros HG. unfold set_cookies. destruct jar as [k|]; cbn [mbind comp_bind]; [|by intros [= <- _]].
  destruct (Cookie.make_field n (url_view u) k) as [[j k']| |] eqn:E; cbn; try done.
  intros [= <- _] k'' [= <-]. by apply (make_field_from_jar n u k j k'); [apply HG|].
Qed.

Lemma add_cookies_jar n u svs : forall k k',
  Cookie.jar_reachable k -> add_cookies psl n u svs k = Ok k' -> Cookie.jar_reachable k'.
Proof.
  induction svs as [|sv svs IH]; intros k k' HK; cbn [add_cookies]; [by intros [= <-]|].
  destruct (Cookie.parse_cookie n sv) as [c|[]|] eqn:E; try done. apply IH.
  eapply Cookie.jar_next; [exact HK|]. by eapply Cookie.step_set.
Qed.

Lemma extract_cookies_jar n u r jar jar' :
  good_jar jar -> extract_cookies psl n u r jar = Ok jar' -> good_jar jar'.
Proof.
  intros HG. unfold extract_cookies. destruct jar as [k|]; [|by intros [= <-]].
  destruct (add_cookies psl n u _ k) as [k'| |] eqn:E; cbn; try done.
  intros [= <-] k'' [= <-]. by eapply add_cookies_jar; [apply HG|].
Qed.

Lemma meanwhile_jar m jar :
  only_calls m -> good_jar jar -> good_jar (option_map (meanwhile m) jar).
Proof. intros HM HG k. destruct jar; [|done]. intros [= <-]. by apply HM, HG. Qed.

Lemma prepare_next_jar x r nmc (st st' : transfer) :
  prepare_next oc org_url x r nmc st = Ok st' -> t_jar st' = t_jar st.
Proof.
  unfold prepare_next. intros HE.
  destruct (redirect_url r (t_referer st)) as [u| |]; cbn [mbind comp_bind] in HE; try done.
  destruct (negb (bool_decide (scheme u ∈ proto_redir oc))); [done|].
  match type of HE with mbind _ ?c = _ => destruct c as [[conn s]| |] end;
    cbn [mbind comp_bind] in HE; try done.
  destruct (nmc && _); by injection HE as <-.
Qed.

Lemma iterate_jar x (st : transfer) ss o :
  loop_inv oc org_url st -> good_jar (t_jar st) ->
  only_calls (written x) -> only_calls (received x) ->
  iterate psl oc exp_cookies org_url x st = (ss, o) ->
  Forall cookies_ok ss /\ match o with Ok (Follow, st') => good_jar (t_jar st') | _ => True end.
Proof.
  intros HI HG Hw Hr HE. pose proof (meanwhile_jar _ _ Hw HG) as HGw. split.
  { apply List.Forall_forall. intros s Hs c Hc.
    destruct (iterate_inv psl oc exp_cookies org_url x st ss o HI HE) as (_ & HS & _).
    destruct (HS s Hs) as (Hn & Hu & _ & Ht & _ & Hk). destruct (Hk c Hc) as (j & -> & Hj).
    exists j. rewrite Ht, Hn, Hu. split; [done|].
    destruct (option_map _ (t_jar st)) as [k|]; [|subst j; apply from_no_jar].
    destruct Hj as [k' Hk']. by apply (make_field_from_jar _ _ k j k'); [apply HGw|]. }
  revert HE. unfold iterate.
  destruct (set_cookies _ exp_cookies _ _ _ _) as [[jar req]| |] eqn:ES; [|by intros [= _ <-]..].
  apply set_cookies_jar in ES; [|done]. intros [= _ <-].
  destruct (answer x) as [r| |]; simpl; try done.
  destruct (extract_cookies psl _ (t_url st) r _) as [jar'| |] eqn:EE; simpl; try done.
  apply extract_cookies_jar in EE; [|by apply meanwhile_jar].
  destruct (is_redirect oc (status r)) as [red nmc].
  destruct (_ || _); [done|]. destruct (t_maxredirs st =? 0); [done|].
  match goal with |- context [prepare_next oc org_url x r nmc ?st1] =>
    destruct (prepare_next oc org_url x r nmc st1) as [st2| |] eqn:EP end; simpl; try done.
  by rewrite (prepare_next_jar _ _ _ _ _ EP).
Qed.

Lemma loop_cookies xs : forall (st : transfer),
  loop_inv oc org_url st -> good_jar (t_jar st) ->
  Forall (fun x => only_calls (written x) /\ only_calls (received x)) xs ->
  Forall cookies_ok (fst (loop psl oc exp_cookies org_url xs st)).
Proof.
  induction xs as [|x xs IH]; intros st HI HG HX; [constructor|].
  apply Forall_cons in HX as [[Hw Hr] HX].
  cbn [loop]. destruct (iterate psl oc exp_cookies org_url x st) as [ss o] eqn:EI.
  destruct (iterate_jar _ _ _ _ HI HG Hw Hr EI) as [HS Ho].
  pose proof (iterate_inv psl oc exp_cookies org_url _ _ _ _ HI EI) as (_ & _ & HO).
  destruct o as [[[r|] st']|e|]; simpl; try done. destruct HO as [HI' _].
  specialize (IH st' HI' Ho HX). destruct (loop _ _ _ _ xs st') as [ss' e].
  by apply Forall_app.
Qed.

End Jars.

(** ** What create_request puts in the header *)

Section Create.
Context `{W : Web} `{FL : FieldsLaws}.

Ltac names :=
  repeat match goal with
  | |- context [same_name ?a ?b] =>
      let v := eval vm_compute in (same_name a b) in
      replace (same_name a b) with v by (vm_compute; reflexivity)
  end; cbv iota.

Lemma header_set_opt n v r a :
  header (set_opt n v r) a =
  if same_name a n then match v with Some v => Some v | None => header r a end
  else header r a.
Proof.
  destruct v as [v|]; simpl; [|by destruct (same_name a n)]. apply header_set.
Qed.

Lemma header_set_headers m r a :
  same_name a $"Content-Type" = false -> same_name a $"Content-Length" = false ->
  same_name a $"Expect" = false -> header (set_headers m r) a = header r a.
Proof.
  intros Ht Hl He. destruct m as [[b ct]|]; [|done]. unfold set_headers. cbv zeta.
  destruct (_ && _); rewrite !header_set, ?Ht, ?Hl, ?He; done.
Qed.

Lemma version_target oc r u : version (set_target oc r u) = version r.
Proof. unfold set_target. by destruct (request_target oc). Qed.

Lemma method_target oc r u : method (set_target oc r u) = method r.
Proof. unfold set_target. by destruct (request_target oc). Qed.

Lemma version_set_opt n v r : version (set_opt n v r) = version r.
Proof. by destruct v. Qed.

Lemma version_set_headers m r : version (set_headers m r) = version r.
Proof. destruct m as [[b ct]|]; [|done]. unfold set_headers. cbv zeta. by destruct (_ && _). Qed.

Lemma method_set_opt n v r : method (set_opt n v r) = method r.
Proof. by destruct v. Qed.

Lemma method_set_headers m r : is_Some m -> method (set_headers m r) = $"POST".
Proof.
  intros [[b ct] ->]. unfold set_headers. cbv zeta. by destruct (_ && _).
Qed.

(** The fields create_request sets itself; [None] where it sets none. *)
Definition default_fields (brotli zlib : bool) (oc : operation_config)
    (m : option string_body) (u : url) : list (str * option str) :=
  [($"Host", Some (host_and_port u));
   ($"User-Agent", Some (default $"Boost.Http.Io" (useragent oc)));
   ($"Accept", Some $"*/*");
   ($"Content-Type", snd <$> m);
   ($"Content-Length", (fun b => dec (Z.of_nat (length (fst b)))) <$> m);
   ($"Expect", b ← m;
      if (1024 * 1024 <=? Z.of_nat (length (fst b))) && negb (http10 oc)
      then Some $"100-continue" else None);
   ($"Range", match range oc, resume_from oc with
              | Some s, _ => Some ($"bytes=" ++ s)
              | None, Some n => Some ($"bytes=" ++ dec n ++ $"-")
              | None, None => None
              end);
   ($"Referer", nonempty (buffer (referer oc)));
   ($"Authorization", authorization oc u);
   ($"Accept-Encoding",
      if encoding oc then nonempty (accept_encoding brotli zlib) else None)].

Definition default_field (brotli zlib : bool) (oc : operation_config)
    (m : option string_body) (u : url) (a : str) : option str :=
  match List.find (fun p => same_name a (fst p)) (default_fields brotli zlib oc m u) with
  | Some p => snd p
  | None => None
  end.

Lemma header_set_headers_eq m r a :
  header (set_headers m r) a =
  match m with
  | None => header r a
  | Some (b, ct) =>
      let n := Z.of_nat (length b) in
      if same_name a $"Expect" && ((1024 * 1024 <=? n) && (version r =? 11))
      then Some $"100-continue"
      else if same_name a $"Content-Length" then Some (dec n)
      else if same_name a $"Content-Type" then Some ct
      else header r a
  end.
Proof.
  destruct m as [[b ct]|]; [|done]. unfold set_headers. cbv zeta.
  change (version (set $"Content-Length" _ _)) with (version r).
  destruct (_ && (version r =? 11)); rewrite !header_set; [|by rewrite andb_false_r].
  by rewrite andb_true_r.
Qed.

Lemma option_eta {A} (o : option A) :
  match o with Some v => Some v | None => None end = o.
Proof. by destruct o. Qed.

(** One case per name of the table. *)
Ltac by_name a :=
  match goal with |- context [same_name a ?n] =>
    let E := fresh in
    destruct (same_name a n) eqn:E;
    [repeat match goal with |- context [same_name a ?k] =>
       rewrite (same_name_trans a n k E) end; names|] end.

Lemma create_request_inv brotli zlib oc m u r :
  create_request brotli zlib oc m u = Ok r ->
  exists h, hdrs r = erase_all (omitheaders oc) (set_all (field_list (headers oc)) h) /\
    (forall a, find_field a h = default_field brotli zlib oc m u a) /\
    version r = (if http10 oc then 10 else 11) /\
    method r = match m, customrequest oc with
               | Some _, _ => $"POST"
               | None, Some c => c
               | None, None => if no_body oc then $"HEAD" else $"GET"
               end.
Proof.
  unfold create_request. destruct (disallow_username_in_url oc && has_userinfo u); [done|].
  intros [= <-]. cbn [hdrs method version]. eexists. split; [done|].
  match goal with |- context [set_target oc ?q u] =>
    assert (forall a, header q a = None) as Hb
      by (intros a; unfold header; destruct (customrequest oc); apply find_none_law);
    assert (version q = if http10 oc then 10 else 11) as Hv by done;
    assert (method q = match customrequest oc with
       | Some c => c | None => if no_body oc then $"HEAD" else $"GET" end) as Hm
      by (by destruct (customrequest oc));
    generalize dependent q end.
  intros base Hb Hv Hm. split; [|split].
  - intros a.
    match goal with |- find_field ?a (hdrs ?q) = _ => change (find_field a (hdrs q)) with (header q a) end.
    rewrite !header_set_opt, header_set_headers_eq, !header_set, header_target, Hb.
    cbn [version set]. rewrite version_target, Hv. unfold default_field, default_fields.
    replace ((if http10 oc then 10 else 11) =? 11) with (negb (http10 oc)) by by destruct (http10 oc).
    cbn [List.find fst snd]. cbn [txt String.list_ascii_of_string].
    destruct m as [[b ct]|]; cbn [fst snd fmap option_fmap option_map mbind option_bind];
      repeat by_name a; cbn [andb snd]; rewrite ?option_eta; try reflexivity;
      try (by case_match); destruct (range oc), (resume_from oc); reflexivity.
  - rewrite !version_set_opt, version_set_headers. cbn [version set]. by rewrite version_target.
  - rewrite !method_set_opt. destruct m as [p|]; [by apply method_set_headers; exists p|].
    cbn [set_headers method set]. by rewrite method_target.
Qed.

(** The header of the request, from the header before the command line's. *)
Lemma final_header oc h a :
  plain (headers oc) ->
  find_field a (erase_all (omitheaders oc) (set_all (field_list (headers oc)) h)) =
    if existsb (same_name a) (omitheaders oc) then None
    else match find_field a (headers oc) with
         | Some v => Some v
         | None => find_field a h
         end.
Proof. intros Hp. by rewrite find_erase_all, find_copy by done. Qed.

End Create.

(** ** Retries *)

Section Retry.
Context `{L : Libs} `{F : Fields}.
Context (oc : operation_config) (max_time : Z).

(** The backoff after [i] delays: it doubles up to 1024 seconds. *)
Definition backoff_at (i : nat) : Z := 2 ^ Z.of_nat (Nat.min i 10).

(** The i-th delay, in seconds. *)
Definition delay_at (i : nat) : Z :=
  match retry_delay oc with
  | Some d => Z.quot d 1000000000
  | None => backoff_at (S i)
  end.

Lemma next_delay_at i :
  exists b, next_delay oc (backoff_at i) = (delay_at i, b) /\
    (retry_delay oc = None -> b = backoff_at (S i)).
Proof.
  unfold next_delay, delay_at. destruct (retry_delay oc); [by eexists|].
  eexists. split; [|done].
  assert ((if backoff_at i <? 10 * 60 then backoff_at i * 2 else backoff_at i) = backoff_at (S i))
    as ->; [|done].
  unfold backoff_at. do 10 (destruct i as [|i]; [done|]).
  by rewrite !Nat.min_r by lia.
Qed.

(** What [can_retry] answers while retries are left. *)
Definition may_retry (now : Z) (ec : error_code) : bool :=
  (now <=? max_time) &&
  (retry_all_errors oc ||
   match ec with Success | Aborted => true | Refused => retry_connrefused oc | _ => false end).

(** Whether a run of the task is followed by a delay, after which it is run again
    if the wait is not cancelled. *)
Definition retriable (x : attempt) : bool :=
  negb (cancelled x) &&
  match outcome x with
  | Finished st => is_transient_error st && may_retry (time x) Success
  | ThrewSystem BinaryOutput | ThrewOther => false
  | ThrewSystem ec => may_retry (time x) ec
  end.

(** How many of the runs at the start of [xs] are. *)
Fixpoint leading (xs : list attempt) : nat :=
  match xs with
  | x :: xs => if retriable x then S (if waited x then leading xs else O) else O
  | [] => O
  end.

Lemma can_retry_may now retries ec :
  can_retry oc max_time now retries ec = negb (retries =? 0) && may_retry now ec.
Proof.
  unfold can_retry, may_retry. destruct (Z.eqb_spec retries 0); [done|]. simpl.
  destruct (Z.ltb_spec max_time now), (Z.leb_spec now max_time); try lia; try done.
Qed.

(** One run that is retried, and one that is not. *)
Lemma retry_loop_again x xs i retries b :
  retriable x = true -> 0 < retries < 2 ^ 64 -> (retry_delay oc = None -> b = backoff_at i) ->
  exists b', (retry_delay oc = None -> b' = backoff_at (S i)) /\
    retry_loop oc max_time retries b (x :: xs) =
      let rest := if waited x then retry_loop oc max_time (retries - 1) b' xs
                  else ([], Rethrown) in
      (delay_at i :: fst rest, snd rest).
Proof.
  intros Hx Hr Hb. unfold retriable in Hx. apply andb_true_iff in Hx as [Hc Hx].
  assert (exists b', next_delay oc b = (delay_at i, b') /\
    (retry_delay oc = None -> b' = backoff_at (S i))) as (b' & Hn & Hb').
  { destruct (next_delay_at i) as (b' & Hn & Hb'). unfold next_delay, delay_at in *.
    destruct (retry_delay oc); [by eexists|]. rewrite Hb by done. rewrite Hn. by eexists. }
  exists b'. split; [done|]. cbn [retry_loop]. rewrite Hn, wrap_small by lia.
  destruct (cancelled x); [done|].
  rewrite !can_retry_may. destruct (Z.eqb_spec retries 0); [lia|].
  destruct (retry_loop oc max_time (retries - 1) b' xs).
  destruct (waited x); destruct (outcome x) as [st|[]|]; try done; simpl in *;
    rewrite ?can_retry_may, ?Hx; try (destruct (Z.eqb_spec retries 0); [lia|]); try done;
    by apply andb_true_iff in Hx as [-> ->].
Qed.

Lemma retry_loop_stop x xs retries b :
  retriable x = false \/ retries = 0 -> fst (retry_loop oc max_time retries b (x :: xs)) = [].
Proof.
  intros Hx. cbn [retry_loop]. rewrite !can_retry_may.
  destruct (cancelled x) eqn:Ec;
    [destruct (outcome x) as [st|[]|]; try done; rewrite ?can_retry_may; by case_match|].
  assert (negb (retries =? 0) && match outcome x with
     | Finished st => is_transient_error st && may_retry (time x) Success
     | ThrewSystem BinaryOutput | ThrewOther => false
     | ThrewSystem ec => may_retry (time x) ec end = false) as Hf.
  { destruct Hx as [Hx|Hx]; [|by subst]. unfold retriable in Hx. rewrite Ec in Hx.
    simpl in Hx. rewrite Hx. apply andb_false_r. }
  destruct (outcome x) as [st|[]|]; try done; rewrite ?can_retry_may, ?Hf; try done.
  destruct (is_transient_error st); [|done]. simpl in *. by rewrite Hf.
Qed.

Lemma retry_loop_spec xs : forall i retries b,
  0 <= retries < 2 ^ 64 -> (retry_delay oc = None -> b = backoff_at i) ->
  fst (retry_loop oc max_time retries b xs) =
  map delay_at (seq i (Nat.min (Z.to_nat retries) (leading xs))).
Proof.
  induction xs as [|x xs IH]; intros i retries b Hr Hb; [by rewrite Nat.min_0_r|].
  cbn [leading]. destruct (retriable x) eqn:Ex; cycle 1.
  { rewrite Nat.min_0_r. apply retry_loop_stop. by left. }
  destruct (Z.eq_dec retries 0) as [->|Hne].
  { apply retry_loop_stop. by right. }
  destruct (retry_loop_again x xs i retries b Ex ltac:(lia) Hb) as (b' & Hb' & ->).
  replace (Z.to_nat retries) with (S (Z.to_nat (retries - 1))) by lia. cbn [fst].
  destruct (waited x); cbn [fst Nat.min seq map]; [|by rewrite Nat.min_0_r].
  rewrite (IH (S i)) by (done || lia). done.
Qed.

Lemma retry_within start xs :
  let last := match retry_maxtime oc with Some d => start + d | None => duration_max end in
  retry oc start xs =
  if fits last then Ok (retry_loop oc last (req_retry oc) 1 xs) else UB.
Proof. unfold retry, retry_deadline. destruct (retry_maxtime oc); [by case_match|done]. Qed.

(** A run can always throw. *)
Lemma retry_throws :
  exists start ds, retry oc start [mk_attempt ThrewOther 0 false true] = Ok (ds, Rethrown).
Proof.
  exists (match retry_maxtime oc with Some d => - d | None => 0 end), [].
  rewrite retry_within. destruct (retry_maxtime oc); [by rewrite Z.add_opp_diag_l|done].
Qed.

End Retry.

(** ** The properties *)

Section Properties.
Context `{W : Web} `{FL : FieldsLaws} `{GL : GrammarLaws} `{CA : Cookie.Calendar}.
Context {stream : Type}.

(** C3: whatever the servers answer and whatever other transfers do to the jar
    they share meanwhile, every request of a transfer carries an Authorization
    field, or the cookies of the command line, only when its URL has the origin of
    the URL of the transfer or --location-trusted is given; the rest of its Cookie
    field is made of exactly the cookies of a jar reachable by calls that match its
    own URL and have not expired then, the secure ones only over https; and it is
    sent on a connection opened for the origin of its own URL. *)
Theorem credentials_stay_with_origin psl brotli zlib oc jar exp_cookies m ropt
    (w : world (stream := stream)) u :
  prepare_url oc ropt = Ok u -> good_jar jar ->
  Forall (fun x => only_calls (written x) /\ only_calls (received x)) (turns w) ->
  Forall (fun s => sent_ok oc u s /\ cookies_ok exp_cookies s)
    (requests (perform_request psl brotli zlib oc jar exp_cookies m ropt w)).
Proof.
  intros Hu HJ HX. destruct (perform_follow psl oc exp_cookies u brotli zlib jar m ropt w Hu)
    as [->|(r & s & _ & _ & ->)]; [done|].
  apply Forall_and. split; [by apply loop_sent, start_inv|].
  by apply loop_cookies; [apply start_inv|..].
Qed.

(** C18: a transfer sends at most one request more than --max-redirs allows
    redirects, one at most without --location, and every request after the
    first has the Host field of its own URL and a scheme that
    --proto-redir allows. *)
Theorem redirects_bounded psl brotli zlib oc jar exp_cookies m ropt
    (w : world (stream := stream)) u :
  prepare_url oc ropt = Ok u -> 0 <= maxredirs oc ->
  let ss := requests (perform_request psl brotli zlib oc jar exp_cookies m ropt w) in
  Z.of_nat (length ss) <= maxredirs oc + 1 /\
  (followlocation oc = false -> (length ss <= 1)%nat) /\
  (forall s, In s (tail ss) -> redirected oc (s_url s) (s_request s)).
Proof.
  intros Hu Hm ss. destruct (perform_requests psl oc exp_cookies u brotli zlib jar m ropt w Hu)
    as [Hs|(st & HI & Hst & _ & _ & Hs)]; unfold ss; rewrite Hs; [simpl; repeat split; [lia..|done]|].
  destruct (loop_sent psl oc exp_cookies u (turns w) st HI) as (_ & Hl & Hf & Ht & _).
  rewrite Hst in Hl. split; [by apply Hl|done].
Qed.

(** C19: the header of the request create_request makes is: no field of a name
    to omit; else the last field of the command line of that name; else the
    field of the table [default_fields], if it sets one.  The method is POST
    when there is a body, whatever --request says. *)
Theorem create_request_spec brotli zlib oc m u r :
  plain (headers oc) -> create_request brotli zlib oc m u = Ok r ->
  (forall a, header r a =
     if existsb (same_name a) (omitheaders oc) then None
     else match find_field a (headers oc) with
          | Some v => Some v
          | None => default_field brotli zlib oc m u a
          end) /\
  version r = (if http10 oc then 10 else 11) /\
  method r = match m, customrequest oc with
             | Some _, _ => $"POST"
             | None, Some c => c
             | None, None => if no_body oc then $"HEAD" else $"GET"
             end.
Proof.
  intros Hp Hr. destruct (create_request_inv _ _ _ _ _ _ Hr) as (h & Hh & Hd & Hv & Hm).
  split; [|done]. intros a. unfold header. rewrite Hh, final_header by done. by rewrite Hd.
Qed.

(** C36: after a run a transfer waits for the next one exactly as long as its runs
    end in a transient way before --retry-max-time and neither it nor a wait is
    cancelled, at most --retry times; the delays are 2, 4, 8, ... up to 1024
    seconds, or --retry-delay in whole seconds.  A --retry-max-time that ends
    after the last time point of the clock is undefined. *)
Theorem retry_delays oc start xs :
  0 <= req_retry oc < 2 ^ 64 ->
  let last := match retry_maxtime oc with
              | Some d => start + d
              | None => duration_max
              end in
  (- 2 ^ 63 <= last < 2 ^ 63 -> exists e,
    retry oc start xs =
    Ok (map (delay_at oc) (seq 0 (Nat.min (Z.to_nat (req_retry oc)) (leading oc last xs))), e)) /\
  (~ (- 2 ^ 63 <= last < 2 ^ 63) -> retry oc start xs = UB).
Proof.
  intros Hr last. rewrite retry_within. fold last.
  pose proof (retry_loop_spec oc last xs 0 (req_retry oc) 1 Hr ltac:(done)) as Hl.
  destruct (fits_spec last); (split; [|]); intros Hf; try done.
  destruct (retry_loop oc last (req_retry oc) 1 xs) as [ds e]. exists e. by rewrite <-Hl.
Qed.

End Properties.

(** ** Concrete transfers *)

(** URLs of the form http://h/target, for a host of one letter. *)
#[local] Instance test_web : @Web test_libs := {
  encoded_origin u := take 8 (u : str);
  encoded_target u := drop 8 (u : str);
  host_and_port u := take 1 (drop 7 (u : str));
  userinfo _ := [];
  has_userinfo _ := false;
  remove_userinfo u := u;
  buffer u := u;
  encoded_segments _ := [];
  resolve _ s := Some s;
  url_view u := Cookie.mk_url (take 1 (drop 7 (u : str))) false [] (drop 8 (u : str));
  parse_uri s := Some s;
  normalize u := u;
  url_host u := take 1 (drop 7 (u : str));
  append_params _ u := u;
  url_path u := drop 8 (u : str);
  set_path p u := (u : str) ++ p
}.

#[local] Instance no_calendar : Cookie.Calendar := { Cookie.local_time _ _ := 0 }.

Definition alone (n : Z) : moment := mk_moment n (fun k => k).

Definition moved (where_to : str) : turn (stream := unit) :=
  mk_turn (alone 5) (alone 5) (Ok (mk_response 302 11 false None [($"Location", where_to)])) true
    (fun _ => Ok tt).

Definition two_hosts : world (stream := unit) :=
  mk_world (fun _ => false) (fun _ => Ok tt) (fun _ => Ok tt)
    [moved $"http://b/2"; moved $"http://a/3";
     mk_turn (alone 6) (alone 7) (Ok (mk_response 200 11 false None [])) true (fun _ => Ok tt)] (Ok tt).

Definition two_hosts_run : list (sent (stream := unit)) * option str * task_end :=
  perform_request (H := test_libs) (H0 := test_web) (H1 := list_fields) (H2 := doc_grammar)
    (H3 := no_calendar) None false false (test_config (H := test_libs) (H0 := list_fields))
    None $"k=v" None (mk_request_opt $"http://a/1" [] [] false) two_hosts.

(** Another transfer adds a cookie to the jar while the second request is under way. *)
Definition shared_jar : world (stream := unit) :=
  mk_world (fun _ => false) (fun _ => Ok tt) (fun _ => Ok tt)
    [moved $"http://b/2"; moved $"http://a/3";
     mk_turn
       (mk_moment 6 (fun k => match Cookie.parse_cookie 6 $"id=7" with
                              | Ok c => Cookie.add None 6 (Cookie.mk_url $"a" false [] $"/") c k
                              | _ => k end))
       (alone 7) (Ok (mk_response 200 11 false None [])) true (fun _ => Ok tt)] (Ok tt).

#[local] Abbreviation shared_run :=
  (perform_request (H := test_libs) (H0 := test_web) (H1 := list_fields) (H2 := doc_grammar)
    (H3 := no_calendar) None false false (test_config (H := test_libs) (H0 := list_fields))
    (Some []) $"k=v" None (mk_request_opt $"http://a/1" [] [] false) shared_jar).

Lemma credentials_stay_with_origin_witness :
  map (fun s => header (s_request s) $"Cookie") (requests shared_run) =
    [Some $"k=v"; None; Some $"id=7; k=v"] /\
  Forall (fun s => sent_ok (test_config (H := test_libs) (H0 := list_fields)) $"http://a/1" s /\
                   cookies_ok (H1 := doc_grammar) $"k=v" s)
    (requests shared_run).
Proof.
  split; [vm_compute; reflexivity|].
  apply (@credentials_stay_with_origin test_libs test_web list_fields list_fields_laws
    doc_grammar doc_grammar_laws no_calendar); [reflexivity|intros k [= <-]; constructor|].
  assert (only_calls (H1 := doc_grammar) (alone 5)) as Ha by (by intros k).
  constructor; [by split|]. constructor; [by split|]. constructor; [|constructor].
  split; [|by intros k]. intros k HK. cbn [meanwhile written].
  destruct (Cookie.parse_cookie 6 $"id=7") as [c| |] eqn:E; [|done..].
  eapply Cookie.jar_next; [exact HK|]. by eapply Cookie.step_set.
Defined.

Lemma redirects_bounded_witness :
  length (requests two_hosts_run) = 3%nat /\
  (Z.of_nat (length (requests two_hosts_run)) <= 51 /\
   (false = true -> (length (requests two_hosts_run) <= 1)%nat) /\
   (forall s, In s (tail (requests two_hosts_run)) ->
      redirected (test_config (H := test_libs) (H0 := list_fields)) (s_url s) (s_request s))).
Proof.
  split; [vm_compute; reflexivity|].
  destruct (@redirects_bounded test_libs test_web list_fields list_fields_laws
    doc_grammar no_calendar unit None false false test_config None $"k=v" None
    (mk_request_opt $"http://a/1" [] [] false) two_hosts $"http://a/1") as (Hl & Hf & Ht);
    [reflexivity|discriminate|].
  split; [exact Hl|]. split; [discriminate|exact Ht].
Defined.

Lemma create_request_spec_witness :
  exists r, create_request (H := test_libs) (H0 := test_web) (H1 := list_fields) true true
      test_config (Some ($"x=1", $"text/plain")) $"http://a/1" = Ok r /\
    header r $"authorization" = Some $"Basic dTpw" /\ method r = $"POST".
Proof.
  eexists. split; [reflexivity|].
  match goal with |- header ?q _ = _ /\ _ =>
    destruct (@create_request_spec test_libs test_web list_fields list_fields_laws true true
      test_config (Some ($"x=1", $"text/plain")) $"http://a/1" q) as (Hh & _ & Hm) end;
    [constructor|reflexivity|].
  split; [rewrite Hh; vm_compute; reflexivity|exact Hm].
Defined.

Definition patient : operation_config (H := test_libs) (H0 := list_fields) :=
  test_config_retry 2.

Lemma retry_delays_witness :
  exists e,
  retry patient 0 [mk_attempt (Finished 503) 1 false true; mk_attempt (ThrewSystem Aborted) 9 false false;
                   mk_attempt (Finished 503) 20 false true] = Ok ([2; 4], e).
Proof.
  destruct (@retry_delays test_libs list_fields patient 0
    [mk_attempt (Finished 503) 1 false true; mk_attempt (ThrewSystem Aborted) 9 false false;
     mk_attempt (Finished 503) 20 false true]) as [He _]; [vm_compute; split; congruence|].
  destruct He as [e He]; [vm_compute; split; congruence|].
  exists e. rewrite He. vm_compute. reflexivity.
Defined.

End Transfer.
