(* ===== verification/Message.v ===== *)
(** The bodies of a transfer's requests (example/client/burl/message.cpp), along
    the redirect loop of main.cpp.

    create_request lets the message describe itself in the header, the serializer
    is started with its body, and a redirect may drop both.  What has to agree for
    the receiver to find the end of each request is spread over these three. *)
From S2P Require Import Prelude.
From S2P Require Import Grammar.
From S2P Require Import Http.
From S2P Require Import Cookie.
From S2P Require Import Utils.
From S2P Require Import Options.
From S2P Require Import Transfer.

Module Message.

Import Options Transfer.

(** The fields that describe a body, or announce it. *)
Definition content_names : list str :=
  [$"Content-Length"; $"Content-Encoding"; $"Content-Type"; $"Expect"].

Section Loop.
Context `{W : Web} `{FL : FieldsLaws} `{GR : Grammar} `{CA : Cookie.Calendar}.
Context {stream : Type} (psl : option (str -> str -> bool)) (oc : operation_config)
  (exp_cookies : str) (org_url : url).

#[local] Abbreviation turn := (turn (stream := stream)).
#[local] Abbreviation sent := (sent (stream := stream)).
#[local] Abbreviation transfer := (transfer (stream := stream)).

(** The answer of a turn asks for another method. *)
Definition changes_method (x : turn) : bool :=
  match answer x with Ok r => snd (is_redirect oc (status r)) | _ => false end.

(** The message [m0] and the request [r0] made for it, or, once [dropped], no
    message and a GET without any of the fields. *)
Definition carries (m0 : option string_body) (r0 : request) (dropped : bool)
    (m : option string_body) (r : request) : Prop :=
  m = (if dropped then None else m0) /\
  method r = (if dropped then $"GET" else method r0) /\
  forall a, In a content_names -> header r a = if dropped then None else header r0 a.

(** Whether the message is dropped after the turns [xs]. *)
Definition drops (r0 : request) (xs : list turn) : bool :=
  negb (method r0 =s $"HEAD") && existsb changes_method xs.

Section Steps.
Context (m0 : option string_body) (r0 : request).

Lemma carries_other d m r r' :
  carries m0 r0 d m r -> method r' = method r ->
  (forall a, In a content_names -> header r' a = header r a) -> carries m0 r0 d m r'.
Proof.
  intros (Hm & Hr & Hh) Hr' Hh'. split; [done|]. split; [congruence|].
  intros a Ha. by rewrite Hh', Hh.
Qed.

(** A field that is none of these: setting and erasing it changes nothing here. *)
Ltac other_field := simpl; repeat case_match; rewrite ?header_set, ?header_erase, ?header_target; done.

Lemma prepare_next_carries x r nmc (st st' : transfer) d :
  carries m0 r0 d (t_msg st) (t_request st) ->
  prepare_next oc org_url x r nmc st = Ok st' ->
  carries m0 r0 (d || (negb (method r0 =s $"HEAD") && nmc)) (t_msg st') (t_request st').
Proof.
  intros HC. unfold prepare_next. intros HE.
  destruct (redirect_url r (t_referer st)) as [u| |]; cbn [mbind comp_bind] in HE; try done.
  destruct (negb (bool_decide (scheme u ∈ proto_redir oc))); [done|].
  match type of HE with mbind _ ?c = _ => destruct c as [[conn s]| |] end;
    cbn [mbind comp_bind] in HE; try done.
  match type of HE with (let '(_, _) := ?q in _) = _ => destruct q as [req m] eqn:Eq end.
  assert (carries m0 r0 (d || (negb (method r0 =s $"HEAD") && nmc)) m req) as HR.
  { assert (forall r1, carries m0 r0 true None
      (erase $"Expect" (erase $"Content-Type" (erase $"Content-Encoding"
        (erase $"Content-Length" (set_method $"GET" r1)))))) as Hd.
    { intros r1. split; [done|]. split; [done|]. intros a Ha.
      destruct Ha as [<-|[<-|[<-|[<-|[]]]]]; by rewrite !header_erase. }
    pose proof HC as (_ & Hr & _). rewrite Hr in Eq. destruct d.
    - change (($"GET" : str) =s $"HEAD") with false in Eq.
      destruct nmc; injection Eq as <- <-; [apply Hd|done].
    - destruct nmc; cbn [andb] in Eq; [|injection Eq as <- <-; by rewrite andb_false_r].
      rewrite andb_true_r. destruct (method r0 =s $"HEAD"); injection Eq as <- <-;
        [done|apply Hd]. }
  injection HE as <-. cbn [t_msg t_request].
  eapply carries_other; [exact HR|..].
  - destruct (autoreferer oc), ((encoded_origin org_url =s encoded_origin u) || unrestricted_auth oc);
      apply method_target.
  - intros a Ha. destruct Ha as [<-|[<-|[<-|[<-|[]]]]]; other_field.
Qed.

(** One turn sends at most one request, with the message as it is then. *)
Lemma iterate_carries x (st : transfer) ss o d :
  carries m0 r0 d (t_msg st) (t_request st) ->
  iterate psl oc exp_cookies org_url x st = (ss, o) ->
  (length ss <= 1)%nat /\
  (forall s, In s ss -> carries m0 r0 d (t_msg st) (s_request s) /\
     (s_request s, s_body s) = start_serializer (t_msg st) (s_request s)) /\
  match o with
  | Ok (Follow, st') =>
      length ss = 1%nat /\
      carries m0 r0 (d || drops r0 [x]) (t_msg st') (t_request st')
  | _ => True
  end.
Proof.
  intros HC. unfold iterate.
  destruct (set_cookies _ exp_cookies (t_url st) (t_trusted st) _ (t_request st))
    as [[jar req]| |] eqn:ES; [|intros [= <- <-]; (split; [simpl; lia|by split])..].
  apply set_cookies_inv in ES as (Hh & Hm & _).
  assert (carries m0 r0 d (t_msg st) req) as HR.
  { eapply carries_other; [exact HC|done|]. intros a Ha. apply Hh.
    by destruct Ha as [<-|[<-|[<-|[<-|[]]]]]. }
  intros [= <- <-]. split; [simpl; lia|]. split; [by intros s [<-|[]]|].
  unfold drops, changes_method. cbn [existsb].
  destruct (answer x) as [r| |]; simpl; try done.
  destruct (extract_cookies psl _ (t_url st) r _) as [jar'| |]; simpl; try done.
  destruct (is_redirect oc (status r)) as [red nmc]. cbn [snd]. rewrite orb_false_r.
  destruct (negb red || negb (followlocation oc)); [done|].
  destruct (t_maxredirs st =? 0); [done|].
  match goal with |- context [prepare_next oc org_url x r nmc ?st1] =>
    destruct (prepare_next oc org_url x r nmc st1) as [st2| |] eqn:EP end; simpl; try done.
  split; [done|]. by eapply prepare_next_carries; [|exact EP].
Qed.

Lemma drops_cons x xs : drops r0 (x :: xs) = drops r0 [x] || drops r0 xs.
Proof. unfold drops. cbn [existsb]. by destruct (method r0 =s _), (changes_method x). Qed.

(** The i-th request, after the first i turns. *)
Lemma loop_carries xs : forall (st : transfer) d,
  carries m0 r0 d (t_msg st) (t_request st) ->
  forall i s, fst (loop psl oc exp_cookies org_url xs st) !! i = Some s ->
  exists m, carries m0 r0 (d || drops r0 (take i xs)) m (s_request s) /\
    (s_request s, s_body s) = start_serializer m (s_request s).
Proof.
  induction xs as [|x xs IH]; intros st d HC i s Hs; [done|].
  cbn [loop] in Hs. destruct (iterate psl oc exp_cookies org_url x st) as [ss o] eqn:EI.
  destruct (iterate_carries _ _ _ _ _ HC EI) as (Hl & HS & Ho).
  assert (ss !! i = Some s -> exists m, carries m0 r0 (d || drops r0 (take i (x :: xs))) m (s_request s) /\
    (s_request s, s_body s) = start_serializer m (s_request s)) as Hss.
  { intros Hi. assert (i = 0%nat) as -> by (apply lookup_lt_Some in Hi; lia).
    exists (t_msg st). unfold drops. rewrite andb_false_r, orb_false_r.
    apply HS. by eapply list_elem_of_In, list_elem_of_lookup_2. }
  destruct o as [[[r|] st']|e|]; try by apply Hss.
  destruct Ho as [Hl1 Ho]. specialize (IH st' _ Ho).
  destruct (loop psl oc exp_cookies org_url xs st') as [ss' e]. cbn [fst] in *.
  apply lookup_app_Some in Hs as [Hs|[Hi Hs]]; [by apply Hss|].
  destruct i as [|i]; [lia|]. replace (S i - length ss)%nat with i in Hs by lia.
  destruct (IH i s Hs) as (m & Hm). exists m. cbn [take]. by rewrite drops_cons, orb_assoc.
Qed.

End Steps.

End Loop.

(** ** The property *)

Section Property.
Context `{W : Web} `{FL : FieldsLaws} `{GR : Grammar} `{CA : Cookie.Calendar}.
Context {stream : Type}.

(** C38: the i-th request of a transfer has the method, the body and the fields
    about the body (Content-Length, Content-Encoding, Content-Type, Expect) that
    create_request gave the first one, unless one of the i answers before it was a
    redirect that changes the method and the method is not HEAD; then it is a GET
    with no body and none of these fields.  So, unless the command line sets or
    omits Content-Length, that field is on every request the length of the body
    that is written, and there is none without a body. *)
Theorem messages_framed psl brotli zlib oc jar exp_cookies m ropt
    (w : world (stream := stream)) u :
  prepare_url oc ropt = Ok u ->
  forall i s,
  requests (perform_request psl brotli zlib oc jar exp_cookies m ropt w) !! i = Some s ->
  exists r, create_request brotli zlib oc m u = Ok r /\
  let dropped := drops oc r (take i (turns w)) in
  method (s_request s) = (if dropped then $"GET" else method r) /\
  s_body s = (if dropped then None else fst <$> m) /\
  (forall a, In a content_names ->
     header (s_request s) a = if dropped then None else header r a) /\
  (plain (headers oc) -> find_field $"Content-Length" (headers oc) = None ->
   existsb (same_name $"Content-Length") (omitheaders oc) = false ->
   header (s_request s) $"Content-Length" =
     (fun b => dec (Z.of_nat (length b))) <$> s_body s).
Proof.
  intros Hu i s Hs.
  destruct (perform_follow psl oc exp_cookies u brotli zlib jar m ropt w Hu)
    as [Hn|(r & st & Hr & _ & Hf)]; [by rewrite Hn in Hs|].
  rewrite Hf in Hs. exists r. split; [done|]. cbv zeta.
  apply (loop_carries psl oc exp_cookies u m r) with (d := false) in Hs
    as (m' & (-> & Hm & Hh) & [= Hb]); [|by split]. cbn [orb] in *.
  assert (s_body s = if drops oc r (take i (turns w)) then None else fst <$> m) as Hb'.
  { rewrite Hb. destruct (drops _ _ _); [done|]. by destruct m as [[b ct]|]. }
  split; [done|]. split; [done|]. split; [done|]. intros Hp Hn Ho.
  rewrite Hh by (by left). rewrite Hb'. destruct (drops _ _ _); [done|].
  destruct (create_request_inv _ _ _ _ _ _ Hr) as (h & Hd & Hdf & _).
  unfold header. rewrite Hd, final_header, Ho, Hn, Hdf by done. by destruct m as [[b ct]|].
Qed.

End Property.

(** ** A concrete transfer *)

Definition answers (status : Z) (where_to : str) : turn (stream := unit) :=
  mk_turn (alone 5) (alone 5) (Ok (mk_response status 11 false None [($"Location", where_to)])) true
    (fun _ => Ok tt).

(** 307 keeps the method and the body, 302 does not. *)
Definition moved_twice : world (stream := unit) :=
  mk_world (fun _ => false) (fun _ => Ok tt) (fun _ => Ok tt)
    [answers 307 $"http://a/2"; answers 302 $"http://a/3"; answers 200 []] (Ok tt).

#[local] Abbreviation post_run :=
  (perform_request (H := test_libs) (H0 := test_web) (H1 := list_fields) (H2 := doc_grammar)
    (H3 := no_calendar) None false false (test_config (H := test_libs) (H0 := list_fields))
    None [] (Some ($"x=1", $"text/plain")) (mk_request_opt $"http://a/1" [] [] false) moved_twice).

(** The first request. *)
Definition made : request (H1 := list_fields) :=
  match create_request (H := test_libs) (H0 := test_web) (H1 := list_fields) false false
    test_config (Some ($"x=1", $"text/plain")) $"http://a/1" with
  | Ok r => r
  | _ => mk_request [] 0 [] []
  end.

Lemma messages_framed_witness :
  map s_body (requests post_run) = [Some $"x=1"; Some $"x=1"; None] /\
  forall s, requests post_run !! 1%nat = Some s ->
    method (s_request s) = $"POST" /\ header (s_request s) $"Content-Type" = Some $"text/plain".
Proof.
  split; [vm_compute; reflexivity|]. intros s Hs.
  destruct (@messages_framed test_libs test_web list_fields list_fields_laws doc_grammar
    no_calendar unit None false false test_config None [] (Some ($"x=1", $"text/plain"))
    (mk_request_opt $"http://a/1" [] [] false) moved_twice $"http://a/1"
    ltac:(reflexivity) 1%nat s Hs) as (r & Hr & Hm & _ & Hh & _).
  assert (r = made) as -> by (unfold made; by rewrite Hr). split; [rewrite Hm; vm_compute; reflexivity|].
  rewrite Hh by (right; right; by left). vm_compute. reflexivity.
Defined.

End Message.
