(* ===== verification/Connect.v ===== *)
(** Opening a connection (example/client/burl/connect.cpp).

    A coroutine is a program of the free monad [io]: the operations on sockets,
    resolvers and TLS streams are its actions, and an [env] says how each one
    ends after the actions before it.  [exec] gives the trace of the actions and
    the result. *)
From S2P Require Import Prelude.
From S2P Require Import Grammar.
From S2P Require Import Http.
From S2P Require Import Utils.
From S2P Require Import Options.
From S2P Require Import Transfer.

Module Connect.

Import Options Transfer.

Class Credentials `{Libs} := {
  decoded_user : url -> str;
  decoded_password : url -> str
}.

(** ** Programs *)

Section Io.
Context `{Fields}.

Record endpoint := mk_endpoint { address : str; is_v6 : bool }.

Inductive action :=
| Resolved (host port : str)
| ConnectedTo (candidates : list endpoint)
| ConnectedUnix (path : str)
| Wrote (s : str)
| Got (s : str)
| SentRequest (r : request)
| GotHeader (status : Z)
| SetNoDelay (b : bool)
| SetKeepAlive (b : bool)
| SetServerName (host : str)            (* SSL_set_tlsext_host_name *)
| SetVerification (host : str)          (* host_name_verification *)
| Handshaken
| Assigned (tls : bool).                (* stream = ... *)

Inductive io (A : Type) : Type :=
| Return (a : A)
| Throw (e : exn)
| Undef
| Do (x : action) (k : io A)
| Read (n : nat) (k : str -> io A)
| ReadHeader (k : Z -> io A)
| Resolve (host port : str) (k : list endpoint -> io A).

Record env := mk_env {
  acts : list action -> action -> comp exn unit;
  reads : list action -> nat -> comp exn str;
  headers_of : list action -> comp exn Z;
  resolves : list action -> str -> str -> comp exn (list endpoint)
}.

(** async_read fills its buffer or fails. *)
Definition reads_exactly (e : env) : Prop :=
  forall past n s, reads e past n = Ok s -> length s = n.

End Io.

Arguments Return {_ _} a.
Arguments Throw {_ _} e.
Arguments Undef {_ _}.
Arguments Do {_ _} x k.
Arguments Read {_ _} n k.
Arguments ReadHeader {_ _} k.
Arguments Resolve {_ _} host port k.

Fixpoint exec `{Fields} {A} (e : env) (past : list action) (p : io A)
    : list action * comp exn A :=
  let continue {B} (r : comp exn B) (seen : B -> action) (k : B -> io A) :=
    match r with
    | Ok b => exec e (past ++ [seen b]) (k b)
    | Err x => (past, Err x)
    | UB => (past, UB)
    end in
  match p with
  | Return a => (past, Ok a)
  | Throw x => (past, Err x)
  | Undef => (past, UB)
  | Do x k => continue (acts e past x) (fun _ => x) (fun _ => k)
  | Read n k => continue (reads e past n) Got k
  | ReadHeader k => continue (headers_of e past) GotHeader k
  | Resolve h p k => continue (resolves e past h p) (fun _ => Resolved h p) k
  end.

#[export] Instance io_ret `{Fields} : MRet io := fun A a => Return a.
#[export] Instance io_bind `{Fields} : MBind io :=
  fun A B f => fix bind p :=
    match p with
    | Return a => f a
    | Throw x => Throw x
    | Undef => Undef
    | Do x k => Do x (bind k)
    | Read n k => Read n (fun s => bind (k s))
    | ReadHeader k => ReadHeader (fun s => bind (k s))
    | Resolve h p k => Resolve h p (fun l => bind (k l))
    end.

Definition perform `{Fields} (x : action) : io unit := Do x (Return tt).
Definition async_read `{Fields} (n : nat) : io str := Read n Return.
Definition resolve_name `{Fields} (h p : str) : io (list endpoint) := Resolve h p Return.
Definition lift `{Fields} {A} (m : comp exn A) : io A :=
  match m with Ok a => Return a | Err e => Throw e | UB => Undef end.

(** ** The functions of connect.cpp *)

Section Functions.
Context `{L : Libs, W : !Web, F : Fields, C : !Credentials}.

Definition effective_port (u : url) : comp exn str :=
  if has_port u then Ok (port u)
  else if scheme u =s $"https" then Ok $"443"
  else if scheme u =s $"http" then Ok $"80"
  else if scheme u =s $"socks5" then Ok $"1080"
  else Err (RuntimeError $"Unsupported scheme").

(** The i-th byte of a buffer that has been filled. *)
Definition byte (s : str) (i : nat) : Z := uchar (nth i s zero).

Definition greeting_req (proxy : url) : str :=
  if has_userinfo proxy then map chr [5; 2; 0; 2] else map chr [5; 1; 0].

Definition auth_req (proxy : url) : str :=
  let user := decoded_user proxy in
  let pass := decoded_password proxy in
  [chr 1] ++ [chr (u8 (Z.of_nat (length user)))] ++ user ++
  [chr (u8 (Z.of_nat (length pass)))] ++ pass.

Definition conn_req (host : str) (port : Z) : str :=
  map chr [5; 1; 0; 3] ++ [chr (u8 (Z.of_nat (length host)))] ++ host ++
  [chr (Z.land (Z.shiftr port 8) 255); chr (Z.land port 255)].

(** The length of the rest of the connection response. *)
Definition tail_size (head : str) : comp exn nat :=
  if byte head 3 =? 1 then Ok 5%nat
  else if byte head 3 =? 3 then Ok (Z.to_nat (byte head 4 + 2 - 1))
  else if byte head 3 =? 4 then Ok 17%nat
  else Err (RuntimeError $"SOCKS5 invalid address type").

Definition throw_runtime {A} (s : str) : io A := Throw (RuntimeError s).

(** The method chosen by the proxy: the switch on greeting_resp[1]. *)
Definition authenticate (proxy : url) (method : Z) : io unit :=
  if method =? 0 then Return tt
  else if method =? 2 then
    _ ← perform (Wrote (auth_req proxy));
    auth_resp ← async_read 2;
    if negb (byte auth_resp 1 =? 0) then throw_runtime $"SOCKS5 authentication failed"
    else Return tt
  else throw_runtime $"SOCKS5 no acceptable authentication method".

Definition connect_socks5_proxy (u proxy : url) : io unit :=
  p ← lift (effective_port proxy);
  rresults ← resolve_name (url_host proxy) p;
  _ ← perform (ConnectedTo rresults);
  _ ← perform (Wrote (greeting_req proxy));
  greeting_resp ← async_read 2;
  if negb (byte greeting_resp 0 =? 5) then throw_runtime $"SOCKS5 invalid version"
  else
    _ ← authenticate proxy (byte greeting_resp 1);
    ps ← lift (effective_port u);
    n ← lift (stoull ps);
    _ ← perform (Wrote (conn_req (url_host u) (u16 n)));
    head ← async_read 5;
    if negb (byte head 1 =? 0) then throw_runtime $"SOCKS5 connection request failed"
    else
      size ← lift (tail_size head);
      _ ← async_read size;
      Return tt.

Definition connect_request (oc : operation_config) (u proxy : url) (port : str) : request :=
  let host_port := url_host u ++ $":" ++ port in
  let r := mk_request $"CONNECT" 11 host_port no_fields in
  let r := set $"Host" host_port r in
  let r := set $"Proxy-Connection" $"keep-alive" r in
  let r := set $"User-Agent" (default $"Boost.Http.Io" (useragent oc)) r in
  if has_userinfo proxy
  then set $"Proxy-Authorization" (Utils.base64_encode $"Basic " (userinfo proxy)) r
  else r.

Definition connect_http_proxy (oc : operation_config) (u proxy : url) : io unit :=
  p ← lift (effective_port proxy);
  rresults ← resolve_name (url_host proxy) p;
  _ ← perform (ConnectedTo rresults);
  ps ← lift (effective_port u);
  _ ← perform (SentRequest (connect_request oc u proxy ps));
  status ← ReadHeader Return;
  if negb (status =? 200) then throw_runtime $"Proxy server rejected the connection"
  else Return tt.

Definition perform_tls_handshake (host : str) : io unit :=
  _ ← perform (SetServerName host);
  _ ← perform (SetVerification host);
  perform Handshaken.

(** The connect condition: which of the endpoints are tried. *)
Definition allowed (oc : operation_config) (next : endpoint) : bool :=
  if ipv4 oc && is_v6 next then false
  else if ipv6 oc && negb (is_v6 next) then false
  else true.

(** The end of both branches: the stream is assigned, under TLS for https. *)
Definition assign_stream (u : url) (org_host : str) : io unit :=
  if scheme u =s $"https" then
    _ ← perform_tls_handshake org_host;
    perform (Assigned true)
  else perform (Assigned false).

Definition redirected_url (f : option (url -> comp exn url)) (u : url) : comp exn url :=
  match f with Some f => f u | None => Ok u end.

Definition connect_proxy (oc : operation_config) (u : url) : io unit :=
  if scheme (proxy oc) =s $"http" then connect_http_proxy oc u (proxy oc)
  else if scheme (proxy oc) =s $"socks5" then connect_socks5_proxy u (proxy oc)
  else throw_runtime $"only HTTP and SOCKS5 proxies are supported".

Definition connect_direct (oc : operation_config) (u : url) : io unit :=
  p ← lift (effective_port u);
  rresults ← resolve_name (url_host u) p;
  perform (ConnectedTo (List.filter (allowed oc) rresults)).

(** connect up to the two places where the stream is assigned. *)
Definition open_socket (oc : operation_config) (u : url) : io url :=
  match unix_socket_path oc with
  | (_ :: _) as path =>
      _ ← perform (ConnectedUnix path);
      Return u
  | [] =>
      u ← lift (redirected_url (connect_to oc) u);
      u ← lift (redirected_url (resolve_to oc) u);
      _ ← (match buffer (proxy oc) with
           | _ :: _ => connect_proxy oc u
           | [] => connect_direct oc u
           end);
      _ ← (if tcp_nodelay oc then perform (SetNoDelay true) else Return tt);
      _ ← (if nokeepalive oc then perform (SetKeepAlive false) else Return tt);
      Return u
  end.

Definition connect (oc : operation_config) (u : url) : io unit :=
  let org_host := url_host u in
  v ← open_socket oc u;
  assign_stream v org_host.

End Functions.

(** ** Executions *)

Section Exec.
Context `{Fields}.

Lemma exec_bind {A B} e (p : io A) (f : A -> io B) : forall past,
  exec e past (p ≫= f) =
  let '(tr, r) := exec e past p in
  match r with
  | Ok a => exec e tr (f a)
  | Err x => (tr, Err x)
  | UB => (tr, UB)
  end.
Proof.
  induction p as [a|x| |x k IH|n k IH|k IH|h q k IH]; intros past; try done; simpl.
  - destruct (acts e past x); [apply IH|done..].
  - destruct (reads e past n); [apply IH|done..].
  - destruct (headers_of e past); [apply IH|done..].
  - destruct (resolves e past h q); [apply IH|done..].
Qed.

Lemma exec_bind_ok {A B} e (p : io A) (f : A -> io B) past tr b :
  exec e past (p ≫= f) = (tr, Ok b) ->
  exists tr1 a, exec e past p = (tr1, Ok a) /\ exec e tr1 (f a) = (tr, Ok b).
Proof.
  rewrite exec_bind. destruct (exec e past p) as [tr1 [a|x|]] eqn:E; try done. by eauto.
Qed.

Lemma exec_perform_ok e x past tr u :
  exec e past (perform x) = (tr, Ok u) -> tr = past ++ [x].
Proof. simpl. destruct (acts e past x); by intros [= <-]. Qed.

Lemma exec_read_ok e n past tr s :
  exec e past (async_read n) = (tr, Ok s) -> reads e past n = Ok s /\ tr = past ++ [Got s].
Proof. simpl. destruct (reads e past n); by intros [= <- <-]. Qed.

Lemma exec_resolve_ok e h q past tr l :
  exec e past (resolve_name h q) = (tr, Ok l) -> tr = past ++ [Resolved h q].
Proof. simpl. destruct (resolves e past h q); by intros [= <- _]. Qed.

Lemma exec_lift_ok {A} e (m : comp exn A) past tr a :
  exec e past (lift m) = (tr, Ok a) -> m = Ok a /\ tr = past.
Proof. destruct m; by intros [= <- <-]. Qed.

(** Every action the program can take satisfies [P]. *)
Fixpoint only {A} (P : action -> Prop) (p : io A) : Prop :=
  match p with
  | Return _ | Throw _ | Undef => True
  | Do x k => P x /\ only P k
  | Read n k => forall s, P (Got s) /\ only P (k s)
  | ReadHeader k => forall s, P (GotHeader s) /\ only P (k s)
  | Resolve h q k => forall l, P (Resolved h q) /\ only P (k l)
  end.

Lemma exec_only {A} e P (p : io A) : forall past,
  only P p -> Forall P past -> Forall P (fst (exec e past p)).
Proof.
  induction p as [a|x| |x k IH|n k IH|k IH|h q k IH]; intros past HO HP; try done; simpl in *.
  - destruct HO as [Hx HO]. destruct (acts e past x); try done.
    apply IH; [done|]. apply Forall_app. by repeat constructor.
  - destruct (reads e past n) as [s| |]; try done.
    destruct (HO s). apply IH; [done|]. apply Forall_app. by repeat constructor.
  - destruct (headers_of e past) as [s| |]; try done.
    destruct (HO s). apply IH; [done|]. apply Forall_app. by repeat constructor.
  - destruct (resolves e past h q) as [s| |]; try done.
    destruct (HO s). apply IH; [done|]. apply Forall_app. by repeat constructor.
Qed.

Lemma only_bind {A B} P (p : io A) (f : A -> io B) :
  only P p -> (forall a, only P (f a)) -> only P (p ≫= f).
Proof.
  intros HP Hf. induction p as [a|x| |x k IH|n k IH|k IH|h q k IH]; simpl in *; try done.
  - destruct HP as [Hx Hk]. exact (conj Hx (IH Hk)).
  - intros s. destruct (HP s) as [Hx Hk]. exact (conj Hx (IH s Hk)).
  - intros s. destruct (HP s) as [Hx Hk]. exact (conj Hx (IH s Hk)).
  - intros s. destruct (HP s) as [Hx Hk]. exact (conj Hx (IH s Hk)).
Qed.

Lemma only_lift {A} P (m : comp exn A) : only P (lift m).
Proof. by destruct m. Qed.

Lemma only_mono {A} (P Q : action -> Prop) (p : io A) :
  (forall x, P x -> Q x) -> only P p -> only Q p.
Proof.
  intros HPQ. induction p as [a|x| |x k IH|n k IH|k IH|h q k IH]; simpl; try done.
  - intros [Hx Hk]. auto.
  - intros Hk s. destruct (Hk s). auto.
  - intros Hk s. destruct (Hk s). auto.
  - intros Hk s. destruct (Hk s). auto.
Qed.

(** What went over the socket. *)
Definition written (tr : list action) : str :=
  mjoin (map (fun x => match x with Wrote s => s | _ => [] end) tr).
Definition received (tr : list action) : str :=
  mjoin (map (fun x => match x with Got s => s | _ => [] end) tr).

Lemma written_app a b : written (a ++ b) = written a ++ written b.
Proof. unfold written. by rewrite map_app, join_app. Qed.

Lemma received_app a b : received (a ++ b) = received a ++ received b.
Proof. unfold received. by rewrite map_app, join_app. Qed.

End Exec.

(** ** A SOCKS5 server (RFC 1928 and RFC 1929), as the reference *)

(** The methods of a greeting, and what follows it. *)
Definition serve_greeting (s : str) : option (list Z * str) :=
  match s with
  | v :: n :: s =>
      let n := Z.to_nat (uchar n) in
      if (uchar v =? 5) && (n <=? length s)%nat
      then Some (map uchar (take n s), drop n s) else None
  | _ => None
  end.

(** A text that its length precedes. *)
Definition counted (s : str) : option (str * str) :=
  match s with
  | n :: s => let n := Z.to_nat (uchar n) in
              if (n <=? length s)%nat then Some (take n s, drop n s) else None
  | [] => None
  end.

Definition serve_auth (s : str) : option (str * str * str) :=
  match s with
  | v :: s =>
      if uchar v =? 1 then
        '(user, s) ← counted s;
        '(pass, s) ← counted s;
        Some (user, pass, s)
      else None
  | [] => None
  end.

(** A request to connect to a host given by its name, with nothing after it. *)
Definition serve_request (s : str) : option (str * Z) :=
  match s with
  | v :: c :: r :: a :: s =>
      if (uchar v =? 5) && (uchar c =? 1) && (uchar r =? 0) && (uchar a =? 3) then
        '(host, s) ← counted s;
        match s with
        | [hi; lo] => Some (host, 256 * uchar hi + uchar lo)
        | _ => None
        end
      else None
  | _ => None
  end.

(** The server that chooses the method [m]. *)
Definition serve (m : Z) (s : str) : option (list Z * option (str * str) * str * Z) :=
  '(methods, s) ← serve_greeting s;
  '(creds, s) ← (if m =? 2 then '(u, p, s) ← serve_auth s; Some (Some (u, p), s)
                 else Some (None, s));
  '(host, port) ← serve_request s;
  Some (methods, creds, host, port).

(** The length of a reply, from its first five bytes. *)
Definition reply_length (s : str) : option Z :=
  if byte s 3 =? 1 then Some 10
  else if byte s 3 =? 3 then Some (7 + byte s 4)
  else if byte s 3 =? 4 then Some 22
  else None.

Lemma counted_short s t :
  (length s <= 255)%nat -> counted ([chr (u8 (Z.of_nat (length s)))] ++ s ++ t) = Some (s, t).
Proof.
  intros Hs. simpl. rewrite wrap_small, uchar_chr, Nat2Z.id by lia.
  rewrite length_app. destruct (Nat.leb_spec (length s) (length s + length t)); [|lia].
  by rewrite take_app_length, drop_app_length.
Qed.

Lemma serve_request_of host port :
  0 <= port < 65536 ->
  serve_request (conn_req host port) =
  if (length host <=? 255)%nat then Some (host, port) else None.
Proof.
  intros Hp. unfold conn_req.
  set (q := [chr (Z.land (Z.shiftr port 8) 255); chr (Z.land port 255)]).
  assert (256 * uchar (chr (Z.land (Z.shiftr port 8) 255)) + uchar (chr (Z.land port 255)) = port)
    as Hq.
  { change 255 with (Z.ones 8). rewrite !Z.land_ones, Z.shiftr_div_pow2 by lia.
    change (2 ^ 8) with 256. rewrite (Z.mod_small (port / 256)).
    2: { split; [apply Z.div_pos; lia|]. apply Z.div_lt_upper_bound; lia. }
    pose proof (Z.mod_pos_bound port 256).
    assert (port / 256 < 256) by (apply Z.div_lt_upper_bound; lia).
    assert (0 <= port / 256) by (apply Z.div_pos; lia).
    rewrite !uchar_chr by lia. pose proof (Z.div_mod port 256). lia. }
  unfold serve_request. cbn [map app]. rewrite !uchar_chr by lia. cbn [Z.eqb andb].
  change (chr (u8 (Z.of_nat (length host))) :: host ++ q)
    with ([chr (u8 (Z.of_nat (length host)))] ++ host ++ q).
  destruct (Nat.leb_spec (length host) 255) as [Hl|Hl].
  - rewrite counted_short by done. cbn [mbind option_bind]. unfold q. by rewrite Hq.
  - cbn [app counted]. set (n := Z.to_nat _).
    assert (n <= 255)%nat as Hn.
    { unfold n. pose proof (uchar_range (chr (u8 (Z.of_nat (length host))))). lia. }
    destruct (n <=? length (host ++ q))%nat; [|done]. cbn [mbind option_bind].
    rewrite drop_app_le by lia.
    assert (length (drop n host) <> 0)%nat as Hd by (rewrite length_drop; lia).
    unfold q. by destruct (drop n host) as [|? [|? [|? ?]]].
Qed.

Ltac step :=
  match goal with
  | HE : exec _ _ (_ ≫= _) = (_, Ok _) |- _ =>
      let E := fresh "E" in apply exec_bind_ok in HE as (? & ? & E & HE)
  | HE : exec _ _ (perform _) = (_, Ok _) |- _ => apply exec_perform_ok in HE; subst
  | HE : exec _ _ (async_read _) = (_, Ok _) |- _ =>
      apply exec_read_ok in HE as [HE ->]
  | HE : exec _ _ (resolve_name _ _) = (_, Ok _) |- _ => apply exec_resolve_ok in HE; subst
  | HE : exec _ _ (lift _) = (_, Ok _) |- _ => apply exec_lift_ok in HE as [HE ->]
  | HE : exec _ _ (Return _) = (_, Ok _) |- _ => simplify_eq/=
  | HE : exec _ _ (throw_runtime _) = (_, Ok _) |- _ => done
  | HE : exec _ _ (if ?b then _ else _) = (_, Ok _) |- _ =>
      let E := fresh "E" in destruct b eqn:E;
      [done|apply negb_false_iff, Z.eqb_eq in E]
  end.

Ltac texts :=
  rewrite ?written_app, ?received_app; unfold written, received; simpl;
  rewrite ?app_nil_r; repeat (rewrite <- !app_assoc; simpl).

Section Socks.
Context `{L : Libs, W : !Web, F : Fields, C : !Credentials}.

Lemma authenticate_ok e proxy m past tr :
  exec e past (authenticate proxy m) = (tr, Ok tt) ->
  m = 0 /\ tr = past \/
  m = 2 /\ exists s, tr = past ++ [Wrote (auth_req proxy); Got s] /\ byte s 1 = 0.
Proof.
  unfold authenticate. intros HE. destruct (Z.eqb_spec m 0); [left; by repeat step|].
  destruct (Z.eqb_spec m 2); [|done]. right. split; [done|]. repeat step.
  eexists. split; [|done]. by rewrite <- app_assoc.
Qed.

(** The messages of a successful dialog with the proxy. *)
Lemma socks5_ok e u proxy tr :
  exec e [] (connect_socks5_proxy u proxy) = (tr, Ok tt) ->
  exists m ps n greeting auth head tail size,
    effective_port u = Ok ps /\ stoull ps = Ok n /\
    written tr = greeting_req proxy ++ (if m =? 2 then auth_req proxy else []) ++
                 conn_req (url_host u) (u16 n) /\
    tail_size head = Ok size /\ byte head 1 = 0 /\
    byte greeting 0 = 5 /\ byte greeting 1 = m /\
    (m = 0 /\ auth = [] \/ m = 2 /\ byte auth 1 = 0) /\
    (reads_exactly e -> length head = 5%nat /\ length tail = size) /\
    received tr = greeting ++ auth ++ head ++ tail.
Proof.
  unfold connect_socks5_proxy. intros HE. repeat step.
  match goal with HA : exec _ _ (authenticate _ _) = (_, Ok ?x) |- _ =>
    destruct x; apply authenticate_ok in HA as [[Hm ->]|(Hm & s & -> & Hs)] end.
  - eexists 0, _, _, _, [], _, _, _. split; [done|]. split; [done|].
    split; [by texts|]. do 4 (split; [done|]). split; [by left|].
    split; [intros HR; split; by eapply HR|by texts].
  - eexists 2, _, _, _, s, _, _, _. split; [done|]. split; [done|].
    split; [by texts|]. do 4 (split; [done|]). split; [by right|].
    split; [intros HR; split; by eapply HR|by texts].
Qed.

Definition offered (proxy : url) : list Z := if has_userinfo proxy then [0; 2] else [0].

Lemma serve_greeting_of proxy s :
  serve_greeting (greeting_req proxy ++ s) = Some (offered proxy, s).
Proof. unfold greeting_req, offered. by destruct (has_userinfo proxy). Qed.

Lemma serve_auth_of proxy s :
  (length (decoded_user proxy) <= 255)%nat -> (length (decoded_password proxy) <= 255)%nat ->
  serve_auth (auth_req proxy ++ s) = Some (decoded_user proxy, decoded_password proxy, s).
Proof.
  intros Hu Hp. unfold auth_req, serve_auth. rewrite <- !app_assoc.
  cbn [app]. change (uchar (chr 1) =? 1) with true. cbv iota.
  pose proof (counted_short _ ([chr (u8 (Z.of_nat (length (decoded_password proxy))))] ++
    decoded_password proxy ++ s) Hu) as HU.
  pose proof (counted_short _ s Hp) as HP.
  cbn [app] in *. rewrite HU. cbn [mbind option_bind]. by rewrite HP.
Qed.

(** Of a reply that names a host, the last byte is not read. *)
Lemma reply_read head tail size :
  length head = 5%nat -> length tail = size -> tail_size head = Ok size ->
  reply_length (head ++ tail) =
  Some (Z.of_nat (length (head ++ tail)) + (if byte (head ++ tail) 3 =? 3 then 1 else 0)).
Proof.
  intros Hh Ht. unfold tail_size, reply_length, byte. rewrite length_app, Hh, Ht.
  rewrite !app_nth1 by lia.
  pose proof (uchar_range (nth 4 head zero)).
  destruct (Z.eqb_spec (uchar (nth 3 head zero)) 1) as [->|]; [by intros [= <-]|].
  destruct (Z.eqb_spec (uchar (nth 3 head zero)) 3); [intros [= <-]; f_equal; lia|].
  destruct (Z.eqb_spec (uchar (nth 3 head zero)) 4); [by intros [= <-]|done].
Qed.

(** C21: after a successful connect_socks5_proxy the bytes sent are, to a server of
    RFC 1928 and RFC 1929, the methods, the credentials if it chose that method,
    and a request for the host and the port modulo 2^16 if the host has at most 255 chars, and
    they are not a request otherwise; the bytes read are the server's answers, the
    last one a positive reply, read to its end unless it names a host: then its
    last byte is left for whoever reads next. *)
Theorem socks5_dialog e u proxy tr :
  reads_exactly e -> exec e [] (connect_socks5_proxy u proxy) = (tr, Ok tt) ->
  (length (decoded_user proxy) <= 255)%nat -> (length (decoded_password proxy) <= 255)%nat ->
  exists m ps n greeting auth reply,
    effective_port u = Ok ps /\ stoull ps = Ok n /\
    received tr = greeting ++ auth ++ reply /\
    byte greeting 0 = 5 /\ byte greeting 1 = m /\
    (m = 0 /\ auth = [] \/ m = 2 /\ byte auth 1 = 0) /\
    byte reply 1 = 0 /\
    reply_length reply =
      Some (Z.of_nat (length reply) + (if byte reply 3 =? 3 then 1 else 0)) /\
    serve m (written tr) =
      if (length (url_host u) <=? 255)%nat
      then Some (offered proxy,
                 (if m =? 2 then Some (decoded_user proxy, decoded_password proxy) else None),
                 url_host u, u16 n)
      else None.
Proof.
  intros HR HE Hu Hp.
  destruct (socks5_ok _ _ _ _ HE) as (m & ps & n & g & a & h & t & size & Hps & Hn & Hw & Hsz &
    Hh & Hg0 & Hg1 & Ha & Hl & Hr). destruct (Hl HR) as [Hlh Hlt].
  exists m, ps, n, g, a, (h ++ t). do 5 (split; [done|]). split; [done|].
  split; [unfold byte in *; by rewrite app_nth1 by lia|].
  split; [by eapply reply_read|]. rewrite Hw. unfold serve.
  rewrite serve_greeting_of. cbn [mbind option_bind].
  pose proof (wrap_range 16 n ltac:(lia)) as Hn16.
  destruct Ha as [[-> _]|[-> _]]; cbn [Z.eqb Pos.eqb app mbind option_bind].
  - rewrite serve_request_of by lia. by destruct (_ <=? _)%nat.
  - rewrite serve_auth_of by done. cbn [mbind option_bind].
    rewrite serve_request_of by lia. by destruct (_ <=? _)%nat.
Qed.

End Socks.

(** ** connect *)

Section Connect.
Context `{L : Libs, W : !Web, F : Fields, C : !Credentials}.
Context (oc : operation_config) (u : url).

(** What any action of open_socket satisfies. *)
Definition confined (x : action) : Prop :=
  match x with
  | Resolved h _ =>
      unix_socket_path oc = [] /\ (buffer (proxy oc) <> [] -> h = url_host (proxy oc))
  | ConnectedTo l =>
      unix_socket_path oc = [] /\ (buffer (proxy oc) = [] -> Forall (fun e => allowed oc e = true) l)
  | ConnectedUnix p => p = unix_socket_path oc /\ p <> []
  | Wrote _ | Got _ | SentRequest _ | GotHeader _ =>
      unix_socket_path oc = [] /\ buffer (proxy oc) <> []
  | SetNoDelay _ | SetKeepAlive _ => unix_socket_path oc = []
  | SetServerName _ | SetVerification _ | Handshaken | Assigned _ => False
  end.

Definition handshake_trace : list action :=
  [SetServerName (url_host u); SetVerification (url_host u); Handshaken].

Lemma assign_stream_trace e v past :
  let '(tr, r) := exec e past (assign_stream v (url_host u)) in
  (exists k, tr = past ++ take k handshake_trace /\ r <> Ok tt) \/
  r = Ok tt /\ tr = past ++ (if scheme v =s $"https" then handshake_trace ++ [Assigned true]
                             else [Assigned false]).
Proof.
  unfold assign_stream. destruct (scheme v =s $"https"); simpl.
  - destruct (acts e past _); [|left; exists 0%nat; by rewrite app_nil_r..].
    destruct (acts e _ _); [|left; exists 1%nat; done..].
    destruct (acts e _ _); [|left; exists 2%nat; by rewrite <- app_assoc..].
    destruct (acts e _ _); [|left; exists 3%nat; by rewrite <- !app_assoc..].
    right. by rewrite <- !app_assoc.
  - destruct (acts e past _); [by right|left; exists 0%nat; by rewrite app_nil_r..].
Qed.

Ltac confine :=
  repeat match goal with
  | |- only _ (_ ≫= _) => apply only_bind; [|intros ?]
  | |- only _ (lift _) => apply only_lift
  | |- only _ (if ?b then _ else _) => destruct b
  | |- only _ (match ?b with _ => _ end) => destruct b
  end; try done.

Lemma confined_socks5 v :
  unix_socket_path oc = [] -> buffer (proxy oc) <> [] ->
  only confined (connect_socks5_proxy v (proxy oc)).
Proof.
  intros Hx Hp. unfold connect_socks5_proxy, authenticate. confine; simpl; repeat split; done.
Qed.

Lemma confined_http v :
  unix_socket_path oc = [] -> buffer (proxy oc) <> [] ->
  only confined (connect_http_proxy oc v (proxy oc)).
Proof.
  intros Hx Hp. unfold connect_http_proxy. confine; simpl; repeat split; done.
Qed.

Lemma confined_direct v :
  unix_socket_path oc = [] -> buffer (proxy oc) = [] ->
  only confined (connect_direct oc v).
Proof.
  intros Hx Hp. unfold connect_direct. confine; simpl; repeat split; try done.
  intros _. apply List.Forall_forall. intros x Hin. by apply filter_In in Hin as [_ ?].
Qed.

Lemma confined_open : only confined (open_socket oc u).
Proof.
  unfold open_socket, connect_proxy. destruct (unix_socket_path oc) as [|c path] eqn:Ex.
  - destruct (buffer (proxy oc)) as [|b bs] eqn:Ep; confine; try (by simpl).
    + by apply confined_direct.
    + apply confined_http; [done|]. by rewrite Ep.
    + apply confined_socks5; [done|]. by rewrite Ep.
  - simpl. by rewrite Ex.
Qed.

(** The URL after connect_to and resolve_to, which a Unix socket has no use for. *)
Definition final_url : comp exn url :=
  match unix_socket_path oc with
  | [] => v ← redirected_url (connect_to oc) u; redirected_url (resolve_to oc) v
  | _ => Ok u
  end.

Lemma open_socket_url e past tr v :
  exec e past (open_socket oc u) = (tr, Ok v) -> final_url = Ok v.
Proof.
  unfold open_socket, final_url. destruct (unix_socket_path oc); intros HE.
  - apply exec_bind_ok in HE as (? & v1 & H1 & HE). apply exec_lift_ok in H1 as [-> _].
    apply exec_bind_ok in HE as (? & v2 & H2 & HE). apply exec_lift_ok in H2 as [H2 _].
    do 3 apply exec_bind_ok in HE as (? & ? & _ & HE). injection HE as _ <-. done.
  - apply exec_bind_ok in HE as (? & ? & _ & HE). injection HE as _ <-. done.
Qed.

(** What connect does, whatever the environment. *)
Lemma connect_trace e :
  let '(tr, r) := exec e [] (connect oc u) in
  exists before, Forall confined before /\
    ((exists k, tr = before ++ take k handshake_trace /\ r <> Ok tt) \/
     exists v, r = Ok tt /\ final_url = Ok v /\
       tr = before ++ (if scheme v =s $"https" then handshake_trace ++ [Assigned true]
                       else [Assigned false])).
Proof.
  unfold connect. rewrite exec_bind.
  pose proof (exec_only e confined _ [] confined_open ltac:(constructor)) as HF.
  destruct (exec e [] (open_socket oc u)) as [tr1 [v|x|]] eqn:EO; simpl in HF;
    [|exists tr1; split; [done|]; left; exists 0%nat; by rewrite app_nil_r..].
  pose proof (assign_stream_trace e v tr1) as HA.
  destruct (exec e tr1 (assign_stream v (url_host u))) as [tr r].
  exists tr1. split; [done|]. destruct HA as [?|[-> ->]]; [by left|].
  right. exists v. split; [done|]. split; [by eapply open_socket_url|done].
Qed.

(** C20: however the network behaves, connect resolves no name but the proxy's when
    there is a proxy and none at all for a Unix socket, tries only addresses that
    -4 and -6 allow, and talks in plain text only to a proxy; then, for https, it
    makes the TLS handshake for the host of the URL it was given, whatever
    --connect-to and --resolve turned it into, and the stream is assigned only
    after the handshake and only when connect succeeds. *)
Theorem connect_confined e :
  let '(tr, r) := exec e [] (connect oc u) in
  exists before, Forall confined before /\
    ((exists k, tr = before ++ take k handshake_trace /\ r <> Ok tt) \/
     exists v, r = Ok tt /\ final_url = Ok v /\
       tr = before ++ (if scheme v =s $"https" then handshake_trace ++ [Assigned true]
                       else [Assigned false])).
Proof. apply connect_trace. Qed.

End Connect.

(** ** A dialog with a proxy *)

#[local] Instance proxy_credentials : @Credentials test_libs := {
  decoded_user _ := $"me";
  decoded_password _ := $"pw"
}.

(** How many reads came before. *)
Definition reads_done `{Fields} (past : list action) : nat :=
  length (List.filter (fun x => match x with Got _ => true | _ => false end) past).

(** A proxy that wants a password and gives an IPv4 address. *)
Definition test_env : env (H := list_fields) :=
  mk_env (fun _ _ => Ok tt)
    (fun past n =>
       let answer := match reads_done past with
                     | 0%nat => map chr [5; 2]
                     | 1%nat => map chr [1; 0]
                     | 2%nat => map chr [5; 0; 0; 1; 127]
                     | _ => map chr [0; 0; 1; 0; 80]
                     end in
       Ok (take n (answer ++ replicate n zero)))
    (fun _ => Ok 200) (fun _ _ _ => Ok []).

Lemma test_env_reads : reads_exactly test_env.
Proof.
  intros past n s [= <-]. rewrite length_take, length_app, length_replicate. lia.
Qed.

Definition test_dialog : list (action (H := list_fields)) * comp exn unit :=
  exec test_env [] (connect_socks5_proxy (L := test_libs) (W := test_web) (F := list_fields)
    $"http://a/1" $"http://p/").

Lemma socks5_dialog_witness :
  exists m reply,
    reply_length reply = Some (Z.of_nat (length reply) + (if byte reply 3 =? 3 then 1 else 0)) /\
    serve m (written (fst test_dialog)) =
      Some ([0], (if m =? 2 then Some ($"me", $"pw") else None), $"a", 80).
Proof.
  destruct (@socks5_dialog test_libs test_web list_fields proxy_credentials test_env
    $"http://a/1" $"http://p/" (fst test_dialog) test_env_reads) as
    (m & ps & n & g & a & r & Hp & Hn & Hr & _ & Hg & Ha & _ & Hl & HS).
  - change (test_dialog = (fst test_dialog, Ok tt)).
    assert (snd test_dialog = Ok tt) as Hs by (vm_compute; reflexivity).
    rewrite <- Hs. apply surjective_pairing.
  - apply Nat.leb_le. reflexivity.
  - apply Nat.leb_le. reflexivity.
  - exists m, r. split; [exact Hl|]. injection Hp as <-. vm_compute in Hn. injection Hn as <-.
    exact HS.
Defined.

End Connect.
