(* ===== verification/Stream.v ===== *)
(** The streams of burl: any_stream with its rate limits
    (example/client/burl/any_stream.hpp), any_ostream and any_istream
    (any_iostream.cpp) and burl's error category (error.cpp).

    The type-erased stream and the timer are the environment of an operation: how
    the wait of one second ends, and what the stream makes of the buffers it is
    given.  Sizes are std::size_t of 64 bits. *)
From S2P Require Import Prelude.

Module Stream.

Definition size_max : Z := 2 ^ 64 - 1.

(** One direction of an any_stream. *)
Record channel := mk_channel { remain : Z; limit : Z }.

Record any_stream := mk_stream { rd : channel; wr : channel }.

Definition make : any_stream := mk_stream (mk_channel size_max size_max) (mk_channel size_max size_max).

Definition set_limit (bytes_per_second : Z) (c : channel) : channel :=
  mk_channel (if bytes_per_second <? remain c then bytes_per_second else remain c) bytes_per_second.

Definition read_limit (bytes_per_second : Z) (s : any_stream) : any_stream :=
  mk_stream (set_limit bytes_per_second (rd s)) (wr s).
Definition write_limit (bytes_per_second : Z) (s : any_stream) : any_stream :=
  mk_stream (rd s) (set_limit bytes_per_second (wr s)).

(** An operation on buffers of [size] bytes: how the wait ends, if there is one,
    and when; what the stream does with a prefix of the buffers, and how long that
    takes.  Times are in nanoseconds. *)
Record io := mk_io {
  size : Z;
  wait_ec : option str;
  wait_time : Z;
  transfer : Z -> option str * Z;
  duration : Z
}.

(** Of the completion handler: the error and the bytes. *)
Definition outcome := (option str * Z)%type.

(** The lambda of async_write_some and async_read_some: the channel after it, the
    completion, and whether it waited. *)
Definition some_op (c : channel) (x : io) : channel * outcome * bool :=
  let waits := remain c =? 0 in
  let go (c : channel) :=
    let '(ec, n) := transfer x (Z.min (size x) (remain c)) in
    (mk_channel (u64 (remain c - n)) (limit c), (ec, n)) in
  if waits then
    match wait_ec x with
    | Some e => (c, (Some e, 0), true)
    | None => (go (mk_channel (limit c) (limit c)), true)
    end
  else (go c, false).

Definition async_write_some (s : any_stream) (x : io) : any_stream * outcome * bool :=
  let '(c, o, w) := some_op (wr s) x in (mk_stream (rd s) c, o, w).
Definition async_read_some (s : any_stream) (x : io) : any_stream * outcome * bool :=
  let '(c, o, w) := some_op (rd s) x in (mk_stream c (wr s), o, w).

(** async_shutdown: a TLS stream shuts down, another one closes. *)
Inductive closing := TlsShutdown | Close.
Definition async_shutdown (has_handshake : bool) : closing :=
  if has_handshake then TlsShutdown else Close.

(** ** any_ostream and any_istream *)

Inductive ostream := Stdout | Stderr | OutFile (path : str) (append : bool).
Inductive istream := Stdin | InFile (path : str).

(** close() closes a file only. *)
Definition close_ostream (o : ostream) : bool :=
  match o with OutFile _ _ => true | _ => false end.

(** The constructor: the stream and is_tty_. *)
Definition open_ostream (is_tty : ostream -> bool) (can_open : ostream -> bool)
    (path : str) (append : bool) : comp exn (ostream * bool) :=
  if path =s $"-" then Ok (Stdout, is_tty Stdout)
  else if path =s $"%" then Ok (Stderr, is_tty Stderr)
  else if can_open (OutFile path append) then Ok (OutFile path append, false)
  else Err (RuntimeError $"Couldn't open file").

Definition open_istream (can_open : istream -> bool) (path : str) : comp exn istream :=
  if path =s $"-" then Ok Stdin
  else if can_open (InFile path) then Ok (InFile path)
  else Err (RuntimeError $"Couldn't open file").

Definition append_to (contents : istream -> str) (i : istream) (s : str) : str := s ++ contents i.

(** ** error.cpp *)

Definition error_name : str := $"burl".
Definition binary_output_to_tty : Z := 1.
Definition error_message (ev : Z) : str :=
  if ev =? binary_output_to_tty then $"binary output to tty" else $"Unknown burl error".

(** ** The rate *)

(** A stream transfers at most what it is given; a wait of one second takes it,
    unless it is cancelled, which can be at once. *)
Definition io_ok (x : io) : Prop :=
  0 <= size x /\ 0 <= duration x /\ 0 <= wait_time x /\
  (wait_ec x = None -> 1000000000 <= wait_time x) /\
  forall k, 0 <= k -> 0 <= snd (transfer x k) <= k.

(** How long an operation takes; a wait that fails is its end. *)
Definition time_of (waited : bool) (x : io) : Z :=
  if waited then
    match wait_ec x with Some _ => wait_time x | None => wait_time x + duration x end
  else duration x.

(** Operations one after the other: the channel, the bytes and the time. *)
Fixpoint run (c : channel) (xs : list io) : channel * Z * Z :=
  match xs with
  | [] => (c, 0, 0)
  | x :: xs =>
      let '(c, (_, n), waited) := some_op c x in
      let '(c, total, time) := run c xs in
      (c, n + total, time_of waited x + time)
  end.

Definition channel_ok (c : channel) : Prop := 0 <= remain c <= limit c /\ limit c <= size_max.

Lemma set_limit_ok l c : 0 <= l <= size_max -> channel_ok c -> channel_ok (set_limit l c).
Proof.
  intros Hl [Hr Hm]. unfold channel_ok, set_limit. simpl.
  destruct (Z.ltb_spec l (remain c)); lia.
Qed.

Lemma some_op_ok c x :
  channel_ok c -> io_ok x ->
  let '(c', (_, n), waited) := some_op c x in
  channel_ok c' /\ limit c' = limit c /\ 0 <= n /\
  1000000000 * (n + remain c') <= 1000000000 * remain c + limit c * time_of waited x.
Proof.
  intros [Hr Hm] (Hs & Hdur & Hw & Hw1 & Ht). unfold some_op, channel_ok in *.
  assert (forall d, 0 <= remain d <= limit d -> limit d <= size_max ->
    let '(ec, n) := transfer x (Z.min (size x) (remain d)) in
    0 <= n <= remain d /\ u64 (remain d - n) = remain d - n) as Hgo.
  { intros d Hd Hmd. pose proof (Ht (Z.min (size x) (remain d)) ltac:(lia)) as Hn.
    destruct (transfer x _) as [ec n]. simpl in Hn. split; [lia|].
    apply wrap_small. unfold size_max in *. lia. }
  destruct (Z.eqb_spec (remain c) 0) as [H0|H0].
  - destruct (wait_ec x) eqn:Ew; [simpl; rewrite Ew; repeat split; nia|]. specialize (Hw1 eq_refl).
    specialize (Hgo (mk_channel (limit c) (limit c))). simpl in Hgo.
    specialize (Hgo ltac:(lia) ltac:(lia)).
    simpl. destruct (transfer x _) as [ec n]. destruct Hgo as [Hn Hu]. simpl. rewrite Hu, Ew.
    repeat split; nia.
  - specialize (Hgo c Hr Hm). destruct (transfer x _) as [ec n]. destruct Hgo as [Hn Hu].
    simpl. rewrite Hu. repeat split; nia.
Qed.

Lemma time_of_nonneg b x : io_ok x -> 0 <= time_of b x.
Proof.
  intros (_ & Hd & Hw & _). unfold time_of. destruct b; [|done]. destruct (wait_ec x); lia.
Qed.

Lemma run_ok xs : forall c,
  channel_ok c -> Forall io_ok xs ->
  let '(c', total, time) := run c xs in
  channel_ok c' /\ limit c' = limit c /\ 0 <= total /\ 0 <= time /\
  1000000000 * (total + remain c') <= 1000000000 * remain c + limit c * time.
Proof.
  induction xs as [|x xs IH]; intros c Hc Hxs; simpl; [repeat split; try apply Hc; lia|].
  inversion Hxs as [|? ? Hx Hxs']; subst. pose proof (some_op_ok c x Hc Hx) as HO.
  destruct (some_op c x) as [[c1 [ec n]] waited]. destruct HO as (Hc1 & Hl1 & Hn & Hb).
  specialize (IH c1 Hc1 Hxs'). destruct (run c1 xs) as [[c2 total] time].
  destruct IH as (Hc2 & Hl2 & Ht & Htm & Hb2). pose proof (time_of_nonneg waited x Hx).
  rewrite Hl1 in *. split; [done|]. split; [done|]. split; [lia|]. split; [lia|]. nia.
Qed.

(** Operations on a channel transfer at most [l] for each second they take, plus
    one second's worth, and what may still be transferred never exceeds it nor
    wraps below zero. *)
Definition rate_at_most (l : Z) (c : channel) (xs : list io) : Prop :=
  let '(c, total, time) := run c xs in
  1000000000 * total <= l * (time + 1000000000) /\ 0 <= remain c <= l.

(** Once a limit is set on a fresh stream, it holds, however large the buffers and
    whatever the stream transfers of them. *)
Lemma rate_limited l xs :
  0 <= l <= size_max -> Forall io_ok xs ->
  rate_at_most l (set_limit l (mk_channel size_max size_max)) xs.
Proof.
  intros Hl Hxs. set (c0 := set_limit l _).
  assert (channel_ok c0) as Hc.
  { apply set_limit_ok; [done|]. unfold channel_ok, size_max. simpl. lia. }
  pose proof (run_ok xs _ Hc Hxs) as HR. unfold rate_at_most.
  destruct (run c0 xs) as [[c total] time].
  destruct HR as (Hc' & Hl' & Ht & Htm & Hb). destruct Hc as [Hr _]. destruct Hc' as [Hr' _].
  simpl in *. rewrite Hl' in Hr'. split; [nia|lia].
Qed.

(** With a limit of zero nothing is ever transferred. *)
Lemma zero_limit_stalls xs :
  Forall io_ok xs -> snd (fst (run (wr (write_limit 0 make)) xs)) = 0.
Proof.
  intros Hxs.
  assert (channel_ok (wr (write_limit 0 make))) as Hc.
  { apply set_limit_ok; [unfold size_max; lia|]. unfold channel_ok, make, size_max. simpl. lia. }
  pose proof (run_ok xs _ Hc Hxs) as HR.
  destruct (run (wr (write_limit 0 make)) xs) as [[c total] time].
  destruct HR as (Hc' & _ & Ht & _ & Hb). destruct Hc' as [Hr' _]. simpl in *. lia.
Qed.

Definition whole (n d : Z) : io := mk_io n None 1000000000 (fun k => (None, k)) d.

Example rate_reached :
  run (wr (write_limit 100 make)) [whole 150 5; whole 150 5; whole 150 5] =
  (mk_channel 0 100, 300, 2000000015).
Proof. vm_compute. reflexivity. Qed.

(** A wait that is cancelled at once lets nothing through. *)
Definition cancelled (n : Z) : io := mk_io n (Some $"cancelled") 0 (fun k => (None, k)) 0.

Example cancelled_wait :
  run (wr (write_limit 100 make))
    [whole 150 0; cancelled 150] =
  (mk_channel 0 100, 100, 0).
Proof. vm_compute. reflexivity. Qed.

End Stream.
