(* ===== verification/Session.v ===== *)
(** A transfer with its connections (example/client/burl/main.cpp, the lambda
    connect_to of perform_request).

    Transfer.v leaves open what connecting to a URL gives; here it is the run of
    Connect.connect against a network, and a stream is the trace that made it.
    So what is known of a transfer's requests and what is known of a connection
    come together; the limits that connect_to sets are those of Stream.v. *)
From S2P Require Import Prelude.
From S2P Require Import Grammar.
From S2P Require Import Http.
From S2P Require Import Cookie.
From S2P Require Import Options.
From S2P Require Import Transfer.
From S2P Require Import Connect.
From S2P Require Import Stream.

Module Session.

Import Options Transfer.

(** Setting the host or the port leaves the scheme. *)
Class Setters `{Libs} : Prop := {
  scheme_set_encoded_host h u : scheme (set_encoded_host h u) = scheme u;
  scheme_set_port p u : scheme (set_port p u) = scheme u
}.

Section Program.
Context `{L : Libs, W : !Web, F : Fields, GR : Grammar, CA : Cookie.Calendar}.
Context `{CR : !Connect.Credentials}.

(** What happens to the stream of a transfer. *)
Inductive event :=
| CleanShutdown                          (* stream.async_shutdown *)
| Connection (x : Connect.action)
| ReadLimit (bytes : Z)
| WriteLimit (bytes : Z).

Definition limits (oc : operation_config) : list event :=
  match recvpersecond oc with Some n => [ReadLimit n] | None => [] end ++
  match sendpersecond oc with Some n => [WriteLimit n] | None => [] end.

Definition clean_shutdown (oc : operation_config) : list event :=
  if buffer (proxy oc) =s [] then [CleanShutdown] else [].

(** The lambda connect_to.  What async_shutdown returns is ignored; when
    connect_timeout has passed, the operation under way fails, which the network
    [e] may do at any time. *)
Definition connect_to (oc : operation_config) (e : Connect.env) (u : url)
    : comp exn (list event) :=
  match Connect.exec e [] (Connect.connect oc u) with
  | (tr, Ok _) => Ok (clean_shutdown oc ++ map Connection tr ++ limits oc)
  | (_, Err x) => Err x
  | (_, UB) => UB
  end.

(** One exchange with a server, and the network when it has to connect again. *)
Record exchange := mk_exchange {
  sent_at : moment;
  answered_at : moment;
  answered : comp exn response;
  body_dropped : bool;
  network : Connect.env
}.

Definition turn_of (oc : operation_config) (x : exchange) : turn (stream := list event) :=
  mk_turn (sent_at x) (answered_at x) (answered x) (body_dropped x) (connect_to oc (network x)).

(** The surroundings of a transfer, its network included. *)
Record surroundings := mk_surroundings {
  exists_file : str -> bool;
  open_output : str -> comp exn unit;
  first_network : Connect.env;
  exchanges : list exchange;
  read_body : comp exn unit
}.

Definition world_of (oc : operation_config) (w : surroundings) : world (stream := list event) :=
  mk_world (exists_file w) (open_output w) (connect_to oc (first_network w))
    (map (turn_of oc) (exchanges w)) (read_body w).

(** perform_request with its connections. *)
Definition perform (psl : option (str -> str -> bool)) (brotli zlib : bool)
    (oc : operation_config) (jar : option (list Cookie.cookie)) (exp_cookies : str)
    (m : option string_body) (ropt : request_opt) (w : surroundings)
    : list (sent (stream := list event)) * option str * task_end :=
  perform_request psl brotli zlib oc jar exp_cookies m ropt (world_of oc w).

(** What an any_stream is after its history: assigning makes a new one. *)
Definition step_stream (s : Stream.any_stream) (e : event) : Stream.any_stream :=
  match e with
  | Connection (Connect.Assigned _) => Stream.make
  | ReadLimit n => Stream.read_limit n s
  | WriteLimit n => Stream.write_limit n s
  | _ => s
  end.

Definition stream_state (tr : list event) : Stream.any_stream :=
  fold_left step_stream tr Stream.make.

End Program.

(** ** What a stream has been through *)

Section Streams.
Context `{L : Libs, W : !Web, F : Fields, FL : !FieldsLaws, GR : Grammar}.
Context `{CA : Cookie.Calendar, CR : !Connect.Credentials}.
Context `{O : !Origins, S : !Setters}.

(** The stream leads to the host of [u]: before it was handed over there was
    nothing but what C20 allows, and for https a handshake for that host. *)
Definition leads_to (oc : operation_config) (u : url) (tr : list event) : Prop :=
  exists before, Forall (Connect.confined oc) before /\
    tr = clean_shutdown oc ++
         map Connection
           (before ++
            (if scheme u =s $"https"
             then [Connect.SetServerName (url_host u); Connect.SetVerification (url_host u);
                   Connect.Handshaken; Connect.Assigned true]
             else [Connect.Assigned false])) ++
         limits oc.

Definition keeps_scheme (f : option (url -> comp exn url)) : Prop :=
  forall u v, Connect.redirected_url f u = Ok v -> scheme v = scheme u.

Lemma connect_to_scheme items u v : connect_to_fn items u = Ok v -> scheme v = scheme u.
Proof.
  induction items as [|[lhs rhs] items IH]; cbn [connect_to_fn]; [by intros [= <-]|].
  destruct (_ && _); [done|]. intros HE. bind_ok. destruct (_ && _); [by apply IH|].
  injection HE as <-. destruct (port rhs =s []), (encoded_host rhs =s []);
    by rewrite ?scheme_set_port, ?scheme_set_encoded_host.
Qed.

Lemma resolve_to_scheme items u v : resolve_to_fn items u = Ok v -> scheme v = scheme u.
Proof.
  induction items as [|[lhs rhs] items IH]; cbn [resolve_to_fn]; [by intros [= <-]|].
  destruct (_ && _); [done|]. intros HE. bind_ok. destruct (negb _); [by apply IH|].
  injection HE as <-. by rewrite scheme_set_encoded_host.
Qed.

(** The redirections that parse_args makes keep the scheme. *)
Lemma parsed_redirections vm options args :
  parse_args vm options = Ok args ->
  keeps_scheme (Options.connect_to (oc args)) /\ keeps_scheme (resolve_to (oc args)).
Proof.
  intros HE. apply parse_args_parts in HE as (_ & _ & Hc & Hr). split.
  - unfold set_connect_to, when in Hc. destruct (vm_contains vm _).
    + bind_ok. injection Hc as <-. intros u v. apply connect_to_scheme.
    + injection Hc as <-. by intros u v [= <-].
  - unfold set_resolve_to, when in Hr. destruct (vm_contains vm _).
    + bind_ok. injection Hr as <-. intros u v. apply resolve_to_scheme.
    + injection Hr as <-. by intros u v [= <-].
Qed.

(** A connection that was made leads to the host of its URL. *)
Lemma connect_leads oc e u tr :
  keeps_scheme (Options.connect_to oc) -> keeps_scheme (resolve_to oc) ->
  connect_to oc e u = Ok tr -> leads_to oc u tr.
Proof.
  intros Hc Hr. unfold connect_to.
  pose proof (Connect.connect_trace oc u e) as HC.
  destruct (Connect.exec e [] (Connect.connect oc u)) as [ctr [[]|x|]]; try done.
  intros [= <-]. destruct HC as (before & HF & [(k & _ & ?)|(v & _ & Hv & ->)]); [done|].
  exists before. split; [done|].
  assert (scheme v = scheme u) as ->; [|destruct (scheme u =s _); reflexivity].
  unfold Connect.final_url in Hv. destruct (unix_socket_path oc); [|by injection Hv as <-].
  destruct (Connect.redirected_url (Options.connect_to oc) u) as [v1| |] eqn:E1;
    cbn [mbind comp_bind] in Hv; try done.
  apply Hr in Hv as ->. by apply Hc.
Qed.

(** So does one that is kept for another URL of the same origin. *)
Lemma leads_same_origin oc u v tr :
  encoded_origin u = encoded_origin v -> leads_to oc u tr -> leads_to oc v tr.
Proof.
  intros Ho. unfold leads_to. by rewrite (origin_host _ _ Ho), (origin_scheme _ _ Ho).
Qed.

(** The stream of every request was made by connect_to for a URL of its origin. *)
Lemma perform_connections psl brotli zlib oc jar exp_cookies m ropt w u :
  prepare_url oc ropt = Ok u ->
  Forall (fun s => sent_ok oc u s /\
            exists e v, encoded_origin v = encoded_origin (s_url s) /\
                        connect_to oc e v = Ok (s_stream s))
    (requests (perform psl brotli zlib oc jar exp_cookies m ropt w)).
Proof.
  intros Hu. unfold perform.
  destruct (perform_requests psl oc exp_cookies u brotli zlib jar m ropt (world_of oc w) Hu)
    as [->|(st & HI & _ & Hconn & Hfirst & ->)]; [constructor|].
  destruct (loop_sent psl oc exp_cookies u (turns (world_of oc w)) st HI) as [Hok _].
  pose proof (loop_streams psl oc exp_cookies u (turns (world_of oc w)) st HI) as Hst.
  rewrite !List.Forall_forall in *. intros s Hs. split; [by apply Hok|].
  destruct (Hok s Hs) as (_ & _ & Ho).
  destruct (Hst s Hs) as [[Hss Hc]|(x & Hx & Hcx)].
  - exists (first_network w), (s_conn s). split; [done|]. rewrite Hss, Hc, Hconn. exact Hfirst.
  - cbn [turns world_of] in Hx. apply in_map_iff in Hx as (y & <- & _).
    exists (network y), (s_conn s). by split.
Qed.

(** The limits of such a stream are the configured ones, on fresh channels. *)
Lemma connect_to_state oc e v tr :
  connect_to oc e v = Ok tr ->
  let fresh := Stream.mk_channel Stream.size_max Stream.size_max in
  let limited l := match l with Some n => Stream.set_limit n fresh | None => fresh end in
  stream_state tr =
    Stream.mk_stream (limited (recvpersecond oc)) (limited (sendpersecond oc)).
Proof.
  unfold connect_to. destruct (Connect.exec e [] (Connect.connect oc v)) as [ctr [[]|x|]]; try done.
  intros [= <-]. cbv zeta. unfold stream_state.
  assert (forall l, fold_left step_stream (map Connection l) Stream.make = Stream.make) as HC.
  { induction l as [|x l IH]; [done|]. cbn [map fold_left]. by destruct x. }
  assert (fold_left step_stream (clean_shutdown oc) Stream.make = Stream.make) as HS
    by (unfold clean_shutdown; by destruct (_ =s _)).
  rewrite !fold_left_app, HS, HC. unfold limits.
  by destruct (recvpersecond oc), (sendpersecond oc).
Qed.

(** C27: whatever the requests, redirections and reconnections of a transfer, the
    stream of each of them transfers no more than --limit-rate for each second that
    it takes, plus one second's worth, in either direction, however large the
    buffers, whatever the layer below takes of them, and also when waits are
    cancelled before their second is over; and what may still be
    transferred never exceeds the limit nor wraps below zero. *)
Theorem transfers_rate_limited psl brotli zlib oc jar exp_cookies m ropt w u xs :
  prepare_url oc ropt = Ok u -> Forall Stream.io_ok xs ->
  Forall (fun s =>
    let st := stream_state (s_stream s) in
    (forall l, recvpersecond oc = Some l -> 0 <= l <= Stream.size_max ->
       Stream.rate_at_most l (Stream.rd st) xs) /\
    (forall l, sendpersecond oc = Some l -> 0 <= l <= Stream.size_max ->
       Stream.rate_at_most l (Stream.wr st) xs))
    (requests (perform psl brotli zlib oc jar exp_cookies m ropt w)).
Proof.
  intros Hu Hxs.
  eapply Forall_impl; [by apply (perform_connections psl brotli zlib oc jar exp_cookies m ropt w u)|].
  intros s (_ & e & v & _ & Hc). cbv zeta. rewrite (connect_to_state _ _ _ _ Hc).
  split; intros l -> Hl; by apply Stream.rate_limited.
Qed.

(** Every request of a transfer goes over a stream that leads to its host. *)
Lemma perform_streams psl brotli zlib oc jar exp_cookies m ropt w u :
  keeps_scheme (Options.connect_to oc) -> keeps_scheme (resolve_to oc) ->
  prepare_url oc ropt = Ok u ->
  Forall (fun s => sent_ok oc u s /\ leads_to oc (s_url s) (s_stream s))
    (requests (perform psl brotli zlib oc jar exp_cookies m ropt w)).
Proof.
  intros Hc Hr Hu.
  eapply Forall_impl; [by apply (perform_connections psl brotli zlib oc jar exp_cookies m ropt w u)|].
  intros s (Hok & e & v & Ho & Hv). split; [done|].
  eapply leads_same_origin; [exact Ho|]. exact (connect_leads _ _ _ _ Hc Hr Hv).
Qed.


End Streams.

(** ** A transfer that leaves its origin *)

(** URLs with a host of one letter: whether https, the host and the target. *)
Definition tiny : Type := bool * ascii * str.

Definition tiny_scheme (u : tiny) : str := if fst (fst u) then $"https" else $"http".
Definition tiny_host (u : tiny) : str := [snd (fst u)].
Definition tiny_origin (u : tiny) : str := tiny_scheme u ++ $"://" ++ tiny_host u.

Definition parse_tiny (s : str) : option tiny :=
  if starts_with $"https://" s
  then match drop 8 s with c :: t => Some (true, c, t) | [] => None end
  else if starts_with $"http://" s
  then match drop 7 s with c :: t => Some (false, c, t) | [] => None end
  else None.

Definition no_url : tiny := (false, zero, []).

#[local] Instance tiny_libs : Libs := {
  dbl := Z;
  to_duration d := d * 1000000000;
  stod s := Ok (undec s);
  scale d n := u64 (d * n);
  url := tiny;
  parse_url s := match parse_tiny s with Some u => Ok u | None => Err SystemError end;
  empty_url := no_url;
  encoded_host u := tiny_host u;
  has_port _ := false;
  port _ := [];
  scheme u := tiny_scheme u;
  set_encoded_host h u := (fst (fst u), default zero (head h), snd u);
  set_port _ u := u;
  set_host h u := (fst (fst u), default zero (head h), snd u);
  encoded_host_address u := tiny_host u;
  authority_rule := fun s => Err (mismatch, s);
  ipv4_address := str;
  ipv6_address := str;
  ipv4_address_rule := token_doc is_digit;
  ipv6_address_rule := token_doc is_digit;
  set_host_ipv4 a u := u;
  set_host_ipv6 a u := u;
  encode s := s;
  parse_query s := Some s;
  read_file s := Ok s;
  ssl_accepts _ := Ok true;
  print_options := []
}.

#[local] Instance tiny_web : @Web tiny_libs := {
  encoded_origin u := tiny_origin u;
  encoded_target u := snd (u : tiny);
  host_and_port u := tiny_host u;
  userinfo _ := [];
  has_userinfo _ := false;
  remove_userinfo u := u;
  buffer u := if snd (fst (u : tiny)) =c "000" then [] else tiny_origin u ++ snd (u : tiny);
  encoded_segments _ := [];
  resolve _ s := parse_tiny s;
  url_view u := Cookie.mk_url (tiny_host u) (fst (fst (u : tiny))) [] (snd (u : tiny));
  Transfer.parse_uri s := parse_tiny s;
  normalize u := u;
  url_host u := tiny_host u;
  append_params _ u := u;
  url_path u := snd (u : tiny);
  set_path p u := (fst (u : tiny), snd (u : tiny) ++ p)
}.

#[local] Instance tiny_credentials : @Connect.Credentials tiny_libs := {
  Connect.decoded_user _ := [];
  Connect.decoded_password _ := []
}.

#[local] Instance utc : Cookie.Calendar := { Cookie.local_time _ _ := 0 }.

Lemma tiny_origins : Origins (L := tiny_libs) (H := tiny_web).
Proof.
  split; intros [[a h] t] [[b k] q]; cbn; unfold tiny_origin, tiny_host, tiny_scheme; cbn;
    destruct a, b; cbn; by intros [= ->].
Qed.

Lemma tiny_setters : Setters (H := tiny_libs).
Proof. by split. Qed.

(** curl -L -u u:p https://a/1, redirected to http://b/2. *)
Definition tiny_vm : variables_map (H := tiny_libs) :=
  [($"url", AStrings [$"https://a/1"]); ($"user", AString $"u:p"); ($"location", ASwitch)].

Definition open_network : Connect.env (H := list_fields) :=
  Connect.mk_env (fun _ _ => Ok tt) (fun _ n => Ok (replicate n zero)) (fun _ => Ok 200)
    (fun _ _ _ => Ok [Connect.mk_endpoint $"127.0.0.1" false]).

Definition left_origin : surroundings (F := list_fields) :=
  mk_surroundings (fun _ => false) (fun _ => Ok tt) open_network
    [mk_exchange (alone 5) (alone 5) (Ok (mk_response 302 11 false None [($"Location", $"http://b/2")])) true
       open_network;
     mk_exchange (alone 6) (alone 7) (Ok (mk_response 200 11 false None [])) true open_network] (Ok tt).

Definition tiny_args : comp exn (parse_args_result (H := tiny_libs) (H0 := list_fields)) :=
  parse_args (H1 := doc_grammar) tiny_vm [].

Definition left_origin_run (args : parse_args_result (H := tiny_libs) (H0 := list_fields)) :=
  requests (perform (GR := doc_grammar) None false false (oc args) None [] None
    (mk_request_opt $"https://a/1" [] [] false) left_origin).


(** curl --limit-rate 100 https://a/1 *)
Definition limited_vm : variables_map (H := tiny_libs) :=
  [($"url", AStrings [$"https://a/1"]); ($"limit-rate", AString $"100")].

Lemma transfers_rate_limited_witness :
  exists args, parse_args (H := tiny_libs) (H1 := doc_grammar) limited_vm [] = Ok args /\
    length (left_origin_run args) = 1%nat /\
    Forall (fun s => Stream.rate_at_most 100 (Stream.rd (stream_state (s_stream s)))
                       [Stream.whole 150 5; Stream.cancelled 150; Stream.whole 150 5]) (left_origin_run args).
Proof.
  eexists. split; [reflexivity|]. split; [vm_compute; reflexivity|].
  unfold left_origin_run.
  eapply Forall_impl; [eapply (@transfers_rate_limited tiny_libs tiny_web list_fields
    list_fields_laws doc_grammar utc tiny_credentials None false false)
    with (xs := [Stream.whole 150 5; Stream.cancelled 150; Stream.whole 150 5]); [reflexivity|]|].
  - repeat constructor; simpl; first [done|lia].
  - intros s [Hr _]. apply Hr; [vm_compute; reflexivity|done].
Defined.

End Session.
