(* ===== verification/ProgressMeter.v ===== *)
(** The progress meter of burl (example/client/burl/progress_meter.cpp).

    Time points and durations are nanoseconds of steady_clock; [now] is what
    steady_clock::now() gives the call. *)
From S2P Require Import Prelude.

Module ProgressMeter.

Record progress_meter := mk_meter {
  total_ : option Z;
  transfered_ : Z;
  window_ : list Z;                     (* std::array of five *)
  init_ : Z;
  last_update_ : Z
}.

(** duration_cast to milliseconds, and the whole quarters of a second in it. *)
Definition milliseconds (ns : Z) : Z := Z.quot ns 1000000.
Definition quarters (elapsed : Z) : nat :=
  Z.to_nat (Z.quot (Z.min (milliseconds elapsed) 1250) 250).

Definition make (total : option Z) (now : Z) : progress_meter :=
  mk_meter total 0 (replicate 5 0) now now.

(** window_.back() += bytes *)
Fixpoint add_back (bytes : Z) (w : list Z) : list Z :=
  match w with
  | [] => []
  | [b] => [u64 (b + bytes)]
  | a :: w => a :: add_back bytes w
  end.

Definition update (now bytes : Z) (m : progress_meter) : progress_meter :=
  let shift := quarters (now - last_update_ m) in
  let '(last, w) :=
    if negb (shift =? 0)%nat
    then (now, drop shift (window_ m) ++ replicate shift 0)
    else (last_update_ m, window_ m) in
  mk_meter (total_ m) (u64 (transfered_ m + bytes)) (add_back bytes w) (init_ m) last.

Definition accumulate (l : list Z) : Z := fold_left (fun a b => u64 (a + b)) l 0.

Definition cur_rate (now : Z) (m : progress_meter) : Z :=
  let now := if now - init_ m <? 1000000000 then last_update_ m + 250000000 else now in
  let offset := quarters (now - last_update_ m) in
  accumulate (drop offset (if (offset =? 0)%nat then removelast (window_ m) else window_ m)).

Definition avg_rate (now : Z) (m : progress_meter) : Z :=
  let elapsed := Z.quot (now - init_ m) 1000000000 in
  if elapsed =? 0 then 0 else transfered_ m / u64 elapsed.

Definition total (m : progress_meter) : option Z := total_ m.
Definition transfered (m : progress_meter) : Z := transfered_ m.

Definition remaining (m : progress_meter) : option Z :=
  match total_ m with
  | Some t => if transfered_ m <=? t then Some (t - transfered_ m) else None
  | None => None
  end.

(** An unsigned division by zero is undefined. *)
Definition pct (m : progress_meter) : comp exn (option Z) :=
  match total_ m with
  | Some t => if t =? 0 then UB else Ok (Some (swrap 32 (u64 (transfered_ m * 100) / t)))
  | None => Ok None
  end.

(** The seconds that hh_mm_ss shows. *)
Definition eta (now : Z) (m : progress_meter) : option Z :=
  match remaining m with
  | None => None
  | Some re =>
      let rate := cur_rate now m in
      let rate := if rate =? 0 then avg_rate now m else rate in
      if rate =? 0 then None else Some (re / rate)
  end.

(** ** What the window holds *)

(** The updates of a meter, the last one first: the time and the bytes. *)
Definition run (total : option Z) (start : Z) (log : list (Z * Z)) : progress_meter :=
  foldr (fun u m => update (fst u) (snd u) m) (make total start) log.

Definition bytes_after (t : Z) (log : list (Z * Z)) : Z :=
  foldr (fun u a => if t <? fst u then a + snd u else a) 0 log.

Definition bytes_of (log : list (Z * Z)) : Z := foldr (fun u a => a + snd u) 0 log.

(** The clock does not go back, and no update takes away. *)
Fixpoint well_timed (start : Z) (log : list (Z * Z)) : Prop :=
  match log with
  | [] => True
  | (t, b) :: log =>
      well_timed start log /\ 0 <= b /\ start <= t /\
      match log with (t', _) :: _ => t' <= t | [] => True end
  end.

Definition quarter : Z := 250000000.

Lemma quarters_small e : 0 <= e -> quarters e = Z.to_nat (Z.min (e / quarter) 5).
Proof.
  intros He. unfold quarters, milliseconds. rewrite (Z.quot_div_nonneg e) by lia.
  assert (0 <= e / 1000000) by (apply Z.div_pos; lia).
  rewrite Z.quot_div_nonneg by lia.
  f_equal. change quarter with (1000000 * 250). rewrite <- Z.div_div by lia.
  destruct (Z.min_spec (e / 1000000) 1250) as [[Hlt ->]|[Hle ->]].
  - assert (e / 1000000 / 250 < 5) by (apply Z.div_lt_upper_bound; lia). lia.
  - assert (5 <= e / 1000000 / 250) by (apply Z.div_le_lower_bound; lia).
    change (1250 / 250) with 5. lia.
Qed.

Lemma quarters_spec e :
  0 <= e ->
  (quarters e <= 5)%nat /\ Z.of_nat (quarters e) * quarter <= e /\
  ((quarters e < 5)%nat -> e < (Z.of_nat (quarters e) + 1) * quarter).
Proof.
  intros He. rewrite quarters_small by done.
  assert (0 <= e / quarter) by (apply Z.div_pos; unfold quarter; lia).
  pose proof (Z.div_mod e quarter ltac:(done)). pose proof (Z.mod_pos_bound e quarter ltac:(done)).
  rewrite !Z2Nat.id by lia. unfold quarter in *. lia.
Qed.

Definition sum (w : list Z) : Z := foldr Z.add 0 w.

Lemma sum_app a b : sum (a ++ b) = sum a + sum b.
Proof. induction a as [|x a IH]; simpl; lia. Qed.

Lemma sum_zeros n : sum (replicate n 0) = 0.
Proof. induction n as [|n IH]; simpl; lia. Qed.

Lemma sum_nonneg w : Forall (Z.le 0) w -> 0 <= sum w.
Proof. induction 1; simpl; lia. Qed.

Lemma sum_drop_le i w : Forall (Z.le 0) w -> sum (drop i w) <= sum w.
Proof.
  intros Hw. rewrite <- (take_drop i w) at 2. rewrite sum_app.
  pose proof (sum_nonneg (take i w) (Forall_take _ _ _ Hw)). lia.
Qed.

Lemma sum_shift k i w :
  (k <= length w)%nat -> sum (drop i (drop k w ++ replicate k 0)) = sum (drop (k + i) w).
Proof.
  intros Hk. destruct (Nat.le_gt_cases i (length (drop k w))).
  - rewrite drop_app_le, sum_app, sum_zeros, drop_drop by done. lia.
  - rewrite drop_app_ge by lia. rewrite length_drop in *. rewrite (drop_ge w (k + i)) by lia.
    rewrite drop_replicate. apply sum_zeros.
Qed.

Lemma accumulate_sum w :
  Forall (Z.le 0) w -> sum w < 2 ^ 64 -> accumulate w = sum w.
Proof.
  intros Hw. unfold accumulate. enough (forall a, 0 <= a -> a + sum w < 2 ^ 64 ->
    fold_left (fun a b => u64 (a + b)) w a = a + sum w) as HG by (intros; apply (HG 0); lia).
  induction Hw as [|b w Hb Hw IH]; intros a Ha Hs; simpl in *; [lia|].
  pose proof (sum_nonneg w Hw). rewrite wrap_small by lia. rewrite IH by lia. lia.
Qed.

(** The back of the window grows, and with it every sum that includes it. *)
Lemma add_back_spec b w i :
  Forall (Z.le 0) w -> 0 <= b -> sum w + b < 2 ^ 64 -> (i < length w)%nat ->
  sum (drop i (add_back b w)) = sum (drop i w) + b /\
  Forall (Z.le 0) (add_back b w) /\ length (add_back b w) = length w.
Proof.
  revert i. induction w as [|a w IH]; intros i Hw Hb Hs Hi; [simpl in *; lia|].
  inversion Hw as [|? ? Ha Hw']; subst. pose proof (sum_nonneg w Hw').
  change (sum (a :: w)) with (a + sum w) in Hs. destruct w as [|c w].
  - simpl in *. assert (i = 0%nat) as -> by lia. rewrite wrap_small by lia. simpl.
    repeat split; [lia|repeat constructor; lia].
  - change (add_back b (a :: c :: w)) with (a :: add_back b (c :: w)).
    set (v := c :: w) in *. change (length (a :: v)) with (S (length v)) in *.
    assert (0 < length v)%nat as Hv by (simpl; lia). clearbody v.
    destruct (IH (Nat.pred i) Hw' Hb ltac:(lia) ltac:(lia)) as (Hi' & Hn & Hl).
    destruct (IH 0%nat Hw' Hb ltac:(lia) ltac:(lia)) as (H0 & _ & _).
    split; [|split; [by constructor|by simpl; rewrite Hl]].
    destruct i as [|i]; [|exact Hi']. rewrite !drop_0 in *. simpl. lia.
Qed.

Lemma bytes_after_le log t t' start :
  well_timed start log -> t <= t' -> bytes_after t' log <= bytes_after t log.
Proof.
  induction log as [|[s b] log IH]; simpl; [lia|]. intros (Hw & Hb & _) Ht.
  specialize (IH Hw Ht). destruct (Z.ltb_spec t' s), (Z.ltb_spec t s); lia.
Qed.

Lemma bytes_after_of log t start :
  well_timed start log -> 0 <= bytes_after t log <= bytes_of log.
Proof.
  induction log as [|[s b] log IH]; simpl; [lia|]. intros (Hw & Hb & _).
  specialize (IH Hw). destruct (Z.ltb_spec t s); lia.
Qed.

Lemma bytes_after_none log t start :
  well_timed start log -> match log with (s, _) :: _ => s <= t | [] => True end ->
  bytes_after t log = 0.
Proof.
  induction log as [|[s b] log IH]; simpl; [done|]. intros (Hw & _ & _ & Hs) Ht.
  destruct (Z.ltb_spec t s); [lia|]. apply IH; [done|].
  destruct log as [|[s' b'] log]; [done|]. lia.
Qed.

(** The last [5 - i] cells of the window hold the bytes of the last [4 - i]
    quarters of a second before [last_update_], and at most those of twice as
    many. *)
Record window_inv (start : Z) (log : list (Z * Z)) (m : progress_meter) : Prop := {
  wi_len : length (window_ m) = 5%nat;
  wi_nonneg : Forall (Z.le 0) (window_ m);
  wi_start : start <= last_update_ m;
  wi_recent : match log with
              | (t, _) :: _ => last_update_ m <= t < last_update_ m + quarter
              | [] => True
              end;
  wi_transfered : transfered_ m = bytes_of log;
  wi_init : init_ m = start;
  wi_low : forall i : nat, (i <= 4)%nat ->
    bytes_after (last_update_ m - (4 - Z.of_nat i) * quarter) log <= sum (drop i (window_ m));
  wi_high : forall i : nat, (i <= 4)%nat ->
    sum (drop i (window_ m)) <= bytes_after (last_update_ m - 2 * (4 - Z.of_nat i) * quarter - 1) log
}.

Lemma window_inv_make total start : window_inv start [] (make total start).
Proof.
  split; simpl; try done; try lia; [repeat constructor; lia|..];
    intros i Hi; do 5 (destruct i as [|i]; [done|]); lia.
Qed.

Lemma bytes_after_cons t s b log :
  t < s -> bytes_after t ((s, b) :: log) = bytes_after t log + b.
Proof. intros Hs. simpl. by destruct (Z.ltb_spec t s); [|lia]. Qed.

(** The window moved by [k] quarters. *)
Lemma moved_window k w :
  (k <= 5)%nat -> length w = 5%nat -> Forall (Z.le 0) w ->
  let w' := drop k w ++ replicate k 0 in
  length w' = 5%nat /\ Forall (Z.le 0) w' /\
  (forall i, sum (drop i w') = sum (drop (k + i) w)) /\ sum w' <= sum w.
Proof.
  intros Hk Hl Hn w'.
  assert (forall i, sum (drop i w') = sum (drop (k + i) w)) as Hs
    by (intros i; apply sum_shift; lia).
  split_and!.
  - unfold w'. rewrite length_app, length_drop, length_replicate. lia.
  - apply Forall_app. split; [by apply Forall_drop|]. apply Forall_replicate. lia.
  - exact Hs.
  - rewrite <- (drop_0 w'), Hs. by apply sum_drop_le.
Qed.

Lemma window_inv_update start log m t b :
  window_inv start log m -> well_timed start ((t, b) :: log) ->
  bytes_of log + b < 2 ^ 64 -> last_update_ m <= t ->
  window_inv start ((t, b) :: log) (update t b m).
Proof.
  intros [Hlen Hnn Hst Hrec Htr Hin Hlo Hhi] HW HB Ht. destruct HW as (HW & Hb & Hst' & Hmono).
  pose proof (bytes_after_of log) as Hof. pose proof (Hof 0 start HW).
  assert (sum (window_ m) + b < 2 ^ 64) as Hs.
  { specialize (Hhi 0%nat ltac:(lia)). rewrite drop_0 in Hhi.
    pose proof (Hof (last_update_ m - 2 * (4 - Z.of_nat 0) * quarter - 1) start HW). lia. }
  set (L := last_update_ m) in *. unfold update. fold L.
  destruct (quarters_spec (t - L) ltac:(lia)) as (Hk5 & Hke & Hek).
  set (k := quarters (t - L)) in *.
  destruct (Nat.eqb_spec k 0) as [Hk|Hk]; cbn [negb].
  - pose proof (add_back_spec b (window_ m) 0 Hnn Hb Hs ltac:(lia)) as (_ & Hn' & Hl').
    split; simpl; try done; try lia.
    + rewrite wrap_small; lia.
    + intros i Hi. destruct (add_back_spec b (window_ m) i Hnn Hb Hs ltac:(lia)) as (-> & _).
      specialize (Hlo i Hi). destruct (Z.ltb_spec (L - (4 - Z.of_nat i) * quarter) t); lia.
    + intros i Hi. destruct (add_back_spec b (window_ m) i Hnn Hb Hs ltac:(lia)) as (-> & _).
      specialize (Hhi i Hi).
      destruct (Z.ltb_spec (L - 2 * (4 - Z.of_nat i) * quarter - 1) t); [lia|].
      unfold quarter in *. lia.
  - destruct (moved_window k (window_ m) ltac:(lia) Hlen Hnn) as (Hlw & Hnw & Hsw & Hle).
    set (w := drop k (window_ m) ++ replicate k 0) in *.
    assert (sum w + b < 2 ^ 64) as Hs' by lia.
    pose proof (add_back_spec b w 0 Hnw Hb Hs' ltac:(lia)) as (_ & Hn' & Hl').
    split; simpl; try done; try lia.
    + unfold quarter. lia.
    + rewrite wrap_small; lia.
    + intros i Hi. destruct (add_back_spec b w i Hnw Hb Hs' ltac:(lia)) as (-> & _).
      rewrite Hsw.
      enough (bytes_after (t - (4 - Z.of_nat i) * quarter) log <= sum (drop (k + i) (window_ m)))
        by (destruct (Z.ltb_spec (t - (4 - Z.of_nat i) * quarter) t); lia).
      destruct (Nat.le_gt_cases (k + i) 4) as [Hki|Hki].
      * etrans; [|apply (Hlo _ Hki)]. eapply bytes_after_le; [done|]. unfold quarter in *. lia.
      * rewrite (bytes_after_none log _ start) by
          (done || (destruct log as [|[t' b'] log]; [done|]; unfold quarter in *; lia)).
        apply sum_nonneg. by apply Forall_drop.
    + intros i Hi. destruct (add_back_spec b w i Hnw Hb Hs' ltac:(lia)) as (-> & _).
      rewrite Hsw.
      rewrite (proj2 (Z.ltb_lt _ _)) by (unfold quarter; lia).
      enough (sum (drop (k + i) (window_ m)) <=
              bytes_after (t - 2 * (4 - Z.of_nat i) * quarter - 1) log) by lia.
      destruct (Nat.le_gt_cases (k + i) 4) as [Hki|Hki].
      * etrans; [apply (Hhi _ Hki)|]. eapply bytes_after_le; [done|]. unfold quarter in *. lia.
      * rewrite drop_ge by lia. by apply (Hof _ start).
Qed.

Lemma run_inv total start log :
  well_timed start log -> bytes_of log < 2 ^ 64 -> window_inv start log (run total start log).
Proof.
  induction log as [|[t b] log IH]; intros HW HB; [apply window_inv_make|].
  destruct HW as (HW & Hb & Ht & Hm). simpl in HB.
  specialize (IH HW ltac:(lia)). apply (window_inv_update start log (run total start log)); try done.
  pose proof (wi_recent _ _ _ IH) as Hr. destruct log as [|[t' b'] log]; [simpl in *; lia|].
  cbn beta iota in Hr. lia.
Qed.

Lemma sum_removelast w : Forall (Z.le 0) w -> sum (removelast w) <= sum w.
Proof.
  induction 1 as [|a [|b w] Ha Hw IH]; [done|simpl; lia|].
  change (removelast (a :: b :: w)) with (a :: removelast (b :: w)). simpl in *. lia.
Qed.

Lemma nonneg_removelast w : Forall (Z.le 0) w -> Forall (Z.le 0) (removelast w).
Proof.
  induction 1 as [|a [|b w] Ha Hw IH]; [done..|]. by constructor.
Qed.

Lemma make_run total start log : total_ (run total start log) = total.
Proof.
  induction log as [|[t b] log IH]; [done|]. unfold run in *. simpl. unfold update.
  by destruct (negb _).
Qed.

Lemma avg_rate_spec m n start now :
  transfered_ m = n -> init_ m = start -> start <= now < start + 2 ^ 63 ->
  let seconds := (now - start) / 1000000000 in
  (seconds = 0 -> avg_rate now m = 0) /\
  (0 < seconds -> avg_rate now m * seconds <= n < (avg_rate now m + 1) * seconds).
Proof.
  intros Hn Hi Hnow seconds. unfold avg_rate. rewrite Hn, Hi, Z.quot_div_nonneg by lia.
  fold seconds. destruct (Z.eqb_spec seconds 0) as [->|]; [lia|]. split; [done|]. intros Hs.
  assert (seconds <= now - start) by (unfold seconds; apply Z.div_le_upper_bound; lia).
  rewrite wrap_small by lia.
  pose proof (Z.div_mod n seconds ltac:(lia)). pose proof (Z.mod_pos_bound n seconds Hs). nia.
Qed.

(** The percentage of [n] bytes, as long as no integer overflows. *)
Lemma pct_spec m t :
  total_ m = Some t -> 0 < t -> 0 <= transfered_ m -> 100 * transfered_ m < 2 ^ 64 ->
  100 * transfered_ m < 2 ^ 31 * t ->
  exists p, pct m = Ok (Some p) /\ 0 <= p /\
    p * t <= 100 * transfered_ m < (p + 1) * t /\ (transfered_ m <= t -> p <= 100).
Proof.
  intros Ht H0 Hn Hu Hi. unfold pct. rewrite Ht. destruct (Z.eqb_spec t 0); [lia|].
  rewrite (Z.mul_comm _ 100), wrap_small by lia.
  pose proof (Z.div_mod (100 * transfered_ m) t ltac:(lia)).
  pose proof (Z.mod_pos_bound (100 * transfered_ m) t H0).
  assert (0 <= 100 * transfered_ m / t < 2 ^ 31)
    by (split; [apply Z.div_pos; lia|apply Z.div_lt_upper_bound; lia]).
  rewrite swrap_small by lia. eexists. split; [done|]. split; [lia|]. split; [nia|].
  intros Hle. apply Z.div_le_upper_bound; lia.
Qed.



End ProgressMeter.
