(* ===== verification/TaskGroup.v ===== *)
(** The task group that bounds burl's parallel transfers
    (example/client/burl/task_group.hpp).

    Everything runs on one executor, so the group is a state machine: its
    timer [cv_] holds the composed operations that wait, [ready] those whose
    handlers the executor still has to invoke.  Each element of [css] is one
    adapted handler that has not been destroyed; [launched] tells whether it was
    given out without an error. *)
From S2P Require Import Prelude.

Module TaskGroup.

Inductive errc := cancelled | closed.

Definition errc_value (e : errc) : Z := match e with cancelled => 1 | closed => 2 end.

(** task_group_category *)
Definition name : str := $"task_group".
Definition message (ev : Z) : str :=
  if ev =? 1 then $"task_group cancelled"
  else if ev =? 2 then $"task_group closed"
  else $"Unknown task_group error".

(** error_code, as far as the group has to do with it. *)
Inductive error_code := operation_aborted | task_group (e : errc).

#[export] Instance errc_eq_dec : EqDecision errc.
Proof. solve_decision. Defined.
#[export] Instance error_code_eq_dec : EqDecision error_code.
Proof. solve_decision. Defined.

Inductive kind := Adapt | Join.

(** A composed operation: whether it has been scheduled, and whether its
    cancellation state holds a cancellation. *)
Record op := mk_op { op_kind : kind; scheduled : bool; is_cancelled : bool }.

Record signal := mk_signal { ident : nat; launched : bool }.

Record group := mk_group {
  max_ : Z;
  css : list signal;
  next_ident : nat;
  cv : list op;
  ready : list (op * bool)              (* and whether ec is operation_aborted *)
}.

Definition make (max : Z) : group := mk_group max [] 0 [] [].

Definition set_cv (l : list op) (g : group) : group :=
  mk_group (max_ g) (css g) (next_ident g) l (ready g).
Definition set_ready (l : list (op * bool)) (g : group) : group :=
  mk_group (max_ g) (css g) (next_ident g) (cv g) l.

(** cv_.cancel() *)
Definition notify (g : group) : group :=
  set_cv [] (set_ready (ready g ++ map (fun o => (o, true)) (cv g)) g).

Definition close (g : group) : group :=
  notify (mk_group 0 (css g) (next_ident g) (cv g) (ready g)).

(** emit: the signals that are emitted. *)
Definition emit (g : group) : list nat := map ident (css g).

(** What an invocation tells the outside. *)
Inductive outcome :=
| Completed (ec : option error_code) (ident : nat)   (* self.complete(ec, adaptor()) *)
| Joined                                       (* self.complete() *)
| Emitted (idents : list nat).

(** adaptor(): a new signal, at the end. *)
Definition adaptor (ok : bool) (g : group) : group :=
  mk_group (max_ g) (css g ++ [mk_signal (next_ident g) ok]) (S (next_ident g)) (cv g) (ready g).

Definition wait (o : op) (g : group) : group := set_cv (cv g ++ [o]) g.
Definition post (o : op) (g : group) : group := set_ready (ready g ++ [(o, false)]) g.

Definition size (g : group) : Z := Z.of_nat (length (css g)).

(** The lambda of async_adapt. *)
Definition adapt_body (o : op) (aborted : bool) (g : group) : group * list outcome :=
  let c := if scheduled o then is_cancelled o else false in
  let ec := if aborted then Some operation_aborted else None in
  let ec := if bool_decide (ec = Some operation_aborted) then None else ec in
  let ec := if c then Some (task_group cancelled) else ec in
  let ec := if max_ g =? 0 then Some (task_group closed) else ec in
  if (max_ g <=? size g) && bool_decide (ec = None) then
    (wait (mk_op Adapt true c) g, [])
  else if negb (scheduled o) then
    (post (mk_op Adapt true c) g, [])
  else (adaptor (bool_decide (ec = None)) g, [Completed ec (next_ident g)]).

(** The error of a timer that was cancelled makes no difference. *)
Lemma adapt_body_cleared o aborted g :
  adapt_body o aborted g =
  let c := if scheduled o then is_cancelled o else false in
  let ec := if max_ g =? 0 then Some (task_group closed)
            else if c then Some (task_group cancelled) else None in
  if (max_ g <=? size g) && bool_decide (ec = None) then (wait (mk_op Adapt true c) g, [])
  else if negb (scheduled o) then (post (mk_op Adapt true c) g, [])
  else (adaptor (bool_decide (ec = None)) g, [Completed ec (next_ident g)]).
Proof. by destruct aborted. Qed.

(** The lambda of async_join. *)
Definition join_body (o : op) (g : group) : group * list outcome :=
  let c := if scheduled o then is_cancelled o else false in
  let told := if c then [Emitted (emit g)] else [] in
  match css g with
  | _ :: _ => (wait (mk_op Join true false) g, told)
  | [] =>
      if negb (scheduled o) then (post (mk_op Join true false) g, told)
      else (g, told ++ [Joined])
  end.

Definition invoke (o : op) (aborted : bool) (g : group) : group * list outcome :=
  match op_kind o with
  | Adapt => adapt_body o aborted g
  | Join => join_body o g
  end.

(** ~remover *)
Definition remove (i : nat) (g : group) : group :=
  notify (mk_group (max_ g) (List.filter (fun s => negb (Nat.eqb (ident s) i)) (css g))
            (next_ident g) (cv g) (ready g)).

(** What happens to a group: an operation is initiated, the executor invokes the
    first ready handler, the i-th adapted handler is destroyed (its task is over,
    or the operation that made it reported an error), close is called, the i-th
    waiting or the i-th ready operation is cancelled. *)
Inductive event :=
| Initiate (k : kind)
| Run
| Destroy (i : nat)
| Close
| CancelWaiting (i : nat)
| CancelReady (i : nat).

Definition cancel (o : op) : op := mk_op (op_kind o) (scheduled o) true.

Definition step (x : event) (g : group) : group * list outcome :=
  match x with
  | Initiate k => invoke (mk_op k false false) false g
  | Run => match ready g with
           | [] => (g, [])
           | (o, aborted) :: l => invoke o aborted (set_ready l g)
           end
  | Destroy i => (remove i g, [])
  | Close => (close g, [])
  | CancelWaiting i =>
      match cv g !! i with
      | None => (g, [])
      | Some o => (set_ready (ready g ++ [(cancel o, true)])
                     (set_cv (take i (cv g) ++ drop (S i) (cv g)) g), [])
      end
  | CancelReady i =>
      match ready g !! i with
      | None => (g, [])
      | Some (o, a) => (set_ready (<[i := (cancel o, a)]> (ready g)) g, [])
      end
  end.

Fixpoint steps (xs : list event) (g : group) : group * list outcome :=
  match xs with
  | [] => (g, [])
  | x :: xs => let '(g, os) := step x g in
               let '(g, os') := steps xs g in (g, os ++ os')
  end.

(** ** The invariant *)

Definition tasks (g : group) : list signal := List.filter launched (css g).

Record group_inv (max0 : Z) (g : group) : Prop := {
  gi_max : max_ g = max0 \/ max_ g = 0;
  gi_bound : Z.of_nat (length (tasks g)) <= max0;
  gi_wake : cv g <> [] -> css g <> [];
  gi_adapt : forall o, In o (cv g) -> op_kind o = Adapt -> 0 < max_ g <= size g;
  gi_cv : forall o, In o (cv g) -> scheduled o = true /\ is_cancelled o = false;
  gi_ready : forall o a, In (o, a) (ready g) -> scheduled o = true;
  gi_fresh : forall s, In s (css g) -> (ident s < next_ident g)%nat
}.

Lemma filter_length_le {A} (p : A -> bool) l : (length (List.filter p l) <= length l)%nat.
Proof. induction l as [|a l IH]; [done|]. simpl. destruct (p a); simpl; lia. Qed.

Lemma tasks_size g : Z.of_nat (length (tasks g)) <= size g.
Proof. unfold tasks, size. pose proof (filter_length_le launched (css g)). lia. Qed.

Lemma inv_make max : 0 <= max -> group_inv max (make max).
Proof. intros Hm. split; simpl; try done; by left || lia. Qed.

(** Waking every waiting operation, after [css] got smaller or [max_] zero. *)
Lemma inv_notify max0 g :
  (max_ g = max0 \/ max_ g = 0) -> Z.of_nat (length (tasks g)) <= max0 ->
  (forall o, In o (cv g) -> scheduled o = true /\ is_cancelled o = false) ->
  (forall o a, In (o, a) (ready g) -> scheduled o = true) ->
  (forall s, In s (css g) -> (ident s < next_ident g)%nat) ->
  group_inv max0 (notify g).
Proof.
  intros Hm Hb Hc Hr Hf. split; simpl; try done.
  intros o a [Hin|Hin]%in_app_iff; [by eapply Hr|].
  apply in_map_iff in Hin as (o' & [= <- <-] & Hin). by apply Hc.
Qed.

Lemma inv_wait max0 g o :
  group_inv max0 g -> css g <> [] -> (op_kind o = Adapt -> 0 < max_ g <= size g) ->
  scheduled o = true -> is_cancelled o = false -> group_inv max0 (wait o g).
Proof.
  intros [Hm Hb Hw Ha Hc Hr Hf] Hne Ho Hs Hx. split; simpl; try done.
  - intros o' [Hin|[<-|[]]]%in_app_iff; [by apply Ha|done].
  - intros o' [Hin|[<-|[]]]%in_app_iff; [by apply Hc|done].
Qed.

Lemma inv_wait_full max0 g :
  group_inv max0 g -> max_ g <> 0 -> max_ g <= size g ->
  group_inv max0 (wait (mk_op Adapt true false) g).
Proof.
  intros HI H0 Hle.
  assert (0 < max_ g) as Hp.
  { destruct (gi_max _ _ HI); [|lia]. pose proof (gi_bound _ _ HI). lia. }
  apply inv_wait; try done. intros Hnil. unfold size in Hle. rewrite Hnil in Hle.
  simpl in Hle. lia.
Qed.

Lemma inv_post max0 g o : group_inv max0 g -> scheduled o = true -> group_inv max0 (post o g).
Proof.
  intros [Hm Hb Hw Ha Hc Hr Hf] Hs. split; simpl; try done.
  intros o' a [Hin|[[= <- <-]|[]]]%in_app_iff; [by eapply Hr|done].
Qed.

Lemma tasks_adaptor ok g :
  tasks (adaptor ok g) = tasks g ++ (if ok then [mk_signal (next_ident g) ok] else []).
Proof. unfold tasks. simpl. rewrite List.filter_app. by destruct ok. Qed.

Lemma inv_adaptor max0 g ok :
  group_inv max0 g -> (ok = true -> size g < max_ g) -> group_inv max0 (adaptor ok g).
Proof.
  intros [Hm Hb Hw Ha Hc Hr Hf] Hok. split; simpl; try done.
  - rewrite tasks_adaptor, length_app. destruct ok; simpl; [|lia].
    specialize (Hok eq_refl). pose proof (tasks_size g). destruct Hm as [Hm|Hm]; [lia|].
    unfold size in *. lia.
  - intros _ Hnil. by destruct (css g).
  - intros o Hin Hk. unfold size in *. simpl. rewrite length_app. specialize (Ha o Hin Hk).
    simpl. lia.
  - intros s [Hin|[<-|[]]]%in_app_iff; [|simpl; lia]. specialize (Hf s Hin). lia.
Qed.

(** What an invocation of [o] may report, in the state it runs in. *)
Definition justified (g : group) (o : op) (x : outcome) : Prop :=
  match x with
  | Completed None i => size g < max_ g /\ i = next_ident g /\ is_cancelled o = false
  | Completed (Some (task_group closed)) _ => max_ g = 0
  | Completed (Some (task_group cancelled)) _ => max_ g <> 0 /\ is_cancelled o = true
  | Completed (Some operation_aborted) _ => False
  | Joined => css g = []
  | Emitted l => l = map ident (css g) /\ is_cancelled o = true
  end.

Lemma inv_invoke max0 g o a g' os :
  group_inv max0 g -> invoke o a g = (g', os) ->
  group_inv max0 g' /\ Forall (justified g o) os.
Proof.
  intros HI. unfold invoke, join_body. rewrite adapt_body_cleared. cbv zeta.
  destruct o as [k sch x]. cbn [op_kind scheduled is_cancelled].
  destruct k.
  - destruct (Z.eqb_spec (max_ g) 0) as [H0|H0];
      [rewrite andb_false_r|destruct sch, x; cbn [negb];
        rewrite ?bool_decide_false, ?bool_decide_true, ?andb_false_r, ?andb_true_r by done].
    + destruct sch; intros [= <- <-].
      * split; [by apply inv_adaptor|]. by repeat constructor.
      * split; [by apply inv_post|done].
    + intros [= <- <-]. split; [by apply inv_adaptor|]. by repeat constructor.
    + destruct (Z.leb_spec (max_ g) (size g)) as [Hle|Hlt]; intros [= <- <-].
      * split; [|done]. by apply inv_wait_full.
      * split; [by apply inv_adaptor|]. by repeat constructor.
    + destruct (Z.leb_spec (max_ g) (size g)) as [Hle|Hlt]; intros [= <- <-].
      * split; [|done]. by apply inv_wait_full.
      * split; [by apply inv_post|done].
    + destruct (Z.leb_spec (max_ g) (size g)) as [Hle|Hlt]; intros [= <- <-].
      * split; [|done]. by apply inv_wait_full.
      * split; [by apply inv_post|done].
  - assert (Forall (justified g (mk_op Join sch x))
      (if (if sch then x else false) then [Emitted (emit g)] else [])) as Ht.
    { destruct sch, x; by repeat constructor. }
    destruct (css g) as [|s l] eqn:Ec.
    + destruct sch; intros [= <- <-].
      * split; [done|]. apply Forall_app. split; [done|]. by repeat constructor.
      * split; [by apply inv_post|done].
    + intros [= <- <-]. split; [|done]. apply inv_wait; try done. by rewrite Ec.
Qed.

Lemma inv_step max0 g x g' os :
  group_inv max0 g -> step x g = (g', os) -> group_inv max0 g'.
Proof.
  intros HI. destruct x as [k| |i| |i|i]; simpl.
  - intros HE. by eapply inv_invoke.
  - destruct (ready g) as [|[o a] l] eqn:Er; [by intros [= <- _]|].
    intros HE. eapply inv_invoke; [|done]. destruct HI as [Hm Hb Hw Ha Hc Hr Hf].
    split; simpl; try done. intros o' a' Hin. apply (Hr o' a'). rewrite Er. by right.
  - intros [= <- _]. destruct HI as [Hm Hb Hw Ha Hc Hr Hf]. apply inv_notify; simpl; try done.
    + unfold tasks in *. simpl.
      enough (length (List.filter launched (List.filter (fun s => negb (Nat.eqb (ident s) i)) (css g)))
              <= length (List.filter launched (css g)))%nat by lia.
      clear. induction (css g) as [|s l IH]; [done|]. simpl.
      destruct (negb _), (launched s) eqn:E; simpl; rewrite ?E; simpl; lia.
    + intros s [Hin _]%filter_In. by apply Hf.
  - intros [= <- _]. destruct HI as [Hm Hb Hw Ha Hc Hr Hf]. apply inv_notify; simpl; try done.
    by right.
  - destruct (cv g !! i) as [o|] eqn:Eo; [|by intros [= <- _]]. intros [= <- _].
    destruct HI as [Hm Hb Hw Ha Hc Hr Hf].
    assert (forall o', In o' (take i (cv g) ++ drop (S i) (cv g)) -> In o' (cv g)) as Hsub.
    { intros o' [Hin|Hin]%in_app_iff.
      - rewrite <- (take_drop i (cv g)). apply in_app_iff. by left.
      - rewrite <- (take_drop (S i) (cv g)). apply in_app_iff. by right. }
    split; simpl; try done.
    + intros Hne. apply Hw. intros Hnil. by rewrite Hnil, take_nil, drop_nil in Hne.
    + intros o' Hin. by apply Ha, Hsub.
    + intros o' Hin. by apply Hc, Hsub.
    + intros o' a [Hin|[[= <- <-]|[]]]%in_app_iff; [by eapply Hr|].
      apply (Hc o). apply list_elem_of_In. by eapply list_elem_of_lookup_2.
  - destruct (ready g !! i) as [[o a]|] eqn:Eo; [|by intros [= <- _]]. intros [= <- _].
    destruct HI as [Hm Hb Hw Ha Hc Hr Hf]. split; simpl; try done.
    intros o' a' Hin. apply list_elem_of_In, list_elem_of_lookup in Hin as [j Hj].
    apply list_lookup_insert_Some in Hj as [(<- & [= <- <-] & _)|[_ Hj]].
    + apply (Hr o a). apply list_elem_of_In. by eapply list_elem_of_lookup_2.
    + apply (Hr o' a'). apply list_elem_of_In. by eapply list_elem_of_lookup_2.
Qed.

Lemma steps_app xs ys g :
  steps (xs ++ ys) g =
  let '(g1, os1) := steps xs g in let '(g2, os2) := steps ys g1 in (g2, os1 ++ os2).
Proof.
  revert g. induction xs as [|x xs IH]; intros g; simpl; [by destruct (steps ys g)|].
  destruct (step x g) as [g1 os1]. rewrite IH. destruct (steps xs g1) as [g2 os2].
  destruct (steps ys g2) as [g3 os3]. by rewrite app_assoc.
Qed.

Lemma inv_steps max0 xs : forall g, group_inv max0 g -> group_inv max0 (fst (steps xs g)).
Proof.
  induction xs as [|x xs IH]; intros g HI; [done|]. simpl.
  destruct (step x g) as [g1 os1] eqn:E. specialize (IH g1 (inv_step _ _ _ _ _ HI E)).
  by destruct (steps xs g1).
Qed.

(** ** No operation is lost *)

Definition pending (g : group) : nat := (length (ready g) + length (cv g))%nat.

Definition is_end (x : outcome) : bool :=
  match x with Completed _ _ | Joined => true | Emitted _ => false end.
Definition ends (os : list outcome) : nat := length (List.filter is_end os).

Definition is_initiate (x : event) : bool := match x with Initiate _ => true | _ => false end.
Definition initiated (xs : list event) : nat := length (List.filter is_initiate xs).

Lemma invoke_ends o a g g' os :
  invoke o a g = (g', os) -> (pending g' + ends os = pending g + 1)%nat.
Proof.
  unfold invoke, adapt_body, join_body, pending, ends.
  set (c := if scheduled o then is_cancelled o else false).
  destruct (op_kind o).
  - destruct (_ && _); [|destruct (negb (scheduled o))]; intros [= <- <-]; simpl;
      rewrite ?length_app; simpl; lia.
  - destruct (css g); [destruct (negb (scheduled o))|]; intros [= <- <-]; destruct c;
      simpl; rewrite ?length_app; simpl; lia.
Qed.

Lemma step_ends x g g' os :
  step x g = (g', os) ->
  (pending g' + ends os = pending g + initiated [x])%nat.
Proof.
  unfold initiated. destruct x as [k| |i| |i|i]; simpl; intros HE;
    change (ends []) with 0%nat in *.
  - apply invoke_ends in HE. done.
  - destruct (ready g) as [|[o a] l] eqn:Er; [injection HE as <- <-; cbn; lia|].
    apply invoke_ends in HE. unfold ends, pending in *. rewrite Er. simpl in *. lia.
  - injection HE as <- <-. unfold ends, pending. simpl. rewrite length_app, length_map. simpl. lia.
  - injection HE as <- <-. unfold ends, pending. simpl. rewrite length_app, length_map. simpl. lia.
  - destruct (cv g !! i) as [o|] eqn:Eo; injection HE as <- <-; [|cbn; lia].
    apply lookup_lt_Some in Eo. unfold ends, pending. simpl.
    rewrite !length_app, length_take, length_drop. simpl. lia.
  - destruct (ready g !! i) as [[o a]|]; injection HE as <- <-; [|cbn; lia].
    unfold ends, pending. simpl. rewrite length_insert. simpl. lia.
Qed.

Lemma steps_ends xs : forall g g' os,
  steps xs g = (g', os) -> (pending g' + ends os = pending g + initiated xs)%nat.
Proof.
  induction xs as [|x xs IH]; intros g g' os; simpl; [intros [= <- <-]; done|].
  destruct (step x g) as [g1 os1] eqn:E1. destruct (steps xs g1) as [g2 os2] eqn:E2.
  intros [= <- <-]. apply step_ends in E1. apply IH in E2.
  unfold ends, initiated in *. rewrite List.filter_app, length_app. simpl in *.
  destruct (is_initiate x); simpl in *; lia.
Qed.

(** ** Every operation ends *)

(** What the executor and the ends of the tasks do by themselves. *)
Definition internal (x : event) : bool :=
  match x with Run | Destroy _ => true | _ => false end.

(** Destroying every handler wakes every operation that waits. *)
Lemma destroy_all max0 l : forall g,
  group_inv max0 g -> (forall s, In s (css g) -> In (ident s) l) ->
  let g' := fst (steps (map Destroy l) g) in
  css g' = [] /\ cv g' = [] /\ pending g' = pending g.
Proof.
  induction l as [|i l IH]; intros g HI Hl.
  - assert (css g = []) as Hc by (destruct (css g) as [|s ?]; [done|]; destruct (Hl s); by left).
    simpl. split; [done|]. split; [|done]. destruct (cv g) eqn:Ev; [done|].
    by destruct (gi_wake _ _ HI); [rewrite Ev|].
  - cbn [map steps step]. pose proof (inv_step _ _ (Destroy i) _ _ HI eq_refl) as HI1.
    pose proof (step_ends (Destroy i) g _ _ eq_refl) as He.
    change (ends []) with 0%nat in He. change (initiated [Destroy i]) with 0%nat in He.
    specialize (IH (remove i g) HI1). destruct (steps (map Destroy l) (remove i g)) as [g' os].
    simpl in *. destruct IH as (H1 & H2 & H3).
    { intros s [Hin Hne]%filter_In. destruct (Hl s Hin) as [Hs|]; [|done].
      by rewrite Hs, Nat.eqb_refl in Hne. }
    split; [done|]. split; [done|]. lia.
Qed.

(** With no task left, the operation that runs ends. *)
Lemma run_ends max0 g o a l :
  group_inv max0 g -> css g = [] -> ready g = (o, a) :: l ->
  pending (fst (step Run g)) = pred (pending g).
Proof.
  intros HI Hc Hr. cbn [step]. rewrite Hr.
  assert (scheduled o = true) as Hs by (apply (gi_ready _ _ HI o a); rewrite Hr; by left).
  assert (0 <= max_ g) as Hm.
  { pose proof (gi_bound _ _ HI). destruct (gi_max _ _ HI); lia. }
  unfold invoke, adapt_body, join_body, size, pending. simpl. rewrite Hs, Hc, Hr.
  destruct (op_kind o); [|by destruct (is_cancelled o)].
  destruct (Z.eqb_spec (max_ g) 0); [by rewrite andb_false_r|].
  change (Z.of_nat (length (@nil signal))) with 0.
  destruct (Z.leb_spec (max_ g) 0); [lia|]. done.
Qed.

Lemma all_end max0 n : forall g,
  group_inv max0 g -> (pending g <= n)%nat ->
  exists xs, forallb internal xs = true /\
    let g' := fst (steps xs g) in css g' = [] /\ pending g' = 0%nat.
Proof.
  induction n as [|n IH]; intros g HI Hn;
    destruct (destroy_all max0 (map ident (css g)) g HI) as (Hc & Hv & Hp);
    try (intros s Hs; by apply in_map);
    pose proof (inv_steps _ (map Destroy (map ident (css g))) g HI) as HI1;
    assert (forallb internal (map Destroy (map ident (css g))) = true) as Hi
      by (by apply forallb_forall; intros x (? & <- & _)%in_map_iff);
    destruct (steps (map Destroy (map ident (css g))) g) as [g1 os1] eqn:E1; simpl in *.
  - eexists. split; [done|]. rewrite E1. simpl. split; [done|lia].
  - destruct (ready g1) as [|[o a] l] eqn:Er.
    { eexists. split; [done|]. rewrite E1. simpl. split; [done|].
      unfold pending. by rewrite Er, Hv. }
    pose proof (run_ends max0 g1 o a l HI1 Hc Er) as Hrun.
    destruct (step Run g1) as [g2 os2] eqn:E2. simpl in Hrun.
    destruct (IH g2) as (ys & Hy & Hys); [by eapply inv_step|lia|].
    exists (map Destroy (map ident (css g)) ++ Run :: ys).
    split; [rewrite forallb_app, Hi; simpl; by rewrite Hy|].
    rewrite steps_app, E1. cbn [steps]. rewrite E2.
    destruct (steps ys g2) as [g3 os3]. done.
Qed.

(** ** What the history justifies *)

Definition is_close (x : event) : bool := match x with Close => true | _ => false end.
Definition is_cancel (x : event) : bool :=
  match x with CancelWaiting _ | CancelReady _ => true | _ => false end.
Definition cancellations (xs : list event) : nat := length (List.filter is_cancel xs).

Definition is_failed (x : outcome) : bool :=
  match x with Completed (Some (task_group cancelled)) _ => true | _ => false end.
(** The operations that completed as cancelled. *)
Definition failed (os : list outcome) : nat := length (List.filter is_failed os).

(** The operations that hold a cancellation and have not run since. *)
Definition marked (l : list (op * bool)) : nat :=
  length (List.filter (fun p => is_cancelled (fst p)) l).

Lemma failed_app os os' : failed (os ++ os') = (failed os + failed os')%nat.
Proof. unfold failed. by rewrite List.filter_app, length_app. Qed.

Lemma cancellations_app xs ys :
  cancellations (xs ++ ys) = (cancellations xs + cancellations ys)%nat.
Proof. unfold cancellations. by rewrite List.filter_app, length_app. Qed.

Lemma marked_app l l' : marked (l ++ l') = (marked l + marked l')%nat.
Proof. unfold marked. by rewrite List.filter_app, length_app. Qed.

Lemma marked_woken l :
  (forall o, In o l -> is_cancelled o = false) -> marked (map (fun o => (o, true)) l) = 0%nat.
Proof.
  induction l as [|o l IH]; intros Hl; [done|]. unfold marked in *. simpl.
  rewrite (Hl o) by by left. apply IH. intros o' Ho. apply Hl. by right.
Qed.

Lemma marked_insert l : forall i o a b,
  l !! i = Some (o, a) -> (marked (<[i := (cancel o, b)]> l) <= marked l + 1)%nat.
Proof.
  induction l as [|[o' a'] l IH]; intros [|i] o a b Hi; try done.
  - unfold marked. simpl. destruct (is_cancelled o'); simpl; lia.
  - specialize (IH i o a b Hi). unfold marked in *. simpl. destruct (is_cancelled o'); simpl; lia.
Qed.

Ltac counts := unfold failed, cancellations in *; simpl in *; lia.

Lemma invoke_marked o a g g' os :
  invoke o a g = (g', os) ->
  max_ g' = max_ g /\
  (marked (ready g') + failed os <= marked (ready g) + (if is_cancelled o then 1 else 0))%nat.
Proof.
  unfold invoke, join_body. rewrite adapt_body_cleared. cbv zeta.
  destruct o as [k sch x]. cbn [op_kind scheduled is_cancelled].
  assert (forall o, is_cancelled o = false -> marked (ready g ++ [(o, false)]) = marked (ready g)) as Hp.
  { intros o Ho. rewrite marked_app. unfold marked at 2. simpl. rewrite Ho. simpl. lia. }
  destruct k.
  - destruct (_ && _); [intros [= <- <-]; by split; [|counts]|].
    destruct sch; cbn [negb]; intros [= <- <-]; (split; [done|]); simpl;
      [|rewrite Hp by done; counts].
    unfold failed. destruct (max_ g =? 0), x; counts.
  - destruct (css g); [destruct sch|]; cbn [negb]; intros [= <- <-]; (split; [done|]);
      simpl; rewrite ?Hp by done; try destruct x; try destruct sch; counts.
Qed.

Lemma step_history max0 x g g' os :
  group_inv max0 g -> step x g = (g', os) ->
  max_ g' = (if is_close x then 0 else max_ g) /\
  (marked (ready g') + failed os <= marked (ready g) + cancellations [x])%nat.
Proof.
  intros HI. pose proof (fun o Ho => proj2 (gi_cv _ _ HI o Ho)) as Hcv.
  destruct x as [k| |i| |i|i]; cbn [step is_close].
  - intros HE. by apply invoke_marked in HE.
  - destruct (ready g) as [|[o a] l] eqn:Er; [intros [= <- <-]; rewrite Er; split; [done|counts]|].
    intros [Hm HE]%invoke_marked. split; [done|]. unfold marked in *. simpl in *.
    destruct (is_cancelled o); simpl in *; lia.
  - intros [= <- <-]. split; [done|]. simpl. rewrite marked_app, marked_woken by done.
    counts.
  - intros [= <- <-]. split; [done|]. simpl. rewrite marked_app, marked_woken by done.
    counts.
  - destruct (cv g !! i) as [o|]; intros [= <- <-]; (split; [done|]); simpl; [|counts].
    rewrite marked_app. unfold failed, marked at 2, cancellations. simpl. lia.
  - destruct (ready g !! i) as [[o a]|] eqn:Eo; intros [= <- <-]; (split; [done|]); simpl; [|counts].
    pose proof (marked_insert _ _ _ _ a Eo). counts.
Qed.

Lemma steps_history max0 xs : forall g g' os,
  group_inv max0 g -> steps xs g = (g', os) ->
  max_ g' = (if existsb is_close xs then 0 else max_ g) /\
  (marked (ready g') + failed os <= marked (ready g) + cancellations xs)%nat.
Proof.
  induction xs as [|x xs IH]; intros g g' os HI; cbn [steps];
    [intros [= <- <-]; split; [done|counts]|].
  destruct (step x g) as [g1 os1] eqn:E1. destruct (steps xs g1) as [g2 os2] eqn:E2.
  intros [= <- <-]. destruct (step_history _ _ _ _ _ HI E1) as [Hm1 Hc1].
  destruct (IH _ _ _ (inv_step _ _ _ _ _ HI E1) E2) as [Hm2 Hc2].
  rewrite failed_app. change (x :: xs) with ([x] ++ xs). rewrite cancellations_app. cbn [existsb app].
  split; [|lia]. rewrite Hm2, Hm1. by destruct (is_close x), (existsb is_close xs).
Qed.

(** The operation an event runs. *)
Definition subject (x : event) (g : group) : option op :=
  match x with
  | Initiate k => Some (mk_op k false false)
  | Run => fst <$> head (ready g)
  | _ => None
  end.

(** C13: at any time at most --parallel-max tasks of the group are alive, and every
    completion is justified: async_adapt gives a new task out only while there are
    fewer than the limit and it was not cancelled, fails with "closed" only when
    close was called (or the limit is zero) and with "cancelled" only when it was
    cancelled itself, at most once for each cancellation there ever was, and never
    with the error of the timer; async_join completes only when no task is left,
    and passes a cancellation on to every task. *)
Theorem group_bounded max xs x g os0 g' os :
  0 <= max -> steps xs (make max) = (g, os0) -> step x g = (g', os) ->
  Z.of_nat (length (tasks g)) <= max /\
  (forall s, In s (css g) -> (ident s < next_ident g)%nat) /\
  max_ g = (if existsb is_close xs then 0 else max) /\
  (failed (os0 ++ os) <= cancellations (xs ++ [x]))%nat /\
  Forall (fun y => exists o, subject x g = Some o /\ justified g o y) os.
Proof.
  intros Hm Hg HE. pose proof (inv_steps max xs (make max) (inv_make max Hm)) as HI.
  rewrite Hg in HI. cbn [fst] in HI.
  destruct (steps_history max _ _ _ _ (inv_make max Hm) Hg) as [Hx Hc].
  destruct (step_history max _ _ _ _ HI HE) as [_ Hc1].
  split; [apply HI|]. split; [apply HI|]. split; [exact Hx|].
  split; [rewrite failed_app, cancellations_app; unfold marked in Hc at 2; simpl in Hc; lia|].
  destruct x as [k| |i| |i|i]; cbn [step subject] in *.
  - eapply (inv_invoke max) in HE as [_ Hj]; [|done].
    eapply Forall_impl; [exact Hj|]. intros y Hy. by eexists.
  - destruct (ready g) as [|[o a] l] eqn:Er; [by injection HE as <- <-|].
    eapply (inv_invoke max) in HE as [_ Hj].
    + eapply Forall_impl; [exact Hj|]. intros y Hy. exists o. by split.
    + destruct HI as [Hmx Hb Hw Ha Hcv Hr Hf]. split; simpl; try done.
      intros o' a' Hin. apply (Hr o' a'). rewrite Er. by right.
  - by injection HE as <- <-.
  - by injection HE as <- <-.
  - by destruct (cv g !! i); injection HE as <- <-.
  - by destruct (ready g !! i) as [[? ?]|]; injection HE as <- <-.
Qed.

Lemma group_bounded_witness :
  let xs := [Initiate Adapt; Run; Initiate Adapt; Initiate Join; Run; Run; Destroy 0] in
  let '(g, os0) := steps xs (make 1) in
  let '(g', os) := step Run g in
  os = [Completed None 1] /\ Z.of_nat (length (tasks g)) <= 1 /\ max_ g = 1 /\
  (failed (os0 ++ os) <= 0)%nat /\
  Forall (fun y => exists o, subject Run g = Some o /\ justified g o y) os.
Proof.
  intros xs. destruct (steps xs (make 1)) as [g os0] eqn:E. destruct (step Run g) as [g' os] eqn:E'.
  destruct (group_bounded 1 xs Run g os0 g' os ltac:(lia) E E') as (H1 & _ & H2 & H3 & H4).
  split; [vm_compute in E; injection E as <- _; vm_compute in E'; by injection E' as _ <-|].
  split; [exact H1|]. split; [exact H2|]. split; [exact H3|exact H4].
Defined.

(** C14: no operation on the group is lost: whatever has happened, the handlers the
    executor still invokes and the ends of the tasks are enough for every
    async_adapt and async_join that was initiated to complete, exactly once. *)
Theorem group_operations_end max xs :
  0 <= max ->
  exists ys, forallb internal ys = true /\
    let '(g, os) := steps (xs ++ ys) (make max) in
    css g = [] /\ pending g = 0%nat /\ ends os = initiated xs.
Proof.
  intros Hm. pose proof (inv_steps max xs (make max) (inv_make max Hm)) as HI.
  destruct (all_end max _ _ HI (Nat.le_refl _)) as (ys & Hy & Hys). exists ys. split; [done|].
  destruct (steps (xs ++ ys) (make max)) as [g os] eqn:E. pose proof (steps_ends _ _ _ _ E) as He.
  rewrite steps_app in E. destruct (steps xs (make max)) as [g1 os1]. simpl in Hys.
  destruct (steps ys g1) as [g2 os2]. injection E as <- <-. destruct Hys as [Hc Hp].
  split; [done|]. split; [done|]. simpl in Hp. rewrite Hp in He. simpl in He. rewrite He.
  unfold initiated. rewrite List.filter_app, length_app.
  enough (List.filter is_initiate ys = []) as -> by (simpl; lia).
  clear -Hy. induction ys as [|y ys IH]; [done|]. simpl in *.
  apply andb_true_iff in Hy as [Hy Hys]. destruct y; simpl in *; try done; by apply IH.
Qed.

Lemma group_operations_end_witness :
  exists ys, forallb internal ys = true /\
    let '(g, os) := steps ([Initiate Adapt; Run; Initiate Adapt; Initiate Join] ++ ys) (make 1) in
    css g = [] /\ pending g = 0%nat /\
    ends os = initiated [Initiate Adapt; Run; Initiate Adapt; Initiate Join].
Proof. apply (group_operations_end 1). lia. Defined.

End TaskGroup.
