(* ===== verification/JsonRpc.v ===== *)
(** The JSON-RPC client (example/client/jsonrpc/jsonrpc).

    JSON values are data; Boost.JSON's serializer and its conversions are the
    class [Json].  A call runs against a [wire]: how writing, reading the header
    and reading the body end, and the value the body holds. *)
From S2P Require Import Prelude.
From S2P Require Import Http.
From S2P Require Import Options.
From S2P Require Import Transfer.
From S2P Require Import Connect.

Module JsonRpc.

Import Options Transfer Connect.

Inductive value :=
| Null
| Bool (b : bool)
| Int64 (i : Z)
| Uint64 (n : Z)
| Double (bits : Z)
| String (s : str)
| Array (l : list value)
| Object (l : list (str * value)).

Definition object := list (str * value).

(** What a value is after it was serialized and parsed: JSON has one kind of
    number, and an integer is read as an int64_t when it is one. *)
Fixpoint norm (v : value) : value :=
  match v with
  | Uint64 n => if n <? 2 ^ 63 then Int64 n else Uint64 n
  | Array l => Array (map norm l)
  | Object l => Object (map (fun p => (fst p, norm (snd p))) l)
  | _ => v
  end.

(** Values without a double, which a parser need not give back exactly. *)
Fixpoint exact (v : value) : bool :=
  match v with
  | Double _ => false
  | Array l => forallb exact l
  | Object l => forallb (fun p => exact (snd p)) l
  | _ => true
  end.

(** object::if_contains *)
Definition if_contains (key : str) (o : object) : option value :=
  snd <$> List.find (fun p => fst p =s key) o.

(** value == string and value == unsigned integer *)
Definition equals_string (v : value) (s : str) : bool :=
  match v with String t => t =s s | _ => false end.
Definition equals_u64 (v : value) (n : Z) : bool :=
  match v with
  | Int64 i => (0 <=? i) && (i =? n)
  | Uint64 m => m =? n
  | _ => false
  end.

(** ** Errors *)

Inductive errc :=
| version_error | id_mismatch | invalid_response | parse_error | invalid_request
| method_not_found | invalid_params | internal_error | server_error.

Definition errc_value (e : errc) : Z :=
  match e with
  | version_error => 0 | id_mismatch => 1 | invalid_response => 2 | parse_error => 3
  | invalid_request => 4 | method_not_found => 5 | invalid_params => 6
  | internal_error => 7 | server_error => 8
  end.

Definition category_name : str := $"jsonrpc".

Definition message (code : Z) : str :=
  if code =? 0 then $"The response object is not JSON-RPC version 2.0"
  else if code =? 1 then $"The response object has a different ID than the request"
  else if code =? 2 then $"The received body does not contain a valid response object"
  else if code =? 3 then $"Invalid JSON was received by the server"
  else if code =? 4 then $"The JSON sent is not a valid Request object"
  else if code =? 5 then $"The method does not exist"
  else if code =? 6 then $"Invalid method parameter(s)"
  else if code =? 7 then $"Internal JSON-RPC error"
  else if code =? 8 then $"Server error"
  else $"unknown".

Record error_code := mk_code { category : str; code_value : Z }.

#[export] Instance error_code_eq_dec : EqDecision error_code.
Proof. solve_decision. Defined.

Definition no_error : error_code := mk_code $"system" 0.
Definition make_error_code (e : errc) : error_code := mk_code category_name (errc_value e).

(** operator bool: error_category::failed, which error_cat_type leaves as it is. *)
Definition failed (ec : error_code) : bool := negb (code_value ec =? 0).

Record error := mk_error { code : error_code; info : object }.

(** disposition_traits<error>: [None] is no exception. *)
Definition to_exception (serialize : value -> str) (e : error) : option (error_code * option str) :=
  if negb (failed (code e)) then None
  else Some (code e, match info e with [] => None | _ => Some (serialize (Object (info e))) end).

(** ** The client *)

Inductive returns := RString | RArray | RObject | RBool.

Class Json := {
  serialize : value -> str;
  try_value_to : returns -> value -> error_code + value
}.

Section Client.
Context `{L : Libs, W : !Web, F : Fields, J : Json}.

Record client := mk_client {
  endpoint_ : url;
  req_ : request;
  id_ : Z
}.

(** fields_base::append: one more field of the name. *)
Definition has_service (service : bool) (encoding : str) (l : list (str * str)) : list (str * str) :=
  if service then l ++ [($"Accept-Encoding", encoding)] else l.

(** The fields the constructor appends, in order. *)
Definition client_fields (has_brotli has_zlib : bool) (endpoint : url) : list (str * str) :=
  has_service has_zlib $"deflate, gzip" (has_service has_brotli $"br"
    [($"Host", host_and_port endpoint); ($"Content-Type", $"application/json");
     ($"Accept", $"application/json"); ($"User-Agent", $"Boost.Http.Io")]).

Definition make_client (append : list (str * str) -> fields) (has_brotli has_zlib : bool)
    (endpoint : url) : client :=
  mk_client endpoint
    (mk_request $"POST" 11
       (match encoded_target endpoint with [] => $"/" | t => t end)
       (append (client_fields has_brotli has_zlib endpoint))) 0.

Definition next_id (c : client) : Z * client :=
  let n := u64 (id_ c + 1) in (n, mk_client (endpoint_ c) (req_ c) n).

Record wire := mk_wire {
  write_ec : error_code;
  header_ec : error_code;
  read_ec : error_code;                 (* of HTTP or, through the sink, of JSON *)
  answer_of : str -> value              (* the value in the answer to a body *)
}.

(** The object request_op sends. *)
Definition request_value (method : str) (params : value) (id : Z) : value :=
  Object [($"jsonrpc", String $"2.0"); ($"method", String method);
          ($"params", params); ($"id", Uint64 id)].

(** request_op's treatment of the released body. *)
Definition server_code (code : Z) : errc :=
  if code =? -32700 then parse_error
  else if code =? -32600 then invalid_request
  else if code =? -32601 then method_not_found
  else if code =? -32602 then invalid_params
  else if code =? -32603 then internal_error
  else server_error.

Definition complete_error (e : errc) : error * value := (mk_error (make_error_code e) [], Null).

Definition if_object (v : option value) : option object :=
  match v with Some (Object o) => Some o | _ => None end.

Definition on_body (id : Z) (body : value) : error * value :=
  match body with
  | Object obj =>
      let ver := if_contains $"jsonrpc" obj in
      let err := if_contains $"error" obj in
      let res := if_contains $"result" obj in
      let the_id := if_contains $"id" obj in
      if negb (match ver with Some v => equals_string v $"2.0" | None => false end)
      then complete_error version_error
      else
        match if_object err with
        | Some e =>
            match if_contains $"code" e with
            | Some (Int64 c) => (mk_error (make_error_code (server_code c)) e, Null)
            | _ => complete_error invalid_response
            end
        | None =>
            match res with
            | Some r =>
                if negb (match the_id with Some i => equals_u64 i id | None => false end)
                then complete_error id_mismatch
                else (mk_error no_error [], r)
            | None => complete_error invalid_response
            end
        end
  | _ => complete_error invalid_response
  end.

(** request_op: what is sent, the client and the completion. *)
Definition request_op (c : client) (w : wire) (method : str) (params : value)
    : (request * str) * client * (error * value) :=
  let '(id, c) := next_id c in
  let body := serialize (request_value method params id) in
  let r := set $"Content-Length" (dec (Z.of_nat (length body))) (req_ c) in
  let c := mk_client (endpoint_ c) r (id_ c) in
  let done :=
    if failed (write_ec w) then (mk_error (write_ec w) [], Null)
    else if failed (header_ec w) then (mk_error (header_ec w) [], Null)
    else if failed (read_ec w) then (mk_error (read_ec w) [], Null)
    else on_body id (answer_of w body) in
  ((r, body), c, done).

(** detail::converts_to *)
Definition converts_to (t : returns) (v : value) : option value :=
  match t, v with
  | RString, String _ | RArray, Array _ | RObject, Object _ => Some v
  | _, _ => None
  end.

(** The value of a default constructed result. *)
Definition default_of (t : returns) : value :=
  match t with
  | RString => String []
  | RArray => Array []
  | RObject => Object []
  | RBool => Bool false
  end.

(** request_and_transform_op *)
Definition transform (t : returns) (e : error) (v : value) : error * value :=
  if failed (code e) then (e, default_of t)
  else
    match converts_to t v with
    | Some o => (e, o)
    | None =>
        match try_value_to t v with
        | inl ec => (mk_error ec [], default_of t)
        | inr o => (e, o)
        end
    end.

Definition async_call (t : returns) (c : client) (w : wire) (method : str) (params : value)
    : (request * str) * client * (error * value) :=
  let '(sent, c, (e, v)) := request_op c w method params in
  (sent, c, transform t e v).

(** The overload for a procedure without parameters. *)
Definition async_call0 (t : returns) (c : client) (w : wire) (method : str)
    : (request * str) * client * (error * value) := async_call t c w method Null.

(** stream_impl::connect_op, with the operations of Connect.v. *)
Definition connect_op (endpoint : url) : io unit :=
  let host := url_host endpoint in
  let port := if has_port endpoint then port endpoint else scheme endpoint in
  results ← resolve_name host port;
  _ ← perform (ConnectedTo results);
  if negb (scheme endpoint =s $"https") then Return tt else perform_tls_handshake host.

End Client.

(** ** JSON-RPC 2.0, as the reference *)

(** A request object of the specification (section 4). *)
Definition standard_request (m : str) (p : value) (id : Z) : value :=
  Object [($"jsonrpc", String $"2.0"); ($"method", String m); ($"params", p); ($"id", Uint64 id)].

(** A server (sections 4 and 5): it only answers requests of version 2.0. *)
Definition reply_of (f : str -> value -> (Z * str) + value) (req : value) : value :=
  match req with
  | Object o =>
      match if_contains $"jsonrpc" o, if_contains $"method" o, if_contains $"params" o,
            if_contains $"id" o with
      | Some (String v), Some (String m), Some p, Some i =>
          if v =s $"2.0" then
            match f m p with
            | inr v => Object [($"jsonrpc", String $"2.0"); ($"result", v); ($"id", i)]
            | inl (c, msg) =>
                Object [($"jsonrpc", String $"2.0");
                        ($"error", Object [($"code", Int64 c); ($"message", String msg)]);
                        ($"id", i)]
            end
          else Null
      | _, _, _, _ => Null
      end
  | _ => Null
  end.

(** The error codes of section 5.1, and the enumerators of errc by their place;
    every other number is a server error. *)
Definition error_numbers : list (Z * Z) :=
  [(-32700, 3); (-32600, 4); (-32601, 5); (-32602, 6); (-32603, 7)].

Definition standard_code (number : Z) : error_code :=
  mk_code $"jsonrpc"
    match List.find (fun p => fst p =? number) error_numbers with
    | Some p => snd p
    | None => 8
    end.

(** A result as the signature of the method has it: a string, an array or an object
    is taken as it is where one is asked for, the rest is converted by Boost.JSON. *)
Definition conversion `{Json} (t : returns) (v : value) : error_code + value :=
  match t, v with
  | RString, String s => inr (String s)
  | RArray, Array l => inr (Array l)
  | RObject, Object o => inr (Object o)
  | _, _ => try_value_to t v
  end.

(** The result of a valid answer to the request [id]. *)
Definition result_in (id : Z) (body : value) : option value :=
  match body with
  | Object o =>
      if match if_contains $"jsonrpc" o with Some v => equals_string v $"2.0" | None => false end
      then match if_object (if_contains $"error" o), if_contains $"result" o, if_contains $"id" o with
           | None, Some r, Some i => if equals_u64 i id then Some r else None
           | _, _, _ => None
           end
      else None
  | _ => None
  end.

(** An object that is not a JSON-RPC 2.0 answer at all. *)
Definition unversioned (body : value) : bool :=
  match body with
  | Object o =>
      negb match if_contains $"jsonrpc" o with Some v => equals_string v $"2.0" | None => false end
  | _ => false
  end.

(** try_value_to fails with an error that counts as one. *)
Class JsonLaws `{Json} : Prop := {
  try_value_fails t v ec : try_value_to t v = inl ec -> failed ec = true
}.

Lemma if_contains_cons k k' v o :
  if_contains k ((k', v) :: o) = if k' =s k then Some v else if_contains k o.
Proof. unfold if_contains. simpl. by destruct (k' =s k). Qed.

(** Looking up literal keys in literal objects. *)
Ltac lookups :=
  repeat (rewrite if_contains_cons;
    match goal with |- context [bool_decide (?a = ?b)] =>
      let v := eval vm_compute in (bool_decide (a = b)) in
      replace (bool_decide (a = b)) with v by (vm_compute; reflexivity)
    end; cbv iota).

Section Calls.
Context `{L : Libs, W : !Web, F : Fields, J : Json}.

Definition delivered (w : wire) : bool :=
  negb (failed (write_ec w)) && negb (failed (header_ec w)) && negb (failed (read_ec w)).

Definition convertible (t : returns) (v : value) : bool :=
  match converts_to t v with
  | Some _ => true
  | None => match try_value_to t v with inl _ => false | inr _ => true end
  end.

Lemma request_value_standard m p id : request_value m p id = standard_request m p id.
Proof. done. Qed.

Lemma server_code_standard c : make_error_code (server_code c) = standard_code c.
Proof.
  unfold server_code, standard_code, error_numbers. cbn [List.find fst snd].
  rewrite !(Z.eqb_sym _ c). by repeat case_match.
Qed.

Lemma transform_conversion t v :
  transform t (mk_error no_error []) v =
  match conversion t v with
  | inr x => (mk_error no_error [], x)
  | inl ec => (mk_error ec [], default_of t)
  end.
Proof. unfold transform, conversion. by destruct t, v. Qed.

Lemma server_code_fails c o : failed (code (mk_error (make_error_code (server_code c)) o)) = true.
Proof. unfold server_code. by repeat case_match. Qed.

(** What on_body makes of any body. *)
Lemma on_body_cases id body :
  match result_in id body with
  | Some r => on_body id body = (mk_error no_error [], r)
  | None =>
      if unversioned body then on_body id body = complete_error version_error
      else failed (code (fst (on_body id body))) = true
  end.
Proof.
  destruct body as [| | | | | | |o]; try done. unfold result_in, on_body, unversioned.
  cbv zeta. destruct (match if_contains $"jsonrpc" o with Some v => _ | None => _ end); [|done].
  cbn [negb]. destruct (if_object (if_contains $"error" o)) as [e|].
  - destruct (if_contains $"code" e) as [[]|]; try done. apply server_code_fails.
  - destruct (if_contains $"result" o) as [r|]; [|done].
    destruct (if_contains $"id" o) as [i|]; [|done]. by destruct (equals_u64 i id).
Qed.

Lemma transform_failed `{!JsonLaws} t e v :
  failed (code (fst (transform t e v))) = failed (code e) || negb (convertible t v).
Proof.
  unfold transform, convertible. destruct (failed (code e)) eqn:E; simpl; [done|].
  destruct (converts_to t v); simpl; [by rewrite E|].
  destruct (try_value_to t v) as [ec|o] eqn:Et; simpl; [|by rewrite E].
  by apply (try_value_fails t v).
Qed.

Lemma equals_norm_u64 id : 0 <= id -> equals_u64 (norm (Uint64 id)) id = true.
Proof.
  intros Hi. cbn [norm]. unfold equals_u64. destruct (id <? 2 ^ 63); rewrite Z.eqb_refl; [|done].
  apply andb_true_iff. split; [by apply Z.leb_le|done].
Qed.

(** The answer a server makes to the request it reads, as the client reads it. *)
Definition answer_to (f : str -> value -> (Z * str) + value) (m : str) (p : value) (id : Z) : value :=
  norm (reply_of f (norm (request_value m p id))).

Lemma answer_to_eq f m p id :
  answer_to f m p id =
  match f m (norm p) with
  | inr x => Object [($"jsonrpc", String $"2.0"); ($"result", norm x);
                     ($"id", norm (norm (Uint64 id)))]
  | inl (n, msg) =>
      Object [($"jsonrpc", String $"2.0");
              ($"error", Object [($"code", Int64 n); ($"message", String msg)]);
              ($"id", norm (norm (Uint64 id)))]
  end.
Proof.
  unfold answer_to, request_value. cbn [norm map fst snd]. unfold reply_of. lookups.
  by destruct (f m (norm p)) as [[n msg]|x].
Qed.

Lemma norm_norm_u64 id : norm (norm (Uint64 id)) = norm (Uint64 id).
Proof. cbn [norm]. destruct (id <? 2 ^ 63) eqn:E; cbn [norm]; by rewrite ?E. Qed.

Lemma on_body_answer f m p id :
  0 <= id ->
  on_body id (answer_to f m p id) =
  match f m (norm p) with
  | inr x => (mk_error no_error [], norm x)
  | inl (n, msg) =>
      (mk_error (make_error_code (server_code n)) [($"code", Int64 n); ($"message", String msg)],
       Null)
  end.
Proof.
  intros Hi. rewrite answer_to_eq, norm_norm_u64.
  destruct (f m (norm p)) as [[n msg]|x]; unfold on_body; lookups; unfold equals_string;
    rewrite bool_decide_eq_true_2 by done; cbn [negb if_object].
  - by lookups.
  - change (if_object (if_contains $"error" [])) with (@None object). cbv iota.
    by rewrite equals_norm_u64.
Qed.

(** A call sends one request, with the Content-Length of its body and the next id;
    against a server of JSON-RPC 2.0 it completes with what the procedure returns,
    converted, and it fails with the code the specification gives to the error
    number, and with the error object, when the procedure fails. *)
Lemma call_reaches_server t c w m p f :
  delivered w = true -> 0 <= id_ c < 2 ^ 64 - 1 ->
  (let id := id_ c + 1 in
   answer_of w (serialize (request_value m p id)) = answer_to f m p id) ->
  let body := serialize (request_value m p (id_ c + 1)) in
  let r := set $"Content-Length" (dec (Z.of_nat (length body))) (req_ c) in
  async_call t c w m p =
  ((r, body), mk_client (endpoint_ c) r (id_ c + 1),
   match f m (norm p) with
   | inr x => transform t (mk_error no_error []) (norm x)
   | inl (n, msg) =>
       (mk_error (make_error_code (server_code n)) [($"code", Int64 n); ($"message", String msg)],
        default_of t)
   end).
Proof.
  intros Hd Hid Hs. unfold async_call, request_op. cbn [next_id].
  unfold delivered in Hd. apply andb_true_iff in Hd as [Hd Hr].
  apply andb_true_iff in Hd as [Hw Hh]. apply negb_true_iff in Hw, Hh, Hr.
  rewrite Hw, Hh, Hr. cbn [endpoint_ req_ id_]. rewrite wrap_small by lia.
  cbv zeta in Hs. rewrite Hs, on_body_answer by lia.
  destruct (f m (norm p)) as [[n msg]|x]; [|done]. unfold transform.
  by rewrite server_code_fails.
Qed.

(** C40: a call succeeds exactly when the answer is a JSON-RPC 2.0 answer with a
    result for the id of the request and no error object, or is an object without
    the version 2.0 at all: version_error has the value zero, which is no error,
    and the call goes on with a null value; in both cases the value must convert. *)
Theorem call_succeeds_iff `{!JsonLaws} t c w m p :
  let '((_, body), c', (e, _)) := async_call t c w m p in
  failed (code e) = false <->
  delivered w = true /\
  exists v, (result_in (id_ c') (answer_of w body) = Some v \/
             unversioned (answer_of w body) = true /\ v = Null) /\ convertible t v = true.
Proof.
  unfold async_call, request_op. cbn [next_id id_ req_ endpoint_].
  set (id := u64 (id_ c + 1)). set (body := serialize (request_value m p id)).
  unfold delivered. set (r := set _ _ _).
  assert (forall e, failed e = true ->
    failed (code (fst (transform t (mk_error e []) Null))) = true) as Hfail.
  { intros e He. rewrite transform_failed. cbn [code]. by rewrite He. }
  destruct (failed (write_ec w)) eqn:Hw;
    [specialize (Hfail _ Hw)|destruct (failed (header_ec w)) eqn:Hh;
     [specialize (Hfail _ Hh)|destruct (failed (read_ec w)) eqn:Hr;
      [specialize (Hfail _ Hr)|clear Hfail]]].
  1-3: destruct (transform _ _ Null) as [e' v']; cbn [fst] in Hfail; rewrite Hfail;
         split; [done|by intros [? _]].
  pose proof (on_body_cases id (answer_of w body)) as HB.
  destruct (on_body id (answer_of w body)) as [e v] eqn:Eo.
  pose proof (transform_failed t e v) as HT. destruct (transform t e v) as [e' v'].
  cbn [fst] in *. rewrite HT. cbn [id_ andb negb].
  destruct (result_in id (answer_of w body)) as [x|].
  - injection HB as -> ->. simpl. rewrite negb_false_iff. split.
    + intros Hc. split; [done|]. exists x. split; [by left|done].
    + intros (_ & y & [[= <-]|[Hu ->]] & Hc); [done|]. exfalso.
      unfold unversioned in Hu. pose proof (on_body_cases id (answer_of w body)) as HB.
      destruct (answer_of w body) as [| | | | | | |o]; try done.
      unfold on_body in Eo. rewrite Hu in Eo. unfold complete_error in Eo. by simplify_eq.
  - destruct (unversioned (answer_of w body)) eqn:Hu.
    + injection HB as -> ->. simpl. rewrite negb_false_iff. split.
      * intros Hc. split; [done|]. exists Null. split; [by right|done].
      * intros (_ & y & [?|[_ ->]] & Hc); done.
    + rewrite HB. simpl. split; [done|]. intros (_ & y & [?|[? _]] & _); done.
Qed.

End Calls.

(** ** A client and a server *)

#[local] Instance test_json : Json := {
  serialize _ := $"{}";
  try_value_to t v := match t, v with
                      | RBool, Bool b => inr (Bool b)
                      | _, _ => inl (mk_code $"boost.json" 1)
                      end
}.

#[local] Instance test_json_laws : JsonLaws.
Proof. split. intros [] [] ec [= <-]; reflexivity. Qed.

(** A server whose only procedure, "id", gives its parameters back. *)
Definition echo (m : str) (p : value) : (Z * str) + value :=
  if m =s $"id" then inr p else inl (-32601, $"no").

Definition test_client : client (L := test_libs) (F := list_fields) :=
  make_client (L := test_libs) (W := test_web) (F := list_fields) id false true $"http://a/rpc".

Definition test_wire (m : str) (p : value) : wire :=
  mk_wire no_error no_error no_error (fun _ => answer_to echo m p 1).

(** An answer without a version: the error has the value zero. *)
Definition no_version : wire :=
  mk_wire no_error no_error no_error (fun _ => Object [($"result", Bool true); ($"id", Int64 1)]).

Lemma call_succeeds_iff_witness :
  let '(_, _, (e, _)) := async_call (L := test_libs) (F := list_fields) RBool test_client
      (test_wire $"id" (Bool true)) $"id" (Bool true) in
  failed (code e) = false.
Proof.
  pose proof (@call_succeeds_iff test_libs list_fields test_json test_json_laws RBool
    test_client (test_wire $"id" (Bool true)) $"id" (Bool true)) as HC.
  destruct (async_call RBool test_client (test_wire $"id" (Bool true)) $"id" (Bool true))
    as [[[r b] c'] [e v]] eqn:E.
  apply HC. split; [reflexivity|]. exists (Bool true). split; [|reflexivity]. left.
  cbn in E. injection E as <- <- <- <- <-. vm_compute. reflexivity.
Defined.

(** So a call whose result type converts from null succeeds on it. *)
Lemma unversioned_answer_accepted :
  let '(_, _, (e, _)) := request_op (L := test_libs) (F := list_fields) test_client no_version
      $"id" Null in
  failed (code e) = false /\ message (code_value (code e)) = message (errc_value version_error).
Proof. by vm_compute. Qed.

End JsonRpc.
