(* ===== verification/RpcSession.v ===== *)
(** The JSON-RPC client on its stream (example/client/jsonrpc/jsonrpc/client.cpp:
    stream_impl, json_sink; client.hpp: the operations of client).

    The stream is the list of what was done to its two layers.  A call is the one
    of JsonRpc.v, its wire made from what the stream gives: the body of the answer
    comes in pieces, which json_sink feeds to the client's JSON parser, Boost.JSON's
    class [StreamParser].  Procedures that are called one after the other form a
    program [rpc]; run with the client against a server, and run with the
    procedures themselves, it does the same. *)
From S2P Require Import Prelude.
From S2P Require Import Http.
From S2P Require Import Options.
From S2P Require Import Transfer.
From S2P Require Import Connect.
From S2P Require Import JsonRpc.

Module RpcSession.

Import Options Transfer Connect JsonRpc.

(** ** json_sink *)

Class StreamParser := {
  parser : Type;
  write : parser -> str -> parser * nat * error_code;
  finish : parser -> parser * error_code;
  release : parser -> option (parser * value);   (* throws when no value is complete *)
  fresh : parser -> Prop                         (* new, or its value was released *)
}.

Section Sink.
Context `{J : Json, SP : StreamParser}.

(** sink::results, and the parser after it. *)
Definition on_write (jpr : parser) (b : str) (more : bool) : parser * nat * error_code :=
  let '(jpr, bytes, ec) := write jpr b in
  if negb (failed ec) && negb more
  then let '(jpr, ec) := finish jpr in (jpr, bytes, ec)
  else (jpr, bytes, ec).

(** A body as the HTTP parser hands it over, until the first error. *)
Fixpoint feed (jpr : parser) (pieces : list (str * bool)) : parser * error_code :=
  match pieces with
  | [] => (jpr, no_error)
  | (b, more) :: pieces =>
      let '(jpr, _, ec) := on_write jpr b more in
      if failed ec then (jpr, ec) else feed jpr pieces
  end.

(** The pieces of a text. *)
Fixpoint pieces_of (text : str) (pieces : list (str * bool)) : Prop :=
  match pieces with
  | [] => False
  | [(b, more)] => b = text /\ more = false
  | (b, more) :: pieces => exists rest, text = b ++ rest /\ more = true /\ pieces_of rest pieces
  end.

(** A stream_parser takes a text in any pieces, and gives back what was
    serialized, again and again. *)
Class StreamParserLaws : Prop := {
  write_app p a b :
    write p (a ++ b) =
    let '(p1, n, ec) := write p a in
    if failed ec then (p1, n, ec) else let '(p2, m, ec) := write p1 b in (p2, (n + m)%nat, ec);
  parse_serialized p v :
    fresh p -> exact v = true ->
    exists p1 n p2 p3, write p (serialize v) = (p1, n, no_error) /\
      finish p1 = (p2, no_error) /\ release p2 = Some (p3, norm v) /\ fresh p3
}.

Context `{SL : !StreamParserLaws}.

Lemma feed_cons p b more pieces :
  feed p ((b, more) :: pieces) =
  let '(p, _, ec) := on_write p b more in if failed ec then (p, ec) else feed p pieces.
Proof. reflexivity. Qed.

Lemma on_write_more p b : on_write p b true = write p b.
Proof. unfold on_write. destruct (write p b) as [[q n] ec]. by rewrite andb_false_r. Qed.

Lemma feed_one p b :
  feed p [(b, false)] = let '(p, _, ec) := on_write p b false in (p, if failed ec then ec else no_error).
Proof. cbn [feed]. destruct (on_write p b false) as [[q n] ec]. by destruct (failed ec). Qed.

(** In pieces or at once, the parser ends alike. *)
Lemma feed_pieces text pieces p :
  pieces_of text pieces -> feed p pieces = feed p [(text, false)].
Proof.
  revert text p. induction pieces as [|[b more] pieces IH]; intros text p; [done|].
  destruct pieces as [|x pieces]; [by intros [-> ->]|].
  intros (rest & -> & -> & Hp). rewrite feed_cons, on_write_more, feed_one.
  unfold on_write. rewrite write_app. destruct (write p b) as [[p1 n] ec].
  destruct (failed ec) eqn:He; [rewrite He; cbn [negb andb]; by rewrite He|].
  rewrite (IH rest p1 Hp), feed_one. unfold on_write.
  destruct (write p1 rest) as [[p2 m] ec2]. destruct (failed ec2) eqn:He2; cbn [negb andb];
    [by rewrite He2|]. by destruct (finish p2).
Qed.

Lemma feed_serialized p v pieces :
  fresh p -> exact v = true -> pieces_of (serialize v) pieces ->
  exists p2 p3, feed p pieces = (p2, no_error) /\ release p2 = Some (p3, norm v) /\ fresh p3.
Proof.
  intros Hf Hv Hp. rewrite (feed_pieces _ _ _ Hp).
  destruct (parse_serialized p v Hf Hv) as (p1 & n & p2 & p3 & Hw & Hn & Hr & Hf3).
  exists p2, p3. split; [|done]. cbn [feed]. unfold on_write. rewrite Hw. cbn. by rewrite Hn.
Qed.

End Sink.

(** ** stream_impl *)

Inductive layer := Tls | Tcp.

Section Stream.
Context `{L : Libs, W : !Web, F : Fields}.

Inductive event :=
| Connection (x : Connect.action)
| WroteSome (l : layer) (s : str)
| ReadSome (l : layer) (s : str)
| TlsShutdown
| SocketShutdown
| SocketClose.

Record stream_impl := mk_stream { secure_ : bool; past : list event }.

Definition new_stream : stream_impl := mk_stream false [].

Definition log (l : list event) (s : stream_impl) : stream_impl :=
  mk_stream (secure_ s) (past s ++ l).

Definition chosen (s : stream_impl) : layer := if secure_ s then Tls else Tcp.

(** What the layer took of the buffers, or put into them. *)
Definition async_write_some (s : stream_impl) (taken : str) : stream_impl :=
  log [WroteSome (chosen s) taken] s.
Definition async_read_some (s : stream_impl) (got : str) : stream_impl :=
  log [ReadSome (chosen s) got] s.

Definition async_connect (e : env) (endpoint : url) (s : stream_impl)
    : stream_impl * comp exn unit :=
  let s := mk_stream (scheme endpoint =s $"https") (past s) in
  let '(tr, r) := exec e [] (connect_op endpoint) in
  (log (map Connection tr) s, r).

(** How the three operations of a shutdown end. *)
Record closing := mk_closing { of_tls : error_code; of_shutdown : error_code; of_close : error_code }.

Definition tcp_shutdown_op (x : closing) : list event * error_code :=
  if failed (of_shutdown x) then ([SocketShutdown], of_shutdown x)
  else ([SocketShutdown; SocketClose], of_close x).

Definition async_shutdown (x : closing) (s : stream_impl) : stream_impl * error_code :=
  if secure_ s then (log [TlsShutdown] s, of_tls x)
  else let '(l, ec) := tcp_shutdown_op x in (log l s, ec).

(** A composed operation keeps to its layer. *)
Lemma some_ops (ev : layer -> str -> event) l : forall st,
  fold_left (fun s b => log [ev (chosen s) b] s) l st =
  mk_stream (secure_ st) (past st ++ map (ev (chosen st)) l).
Proof.
  induction l as [|b l IH]; intros st; cbn [fold_left map].
  - rewrite app_nil_r. by destruct st.
  - rewrite IH. cbn. by rewrite <- app_assoc.
Qed.

Lemma writes l st :
  fold_left async_write_some l st =
  mk_stream (secure_ st) (past st ++ map (WroteSome (chosen st)) l).
Proof. apply some_ops. Qed.

Lemma reads_some l st :
  fold_left async_read_some l st =
  mk_stream (secure_ st) (past st ++ map (ReadSome (chosen st)) l).
Proof. apply some_ops. Qed.

End Stream.

(** ** client *)

Section Client.
Context `{L : Libs, W : !Web, F : Fields, J : Json, SP : StreamParser}.

Record session := mk_session {
  cl : client;
  stream_ : stream_impl;
  jpr_ : parser;
  sent : list (request * str)             (* what was given to the serializer *)
}.

(** How the operations of a call end, and what they move: the bytes of each
    async_write_some and async_read_some, and the body of the answer to a body, as
    the HTTP parser hands it to the sink. *)
Record exchange := mk_exchange {
  write_result : error_code;
  header_result : error_code;
  body_result : error_code;
  wrote : request * str -> list str;
  head_read : list str;
  rest_read : list str;
  body_of : str -> list (str * bool)
}.

(** async_call: request_op on the stream.  The client does not reset its parser. *)
Definition call (t : returns) (m : str) (p : value) (x : exchange) (s : session)
    : session * comp exn (error * value) :=
  let body := serialize (request_value m p (u64 (id_ (cl s) + 1))) in
  let '(jpr, ec) := feed (jpr_ s) (body_of x body) in
  let w := mk_wire (write_result x) (header_result x) (if failed ec then ec else body_result x)
             (fun _ => match release jpr with Some (_, v) => v | None => Null end) in
  let '(q, c, done) := async_call t (cl s) w m p in
  let all := sent s ++ [q] in
  let st := fold_left async_write_some (wrote x q) (stream_ s) in
  if failed (write_ec w) then (mk_session c st (jpr_ s) all, Ok done)
  else
    let st := fold_left async_read_some (head_read x) st in
    if failed (header_ec w) then (mk_session c st (jpr_ s) all, Ok done)
    else
      let st := fold_left async_read_some (rest_read x) st in
      if failed (read_ec w) then (mk_session c st jpr all, Ok done)
      else
        match release jpr with
        | Some (jpr, _) => (mk_session c st jpr all, Ok done)
        | None => (mk_session c st jpr all, Err SystemError)
        end.

(** After an answer that was cut off or did not parse, the next answer is fed to
    the parser as this one left it. *)
Lemma parser_not_reset t m p x s :
  let body := serialize (request_value m p (u64 (id_ (cl s) + 1))) in
  let '(jpr, ec) := feed (jpr_ s) (body_of x body) in
  failed (write_result x) = false -> failed (header_result x) = false ->
  failed ec = true \/ failed (body_result x) = true ->
  jpr_ (fst (call t m p x s)) = jpr.
Proof.
  cbv zeta. unfold call. destruct (feed _ _) as [jpr ec]. intros Hw Hh Hf.
  set (w := mk_wire _ _ _ _). destruct (async_call t (cl s) w m p) as [[q c] e].
  change (write_ec w) with (write_result x). change (header_ec w) with (header_result x).
  change (read_ec w) with (if failed ec then ec else body_result x). rewrite Hw, Hh.
  destruct (failed ec) eqn:He; [by rewrite He|]. by destruct Hf as [?| ->].
Qed.

Definition set_stream (st : stream_impl) (s : session) : session :=
  mk_session (cl s) st (jpr_ s) (sent s).

(** client::async_connect and client::async_shutdown *)
Definition connect (e : env) (s : session) : session * comp exn unit :=
  let '(st, r) := async_connect e (endpoint_ (cl s)) (stream_ s) in (set_stream st s, r).
Definition shutdown (x : closing) (s : session) : session * error_code :=
  let '(st, ec) := async_shutdown x (stream_ s) in (set_stream st s, ec).

End Client.

(** ** Programs that call procedures *)

(** What a coroutine is left with. *)
Inductive failure :=
| Failed (ec : error_code) (what : option str)       (* system_error of a call *)
| Thrown (e : exn).

Inductive rpc (A : Type) : Type :=
| Return (a : A)
| Raise (f : failure)
| Print (s : str) (k : rpc A)
| AsyncConnect (k : rpc A)
| AsyncCall (t : returns) (m : str) (p : value) (k : value -> rpc A)
| AsyncShutdown (k : error_code -> rpc A).

Arguments Return {_} a.
Arguments Raise {_} f.
Arguments Print {_} s k.
Arguments AsyncConnect {_} k.
Arguments AsyncCall {_} t m p k.
Arguments AsyncShutdown {_} k.

#[export] Instance rpc_ret : MRet rpc := fun A a => Return a.
#[export] Instance rpc_bind : MBind rpc :=
  fun A B f => fix bind p :=
    match p with
    | Return a => f a
    | Raise e => Raise e
    | Print s k => Print s (bind k)
    | AsyncConnect k => AsyncConnect (bind k)
    | AsyncCall t m p k => AsyncCall t m p (fun v => bind (k v))
    | AsyncShutdown k => AsyncShutdown (fun ec => bind (k ec))
    end.

Section Programs.
Context `{L : Libs, W : !Web, F : Fields, J : Json, SP : StreamParser}.

(** The surroundings of a client: the n-th call is [calls n]. *)
Record network := mk_network {
  connects : env;
  calls : Z -> exchange;
  closes : closing
}.

(** co_await of an operation throws its error. *)
Definition throw (e : error) : option failure :=
  (fun x => Failed (fst x) (snd x)) <$> to_exception serialize e.

(** What is printed, the session and the result. *)
Fixpoint run_remote {A} (net : network) (p : rpc A) (s : session)
    : list str * session * comp failure A :=
  match p with
  | Return a => ([], s, Ok a)
  | Raise f => ([], s, Err f)
  | Print t k => let '(o, s, r) := run_remote net k s in (t :: o, s, r)
  | AsyncConnect k =>
      match connect (connects net) s with
      | (s, Ok _) => run_remote net k s
      | (s, Err e) => ([], s, Err (Thrown e))
      | (s, UB) => ([], s, UB)
      end
  | AsyncCall t m p k =>
      match call t m p (calls net (u64 (id_ (cl s) + 1))) s with
      | (s, Ok (e, v)) =>
          match throw e with
          | None => run_remote net (k v) s
          | Some f => ([], s, Err f)
          end
      | (s, Err e) => ([], s, Err (Thrown e))
      | (s, UB) => ([], s, UB)
      end
  | AsyncShutdown k => let '(s, ec) := shutdown (closes net) s in run_remote net (k ec) s
  end.

(** The reference: [f n] are the procedures at the n-th call; nothing is sent.  A
    procedure that fails, and a result that is not of the type asked for, end the
    program by an exception. *)
Fixpoint run_local {A} (f : Z -> str -> value -> (Z * str) + value) (close : error_code)
    (n : Z) (p : rpc A) : list str * list (str * value) * comp failure A :=
  match p with
  | Return a => ([], [], Ok a)
  | Raise e => ([], [], Err e)
  | Print t k => let '(o, l, r) := run_local f close n k in (t :: o, l, r)
  | AsyncConnect k => run_local f close n k
  | AsyncCall t m p k =>
      match f (n + 1) m (norm p) with
      | inl (c, msg) =>
          ([], [(m, p)], Err (Failed (standard_code c)
             (Some (serialize (Object [($"code", Int64 c); ($"message", String msg)])))))
      | inr x =>
          match conversion t (norm x) with
          | inr v => let '(o, l, r) := run_local f close (n + 1) (k v) in (o, (m, p) :: l, r)
          | inl ec => ([], [(m, p)], Err (Failed ec None))
          end
      end
  | AsyncShutdown k => run_local f close n (k close)
  end.

End Programs.

(** ** Remote and local *)

Section Refinement.
Context `{L : Libs, W : !Web, F : Fields, J : Json, JL : !JsonLaws}.
Context `{SP : StreamParser, SL : !StreamParserLaws}.

(** A network that connects to [u] and delivers every call to a JSON-RPC 2.0 server
    that has the procedures [f]: it reads the request and its answer is read in
    pieces. *)
Record serves (net : network) (f : Z -> str -> value -> (Z * str) + value) (u : url) : Prop := {
  srv_connects : snd (exec (connects net) [] (connect_op u)) = Ok tt;
  srv_delivers i :
    failed (write_result (calls net i)) = false /\ failed (header_result (calls net i)) = false /\
    failed (body_result (calls net i)) = false;
  srv_answers i m p :
    let q := standard_request m p i in
    pieces_of (serialize (reply_of (f i) (norm q))) (body_of (calls net i) (serialize q));
  srv_exact i m p x : f i m p = inr x -> exact x = true
}.

Lemma exact_norm_u64 n : exact (norm (Uint64 n)) = true.
Proof. cbn [norm]. by destruct (n <? 2 ^ 63). Qed.

Lemma exact_reply f m p id :
  (forall x, f m (norm p) = inr x -> exact x = true) ->
  exact (reply_of f (norm (standard_request m p id))) = true.
Proof.
  intros Hf. unfold standard_request. cbn [norm map fst snd]. unfold reply_of. lookups.
  rewrite (bool_decide_eq_true_2 _ eq_refl).
  pose proof (exact_norm_u64 id) as Hi. cbn [norm] in Hi.
  destruct (f m (norm p)) as [[n msg]|x]; cbn [exact forallb snd andb]; rewrite Hi;
    [done|by rewrite (Hf x)].
Qed.

(** What a program relies on between its calls. *)
Record ready (u : url) (s : session) : Prop := {
  rd_endpoint : endpoint_ (cl s) = u;
  rd_id : 0 <= id_ (cl s);
  rd_fresh : fresh (jpr_ s)
}.

(** A call to such a server. *)
Lemma call_served net f u t m p s :
  serves net f u -> ready u s -> id_ (cl s) < 2 ^ 64 - 1 ->
  let id := id_ (cl s) + 1 in
  exists s', call t m p (calls net id) s =
    (s', Ok (match f id m (norm p) with
             | inr x => match conversion t (norm x) with
                        | inr v => (mk_error no_error [], v)
                        | inl ec => (mk_error ec [], default_of t)
                        end
             | inl (n, msg) => (mk_error (standard_code n)
                 [($"code", Int64 n); ($"message", String msg)], default_of t)
             end)) /\
    ready u s' /\ id_ (cl s') = id /\ secure_ (stream_ s') = secure_ (stream_ s) /\
    map snd (sent s') = map snd (sent s) ++ [serialize (standard_request m p id)].
Proof.
  intros HS [Hu Hid Hfr] Hlt id. unfold call. rewrite wrap_small by lia. fold id.
  rewrite request_value_standard.
  destruct (srv_delivers _ _ _ HS id) as (Hw & Hh & Hb).
  destruct (feed_serialized (jpr_ s) _ _ Hfr (exact_reply (f id) m p id ltac:(intros x; apply HS))
    (srv_answers _ _ _ HS id m p)) as (p2 & p3 & -> & Hr & Hf3).
  set (w := mk_wire _ _ _ _). pose proof (call_reaches_server t (cl s) w m p (f id)) as HC.
  cbv zeta in HC. rewrite HC; [|unfold delivered, w; cbn; by rewrite Hw, Hh, Hb|lia|].
  2: { cbn [w answer_of]. by rewrite Hr. }
  cbn [w write_ec header_ec read_ec]. rewrite Hw, Hh. cbn [failed no_error code_value Z.eqb negb].
  rewrite Hb, Hr. eexists. split.
  { do 3 f_equal. destruct (f id m (norm p)) as [[n msg]|x];
      [by rewrite server_code_standard|apply transform_conversion]. }
  cbn [cl stream_ sent jpr_ endpoint_ id_].
  split; [by split; cbn; lia || done|]. split; [done|].
  split; [by rewrite !reads_some, writes|]. by rewrite map_app.
Qed.

(** What async_shutdown completes with. *)
Definition closing_of (u : url) (x : closing) : error_code :=
  if scheme u =s $"https" then of_tls x else snd (tcp_shutdown_op x).

Lemma connect_served net f u s :
  serves net f u -> ready u s ->
  exists s', connect (connects net) s = (s', Ok tt) /\ ready u s' /\ cl s' = cl s /\
    sent s' = sent s /\ secure_ (stream_ s') = (scheme u =s $"https").
Proof.
  intros HS [Hu Hid Hfr]. unfold connect, async_connect. rewrite Hu.
  pose proof (srv_connects _ _ _ HS) as Hc.
  destruct (exec (connects net) [] (connect_op u)) as [tr [[]|e|]]; try done.
  eexists. split; [done|]. by repeat split.
Qed.

Lemma shutdown_ready u x s :
  ready u s -> secure_ (stream_ s) = (scheme u =s $"https") ->
  exists s', shutdown x s = (s', closing_of u x) /\ ready u s' /\ cl s' = cl s /\
    sent s' = sent s /\ secure_ (stream_ s') = (scheme u =s $"https").
Proof.
  intros [Hu Hid Hfr] Hs. unfold shutdown, async_shutdown, closing_of. rewrite Hs.
  destruct (scheme u =s $"https") eqn:E; [|destruct (tcp_shutdown_op x)];
    (eexists; split; [done|]; by repeat split).
Qed.

(** The body of the [i]-th call after [n] calls. *)
Definition bodies (n : Z) (l : list (str * value)) : list str :=
  imap (fun i c => serialize (standard_request (fst c) (snd c) (n + 1 + Z.of_nat i))) l.

Lemma bodies_cons n c l :
  bodies n (c :: l) = serialize (standard_request (fst c) (snd c) (n + 1)) :: bodies (n + 1) l.
Proof.
  unfold bodies. cbn [imap]. f_equal; [by rewrite Z.add_0_r|].
  apply imap_ext. intros i x _. cbn. do 2 f_equal. lia.
Qed.

Lemma throw_server c o :
  o <> [] ->
  throw (mk_error (standard_code c) o) =
  Some (Failed (standard_code c) (Some (serialize (Object o)))).
Proof.
  intros Ho. unfold throw, to_exception. rewrite <- server_code_standard, server_code_fails.
  by destruct o.
Qed.

Lemma throw_conversion t v ec :
  conversion t v = inl ec -> throw (mk_error ec []) = Some (Failed ec None).
Proof.
  intros Hc. unfold throw, to_exception. cbn [code info].
  assert (try_value_to t v = inl ec) as Ht by (by destruct t, v).
  by rewrite (try_value_fails _ _ _ Ht).
Qed.

Lemma remote_is_local_from {A} net f u (p : rpc A) : forall s,
  serves net f u -> ready u s -> secure_ (stream_ s) = (scheme u =s $"https") ->
  let '(o, l, r) := run_local f (closing_of u (closes net)) (id_ (cl s)) p in
  id_ (cl s) + Z.of_nat (length l) < 2 ^ 64 ->
  let '(o', s', r') := run_remote net p s in
  o' = o /\ r' = r /\ map snd (sent s') = map snd (sent s) ++ bodies (id_ (cl s)) l.
Proof.
  induction p as [a|e|t k IH|k IH|t m v k IH|k IH]; intros s HS HR Hsec; cbn [run_local run_remote].
  - intros _. by rewrite app_nil_r.
  - intros _. by rewrite app_nil_r.
  - specialize (IH s HS HR Hsec). destruct (run_local _ _ _ k) as [[o l] r].
    intros Hl. specialize (IH Hl). destruct (run_remote net k s) as [[o' s'] r'].
    by destruct IH as (-> & -> & ->).
  - destruct (connect_served _ _ _ _ HS HR) as (s' & -> & HR' & Hcl & Hse & Hs').
    specialize (IH s' HS HR' Hs'). by rewrite Hcl, Hse in IH.
  - pose proof (call_served net f u t m v s HS HR) as HC. cbv zeta in HC.
    pose proof (rd_id _ _ HR). revert HC.
    destruct (f (id_ (cl s) + 1) m (norm v)) as [[c msg]|x]; [|destruct (conversion t (norm x)) as [ec|y] eqn:Ev];
      intros HC.
    + intros Hl. cbn in Hl. destruct HC as (s' & HC & _ & _ & _ & Hse); [lia|].
      rewrite wrap_small by lia. rewrite HC. cbv beta iota. by rewrite throw_server, Hse, bodies_cons by done.
    + intros Hl. cbn in Hl. destruct HC as (s' & HC & _ & _ & _ & Hse); [lia|].
      rewrite wrap_small by lia. rewrite HC. cbv beta iota.
      by rewrite (throw_conversion t (norm x)), Hse, bodies_cons.
    + destruct (run_local _ _ _ (k y)) as [[o l] r] eqn:E. intros Hl. cbn [length] in Hl.
      destruct HC as (s' & HC & HR' & Hid & Hs' & Hse); [lia|].
      rewrite wrap_small by lia. rewrite HC. cbv beta iota.
      change (throw (mk_error no_error [])) with (@None failure). cbv iota.
      specialize (IH y s' HS HR' ltac:(congruence)). rewrite Hid, E in IH.
      specialize (IH ltac:(lia)). destruct (run_remote net (k y) s') as [[o' s''] r'].
      destruct IH as (-> & -> & ->). by rewrite Hse, bodies_cons, <- app_assoc.
  - destruct (shutdown_ready u (closes net) s HR Hsec) as (s' & -> & HR' & Hcl & Hse & Hs').
    specialize (IH (closing_of u (closes net)) s' HS HR' Hs'). by rewrite Hcl, Hse in IH.
Qed.

End Refinement.

(** ** Which layer the requests go over *)

Section Layers.
Context `{L : Libs, W : !Web, F : Fields, J : Json, SP : StreamParser}.

Definition https (u : url) : bool := scheme u =s $"https".

(** What may be done to the stream of a client of [u] that has been told to
    connect. *)
Definition right (u : url) (e : event) : Prop :=
  match e with
  | WroteSome Tls _ | ReadSome Tls _ | TlsShutdown => https u = true
  | WroteSome Tcp _ | ReadSome Tcp _ | SocketShutdown | SocketClose => https u = false
  | Connection (SetServerName h) | Connection (SetVerification h) =>
      https u = true /\ h = url_host u
  | Connection _ => True
  end.

(** The trace of a connection that was made. *)
Definition connected (u : url) (tr : list event) : Prop :=
  exists port l,
    tr = map Connection
      ([Resolved (url_host u) port; ConnectedTo l] ++
       (if https u then handshake_trace u else [])).

Lemma connect_op_only u : only (fun x => right u (Connection x)) (connect_op u).
Proof.
  unfold connect_op. apply only_bind; [by intros l|]. intros l.
  apply only_bind; [done|]. intros _. unfold https. cbn [right].
  destruct (scheme u =s $"https") eqn:E; cbn [negb only]; [|done].
  by unfold right, https; rewrite E.
Qed.

Lemma async_connect_trace e u s st r :
  async_connect e u s = (st, r) ->
  exists tr, past st = past s ++ map Connection tr /\ Forall (right u) (map Connection tr) /\
    secure_ st = https u /\ (r = Ok tt -> connected u (map Connection tr)).
Proof.
  unfold async_connect. pose proof (exec_only e _ _ [] (connect_op_only u) ltac:(constructor)) as HF.
  destruct (exec e [] (connect_op u)) as [tr r'] eqn:E. intros [= <- <-].
  exists tr. split; [done|]. split; [by apply Forall_map|]. split; [done|].
  intros ->. revert E. unfold connect_op. intros E.
  apply exec_bind_ok in E as (tr1 & l & E1 & E). apply exec_resolve_ok in E1 as ->.
  apply exec_bind_ok in E as (tr2 & [] & E1 & E). apply exec_perform_ok in E1 as ->.
  eexists _, l. f_equal. revert E. unfold https.
  destruct (scheme u =s $"https"); cbn [negb]; [|by intros [= <-]].
  unfold perform_tls_handshake. intros E.
  apply exec_bind_ok in E as (tr3 & [] & E1 & E). apply exec_perform_ok in E1 as ->.
  apply exec_bind_ok in E as (tr4 & [] & E1 & E). apply exec_perform_ok in E1 as ->.
  apply exec_perform_ok in E as ->. done.
Qed.

Context `{FL : !FieldsLaws}.

(** Requests that differ in their Content-Length only. *)
Definition alike (r r' : request) : Prop :=
  method r = method r' /\ version r = version r' /\ target r = target r' /\
  forall name, same_name name $"Content-Length" = false -> header r name = header r' name.

(** A message of a client whose request was [r0]. *)
Definition well_formed (r0 : request) (q : request * str) : Prop :=
  alike (fst q) r0 /\
  header (fst q) $"Content-Length" = Some (dec (Z.of_nat (length (snd q)))).

(** What an operation adds to a session: right events and well-formed messages. *)
Definition adds (r0 : request) (s s' : session) : Prop :=
  endpoint_ (cl s') = endpoint_ (cl s) /\ alike (req_ (cl s')) r0 /\
  (secure_ (stream_ s') = https (endpoint_ (cl s))) /\
  (exists l, past (stream_ s') = past (stream_ s) ++ l /\ Forall (right (endpoint_ (cl s))) l) /\
  (exists l, sent s' = sent s ++ l /\ Forall (well_formed r0) l).

Lemma adds_trans r0 s1 s2 s3 : adds r0 s1 s2 -> adds r0 s2 s3 -> adds r0 s1 s3.
Proof.
  intros (E1 & R1 & S1 & (l1 & P1 & F1) & k1 & Q1 & G1) (E2 & R2 & S2 & (l2 & P2 & F2) & k2 & Q2 & G2).
  rewrite E1 in *. split; [congruence|]. split; [done|]. split; [done|].
  split; [exists (l1 ++ l2)|exists (k1 ++ k2)].
  - by rewrite P2, P1, <- app_assoc, Forall_app.
  - by rewrite Q2, Q1, <- app_assoc, Forall_app.
Qed.

Lemma async_call_sends t c w m p :
  let '(q, c', _) := async_call t c w m p in
  endpoint_ c' = endpoint_ c /\ req_ c' = fst q /\
  fst q = set $"Content-Length" (dec (Z.of_nat (length (snd q)))) (req_ c).
Proof.
  unfold async_call, request_op. cbn [next_id endpoint_ req_ id_].
  by destruct (if failed (write_ec w) then _ else _) as [e v].
Qed.

Lemma set_length_alike n r r0 :
  alike r r0 -> alike (set $"Content-Length" n r) r0 /\
  header (set $"Content-Length" n r) $"Content-Length" = Some n.
Proof.
  intros (H1 & H2 & H3 & H4). unfold alike, header, set in *. cbn [hdrs method version target].
  split; [split_and!; try done|]; [intros name Hn|]; rewrite find_set_law.
  - rewrite Hn. by apply H4.
  - by rewrite same_name_refl.
Qed.

Lemma call_adds r0 t m p x s :
  alike (req_ (cl s)) r0 -> secure_ (stream_ s) = https (endpoint_ (cl s)) ->
  adds r0 s (fst (call t m p x s)).
Proof.
  intros Ha Hs. unfold call. destruct (feed _ _) as [jpr ec]. set (w := mk_wire _ _ _ _).
  pose proof (async_call_sends t (cl s) w m p) as HC.
  destruct (async_call t (cl s) w m p) as [[q c] done]. destruct HC as (He & Hr & Hq).
  destruct (set_length_alike (dec (Z.of_nat (length (snd q)))) _ _ Ha) as [Hal Hcl].
  rewrite <- Hq in Hal, Hcl.
  assert (forall (ev : layer -> str -> event) l,
    (forall b, right (endpoint_ (cl s)) (ev (chosen (stream_ s)) b)) ->
    Forall (right (endpoint_ (cl s))) (map (ev (chosen (stream_ s))) l)) as HF.
  { intros ev l Hev. apply Forall_map, Forall_forall. intros b _. apply Hev. }
  assert (forall b, right (endpoint_ (cl s)) (WroteSome (chosen (stream_ s)) b) /\
                    right (endpoint_ (cl s)) (ReadSome (chosen (stream_ s)) b)) as Hev.
  { intros b. unfold chosen. rewrite Hs. by destruct (https _) eqn:E. }
  assert (forall st jpr, secure_ st = secure_ (stream_ s) ->
    (exists l, past st = past (stream_ s) ++ l /\ Forall (right (endpoint_ (cl s))) l) ->
    adds r0 s (mk_session c st jpr (sent s ++ [q]))) as HA.
  { intros st jp Hst Hl. unfold adds. cbn [cl stream_ sent]. rewrite Hr, Hst.
    split; [done|]. split; [done|]. split; [done|]. split; [done|].
    exists [q]. split; [done|]. constructor; [by split|constructor]. }
  rewrite !writes, ?reads_some. cbn [past secure_].
  destruct (failed (write_ec w)); [|destruct (failed (header_ec w)); [|destruct (failed (read_ec w));
    [|destruct (release jpr) as [[jp v]|]]]]; cbn [fst]; apply HA; try done;
    rewrite <- ?app_assoc; eexists; (split; [done|]);
    rewrite ?Forall_app; repeat apply conj; apply HF; intros b; apply (Hev b).
Qed.

Lemma connect_adds r0 e s :
  alike (req_ (cl s)) r0 ->
  adds r0 s (fst (connect e s)) /\
  sent (fst (connect e s)) = sent s /\
  exists l, past (stream_ (fst (connect e s))) = past (stream_ s) ++ map Connection l /\
    (snd (connect e s) = Ok tt -> connected (endpoint_ (cl s)) (map Connection l)).
Proof.
  intros Ha. unfold connect. destruct (async_connect e _ _) as [st r] eqn:E.
  apply async_connect_trace in E as (tr & Hp & HF & Hs & Hc). cbn [fst snd set_stream stream_].
  split; [|split; [done|by exists tr]]. split; [done|]. split; [done|]. split; [done|].
  split; [by eexists|]. exists []. split; [by rewrite app_nil_r|constructor].
Qed.

Lemma shutdown_adds r0 x s :
  alike (req_ (cl s)) r0 -> secure_ (stream_ s) = https (endpoint_ (cl s)) ->
  adds r0 s (fst (shutdown x s)).
Proof.
  intros Ha Hs. unfold shutdown, async_shutdown, tcp_shutdown_op. rewrite Hs.
  destruct (https _) eqn:E; [|destruct (failed (of_shutdown x))]; cbn [fst];
    (split; [done|]; split; [done|]; split; [by rewrite E|]; split;
     [eexists; split; [done|]; by repeat constructor|
      exists []; split; [by rewrite app_nil_r|constructor]]).
Qed.

Lemma run_adds {A} r0 net (p : rpc A) : forall s,
  alike (req_ (cl s)) r0 -> secure_ (stream_ s) = https (endpoint_ (cl s)) ->
  adds r0 s (snd (fst (run_remote net p s))).
Proof.
  assert (forall s, alike (req_ (cl s)) r0 -> secure_ (stream_ s) = https (endpoint_ (cl s)) ->
    adds r0 s s) as H0.
  { intros s Ha Hs. split; [done|]. split; [done|]. split; [done|].
    split; exists []; (split; [by rewrite app_nil_r|constructor]). }
  assert (forall s s' s'', adds r0 s s' ->
    (alike (req_ (cl s')) r0 -> secure_ (stream_ s') = https (endpoint_ (cl s')) ->
     adds r0 s' s'') -> adds r0 s s'') as Hstep.
  { intros s s' s'' HA HK. pose proof HA as (He & Ha & Hs & _). eapply adds_trans; [exact HA|].
    apply HK; [done|congruence]. }
  induction p as [a|e|t k IH|k IH|t m v k IH|k IH]; intros s Ha Hs; cbn [run_remote].
  - by apply H0.
  - by apply H0.
  - specialize (IH s Ha Hs). by destruct (run_remote net k s) as [[o s'] r].
  - destruct (connect_adds r0 (connects net) s Ha) as [HC _].
    destruct (connect (connects net) s) as [s' [[]|e|]]; try done.
    apply (Hstep s s' _ HC), IH.
  - pose proof (call_adds r0 t m v (calls net (u64 (id_ (cl s) + 1))) s Ha Hs) as HC.
    destruct (call t m v _ s) as [s' [[e y]|e|]]; try done. destruct (throw e); [done|].
    apply (Hstep s s' _ HC), IH.
  - pose proof (shutdown_adds r0 (closes net) s Ha Hs) as HC.
    destruct (shutdown (closes net) s) as [s' ec]. apply (Hstep s s' _ HC), IH.
Qed.

End Layers.

(** ** The calls of a program *)

Section Scripts.
Context `{J : Json}.

(** On every path the program calls the procedures [ms], in order, or stops. *)
Fixpoint scripted {A} (ms : list str) (p : rpc A) : Prop :=
  match p with
  | Return _ => ms = []
  | Raise _ => True
  | Print _ k | AsyncConnect k => scripted ms k
  | AsyncCall _ m _ k =>
      match ms with
      | [] => False
      | m' :: ms => m = m' /\ forall v, scripted ms (k v)
      end
  | AsyncShutdown k => forall ec, scripted ms (k ec)
  end.

Lemma scripted_bind {A B} (p : rpc A) (f : A -> rpc B) ms' : forall ms,
  scripted ms p -> (forall a, scripted ms' (f a)) -> scripted (ms ++ ms') (p ≫= f).
Proof.
  induction p as [a|e|t k IH|k IH|t m v k IH|k IH]; intros ms Hp Hf; simpl in *; try by auto.
  - subst ms. apply Hf.
  - destruct ms as [|m' ms]; [done|]. destruct Hp as [-> Hp]. split; [done|].
    intros y. by apply IH.
Qed.

Lemma scripted_local {A} f close (p : rpc A) : forall ms n,
  scripted ms p ->
  let '(_, l, r) := run_local f close n p in
  map fst l `prefix_of` ms /\ (forall a, r = Ok a -> map fst l = ms).
Proof.
  induction p as [a|e|t k IH|k IH|t m v k IH|k IH]; intros ms n Hp; cbn [run_local scripted] in *.
  - subst ms. by split.
  - split; [apply prefix_nil|done].
  - specialize (IH ms n Hp). by destruct (run_local _ _ _ k) as [[o l] r].
  - by apply IH.
  - destruct ms as [|m' ms]; [done|]. destruct Hp as [-> Hp].
    assert ([m'] `prefix_of` m' :: ms) as H1 by (apply prefix_cons, prefix_nil).
    destruct (f _ _ _) as [[c msg]|x]; [by split|].
    destruct (conversion t _) as [ec|y]; [by split|].
    specialize (IH y ms (n + 1) (Hp y)). destruct (run_local _ _ _ (k y)) as [[o l] r].
    destruct IH as [Hl Hr]. cbn [map fst]. split; [by apply prefix_cons|].
    intros a Ha. by rewrite (Hr a Ha).
  - by apply IH.
Qed.

End Scripts.

(** A client before anything was done. *)
Definition idle `{Libs, Fields, StreamParser} (c : client) (jpr : parser) : session :=
  mk_session c new_stream jpr [].


(** C8: whatever a program does with a client that it has told to connect, and
    whatever the network does: the bytes of the requests and of the answers go over
    the TLS layer exactly when the URL is https; nothing is written or read unless
    a connection was made, with, for https, the handshake for the host of the URL;
    and every message has the method, target and fields of the client, and the
    Content-Length of its body. *)
Theorem requests_on_verified_layer `{L : Libs, W : !Web, F : Fields, FL : !FieldsLaws}
    `{J : Json, SP : StreamParser} {A} net c jpr (p : rpc A) :
  let s := snd (fst (run_remote net (AsyncConnect p) (idle c jpr))) in
  Forall (right (endpoint_ c)) (past (stream_ s)) /\
  Forall (well_formed (req_ c)) (sent s) /\
  ((exists tr rest, past (stream_ s) = tr ++ rest /\ connected (endpoint_ c) tr) \/
   sent s = [] /\ Forall (fun e => exists x, e = Connection x) (past (stream_ s))).
Proof.
  assert (alike (req_ c) (req_ c)) as Ha by done.
  destruct (connect_adds (req_ c) (connects net) (idle c jpr) Ha) as (HC & Hk & tr & Hp & Hc).
  cbn [run_remote]. destruct (connect (connects net) (idle c jpr)) as [s r].
  cbn [fst snd] in *. pose proof HC as (He & Hal & Hs & (l & Hl & HF) & _).
  assert (Forall (fun e => exists x, e = Connection x) (past (stream_ s))) as Hq.
  { rewrite Hp. apply Forall_map, Forall_forall. intros x _. by exists x. }
  destruct r as [[]|e|]; cbn [fst snd].
  2-3: rewrite Hk, Hl in *; (split; [done|split; [constructor|by right]]).
  pose proof (run_adds (req_ c) net p s Hal ltac:(congruence)) as HR.
  pose proof HR as (_ & _ & _ & (rest & Hr & _) & _).
  pose proof (adds_trans _ _ _ _ HC HR) as (_ & _ & _ & (l' & Hl' & HF') & k & Hk' & HG).
  rewrite Hk'. split; [by rewrite Hl'|]. split; [done|]. left.
  exists (map Connection tr), rest. split; [by rewrite Hr, Hp|by apply Hc].
Qed.

(** ** A parser and a server *)

(** Values as trees, and trees as bits. *)
Fixpoint to_tree (v : value) : gen_tree (Z + str) :=
  match v with
  | Null => GenNode 0 []
  | Bool b => GenNode (if b then 1 else 2) []
  | Int64 i => GenNode 3 [GenLeaf (inl i)]
  | Uint64 n => GenNode 4 [GenLeaf (inl n)]
  | Double b => GenNode 5 [GenLeaf (inl b)]
  | String s => GenNode 6 [GenLeaf (inr s)]
  | Array l => GenNode 7 (map to_tree l)
  | Object l => GenNode 8 (map (fun p => GenNode 9 [GenLeaf (inr (fst p)); to_tree (snd p)]) l)
  end.

Fixpoint of_tree (t : gen_tree (Z + str)) : value :=
  match t with
  | GenNode 1 [] => Bool true
  | GenNode 2 [] => Bool false
  | GenNode 3 [GenLeaf (inl i)] => Int64 i
  | GenNode 4 [GenLeaf (inl n)] => Uint64 n
  | GenNode 5 [GenLeaf (inl b)] => Double b
  | GenNode 6 [GenLeaf (inr s)] => String s
  | GenNode 7 l => Array (map of_tree l)
  | GenNode 8 l =>
      Object (map (fun t => match t with
                            | GenNode 9 [GenLeaf (inr k); t] => (k, of_tree t)
                            | _ => ([], Null)
                            end) l)
  | _ => Null
  end.

Lemma of_to_tree : forall v, of_tree (to_tree v) = v.
Proof.
  fix IH 1. intros [|[]| | | | |l|l]; try reflexivity; cbn [to_tree of_tree].
  - assert (map of_tree (map to_tree l) = l) as ->; [|reflexivity].
    induction l as [|v l IHl]; [reflexivity|]. cbn [map]. rewrite IH, IHl. reflexivity.
  - assert (map (fun t => match t with
                          | GenNode 9 [GenLeaf (inr k); t] => (k, of_tree t)
                          | _ => ([], Null)
                          end)
      (map (fun p => GenNode 9 [GenLeaf (inr (fst p)); to_tree (snd p)]) l) = l) as ->;
      [|reflexivity].
    induction l as [|[k v] l IHl]; [reflexivity|]. cbn [map fst snd]. rewrite IH, IHl. reflexivity.
Qed.

Fixpoint to_bits (p : positive) : str :=
  match p with
  | xI p => "1"%char :: to_bits p
  | xO p => "0"%char :: to_bits p
  | xH => []
  end.

Fixpoint of_bits (s : str) : positive :=
  match s with
  | c :: s => if c =c "1" then xI (of_bits s) else xO (of_bits s)
  | [] => xH
  end.

Lemma of_to_bits p : of_bits (to_bits p) = p.
Proof. induction p; cbn; by rewrite ?IHp. Qed.

Definition decode_bits (s : str) : option value := of_tree <$> countable.decode (of_bits s).

#[local] Instance bits_json : Json := {
  serialize v := to_bits (countable.encode (to_tree v));
  try_value_to t v := match t, v with
                      | RBool, Bool b => inr (Bool b)
                      | _, _ => inl (mk_code $"boost.json" 1)
                      end
}.

#[local] Instance bits_json_laws : JsonLaws.
Proof. split. intros [] [] ec [= <-]; reflexivity. Qed.

Lemma decode_serialized v : decode_bits (serialize v) = Some v.
Proof.
  unfold decode_bits. cbn [serialize bits_json]. rewrite of_to_bits, decode_encode. cbn.
  by rewrite of_to_tree.
Qed.

(** It collects the text. *)
#[local] Instance collecting : StreamParser := {
  parser := str;
  write p s := (p ++ s, length s, no_error);
  finish p := (p, match decode_bits p with Some _ => no_error | None => mk_code $"boost.json" 1 end);
  release p := (fun v => ([], norm v)) <$> decode_bits p;
  fresh p := p = []
}.

#[local] Instance collecting_laws : StreamParserLaws.
Proof.
  split.
  - intros p a b. cbn. by rewrite <- app_assoc, length_app.
  - intros p v -> _. exists (serialize v), (length (serialize v)), (serialize v), [].
    cbn [write finish release fresh collecting app]. by rewrite decode_serialized.
Qed.

(** A network with a server that has the procedures [f]; every answer comes in
    two pieces. *)
Definition served_by (f : Z -> str -> value -> (Z * str) + value) : network (F := list_fields) :=
  mk_network
    (mk_env (fun _ _ => Ok tt) (fun _ n => Ok (replicate n zero)) (fun _ => Ok 200)
       (fun _ _ _ => Ok [mk_endpoint $"127.0.0.1" false]))
    (fun i => mk_exchange no_error no_error no_error (fun q => [snd q]) [$"200"] [$"{}"]
       (fun text => match decode_bits text with
                    | Some q => let s := serialize (reply_of (f i) (norm q)) in
                                [(take 1 s, true); (drop 1 s, false)]
                    | None => []
                    end))
    (mk_closing no_error no_error no_error).

Lemma served_by_serves f u :
  (forall i m p x, f i m p = inr x -> exact x = true) ->
  serves (W := test_web) (served_by f) f u.
Proof.
  intros Hf. split; [|done| |done].
  - unfold connect_op. cbn. by destruct (_ =s _).
  - intros i m p. cbn [body_of calls served_by]. rewrite decode_serialized. cbn [pieces_of].
    eexists. split; [symmetry; apply take_drop|]. by split.
Qed.

(** A server that counts, and a program that prints what it has counted. *)
Definition counter (i : Z) (m : str) (p : value) : (Z * str) + value :=
  if m =s $"count" then inr (String (dec i)) else inl (-32601, $"no").

Definition count_twice : rpc unit :=
  AsyncCall RString $"count" Null (fun a =>
  AsyncCall RString $"count" a (fun b =>
  Print (match b with String s => s | _ => [] end) (
  AsyncCall RString $"stop" Null (fun _ => Return tt)))).

Definition rpc_client : client (L := test_libs) (F := list_fields) :=
  make_client (L := test_libs) (W := test_web) (F := list_fields) id false true $"http://a/rpc".


Lemma requests_on_verified_layer_witness :
  let s := snd (fst (run_remote (W := test_web) (served_by counter) (AsyncConnect count_twice)
                       (idle rpc_client ([] : str)))) in
  Forall (right (W := test_web) (endpoint_ rpc_client)) (past (stream_ s)) /\
  Forall (well_formed (req_ rpc_client)) (sent s).
Proof.
  pose proof (@requests_on_verified_layer test_libs test_web list_fields list_fields_laws bits_json
    collecting unit (served_by counter) rpc_client ([] : str) count_twice) as (H1 & H2 & _).
  split; [exact H1|exact H2].
Defined.

End RpcSession.
