(* ===== verification/Ethereum.v ===== *)
(** The program that uses the JSON-RPC client (example/client/jsonrpc/main.cpp and
    eth_methods.hpp).

    co_main is a program [rpc]: what it prints, connects, calls and shuts down.
    Boost.Multiprecision is the class [Multiprecision]. *)
From S2P Require Import Prelude.
From S2P Require Import Http.
From S2P Require Import Options.
From S2P Require Import Transfer.
From S2P Require Import Connect.
From S2P Require Import JsonRpc.
From S2P Require Import RpcSession.

Module Ethereum.

Import Options Transfer JsonRpc RpcSession.

(** method<Return()> and method<Return(json::array)> *)
Record method := mk_method { returned : returns; takes_array : bool; name : str }.

Definition web3_clientVersion : method := mk_method RString false $"web3_clientVersion".
Definition eth_blockNumber : method := mk_method RString false $"eth_blockNumber".
Definition eth_getBlockByNumber : method := mk_method RObject true $"eth_getBlockByNumber".
Definition eth_getBalance : method := mk_method RString true $"eth_getBalance".
Definition eth_estimateGas : method := mk_method RString true $"eth_estimateGas".
Definition eth_gasPrice : method := mk_method RString false $"eth_gasPrice".
Definition eth_call : method := mk_method RString true $"eth_call".

Class Multiprecision := {
  cpp_int : str -> exn + Z;
  (** a number divided by a power of ten, as a stream with this precision writes
      it, fixed or not *)
  write_quotient : bool -> nat -> Z -> nat -> str
}.

(** client::async_call, awaited *)
Definition async_call0 (m : method) : rpc value := AsyncCall (returned m) (name m) Null Return.
Definition async_call (m : method) (params : list value) : rpc value :=
  AsyncCall (returned m) (name m) (Array params) Return.
Definition print (s : str) : rpc unit := Print s (Return tt).
Definition async_connect : rpc unit := AsyncConnect (Return tt).
Definition async_shutdown : rpc error_code := AsyncShutdown Return.

(** A json::string and a json::object that was returned. *)
Definition text (v : value) : str := match v with String s => s | _ => [] end.
Definition fields_of (v : value) : object := match v with Object o => o | _ => [] end.

(** block["key"] *)
Definition at_key (o : object) (key : str) : value := default Null (if_contains key o).

Definition as_string (v : value) : rpc str :=
  match v with String s => Return s | _ => Raise (Thrown SystemError) end.
Definition as_array (v : value) : rpc (list value) :=
  match v with Array l => Return l | _ => Raise (Thrown SystemError) end.

Section Program.
Context `{J : Json, MP : Multiprecision} (stream_truncated : error_code).

Definition to_int (s : str) : rpc Z :=
  match cpp_int s with inl e => Raise (Thrown e) | inr n => Return n end.

Definition newline : str := [chr 10].

Definition addr1 : str := $"0xde0b295669a9fd93d5f28d9ec85e40f4cb697bae".
Definition addr2 : str := $"0x281055afc982d96fab65b3a49cac8b878184cb16".

(** The transaction whose gas is estimated, and the call of the price feed. *)
Definition transaction : value :=
  Object [($"from", String addr1); ($"to", String addr2); ($"value", String $"0x2386F26FC10000")].
Definition price_feed : value :=
  Object [($"to", String $"0x5f4ec3df9cbd43714fe2740f5e3616155c5b8419");
          ($"data", String $"0x50d25bcd")].

Definition print_block (block : object) : rpc unit :=
  _ ← print ($"Block hash:   " ++ serialize (at_key block $"hash") ++ newline);
  _ ← print $"Block size:   ";
  size ← as_string (at_key block $"size");
  size ← to_int size;
  _ ← print (show_Z size ++ $" Bytes" ++ newline);
  _ ← print $"Timestamp:    ";
  time ← as_string (at_key block $"timestamp");
  time ← to_int time;
  _ ← print (show_Z time ++ newline);
  _ ← print $"Transactions: ";
  txs ← as_array (at_key block $"transactions");
  print (show_Z (Z.of_nat (length txs)) ++ newline).

Definition co_main : rpc unit :=
  _ ← async_connect;
  _ ← print $"web3 client:  ";
  version ← async_call0 web3_clientVersion;
  _ ← print (serialize version ++ newline);
  block_num ← async_call0 eth_blockNumber;
  _ ← print $"Block number: ";
  n ← to_int (text block_num);
  _ ← print (show_Z n ++ newline);
  block ← async_call eth_getBlockByNumber [block_num; Bool false];
  _ ← print_block (fields_of block);
  balance ← async_call eth_getBalance [String addr1; block_num];
  _ ← print $"Balance:      ";
  n ← to_int (text balance);
  _ ← print (write_quotient false 18 n 18 ++ $" ETH" ++ newline);
  gas_estimate ← async_call eth_estimateGas [transaction];
  _ ← print $"Gas estimate: ";
  n ← to_int (text gas_estimate);
  _ ← print (show_Z n ++ newline);
  gas_price ← async_call0 eth_gasPrice;
  _ ← print $"Gas price:    ";
  n ← to_int (text gas_price);
  _ ← print (write_quotient false 3 n 10 ++ $" GWEI" ++ newline);
  eth_usd ← async_call eth_call [price_feed; String $"latest"];
  _ ← print $"ETH/USD:      ";
  n ← to_int (text eth_usd);
  _ ← print (write_quotient true 3 n 8 ++ newline);
  ec ← async_shutdown;
  if failed ec && negb (bool_decide (ec = stream_truncated))
  then Raise (Failed ec None)
  else Return tt.

(** The exit code of main. *)
Definition main (r : comp failure unit) : Z := match r with Ok _ => 0 | _ => 1 end.

(** The calls of co_main, in order. *)
Definition methods : list str :=
  map name [web3_clientVersion; eth_blockNumber; eth_getBlockByNumber; eth_getBalance;
            eth_estimateGas; eth_gasPrice; eth_call].

Lemma scripted_silent {A B} ms (p : rpc A) (f : A -> rpc B) :
  scripted [] p -> (forall a, scripted ms (f a)) -> scripted ms (p ≫= f).
Proof. intros Hp Hf. by apply (scripted_bind p f ms []). Qed.

Lemma scripted_call {B} ms m p (f : value -> rpc B) :
  (forall v, scripted ms (f v)) ->
  scripted (name m :: ms) (AsyncCall (returned m) (name m) p Return ≫= f).
Proof. intros Hf. by apply (scripted_bind _ f ms [name m]). Qed.

Lemma silent_parts :
  (forall s, scripted [] (print s)) /\ (forall s, scripted [] (to_int s)) /\
  (forall v, scripted [] (as_string v)) /\ (forall v, scripted [] (as_array v)).
Proof.
  split_and!; [done|intros s; unfold to_int; by destruct (cpp_int s)|by intros []..].
Qed.

(** Steps to a program that calls nothing, or to the next call. *)
Ltac silent :=
  repeat first [progress intros|apply scripted_silent; [by auto|]|by auto].

Lemma scripted_block block : scripted [] (print_block block).
Proof. destruct silent_parts as (? & ? & ? & ?). unfold print_block. silent. Qed.

Lemma scripted_co_main : scripted methods co_main.
Proof.
  pose proof scripted_block. destruct silent_parts as (? & ? & ? & ?). unfold co_main, methods, async_call0, async_call. cbn [map].
  do 7 (silent; apply scripted_call). silent. by destruct (_ && _).
Qed.

(** Against any procedures it calls these, in this order, until something fails,
    and all of them when it succeeds. *)
Lemma co_main_calls f close n :
  let '(_, l, r) := run_local f close n co_main in
  map fst l `prefix_of` methods /\ (main r = 0 -> map fst l = methods).
Proof.
  pose proof (scripted_local f close co_main methods n scripted_co_main) as HS.
  destruct (run_local f close n co_main) as [[o l] r]. destruct HS as [Hp Hr].
  split; [done|]. destruct r as [a|e|]; [intros _; by apply (Hr a)|done..].
Qed.

End Program.

(** ** The output that main.cpp gives as a sample *)

Definition hex_digit (c : ascii) : option Z :=
  if is_digit c then Some (uchar c - 48)
  else if (97 <=? uchar c) && (uchar c <=? 102) then Some (uchar c - 87) else None.

Fixpoint from_hex (acc : Z) (s : str) : option Z :=
  match s with
  | [] => Some acc
  | c :: s => d ← hex_digit c; from_hex (16 * acc + d) s
  end.

(** The last digits that are not zero, of at most [k]. *)
Fixpoint fraction (k : nat) (n : Z) : str :=
  match k with
  | O => []
  | S k => if n =? 0 then [] else dec (n / 10 ^ Z.of_nat k) ++ fraction k (n mod 10 ^ Z.of_nat k)
  end.

(** All digits of a quotient, which are as many as the precision allows here. *)
#[local] Instance all_digits : Multiprecision := {
  cpp_int s :=
    match s with
    | "0"%char :: "x"%char :: s =>
        match from_hex 0 s with Some n => inr n | None => inl (RuntimeError []) end
    | _ => inl (RuntimeError [])
    end;
  write_quotient _ _ n k :=
    dec (n / 10 ^ Z.of_nat k) ++ $"." ++ fraction k (n mod 10 ^ Z.of_nat k)
}.

(** Values as the sample shows them: strings are quoted. *)
#[local] Instance quoting : Json := {
  serialize v := match v with String s => [chr 34] ++ s ++ [chr 34] | _ => $"null" end;
  try_value_to _ _ := inl (mk_code $"boost.json" 1)
}.

Definition sample_node (_ : Z) (m : str) (p : value) : (Z * str) + value :=
  if m =s $"web3_clientVersion" then inr (String $"erigon/3.0.4/linux-amd64/go1.23.9")
  else if m =s $"eth_blockNumber" then inr (String $"0x161d7ed")
  else if m =s $"eth_getBlockByNumber" then
    inr (Object [($"hash", String $"0xc42f"); ($"size", String $"0x203ea");
                 ($"timestamp", String $"0x68a71237"); ($"transactions", Array [Null; Null])])
  else if m =s $"eth_getBalance" then inr (String $"0x2647cc23d6974be28800")
  else if m =s $"eth_estimateGas" then inr (String $"0x5208")
  else if m =s $"eth_gasPrice" then inr (String $"0x173eed80")
  else if m =s $"eth_call" then inr (String $"0x63ab3c0640")
  else inl (-32601, $"no").

Definition sample_output : str :=
  mjoin [$"web3 client:  "; [chr 34]; $"erigon/3.0.4/linux-amd64/go1.23.9"; [chr 34]; newline;
         $"Block number: 23189485"; newline;
         $"Block hash:   "; [chr 34]; $"0xc42f"; [chr 34]; newline;
         $"Block size:   132074 Bytes"; newline;
         $"Timestamp:    1755779639"; newline;
         $"Transactions: 2"; newline;
         $"Balance:      180774.35501503312 ETH"; newline;
         $"Gas estimate: 21000"; newline;
         $"Gas price:    0.039 GWEI"; newline;
         $"ETH/USD:      4280.746"; newline].

Example sample_run :
  let '(o, _, r) := run_local sample_node no_error 0 (co_main no_error) in
  (mjoin o, main r) = (sample_output, 0).
Proof. vm_compute. reflexivity. Qed.

End Ethereum.
