(* ===== verification/Get.v ===== *)
(** The get client (example/client/get/main.cpp): a session of callbacks.

    A session always has one operation under way, the [pending] one; [step] is
    the callback that its completion runs.  [conn] is what stream_ is connected
    to. *)
From S2P Require Import Prelude.
From S2P Require Import Http.
From S2P Require Import Options.
From S2P Require Import Transfer.

Module Get.

Import Options Transfer.

(** fields_base::append leaves the fields that are there in front. *)
Class Append `{Fields} := append_field : str -> str -> fields -> fields.
Class AppendLaws `{Append} : Prop :=
  find_append_law a n v f :
    find_field a (append_field n v f) =
    match find_field a f with
    | Some x => Some x
    | None => if same_name a n then Some v else None
    end.

Section Session.
Context `{L : Libs, W : !Web, F : Fields, A : !Append}.

Record connection := mk_connection {
  c_host : str;
  c_port : str;
  c_verified : option str               (* the host of the TLS handshake *)
}.

Inductive pending :=
| PResolve | PConnect | PHandshake | PWrite | PHeader | PDiscard | PShutdown | PBody
| PFinalShutdown | PNone.

Record session := mk_session {
  url_ : url;
  host_ : str;
  port_ : str;
  max_redirects_ : Z;
  secure_ : bool;
  req_ : request;
  conn : option connection
}.

(** An error_code: its message, and whether it is one of the two values the program
    compares with, asio::ssl::error::stream_truncated and errc::not_connected. *)
Record error_code := mk_error {
  message : str;
  stream_truncated : bool;
  not_connected : bool
}.

(** A completion: the error, if any, that of the synchronous call its callback
    makes (SNI, or the shutdown of a plain socket), and the parsed header. *)
Record completion := mk_completion {
  ec : option error_code;
  sync_error : option error_code;
  answer : response
}.

Inductive output :=
| Printed (s : str)                                     (* on stderr *)
| Sent (tls : bool) (u : url) (r : request) (c : option connection)
| Discarding (tls : bool) (c : option connection).      (* async_read on stream_ *)

Definition result := (session * pending * list output)%type.

Definition fail (s : session) (what : str) : result := (s, PNone, [Printed (what ++ [chr 10])]).
Definition fail_ec (s : session) (e operation : str) : result :=
  (s, PNone, [Printed (operation ++ $": " ++ e ++ [chr 10])]).

Definition is_redirect (s : Z) : bool :=
  (s =? 301) || (s =? 302) || (s =? 303) || (s =? 307) || (s =? 308).

Definition can_reuse_connection (r : response) (a b : url) : bool :=
  if negb (encoded_origin a =s encoded_origin b) then false
  else if negb (res_version r =? 11) then false
  else if close r then false
  else true.

Definition is_https (u : url) : bool := scheme u =s $"https".

Definition do_resolve (s : session) : result :=
  let u := url_ s in
  let s := mk_session u (host_ s) (port_ s) (max_redirects_ s) (is_https u) (req_ s) None in
  match (if has_port u then Some (port u)
         else if is_https u then Some $"443"
         else if scheme u =s $"http" then Some $"80"
         else None) with
  | None => fail s $"Unsupported URL scheme"
  | Some p =>
      (mk_session u (url_host u) p (max_redirects_ s) (secure_ s) (req_ s) (conn s), PResolve, [])
  end.

Definition set_conn (c : connection) (s : session) : session :=
  mk_session (url_ s) (host_ s) (port_ s) (max_redirects_ s) (secure_ s) (req_ s) (Some c).

Definition do_write (s : session) : result :=
  (s, PWrite, [Sent (secure_ s) (url_ s) (req_ s) (conn s)]).

Definition on_resolve (s : session) (x : completion) : result :=
  match ec x with
  | Some e => fail_ec s (message e) $"resolve"
  | None => (s, PConnect, [])
  end.

Definition on_connect (s : session) (x : completion) : result :=
  match ec x with
  | Some e => fail_ec s (message e) $"connect"
  | None =>
      let s := set_conn (mk_connection (host_ s) (port_ s) None) s in
      if secure_ s then
        match sync_error x with
        | Some e => fail_ec s (message e) $"SSL_set_tlsext_host_name"
        | None => (s, PHandshake, [])
        end
      else do_write s
  end.

Definition on_ssl_handshake (s : session) (x : completion) : result :=
  match ec x with
  | Some e => fail_ec s (message e) $"handshake"
  | None => do_write (set_conn (mk_connection (host_ s) (port_ s) (Some (host_ s))) s)
  end.

Definition on_write (s : session) (x : completion) : result :=
  match ec x with
  | Some e => fail_ec s (message e) $"write"
  | None => (s, PHeader, [])
  end.

Definition on_redirect_response (s : session) (r : response) : result :=
  if max_redirects_ s =? 0 then fail s $"Maximum redirects followed"
  else
    let s := mk_session (url_ s) (host_ s) (port_ s) (max_redirects_ s - 1) (secure_ s) (req_ s)
               (conn s) in
    match find_all $"Location" r with
    | [] => fail s $"Bad redirect response"
    | v :: _ =>
        match resolve (url_ s) v with
        | None => fail_ec s $"parse" $"Bad redirect URL"
        | Some u =>
            let q := put_target (encoded_target u) (req_ s) in
            let q := set $"Referer" (buffer (url_ s)) q in
            let q := set $"Host" (host_and_port u) q in
            let reuse_conn := can_reuse_connection r (url_ s) u in
            let s := mk_session u (host_ s) (port_ s) (max_redirects_ s) (secure_ s) q (conn s) in
            if reuse_conn then (s, PDiscard, [Discarding true (conn s)])
            else if secure_ s then (s, PShutdown, [])
            else do_resolve s
        end
    end.

Definition on_read_header (s : session) (x : completion) : result :=
  match ec x with
  | Some e => fail_ec s (message e) $"read_header"
  | None =>
      if is_redirect (status (answer x)) then on_redirect_response s (answer x)
      else (s, PBody, [])
  end.

(** The lambda that completes the read of a redirect's body. *)
Definition on_discard (s : session) (x : completion) : result :=
  match ec x with
  | Some _ => do_resolve s
  | None => do_write s
  end.

Definition on_read (s : session) (x : completion) : result :=
  match ec x with
  | Some e => fail_ec s (message e) $"read"
  | None =>
      if secure_ s then (s, PFinalShutdown, [])
      else match sync_error x with
           | Some e =>
               if negb (not_connected e) then fail_ec s (message e) $"shutdown"
               else (s, PNone, [])
           | None => (s, PNone, [])
           end
  end.

Definition on_final_shutdown (s : session) (x : completion) : result :=
  match ec x with
  | Some e =>
      if negb (stream_truncated e) then fail_ec s (message e) $"shutdown" else (s, PNone, [])
  | None => (s, PNone, [])
  end.

Definition step (s : session) (p : pending) (x : completion) : result :=
  match p with
  | PResolve => on_resolve s x
  | PConnect => on_connect s x
  | PHandshake => on_ssl_handshake s x
  | PWrite => on_write s x
  | PHeader => on_read_header s x
  | PDiscard => on_discard s x
  | PShutdown => do_resolve s
  | PBody => on_read s x
  | PFinalShutdown => on_final_shutdown s x
  | PNone => (s, PNone, [])
  end.

Definition add_encoding (has : bool) (v : str) (r : request) : request :=
  if has then mk_request (method r) (version r) (target r)
                (append_field $"Accept-Encoding" v (hdrs r))
  else r.

(** session::run *)
Definition run (has_brotli has_zlib : bool) (u : url) : result :=
  let q := mk_request $"GET" 11 $"/" no_fields in
  let q := match encoded_target u with [] => q | t => put_target t q end in
  let q := set $"User-Agent" $"Boost.Http.Io" q in
  let q := set $"Host" (host_and_port u) q in
  let q := add_encoding has_brotli $"br" q in
  let q := add_encoding has_zlib $"deflate, gzip" q in
  do_resolve (mk_session u [] [] 50 false q None).

(** main: the usage, the exception of the constructor of url, which nothing
    catches, or a session; [has_authority] is that of the URL.  A session that
    fails only prints: main returns EXIT_SUCCESS after it. *)
Inductive program :=
| Usage
| Uncaught (e : exn)
| Undefined
| Session (x : result).

Definition main (has_brotli has_zlib : bool) (has_authority : url -> bool)
    (argc : Z) (arg : str) : program :=
  if negb (argc =? 2) then Usage
  else
    match parse_url arg with
    | Ok u => if negb (has_authority u) then Usage else Session (run has_brotli has_zlib u)
    | Err e => Uncaught e
    | UB => Undefined
    end.

Definition exit_code (p : program) : option Z :=
  match p with
  | Usage => Some 1
  | Session _ => Some 0
  | Uncaught _ | Undefined => None
  end.

(** stdout_sink::on_write: what standard output has then, and results::bytes. *)
Definition stdout_sink (out cb : str) (_ : bool) : str * Z := (out ++ cb, Z.of_nat (length cb)).

Fixpoint steps (x : result) (xs : list completion) : result :=
  match xs with
  | [] => x
  | c :: xs =>
      let '(s, p, os) := x in
      let '(s, p, os') := step s p c in
      steps (s, p, os ++ os') xs
  end.

End Session.

(** ** What holds between the callbacks *)

Section Properties.
Context `{L : Libs, W : !Web, F : Fields, A : !Append}.

(** A request as the session may send it. *)
Definition sent_ok (x : output) : Prop :=
  match x with
  | Sent tls u r c =>
      tls = is_https u /\ header r $"Host" = Some (host_and_port u) /\
      exists k, c = Some k /\ c_host k = url_host u /\
        (tls = true -> c_verified k = Some (url_host u))
  | _ => True
  end.

Definition is_sent (x : output) : bool := match x with Sent _ _ _ _ => true | _ => false end.

(** The phases with a connection that can carry a request. *)
Definition connected_phase (p : pending) : bool :=
  match p with PWrite | PHeader | PDiscard | PBody => true | _ => false end.

Record session_inv (s : session) (p : pending) : Prop := {
  si_host_field : p <> PNone -> header (req_ s) $"Host" = Some (host_and_port (url_ s));
  si_url : p <> PNone -> p <> PShutdown ->
    secure_ s = is_https (url_ s) /\ host_ s = url_host (url_ s);
  si_handshake : p = PHandshake -> secure_ s = true;
  si_conn : connected_phase p = true ->
    exists k, conn s = Some k /\ c_host k = url_host (url_ s) /\
      (secure_ s = true -> c_verified k = Some (url_host (url_ s)));
  si_redirects : 0 <= max_redirects_ s
}.

(** How many completions may still come: at most nine for each redirect. *)
Definition rank (p : pending) : Z :=
  match p with
  | PNone => 0 | PFinalShutdown => 1 | PBody => 2 | PHeader => 3 | PWrite => 4
  | PHandshake => 5 | PConnect => 6 | PResolve => 7 | PDiscard | PShutdown => 8
  end.

Definition measure (s : session) (p : pending) : Z :=
  match p with PNone => 0 | _ => 9 * max_redirects_ s + rank p end.

(** How many requests may still be sent. *)
Definition budget (s : session) (p : pending) : Z :=
  match p with
  | PNone | PFinalShutdown | PBody => 0
  | PHeader | PWrite => max_redirects_ s
  | _ => max_redirects_ s + 1
  end.

Definition sends (os : list output) : Z := Z.of_nat (length (List.filter is_sent os)).

(** What one callback may do from [s] with [p] pending. *)
Definition good (s : session) (p : pending) (x : result) : Prop :=
  let '(s', p', os) := x in
  session_inv s' p' /\ Forall sent_ok os /\
  (p <> PNone -> measure s' p' < measure s p) /\ budget s' p' + sends os <= budget s p.

Lemma fail_good s p os :
  0 <= max_redirects_ s -> Forall sent_ok os -> sends os = 0 -> p <> PNone ->
  forall s', 0 <= max_redirects_ s' -> good s p (s', PNone, os).
Proof.
  intros Hm Ho Hs Hp s' Hm'. repeat split; try done.
  - destruct p; done || (unfold measure, rank; lia).
  - unfold budget at 1. rewrite Hs. destruct p; simpl; lia.
Qed.

Lemma printed_ok s : Forall sent_ok [Printed s].
Proof. by repeat constructor. Qed.

Hint Resolve printed_ok : core.

Lemma do_resolve_good s0 p s :
  header (req_ s) $"Host" = Some (host_and_port (url_ s)) -> 0 <= max_redirects_ s ->
  9 * max_redirects_ s + 7 < measure s0 p -> max_redirects_ s + 1 <= budget s0 p ->
  0 <= max_redirects_ s0 -> p <> PNone -> good s0 p (do_resolve s).
Proof.
  intros Hh Hr Hm Hb H0 Hp. unfold do_resolve.
  destruct (if has_port (url_ s) then _ else _); [|by apply fail_good].
  repeat split; try done. unfold sends. simpl. lia.
Qed.

Lemma do_write_good s0 p s k :
  header (req_ s) $"Host" = Some (host_and_port (url_ s)) -> 0 <= max_redirects_ s ->
  secure_ s = is_https (url_ s) -> host_ s = url_host (url_ s) ->
  conn s = Some k -> c_host k = url_host (url_ s) ->
  (secure_ s = true -> c_verified k = Some (url_host (url_ s))) ->
  9 * max_redirects_ s + 4 < measure s0 p -> max_redirects_ s + 1 <= budget s0 p ->
  p <> PNone -> good s0 p (do_write s).
Proof.
  intros Hh Hr Hs Ho Hc Hk Hv Hm Hb Hp. unfold do_write. repeat split; try done.
  - by eexists.
  - repeat constructor; try done. by eexists.
Qed.

(** The arithmetic of [measure] and [budget]. *)
Ltac count :=
  unfold measure, budget, sends, set_conn; cbn [rank is_sent List.filter length max_redirects_];
  intros; lia.

Lemma redirect_good `{!FieldsLaws, !Origins} s r :
  session_inv s PHeader -> good s PHeader (on_redirect_response s r).
Proof.
  intros [Hh Hu _ Hc Hr]. destruct (Hu ltac:(done) ltac:(done)) as [Hs Ho].
  destruct (Hc eq_refl) as (k & Hk & Hkh & Hkv). unfold on_redirect_response.
  cbv zeta. cbn [url_ req_ conn host_ port_ secure_ max_redirects_].
  destruct (Z.eqb_spec (max_redirects_ s) 0); [by apply fail_good|].
  destruct (find_all $"Location" r) as [|v l]; [apply fail_good; simpl; done || lia|].
  destruct (resolve (url_ s) v) as [u|]; [|apply fail_good; simpl; done || lia].
  assert (forall q, header (set $"Host" (host_and_port u) q) $"Host" = Some (host_and_port u)) as Hq.
  { intros q. by rewrite header_set, same_name_refl. }
  destruct (can_reuse_connection r (url_ s) u) eqn:Er;
    [|destruct (secure_ s) eqn:Es; [|apply do_resolve_good; simpl; done || lia || apply Hq]].
  - unfold can_reuse_connection in Er. destruct (bool_decide_reflect
      (encoded_origin (url_ s) = encoded_origin u)) as [He|]; [|done].
    pose proof (origin_host _ _ He) as Hoh. pose proof (origin_scheme _ _ He) as Hos.
    repeat split; cbn [secure_ host_ req_ url_ conn max_redirects_]; try done; try lia;
      try (by intros; apply Hq).
    + rewrite Hs. unfold is_https. by rewrite Hos.
    + congruence.
    + intros _. exists k. rewrite <- Hoh. done.
    + by repeat constructor.
    + count.
    + count.
  - repeat split; cbn [secure_ host_ req_ url_ conn max_redirects_]; try done; try lia;
      try (by intros; apply Hq).
    + count.
    + count.
Qed.

(** A callback that leaves the session as it is. *)
Ltac keep :=
  repeat split; intros; try done;
  first [ assumption | cbn; congruence | split; cbn; congruence | count
        | match goal with HH : _ -> _ |- _ => by apply HH end
        | match goal with HH : _ -> _ -> _ |- _ => by apply HH end ].

Lemma step_good `{!FieldsLaws, !Origins} s p x : session_inv s p -> good s p (step s p x).
Proof.
  intros HI. pose proof HI as [Hh Hu Hhs Hc Hr]. destruct p; cbn [step].
  - unfold on_resolve. destruct (ec x); [by apply fail_good|].
    keep.
  - destruct (Hu ltac:(done) ltac:(done)) as [Hs Ho]. specialize (Hh ltac:(done)).
    unfold on_connect. destruct (ec x); [by apply fail_good|]. cbn [secure_ set_conn].
    destruct (secure_ s) eqn:Es; [destruct (sync_error x); [by apply fail_good|]|].
    + keep.
    + eapply do_write_good; simpl; try done; try lia; congruence.
  - destruct (Hu ltac:(done) ltac:(done)) as [Hs Ho]. specialize (Hh ltac:(done)).
    unfold on_ssl_handshake. destruct (ec x); [by apply fail_good|].
    eapply do_write_good; simpl; try done; try lia; intros; simpl in *; congruence.
  - destruct (Hu ltac:(done) ltac:(done)) as [Hs Ho]. specialize (Hh ltac:(done)).
    unfold on_write. destruct (ec x); [by apply fail_good|].
    keep.
  - unfold on_read_header. destruct (ec x); [by apply fail_good|].
    destruct (is_redirect (status (answer x))); [by apply redirect_good|].
    keep.
  - destruct (Hu ltac:(done) ltac:(done)) as [Hs Ho]. specialize (Hh ltac:(done)).
    destruct (Hc eq_refl) as (k & Hk & Hkh & Hkv).
    unfold on_discard. destruct (ec x); [apply do_resolve_good; simpl; done || lia|].
    eapply do_write_good; simpl; try done; lia.
  - specialize (Hh ltac:(done)). apply do_resolve_good; simpl; done || lia.
  - destruct (Hu ltac:(done) ltac:(done)) as [Hs Ho]. specialize (Hh ltac:(done)).
    unfold on_read. destruct (ec x); [by apply fail_good|]. destruct (secure_ s) eqn:Es.
    + keep.
    + destruct (sync_error x) as [e|]; [destruct (not_connected e)|]; by apply fail_good.
  - unfold on_final_shutdown. destruct (ec x) as [e|]; [destruct (stream_truncated e)|];
      by apply fail_good.
  - keep.
Qed.

Lemma session_steps_app (xs ys : list completion) : forall x, steps x (xs ++ ys) = steps (steps x xs) ys.
Proof.
  induction xs as [|c xs IH]; intros [[s p] os]; [done|]. simpl.
  destruct (step s p c) as [[s' p'] os']. apply IH.
Qed.

Lemma sends_app a b : sends (a ++ b) = sends a + sends b.
Proof. unfold sends. rewrite List.filter_app, length_app. lia. Qed.

(** After any completions: the invariant, the outputs, the two bounds. *)
Lemma steps_good `{!FieldsLaws, !Origins} xs : forall s p os s' p' os',
  session_inv s p -> Forall sent_ok os -> steps (s, p, os) xs = (s', p', os') ->
  session_inv s' p' /\ Forall sent_ok os' /\
  (p' <> PNone -> measure s' p' + Z.of_nat (length xs) <= measure s p) /\
  budget s' p' + sends os' <= budget s p + sends os.
Proof.
  induction xs as [|c xs IH]; intros s p os s' p' os' HI Ho HS; simpl in HS.
  { injection HS as <- <- <-. split; [done|]. split; [done|]. simpl. split; lia. }
  pose proof (step_good s p c HI) as HG. destruct (step s p c) as [[s1 p1] os1] eqn:Es.
  destruct HG as (HI1 & Ho1 & Hm & Hb).
  destruct (IH _ _ _ _ _ _ HI1 ltac:(apply Forall_app; split; [exact Ho|exact Ho1]) HS)
    as (HI' & Ho' & Hm' & Hb').
  split; [done|]. split; [done|]. rewrite sends_app in Hb'. split; [|lia].
  intros Hp'. specialize (Hm' Hp').
  assert (p <> PNone) as Hp.
  { intros ->. cbn [step] in Es. injection Es as <- <- _. unfold measure at 2 in Hm'.
    pose proof (si_redirects _ _ HI'). destruct p'; try done;
      unfold measure, rank in Hm'; lia. }
  specialize (Hm Hp). rewrite length_cons. lia.
Qed.

Lemma run_good `{!FieldsLaws, !AppendLaws} brotli zlib u s p os :
  run brotli zlib u = (s, p, os) ->
  session_inv s p /\ Forall sent_ok os /\ measure s p <= 457 /\ budget s p + sends os <= 51.
Proof.
  unfold run. intros HR.
  match type of HR with do_resolve (mk_session _ _ _ _ _ ?q _) = _ => set (r := q) in HR end.
  assert (header r $"Host" = Some (host_and_port u)) as Hr.
  { assert (forall b v q, header q $"Host" = Some (host_and_port u) ->
      header (add_encoding b v q) $"Host" = Some (host_and_port u)) as Ha.
    { intros [] v q Hq; [|done]. unfold header, add_encoding in *. cbn [hdrs].
      rewrite find_append_law. by rewrite Hq. }
    unfold r. do 2 apply Ha. by rewrite header_set, same_name_refl. }
  unfold do_resolve in HR. cbn [url_ host_ port_ max_redirects_ req_ secure_ conn] in HR.
  destruct (if has_port u then _ else _); injection HR as <- <- <-.
  - split; [by split|]. split; [done|]. split; count.
  - split; [by split|]. split; [apply printed_ok|]. split; count.
Qed.


End Properties.

(** ** A session that is redirected *)

#[local] Instance test_append : Append (H := list_fields) := fun n v f => f ++ [(n, v)].

#[local] Instance test_append_laws : AppendLaws (H := list_fields) (H0 := test_append).
Proof.
  intros a n v f. cbn [find_field list_fields]. unfold append_field, test_append.
  induction f as [|[m w] f IH]; simpl; [by destruct (same_name a n)|].
  by destruct (same_name a m).
Qed.

Lemma test_origins : Origins (L := test_libs) (H := test_web).
Proof.
  split; [|done]. intros a b Hab. cbn in *.
  assert (forall u : str, take 1 (drop 7 u) = drop 7 (take 8 u)) as Hu.
  { intros u. by rewrite take_drop_commute. }
  by rewrite !Hu, Hab.
Qed.

Definition fine (r : response) : completion := mk_completion None None r.
Definition plain_response (status : Z) (l : list (str * str)) : response :=
  mk_response status 11 false None l.

Definition redirected_session : list completion :=
  map fine [plain_response 0 []; plain_response 0 []; plain_response 0 [];
            plain_response 302 [($"Location", $"http://b/2")];
            plain_response 0 []; plain_response 0 []; plain_response 0 [];
            plain_response 200 []; plain_response 0 []].

Definition test_run : result (L := test_libs) (F := list_fields) :=
  steps (W := test_web) (run (L := test_libs) (W := test_web) (F := list_fields)
    (A := test_append) true true $"http://a/1") redirected_session.


End Get.
