(* ===== verification/RequestOp.v ===== *)
(** The request operation of burl, with Expect: 100-continue
    (example/client/burl/request.hpp).

    The operation first writes the request.  When the serializer stops at the
    header (expect_100_continue), a group of two branches runs: one waits for
    the timer and then writes the body, the other reads the header of the answer.
    [next] is any step the network, the timer, the executor or a cancellation
    from outside can take; the fields after [phase] record what has happened. *)
From S2P Require Import Prelude.

Module RequestOp.

(** error_code: [None] is success. *)
Inductive error := expect_100_continue | other (what : str).

Inductive exp100 := awaiting | received | cancelled.

(** The branch of the timer: waiting, its handler queued, writing the body, done. *)
Inductive timer_branch := Waiting | Queued | WritingBody | TimerDone (ec : option error).
Inductive reader_branch := Reading | ReadingFinal | ReaderDone (ec : option error).

Inductive phase_t :=
| Writing
| ReadingHeader
| Group (state : exp100) (t : timer_branch) (r : reader_branch)
| Complete (ec : option error).

Record op := mk_op {
  phase : phase_t;
  expired : bool;                       (* the timer ran out *)
  continued : bool;                     (* 100 Continue was read *)
  refused : bool;                       (* another answer, or none, came first *)
  aborted : bool;                       (* the operation was cancelled from outside *)
  bodies : nat                          (* how often the body was written *)
}.

Definition start : op := mk_op Writing false false false false 0.

(** operator()(self, ec) after the write. *)
Definition on_write (ec : option error) (o : op) : op :=
  mk_op
    (match ec with
     | None => ReadingHeader
     | Some expect_100_continue => Group awaiting Waiting Reading
     | Some e => Complete (Some e)
     end) (expired o) (continued o) (refused o) (aborted o) (bodies o).

Definition on_read_header (ec : option error) (o : op) : op :=
  mk_op (Complete ec) (expired o) (continued o) (refused o) (aborted o) (bodies o).

(** timer.cancel(): a waiting timer completes, a queued handler stays. *)
Definition cancel_timer (t : timer_branch) : timer_branch :=
  match t with Waiting => Queued | _ => t end.

(** The handler of the timer. *)
Definition on_timer (state : exp100) (r : reader_branch) (o : op) : op :=
  match state with
  | cancelled =>
      mk_op (Group state (TimerDone None) r) (expired o) (continued o) (refused o) (aborted o) (bodies o)
  | _ =>
      mk_op (Group state WritingBody r) (expired o) (continued o) (refused o) (aborted o) (S (bodies o))
  end.

(** The handler of the first read of a header. *)
Definition on_header (ec : option error) (status : Z) (t : timer_branch) (o : op) : op :=
  let t := cancel_timer t in
  match ec with
  | None =>
      if status =? 100
      then mk_op (Group received t ReadingFinal) (expired o) true (refused o) (aborted o) (bodies o)
      else mk_op (Group cancelled t (ReaderDone None)) (expired o) (continued o) true (aborted o) (bodies o)
  | Some e =>
      mk_op (Group cancelled t (ReaderDone (Some e))) (expired o) (continued o) true (aborted o) (bodies o)
  end.

(** operator()(self, order, ec1, n1, ec2, n2) *)
Definition on_group (ec1 ec2 : option error) (o : op) : op :=
  mk_op (Complete (match ec1 with Some e => Some e | None => ec2 end))
    (expired o) (continued o) (refused o) (aborted o) (bodies o).

Definition set_group (p : phase_t) (o : op) : op :=
  mk_op p (expired o) (continued o) (refused o) (aborted o) (bodies o).

(** A cancellation of the whole operation, which total cancellation lets through:
    what is under way may end with any error, and a waiting timer completes. *)
Definition on_cancel (o : op) : op :=
  mk_op (match phase o with Group st t r => Group st (cancel_timer t) r | p => p end)
    (expired o) (continued o) (refused o) true (bodies o).

Definition completed (p : phase_t) : bool :=
  match p with Complete _ => true | _ => false end.

(** A cancellation can come at any time before the end, and more than one can; one
    that changes nothing is not a step. *)
Inductive next (o : op) : op -> Prop :=
| next_cancel : completed (phase o) = false -> on_cancel o <> o -> next o (on_cancel o)
| next_write ec : phase o = Writing -> next o (on_write ec o)
| next_read_header ec : phase o = ReadingHeader -> next o (on_read_header ec o)
| next_expire st r :
    phase o = Group st Waiting r ->
    next o (mk_op (Group st Queued r) true (continued o) (refused o) (aborted o) (bodies o))
| next_timer st r : phase o = Group st Queued r -> next o (on_timer st r o)
| next_body st r ec :
    phase o = Group st WritingBody r -> next o (set_group (Group st (TimerDone ec) r) o)
| next_header st t ec status :
    phase o = Group st t Reading -> next o (on_header ec status t o)
| next_final st t ec :
    phase o = Group st t ReadingFinal -> next o (set_group (Group st t (ReaderDone ec)) o)
| next_group st ec1 ec2 :
    phase o = Group st (TimerDone ec1) (ReaderDone ec2) -> next o (on_group ec1 ec2 o).

(** ** What every interleaving keeps *)

Definition timer_started (t : timer_branch) : bool :=
  match t with WritingBody | TimerDone _ => true | _ => false end.

Definition op_inv (o : op) : Prop :=
  (bodies o <= 1)%nat /\
  (bodies o = 1%nat -> expired o = true \/ continued o = true \/ aborted o = true) /\
  (continued o && refused o = false) /\
  match phase o with
  | Writing | ReadingHeader =>
      bodies o = 0%nat /\ expired o = false /\ continued o = false /\ refused o = false
  | Group st t r =>
      (st = awaiting <-> r = Reading) /\ (st = received <-> continued o = true) /\
      (st = cancelled <-> refused o = true) /\
      (r = Reading -> t = Waiting \/ expired o = true \/ aborted o = true) /\
      (timer_started t = false -> bodies o = 0%nat) /\
      (timer_started t = true -> st <> cancelled -> bodies o = 1%nat) /\
      (st <> awaiting -> t <> Waiting) /\
      (expired o = false -> aborted o = false -> st = cancelled -> bodies o = 0%nat)
  | Complete _ =>
      (continued o = true -> bodies o = 1%nat) /\
      (expired o = false -> aborted o = false -> refused o = true -> bodies o = 0%nat)
  end.

Ltac cases :=
  repeat split; intros; simpl in *; subst; try done; try lia;
  try (by left); try (by right); intuition congruence.

Lemma exchange_start : op_inv start.
Proof. unfold op_inv, start. cases. Qed.

Lemma inv_next o o' : op_inv o -> next o o' -> op_inv o'.
Proof.
  intros HI HN. destruct o as [p e c f a b]. unfold op_inv in *. simpl in *.
  destruct HN as [Hd Ha|ec Hp|ec Hp|st r Hp|st r Hp|st r ec Hp|st t ec n Hp|st t ec Hp|st ec1 ec2 Hp];
    simpl in *; try subst p.
  - destruct p as [| |st t r|ec]; [| | |done]; unfold on_cancel; simpl; clear Ha.
    + destruct HI as (Hb & Hc & Hx & -> & -> & -> & ->). cases.
    + destruct HI as (Hb & Hc & Hx & -> & -> & -> & ->). cases.
    + destruct HI as (Hb & Hc & Hx & H1 & H2 & H3 & H4 & H5 & H6 & H7 & H8).
      destruct t; simpl in *; cases.
  - destruct HI as (Hb & Hc & Hx & -> & -> & -> & ->). destruct ec as [[|w]|]; simpl; cases.
  - destruct HI as (Hb & Hc & Hx & -> & -> & -> & ->). cases.
  - destruct HI as (Hb & Hc & Hx & H1 & H2 & H3 & H4 & H5 & H6 & H7 & H8). cases.
  - destruct HI as (Hb & Hc & Hx & H1 & H2 & H3 & H4 & H5 & H6 & H7 & H8).
    destruct st; simpl; cases.
  - destruct HI as (Hb & Hc & Hx & H1 & H2 & H3 & H4 & H5 & H6 & H7 & H8). cases.
  - destruct HI as (Hb & Hc & Hx & H1 & H2 & H3 & H4 & H5 & H6 & H7 & H8).
    unfold on_header. destruct ec as [w|]; simpl; [|destruct (n =? 100); simpl];
      destruct t, c, f; simpl in *; cases.
  - destruct HI as (Hb & Hc & Hx & H1 & H2 & H3 & H4 & H5 & H6 & H7 & H8). cases.
  - destruct HI as (Hb & Hc & Hx & H1 & H2 & H3 & H4 & H5 & H6 & H7 & H8). cases.
Qed.

(** ** Every run ends *)

Definition is_complete (o : op) : Prop := exists ec, phase o = Complete ec.

Definition timer_rank (t : timer_branch) : nat :=
  match t with Waiting => 3 | Queued => 2 | WritingBody => 1 | TimerDone _ => 0 end.
Definition reader_rank (r : reader_branch) : nat :=
  match r with Reading => 2 | ReadingFinal => 1 | ReaderDone _ => 0 end.

Definition measure (o : op) : nat :=
  (if aborted o then 0 else 1) +
  match phase o with
  | Writing => 7
  | ReadingHeader => 1
  | Group _ t r => S (timer_rank t + reader_rank r)
  | Complete _ => 0
  end.

(** What a cancellation that changes something finds. *)
Lemma on_cancel_changes o :
  on_cancel o <> o -> aborted o = false \/ exists st r, phase o = Group st Waiting r.
Proof.
  destruct o as [p e c f [] b]; [right|by left]. destruct p as [| |st t r|]; try done.
  destruct t; [by eexists _, _|done..].
Qed.

Lemma next_measure o o' : next o o' -> (measure o' < measure o)%nat.
Proof.
  intros HN. destruct HN as [Hd Ha|ec Hp|ec Hp|st r Hp|st r Hp|st r ec Hp|st t ec n Hp|st t ec Hp|st ec1 ec2 Hp];
    unfold measure, on_timer, on_header, on_cancel; rewrite ?Hp.
  - destruct (on_cancel_changes o Ha) as [Hf|(st & r & Hp)].
    + rewrite Hf. simpl. destruct (phase o) as [| |st [] r|]; simpl; lia.
    + rewrite Hp. simpl. destruct (aborted o); lia.
  - destruct ec as [[|w]|]; simpl; lia.
  - simpl. lia.
  - simpl. lia.
  - destruct st; simpl; lia.
  - simpl. lia.
  - destruct ec as [w|]; [|simpl; destruct (n =? 100)]; destruct t; simpl; lia.
  - simpl. lia.
  - simpl. lia.
Qed.

(** Some step can always be taken before the end. *)
Lemma next_enabled o : is_complete o \/ exists o', next o o'.
Proof.
  destruct (phase o) as [| |st t r|ec] eqn:Hp.
  - right. eexists. by apply (next_write o None).
  - right. eexists. by apply (next_read_header o None).
  - right. destruct t as [| | |ec1].
    + eexists. by eapply next_expire.
    + eexists. by eapply next_timer.
    + eexists. by apply (next_body o st r None).
    + destruct r as [| |ec2].
      * eexists. by apply (next_header o st (TimerDone ec1) None 200).
      * eexists. by apply (next_final o st (TimerDone ec1) None).
      * eexists. by eapply next_group.
  - left. by exists ec.
Qed.

(** C26: however the answers, the timer, the handlers and the cancellations from
    outside interleave, the operation completes; the body is written at most once,
    and only after the timer ran out, 100 Continue was read or the operation was
    cancelled; when it completes, the body has been written if 100 Continue was
    read, and it has not if another answer came before the timer ran out and the
    operation was not cancelled. *)
Theorem expect_100_protocol o :
  reaches next start o ->
  eventually next is_complete o /\ (bodies o <= 1)%nat /\
  (bodies o = 1%nat -> expired o = true \/ continued o = true \/ aborted o = true) /\
  (is_complete o -> continued o = true -> bodies o = 1%nat) /\
  (is_complete o -> expired o = false -> aborted o = false -> refused o = true ->
   bodies o = 0%nat).
Proof.
  intros HR. split.
  { apply (eventually_measure next is_complete (fun _ => True) measure); [|done].
    intros s _. destruct (next_enabled s) as [?|?]; [by left|]. right. split; [done|].
    intros s' Hs. split; [done|]. by apply next_measure. }
  pose proof (reaches_inv next op_inv start o inv_next exchange_start HR) as (Hb & Hc & _ & Hp).
  split; [done|]. split; [done|].
  split; intros [ec He]; rewrite He in Hp; destruct Hp as [H1 H2]; [done|]. by intros; apply H2.
Qed.

(** A cancellation while the operation waits for 100 Continue: the handler of the
    timer ignores the error it is given, and writes the body. *)
Lemma cancelled_writes_body :
  let o := on_timer awaiting Reading (on_cancel (on_write (Some expect_100_continue) start)) in
  reaches next start o /\ bodies o = 1%nat /\ expired o = false /\ continued o = false.
Proof.
  split; [|done].
  eapply reaches_step; [|eapply next_timer; reflexivity].
  eapply reaches_step; [|by apply next_cancel].
  eapply reaches_step; [apply reaches_refl|]. by apply next_write.
Qed.

(** So does a second cancellation, when the first came while the header was
    written and left nothing to cancel. *)
Lemma cancelled_twice :
  let o := on_timer awaiting Reading
    (on_cancel (on_write (Some expect_100_continue) (on_cancel start))) in
  reaches next start o /\ bodies o = 1%nat.
Proof.
  split; [|done].
  eapply reaches_step; [|eapply next_timer; reflexivity].
  eapply reaches_step; [|by apply next_cancel].
  eapply reaches_step; [|by apply next_write].
  eapply reaches_step; [apply reaches_refl|]. by apply next_cancel.
Qed.

(** 417 Expectation Failed before the timer runs out. *)
Definition expectation_failed : op :=
  on_group None None (on_timer cancelled (ReaderDone None)
    (on_header None 417 Waiting (on_write (Some expect_100_continue) start))).

Lemma expect_100_protocol_witness :
  phase expectation_failed = Complete None /\ bodies expectation_failed = 0%nat.
Proof.
  split; [reflexivity|].
  destruct (expect_100_protocol expectation_failed) as (_ & _ & _ & _ & Hr);
    [|apply Hr; [by exists None|reflexivity..]].
  eapply reaches_step; [|eapply next_group; reflexivity].
  eapply reaches_step; [|eapply next_timer; reflexivity].
  eapply reaches_step; [|eapply (next_header _ awaiting Waiting None 417); reflexivity].
  eapply reaches_step; [apply reaches_refl|].
  apply (next_write start (Some expect_100_continue)). reflexivity.
Defined.

End RequestOp.
