(* ===== verification/Report.v ===== *)
(** The progress line of burl (example/client/burl/main.cpp, report_progress):
    what one report writes for a meter. *)
From S2P Require Import Prelude.
From S2P Require Import Utils.
From S2P Require Import ProgressMeter.

Module Report.

Import ProgressMeter.

Section Report.
Context `{CM : Utils.Cmath}.

Definition format_size (size : Z) : comp exn str := Utils.format_size size 4.

(** std::setw on a text: it is filled on the left. *)
Definition setw (width : nat) (s : str) : str :=
  replicate (width - length s) " "%char ++ s.

(** for(int i = 0; i != 25; i++) ... *)
Definition bar (pct : Z) : str :=
  map (fun i => if Z.of_nat i * 4 <? pct then "#"%char else "-"%char) (seq 0 25).

Definition two_digits (n : Z) : str :=
  (if n <? 10 then $"0" else []) ++ dec n.

(** operator<< of an hh_mm_ss of whole seconds *)
Definition hh_mm_ss (secs : Z) : str :=
  two_digits (secs / 3600) ++ $":" ++ two_digits (secs / 60 mod 60) ++ $":" ++
  two_digits (secs mod 60).

(** The lambda report: [now] is the time of cur_rate(), [now'] that of eta(). *)
Definition report (now now' : Z) (pm : progress_meter) : comp exn str :=
  pct ← pct pm;
  transfered ← format_size (transfered pm);
  total ← (match total pm with Some t => format_size t | None => Ok $"?" end);
  rate ← format_size (cur_rate now pm);
  Ok ([chr 13] ++ $"[" ++ bar (default 0 pct) ++ $"] " ++
      match pct with Some p => show_Z p | None => $"?" end ++
      $"% | " ++ setw 7 transfered ++ $" of " ++
      total ++ $" | " ++ setw 7 rate ++ $"/s | " ++
      match eta now' pm with
      | Some s => if s / 3600 <=? 99 then hh_mm_ss s else $"--:--:--"
      | None => $"--:--:--"
      end).

(** The loop of report_progress until it is cancelled, and the report of
    scope_exit: the times are those of the calls. *)
Fixpoint reports (pm : progress_meter) (times : list (Z * Z)) : comp exn str :=
  match times with
  | [] => Ok []
  | [(t, t')] => l ← report t t' pm; Ok (l ++ [chr 10])
  | (t, t') :: times => l ← report t t' pm; ls ← reports pm times; Ok (l ++ ls)
  end.

(** The bar has 25 cells; the first ones are full, one for every four percent
    that has been started. *)
Lemma bar_spec p :
  bar p = replicate (Z.to_nat (Z.min 25 (Z.max 0 ((p + 3) / 4)))) "#"%char ++
          replicate (25 - Z.to_nat (Z.min 25 (Z.max 0 ((p + 3) / 4)))) "-"%char.
Proof.
  set (k := Z.to_nat _).
  assert (forall n i, (i + n = 25)%nat ->
    map (fun i => if Z.of_nat i * 4 <? p then "#"%char else "-"%char) (seq i n) =
    replicate (k - i) "#"%char ++ replicate (25 - Nat.max k i) "-"%char) as HH.
  { induction n as [|n IH]; intros i Hi.
    - assert (k <= 25)%nat by lia.
      replace (25 - Nat.max k i)%nat with 0%nat by lia.
      by replace (k - i)%nat with 0%nat by lia.
    - cbn [seq map]. rewrite IH by lia. assert (k <= 25)%nat by lia.
      assert (Z.of_nat i * 4 < p <-> (i < k)%nat) as Hik.
      { unfold k. pose proof (Z.div_mod (p + 3) 4). pose proof (Z.mod_pos_bound (p + 3) 4). lia. }
      destruct (Z.ltb_spec (Z.of_nat i * 4) p).
      + replace (Nat.max k (S i)) with (Nat.max k i) by lia.
        by replace (k - i)%nat with (S (k - S i)) by lia.
      + replace (k - S i)%nat with 0%nat by lia. replace (k - i)%nat with 0%nat by lia.
        by replace (25 - Nat.max k i)%nat with (S (25 - Nat.max k (S i))) by lia. }
  unfold bar. rewrite (HH 25%nat 0%nat eq_refl). by rewrite Nat.sub_0_r, Nat.max_0_r.
Qed.

Context `{CL : !Utils.CmathLaws}.

(** A report is undefined exactly when the body is known to be empty: pct()
    divides by the total. *)
Lemma report_undefined now now' pm : report now now' pm = UB <-> total pm = Some 0.
Proof.
  assert (forall n, exists s, format_size n = Ok s) as Hf
    by (intros n; apply Utils.format_size_defined).
  destruct (Hf (transfered pm)) as [a Ha], (Hf (cur_rate now pm)) as [b Hb].
  unfold report, pct, total in *. destruct (total_ pm) as [t|].
  - destruct (Z.eqb_spec t 0) as [->|]; cbn [mbind comp_bind]; [done|].
    destruct (Hf t) as [c Hc]. rewrite Ha, Hc. cbn [mbind comp_bind]. rewrite Hb.
    split; [done|]. by intros [= ->].
  - cbn [mbind comp_bind]. rewrite Ha. cbn [mbind comp_bind]. by rewrite Hb.
Qed.

Lemma reports_cons pm t t' x times :
  reports pm ((t, t') :: x :: times) =
  (l ← report t t' pm; ls ← reports pm (x :: times); Ok (l ++ ls)).
Proof. reflexivity. Qed.

(** So are the reports of a body, of which there is at least one. *)
Lemma reports_undefined pm t times : reports pm (t :: times) = UB <-> total pm = Some 0.
Proof.
  assert (forall t times, reports pm (t :: times) = UB -> total pm = Some 0) as HH.
  { clear t times. intros t times. revert t.
    induction times as [|t2 times IH]; intros [t t'];
      [cbn [reports]|rewrite reports_cons];
      destruct (report t t' pm) eqn:E; cbn [mbind comp_bind]; try discriminate;
      try (intros _; by apply (report_undefined t t')).
    intros HU. apply (IH t2). by destruct (reports pm (t2 :: times)). }
  split; [apply HH|]. intros Ht. destruct t as [t t'].
  assert (report t t' pm = UB) as Hr by (by apply report_undefined).
  cbn [reports]. rewrite Hr. by destruct times.
Qed.

End Report.

(** Numbers in thousandths, as an instance. *)
#[local] Instance thousandths : Utils.Cmath := {
  Utils.float := Z;
  Utils.of_int n := 1000 * n;
  Utils.log2 x := 1000 * Z.log2 (x / 1000);
  Utils.log10 x := 1000 * (Z.of_nat (length (dec (x / 1000))) - 1);
  Utils.pow x y := 1000 * (x / 1000) ^ (y / 1000);
  Utils.divide x y := 1000 * x / y;
  Utils.truncate x := x / 1000;
  Utils.fixed p x :=
    dec (x / 1000) ++
    (if p =? 0 then [] else $"." ++ take (Z.to_nat p) (drop 1 (dec (1000 + x mod 1000))))
}.

#[local] Instance thousandths_laws : Utils.CmathLaws.
Proof.
  refine (@Utils.Build_CmathLaws thousandths Z.le _ _ _ _ _ _); cbn; intros.
  - lia.
  - pose proof (Z.log2_le_mono (x / 1000) (y / 1000)). pose proof (Z.div_le_mono x y 1000). lia.
  - apply Z.div_le_mono; lia.
  - apply Z.div_le_mono; lia.
  - reflexivity.
  - reflexivity.
Defined.

(** A body of 200 bytes, of which 50 have come. *)
Example report_quarter :
  report 2000000000 2000000000 (mk_meter (Some 200) 50 [0; 0; 0; 0; 50] 0 2000000000) =
  Ok ([chr 13] ++ $"[#######------------------] 25% |  50.0 B of 200 B |     0 B/s | 00:00:06").
Proof. vm_compute. reflexivity. Qed.

(** It is defined, as the laws say. *)
Example report_defined now now' :
  report now now' (mk_meter (Some 200) 50 [0; 0; 0; 0; 50] 0 2000000000) <> UB.
Proof. by intros HU%report_undefined. Qed.

End Report.
