(* ===== verification/Burl.v ===== *)
(** burl as a whole (example/client/burl/main.cpp, co_main and main).

    co_main pulls the requests out of request_opt_gen, hands each to a
    coroutine of the task group and joins the group.  The state has the group of
    TaskGroup.v and the generators of Options.v; a transfer is one run of retry
    (Transfer.v).  [next] is any step that the executor, a transfer or a signal
    can take. *)
From S2P Require Import Prelude.
From S2P Require Import Grammar.
From S2P Require Import Http.
From S2P Require Import Cookie.
From S2P Require Import Options.
From S2P Require Import Transfer.
From S2P Require Import TaskGroup.
From S2P Require Import Stream.

Module Burl.

Import Options.

Section Main.
Context `{L : Libs} `{F : Fields} `{G : Grammar} `{C : Cookie.Calendar}.
Context (oc : operation_config).

(** ** Before and after the transfers *)

Record files := mk_files {
  exists_ : str -> bool;
  is_tty : Stream.ostream -> bool;
  can_read : Stream.istream -> bool;
  can_write : Stream.ostream -> bool;
  contents : Stream.istream -> str
}.

(** The configurations of the parser and the serializer service. *)
Record parser_config := mk_parser_config {
  body_limit : Z;
  min_buffer : Z;
  apply_brotli_decoder : bool;
  apply_deflate_decoder : bool;
  apply_gzip_decoder : bool
}.

Definition parser_service (has_brotli has_zlib : bool) : parser_config :=
  mk_parser_config (max_filesize oc) (1024 * 1024) has_brotli has_zlib has_zlib.

(** cfg.payload_buffer *)
Definition serializer_service : Z := 1024 * 1024.

(** optional::value() *)
Definition opt_value {A} (o : option A) : comp exn A :=
  match o with Some a => Ok a | None => Err BadOptionalAccess end.

(** The loop over oc.cookiefiles. *)
Fixpoint read_cookiefiles (fs : files) (paths : list str) (jar : option (list Cookie.cookie))
    : comp exn (option (list Cookie.cookie)) :=
  match paths with
  | [] => Ok jar
  | path :: paths =>
      if exists_ fs path then
        i ← Stream.open_istream (can_read fs) path;
        j ← opt_value jar;
        match Cookie.read (contents fs i) j with
        | (j, Ok _) => read_cookiefiles fs paths (Some j)
        | (_, Err e) => Err e
        | (_, UB) => UB
        end
      else read_cookiefiles fs paths jar
  end.

(** if(!oc.headerfile.empty()) header_output.emplace(oc.headerfile) *)
Definition header_output (fs : files) : comp exn (option (Stream.ostream * bool)) :=
  match headerfile oc with
  | [] => Ok None
  | path => o ← Stream.open_ostream (is_tty fs) (can_write fs) path false;
            Ok (Some o)
  end.

(** From header_output to the try block: the stream for the headers, the jar
    and the cookies of the command line. *)
Definition set_up (fs : files)
    : comp exn (option (Stream.ostream * bool) * option (list Cookie.cookie) * str) :=
  ho ← header_output fs;
  let jar0 := if enable_cookies oc then Some [] else None in
  let exp_cookies := Transfer.exp_cookies_of (cookies oc) in
  jar ← read_cookiefiles fs (cookiefiles oc) jar0;
  Ok (ho,
      if cookiesession oc then option_map Cookie.clear_session_cookies jar else jar,
      exp_cookies).

(** if(cookie_jar && !oc.cookiejar.empty()) ...: the file and what it gets. *)
Definition save_jar (fs : files) (jar : option (list Cookie.cookie))
    : comp exn (option (Stream.ostream * str)) :=
  match jar, cookiejar oc with
  | Some j, (_ :: _) as path =>
      '(o, _) ← Stream.open_ostream (is_tty fs) (can_write fs) path false;
      text ← Cookie.write j;
      Ok (Some (o, text))
  | _, _ => Ok None
  end.

(** After the join. *)
Definition tear_down (fs : files) (jar : option (list Cookie.cookie)) (ep : option exn)
    : comp exn (option (Stream.ostream * str)) :=
  saved ← save_jar fs jar;
  match ep with Some e => Err e | None => Ok saved end.

(** main: EXIT_SUCCESS or EXIT_FAILURE. *)
Definition exit_code (r : comp exn (option (Stream.ostream * str))) : option Z :=
  match r with Ok _ => Some 0 | Err _ => Some 1 | UB => None end.

(** ** The transfers *)

(** Where co_main waits: for async_adapt, with the request it has pulled, or for
    async_join; or what it has come to. *)
Inductive phase := Adapting (r : request_opt) | Joining | Done | Broken.

(** [handlers] are the adapted handlers that are alive, with the transfer each
    one completes; none when async_adapt reported an error with it.  [finished]
    tells which transfers ended, and whether by an exception. *)
Record state := mk_state {
  at_ : phase;
  source : list request_info;
  group : TaskGroup.group;
  handlers : list (nat * option request_opt);
  told : list nat;                      (* signals that were emitted *)
  interrupted : bool;                   (* SIGINT or SIGTERM *)
  cancelled : bool;                     (* co_main's cancellation state *)
  ep : option exn;
  launched : list request_opt;
  finished : list (request_opt * bool)
}.

Definition set_at (p : phase) (s : state) : state :=
  mk_state p (source s) (group s) (handlers s) (told s) (interrupted s) (cancelled s) (ep s)
    (launched s) (finished s).
Definition set_source (v : list request_info) (s : state) : state :=
  mk_state (at_ s) v (group s) (handlers s) (told s) (interrupted s) (cancelled s) (ep s)
    (launched s) (finished s).
Definition set_group (g : TaskGroup.group) (s : state) : state :=
  mk_state (at_ s) (source s) g (handlers s) (told s) (interrupted s) (cancelled s) (ep s)
    (launched s) (finished s).
Definition set_ep (e : exn) (s : state) : state :=
  mk_state (at_ s) (source s) (group s) (handlers s) (told s) (interrupted s) (cancelled s)
    (Some e) (launched s) (finished s).
Definition tell (l : list nat) (s : state) : state :=
  mk_state (at_ s) (source s) (group s) (handlers s) (told s ++ l) (interrupted s) (cancelled s)
    (ep s) (launched s) (finished s).
Definition clear_cancelled (s : state) : state :=
  mk_state (at_ s) (source s) (group s) (handlers s) (told s) (interrupted s) false (ep s)
    (launched s) (finished s).
Definition add_handler (i : nat) (h : option request_opt) (s : state) : state :=
  mk_state (at_ s) (source s) (group s) (handlers s ++ [(i, h)]) (told s) (interrupted s)
    (cancelled s) (ep s) (launched s ++ match h with Some r => [r] | None => [] end) (finished s).

(** async_adapt or async_join is initiated; it does not complete at once. *)
Definition initiate (k : TaskGroup.kind) (s : state) : state :=
  set_group (fst (TaskGroup.step (TaskGroup.Initiate k) (group s))) s.

(** From the end of the try block to async_join. *)
Definition enter_join (s : state) : state :=
  let s := if cancelled s then clear_cancelled (tell (TaskGroup.emit (group s)) s) else s in
  initiate TaskGroup.Join (set_at Joining s).

(** The condition of the loop: [fuel] bounds the calls of the generators. *)
Definition pull (fuel : nat) (s : state) : state :=
  match request_opt_gen fuel (source s) with
  | Some (Ok (Some r, v)) => initiate TaskGroup.Adapt (set_at (Adapting r) (set_source v s))
  | Some (Ok (None, v)) => enter_join (set_source v s)
  | Some (Err e) => enter_join (set_ep e s)
  | _ => set_at Broken s
  end.

Definition start (fuel : nat) (v : list request_info) : state :=
  pull fuel (mk_state Joining v (TaskGroup.make (parallel_max oc)) [] [] false false None [] []).

(** What an operation of the group tells co_main.  The error of async_adapt has
    the category of the task group, so it only ends the loop; the handler that
    came with it is destroyed later. *)
Definition on_outcome (fuel : nat) (s : state) (x : TaskGroup.outcome) : state :=
  match x with
  | TaskGroup.Completed None i =>
      match at_ s with
      | Adapting r => pull fuel (add_handler i (Some r) s)
      | _ => s
      end
  | TaskGroup.Completed (Some _) i => enter_join (add_handler i None s)
  | TaskGroup.Joined => set_at Done s
  | TaskGroup.Emitted l => tell l s
  end.

(** The executor invokes the handler of an operation of the group. *)
Definition run_group (fuel : nat) (s : state) : state :=
  let '(g, os) := TaskGroup.step TaskGroup.Run (group s) in
  fold_left (on_outcome fuel) os (set_group g s).

(** The lambda given to async_adapt. *)
Definition on_end (threw : bool) (s : state) : state :=
  if threw && failearly oc then
    tell (TaskGroup.emit (group s)) (set_group (TaskGroup.close (group s)) s)
  else s.

(** The i-th handler is invoked, if it completes a transfer, and destroyed. *)
Definition task_end (i : nat) (e : Transfer.retry_end) (s : state) : state :=
  let threw := match e with Transfer.Rethrown => true | _ => false end in
  match List.find (fun h => Nat.eqb (fst h) i) (handlers s) with
  | None => s
  | Some (_, h) =>
      let s := match h with Some _ => on_end threw s | None => s end in
      mk_state (at_ s) (source s) (TaskGroup.remove i (group s))
        (List.filter (fun h => negb (Nat.eqb (fst h) i)) (handlers s))
        (told s) (interrupted s) (cancelled s) (ep s) (launched s)
        (finished s ++ match h with Some r => [(r, threw)] | None => [] end)
  end.

(** A signal: the operation co_main waits for is cancelled. *)
Definition interrupt (s : state) : state :=
  let x := match TaskGroup.cv (group s) with
           | _ :: _ => TaskGroup.CancelWaiting 0
           | [] => TaskGroup.CancelReady 0
           end in
  mk_state (at_ s) (source s) (fst (TaskGroup.step x (group s))) (handlers s) (told s) true true
    (ep s) (launched s) (finished s).

(** A step: the executor runs the group, a transfer comes to the end that its
    attempts lead retry to, a handler without a transfer is destroyed, the first
    signal arrives. *)
Inductive next (fuel : nat) (s : state) : state -> Prop :=
| next_run : TaskGroup.ready (group s) <> [] -> next fuel s (run_group fuel s)
| next_end i r t xs ds e :
    In (i, Some r) (handlers s) ->
    Transfer.retry oc t xs = Ok (ds, e) -> e <> Transfer.Retrying ->
    next fuel s (task_end i e s)
| next_drop i : In (i, None) (handlers s) -> next fuel s (task_end i Transfer.Returned s)
| next_signal :
    interrupted s = false -> at_ s <> Done -> next fuel s (interrupt s).

(** ** What the generators give *)

(** What the calls of request_opt_gen give: requests, then nothing or an
    exception. *)
Inductive source_gives : list request_info -> list request_opt -> option exn -> Prop :=
| source_end v v' :
    (exists n, forall fuel, (n <= fuel)%nat -> request_opt_gen fuel v = Some (Ok (None, v'))) ->
    source_gives v [] None
| source_throw v e :
    (exists n, forall fuel, (n <= fuel)%nat -> request_opt_gen fuel v = Some (Err e)) ->
    source_gives v [] (Some e)
| source_next v r v' rs e :
    (exists n, forall fuel, (n <= fuel)%nat -> request_opt_gen fuel v = Some (Ok (Some r, v'))) ->
    source_gives v' rs e -> source_gives v (r :: rs) e.

(** The generators of the properties of Options.v end without an exception. *)
Lemma give_source v rs : requests_give v rs -> source_gives v rs None.
Proof. induction 1; [by eapply source_end|by eapply source_next]. Qed.

(** The same for calls that each have [fuel]. *)
Inductive pulls (fuel : nat) : list request_info -> list request_opt -> option exn -> Prop :=
| pulls_end v v' : request_opt_gen fuel v = Some (Ok (None, v')) -> pulls fuel v [] None
| pulls_throw v e : request_opt_gen fuel v = Some (Err e) -> pulls fuel v [] (Some e)
| pulls_next v r v' rs e :
    request_opt_gen fuel v = Some (Ok (Some r, v')) -> pulls fuel v' rs e ->
    pulls fuel v (r :: rs) e.

Lemma give_pulls v rs e :
  source_gives v rs e -> exists n, forall fuel, (n <= fuel)%nat -> pulls fuel v rs e.
Proof.
  induction 1 as [v v' [n Hn]|v e [n Hn]|v r v' rs e [n Hn] HG [m IH]].
  - exists n. intros fuel Hf. by eapply pulls_end, Hn.
  - exists n. intros fuel Hf. by eapply pulls_throw, Hn.
  - exists (n + m)%nat. intros fuel Hf. eapply pulls_next; [apply Hn; lia|]. apply IH. lia.
Qed.

(** ** The group while one operation is under way *)

(** [o] is the only operation of [g]: it waits, or its handler is ready. *)
Definition holds (g : TaskGroup.group) (o : TaskGroup.op) : Prop :=
  TaskGroup.scheduled o = true /\
  (TaskGroup.cv g = [o] /\ TaskGroup.ready g = [] \/
   TaskGroup.cv g = [] /\ exists a, TaskGroup.ready g = [(o, a)]).

Definition idle (g : TaskGroup.group) : Prop :=
  TaskGroup.cv g = [] /\ TaskGroup.ready g = [].

(** The part of a group the operations under way are not. *)
Definition frame (g : TaskGroup.group) : Z * list TaskGroup.signal * nat :=
  (TaskGroup.max_ g, TaskGroup.css g, TaskGroup.next_ident g).

Lemma initiate_holds k g :
  idle g ->
  let g' := fst (TaskGroup.step (TaskGroup.Initiate k) g) in
  frame g' = frame g /\ (length (TaskGroup.ready g') <= 1)%nat /\
  exists o, TaskGroup.op_kind o = k /\ TaskGroup.is_cancelled o = false /\ holds g' o.
Proof.
  intros [Hc Hr]. destruct g as [m l n cv rd]. cbn in Hc, Hr. subst cv rd.
  set (o := TaskGroup.mk_op k true false).
  assert (forall g', g' = TaskGroup.mk_group m l n [o] [] \/
                     g' = TaskGroup.mk_group m l n [] [(o, false)] ->
    frame g' = (m, l, n) /\ (length (TaskGroup.ready g') <= 1)%nat /\
    exists o, TaskGroup.op_kind o = k /\ TaskGroup.is_cancelled o = false /\ holds g' o) as HH.
  { intros g' [-> | ->]; (split; [done|]); (split; [cbn; lia|]); exists o; unfold holds;
      (split; [done|]); (split; [done|]); (split; [done|]);
      [by left|right; split; [done|by exists false]]. }
  cbn [TaskGroup.step]. apply HH. unfold TaskGroup.invoke. cbn. subst o.
  destruct k; unfold TaskGroup.adapt_body, TaskGroup.join_body; cbn;
    [destruct (_ && _)|destruct l]; cbn;
    first [left; reflexivity|right; reflexivity].
Qed.

Lemma holds_notify g o :
  holds g o -> holds (TaskGroup.notify g) o /\ (length (TaskGroup.ready (TaskGroup.notify g)) <= 1)%nat.
Proof.
  unfold holds, TaskGroup.notify. cbn.
  intros [Hs [[-> ->]|[-> [a ->]]]]; cbn; (split; [|lia]); (split; [done|]); right;
    (split; [done|by eexists]).
Qed.

(** close and remove change the rest of the group, then wake the operation. *)
Lemma holds_wake m l n g o :
  holds g o ->
  let g' := TaskGroup.notify (TaskGroup.mk_group m l n (TaskGroup.cv g) (TaskGroup.ready g)) in
  holds g' o /\ (length (TaskGroup.ready g') <= 1)%nat.
Proof. intros HH. by apply holds_notify. Qed.

(** Cancelling the operation. *)
Lemma holds_cancel g o :
  holds g o ->
  let x := match TaskGroup.cv g with
           | _ :: _ => TaskGroup.CancelWaiting 0
           | [] => TaskGroup.CancelReady 0
           end in
  let g' := fst (TaskGroup.step x g) in
  frame g' = frame g /\ holds g' (TaskGroup.cancel o) /\
  (length (TaskGroup.ready g') <= 1)%nat.
Proof.
  unfold holds, frame. intros [Hs [[Hc Hr]|[Hc [a Hr]]]]; cbn; rewrite Hc, ?Hr; cbn;
    rewrite ?Hc, ?Hr; cbn; (split; [done|]); (split; [split; [done|]; right|lia]);
    (split; [done|by eexists]).
Qed.

(** Running the operation: async_adapt waits on, or gives a handler out; *)
Lemma run_adapt g o :
  holds g o -> TaskGroup.op_kind o = TaskGroup.Adapt -> TaskGroup.ready g <> [] ->
  let '(g', os) := TaskGroup.step TaskGroup.Run g in
  (os = [] /\ frame g' = frame g /\ TaskGroup.ready g' = [] /\
     exists o', TaskGroup.op_kind o' = TaskGroup.Adapt /\ holds g' o' /\
       TaskGroup.is_cancelled o' = TaskGroup.is_cancelled o) \/
  exists ec, os = [TaskGroup.Completed ec (TaskGroup.next_ident g)] /\ idle g' /\
    frame g' = (TaskGroup.max_ g,
                TaskGroup.css g ++ [TaskGroup.mk_signal (TaskGroup.next_ident g)
                                      (bool_decide (ec = None))],
                S (TaskGroup.next_ident g)) /\
    (ec = None <-> TaskGroup.is_cancelled o = false /\ TaskGroup.max_ g <> 0).
Proof.
  intros [Hs [[_ Hr]|[Hc [a Hr]]]] Hk Hne; [done|]. cbn [TaskGroup.step]. rewrite Hr.
  unfold TaskGroup.invoke. rewrite Hk. rewrite TaskGroup.adapt_body_cleared, Hs. cbn.
  destruct (Z.eqb_spec (TaskGroup.max_ g) 0) as [H0|H0].
  - rewrite andb_false_r. right. eexists. split; [done|]. split; [done|]. split; [done|].
    split; [done|]. by intros [_ ?].
  - destruct (TaskGroup.is_cancelled o); [rewrite andb_false_r|rewrite andb_true_r].
    + right. eexists. split; [done|]. split; [done|]. split; [done|]. split; [done|]. by intros [? _].
    + destruct (_ <=? _).
      * left. split; [done|]. split; [done|]. split; [done|].
        exists (TaskGroup.mk_op TaskGroup.Adapt true false). unfold holds. cbn. rewrite Hc.
        split; [done|]. split; [|done]. split; [done|]. by left.
      * right. eexists. by repeat split.
Qed.

(** async_join waits on while a handler is alive, and may emit its signal. *)
Lemma run_join g o :
  holds g o -> TaskGroup.op_kind o = TaskGroup.Join -> TaskGroup.ready g <> [] ->
  let '(g', os) := TaskGroup.step TaskGroup.Run g in
  frame g' = frame g /\ TaskGroup.ready g' = [] /\
  exists l, (l = [] \/ exists ids, l = [TaskGroup.Emitted ids]) /\
    (os = l /\ (exists o', TaskGroup.op_kind o' = TaskGroup.Join /\ holds g' o') \/
     os = l ++ [TaskGroup.Joined] /\ TaskGroup.css g = [] /\ idle g').
Proof.
  intros [Hs [[_ Hr]|[Hc [a Hr]]]] Hk Hne; [done|]. cbn [TaskGroup.step]. rewrite Hr.
  unfold TaskGroup.invoke. rewrite Hk. unfold TaskGroup.join_body. rewrite Hs. cbn.
  set (l := if TaskGroup.is_cancelled o then _ else _).
  assert (l = [] \/ exists ids, l = [TaskGroup.Emitted ids]) as Hl.
  { unfold l. destruct (TaskGroup.is_cancelled o); [right; by eexists|by left]. }
  destruct (TaskGroup.css g) as [|x css] eqn:Ec; cbn; unfold frame; cbn; rewrite ?Ec.
  - split; [done|]. split; [done|]. exists l. split; [done|]. by right.
  - split; [done|]. split; [done|]. exists l. split; [done|]. left. split; [done|].
    exists (TaskGroup.mk_op TaskGroup.Join true false). unfold holds. cbn. rewrite Hc.
    split; [done|]. split; [done|]. by left.
Qed.

(** ** The handlers *)

Definition sig (h : nat * option request_opt) : TaskGroup.signal :=
  TaskGroup.mk_signal (fst h) (bool_decide (is_Some (snd h))).

(** The transfers under way. *)
Definition transfers_of (hs : list (nat * option request_opt)) : list request_opt := omap snd hs.
Definition transfers (s : state) : list request_opt := transfers_of (handlers s).

Definition others (i : nat) (hs : list (nat * option request_opt)) :=
  List.filter (fun h => negb (Nat.eqb (fst h) i)) hs.

Lemma sig_others i hs :
  List.filter (fun s => negb (Nat.eqb (TaskGroup.ident s) i)) (map sig hs) = map sig (others i hs).
Proof.
  induction hs as [|h hs IH]; [done|]. cbn. destruct (Nat.eqb (fst h) i); cbn; by rewrite IH.
Qed.

Lemma others_all i hs : ~ In i (map fst hs) -> others i hs = hs.
Proof.
  induction hs as [|h hs IH]; intros Hn; [done|]. cbn in *.
  destruct (Nat.eqb_spec (fst h) i) as [|_]; [by destruct Hn; left|]. cbn. f_equal.
  apply IH. intros Hin. apply Hn. by right.
Qed.

Lemma find_others i hs h :
  NoDup (map fst hs) -> List.find (fun h => Nat.eqb (fst h) i) hs = Some h ->
  Permutation hs (h :: others i hs) /\ NoDup (map fst (others i hs)).
Proof.
  induction hs as [|k hs IH]; intros HN; [done|]. cbn in *.
  apply NoDup_cons in HN as [Hk HN]. destruct (Nat.eqb_spec (fst k) i) as [Hi|Hi]; cbn.
  - intros [= <-]. subst i. fold (others (fst k) hs).
    rewrite others_all by (by rewrite <- list_elem_of_In). done.
  - intros HF. destruct (IH HN HF) as [HP HD]. fold (others i hs). split.
    + rewrite HP at 1. apply Permutation_swap.
    + cbn. apply NoDup_cons. split; [|done]. intros Hin. apply Hk. rewrite HP. cbn. by right.
Qed.

Lemma tasks_transfers hs : length (List.filter TaskGroup.launched (map sig hs)) = length (transfers_of hs).
Proof.
  induction hs as [|[i [r|]] hs IH]; [done| |]; cbn; unfold transfers_of in *; cbn; [|done].
  by rewrite IH.
Qed.

(** ** What every interleaving keeps *)

(** A transfer ended by an exception and --fail-early is given. *)
Definition early (s : state) : bool := failearly oc && existsb snd (finished s).

(** Nothing more is to be launched. *)
Definition stopped (s : state) : bool := interrupted s || early s.

(** What holds wherever co_main is. *)
Record base (s : state) : Prop := {
  b_group : TaskGroup.group_inv (parallel_max oc) (group s);
  b_max : TaskGroup.max_ (group s) = if early s then 0 else parallel_max oc;
  b_css : TaskGroup.css (group s) = map sig (handlers s);
  b_nodup : NoDup (map fst (handlers s));
  b_launched : Permutation (launched s) (map fst (finished s) ++ transfers s)
}.

(** The steps left without the ones of co_main itself. *)
Definition weight (s : state) : nat :=
  2 * length (handlers s) + length (TaskGroup.ready (group s)) +
  (if interrupted s then 0 else 2).

(** The end of the requests: all were launched, and co_main has the exception of
    the generators, unless it was stopped. *)
Definition exhausted (all : list request_opt) (e : option exn) (s : state) : Prop :=
  launched s `prefix_of` all /\ (ep s = None \/ ep s = e) /\
  (stopped s = false -> launched s = all /\ ep s = e).

(** Where co_main is, when the generators give [all] and then [e], and at most
    [n] steps are left. *)
Definition place (fuel : nat) (all : list request_opt) (e : option exn) (n : nat) (s : state)
    : Prop :=
  match at_ s with
  | Adapting r =>
      exists o rest, TaskGroup.op_kind o = TaskGroup.Adapt /\ holds (group s) o /\
        TaskGroup.is_cancelled o = interrupted s /\
        pulls fuel (source s) rest e /\ all = launched s ++ r :: rest /\ ep s = None /\
        (weight s + 5 + 5 * length rest <= n)%nat
  | Joining =>
      exists o, TaskGroup.op_kind o = TaskGroup.Join /\ holds (group s) o /\
        exhausted all e s /\ (weight s + 1 <= n)%nat
  | Done => handlers s = [] /\ idle (group s) /\ exhausted all e s
  | Broken => False
  end.

Definition inv fuel all e n s : Prop := base s /\ place fuel all e n s.

(** A step of the group that keeps its limit and its handlers. *)
Lemma base_step s x s' :
  base s -> group s' = fst (TaskGroup.step x (group s)) -> frame (group s') = frame (group s) ->
  handlers s' = handlers s -> launched s' = launched s -> finished s' = finished s ->
  base s'.
Proof.
  intros [Hg Hm Hc Hn Hl] Hg' [= Fm Fc Fi] Hh Hl' Hf.
  unfold early, transfers in *. split; unfold early, transfers;
    rewrite ?Fm, ?Fc, ?Hh, ?Hl', ?Hf; try done.
  rewrite Hg'. destruct (TaskGroup.step x (group s)) eqn:E. cbn.
  by eapply TaskGroup.inv_step.
Qed.

Lemma enter_join_inv fuel all e n s :
  base s -> idle (group s) -> exhausted all e s ->
  (2 * length (handlers s) + (if interrupted s then 0 else 2) + 2 <= n)%nat ->
  inv fuel all e n (enter_join s) /\ launched (enter_join s) = launched s.
Proof.
  intros HB Hi Ha Hn.
  destruct (initiate_holds TaskGroup.Join (group s) Hi) as (Hf & Hlen & o & Hk & Hx & Ho).
  unfold enter_join. destruct (cancelled s); (split; [|done]); split;
    try (by eapply (base_step s (TaskGroup.Initiate TaskGroup.Join)));
    exists o; unfold weight; cbn [handlers group interrupted initiate set_group set_at
      clear_cancelled tell launched] in *; (split; [done|]); (split; [done|]);
    (split; [exact Ha|lia]).
Qed.

Lemma pull_inv fuel all rest e n s :
  base s -> idle (group s) -> pulls fuel (source s) rest e -> all = launched s ++ rest ->
  ep s = None -> interrupted s = false ->
  (2 * length (handlers s) + 4 + 5 * length rest <= n)%nat ->
  inv fuel all e n (pull fuel s) /\ launched (pull fuel s) = launched s.
Proof.
  intros HB Hi Hp Ha He Hint Hn. unfold pull.
  destruct Hp as [v v' HG|v e HG|v r v' rs e HG Hp]; rewrite HG; cbn [length] in Hn.
  - rewrite app_nil_r in Ha. subst all.
    apply (enter_join_inv fuel _ None n (set_source v' s)); try done; [by destruct HB; split| |].
    + split; [done|]. split; [by left|]. by intros _.
    + cbn. rewrite Hint. lia.
  - rewrite app_nil_r in Ha. subst all.
    apply (enter_join_inv fuel _ (Some e) n (set_ep e s)); try done; [by destruct HB; split| |].
    + split; [done|]. split; [by right|]. by intros _.
    + cbn. rewrite Hint. lia.
  - destruct (initiate_holds TaskGroup.Adapt (group s) Hi) as (Hf & Hlen & o & Hk & Hx & Ho).
    split; [|done]. split; [by eapply (base_step s (TaskGroup.Initiate TaskGroup.Adapt))|].
    exists o, rs. unfold weight. cbn [handlers group interrupted initiate set_group set_at
      set_source launched source at_ ep] in *. rewrite Hint in *.
    split_and!; try done. lia.
Qed.

(** A handler is given out: a transfer, or the one of an error. *)
Lemma base_handler s g ec :
  base s -> TaskGroup.group_inv (parallel_max oc) g ->
  frame g = (TaskGroup.max_ (group s),
             TaskGroup.css (group s) ++ [TaskGroup.mk_signal (TaskGroup.next_ident (group s))
                                           (bool_decide (is_Some ec))],
             S (TaskGroup.next_ident (group s))) ->
  base (add_handler (TaskGroup.next_ident (group s)) ec (set_group g s)).
Proof.
  intros [Hg Hm Hc Hn Hl] Hg' [= Fm Fc Fi].
  split; unfold early, transfers in *; cbn [group add_handler set_group handlers launched finished];
    try done.
  - by rewrite Fm, Hm.
  - by rewrite Fc, Hc, map_app.
  - rewrite map_app. apply NoDup_app. split; [done|]. split; [|apply NoDup_singleton].
    intros i Hi%list_elem_of_In Hin%list_elem_of_In. cbn in Hin. destruct Hin as [<-|[]].
    apply in_map_iff in Hi as (h & Hh & Hin). pose proof (TaskGroup.gi_fresh _ _ Hg (sig h)) as Hf.
    rewrite Hc in Hf. specialize (Hf (in_map sig _ _ Hin)). cbn in Hf. lia.
  - unfold transfers_of in *. rewrite omap_app, app_assoc. destruct ec as [r|]; cbn.
    + by rewrite Hl.
    + by rewrite !app_nil_r.
Qed.

Context (Hmax : 0 < parallel_max oc).

(** async_adapt succeeds as long as nothing has stopped burl. *)
Lemma stopped_spec s : base s -> stopped s = false <-> interrupted s = false /\ TaskGroup.max_ (group s) <> 0.
Proof.
  intros HB. unfold stopped. rewrite orb_false_iff, (b_max _ HB).
  destruct (early s); [by split; intros []|]. split; intros []; (split; [done|lia || done]).
Qed.

Lemma run_adapting fuel all e n s r :
  inv fuel all e n s -> at_ s = Adapting r -> TaskGroup.ready (group s) <> [] ->
  (exists n', (n' < n)%nat /\ inv fuel all e n' (run_group fuel s)) /\
  (stopped s = true -> launched (run_group fuel s) = launched s).
Proof.
  intros [HB HP] Ea Hr. unfold run_group, place in *. rewrite Ea in HP.
  destruct HP as (o & rest & Hk & Ho & Hx & Hp & Ha & He & Hn).
  pose proof (TaskGroup.inv_step _ _ TaskGroup.Run _ _ (b_group _ HB)
                (surjective_pairing _)) as HG.
  pose proof (run_adapt _ _ Ho Hk Hr) as HR.
  pose proof (fun h => base_handler s _ h HB HG) as HH.
  assert (1 <= length (TaskGroup.ready (group s)))%nat as H1
    by (destruct (TaskGroup.ready (group s)); [done|cbn; lia]).
  unfold weight in Hn.
  destruct (TaskGroup.step TaskGroup.Run (group s)) as [g os] eqn:E. cbn [fst] in HH.
  destruct HR as [(-> & Hf & Hr' & o' & Hk' & Ho' & Hx')|([err|] & -> & Hi & Hf & Hec)];
    try (rewrite Hx, <- stopped_spec in Hec by done); cbn [fold_left on_outcome].
  - split; [|done]. exists (pred n). split; [lia|]. split.
    { by eapply (base_step s TaskGroup.Run); rewrite ?E. }
    unfold place. cbn [at_ set_group]. rewrite Ea. exists o', rest.
    unfold weight. cbn [handlers group interrupted set_group launched source ep]. rewrite Hr'.
    split_and!; try done; [congruence|cbn; lia].
  - destruct (stopped s) eqn:Es; [|by destruct Hec as [_ Hec]; specialize (Hec eq_refl)].
    edestruct (enter_join_inv fuel all e (pred n)) as [HI HL];
      [exact (HH None Hf)|exact Hi|..].
    { unfold exhausted, stopped, early in *. cbn in *. rewrite app_nil_r, Es.
      split; [rewrite Ha; by eexists|]. split; [by left|done]. }
    { cbn. rewrite length_app. cbn. lia. }
    split; [exists (pred n); split; [lia|exact HI]|]. intros _. rewrite HL. cbn. by rewrite app_nil_r.
  - destruct Hec as [Hec _]. specialize (Hec eq_refl).
    split; [|by rewrite Hec]. cbn [at_ set_group]. rewrite Ea.
    apply (stopped_spec s HB) in Hec as [Hint _].
    exists (pred n). split; [lia|].
    eapply (pull_inv fuel all rest); [exact (HH (Some r) Hf)|exact Hi|exact Hp|..]; try done.
    + cbn. rewrite Ha. by rewrite <- app_assoc.
    + rewrite Hint in Hn. cbn. rewrite length_app. cbn. lia.
Qed.

Lemma run_joining fuel all e n s :
  inv fuel all e n s -> at_ s = Joining -> TaskGroup.ready (group s) <> [] ->
  (exists n', (n' < n)%nat /\ inv fuel all e n' (run_group fuel s)) /\
  launched (run_group fuel s) = launched s.
Proof.
  intros [HB HP] Ea Hr. unfold run_group, place in *. rewrite Ea in HP.
  destruct HP as (o & Hk & Ho & Ha & Hn).
  pose proof (run_join _ _ Ho Hk Hr) as HR.
  assert (1 <= length (TaskGroup.ready (group s)))%nat as H1
    by (destruct (TaskGroup.ready (group s)); [done|cbn; lia]).
  unfold weight in Hn.
  destruct (TaskGroup.step TaskGroup.Run (group s)) as [g os] eqn:E.
  destruct HR as (Hf & Hr' & l & Hl & HR).
  assert (forall l' p, (l' = [] \/ exists ids, l' = [TaskGroup.Emitted ids]) ->
    base (set_at p (fold_left (on_outcome fuel) l' (set_group g s))) /\
    exists t, fold_left (on_outcome fuel) l' (set_group g s) =
      mk_state Joining (source s) g (handlers s) t (interrupted s) (cancelled s) (ep s)
        (launched s) (finished s)) as HB'.
  { intros l' p Hl'. split.
    - eapply (base_step s TaskGroup.Run); rewrite ?E; try done;
        by destruct Hl' as [->|[ids ->]].
    - destruct Hl' as [->|[ids ->]]; cbn; unfold set_group, tell; cbn; rewrite Ea; by eexists. }
  destruct HR as [(-> & o' & Hk' & Ho')|(-> & Hc & Hi)].
  - destruct (HB' l Joining Hl) as [HB1 [t Ht]]. rewrite Ht in *. split; [|done].
    exists (pred n). split; [lia|]. split; [exact HB1|]. exists o'.
    unfold weight. cbn [handlers group interrupted launched]. rewrite Hr'.
    split; [done|]. split; [done|]. split; [exact Ha|cbn; lia].
  - rewrite fold_left_app. destruct (HB' l Done Hl) as [HB1 [t Ht]]. rewrite Ht in *.
    cbn [fold_left on_outcome]. split; [|done].
    exists (pred n). split; [lia|]. split; [exact HB1|].
    assert (handlers s = []) as Hh.
    { rewrite (b_css _ HB) in Hc. by apply map_eq_nil in Hc. }
    split; [exact Hh|]. by split.
Qed.

Definition threw (e : Transfer.retry_end) : bool :=
  match e with Transfer.Rethrown => true | _ => false end.

(** The end of a handler, as one change of the state: the group may be closed
    before the signal is removed. *)
Lemma task_end_eq i e s h :
  NoDup (map fst (handlers s)) -> In (i, h) (handlers s) ->
  exists h' t,
    Permutation (handlers s) ((i, h') :: others i (handlers s)) /\
    NoDup (map fst (others i (handlers s))) /\
    let closes := match h' with Some _ => threw e && failearly oc | None => false end in
    task_end i e s =
      mk_state (at_ s) (source s)
        (TaskGroup.remove i (if closes then TaskGroup.close (group s) else group s))
        (others i (handlers s)) t (interrupted s) (cancelled s) (ep s) (launched s)
        (finished s ++ match h' with Some r => [(r, threw e)] | None => [] end).
Proof.
  intros HN Hin. unfold task_end.
  destruct (List.find (fun h => Nat.eqb (fst h) i) (handlers s)) as [[i' h']|] eqn:E; cycle 1.
  { eapply List.find_none in E; [|exact Hin]. cbn in E. by rewrite Nat.eqb_refl in E. }
  destruct (find_others _ _ _ HN E) as [HP HD].
  apply List.find_some in E as [_ E]. cbn in E. apply Nat.eqb_eq in E as ->.
  exists h'. destruct h' as [r|]; [|exists (told s); by split].
  unfold on_end. fold (threw e). destruct (threw e && failearly oc); eexists;
    (split; [done|]); (split; [done|]); reflexivity.
Qed.

Lemma close_remove i (c : bool) g o max0 :
  TaskGroup.group_inv max0 g -> holds g o ->
  let g' := TaskGroup.remove i (if c then TaskGroup.close g else g) in
  TaskGroup.group_inv max0 g' /\ holds g' o /\ (length (TaskGroup.ready g') <= 1)%nat /\
  TaskGroup.max_ g' = (if c then 0 else TaskGroup.max_ g) /\
  TaskGroup.css g' = List.filter (fun s => negb (Nat.eqb (TaskGroup.ident s) i)) (TaskGroup.css g).
Proof.
  intros HI Ho.
  assert (forall g1, TaskGroup.group_inv max0 g1 -> holds g1 o ->
    TaskGroup.group_inv max0 (TaskGroup.remove i g1) /\ holds (TaskGroup.remove i g1) o /\
    (length (TaskGroup.ready (TaskGroup.remove i g1)) <= 1)%nat) as HR.
  { intros g1 HI1 Ho1. split; [by apply (TaskGroup.inv_step _ g1 (TaskGroup.Destroy i) _ [] HI1)|].
    by apply holds_wake. }
  cbv zeta. destruct c.
  - edestruct (HR (TaskGroup.close g)) as (H1 & H2 & H3); [..|by split_and!].
    + by apply (TaskGroup.inv_step _ g TaskGroup.Close _ [] HI).
    + by apply holds_wake.
  - destruct (HR g HI Ho) as (H1 & H2 & H3). by split_and!.
Qed.

(** While a handler is alive co_main waits for an operation. *)
Lemma handler_waits fuel all e n h s :
  inv fuel all e n s -> In h (handlers s) ->
  (0 < n)%nat /\ at_ s <> Done /\ exists o, holds (group s) o.
Proof.
  intros [_ HP] Hin. unfold place in HP. destruct (at_ s).
  - destruct HP as (o & rest & _ & Ho & _ & _ & _ & _ & Hn). split; [lia|]. split; [done|by exists o].
  - destruct HP as (o & _ & Ho & _ & Hn). split; [lia|]. split; [done|by exists o].
  - destruct HP as [Hh _]. by rewrite Hh in Hin.
  - done.
Qed.

(** What is told of the transfers that ended, after one more. *)
Lemma early_end s en (h' : option request_opt) :
  failearly oc &&
    existsb snd (finished s ++ match h' with Some r => [(r, threw en)] | None => [] end) =
  early s || match h' with Some _ => threw en && failearly oc | None => false end.
Proof.
  unfold early. rewrite existsb_app. destruct h'; cbn;
    by destruct (failearly oc), (existsb snd (finished s)), (threw en).
Qed.

Lemma task_end_inv fuel all e n i en h s :
  inv fuel all e n s -> In (i, h) (handlers s) ->
  (exists n', (n' < n)%nat /\ inv fuel all e n' (task_end i en s)) /\
  launched (task_end i en s) = launched s.
Proof.
  intros HI Hin. destruct (handler_waits _ _ _ _ _ _ HI Hin) as (Hn & Hd & o & Ho).
  destruct HI as [HB HP].
  destruct (task_end_eq i en s h (b_nodup _ HB) Hin) as (h' & t & Hper & HD & ->).
  pose proof (early_end s en h') as He.
  set (closes := match h' with Some _ => threw en && failearly oc | None => false end) in *.
  split; [|done].
  pose proof (fun o Ho => close_remove i closes (group s) o _ (b_group _ HB) Ho) as HC.
  set (g' := TaskGroup.remove i (if closes then _ else _)) in *. cbv zeta in HC.
  exists (pred n). split; [lia|]. split.
  - destruct (HC o Ho) as (HG & _ & _ & Hm & Hc).
    split; unfold early, transfers; cbn [group handlers finished launched ep]; try done.
    + rewrite Hm, He, (b_max _ HB). by destruct (early s), closes.
    + by rewrite Hc, (b_css _ HB), sig_others.
    + rewrite (b_launched _ HB), map_app, <- app_assoc. apply Permutation_app_head.
      unfold transfers, transfers_of. rewrite Hper at 1. by destruct h'.
  - pose proof (Permutation_length Hper) as Hlen. cbn [length] in Hlen.
    unfold place, weight, exhausted in *.
    cbn [at_ group handlers interrupted launched source finished ep].
    destruct (at_ s); [| |done|done].
    + destruct HP as (o1 & rest & H1 & H2 & H3 & H4 & H5 & H6 & H7). exists o1, rest.
      destruct (HC o1 H2) as (_ & Ho1 & Hl & _). split_and!; try done. lia.
    + destruct HP as (o1 & H1 & H2 & (H3 & H4 & H5) & H6). exists o1.
      destruct (HC o1 H2) as (_ & Ho1 & Hl & _).
      split_and!; [exact H1|exact Ho1|exact H3|exact H4| |lia].
      unfold stopped, early. cbn [interrupted finished]. rewrite He, orb_assoc.
      intros [Hs _]%orb_false_iff. by apply H5.
Qed.

(** A signal. *)
Lemma interrupt_inv fuel all e n s :
  inv fuel all e n s -> interrupted s = false -> at_ s <> Done ->
  exists n', (n' < n)%nat /\ inv fuel all e n' (interrupt s).
Proof.
  intros [HB HP] Hint Hd. exists (pred n).
  unfold inv, place, weight, exhausted in *.
  cbn [at_ interrupt group handlers interrupted launched source ep]. rewrite Hint in HP.
  assert (forall o, holds (group s) o -> base (interrupt s)) as HB'.
  { intros o Ho. destruct (holds_cancel _ _ Ho) as (Hf & _).
    by eapply base_step. }
  destruct (at_ s); [| |done|done].
  - destruct HP as (o & rest & H1 & H2 & H3 & H4 & H5 & H6 & H7).
    destruct (holds_cancel _ _ H2) as (_ & Ho & Hl). split; [lia|]. split; [by eapply HB'|].
    exists (TaskGroup.cancel o), rest. split_and!; try done. cbv zeta in *. lia.
  - destruct HP as (o & H1 & H2 & (H3 & H4 & H5) & H6).
    destruct (holds_cancel _ _ H2) as (_ & Ho & Hl). split; [lia|]. split; [by eapply HB'|].
    exists (TaskGroup.cancel o). split_and!; try done. cbv zeta in *. lia.
Qed.

Lemma next_inv fuel all e n s s' :
  inv fuel all e n s -> next fuel s s' ->
  (exists n', (n' < n)%nat /\ inv fuel all e n' s') /\
  (stopped s = true -> launched s' = launched s).
Proof.
  intros HI HN. destruct HN as [Hr|i r t xs ds x Hin _ _|i Hin|Hint Hd].
  - destruct (at_ s) as [r| | |] eqn:Ea.
    + by eapply run_adapting.
    + destruct (run_joining fuel all e n s HI Ea Hr) as [? ?]. by split.
    + destruct HI as [_ HP]. unfold place in HP. rewrite Ea in HP.
      by destruct HP as (_ & [_ Hi] & _).
    + destruct HI as [_ HP]. unfold place in HP. by rewrite Ea in HP.
  - destruct (task_end_inv fuel all e n i x (Some r) s HI Hin). by split.
  - destruct (task_end_inv fuel all e n i Transfer.Returned None s HI Hin). by split.
  - split; [by apply interrupt_inv|done].
Qed.

(** Unless co_main is done, something can happen. *)
Lemma next_exists fuel all e n s :
  inv fuel all e n s -> at_ s = Done \/ exists s', next fuel s s'.
Proof.
  intros HI. destruct (handlers s) as [|[i [r|]] hs] eqn:Eh.
  - destruct HI as [HB HP]. unfold place in HP.
    assert (forall o, holds (group s) o -> exists s', next fuel s s') as HR.
    { intros o [_ [[Hc _]|[_ [a Hr]]]].
      - exfalso. apply (TaskGroup.gi_wake _ _ (b_group _ HB)); [by rewrite Hc|].
        by rewrite (b_css _ HB), Eh.
      - eexists. apply next_run. by rewrite Hr. }
    destruct (at_ s); [| |by left|done]; right.
    + destruct HP as (o & _ & _ & Ho & _). by eapply HR.
    + destruct HP as (o & _ & Ho & _). by eapply HR.
  - destruct (Transfer.retry_throws oc) as [t [ds Ht]]. right. eexists.
    eapply (next_end fuel s i r); [rewrite Eh; by left|exact Ht|done].
  - right. eexists. apply (next_drop fuel s i). rewrite Eh. by left.
Qed.

(** What the place of co_main tells of the requests. *)
Lemma where_it_is fuel all e n s :
  inv fuel all e n s ->
  launched s `prefix_of` all /\ (ep s = None \/ ep s = e) /\
  (at_ s = Done -> transfers s = [] /\ (stopped s = false -> launched s = all /\ ep s = e)).
Proof.
  intros [_ HP]. unfold place in HP. destruct (at_ s); [| | |done].
  - destruct HP as (_ & rest & _ & _ & _ & _ & -> & He & _).
    split; [by eexists|]. split; [by left|done].
  - destruct HP as (_ & _ & _ & (Hp & He & _) & _). by split.
  - destruct HP as (Hh & _ & (Hp & He & Hs)). split; [done|]. split; [done|]. intros _.
    unfold transfers. by rewrite Hh.
Qed.

Lemma pulled_inv fuel all e v :
  pulls fuel v all e -> inv fuel all e (4 + 5 * length all) (start fuel v).
Proof.
  intros Hp. unfold start.
  apply (pull_inv fuel all all e _ (mk_state Joining v (TaskGroup.make (parallel_max oc)) [] [] false
    false None [] [])); try done.
  split; unfold early; cbn; rewrite ?andb_false_r; try done; [|constructor].
  apply TaskGroup.inv_make. lia.
Qed.

End Main.

(** ** The configuration parse_args makes *)

Section Config.
Context `{L : Libs} `{F : Fields} `{G : Grammar}.

Lemma parsed_config vm options args :
  parse_args vm options = Ok args ->
  0 < parallel_max (oc args) <= 300 /\
  (cookiefiles (oc args) <> [] -> enable_cookies (oc args) = true).
Proof.
  intros (Hp & (engine & Hc & He) & _)%parse_args_parts. split.
  - revert Hp. unfold set_parallel_max, when.
    destruct (vm_contains vm _); [|intros [= <-]; lia].
    destruct (vm_contains vm _); [|intros [= <-]; lia]. intros HE. bind_ok.
    injection HE as <-. destruct (Z.ltb_spec 0 x), (Z.leb_spec x 300); cbn; lia.
  - revert Hc. unfold set_cookies, when.
    destruct (vm_contains vm _); [|intros [= _ _ Hf] Hn; by destruct Hn]. intros HE. bind_ok.
    injection HE as <- _ _. intros _. by apply He.
Qed.

(** No command line that parse_args accepts reads a cookie file without a jar. *)
Lemma cookies_have_jar `{Cookie.Calendar} vm options args fs :
  parse_args vm options = Ok args -> set_up (oc args) fs <> Err BadOptionalAccess.
Proof.
  intros [_ HC]%parsed_config. unfold set_up, header_output.
  assert (forall p, Stream.open_ostream (is_tty fs) (can_write fs) p false <> Err BadOptionalAccess)
    as Ho by (intros p; unfold Stream.open_ostream; by repeat case_match).
  assert (forall ps j, read_cookiefiles fs ps (Some j) <> Err BadOptionalAccess) as Hr.
  { induction ps as [|p ps IH]; intros j; [done|]. cbn [read_cookiefiles].
    destruct (exists_ fs p); [|apply IH]. unfold Stream.open_istream.
    assert (forall t k, snd (Cookie.read_lines t k) <> Err BadOptionalAccess) as Hl.
    { induction t as [|l t IHt]; intros k; [done|]. cbn. destruct (Cookie.skipped l); [apply IHt|].
      by destruct (Cookie.parse_netscape_cookie l). }
    repeat case_match; cbn; try done; unfold Cookie.read;
      match goal with |- context [Cookie.read_lines ?t j] =>
        specialize (Hl t j); destruct (Cookie.read_lines t j) as [k [[]|e|]] end; cbn in *;
      try done; try apply IH; congruence. }
  destruct (headerfile (oc args)) as [|c h]; cbn [mbind comp_bind];
    [|destruct (Stream.open_ostream _ _ _ _) eqn:E; cbn [mbind comp_bind]; [|intros [= ->]; by eapply Ho|done]].
  all: destruct (cookiefiles (oc args)) as [|p ps]; [done|]; rewrite HC by done;
    specialize (Hr (p :: ps) []); destruct (read_cookiefiles _ _ _); cbn; congruence.
Qed.

Lemma read_cookiefiles_jar `{Cookie.Calendar} fs ps : forall j jar,
  Transfer.good_jar j -> read_cookiefiles fs ps j = Ok jar -> Transfer.good_jar jar.
Proof.
  induction ps as [|p ps IH]; intros j jar Hj HE; cbn [read_cookiefiles] in HE;
    [by injection HE as <-|].
  destruct (exists_ fs p); [|by eapply IH]. bind_ok.
  destruct j as [k|]; [|done]. match goal with H : opt_value _ = _ |- _ => injection H as <- end.
  match type of HE with match Cookie.read ?t k with _ => _ end = _ =>
    pose proof (Cookie.jar_next _ _ (Hj k eq_refl) (Cookie.step_load k t)) as Hk;
    destruct (Cookie.read t k) as [k' [[]|e|]]; try done end.
  eapply IH; [|exact HE]. by intros k'' [= <-].
Qed.

(** The jar the transfers share is reachable by calls, as C3 asks of it. *)
Lemma set_up_jar `{Cookie.Calendar} oc fs ho jar exp :
  set_up oc fs = Ok (ho, jar, exp) -> Transfer.good_jar jar.
Proof.
  unfold set_up. intros HE. bind_ok. injection HE as _ <- _.
  assert (Transfer.good_jar x0) as HG.
  { eapply read_cookiefiles_jar; [|exact E0]. intros k.
    destruct (enable_cookies oc); [intros [= <-]; constructor|done]. }
  destruct (cookiesession oc); [|done]. destruct x0 as [k|]; [|done].
  intros k' [= <-]. eapply Cookie.jar_next; [by apply HG|constructor].
Qed.

End Config.

(** C1: burl runs every transfer of its command line, in order, each once and
    at most --parallel-max at a time, and ends when all of them have ended, on
    every interleaving; a signal, or with --fail-early the first transfer that
    ends by an exception, stops it from launching more.  co_main ends with an
    exception only if the generators of the requests throw one, whichever
    transfers fail. *)
Theorem every_transfer_runs `{L : Libs} `{F : Fields} `{G : Grammar} vm options args rs e :
  parse_args vm options = Ok args -> source_gives (ropt_gen args) rs e ->
  let oc := oc args in
  let v := ropt_gen args in
  exists n, forall fuel, (n <= fuel)%nat ->
    eventually (next oc fuel) (fun s => at_ s = Done) (start oc fuel v) /\
    forall s, reaches (next oc fuel) (start oc fuel v) s ->
      Z.of_nat (length (transfers s)) <= parallel_max oc /\
      Permutation (launched s) (map fst (finished s) ++ transfers s) /\
      launched s `prefix_of` rs /\
      (ep s = None \/ ep s = e) /\
      (at_ s = Done -> transfers s = [] /\
         (stopped oc s = false -> launched s = rs /\ ep s = e)) /\
      (stopped oc s = true -> forall s', next oc fuel s s' -> launched s' = launched s).
Proof.
  intros [[Hmax _] _]%parsed_config [n Hn]%give_pulls oc v. exists n. intros fuel Hf.
  specialize (Hn fuel Hf). pose proof (pulled_inv oc Hmax fuel rs e v Hn) as HI0. split.
  - eapply (eventually_bound _ _ (inv oc fuel rs e)); [|exact HI0].
    intros m s HI. destruct (next_exists oc fuel rs e m s HI) as [Hd|He]; [by left|right].
    split; [exact He|]. intros s' HN. by destruct (next_inv oc Hmax fuel rs e m s s' HI HN).
  - intros s HR. assert (exists m, inv oc fuel rs e m s) as [m HI].
    { eapply (reaches_inv _ (fun s => exists m, inv oc fuel rs e m s)); [|by eexists|exact HR].
      intros a b [k HI] HN. destruct (next_inv oc Hmax fuel rs e k a b HI HN) as [(k' & _ & ?) _].
      by exists k'. }
    destruct (where_it_is oc fuel rs e m s HI) as (Hpre & Hep & Hdone).
    destruct HI as [HB HP]. pose proof HB as [Hg _ Hc _ Hl]. split_and!; try done.
    + pose proof (TaskGroup.gi_bound _ _ Hg) as Hb. unfold TaskGroup.tasks in Hb.
      by rewrite Hc, tasks_transfers in Hb.
    + intros Hs s' HN. destruct (next_inv oc Hmax fuel rs e m s s' (conj HB HP) HN) as [_ HL].
      by apply HL.
Qed.

(** Two URLs, with --parallel and --parallel-max 2. *)
Definition two_urls : list (str * any (dbl (Libs := test_libs))) :=
  [($"url", AStrings [$"http://a/"; $"http://b/"]); ($"parallel", ASwitch);
   ($"parallel-max", AUshort 2)].

Lemma every_transfer_runs_witness :
  exists args n, parse_args (H := test_libs) (H0 := list_fields) (H1 := doc_grammar) two_urls []
      = Ok args /\
    forall fuel, (n <= fuel)%nat ->
      eventually (next (G := doc_grammar) (oc args) fuel) (fun s => at_ s = Done)
        (start (G := doc_grammar) (oc args) fuel (ropt_gen args)).
Proof.
  eexists. edestruct (@every_transfer_runs test_libs list_fields doc_grammar two_urls [])
    as [n Hn]; [reflexivity| |exists n; split; [reflexivity|]].
  - apply give_source. do 2 (eapply give_cons;
      [exists 20%nat; intros fuel Hf; do 20 (destruct fuel; [lia|]); reflexivity|]).
    eapply give_nil. exists 20%nat. intros fuel Hf. do 20 (destruct fuel; [lia|]). reflexivity.
  - intros fuel Hf. apply (Hn fuel Hf).
Defined.

End Burl.
