(* ===== verification/Visit.v ===== *)
(** The visit client (example/client/visit/main.cpp): the composed operation
    that connects to the host of a URL, and the worker that visits URLs.

    A URL is what url_view's observers show of it.  The network of one visit is a
    [network]: how resolving, connecting and shutting down end.  The trace of a
    visit is the list of the operations on the socket and the resolver. *)
From S2P Require Import Prelude.

Module Visit.

Inductive host_type := HostNone | HostName | HostIPv4 | HostIPv6 | HostIPvFuture.

Record url_view := mk_url {
  host_kind : host_type;
  encoded_host : str;
  scheme : str;
  port : option Z;                 (* has_port() and port_number() *)
  default_port : Z;                (* of scheme_id(); 0 when there is none *)
  address : str;                   (* the bytes of the IP address *)
  encoded_path : str
}.

(** asio::ip::tcp::endpoint; the default one is 0.0.0.0:0. *)
Definition endpoint : Type := str * Z.
Definition endpoint_type : endpoint := ([chr 0; chr 0; chr 0; chr 0], 0).

(** ** connect_op *)

Record connect_op := mk_op {
  host_ : str;
  scheme_ : str;
  ep_ : endpoint
}.

Definition port_of (url : url_view) : Z :=
  match port url with Some p => p | None => default_port url end.

(** The constructor. *)
Definition make_connect_op (url : url_view) : comp exn connect_op :=
  match host_kind url with
  | HostNone => Err (InvalidArgument $"missing authority")
  | HostName => Ok (mk_op (encoded_host url) (scheme url) endpoint_type)
  | HostIPv4 | HostIPv6 =>
      if port_of url =? 0 then Err (InvalidArgument $"invalid port")
      else Ok (mk_op [] [] (address url, port_of url))
  | HostIPvFuture => Err (InvalidArgument $"unsupported IPvFuture")
  end.

Inductive action :=
| Resolve (host service : str)
| Connect (ep : endpoint)
| Shutdown.

Record network := mk_network {
  resolve : str -> str -> str + list endpoint;    (* an error, or the results *)
  connect : endpoint -> option str;               (* the error, if any *)
  shutdown : option str
}.

(** asio::error::not_found, of async_connect on an empty range *)
Definition not_found : str := $"not found".

(** asio::async_connect on a range: the error and the iterator, which is the end
    of the range when no endpoint could be connected to. *)
Fixpoint connect_range (n : network) (ec : option str) (eps : list endpoint)
    : list action * option str * option endpoint :=
  match eps with
  | [] => ([], ec, None)
  | ep :: eps =>
      match connect n ep with
      | None => ([Connect ep], None, Some ep)
      | Some e =>
          let '(l, ec, it) := connect_range n (Some e) eps in (Connect ep :: l, ec, it)
      end
  end.

(** The operation: what is done, and what it completes with.  [*it] on the end
    of the range is undefined. *)
Definition async_connect (n : network) (op : connect_op)
    : list action * comp exn (option str * endpoint) :=
  match host_ op with
  | [] => ([Connect (ep_ op)], Ok (connect n (ep_ op), ep_ op))
  | _ =>
      match resolve n (host_ op) (scheme_ op) with
      | inl ec => ([Resolve (host_ op) (scheme_ op)], Ok (Some ec, endpoint_type))
      | inr results =>
          let '(l, ec, it) := connect_range n (Some not_found) results in
          (Resolve (host_ op) (scheme_ op) :: l,
           match it with Some ep => Ok (ec, ep) | None => UB end)
      end
  end.

(** ** worker *)

(** The start line do_request sets; the request is not sent. *)
Definition request_target (url : url_view) : str :=
  match encoded_path url with [] => $"/" | p => p end.

Inductive visit_end := Again | Finished | Threw (e : exn) | Undefined.

(** do_visit up to the end of do_shutdown. *)
Definition do_visit (url : url_view) (n : network) : list action * visit_end :=
  match make_connect_op url with
  | Err e => ([], Threw e)
  | UB => ([], Undefined)
  | Ok op =>
      let '(l, r) := async_connect n op in
      match r with
      | Ok (Some _, _) => (l, Again)
      | Ok (None, _) =>
          (l ++ [Shutdown], match shutdown n with Some _ => Again | None => Finished end)
      | Err e => (l, Threw e)
      | UB => (l, Undefined)
      end
  end.

Definition boost : url_view :=
  mk_url HostName $"www.boost.org" $"http" None 80 [] [].

(** do_next: a visit for each network, until one ends the worker. *)
Fixpoint do_next (ns : list network) : list action * visit_end :=
  match ns with
  | [] => ([], Again)
  | n :: ns =>
      let '(l, e) := do_visit boost n in
      match e with
      | Again => let '(l', e') := do_next ns in (l ++ l', e')
      | _ => (l, e)
      end
  end.

(** ** What a visit does *)

Lemma connect_range_spec n eps ec :
  let '(l, ec', it) := connect_range n ec eps in
  match it with
  | Some ep => ec' = None /\ connect n ep = None /\
      exists l1 l2, eps = l1 ++ ep :: l2 /\ l = map Connect (l1 ++ [ep]) /\
        Forall (fun ep => connect n ep <> None) l1
  | None => l = map Connect eps /\ Forall (fun ep => connect n ep <> None) eps
  end.
Proof.
  revert ec. induction eps as [|ep eps IH]; intros ec; [done|]. cbn.
  destruct (connect n ep) as [e|] eqn:E.
  - specialize (IH (Some e)). destruct (connect_range n (Some e) eps) as [[l ec'] [ep'|]].
    + destruct IH as (-> & Hc & l1 & l2 & -> & -> & HF). split; [done|]. split; [done|].
      exists (ep :: l1), l2. split; [done|]. split; [done|]. constructor; [by rewrite E|done].
    + destruct IH as [-> HF]. split; [done|]. constructor; [by rewrite E|done].
  - split; [done|]. split; [done|]. by exists [], eps.
Qed.

(** A URL can be connected to when it has a name, or an address and a port. *)
Lemma make_connect_op_ok url :
  (exists op, make_connect_op url = Ok op) <->
  host_kind url = HostName \/
  (host_kind url = HostIPv4 \/ host_kind url = HostIPv6) /\ port_of url <> 0.
Proof.
  unfold make_connect_op.
  destruct (host_kind url); destruct (Z.eqb_spec (port_of url) 0); split.
  all: try (intros [? ?]; discriminate).
  all: try (intros [?|[[?|?] ?]]; discriminate).
  all: try (intros _; by eexists).
  all: intuition (try discriminate).
Qed.

(** The operation is undefined exactly when the name is resolved but none of
    its endpoints can be connected to. *)
Lemma async_connect_undefined n op :
  snd (async_connect n op) = UB <->
  host_ op <> [] /\ exists eps, resolve n (host_ op) (scheme_ op) = inr eps /\
    Forall (fun ep => connect n ep <> None) eps.
Proof.
  unfold async_connect. destruct (host_ op) as [|c h]; cbn [snd]; [by split; [|intros [? _]]|].
  destruct (resolve n (c :: h) (scheme_ op)) as [ec|eps]; cbn [snd].
  { split; [done|]. by intros (_ & eps & ? & _). }
  pose proof (connect_range_spec n eps (Some not_found)) as HS.
  destruct (connect_range n (Some not_found) eps) as [[l ec] [ep|]]; cbn [snd].
  - split; [done|]. intros (_ & eps' & [= <-] & HF).
    destruct HS as (_ & Hc & l1 & l2 & -> & _ & _).
    apply Forall_app in HF as [_ HF]. by inversion HF.
  - split; [|done]. intros _. split; [done|]. exists eps. split; [done|apply HS].
Qed.

(** The visits before the last one all failed, without a limit on their number;
    only a connection that is shut down without an error ends the worker. *)
Lemma do_next_spec ns :
  snd (do_next ns) = Finished <->
  exists ns1 n ns2, ns = ns1 ++ n :: ns2 /\
    Forall (fun n => snd (do_visit boost n) = Again) ns1 /\
    snd (do_visit boost n) = Finished.
Proof.
  induction ns as [|n ns IH]; cbn [do_next].
  - split; [done|]. intros (ns1 & n & ns2 & He & _). by destruct ns1.
  - assert (snd (do_next (n :: ns)) =
      match snd (do_visit boost n) with Again => snd (do_next ns) | e => e end) as HE.
    { cbn [do_next]. destruct (do_visit boost n) as [l []], (do_next ns); reflexivity. }
    change (snd (do_next (n :: ns)) = Finished <->
      exists ns1 m ns2, n :: ns = ns1 ++ m :: ns2 /\
        Forall (fun n => snd (do_visit boost n) = Again) ns1 /\ snd (do_visit boost m) = Finished).
    rewrite HE. split.
    + destruct (snd (do_visit boost n)) eqn:E; intros HF; try discriminate.
      * apply IH in HF as (ns1 & m & ns2 & -> & HF & Hm).
        exists (n :: ns1), m, ns2. split; [done|]. split; [by constructor|done].
      * exists [], n, ns. by split.
    + intros (ns1 & m & ns2 & He & HF & Hm). destruct ns1 as [|n1 ns1].
      * injection He as -> ->. by rewrite Hm.
      * injection He as -> ->. inversion HF as [|? ? Hn HF']; subst. rewrite Hn. apply IH.
        by exists ns1, m, ns2.
Qed.

(** One name, two addresses: the second can be connected to. *)
Example visit_second :
  do_visit boost (mk_network (fun _ _ => inr [($"a", 80); ($"b", 80)])
    (fun ep => if fst ep =s $"a" then Some $"refused" else None) None) =
  ([Resolve $"www.boost.org" $"http"; Connect ($"a", 80); Connect ($"b", 80); Shutdown], Finished).
Proof. reflexivity. Qed.

End Visit.
