(* ===== verification/Server.v ===== *)
(** The example server (example/server/main.cpp): the two handlers that redirect
    and the life of the servers in server_main.

    The request and the response are those of Boost.Http: header fields by the
    class [Fields], the URL by what its observers show; [send] is how
    route_params::send ends.  server_main is the list of what it does to the two
    servers, given how binding them ends. *)
From S2P Require Import Prelude.
From S2P Require Import Grammar.
From S2P Require Import Http.
From S2P Require Import Worker.

Module Server.

Section Handlers.
Context `{FL : FieldsLaws}.

(** What a handler uses of route_params. *)
Record route_params := mk_params {
  req : fields;
  encoded_path : str;
  encoded_query : option str;      (* absent when has_query() is false *)
  status : Z;
  res : fields;
  sent : list str                  (* the bodies that were sent *)
}.

Definition set_status (code : Z) (rp : route_params) : route_params :=
  mk_params (req rp) (encoded_path rp) (encoded_query rp) code (res rp) (sent rp).
Definition set_res (name value : str) (rp : route_params) : route_params :=
  mk_params (req rp) (encoded_path rp) (encoded_query rp) (status rp)
    (set_field name value (res rp)) (sent rp).
Definition add_sent (body : str) (rp : route_params) : route_params :=
  mk_params (req rp) (encoded_path rp) (encoded_query rp) (status rp) (res rp)
    (sent rp ++ [body]).

Inductive route_result := RouteDone | RouteError (ec : str).

Definition found : Z := 302.

(** struct redirect *)
Record redirect := mk_redirect { url_ : str; code_ : Z }.

Definition redirect_body (url : str) : str :=
  $"<!DOCTYPE html><html><head><meta charset=" ++ [chr 34] ++ $"utf-8" ++ [chr 34] ++
  $"><title>Redirecting</title></head><body><p>Redirecting to <a href=" ++ [chr 34] ++
  url ++ [chr 34] ++ $">" ++ url ++ $"</a></p></body></html>".

(** redirect::operator(): [send] gives the error of sending, if any. *)
Definition run_redirect (r : redirect) (send : str -> option str) (rp : route_params)
    : route_params * comp exn route_result :=
  let rp := set_status (code_ r) rp in
  let rp := set_res $"Location" (url_ r) rp in
  let rp := set_res $"Content-Type" $"text/html; charset=utf-8" rp in
  let body := redirect_body (url_ r) in
  (add_sent body rp,
   Ok (match send body with Some ec => RouteError ec | None => RouteDone end)).

(** The URL https_redirect makes: at() throws when there is no Host field. *)
Definition https_url (rp : route_params) : comp exn str :=
  match find_field $"Host" (req rp) with
  | None => Err OutOfRange
  | Some host =>
      Ok ($"https://" ++ host ++ encoded_path rp ++
          match encoded_query rp with Some q => $"?" ++ q | None => [] end)
  end.

(** https_redirect::operator() *)
Definition https_redirect (send : str -> option str) (rp : route_params)
    : route_params * comp exn route_result :=
  match https_url rp with
  | Ok url =>
      let rp := set_status found rp in
      let rp := set_res $"Location" url rp in
      (add_sent $"pupu" rp,
       Ok (match send $"pupu" with Some ec => RouteError ec | None => RouteDone end))
  | Err e => (rp, Err e)
  | UB => (rp, UB)
  end.

(** What the answer to a redirected request is. *)
Lemma redirect_answer r send rp :
  let rp' := fst (run_redirect r send rp) in
  status rp' = code_ r /\
  find_field $"location" (res rp') = Some (url_ r) /\
  find_field $"content-type" (res rp') = Some $"text/html; charset=utf-8" /\
  sent rp' = sent rp ++ [redirect_body (url_ r)] /\
  (snd (run_redirect r send rp) = Ok RouteDone <-> send (redirect_body (url_ r)) = None).
Proof.
  cbn -[redirect_body]. rewrite !find_set_law. cbn -[redirect_body].
  split_and!; try done. by destruct (send _).
Qed.

(** Every request with a Host field is answered 302 with the same host, path and
    query under https; the port of a Host field stays in the URL. *)
Lemma https_redirect_answer send rp host :
  find_field $"Host" (req rp) = Some host ->
  let rp' := fst (https_redirect send rp) in
  status rp' = 302 /\
  find_field $"location" (res rp') =
    Some ($"https://" ++ host ++ encoded_path rp ++
          match encoded_query rp with Some q => $"?" ++ q | None => [] end) /\
  sent rp' = sent rp ++ [$"pupu"].
Proof.
  intros HH. unfold https_redirect, https_url. rewrite HH. cbn.
  by rewrite find_set_law.
Qed.

(** A request without one is not answered: the handler throws. *)
Lemma https_redirect_throws send rp :
  find_field $"Host" (req rp) = None -> https_redirect send rp = (rp, Err OutOfRange).
Proof. intros HH. unfold https_redirect, https_url. by rewrite HH. Qed.

End Handlers.

(** ** The server on port 80

    rr1 has the one handler https_redirect; [parse] gives the path and the query
    of a target, [send] how sending ends, and [router] whether dispatch fails, from
    how the handler ends. *)

(** What is used of a response. *)
Record response `{Fields} := mk_response {
  r_status : Z;
  r_version : Z;
  r_keep_alive : bool;
  r_fields : fields
}.

Arguments mk_response {_} r_status r_version r_keep_alive r_fields.

#[local] Instance port_80_http `{Fields} (parse : str -> option (str * option str))
    : Worker.Http := {
  Worker.response := response;
  Worker.headers := fields;
  Worker.url := str * option str;
  Worker.set_start_line s v r := mk_response s v (r_keep_alive r) (r_fields r);
  Worker.set_keep_alive b r := mk_response (r_status r) (r_version r) b (r_fields r);
  Worker.keep_alive r := r_keep_alive r;
  Worker.set_status s r := mk_response s (r_version r) (r_keep_alive r) (r_fields r);
  Worker.parse_uri_reference := parse
}.

Section Port80.
Context `{FL : FieldsLaws} (parse : str -> option (str * option str)).
Context (send : str -> option str) (router : comp exn route_result -> comp exn bool).

Definition to_params (p : @Worker.route_params (port_80_http parse)) : route_params :=
  let u := default ([], None) (Worker.rp_url p) in
  mk_params (match Worker.req p with Some r => Worker.req_fields r | None => no_fields end)
    (fst u) (snd u) (r_status (Worker.res p)) (r_fields (Worker.res p)) [].

(** The dispatch of rr1. *)
Definition dispatch (p : @Worker.route_params (port_80_http parse))
    : @Worker.route_params (port_80_http parse) * comp exn bool :=
  let '(q, r) := https_redirect send (to_params p) in
  let res := Worker.res p in
  (Worker.mk_params (Worker.req p)
     (mk_response (status q) (r_version res) (r_keep_alive res) (Server.res q))
     (Worker.rp_url p) (Worker.session_data p) (Worker.route_data p), router r).

(** The connections of a worker, from what its peers send. *)
Definition traffic (cs : list (list (str + @Worker.request (port_80_http parse))))
    : list (list (@Worker.exchange (port_80_http parse))) :=
  map (map (fun h => Worker.mk_exchange h dispatch)) cs.

(** The answer to a request: its own host, path and query, under https. *)
Definition redirected (x : @Worker.exchange (port_80_http parse))
    (p : @Worker.route_params (port_80_http parse)) : Prop :=
  exists r path query, Worker.header x = inr r /\ parse (Worker.target r) = Some (path, query) /\
    let q := fst (https_redirect send (to_params p)) in
    match find_field $"Host" (Worker.req_fields r) with
    | Some host =>
        status q = 302 /\ sent q = [$"pupu"] /\
        find_field $"location" (res q) =
          Some ($"https://" ++ host ++ path ++ match query with Some s => $"?" ++ s | None => [] end)
    | None => sent q = [] /\ snd (https_redirect send (to_params p)) = Err OutOfRange
    end.

Lemma fresh_redirected x p : Worker.fresh_for x p -> redirected x p.
Proof.
  intros (r & [path query] & Hx & Hr & Hp & Hu & _). exists r, path, query.
  split; [done|]. split; [done|]. cbv zeta.
  assert (req (to_params p) = Worker.req_fields r) as Hq by (unfold to_params; by rewrite Hr).
  destruct (find_field $"Host" (Worker.req_fields r)) as [host|] eqn:Hh; rewrite <- Hq in Hh.
  - destruct (https_redirect_answer send _ _ Hh) as (H1 & H2 & H3).
    split; [exact H1|]. split; [exact H3|]. rewrite H2. unfold to_params. by rewrite Hu.
  - by rewrite (https_redirect_throws send _ Hh).
Qed.

(** Whatever its peers send, connection after connection, the worker answers every
    request it dispatches with a redirection to the same host, path and query of
    that request, none of another; a request without a Host field is not answered. *)
Lemma port_80_redirects res0 cs :
  (forall r, router r <> UB) ->
  exists ds es, traffic cs = ds ++ es /\
    Forall2 (fun xs s => exists ys zs, xs = ys ++ zs /\
               Forall2 redirected ys (Worker.dispatched s))
      ds (Worker.http_serve (Worker.http_server_worker res0) (traffic cs)).
Proof.
  intros Hr. destruct (Worker.http_serve_good (Worker.http_server_worker res0) (traffic cs))
    as (ds & es & Hc & HF & _).
  - by exists Worker.sock_id; split; [|left].
  - apply Forall_map, Forall_forall. intros c _. apply Forall_map, Forall_forall. intros h _ p.
    cbn. unfold dispatch. destruct (https_redirect send (to_params p)). apply Hr.
  - exists ds, es. split; [done|]. eapply Forall2_impl; [exact HF|].
    intros xs s (_ & (ys & zs & -> & Hf)%Worker.session_dispatches). exists ys, zs. split; [done|].
    eapply Forall2_impl; [exact Hf|]. apply fresh_redirected.
Qed.

End Port80.

(** ** server_main *)

Inductive server := Http | Https.

Inductive tls_action :=
| SetPasswordCallback (password : str)
| UseCertificateChain (cert : str)
| UsePrivateKey (key : str).

(** load_server_certificate (certificate.cpp), with its pairs of a certificate
    chain and a key; the Diffie-Hellman parameters are not used. *)
Definition load_server_certificate (certs : list (str * str)) : list tls_action :=
  SetPasswordCallback $"test" ::
  flat_map (fun t => [UseCertificateChain (fst t); UsePrivateKey (snd t)]) certs.

Inductive action :=
| Install                           (* install_services *)
| Bind (s : server) (port : Z)
| Start (s : server)
| Tls (x : tls_action)              (* on the TLS context of the second server *)
| Run                               (* ioc.run(), until stop has had its effect *)
| Stop (s : server)
| Join (s : server).

Definition exit_success : Z := 0.
Definition exit_failure : Z := 1.

(** [bind] is the error of binding; [signal] how waiting for SIGINT ends. *)
Definition server_main (certs : list (str * str)) (argc : Z) (bind : server -> option str) (signal : option str)
    : list action * comp exn Z :=
  if negb (argc =? 3) then ([], Ok exit_failure)
  else
    match bind Http with
    | Some _ => ([Install; Bind Http 80], Ok exit_failure)
    | None =>
        let first := [Install; Bind Http 80; Start Http] ++ map Tls (load_server_certificate certs) in
        match bind Https with
        | Some _ => (first ++ [Bind Https 443], Ok exit_failure)
        | None =>
            let up := first ++ [Bind Https 443; Start Https; Run] in
            match signal with
            | Some _ => (up, Err SystemError)
            | None => (up ++ [Stop Http; Stop Https; Join Http; Join Https], Ok exit_success)
            end
        end
    end.

(** The servers are stopped and joined exactly when the program succeeds. *)
Lemma server_main_stops certs argc bind signal :
  let '(l, r) := server_main certs argc bind signal in
  r = Ok exit_success <-> (forall s, In (Start s) l /\ In (Stop s) l /\ In (Join s) l).
Proof.
  assert (forall x l, (forall y, x <> Tls y) -> In x (map Tls l) -> False) as Ht.
  { intros x l Hx [y [<- _]]%in_map_iff. by apply (Hx y). }
  unfold server_main. destruct (argc =? 3); cbn [negb].
  2: { split; [done|]. intros HS. by destruct (HS Http). }
  destruct (bind Http) eqn:E1; [|destruct (bind Https) eqn:E2; [|destruct signal eqn:E3]];
    (split; [try done; intros _ s; rewrite !in_app_iff; destruct s; cbn; tauto|]);
    intros HS; try done; destruct (HS Https) as (_ & H2 & _);
    rewrite ?in_app_iff in H2; exfalso; cbn -[map] in H2;
    repeat match goal with
      | H : _ \/ _ |- _ => destruct H
      | H : In _ (map Tls _) |- _ => by apply Ht in H
      | H : _ = _ |- _ => discriminate H
      | H : False |- _ => destruct H
      end.
Qed.

(** The second server has its certificates before it is bound, each with its key. *)
Lemma server_main_certificates certs argc bind signal :
  let '(l, _) := server_main certs argc bind signal in
  In (Bind Https 443) l ->
  exists before after, l = before ++ Bind Https 443 :: after /\
    forall c k, In (c, k) certs ->
      exists u v, before = u ++ [Tls (UseCertificateChain c); Tls (UsePrivateKey k)] ++ v.
Proof.
  assert (forall tail, exists before after,
    ([Install; Bind Http 80; Start Http] ++ map Tls (load_server_certificate certs)) ++
      Bind Https 443 :: tail = before ++ Bind Https 443 :: after /\
    forall c k, In (c, k) certs ->
      exists u v, before = u ++ [Tls (UseCertificateChain c); Tls (UsePrivateKey k)] ++ v) as HA.
  { intros tail. eexists _, tail. split; [done|].
    intros c k (l1 & l2 & ->)%List.in_split. unfold load_server_certificate.
    rewrite flat_map_app. cbn [flat_map fst snd map].
    eexists ([Install; Bind Http 80; Start Http] ++ Tls (SetPasswordCallback $"test") ::
      map Tls (flat_map _ l1)), (map Tls (flat_map _ l2)).
    by rewrite !map_app. }
  unfold server_main. destruct (argc =? 3); cbn [negb]; [|by intros []].
  destruct (bind Http); [intros HI; cbn in HI; exfalso; intuition discriminate|].
  destruct (bind Https); [|destruct signal]; intros _.
  - apply HA.
  - rewrite <- app_assoc. apply HA.
  - rewrite <- !app_assoc. apply HA.
Qed.

End Server.
