(* ===== verification/Endpoint.v ===== *)
(** endpoint (include/boost/beast2/endpoint.hpp, src/endpoint.cpp): an address in
    a union, with a kind that says which member is alive.

    An object records the member of the union that has been constructed:
    destroying, copying or reading another one is undefined.  The addresses and
    their text are the class [Addresses]. *)
From S2P Require Import Prelude.

Module Endpoint.

Class Addresses := {
  ipv4_address : Type;
  ipv6_address : Type;
  show_ipv4 : ipv4_address -> str;
  show_ipv6 : ipv6_address -> str
}.

Inductive host_type := none | name | ipv4 | ipv6 | ipvfuture.

#[export] Instance host_type_eq_dec : EqDecision host_type.
Proof. solve_decision. Defined.

Section Endpoint.
Context `{Addresses}.

Inductive member := Nothing | V4 (a : ipv4_address) | V6 (a : ipv6_address).

Record endpoint := mk_endpoint {
  kind_ : host_type;
  port_ : Z;
  alive : member
}.

(** endpoint() *)
Definition make_none : endpoint := mk_endpoint none 0 Nothing.

Definition make_ipv4 (addr : ipv4_address) (port : Z) : endpoint := mk_endpoint ipv4 port (V4 addr).
Definition make_ipv6 (addr : ipv6_address) (port : Z) : endpoint := mk_endpoint ipv6 port (V6 addr).

(** The members read as the kind says. *)
Definition read_ipv4 (e : endpoint) : comp exn ipv4_address :=
  match alive e with V4 a => Ok a | _ => UB end.
Definition read_ipv6 (e : endpoint) : comp exn ipv6_address :=
  match alive e with V6 a => Ok a | _ => UB end.

(** ~endpoint: what is left of the union. *)
Definition destroy (e : endpoint) : comp exn member :=
  match kind_ e with
  | ipv4 => _ ← read_ipv4 e; Ok Nothing
  | ipv6 => _ ← read_ipv6 e; Ok Nothing
  | _ => Ok (alive e)
  end.

(** endpoint(endpoint const&) *)
Definition copy (other : endpoint) : comp exn endpoint :=
  match kind_ other with
  | ipv4 => a ← read_ipv4 other; Ok (mk_endpoint ipv4 (port_ other) (V4 a))
  | ipv6 => a ← read_ipv6 other; Ok (mk_endpoint ipv6 (port_ other) (V6 a))
  | k => Ok (mk_endpoint k (port_ other) Nothing)
  end.

(** operator=: [self] tells whether both sides are the same object. *)
Definition assign (self : bool) (e other : endpoint) : comp exn endpoint :=
  if self then Ok e
  else
    left ← destroy e;
    match left with
    | Nothing => copy other
    | _ => UB                           (* a member would never be destroyed *)
    end.

Definition port (e : endpoint) : Z := port_ e.
Definition kind (e : endpoint) : host_type := kind_ e.
Definition is_ipv4 (e : endpoint) : bool := bool_decide (kind_ e = ipv4).
Definition is_ipv6 (e : endpoint) : bool := bool_decide (kind_ e = ipv6).

Definition get_ipv4 (e : endpoint) : comp exn ipv4_address :=
  if is_ipv4 e then read_ipv4 e else UB.
Definition get_ipv6 (e : endpoint) : comp exn ipv6_address :=
  if is_ipv6 e then read_ipv6 e else UB.

(** format *)
Definition format (e : endpoint) : comp exn str :=
  s ← (match kind_ e with
       | ipv4 => a ← read_ipv4 e; Ok (show_ipv4 a)
       | ipv6 => a ← read_ipv6 e; Ok (show_ipv6 a)
       | _ => Ok $"none"
       end);
  Ok (if port_ e =? 0 then s else s ++ $":" ++ dec (port_ e)).

(** ** Endpoints as values *)

(** The objects that can be made: the kind says which member is alive. *)
Definition well_formed (e : endpoint) : Prop :=
  0 <= port_ e < 65536 /\
  match alive e with
  | Nothing => kind_ e = none
  | V4 _ => kind_ e = ipv4
  | V6 _ => kind_ e = ipv6
  end.

Lemma well_formed_none : well_formed make_none.
Proof. by split. Qed.

Lemma well_formed_ipv4 a p : 0 <= p < 65536 -> well_formed (make_ipv4 a p).
Proof. by split. Qed.

Lemma well_formed_ipv6 a p : 0 <= p < 65536 -> well_formed (make_ipv6 a p).
Proof. by split. Qed.

(** Copying and assigning give an equal endpoint and never read a dead member, also
    between endpoints of different kinds. *)
Lemma copy_equal e : well_formed e -> copy e = Ok e.
Proof.
  intros [_ He]. destruct e as [k p [|a|a]]; simpl in *; subst; done.
Qed.

Lemma assign_equal self e other :
  well_formed e -> well_formed other -> (self = true -> e = other) ->
  assign self e other = Ok other.
Proof.
  intros [_ He] Ho Hs. unfold assign. destruct self; [by rewrite Hs|].
  rewrite copy_equal by done. destruct e as [k p [|a|a]]; simpl in *; by subst.
Qed.

(** format ends with the port, when there is one. *)
Lemma format_defined e :
  well_formed e ->
  exists s, format e = Ok (s ++ if port_ e =? 0 then [] else $":" ++ dec (port_ e)) /\
    (alive e = Nothing -> s = $"none").
Proof.
  intros [_ He]. unfold format. destruct e as [k p [|a|a]]; simpl in *; subst; cbn [mbind comp_bind].
  - exists $"none". split; [|done]. destruct (p =? 0); by rewrite ?app_nil_r.
  - exists (show_ipv4 a). split; [|done]. destruct (p =? 0); by rewrite ?app_nil_r.
  - exists (show_ipv6 a). split; [|done]. destruct (p =? 0); by rewrite ?app_nil_r.
Qed.

Lemma get_ipv4_defined e : well_formed e -> is_ipv4 e = true -> exists a, get_ipv4 e = Ok a.
Proof.
  intros [_ He] Hk. unfold get_ipv4. rewrite Hk. apply bool_decide_eq_true in Hk.
  destruct e as [k p [|a|a]]; simpl in *; subst; try done. by exists a.
Qed.

End Endpoint.

End Endpoint.
